(* ===== verification/_CoqProject ===== *)
-Q . S2P
Prelude.v
Collections.v
Ieee.v
F64.v
Cid.v
CidFacts.v
Ipld.v
IpldFacts.v
Store.v
Hamt.v
HamtFacts.v
KNode.v
KNodeFacts.v
ColdStore.v
KGc.v
KGcFacts.v
WantList.v
WantListFacts.v
Session.v
SessionFacts.v
Raft.v
RaftFacts.v
Pinning.v
PinningFacts.v
CircuitBreaker.v
CircuitBreakerFacts.v
Ir.v
Reasoning.v
UnifyFacts.v
ReasoningFacts.v
ReasoningLimits.v
Recursive.v
RecursiveFacts.v
Block.v
BlockFacts.v
Dag.v
DagFacts.v
Chunking.v
ParallelChunking.v
RabinFacts.v
ChunkingFacts.v
Streaming.v
StreamingFacts.v
Compression.v
Car.v
CarFacts.v
StorageGc.v
StorageGcFacts.v
F32.v
Vector.v
VectorFacts.v
Graph.v
GraphFacts.v
MerkleBatch.v
MerkleBatchFacts.v
Erasure.v
ErasureFacts.v
Wal.v
WalFacts.v
Peers.v
PeersFacts.v
PeerBreaker.v
Bitswap.v
BitswapFacts.v
Eventual.v
EventualFacts.v
BlockCache.v
BlockCacheFacts.v
FixpointEngine.v
FixpointFacts.v
Datalog.v
DatalogFacts.v
Vcs.v
VcsFacts.v
TxLog.v
TxLogFacts.v
Manifest.v
ManifestFacts.v
Node.v
NodeFacts.v
