(* ===== verification/Prelude.v ===== *)
(** * IPFRS verification library

    A Rocq model of the core of IPFRS, the content-addressed file system with a knowledge and
    reasoning layer under [crates/].  Every definition translates Rust code; the theorems say what
    the code guarantees, and where it does not do what it means to.

    ** How the program is put together

    Data is cut into blocks named by the hash of their bytes ([ipfrs-core]).  Structured data is
    IPLD, encoded as DAG-CBOR, so blocks link to blocks.  A storage backend ([ipfrs-storage]) keeps
    blocks, pins protect some of them, and collectors delete the rest; a RAFT log replicates the
    changes of a backend.  The transport ([ipfrs-transport]) asks peers for the blocks of want lists,
    grouped in sessions.  The knowledge layer ([ipfrs-knowledge]) stores graph nodes as blocks,
    indexes them in a persistent trie and keeps a hot tier in front of a backend.  The reasoning
    layer ([ipfrs-tensorlogic]) answers queries over logic programs.  A node ([ipfrs]) puts a store and
    its own pins together with the network and offers files, directories, pins and maintenance.

    ** Files and the code they model

    - [Prelude]: fallible code ([outcome]: a value, an error, a panic, or the model's lack of fuel),
      fallible code on a state ([stateful]), machine integers, bytes, UTF-8.  [Collections]: ordered
      maps, hash maps with an unknown iteration order ([HashIter]), binary heaps, work lists.
      [Ieee]: floats as bit patterns; [F32], [F64]: their arithmetic, by integers.
    - [Cid], [CidFacts]: [ipfrs-core/src/cid.rs], [error.rs].  The [cid] and [multihash] crates are
      the class [CidCrate] with the laws [CidLaws]; [Cid.Reference] is an instance.
    - [Ipld], [IpldFacts]: [ipfrs-core/src/ipld.rs].
    - [Block], [BlockFacts]: [ipfrs-core/src/block.rs] and the checks of [utils.rs]; [Dag],
      [DagFacts]: [dag.rs].
    - [Chunking], [RabinFacts], [ChunkingFacts]: [ipfrs-core/src/chunking.rs]; [ParallelChunking]:
      [parallel_chunking.rs]; [Streaming], [StreamingFacts]: [streaming.rs].
    - [Compression]: [ipfrs-core/src/compression.rs]; [Car], [CarFacts]: [car.rs]; [MerkleBatch],
      [MerkleBatchFacts]: [merkle_batch.rs]; [BlockCache], [BlockCacheFacts]: [block_cache.rs];
      [Manifest], [ManifestFacts]: [manifest.rs].
    - [Store], [Hamt], [HamtFacts]: [ipfrs-knowledge/src/store.rs], [hamt.rs]; [KNode], [KNodeFacts]:
      [node.rs]; [KGc], [KGcFacts]: [gc.rs], [tiered.rs]; [Vector], [VectorFacts]: [vector.rs];
      [Graph], [GraphFacts]: [graph.rs].
    - [ColdStore]: [ipfrs-storage/src/traits.rs], [memory.rs]; [Pinning], [PinningFacts]:
      [pinning.rs]; [StorageGc], [StorageGcFacts]: [gc.rs]; [Raft], [RaftFacts]: [raft.rs];
      [CircuitBreaker], [CircuitBreakerFacts]: [circuit_breaker.rs]; [Wal], [WalFacts]:
      [write_ahead_log.rs]; [TxLog], [TxLogFacts]: [transaction_log.rs]; [Vcs], [VcsFacts]: [vcs.rs]
      (on a store that notices a replaced block, [ColdStore.Watched]); [Eventual], [EventualFacts]:
      [eventual_consistency.rs].
    - [WantList], [WantListFacts]: [ipfrs-transport/src/want_list.rs]; [Session], [SessionFacts]:
      [session.rs]; [Erasure], [ErasureFacts]: [erasure.rs]; [Peers], [PeersFacts], [PeerBreaker]:
      [peer_manager.rs]; [Bitswap], [BitswapFacts]: [bitswap.rs] and the data of [messages.rs].
    - [Ir], [Reasoning], [UnifyFacts], [ReasoningFacts], [ReasoningLimits]:
      [ipfrs-tensorlogic/src/ir.rs], [reasoning.rs]; [Recursive], [RecursiveFacts],
      [FixpointEngine], [FixpointFacts]: [recursive_reasoning.rs]; [Datalog], [DatalogFacts]:
      [datalog.rs] and the [Display] instances of [ir.rs].
    - [Node], [NodeFacts]: [ipfrs/src/pin.rs], [gc.rs], [fsck.rs], [repo.rs] and the block, DAG, pin and
      repository operations of [ipfrs/src/node/].

    A file named after a component holds its data and operations under the names of the code, with
    a stem where a name occurs twice; the file [...Facts] holds its theorems.  A method with
    [&mut self] is a function on the state, one that can fail after changing it a [stateful]
    computation.  Interior mutability is made explicit the same way; where several threads can
    interleave and a theorem depends on it, the operations are steps of a relation
    ([Raft], [CircuitBreaker]) at the granularity of the code's locks.

    ** Interfaces

    [BlockStore] and [ColdStore] are the two storage traits as classes, with the laws their clients
    rely on ([BlockStoreLaws], [ColdLaws], [Reliable]); [BlockFetcher] is the trait readers fetch
    through.  The trie is proved against [BlockStore], the collectors and the tiered store against
    [ColdStore], and the in-memory stores discharge the laws.  What comes from other crates is a
    class of the operations the code calls, with the documented behaviour it relies on as laws and
    a concrete instance at which the witnesses are evaluated: [CidCrate], [CidReader],
    [Compressors], [Unicode] (trimming, lower case), [Sha256], [CharClasses] (classes of characters), [CidText] (CIDs as
    text), [CommitCodec] (commits as JSON).

    ** What the theorems show

    - Encodings: decoding inverts encoding for DAG-CBOR values, knowledge nodes, CAR archives and
      chunked files; the DAG-CBOR decoder answers on every input, and so does chunking, with the
      causes of its errors, for two links per node or more.
    - Refinement: the trie implements finite-map lookup, insertion and enumeration on every store
      without hash collisions, and keeps old versions; chunked files are balanced trees over the
      pieces of the file.
    - Graph: adding entities and relations changes exactly what it names, and a graph reopened from
      the root it committed holds the same nodes, relations and vectors; a search returns the
      nearest vectors, in order.
    - Proofs and redundancy: a Merkle batch proof the verifier accepts, whatever its indices, shows the
      leaves of the tree or a hash collision, and the prover's proofs are accepted, as are those of manifests; a block
      comes back from its data shards.
    - Versions: histories of commits stay readable to their end, but for those of commits taken in
      by CID without their parents, and a merge keeps both sides; the
      walks over histories decide ancestry; version vectors order writes by causality; replicas that
      take the same writes agree.
    - Logs and caches: the transaction log answers every call like an unbounded journal; the block
      cache accounts for its bytes and stays within its limits.
    - Crashes: whatever is torn off the write-ahead log, recovery finds the complete entries and
      replays a transaction as a whole or not at all; a damaged byte is detected.
    - Collection and durability: the collectors delete exactly what nothing protects, whatever fails
      or interrupts them (the storage collector keeps every pin even when its cancel flag is cleared
      under it, and what the pins reach unless that happens); the tiered store loses no block; a recursive pin protects its graph and can
      be taken back.
    - The node: a recursive pin keeps a complete graph through every other call, and its collector
      deletes exactly what no pin reaches.
    - Protocol state: the want list keeps one live heap entry per want (until its 64-bit version
      counter wraps) and pops by priority, sessions complete at the last receipt, circuit breakers
      open and recover, a RAFT node makes of its log exactly what the leader's entries prescribe and
      votes once a term.
    - Exchange: on every history requests go to peers that can answer them, peers that keep failing
      are banned, what arrives is stored, no longer wanted and served as last received, and clean-up removes exactly
      the expired wants.
    - Walks: the ways a DAG is walked visit the same nodes, and the paths found to a CID are exactly
      those that lead to it.
    - Reasoning: on ground goals over closed knowledge bases proof search is exact and queries are
      sound; stratification finds exactly the recursive programs; the fixpoint engine derives every
      atom of a Datalog program whose derivation fits its limit of iterations; a printed statement is
      parsed back, and the parser answers on every text.
    - Departures: theorems that exhibit, on concrete inputs, behaviour the code does not mean to have
      (lost bindings in unification and atoms without derivation in the fixpoint, chunking that does
      not end, archives their reader rejects, roots of the parallel chunker that readers misread, a
      vote cast twice, descendants of a recursive pin that are collected, data shards that no parity
      shard replaces, a second write of a block that waits for its own lock, a cache that evicts what
      was inserted last, tags that move, manifests that depend on the order of repeated chunks, a
      pinned graph collected behind a cleared cancel flag, a head whose history is not stored, a
      node's orphan collector that ignores what recursive pins reach).

    ** Fuel

    Recursion that is not structural takes fuel, and [OutOfFuel] is no behaviour of the code.  Each
    such function has a bound that suffices, proved: the length of the input for decoders and
    scans; for work lists over a graph, the visits and the links still to be pushed ([todo]) or the
    CIDs that can be reached; the number of levels for chunking; the height of derivations for proof
    search.  Where no fuel suffices, that is the theorem ([unify_diverges],
    [chunk_one_link_diverges]).

    ** Not modelled

    - Text forms of CIDs, DAG-JSON, [serde] and [Display] glue, and ratios that only statistics of
      sessions, chunking and archives report: glue over other crates, or values nothing depends on.
    - Time, randomness and the network enter as arguments (clock readings, random draws, messages);
      event loops, [tokio] channels and the transports themselves are not modelled.
    - Persistence through [sled], files, S3 and the like, and encryption: calls of libraries.
    - The bridge of the graph to [petgraph] and its Markdown projection.
    - Starting and stopping a node, and its semantic, reasoning and distributed operations, which pass
      their arguments on.
    - [ipfrs-network], [ipfrs-semantic] and most of [ipfrs-tensorlogic] and [ipfrs-storage] beyond
      the files above: libraries of independent components, many of them floating-point
      (embeddings, gradients, statistics), that the core does not call.
    - The command line, HTTP, GraphQL and gRPC interfaces and the Python, Node.js and WebAssembly
      bindings: wrappers of the modelled operations. *)

From Stdlib Require Import ZArith Lia List Sorted.
From stdpp Require Import base tactics numbers list gmap sets strings.

Declare Scope ipfrs_scope.
Delimit Scope ipfrs_scope with ipfrs.

(** ** Outcomes of fallible code

    A Rust function of type [Result<A, E>] may return [Ok] or [Err]; the process may also
    panic (slice index, arithmetic underflow, capacity overflow), which the callers of the
    modelled code do not catch.  [OutOfFuel] is not a behaviour of the code: it says that the
    fuel given to a definition whose recursion is not structural was too small, and every
    such definition has a theorem that a stated amount of fuel rules it out. *)
Inductive outcome (E A : Type) : Type :=
| Ok (a : A)
| Err (e : E)
| Panic
| OutOfFuel.
Arguments Ok {E A} a.
Arguments Err {E A} e.
Arguments Panic {E A}.
Arguments OutOfFuel {E A}.

Definition outcome_bind {E A B} (f : A → outcome E B) (m : outcome E A) : outcome E B :=
  match m with
  | Ok a => f a
  | Err e => Err e
  | Panic => Panic
  | OutOfFuel => OutOfFuel
  end.

(** [Result::map_err] and [?] with a [From] conversion. *)
Definition map_err {E F A} (f : E → F) (m : outcome E A) : outcome F A :=
  match m with
  | Ok a => Ok a
  | Err e => Err (f e)
  | Panic => Panic
  | OutOfFuel => OutOfFuel
  end.

(** [Option::ok_or_else]. *)
Definition ok_or {E A} (o : option A) (e : E) : outcome E A :=
  match o with
  | Some a => Ok a
  | None => Err e
  end.

Notation "'let!' x := m 'in' k" := (outcome_bind (fun x => k) m)
  (at level 10, x pattern, m at level 100, k at level 200, only parsing) : ipfrs_scope.
Open Scope ipfrs_scope.

Lemma outcome_bind_Ok {E A B} (f : A → outcome E B) (m : outcome E A) (b : B) :
  outcome_bind f m = Ok b ↔ ∃ a, m = Ok a ∧ f a = Ok b.
Proof.
  split; [destruct m; simpl; intros; simplify_eq; eauto | intros (? & -> & ?); done].
Qed.

(** An error is returned, or a result with [P]. *)
Definition fails_or {E A} (o : outcome E A) (P : A → Prop) : Prop :=
  match o with Ok a => P a | Err _ => True | Panic | OutOfFuel => False end.
Lemma fails_or_bind {E A B} (P : A → Prop) (Q : B → Prop) (f : A → outcome E B) (o : outcome E A) :
  fails_or o P → (∀ a, P a → fails_or (f a) Q) → fails_or (outcome_bind f o) Q.
Proof. destruct o; simpl; auto. Qed.

Lemma outcome_bind_eq {E A B} (f : A → outcome E B) (m : outcome E A) (a : A) :
  m = Ok a → outcome_bind f m = f a.
Proof. by intros ->. Qed.

Lemma map_err_Ok {E F A} (f : E → F) (m : outcome E A) (a : A) :
  map_err f m = Ok a ↔ m = Ok a.
Proof.
  destruct m; simpl; split; congruence.
Qed.

Lemma ok_or_Ok {E A} (o : option A) (e : E) (a : A) :
  ok_or o e = Ok a ↔ o = Some a.
Proof. destruct o; simpl; split; congruence. Qed.

(** [Iterator::collect::<Result<Vec<_>, _>>]: the first error wins. *)
Fixpoint try_map {E A B} (f : A → outcome E B) (l : list A) : outcome E (list B) :=
  match l with
  | [] => Ok []
  | a :: l' => let! b := f a in let! bs := try_map f l' in Ok (b :: bs)
  end.

Lemma try_map_Ok {E A B} (f : A → outcome E B) (l : list A) (bs : list B) :
  try_map f l = Ok bs ↔ Forall2 (λ a b, f a = Ok b) l bs.
Proof.
  revert bs; induction l as [|a l IH]; intros bs; simpl.
  - split; [intros [= <-]; constructor | by inversion 1].
  - rewrite outcome_bind_Ok. split.
    + intros (b & Hb & H). apply outcome_bind_Ok in H as (bs' & Hbs & [= <-]).
      constructor; [done | by apply IH].
    + inversion 1 as [|? b ? bs' Hb Hbs]; subst. exists b; split; [done|].
      apply IH in Hbs. by rewrite Hbs.
Qed.

(** The inverse direction used by the round trips: a left inverse of [f] lifts to lists. *)
Lemma try_map_fmap {E A B} (f : A → outcome E B) (g : B → A) (l : list B) :
  Forall (λ b, f (g b) = Ok b) l → try_map f (g <$> l) = Ok l.
Proof.
  induction 1 as [|b l Hb _ IH]; [done|].
  rewrite fmap_cons. simpl. rewrite Hb. simpl. by rewrite IH.
Qed.

(** Case analysis on a chain of fallible calls known to return [Ok]. *)
Ltac inv_outcome :=
  repeat match goal with
  | H : outcome_bind _ _ = Ok _ |- _ => apply outcome_bind_Ok in H as (? & ? & ?)
  | H : map_err _ _ = Ok _ |- _ => apply map_err_Ok in H
  | H : ok_or _ _ = Ok _ |- _ => apply ok_or_Ok in H
  | H : Ok _ = Ok _ |- _ => injection H as H
  | H : Err _ = Ok _ |- _ => discriminate H
  | H : Panic = Ok _ |- _ => discriminate H
  | H : OutOfFuel = Ok _ |- _ => discriminate H
  end.

(** ** Fallible code that changes a state

    A method taking [&mut self]: the changes made before an error stay. *)
Definition stateful (S E A : Type) : Type := S → outcome E A * S.

Definition st_bind {S E A B} (f : A → stateful S E B) (m : stateful S E A) : stateful S E B :=
  λ s, match m s with
       | (Ok a, s') => f a s'
       | (Err e, s') => (Err e, s')
       | (Panic, s') => (Panic, s')
       | (OutOfFuel, s') => (OutOfFuel, s')
       end.

(** A computation that does not touch the state, one that reads it, and one that changes it. *)
Definition lift {S E A} (o : outcome E A) : stateful S E A := λ s, (o, s).
Definition reads {S E A} (f : S → outcome E A) : stateful S E A := λ s, (f s, s).
Definition modifies {S E} (f : S → S) : stateful S E unit := λ s, (Ok tt, f s).

Notation "'do!' x := m 'in' k" := (st_bind (fun x => k) m)
  (at level 10, x pattern, m at level 100, k at level 200, only parsing) : ipfrs_scope.

Lemma st_bind_lift {S E A B} (f : A → stateful S E B) (a : A) : st_bind f (lift (Ok a)) = f a.
Proof. reflexivity. Qed.

Lemma st_bind_Ok {S E A B} (f : A → stateful S E B) (m : stateful S E A) s b s' :
  st_bind f m s = (Ok b, s') ↔ ∃ a s1, m s = (Ok a, s1) ∧ f a s1 = (Ok b, s').
Proof.
  unfold st_bind. split.
  - destruct (m s) as [[] s1]; intros; simplify_eq; eauto.
  - by intros (a & s1 & -> & ?).
Qed.

(** ** Machine integers *)

Definition u64_max : Z := 2 ^ 64 - 1.
Definition isize_max : Z := 2 ^ 63 - 1.

(** [x as u64], from any wider or signed integer type. *)
Definition as_u64 (x : Z) : Z := x mod 2 ^ 64.

(** [x as u32], or [u32] arithmetic in a build without overflow checks. *)
Definition as_u32 (x : Z) : Z := x mod 2 ^ 32.

(** [x as i64], from an unsigned or wider type. *)
Definition as_i64 (x : Z) : Z := ((x + 2 ^ 63) mod 2 ^ 64 - 2 ^ 63)%Z.

Definition u64_saturating_mul (x y : Z) : Z := Z.min u64_max (x * y).

Lemma as_u64_small x : (0 ≤ x < 2 ^ 64)%Z → as_u64 x = x.
Proof. apply Z.mod_small. Qed.

Lemma as_u64_add x d : as_u64 (as_u64 x + d) = as_u64 (x + d).
Proof. unfold as_u64. by rewrite Zplus_mod_idemp_l. Qed.

Lemma as_u32_small x : (0 ≤ x < 2 ^ 32)%Z → as_u32 x = x.
Proof. apply Z.mod_small. Qed.

Lemma as_i64_small x : (- 2 ^ 63 ≤ x < 2 ^ 63)%Z → as_i64 x = x.
Proof. intros. unfold as_i64. rewrite Z.mod_small; lia. Qed.

(** Bytes are integers below 256; [Vec<u8>] and [&[u8]] are lists of them. *)
Abbreviation bytes := (list Z).

(** [to_be_bytes] of an [n]-byte unsigned integer, and [from_be_bytes]. *)
Fixpoint be_bytes (n : nat) (v : Z) : bytes :=
  match n with
  | O => []
  | S n' => be_bytes n' (v / 256) ++ [(v mod 256)%Z]
  end.

Definition of_be_bytes (l : bytes) : Z := fold_left (λ acc b, acc * 256 + b)%Z l 0%Z.

Lemma length_be_bytes n v : length (be_bytes n v) = n.
Proof. revert v; induction n; intros; simpl; [done|]. rewrite length_app, IHn; simpl; lia. Qed.

Lemma of_be_bytes_snoc l b : of_be_bytes (l ++ [b]) = (of_be_bytes l * 256 + b)%Z.
Proof. unfold of_be_bytes. by rewrite fold_left_app. Qed.

Lemma of_be_be_bytes n v :
  (0 ≤ v < 256 ^ Z.of_nat n)%Z → of_be_bytes (be_bytes n v) = v.
Proof.
  revert v; induction n as [|n IH]; intros v Hv.
  - simpl in *. unfold of_be_bytes; simpl. lia.
  - simpl be_bytes. rewrite of_be_bytes_snoc, IH.
    + pose proof (Z.div_mod v 256). lia.
    + rewrite Nat2Z.inj_succ, Z.pow_succ_r in Hv by lia. split.
      * apply Z.div_pos; lia.
      * apply Z.div_lt_upper_bound; lia.
Qed.

Lemma be_bytes_range n v : Forall (λ b, 0 ≤ b < 256)%Z (be_bytes n v).
Proof.
  revert v; induction n; intros; simpl; [constructor|].
  apply Forall_app; split; [done|]. repeat constructor; apply Z.mod_pos_bound; lia.
Qed.

(** Little-endian integers: [to_le_bytes] and [from_le_bytes]. *)
Definition le_bytes (n : nat) (v : Z) : bytes := reverse (be_bytes n v).
Definition of_le_bytes (l : bytes) : Z := of_be_bytes (reverse l).

Lemma length_le_bytes n v : length (le_bytes n v) = n.
Proof. unfold le_bytes. by rewrite length_reverse, length_be_bytes. Qed.

Lemma of_le_le_bytes n v : (0 ≤ v < 256 ^ Z.of_nat n)%Z → of_le_bytes (le_bytes n v) = v.
Proof. intros Hv. unfold of_le_bytes, le_bytes. rewrite reverse_involutive. by apply of_be_be_bytes. Qed.

Lemma le_bytes_range n v : Forall (λ b, 0 ≤ b < 256)%Z (le_bytes n v).
Proof. unfold le_bytes. rewrite reverse_Permutation. apply be_bytes_range. Qed.

#[global] Arguments be_bytes : simpl never.

(** ** Strings as their UTF-8 bytes *)

Definition string_bytes (s : string) : bytes :=
  (λ c, Z.of_N (Ascii.N_of_ascii c)) <$> String.list_ascii_of_string s.
Definition bytes_string (l : bytes) : string :=
  String.string_of_list_ascii ((λ b, Ascii.ascii_of_N (Z.to_N b)) <$> l).

Lemma bytes_string_bytes s : bytes_string (string_bytes s) = s.
Proof.
  unfold bytes_string, string_bytes. rewrite <- list_fmap_compose.
  induction s as [|c s IH]; simpl; [done|].
  rewrite N2Z.id, Ascii.ascii_N_embedding. by f_equal.
Qed.

Lemma string_bytes_string l : Forall (λ b, 0 ≤ b < 256)%Z l → string_bytes (bytes_string l) = l.
Proof.
  intros Hl. unfold string_bytes, bytes_string. rewrite String.list_ascii_of_string_of_list_ascii.
  induction Hl as [|b l Hb _ IH]; simpl; [done|]. f_equal; [|done].
  rewrite Ascii.N_ascii_embedding, Z2N.id; [done|lia|]. apply N2Z.inj_lt. rewrite Z2N.id; lia.
Qed.

Lemma string_bytes_inj s t : string_bytes s = string_bytes t → s = t.
Proof. intros H. by rewrite <- (bytes_string_bytes s), H, bytes_string_bytes. Qed.

Lemma length_string_bytes s : length (string_bytes s) = String.length s.
Proof. unfold string_bytes. rewrite length_fmap. induction s; simpl; auto. Qed.

Definition utf8_cont (b : Z) : bool := (0x80 <=? b)%Z && (b <=? 0xBF)%Z.
Definition in_range (lo hi b : Z) : bool := (lo <=? b)%Z && (b <=? hi)%Z.

(** [String::from_utf8] succeeds exactly on the well-formed sequences of the Unicode
    standard (table 3-7): no overlong forms, no surrogates, nothing above U+10FFFF. *)
Fixpoint utf8_valid (l : bytes) : bool :=
  match l with
  | [] => true
  | b0 :: r0 =>
    if (b0 <? 0x80)%Z then utf8_valid r0 else
    match r0 with
    | [] => false
    | b1 :: r1 =>
      if in_range 0xC2 0xDF b0 && utf8_cont b1 then utf8_valid r1 else
      match r1 with
      | [] => false
      | b2 :: r2 =>
        if ((b0 =? 0xE0)%Z && in_range 0xA0 0xBF b1
            || (in_range 0xE1 0xEC b0 || in_range 0xEE 0xEF b0) && utf8_cont b1
            || (b0 =? 0xED)%Z && in_range 0x80 0x9F b1) && utf8_cont b2
        then utf8_valid r2 else
        match r2 with
        | [] => false
        | b3 :: r3 =>
          if ((b0 =? 0xF0)%Z && in_range 0x90 0xBF b1
              || in_range 0xF1 0xF3 b0 && utf8_cont b1
              || (b0 =? 0xF4)%Z && in_range 0x80 0x8F b1) && utf8_cont b2 && utf8_cont b3
          then utf8_valid r3 else false
        end
      end
    end
  end.

(** [str::chars] of a valid string. *)
Fixpoint chars (l : bytes) : list Z :=
  match l with
  | [] => []
  | b0 :: r0 =>
    if (b0 <? 0x80)%Z then b0 :: chars r0 else
    match r0 with
    | [] => []
    | b1 :: r1 =>
      if (b0 <? 0xE0)%Z then ((b0 - 0xC0) * 64 + (b1 - 0x80))%Z :: chars r1 else
      match r1 with
      | [] => []
      | b2 :: r2 =>
        if (b0 <? 0xF0)%Z then ((b0 - 0xE0) * 4096 + (b1 - 0x80) * 64 + (b2 - 0x80))%Z :: chars r2 else
        match r2 with
        | [] => []
        | b3 :: r3 =>
          ((b0 - 0xF0) * 262144 + (b1 - 0x80) * 4096 + (b2 - 0x80) * 64 + (b3 - 0x80))%Z :: chars r3
        end
      end
    end
  end.

(** What the Rust type [String] guarantees of its values, with the allocation limit. *)
Definition str_ok (s : string) : Prop :=
  utf8_valid (string_bytes s) = true ∧ (Z.of_nat (String.length s) ≤ isize_max)%Z.

Definition str_okb (s : string) : bool :=
  utf8_valid (string_bytes s) && (Z.of_nat (String.length s) <=? isize_max)%Z.

Lemma str_okb_ok s : str_okb s = true → str_ok s.
Proof. by intros [? ?%Z.leb_le]%andb_true_iff. Qed.

(** ** Durations, in nanoseconds *)
Definition secs (n : Z) : Z := (n * 1000000000)%Z.
Definition millis (n : Z) : Z := (n * 1000000)%Z.
(** [Duration::as_millis], a [u128]. *)
Definition as_millis (d : Z) : Z := (d / 1000000)%Z.
