(* ===== verification/Collections.v ===== *)
(** * The standard-library collections the modelled code iterates over

    [BTreeMap<String, V>] is a list of pairs with strictly increasing keys: its iteration
    order is part of the encodings built on it, so it is kept as data.  Keys are compared as
    Rust compares [String]s, byte by byte. *)

From Stdlib Require Import ZArith Lia List Sorted.
From stdpp Require Import base tactics numbers list gmap sets strings.
From S2P Require Import Prelude.

(** ** The order on string keys *)

Definition slt (s t : string) : Prop := String.compare s t = Lt.

#[global] Instance slt_dec s t : Decision (slt s t).
Proof. unfold slt. apply _. Defined.

Lemma string_compare_refl s : String.compare s s = Eq.
Proof.
  induction s as [|c s IH]; simpl; [done|]. unfold Ascii.compare. by rewrite N.compare_refl.
Qed.

Lemma slt_irrefl s : ¬ slt s s.
Proof. unfold slt. by rewrite string_compare_refl. Qed.

Lemma slt_trans s t u : slt s t → slt t u → slt s u.
Proof.
  unfold slt. revert t u; induction s as [|a s IH]; intros [|b t] [|c u]; simpl; try done.
  unfold Ascii.compare.
  destruct (N.compare_spec (Ascii.N_of_ascii a) (Ascii.N_of_ascii b)) as [E1|E1|E1]; try done;
  destruct (N.compare_spec (Ascii.N_of_ascii b) (Ascii.N_of_ascii c)) as [E2|E2|E2]; try done;
  intros H1 H2.
  - rewrite E1, E2, N.compare_refl. eauto.
  - by rewrite E1, (proj2 (N.compare_lt_iff _ _) E2).
  - by rewrite <- E2, (proj2 (N.compare_lt_iff _ _) E1).
  - by rewrite (proj2 (N.compare_lt_iff _ _) (N.lt_trans _ _ _ E1 E2)).
Qed.

#[global] Instance slt_transitive : Transitive slt := slt_trans.

Lemma slt_ne s t : slt s t → s ≠ t.
Proof. intros H ->. by apply slt_irrefl in H. Qed.

Lemma string_compare_gt s t : String.compare s t = Gt ↔ slt t s.
Proof.
  unfold slt. rewrite String.compare_antisym.
  destruct (String.compare t s); simpl; split; done.
Qed.

(** ** [BTreeMap<String, V>] *)
Section btree.
Context {V : Type}.
Implicit Types m : list (string * V).

(** The representation invariant of the map. *)
Definition bt_sorted m : Prop := StronglySorted (λ p q, slt p.1 q.1) m.

(** [BTreeMap::insert], which replaces the value of a key already present. *)
Fixpoint bt_insert (k : string) (v : V) m : list (string * V) :=
  match m with
  | [] => [(k, v)]
  | (k', v') :: m' =>
    match String.compare k k' with
    | Lt => (k, v) :: m
    | Eq => (k, v) :: m'
    | Gt => (k', v') :: bt_insert k v m'
    end
  end.

(** [BTreeMap::get]. *)
Fixpoint bt_get (k : string) m : option V :=
  match m with
  | [] => None
  | (k', v') :: m' => if String.eqb k k' then Some v' else bt_get k m'
  end.

Lemma bt_get_insert_eq k v m : bt_get k (bt_insert k v m) = Some v.
Proof.
  induction m as [|[k' v'] m IH]; simpl.
  - by rewrite String.eqb_refl.
  - destruct (String.compare k k') eqn:E; simpl; rewrite ?String.eqb_refl; try done.
    destruct (String.eqb_spec k k') as [->|]; [|done].
    by rewrite string_compare_refl in E.
Qed.

Lemma bt_get_insert_ne k k' v m : k ≠ k' → bt_get k (bt_insert k' v m) = bt_get k m.
Proof.
  intros Hne. induction m as [|[k2 v2] m IH]; simpl.
  - by destruct (String.eqb_spec k k').
  - destruct (String.compare k' k2) eqn:E; simpl.
    + apply String.compare_eq_iff in E as <-. by destruct (String.eqb_spec k k').
    + by destruct (String.eqb_spec k k').
    + by rewrite IH.
Qed.

Lemma bt_insert_keys k v m p : p ∈ bt_insert k v m → p = (k, v) ∨ p ∈ m.
Proof.
  induction m as [|[k' v'] m IH]; simpl.
  - rewrite list_elem_of_singleton; auto.
  - destruct (String.compare k k'); rewrite !elem_of_cons; intuition.
Qed.

Lemma bt_sorted_cons p m :
  bt_sorted (p :: m) ↔ bt_sorted m ∧ ∀ q, q ∈ m → slt p.1 q.1.
Proof.
  unfold bt_sorted. split.
  - inversion 1; subst. split; [done|]. by apply Forall_forall.
  - intros [? ?]. constructor; [done|]. by apply Forall_forall.
Qed.

Lemma bt_insert_sorted k v m : bt_sorted m → bt_sorted (bt_insert k v m).
Proof.
  induction m as [|[k' v'] m IH]; simpl; intros H.
  - apply bt_sorted_cons; split; [constructor | by intros q ?%elem_of_nil].
  - apply bt_sorted_cons in H as [Hm Hlt]. simpl in Hlt.
    destruct (String.compare k k') eqn:E.
    + apply String.compare_eq_iff in E as <-. by apply bt_sorted_cons.
    + repeat (apply bt_sorted_cons; split); try done.
      intros q [->|Hq]%elem_of_cons; [done|]. etrans; [exact E | by apply Hlt].
    + apply string_compare_gt in E. apply bt_sorted_cons; split; [auto|].
      intros q [->|Hq]%bt_insert_keys; simpl; auto.
Qed.

(** Inserting a key above every key of the map appends it: a decoder that inserts keys
    in encoding order rebuilds the same list. *)
Lemma bt_insert_last k v m :
  (∀ q, q ∈ m → slt q.1 k) → bt_insert k v m = m ++ [(k, v)].
Proof.
  induction m as [|[k' v'] m IH]; simpl; intros H; [done|].
  assert (slt k' k) as Hk by (apply (H (k', v')); left).
  apply string_compare_gt in Hk. rewrite Hk. f_equal. apply IH. intros q Hq. apply H. by right.
Qed.

Lemma bt_sorted_app_lt m1 p m2 :
  bt_sorted (m1 ++ p :: m2) → ∀ q, q ∈ m1 → slt q.1 p.1.
Proof.
  induction m1 as [|q1 m1 IH]; simpl; intros H q; [by intros ?%elem_of_nil|].
  apply bt_sorted_cons in H as [H Hlt]. intros [->|Hq]%elem_of_cons; [|by apply IH].
  apply Hlt. apply elem_of_app; right; left.
Qed.

Lemma length_bt_insert k v m : (length (bt_insert k v m) <= S (length m))%nat.
Proof.
  induction m as [|[k' v'] m IH]; simpl; [lia|]. destruct (String.compare k k'); simpl; lia.
Qed.

Lemma bt_get_elem_of k v m : bt_get k m = Some v → (k, v) ∈ m.
Proof.
  induction m as [|[k' v'] m IH]; simpl; [done|].
  destruct (String.eqb_spec k k') as [->|]; [intros [= ->]; left | right; auto].
Qed.

Lemma elem_of_bt_get k v m : bt_sorted m → (k, v) ∈ m → bt_get k m = Some v.
Proof.
  induction m as [|[k' v'] m IH]; simpl; intros Hs; [by intros ?%elem_of_nil|].
  apply bt_sorted_cons in Hs as [Hs Hlt]. simpl in Hlt.
  intros [[= -> ->]|Hin]%elem_of_cons; [by rewrite String.eqb_refl|].
  destruct (String.eqb_spec k k') as [->|]; [|auto].
  apply Hlt in Hin. simpl in Hin. by apply slt_irrefl in Hin.
Qed.

(** Building a map from a list of pairs ([collect], or repeated [insert]). *)
Definition bt_of_list (l : list (string * V)) : list (string * V) :=
  fold_left (λ m p, bt_insert p.1 p.2 m) l [].

Lemma bt_of_list_app_sorted l m :
  bt_sorted (m ++ l) → fold_left (λ m p, bt_insert p.1 p.2 m) l m = m ++ l.
Proof.
  revert m; induction l as [|p l IH]; intros m H; simpl; [by rewrite app_nil_r|].
  rewrite bt_insert_last by (by eapply bt_sorted_app_lt). destruct p as [k v]; simpl.
  rewrite IH; rewrite <- app_assoc; done.
Qed.

Lemma bt_of_list_sorted l : bt_sorted l → bt_of_list l = l.
Proof. intros. by apply (bt_of_list_app_sorted l []). Qed.

Lemma bt_of_list_is_sorted l : bt_sorted (bt_of_list l).
Proof.
  unfold bt_of_list. assert (bt_sorted ([] : list (string * V))) as H by constructor.
  revert H. generalize ([] : list (string * V)).
  induction l as [|p l IH]; intros m H; simpl; [done|]. apply IH. by apply bt_insert_sorted.
Qed.
End btree.


(** ** Concatenations *)
Lemma elem_of_list_map {A B} (f : A → B) l y : y ∈ map f l ↔ ∃ x, f x = y ∧ x ∈ l.
Proof. rewrite list_elem_of_In, in_map_iff. by setoid_rewrite list_elem_of_In. Qed.

Lemma NoDup_concat {A} (ls : list (list A)) :
  (∀ i x, ls !! i = Some x → NoDup x) →
  (∀ i j x y a, ls !! i = Some x → ls !! j = Some y → a ∈ x → a ∈ y → i = j) →
  NoDup (concat ls).
Proof.
  induction ls as [|l ls IH]; intros Hnd Hdisj; simpl; [constructor|].
  apply NoDup_app. split_and!.
  - by apply (Hnd 0).
  - intros a Ha (l' & Hl' & Ha')%list_elem_of_In%in_concat.
    apply list_elem_of_In, list_elem_of_lookup in Hl' as [j Hj].
    apply list_elem_of_In in Ha'. by pose proof (Hdisj 0 (S j) l l' a eq_refl Hj Ha Ha').
  - apply IH; [intros i x Hi; by apply (Hnd (S i))|].
    intros i j x y a Hi Hj Hx Hy. pose proof (Hdisj (S i) (S j) x y a Hi Hj Hx Hy). lia.
Qed.

Lemma elem_of_concat {A} (a : A) (ls : list (list A)) :
  a ∈ concat ls ↔ ∃ i l, ls !! i = Some l ∧ a ∈ l.
Proof.
  rewrite list_elem_of_In, in_concat. split.
  - intros (l & Hl & Ha). apply list_elem_of_In, list_elem_of_lookup in Hl as [i Hi].
    exists i, l. by rewrite list_elem_of_In.
  - intros (i & l & Hi & Ha). exists l. rewrite <- !list_elem_of_In. split; [|done].
    by eapply list_elem_of_lookup_2.
Qed.

(** ** Stable sorting

    [Vec::sort_by] and [sort_by_key], given the strict comparison that moves an element to the
    front of another. *)
Section sort_by.
Context {A : Type} (before : A → A → bool) (R : A → A → Prop) `{!Transitive R}.
Hypothesis before_true : ∀ x y, before x y = true → R x y.
Hypothesis before_false : ∀ x y, before x y = false → R y x.

Fixpoint insert_by (x : A) (l : list A) : list A :=
  match l with
  | [] => [x]
  | y :: l' => if before x y then x :: l else y :: insert_by x l'
  end.
Definition sort_by (l : list A) : list A := foldl (λ acc x, insert_by x acc) [] l.

Lemma insert_by_perm x l : insert_by x l ≡ₚ x :: l.
Proof.
  induction l as [|y l IH]; simpl; [done|]. destruct (before x y); [done|]. rewrite IH. constructor.
Qed.

Lemma sort_by_perm l : sort_by l ≡ₚ l.
Proof.
  unfold sort_by. cut (∀ acc, foldl (λ acc x, insert_by x acc) acc l ≡ₚ acc ++ l); [intros Hl; apply (Hl [])|].
  induction l as [|x l IH]; intros acc; simpl; [by rewrite app_nil_r|].
  by rewrite IH, insert_by_perm, <- Permutation_middle.
Qed.

Lemma insert_by_sorted x l : StronglySorted R l → StronglySorted R (insert_by x l).
Proof.
  induction 1 as [|y l Hl IH Hy]; simpl; [repeat constructor|]. destruct (before x y) eqn:E.
  - constructor; [by constructor|]. constructor; [by apply before_true|].
    eapply Forall_impl; [exact Hy|]. intros z Hz. etrans; [by apply before_true|done].
  - constructor; [done|]. rewrite insert_by_perm. constructor; [by apply before_false|done].
Qed.

Lemma sort_by_spec l : sort_by l ≡ₚ l ∧ StronglySorted R (sort_by l).
Proof.
  split; [apply sort_by_perm|]. unfold sort_by. assert (StronglySorted R []) as Hnil by constructor.
  revert Hnil. generalize (@nil A). induction l as [|x l IH]; intros acc Hacc; simpl; [done|].
  by apply IH, insert_by_sorted.
Qed.
End sort_by.

(** The order of sorting depends on the comparisons of the elements only. *)
Lemma sort_by_ext {A} (f g : A → A → bool) (l : list A) :
  (∀ x y, x ∈ l → y ∈ l → f x y = g x y) → sort_by f l = sort_by g l.
Proof.
  intros Hfg. unfold sort_by.
  cut (∀ k acc, k ⊆ l → acc ⊆ l → foldl (λ acc x, insert_by f x acc) acc k = foldl (λ acc x, insert_by g x acc) acc k).
  { intros Hcut. by apply Hcut; [|apply list_subseteq_nil]. }
  assert (∀ x acc, x ∈ l → acc ⊆ l → insert_by f x acc = insert_by g x acc) as Hins.
  { intros x acc Hx. induction acc as [|y acc IH]; intros Hacc; simpl; [done|].
    rewrite (Hfg x y), IH; [done| |done|]; [intros z Hz|]; apply Hacc; by constructor. }
  induction k as [|x k IH]; intros acc Hk Hacc; simpl; [done|].
  assert (x ∈ l) as Hx by (apply Hk; left). rewrite Hins by done.
  apply IH; [intros z Hz; apply Hk; by right|]. intros z Hz. rewrite insert_by_perm in Hz.
  apply elem_of_cons in Hz as [->|Hz]; auto.
Qed.

(** ** [HashMap]

    A hash map is a finite map that can be iterated in some order of its own: code that
    iterates is written against [hash_iter], of which only the elements are known. *)
Class HashIter (K : Type) `{Countable K} : Type := {
  hash_iter : ∀ {V}, gmap K V → list (K * V);
  hash_iter_perm : ∀ {V} (m : gmap K V), hash_iter m ≡ₚ map_to_list m;
}.

(** The order of [map_to_list], for evaluation. *)
Definition default_iter (K : Type) `{Countable K} : HashIter K :=
  {| hash_iter V m := map_to_list m; hash_iter_perm V m := Permutation_refl _ |}.

Section hash_iter.
Context `{HashIter K} {V : Type}.
Implicit Types m : gmap K V.

Lemma elem_of_hash_iter m k v : (k, v) ∈ hash_iter m ↔ m !! k = Some v.
Proof. by rewrite hash_iter_perm, elem_of_map_to_list. Qed.

Lemma NoDup_hash_iter_keys m : NoDup (hash_iter m).*1.
Proof. rewrite hash_iter_perm. apply NoDup_fst_map_to_list. Qed.

Lemma length_hash_iter m : length (hash_iter m) = size m.
Proof. by rewrite hash_iter_perm, length_map_to_list. Qed.
End hash_iter.

(** ** [BinaryHeap]

    A binary heap is a bag from which [pop] takes a greatest element; which one, among
    elements that compare equal, is not specified. *)
Class BinaryHeap (E : Type) (le : E → E → Prop) : Type := {
  heap_pop : list E → option (E * list E);
  heap_pop_None : ∀ l, heap_pop l = None → l = [];
  heap_pop_Some : ∀ l e l', heap_pop l = Some (e, l') → l ≡ₚ e :: l' ∧ ∀ x, x ∈ l → le x e;
}.

(** Taking the first of the greatest elements, for evaluation. *)
Section first_greatest.
Context {E : Type} (leb : E → E → bool).

Fixpoint first_greatest (l : list E) : option (E * list E) :=
  match l with
  | [] => None
  | x :: l' =>
    match first_greatest l' with
    | None => Some (x, [])
    | Some (y, l'') => if leb y x then Some (x, l') else Some (y, x :: l'')
    end
  end.

Lemma first_greatest_spec (Htotal : ∀ x y, leb x y = false → leb y x = true)
    (Htrans : ∀ x y z, leb x y = true → leb y z = true → leb x z = true) l e l' :
  first_greatest l = Some (e, l') → l ≡ₚ e :: l' ∧ ∀ x, x ∈ l → leb x e = true.
Proof.
  assert (∀ x, leb x x = true) as Hrefl by (intros x; destruct (leb x x) eqn:Hx; [done|by rewrite <- Hx, (Htotal x x Hx)]).
  revert e l'. induction l as [|x l IH]; intros e l'; simpl; [done|].
  destruct (first_greatest l) as [[y l'']|] eqn:Hy.
  - destruct (IH y l'' eq_refl) as [Hp Hle]. destruct (leb y x) eqn:Hyx; intros [= <- <-].
    + split; [done|]. intros z [->|Hz]%elem_of_cons; [done|]. by eapply Htrans; [apply Hle|].
    + split; [rewrite Hp; constructor|]. intros z [->|Hz]%elem_of_cons; [by apply Htotal|by apply Hle].
  - intros [= <- <-]. assert (l = []) as ->.
    { destruct l as [|z l]; [done|]. simpl in Hy. repeat case_match; done. }
    split; [done|]. by intros z ->%list_elem_of_singleton.
Qed.

Lemma first_greatest_None l : first_greatest l = None → l = [].
Proof. destruct l; simpl; [done|]. repeat case_match; done. Qed.
End first_greatest.

(** ** Work lists: [while let Some(x) = stack.pop()] *)
Lemma frontier_cases {A : Type} (frontier : list A) :
  frontier = [] ∨ ∃ c f, frontier = f ++ [c] ∧ last frontier = Some c ∧ removelast frontier = f.
Proof.
  destruct frontier as [|c f _] using rev_ind; [by left|right]. exists c, f.
  by rewrite last_snoc, removelast_last.
Qed.

(** What the unvisited vertices of a graph still push on the stack. *)
Section todo.
Context `{Countable K} {V : Type} (pushed : V → nat).
Implicit Types (B : gmap K V) (seen : gset K).

Definition todo B seen : nat :=
  sum_list_with (λ p, if decide (p.1 ∈ seen) then 0 else pushed p.2) (map_to_list B).

Lemma todo_mono B seen seen' : seen ⊆ seen' → todo B seen' ≤ todo B seen.
Proof.
  intros Hs. unfold todo. induction (map_to_list B) as [|p l IH]; simpl; [done|].
  destruct (decide (p.1 ∈ seen)); [rewrite decide_True by set_solver|destruct (decide _)]; lia.
Qed.

Lemma todo_visit B seen c b :
  B !! c = Some b → c ∉ seen → todo B ({[c]} ∪ seen) + pushed b = todo B seen.
Proof.
  intros Hb Hc. unfold todo. rewrite <- (map_to_list_delete B c b) by done. simpl.
  rewrite decide_True, (decide_False (P := c ∈ seen)) by set_solver.
  cut (∀ l, (∀ p, p ∈ l → p.1 ≠ c) →
    sum_list_with (λ p, if decide (p.1 ∈ {[c]} ∪ seen) then 0 else pushed p.2) l
    = sum_list_with (λ p, if decide (p.1 ∈ seen) then 0 else pushed p.2) l).
  { intros Hcut. rewrite Hcut; [lia|]. intros [k x] Hkx%elem_of_map_to_list.
    by apply lookup_delete_Some in Hkx as [? _]. }
  intros l Hne. induction l as [|p l IH]; simpl; [done|].
  rewrite IH by (intros; apply Hne; by right). f_equal.
  specialize (Hne p ltac:(by left)).
  destruct (decide (p.1 ∈ seen)); [rewrite decide_True|rewrite decide_False]; set_solver.
Qed.
End todo.

(** Filtering keeps all, or nothing. *)
Lemma filter_is {A} (P : A → Prop) `{!∀ x, Decision (P x)} l :
  (Forall P l → filter P l = l) ∧ (Forall (λ x, ¬ P x) l → filter P l = []).
Proof.
  split; (induction 1 as [|x l Hx _ IH]; [done|]); rewrite filter_cons.
  - by rewrite decide_True, IH.
  - by rewrite decide_False.
Qed.
