(* ===== verification/Ieee.v ===== *)
(** * IEEE 754 floats as bit patterns

    The modelled code moves [f64] and [f32] values between byte strings and converts between
    widths; it computes on none of them here.  A float is therefore its bit pattern, and the
    conversions of the language ([f32 as f64], [f64 as f32], [i128 as f64]) are integer
    functions: widening is exact, narrowing rounds to nearest, ties to even.  A NaN is
    quieted, its payload truncated, as the usual hardware does. *)

From Stdlib Require Import ZArith Lia List.
From stdpp Require Import base tactics numbers list.
From S2P Require Import Prelude.

#[local] Open Scope Z_scope.

Definition pack (ew fw : Z) (s e f : Z) : Z := (s * 2 ^ ew + e) * 2 ^ fw + f.
Definition sign_of (ew fw b : Z) : Z := b / 2 ^ fw / 2 ^ ew.
Definition exp_of (ew fw b : Z) : Z := (b / 2 ^ fw) mod 2 ^ ew.
Definition frac_of (fw b : Z) : Z := b mod 2 ^ fw.

Section fields.
Context (ew fw s e f : Z) (Hew : 0 <= ew) (Hfw : 0 <= fw)
  (He : 0 <= e < 2 ^ ew) (Hf : 0 <= f < 2 ^ fw).

Lemma frac_of_pack : frac_of fw (pack ew fw s e f) = f.
Proof using All.
  unfold frac_of, pack. rewrite Z.add_comm, Z.mod_add by lia. by apply Z.mod_small.
Qed.
Lemma pack_div : pack ew fw s e f / 2 ^ fw = s * 2 ^ ew + e.
Proof using All. unfold pack. rewrite Z.div_add_l by lia. rewrite Z.div_small by lia. lia. Qed.
Lemma exp_of_pack : exp_of ew fw (pack ew fw s e f) = e.
Proof using All.
  unfold exp_of. rewrite pack_div, Z.add_comm, Z.mod_add by lia. by apply Z.mod_small.
Qed.
Lemma sign_of_pack : sign_of ew fw (pack ew fw s e f) = s.
Proof using All.
  unfold sign_of. rewrite pack_div, Z.div_add_l by lia. rewrite (Z.div_small e) by lia. lia.
Qed.
End fields.

Lemma pack_fields ew fw b :
  0 <= ew → 0 <= fw → pack ew fw (sign_of ew fw b) (exp_of ew fw b) (frac_of fw b) = b.
Proof.
  intros. unfold pack, sign_of, exp_of, frac_of.
  assert (0 < 2 ^ ew ∧ 0 < 2 ^ fw) as [] by (split; apply Z.pow_pos_nonneg; lia).
  pose proof (Z.div_mod (b / 2 ^ fw) (2 ^ ew)). pose proof (Z.div_mod b (2 ^ fw)). nia.
Qed.

Lemma frac_of_range fw b : 0 <= fw → 0 <= frac_of fw b < 2 ^ fw.
Proof. intros. apply Z.mod_pos_bound, Z.pow_pos_nonneg; lia. Qed.
Lemma exp_of_range ew fw b : 0 <= ew → 0 <= exp_of ew fw b < 2 ^ ew.
Proof. intros. apply Z.mod_pos_bound, Z.pow_pos_nonneg; lia. Qed.

(** Widening to [f64] from a format with an [ew]-bit exponent and an [fw]-bit fraction. *)
Definition widen (ew fw b : Z) : Z :=
  let bias := 2 ^ (ew - 1) - 1 in
  let s := sign_of ew fw b in let e := exp_of ew fw b in let f := frac_of fw b in
  if e =? 0 then
    if f =? 0 then pack 11 52 s 0 0
    else
      let k := Z.log2 f in
      pack 11 52 s (k - (bias + fw - 1) + 1023) ((f - 2 ^ k) * 2 ^ (52 - k))
  else if e =? 2 ^ ew - 1 then
    if f =? 0 then pack 11 52 s 2047 0
    else pack 11 52 s 2047 (2 ^ 51 + (f mod 2 ^ (fw - 1)) * 2 ^ (52 - fw))
  else pack 11 52 s (e - bias + 1023) (f * 2 ^ (52 - fw)).

(** [x as f64] for [x : f32]. *)
Definition f32_to_f64 (b : Z) : Z := widen 8 23 b.

(** [m / 2 ^ sh], rounded to nearest, ties to even. *)
Definition rne (m sh : Z) : Z :=
  let q := m / 2 ^ sh in let r := m mod 2 ^ sh in
  if (2 ^ sh <? 2 * r) || (2 ^ sh =? 2 * r) && Z.odd q then q + 1 else q.

(** [x as f32] for [x : f64]. *)
Definition f64_to_f32 (b : Z) : Z :=
  let s := sign_of 11 52 b in let e := exp_of 11 52 b in let f := frac_of 52 b in
  if e =? 2047 then
    if f =? 0 then pack 8 23 s 255 0 else pack 8 23 s 255 (2 ^ 22 + (f / 2 ^ 29) mod 2 ^ 22)
  else if e =? 0 then pack 8 23 s 0 0
  else
    let x := e - 1023 in let m := 2 ^ 52 + f in
    if -126 <=? x then
      let p := (x + 126) * 2 ^ 23 + rne m 29 in
      if 255 * 2 ^ 23 <=? p then pack 8 23 s 255 0 else s * 2 ^ 31 + p
    else
      let sh := 29 + (-126 - x) in
      if 54 <? sh then pack 8 23 s 0 0 else s * 2 ^ 31 + rne m sh.

(** [n as f64] for an integer [n] below 2^1023 in absolute value. *)
Definition int_to_f64 (n : Z) : Z :=
  let s := if n <? 0 then 1 else 0 in let m := Z.abs n in
  if m =? 0 then pack 11 52 0 0 0
  else
    let k := Z.log2 m in
    if k <=? 52 then pack 11 52 s (k + 1023) ((m - 2 ^ k) * 2 ^ (52 - k))
    else s * 2 ^ 63 + ((k + 1022) * 2 ^ 52 + rne m (k - 52)).

Lemma rne_exact q sh : 0 < sh → rne (q * 2 ^ sh) sh = q.
Proof.
  intros. assert (0 < 2 ^ sh) by (apply Z.pow_pos_nonneg; lia).
  unfold rne. rewrite Z.div_mul, Z.mod_mul by lia.
  destruct (Z.ltb_spec (2 ^ sh) (2 * 0)); [lia|].
  destruct (Z.eqb_spec (2 ^ sh) (2 * 0)); [lia|done].
Qed.

(** [f32 → f64 → f32] is the identity, NaNs apart: what a stored [f32] weight relies on. *)
Definition f32_not_nan (b : Z) : Prop :=
  0 <= b < 2 ^ 32 ∧ ¬ (exp_of 8 23 b = 255 ∧ frac_of 23 b ≠ 0).

(** A subnormal [f32] [f] times [2 ^ -149] is a normal [f64]. *)
Lemma f64_to_f32_subnormal s f k :
  2 ^ k <= f < 2 ^ Z.succ k → 0 <= k < 23 →
  f64_to_f32 (pack 11 52 s (k - 149 + 1023) ((f - 2 ^ k) * 2 ^ (52 - k))) = pack 8 23 s 0 f.
Proof.
  intros Hk Hk23. rewrite Z.pow_succ_r in Hk by lia.
  assert (2 ^ 52 = 2 ^ k * 2 ^ (52 - k)) as E52 by (rewrite <- Z.pow_add_r by lia; f_equal; lia).
  assert (0 < 2 ^ k) by (apply Z.pow_pos_nonneg; lia).
  assert (0 < 2 ^ (52 - k)) by (apply Z.pow_pos_nonneg; lia).
  unfold f64_to_f32. rewrite sign_of_pack, exp_of_pack, frac_of_pack by nia.
  destruct (Z.eqb_spec (k - 149 + 1023) 2047); [lia|].
  destruct (Z.eqb_spec (k - 149 + 1023) 0); [lia|].
  destruct (Z.leb_spec (-126) (k - 149 + 1023 - 1023)); [lia|].
  replace (29 + (-126 - (k - 149 + 1023 - 1023))) with (52 - k) by lia.
  destruct (Z.ltb_spec 54 (52 - k)); [lia|].
  replace (2 ^ 52 + (f - 2 ^ k) * 2 ^ (52 - k)) with (f * 2 ^ (52 - k)) by nia.
  rewrite rne_exact by lia. unfold pack. lia.
Qed.

Lemma f64_to_f32_normal s e f :
  0 < e < 255 → 0 <= f < 2 ^ 23 →
  f64_to_f32 (pack 11 52 s (e - 127 + 1023) (f * 2 ^ 29)) = pack 8 23 s e f.
Proof.
  intros He Hf. unfold f64_to_f32. rewrite sign_of_pack, exp_of_pack, frac_of_pack by lia.
  destruct (Z.eqb_spec (e - 127 + 1023) 2047); [lia|].
  destruct (Z.eqb_spec (e - 127 + 1023) 0); [lia|].
  destruct (Z.leb_spec (-126) (e - 127 + 1023 - 1023)); [|lia].
  replace (2 ^ 52 + f * 2 ^ 29) with ((2 ^ 23 + f) * 2 ^ 29) by lia.
  rewrite rne_exact by lia.
  destruct (Z.leb_spec (255 * 2 ^ 23) ((e - 127 + 1023 - 1023 + 126) * 2 ^ 23 + (2 ^ 23 + f)));
    [lia|]. unfold pack. lia.
Qed.

Lemma f64_to_f32_to_f64 b : f32_not_nan b → f64_to_f32 (f32_to_f64 b) = b.
Proof.
  intros [Hb Hnan].
  pose proof (exp_of_range 8 23 b ltac:(lia)) as He.
  pose proof (frac_of_range 23 b ltac:(lia)) as Hf.
  rewrite <- (pack_fields 8 23 b) at 2 by lia. unfold f32_to_f64, widen.
  set (s := sign_of 8 23 b) in *. set (e := exp_of 8 23 b) in *. set (f := frac_of 23 b) in *.
  clearbody s e f. clear b Hb. change (2 ^ 8) with 256 in *.
  change (2 ^ (8 - 1) - 1) with 127. change (127 + 23 - 1) with 149.
  destruct (Z.eqb_spec e 0) as [->|He0]; [destruct (Z.eqb_spec f 0) as [->|Hf0]|].
  - unfold f64_to_f32. rewrite sign_of_pack, exp_of_pack, frac_of_pack by lia. done.
  - apply f64_to_f32_subnormal; [apply Z.log2_spec; lia|].
    split; [apply Z.log2_nonneg | apply Z.log2_lt_pow2; lia].
  - change (256 - 1) with 255. destruct (Z.eqb_spec e 255) as [->|He255]; [|apply f64_to_f32_normal; lia].
    destruct (Z.eqb_spec f 0) as [->|]; [|tauto].
    unfold f64_to_f32. rewrite sign_of_pack, exp_of_pack, frac_of_pack by lia. done.
Qed.

Lemma pack_range ew fw s e f :
  0 <= ew → 0 <= fw → 0 <= s < 2 → 0 <= e < 2 ^ ew → 0 <= f < 2 ^ fw →
  0 <= pack ew fw s e f < 2 * 2 ^ ew * 2 ^ fw.
Proof.
  intros. unfold pack.
  assert (0 < 2 ^ ew ∧ 0 < 2 ^ fw) as [] by (split; apply Z.pow_pos_nonneg; lia). nia.
Qed.

Lemma sign_of_range ew fw b :
  0 <= ew → 0 <= fw → 0 <= b < 2 ^ (1 + ew + fw) → 0 <= sign_of ew fw b < 2.
Proof.
  intros Hew Hfw Hb. unfold sign_of.
  assert (0 < 2 ^ ew ∧ 0 < 2 ^ fw) as [] by (split; apply Z.pow_pos_nonneg; lia).
  rewrite Z.div_div by lia. rewrite !Z.pow_add_r in Hb by lia. split.
  - apply Z.div_pos; nia.
  - apply Z.div_lt_upper_bound; nia.
Qed.

(** Widening from a narrower format stays within 64 bits. *)
Lemma widen_range ew fw b :
  2 <= ew <= 8 → 1 <= fw <= 23 → 0 <= b < 2 ^ (1 + ew + fw) → 0 <= widen ew fw b < 2 ^ 64.
Proof.
  intros Hew Hfw Hb. change (2 ^ 64) with (2 * 2 ^ 11 * 2 ^ 52).
  pose proof (exp_of_range ew fw b ltac:(lia)) as He.
  pose proof (frac_of_range fw b ltac:(lia)) as Hf.
  pose proof (sign_of_range ew fw b ltac:(lia) ltac:(lia) Hb) as Hs. unfold widen.
  set (s := sign_of ew fw b) in *. set (e := exp_of ew fw b) in *. set (f := frac_of fw b) in *.
  clearbody s e f. clear Hb b.
  assert (1 <= 2 ^ (ew - 1) <= 2 ^ 7) by (split; [apply (Z.pow_le_mono_r 2 0); lia|apply Z.pow_le_mono_r; lia]).
  assert (2 ^ ew = 2 * 2 ^ (ew - 1)) by (rewrite <- Z.pow_succ_r by lia; f_equal; lia).
  assert (2 ^ 52 = 2 ^ fw * 2 ^ (52 - fw)) by (rewrite <- Z.pow_add_r by lia; f_equal; lia).
  assert (2 ^ fw = 2 * 2 ^ (fw - 1)) by (rewrite <- Z.pow_succ_r by lia; f_equal; lia).
  assert (0 < 2 ^ (fw - 1) ∧ 0 < 2 ^ (52 - fw)) as [] by (split; apply Z.pow_pos_nonneg; lia).
  pose proof (Z.mod_pos_bound f (2 ^ (fw - 1)) ltac:(lia)).
  destruct (Z.eqb_spec e 0); [destruct (Z.eqb_spec f 0)|destruct (Z.eqb_spec e (2 ^ ew - 1));
    [destruct (Z.eqb_spec f 0)|]]; apply pack_range; try lia; try nia.
  - pose proof (Z.log2_nonneg f). assert (Z.log2 f < fw) by (apply Z.log2_lt_pow2; lia). lia.
  - pose proof (Z.log2_spec f ltac:(lia)) as Hk. pose proof (Z.log2_nonneg f).
    assert (Z.log2 f < fw) by (apply Z.log2_lt_pow2; lia).
    rewrite Z.pow_succ_r in Hk by lia.
    assert (2 ^ 52 = 2 ^ Z.log2 f * 2 ^ (52 - Z.log2 f)) as E52
      by (rewrite <- Z.pow_add_r by lia; f_equal; lia).
    assert (0 < 2 ^ (52 - Z.log2 f)) by (apply Z.pow_pos_nonneg; lia). nia.
Qed.

Example narrow_one_third : f64_to_f32 0x3fd5555555555555 = 0x3eaaaaab.
Proof. vm_compute. reflexivity. Qed.
Example int_to_f64_big : int_to_f64 (2 ^ 53 + 1) = 0x4340000000000000.
Proof. vm_compute. reflexivity. Qed.
