(* ===== verification/F64.v ===== *)
(** * Double-precision arithmetic

    An [f64] that is computed with is a value of the Standard Library's [SpecFloat] at precision 53;
    the operations round to nearest, ties to even.  NaNs carry no payload here: nothing that computes
    looks at it. *)

From Stdlib Require Import ZArith Lia List SpecFloat.
From stdpp Require Import base tactics numbers list.
From S2P Require Import Prelude.

#[local] Open Scope Z_scope.

Abbreviation f64 := spec_float.

Definition f64_zero : f64 := S754_zero false.
Definition f64_infinity : f64 := S754_infinity false.
Definition f64_add : f64 → f64 → f64 := SFadd 53 1024.
Definition f64_sub : f64 → f64 → f64 := SFsub 53 1024.
Definition f64_mul : f64 → f64 → f64 := SFmul 53 1024.
Definition f64_div : f64 → f64 → f64 := SFdiv 53 1024.
Definition f64_ltb : f64 → f64 → bool := SFltb.

(** [n as f64]. *)
Definition f64_of_int (n : Z) : f64 := binary_normalize 53 1024 n 0 false.
Definition f64_of (n : nat) : f64 := f64_of_int (Z.of_nat n).
Definition f64_ratio (a b : nat) : f64 := f64_div (f64_of a) (f64_of b).

(** The literal [n / d], for [n] and [d] below 2^53: division rounds to the nearest double, as the
    compiler does. *)
Definition f64_lit (n d : Z) : f64 := f64_div (f64_of_int n) (f64_of_int d).
Definition f64_one : f64 := f64_of_int 1.

Definition is_nan (x : f64) : bool := match x with S754_nan => true | _ => false end.

(** [f64::max], [f64::min] and [f64::clamp]: the first two ignore a NaN, the last keeps it. *)
Definition f64_max (x y : f64) : f64 := if is_nan x then y else if f64_ltb x y then y else x.
Definition f64_min (x y : f64) : f64 := if is_nan x then y else if f64_ltb y x then y else x.
Definition f64_clamp (x lo hi : f64) : f64 :=
  let x := if f64_ltb x lo then lo else x in if f64_ltb hi x then hi else x.

(** [Iterator::sum], which starts from [-0.0]. *)
Definition f64_sum (l : list f64) : f64 := foldl f64_add (S754_zero true) l.

(** [Duration::as_secs_f64] of a duration in nanoseconds. *)
Definition as_secs_f64 (d : Z) : f64 :=
  f64_add (f64_of_int (d / 10 ^ 9)) (f64_div (f64_of_int (d mod 10 ^ 9)) (f64_of_int (10 ^ 9))).

(** [a.partial_cmp(&b).unwrap_or(Equal) == Less]. *)
Definition cmp_less (x y : f64) : bool := match SFcompare x y with Some Lt => true | _ => false end.
Lemma cmp_less_ltb x y : cmp_less x y = f64_ltb x y.
Proof. unfold cmp_less, f64_ltb, SFltb. by destruct (SFcompare x y) as [[]|]. Qed.

(** ** The order

    The numbers, NaN apart, are ordered lexicographically by class, exponent and mantissa. *)
Definition rank (x : f64) : Z * Z * Z :=
  match x with
  | S754_infinity true => (0, 0, 0)
  | S754_finite true m e => (1, - e, - Zpos m)
  | S754_zero _ | S754_nan => (2, 0, 0)
  | S754_finite false m e => (3, e, Zpos m)
  | S754_infinity false => (4, 0, 0)
  end.
Definition rank_lt (a b : Z * Z * Z) : Prop :=
  a.1.1 < b.1.1 ∨ a.1.1 = b.1.1 ∧ (a.1.2 < b.1.2 ∨ a.1.2 = b.1.2 ∧ a.2 < b.2).

Lemma f64_ltb_rank x y : is_nan x = false → is_nan y = false → f64_ltb x y = true ↔ rank_lt (rank x) (rank y).
Proof.
  intros Hx Hy. unfold f64_ltb, SFltb, SFcompare, rank_lt.
  destruct x as [[]|[]| |[] m e], y as [[]|[]| |[] m' e']; try done; simpl; try (split; [done|lia]); try (split; [lia|done]).
  - destruct (Z.compare_spec e e'); simpl; [|split; [done|lia]|split; [lia|done]].
    fold (Pos.compare m m'). destruct (Pos.compare_spec m m'); simpl; split; try done; lia.
  - destruct (Z.compare_spec e e'); simpl; [|split; [lia|done]|split; [done|lia]].
    fold (Pos.compare m m'). destruct (Pos.compare_spec m m'); simpl; split; try done; lia.
Qed.

(** [x] is not greater than [y]. *)
Definition f64_le (x y : f64) : Prop := f64_ltb y x = false.

Lemma f64_le_rank x y : is_nan x = false → is_nan y = false → f64_le x y ↔ ¬ rank_lt (rank y) (rank x).
Proof. intros Hx Hy. unfold f64_le. rewrite <- f64_ltb_rank by done. by destruct (f64_ltb y x). Qed.
Lemma f64_le_trans x y z : is_nan x = false → is_nan y = false → is_nan z = false →
  f64_le x y → f64_le y z → f64_le x z.
Proof. intros Hx Hy Hz. rewrite !f64_le_rank by done. unfold rank_lt. lia. Qed.
Lemma f64_ltb_le x y : is_nan x = false → is_nan y = false → f64_ltb x y = true → f64_le x y.
Proof. intros Hx Hy. rewrite f64_le_rank, f64_ltb_rank by done. unfold rank_lt. lia. Qed.

(** Clamping ends between the bounds. *)
Lemma f64_clamp_bounds x lo hi : is_nan lo = false → is_nan hi = false → f64_le lo hi →
  is_nan x = false → f64_le lo (f64_clamp x lo hi) ∧ f64_le (f64_clamp x lo hi) hi.
Proof.
  intros Hlo Hhi Hle Hx. unfold f64_clamp. destruct (f64_ltb x lo) eqn:H1, (f64_ltb hi _) eqn:H2; try done.
  - by split; [|unfold f64_le; destruct (f64_ltb hi hi) eqn:Hc; [apply f64_ltb_rank in Hc; unfold rank_lt in Hc; [lia|done..]|]].
  - split; [|done]. unfold f64_le. destruct (f64_ltb lo lo) eqn:Hc; [|done]. apply f64_ltb_rank in Hc; [unfold rank_lt in Hc; lia|done..].
  - split; [done|]. unfold f64_le. destruct (f64_ltb hi hi) eqn:Hc; [|done]. apply f64_ltb_rank in Hc; [unfold rank_lt in Hc; lia|done..].
Qed.

(** 0.1 + 0.2 is one unit above 0.3. *)
Example f64_tenths : f64_add (f64_lit 1 10) (f64_lit 2 10) = S754_finite false 5404319552844596 (-54)
  ∧ f64_lit 3 10 = S754_finite false 5404319552844595 (-54).
Proof. by split; vm_compute. Qed.
