(* ===== verification/Cid.v ===== *)
(** * Content identifiers: [crates/ipfrs-core/src/cid.rs] and [error.rs]

    The [cid], [multihash] and [multibase] crates are not part of the repository: [CidCrate]
    is what the code calls of them and [CidLaws] the documented behaviour it relies on.
    [Reference] is a small concrete crate satisfying the laws, at which the witnesses of
    later files are evaluated. *)

From Stdlib Require Import ZArith Lia List.
From stdpp Require Import base tactics numbers list gmap sets strings.
From S2P Require Import Prelude.

#[local] Open Scope Z_scope.

(** ** Errors of the core crate

    The variants of [ipfrs_core::Error]; the human-readable message each carries is left
    out. *)
Inductive Error : Type :=
| Io | BlockNotFound | CidError | Serialization | Deserialization | Network | Storage
| Encryption | InvalidData | InvalidInput | NotFound | Protocol | NotImplemented | Internal
| Initialization | Verification.

Module Error.
Definition is_io (e : Error) : bool := match e with Io => true | _ => false end.
Definition is_not_found (e : Error) : bool :=
  match e with BlockNotFound | NotFound => true | _ => false end.
Definition is_serialization (e : Error) : bool :=
  match e with Serialization | Deserialization => true | _ => false end.
Definition is_network (e : Error) : bool := match e with Network => true | _ => false end.
Definition is_storage (e : Error) : bool := match e with Storage => true | _ => false end.
Definition is_validation (e : Error) : bool :=
  match e with InvalidData | InvalidInput => true | _ => false end.
Definition is_cid (e : Error) : bool := match e with CidError => true | _ => false end.
Definition is_verification (e : Error) : bool :=
  match e with Verification => true | _ => false end.
Definition category (e : Error) : string :=
  match e with
  | Io => "io"
  | BlockNotFound => "not_found"
  | CidError => "cid"
  | Serialization => "serialization"
  | Deserialization => "deserialization"
  | Network => "network"
  | Storage => "storage"
  | Encryption => "encryption"
  | InvalidData => "invalid_data"
  | InvalidInput => "invalid_input"
  | NotFound => "not_found"
  | Protocol => "protocol"
  | NotImplemented => "not_implemented"
  | Internal => "internal"
  | Initialization => "initialization"
  | Verification => "verification"
  end.
Definition is_recoverable (e : Error) : bool :=
  match e with Io | Network | Storage => true | _ => false end.
Definition is_internal (e : Error) : bool :=
  match e with Internal => true | _ => false end.
End Error.

(** ** Hash algorithms *)

(** [multihash_codetable::Code], restricted to the entries the code uses. *)
Inductive Code : Type :=
| Sha2_256 | Sha2_512 | Code_Sha3_256 | Code_Sha3_512 | Code_Blake2b256 | Code_Blake2b512
| Code_Blake2s256 | Blake3_256.

Inductive HashAlgorithm : Type :=
| Sha256 | Sha512 | Sha3_256 | Sha3_512 | Blake2b256 | Blake2b512 | Blake2s256 | Blake3.

#[global] Instance HashAlgorithm_eq_dec : EqDecision HashAlgorithm.
Proof. solve_decision. Defined.
#[global] Instance Code_eq_dec : EqDecision Code.
Proof. solve_decision. Defined.

Module HashAlgorithm.
Definition code (a : HashAlgorithm) : Code :=
  match a with
  | Sha256 => Sha2_256
  | Sha512 => Sha2_512
  | Sha3_256 => Code_Sha3_256
  | Sha3_512 => Code_Sha3_512
  | Blake2b256 => Code_Blake2b256
  | Blake2b512 => Code_Blake2b512
  | Blake2s256 => Code_Blake2s256
  | Blake3 => Blake3_256
  end.
Definition name (a : HashAlgorithm) : string :=
  match a with
  | Sha256 => "SHA2-256"
  | Sha512 => "SHA2-512"
  | Sha3_256 => "SHA3-256"
  | Sha3_512 => "SHA3-512"
  | Blake2b256 => "BLAKE2b-256"
  | Blake2b512 => "BLAKE2b-512"
  | Blake2s256 => "BLAKE2s-256"
  | Blake3 => "BLAKE3"
  end.
Definition hash_size (a : HashAlgorithm) : Z :=
  match a with
  | Sha256 => 32 | Sha512 => 64 | Sha3_256 => 32 | Sha3_512 => 64
  | Blake2b256 => 32 | Blake2b512 => 64 | Blake2s256 => 32 | Blake3 => 32
  end.
Definition is_sha (a : HashAlgorithm) : bool :=
  match a with Sha256 | Sha512 | Sha3_256 | Sha3_512 => true | _ => false end.
Definition is_blake (a : HashAlgorithm) : bool :=
  match a with Blake2b256 | Blake2b512 | Blake2s256 | Blake3 => true | _ => false end.
Definition is_256_bit (a : HashAlgorithm) : bool :=
  match a with Sha256 | Sha3_256 | Blake2b256 | Blake2s256 | Blake3 => true | _ => false end.
Definition is_512_bit (a : HashAlgorithm) : bool :=
  match a with Sha512 | Sha3_512 | Blake2b512 => true | _ => false end.
Definition all : list HashAlgorithm :=
  [Sha256; Sha512; Sha3_256; Sha3_512; Blake2b256; Blake2b512; Blake2s256; Blake3].
End HashAlgorithm.

(** ** Multibase prefixes *)

Inductive MultibaseEncoding : Type :=
| Base32Lower | Base58Btc | Base64 | Base64Url | Base32Upper.

Module MultibaseEncoding.
Definition prefix (b : MultibaseEncoding) : string :=
  match b with
  | Base32Lower => "b" | Base58Btc => "z" | Base64 => "m" | Base64Url => "u"
  | Base32Upper => "B"
  end.
Definition name (b : MultibaseEncoding) : string :=
  match b with
  | Base32Lower => "base32 (lowercase)" | Base58Btc => "base58btc" | Base64 => "base64"
  | Base64Url => "base64url" | Base32Upper => "base32 (uppercase)"
  end.
(** The argument is one [char], written as a one-character string. *)
Definition from_prefix (c : string) : option MultibaseEncoding :=
  if String.eqb c "b" then Some Base32Lower
  else if String.eqb c "z" then Some Base58Btc
  else if String.eqb c "m" then Some Base64
  else if String.eqb c "u" then Some Base64Url
  else if String.eqb c "B" then Some Base32Upper
  else None.
Definition all : list MultibaseEncoding :=
  [Base32Lower; Base58Btc; Base64; Base64Url; Base32Upper].
End MultibaseEncoding.

(** ** The external crates *)

Inductive Version : Type := V0 | V1.
#[global] Instance Version_eq_dec : EqDecision Version.
Proof. solve_decision. Defined.

(** [codec::*] at the end of the file. *)
Definition RAW : Z := 0x55.
Definition DAG_CBOR : Z := 0x71.
Definition DAG_JSON : Z := 0x0129.
Definition DAG_PB : Z := 0x70.

Class CidCrate : Type := {
  Cid : Type;
  Cid_eq_dec :: EqDecision Cid;
  Cid_countable :: Countable Cid;
  Multihash : Type;
  digest : Code → bytes → Multihash;
  mh_code : Multihash → Z;
  Cid_new : Version → Z → Multihash → option Cid;
  Cid_new_v0 : Multihash → option Cid;
  Cid_new_v1 : Z → Multihash → Cid;
  Cid_version : Cid → Version;
  Cid_codec : Cid → Z;
  Cid_hash : Cid → Multihash;
  Cid_to_bytes : Cid → bytes;
  Cid_try_from : bytes → option Cid;
(** [size_of::<Ipld>()], which depends on the layout the compiler gives [Cid]. *)
ipld_size : Z;
}.

(** The multicodec table's code of each hash function. *)
Definition multicodec (c : Code) : Z :=
  match c with
  | Sha2_256 => 0x12 | Sha2_512 => 0x13 | Code_Sha3_512 => 0x14 | Code_Sha3_256 => 0x16
  | Blake3_256 => 0x1e | Code_Blake2b256 => 0xb220 | Code_Blake2b512 => 0xb240
  | Code_Blake2s256 => 0xb260
  end.

Class CidLaws `{CidCrate} : Prop := {
  Cid_try_from_to_bytes : ∀ c, Cid_try_from (Cid_to_bytes c) = Some c;
  Cid_to_bytes_bound : ∀ c, Z.of_nat (length (Cid_to_bytes c)) < 2 ^ 16;
  Cid_new_V1 : ∀ codec h, Cid_new V1 codec h = Some (Cid_new_v1 codec h);
  Cid_v1_version : ∀ codec h, Cid_version (Cid_new_v1 codec h) = V1;
  Cid_v1_codec : ∀ codec h, 0 ≤ codec < 2 ^ 64 → Cid_codec (Cid_new_v1 codec h) = codec;
  Cid_v1_hash : ∀ codec h, Cid_hash (Cid_new_v1 codec h) = h;
  Cid_v0_new : ∀ h c, Cid_new_v0 h = Some c →
    Cid_version c = V0 ∧ Cid_codec c = DAG_PB ∧ Cid_hash c = h;
  Cid_v0_total : ∀ data, is_Some (Cid_new_v0 (digest Sha2_256 data));
  Cid_v0_inv : ∀ c, Cid_version c = V0 →
    Cid_codec c = DAG_PB ∧ mh_code (Cid_hash c) = 0x12 ∧ Cid_new_v0 (Cid_hash c) = Some c;
  Cid_v1_inv : ∀ c, Cid_version c = V1 → c = Cid_new_v1 (Cid_codec c) (Cid_hash c);
  mh_code_digest : ∀ k data, mh_code (digest k data) = multicodec k;
  ipld_size_bound : 0 < ipld_size < 2 ^ 16;
}.

(** ** [CidBuilder] *)
Record CidBuilder : Type := mkCidBuilder {
  version : Version;
  codec : Z;
  hash_algorithm : HashAlgorithm;
}.

Module CidBuilder.
Section builder.
Context `{CidCrate}.

Definition default : CidBuilder := mkCidBuilder V1 0x55 Sha256.
Definition new : CidBuilder := default.
Definition v0 : CidBuilder := mkCidBuilder V0 0x70 Sha256.
Definition with_version (b : CidBuilder) (v : Version) : CidBuilder :=
  mkCidBuilder v (codec b) (hash_algorithm b).
Definition with_codec (b : CidBuilder) (c : Z) : CidBuilder :=
  mkCidBuilder (version b) c (hash_algorithm b).
Definition with_hash_algorithm (b : CidBuilder) (a : HashAlgorithm) : CidBuilder :=
  mkCidBuilder (version b) (codec b) a.

Definition build (b : CidBuilder) (data : bytes) : outcome Error Cid :=
  let hash := digest (HashAlgorithm.code (hash_algorithm b)) data in
  if decide (version b = V0) then
    if decide (hash_algorithm b ≠ Sha256) then Err InvalidInput
    else ok_or (Cid_new_v0 hash) CidError
  else ok_or (Cid_new (version b) (codec b) hash) CidError.

Definition build_dag_cbor (b : CidBuilder) (data : bytes) : outcome Error Cid :=
  build (with_codec b 0x71) data.
Definition build_raw (b : CidBuilder) (data : bytes) : outcome Error Cid :=
  build (with_codec b 0x55) data.
Definition build_v0 (b : CidBuilder) (data : bytes) : outcome Error Cid :=
  ok_or (Cid_new_v0 (digest Sha2_256 data)) CidError.
End builder.
End CidBuilder.

(** ** The extension trait [CidExt] *)
Module CidExt.
Section ext.
Context `{CidCrate}.

Definition to_v1 (c : Cid) : outcome Error Cid :=
  if decide (Cid_version c = V1) then Ok c
  else Ok (Cid_new_v1 DAG_PB (Cid_hash c)).

Definition to_v0 (c : Cid) : outcome Error Cid :=
  if decide (Cid_version c = V0) then Ok c
  else if negb (mh_code (Cid_hash c) =? 0x12) then Err InvalidInput
  else if negb (Cid_codec c =? DAG_PB) then Err InvalidInput
  else ok_or (Cid_new_v0 (Cid_hash c)) CidError.

Definition can_be_v0 (c : Cid) : bool :=
  (mh_code (Cid_hash c) =? 0x12) && (Cid_codec c =? DAG_PB).
Definition is_v0 (c : Cid) : bool := bool_decide (Cid_version c = V0).
Definition is_v1 (c : Cid) : bool := bool_decide (Cid_version c = V1).
Definition codec_code (c : Cid) : Z := Cid_codec c.
Definition hash_algorithm_name (c : Cid) : string :=
  let k := mh_code (Cid_hash c) in
  if k =? 0x12 then "sha2-256"
  else if k =? 0x14 then "sha3-256"
  else if k =? 0x16 then "sha3-256"
  else if k =? 0x1b then "keccak-256"
  else if k =? 0x1e then "blake2b-256"
  else "unknown".
Definition hash_algorithm_code (c : Cid) : Z := mh_code (Cid_hash c).
End ext.
End CidExt.

(** ** A concrete crate

    Version and codec as in the real crate, a 32-bit multiplicative hash as digest.  It
    shows that [CidLaws] can hold, and it evaluates. *)
Module Reference.
Definition word (m : positive) : Type := {z : Z | (0 <=? z) && (z <? Zpos m) = true}.
Lemma word_ok m z : (0 <=? z mod Zpos m) && (z mod Zpos m <? Zpos m) = true.
Proof.
  pose proof (Z.mod_pos_bound z (Zpos m) eq_refl).
  apply andb_true_iff; split; [apply Z.leb_le | apply Z.ltb_lt]; lia.
Qed.
Definition to_word (m : positive) (z : Z) : word m := 
  exist (λ x : Z, (0 <=? x) && (x <? Zpos m) = true) (z mod Zpos m) (word_ok m z).

Lemma word_eq m (w1 w2 : word m) : proj1_sig w1 = proj1_sig w2 → w1 = w2.
Proof. intros. apply (sig_eq_pi _). done. Qed.
Lemma word_range m (w : word m) : 0 ≤ proj1_sig w < Zpos m.
Proof.
  destruct w as [z Hz]; simpl. apply andb_true_iff in Hz as [?%Z.leb_le ?%Z.ltb_lt]. lia.
Qed.
Lemma to_word_proj m z : 0 ≤ z < Zpos m → proj1_sig (to_word m z) = z.
Proof. intros. simpl. by apply Z.mod_small. Qed.
Lemma to_word_id m (w : word m) : to_word m (proj1_sig w) = w.
Proof. apply word_eq, to_word_proj, word_range. Qed.

Definition hash : Type := word (2 ^ 16) * word (2 ^ 32).
Definition poly_hash (l : bytes) : Z :=
  fold_left (λ acc b, (acc * 16777619 + b + 1) mod 2 ^ 32) l 2166136261.
Definition poly_digest (k : Code) (data : bytes) : hash :=
  (to_word _ (multicodec k), to_word _ (poly_hash data)).

(** [inl]: a CIDv0, which carries only the hash; [inr]: a CIDv1 with its codec. *)
Definition cid : Type := word (2 ^ 32) + word (2 ^ 64) * hash.
Definition hash_of (c : cid) : hash :=
  match c with inl d => (to_word _ 0x12, d) | inr (_, h) => h end.
Definition codec_of (c : cid) : Z := match c with inl _ => DAG_PB | inr (k, _) => proj1_sig k end.
Definition version_of (c : cid) : Version := match c with inl _ => V0 | inr _ => V1 end.
Definition new_v0 (h : hash) : option cid :=
  if proj1_sig (h.1) =? 0x12 then Some (inl h.2) else None.
Definition new_v1 (k : Z) (h : hash) : cid := inr (to_word _ k, h).
Definition to_bytes (c : cid) : bytes :=
  match c with
  | inl d => 0x12 :: be_bytes 4 (proj1_sig d)
  | inr (k, h) => 1 :: be_bytes 8 (proj1_sig k) ++ be_bytes 2 (proj1_sig (h.1)) ++ be_bytes 4 (proj1_sig (h.2))
  end.
Definition try_from (l : bytes) : option cid :=
  match l with
  | [] => None
  | v :: r =>
    if v =? 0x12 then
      if decide (length r = 4%nat) then Some (inl (to_word _ (of_be_bytes r))) else None
    else if v =? 1 then
      if decide (length r = 14%nat) then
        Some (inr (to_word _ (of_be_bytes (take 8 r)),
                   (to_word _ (of_be_bytes (take 2 (drop 8 r))),
                    to_word _ (of_be_bytes (drop 10 r)))))
      else None
    else None
  end.

#[export] Instance crate : CidCrate := {|
  Cid := cid;
  Multihash := hash;
  digest := poly_digest;
  mh_code h := proj1_sig (h.1);
  Cid_new v k h := match v with V0 => new_v0 h | V1 => Some (new_v1 k h) end;
  Cid_new_v0 := new_v0;
  Cid_new_v1 := new_v1;
  Cid_version := version_of;
  Cid_codec := codec_of;
  Cid_hash := hash_of;
  Cid_to_bytes := to_bytes;
  Cid_try_from := try_from;
  ipld_size := 112;
|}.

Lemma of_be_word n m (w : word m) :
  Zpos m = 256 ^ Z.of_nat n → to_word m (of_be_bytes (be_bytes n (proj1_sig w))) = w.
Proof.
  intros Hm. rewrite of_be_be_bytes; [apply to_word_id|].
  pose proof (word_range m w). lia.
Qed.

Lemma try_from_to_bytes c : try_from (to_bytes c) = Some c.
Proof.
  destruct c as [d|[k [c d]]]; unfold try_from, to_bytes; simpl Z.eqb; cbv iota.
  - rewrite length_be_bytes. simpl decide. by rewrite of_be_word.
  - rewrite !length_app, !length_be_bytes. simpl decide.
    rewrite take_app_length' by (by rewrite length_be_bytes).
    rewrite drop_app_length' by (by rewrite length_be_bytes).
    rewrite take_app_length' by (by rewrite length_be_bytes).
    rewrite app_assoc, drop_app_length' by (by rewrite length_app, !length_be_bytes).
    by rewrite !of_be_word.
Qed.

#[export] Instance laws : CidLaws.
Proof.
  split; simpl.
  - apply try_from_to_bytes.
  - intros [d|[k [c d]]]; simpl; rewrite ?length_app, ?length_be_bytes; done.
  - done.
  - done.
  - intros k h Hk. by apply Z.mod_small.
  - done.
  - intros h c. unfold new_v0. destruct (Z.eqb_spec (proj1_sig h.1) 0x12) as [E|]; [|done].
    intros [= <-]. simpl. split_and!; try done. destruct h as [h1 h2]; simpl in *.
    f_equal. by apply word_eq.
  - intros data. by eexists.
  - by intros [d|].
  - intros [|[k h]]; simpl; [done|]. intros _. unfold new_v1. by rewrite to_word_id.
  - by intros [] data.
  - done.
Qed.
End Reference.
