(* ===== verification/CidFacts.v ===== *)
(** * Properties of CID construction and conversion *)

From Stdlib Require Import ZArith Lia List.
From stdpp Require Import base tactics numbers list gmap sets strings.
From S2P Require Import Prelude Cid.

#[local] Open Scope Z_scope.

Section facts.
Context `{CidCrate} `{!CidLaws}.
Implicit Types (b : CidBuilder) (data : bytes) (c : Cid).

Lemma build_v1 b data :
  version b = V1 →
  CidBuilder.build b data
    = Ok (Cid_new_v1 (codec b) (digest (HashAlgorithm.code (hash_algorithm b)) data)).
Proof. intros Hv. unfold CidBuilder.build. rewrite Hv. simpl. by rewrite Cid_new_V1. Qed.

(** The CID the knowledge graph gives every block: [CidBuilder::new().build_dag_cbor]. *)
Lemma build_dag_cbor_new data :
  CidBuilder.build_dag_cbor CidBuilder.new data = Ok (Cid_new_v1 0x71 (digest Sha2_256 data)).
Proof. by apply build_v1. Qed.

(** [CidBuilder::build] on every configuration: a version 1 builder always succeeds and
    the CID carries exactly its codec and the chosen hash of the data; a version 0 builder
    refuses every algorithm but SHA2-256 and, with it, yields a version 0 CID with the DAG-PB
    codec whatever codec was configured. *)
Theorem build_spec b data (Hcodec : 0 <= codec b < 2 ^ 64) :
  match version b with
  | V1 => ∃ c, CidBuilder.build b data = Ok c ∧ Cid_version c = V1 ∧ Cid_codec c = codec b
            ∧ Cid_hash c = digest (HashAlgorithm.code (hash_algorithm b)) data
  | V0 => (hash_algorithm b ≠ Sha256 → CidBuilder.build b data = Err InvalidInput) ∧
          (hash_algorithm b = Sha256 → ∃ c, CidBuilder.build b data = Ok c
            ∧ CidBuilder.build_v0 b data = Ok c
            ∧ Cid_version c = V0 ∧ Cid_codec c = DAG_PB ∧ Cid_hash c = digest Sha2_256 data)
  end.
Proof.
  destruct (version b) eqn:Hv.
  - unfold CidBuilder.build, CidBuilder.build_v0. rewrite Hv. simpl. split; intros Ha.
    + by rewrite decide_True.
    + rewrite decide_False by tauto. rewrite Ha. simpl.
      destruct (Cid_v0_total data) as [c Hc]. rewrite Hc. exists c.
      destruct (Cid_v0_new _ _ Hc) as (? & ? & ?). by split_and!.
  - rewrite build_v1 by done. eexists; split_and!; [done|apply Cid_v1_version| |apply Cid_v1_hash].
    by apply Cid_v1_codec.
Qed.

(** Version conversions: a version 0 CID converts to a version 1 CID with the DAG-PB
    codec and the same hash, which is accepted as convertible and converts back to the CID it
    came from; a version 1 CID that is not SHA2-256 over DAG-PB is refused by [to_v0]. *)
Theorem version_conversions c :
  (Cid_version c = V0 → ∃ c1, CidExt.to_v1 c = Ok c1 ∧ CidExt.is_v1 c1 = true
     ∧ Cid_codec c1 = DAG_PB ∧ Cid_hash c1 = Cid_hash c
     ∧ CidExt.can_be_v0 c1 = true ∧ CidExt.to_v0 c1 = Ok c) ∧
  (Cid_version c = V1 → CidExt.can_be_v0 c = false → CidExt.to_v0 c = Err InvalidInput).
Proof.
  split; intros Hv.
  - destruct (Cid_v0_inv c Hv) as (Hcod & Hmh & Hnew). exists (Cid_new_v1 DAG_PB (Cid_hash c)).
    unfold CidExt.to_v1, CidExt.is_v1, CidExt.can_be_v0, CidExt.to_v0.
    rewrite Cid_v1_version, Cid_v1_hash, Cid_v1_codec by (unfold DAG_PB; lia).
    rewrite Hv, Hmh, Hnew. by split_and!.
  - unfold CidExt.can_be_v0, CidExt.to_v0. rewrite Hv. simpl.
    destruct (_ =? 0x12); simpl; [|done]. by intros ->.
Qed.

(** [hash_algorithm_name] misnames hashes: of the eight algorithms the builder supports
    only SHA2-256 and SHA3-256 CIDs are named correctly; a SHA3-512 CID is called "sha3-256", a
    BLAKE3 CID "blake2b-256", and the other four, BLAKE2b-256 among them, "unknown". *)
Theorem hash_algorithm_name_of_built a data :
  ∃ c, CidBuilder.build (CidBuilder.with_hash_algorithm CidBuilder.new a) data = Ok c ∧
    CidExt.hash_algorithm_name c =
      match a with
      | Sha256 => "sha2-256" | Sha3_256 => "sha3-256"
      | Sha3_512 => "sha3-256" | Blake3 => "blake2b-256"
      | Sha512 | Blake2b256 | Blake2b512 | Blake2s256 => "unknown"
      end%string.
Proof.
  eexists. split; [by apply build_v1|].
  unfold CidExt.hash_algorithm_name. rewrite Cid_v1_hash, mh_code_digest. by destruct a.
Qed.
End facts.

(** The tables agree with each other: every hash algorithm is listed once, belongs to
    exactly one family and one size class, the size class matches the digest size in bytes,
    and a multibase prefix is detected back as the encoding it belongs to. *)
Theorem tables_consistent (a : HashAlgorithm) (m : MultibaseEncoding) :
  a ∈ HashAlgorithm.all ∧ NoDup HashAlgorithm.all ∧
  HashAlgorithm.is_sha a = negb (HashAlgorithm.is_blake a) ∧
  HashAlgorithm.is_256_bit a = negb (HashAlgorithm.is_512_bit a) ∧
  HashAlgorithm.hash_size a = (if HashAlgorithm.is_256_bit a then 256 else 512) / 8 ∧
  m ∈ MultibaseEncoding.all ∧
  MultibaseEncoding.from_prefix (MultibaseEncoding.prefix m) = Some m ∧
  (∀ s m', MultibaseEncoding.from_prefix s = Some m' → s = MultibaseEncoding.prefix m').
Proof.
  split_and!; try by destruct a.
  - destruct a; unfold HashAlgorithm.all; set_solver.
  - apply (bool_decide_unpack (NoDup HashAlgorithm.all)). vm_compute. done.
  - destruct m; unfold MultibaseEncoding.all; set_solver.
  - by destruct m.
  - intros s m'. unfold MultibaseEncoding.from_prefix.
    repeat match goal with
    | |- context [(s =? ?p)%string] =>
        destruct (String.eqb_spec s p) as [->|_]; [by intros [= <-]|]
    end. done.
Qed.

(** Witnesses at the reference crate. *)
Import Reference.
Lemma build_spec_witness :
  ∃ c, CidBuilder.build CidBuilder.new [1; 2; 3] = Ok c ∧ Cid_version c = V1 ∧ Cid_codec c = 0x55
    ∧ Cid_hash c = poly_digest Sha2_256 [1; 2; 3].
Proof. exact (build_spec CidBuilder.new [1; 2; 3] ltac:(vm_compute; split; congruence)). Defined.

Lemma version_conversions_witness :
  let c : Cid := inl (to_word _ 7) in
  ∃ c1, CidExt.to_v1 c = Ok c1 ∧ CidExt.is_v1 c1 = true
     ∧ Cid_codec c1 = DAG_PB ∧ Cid_hash c1 = Cid_hash c
     ∧ CidExt.can_be_v0 c1 = true ∧ CidExt.to_v0 c1 = Ok c.
Proof. intros c. exact (proj1 (version_conversions c) eq_refl). Defined.

Lemma hash_algorithm_name_of_built_witness :
  ∃ c, CidBuilder.build (CidBuilder.with_hash_algorithm CidBuilder.new Blake3) [1; 2; 3] = Ok c ∧
    CidExt.hash_algorithm_name c = "blake2b-256"%string.
Proof. exact (hash_algorithm_name_of_built Blake3 [1; 2; 3]). Defined.
