(* ===== verification/Ipld.v ===== *)
(** * The IPLD data model and its DAG-CBOR codec: [crates/ipfrs-core/src/ipld.rs]

    [ipld] is the enum [Ipld]; [encode_dag_cbor] and [decode_dag_cbor] are the two recursive
    functions behind [to_dag_cbor] and [from_dag_cbor], with their helpers.  A reader is the
    list of bytes still unread, a buffer the list of bytes written so far.  Floats are bit
    patterns ([Ieee]), maps are sorted association lists ([Collections]), an [i128] is a [Z].
    DAG-JSON and the serde visitors are not modelled (they are [serde_json] glue). *)

From Stdlib Require Import ZArith Lia List.
From stdpp Require Import base tactics numbers list gmap sets strings.
From S2P Require Import Prelude Collections Ieee Cid.

#[local] Open Scope Z_scope.

Definition CID_TAG : Z := 42.

Section ipld.
Context `{CidCrate}.

Inductive ipld : Type :=
| INull
| IBool (b : bool)
| IInteger (n : Z)
| IFloat (bits : Z)
| IString (s : string)
| IBytes (b : bytes)
| IList (l : list ipld)
| IMap (m : list (string * ipld))
| ILink (c : Cid).

(** The induction principle that goes under the lists. *)
Lemma ipld_ind' (P : ipld → Prop) :
  P INull → (∀ b, P (IBool b)) → (∀ n, P (IInteger n)) → (∀ f, P (IFloat f)) →
  (∀ s, P (IString s)) → (∀ b, P (IBytes b)) → (∀ l, Forall P l → P (IList l)) →
  (∀ m, Forall (λ p, P p.2) m → P (IMap m)) → (∀ c, P (ILink c)) → ∀ i, P i.
Proof.
  intros Hn Hb Hi Hf Hs Hy Hl Hm Hc. fix IH 1. intros [| | | | | |l|m|].
  - apply Hn.
  - apply Hb.
  - apply Hi.
  - apply Hf.
  - apply Hs.
  - apply Hy.
  - apply Hl. induction l; constructor; [apply IH | done].
  - apply Hm. induction m; constructor; [apply IH | done].
  - apply Hc.
Qed.

(** The derived [PartialEq], on bit patterns for floats. *)
Fixpoint ipld_eqb (i j : ipld) : bool :=
  match i, j with
  | INull, INull => true
  | IBool a, IBool b => Bool.eqb a b
  | IInteger a, IInteger b => a =? b
  | IFloat a, IFloat b => a =? b
  | IString a, IString b => String.eqb a b
  | IBytes a, IBytes b => bool_decide (a = b)
  | IList a, IList b =>
    (fix go a b :=
       match a, b with
       | [], [] => true
       | x :: a', y :: b' => ipld_eqb x y && go a' b'
       | _, _ => false
       end) a b
  | IMap a, IMap b =>
    (fix go a b :=
       match a, b with
       | [], [] => true
       | (k, x) :: a', (k', y) :: b' => String.eqb k k' && ipld_eqb x y && go a' b'
       | _, _ => false
       end) a b
  | ILink a, ILink b => bool_decide (a = b)
  | _, _ => false
  end.

Lemma ipld_eqb_eq i j : ipld_eqb i j = true → i = j.
Proof.
  revert j. induction i as [|b|n|f|s|b|l IH|m IH|c] using ipld_ind'; intros [] He; simpl in He;
    try done.
  - by apply Bool.eqb_prop in He as ->.
  - by apply Z.eqb_eq in He as ->.
  - by apply Z.eqb_eq in He as ->.
  - by apply String.eqb_eq in He as ->.
  - by apply bool_decide_eq_true in He as ->.
  - f_equal. revert l0 He. induction IH as [|x l Hx _ IHl]; intros [|y l'] He; try done.
    apply andb_true_iff in He as [He1 He2]. f_equal; auto.
  - f_equal. revert m0 He. induction IH as [|[k x] m Hx _ IHm]; intros [|[k' y] m'] He; try done.
    apply andb_true_iff in He as [[Hk%String.eqb_eq He1]%andb_true_iff He2].
    simpl in Hx. rewrite Hk, (Hx y), (IHm m'); done.
  - by apply bool_decide_eq_true in He as ->.
Qed.

(** ** Accessors *)
Definition link (c : Cid) : ipld := ILink c.
Definition is_link (i : ipld) : bool := match i with ILink _ => true | _ => false end.
Definition as_link (i : ipld) : option Cid :=
  match i with ILink c => Some c | _ => None end.
Definition is_null (i : ipld) : bool := match i with INull => true | _ => false end.
Definition is_bool (i : ipld) : bool := match i with IBool _ => true | _ => false end.
Definition is_integer (i : ipld) : bool := match i with IInteger _ => true | _ => false end.
Definition is_float (i : ipld) : bool := match i with IFloat _ => true | _ => false end.
Definition is_string (i : ipld) : bool := match i with IString _ => true | _ => false end.
Definition is_bytes (i : ipld) : bool := match i with IBytes _ => true | _ => false end.
Definition is_list (i : ipld) : bool := match i with IList _ => true | _ => false end.
Definition is_map (i : ipld) : bool := match i with IMap _ => true | _ => false end.
Definition as_bool (i : ipld) : option bool :=
  match i with IBool b => Some b | _ => None end.
Definition as_integer (i : ipld) : option Z :=
  match i with IInteger n => Some n | _ => None end.
Definition as_float (i : ipld) : option Z :=
  match i with IFloat f => Some f | _ => None end.
Definition as_string (i : ipld) : option string :=
  match i with IString s => Some s | _ => None end.
Definition as_bytes (i : ipld) : option bytes :=
  match i with IBytes b => Some b | _ => None end.
Definition as_list (i : ipld) : option (list ipld) :=
  match i with IList l => Some l | _ => None end.
Definition as_map (i : ipld) : option (list (string * ipld)) :=
  match i with IMap m => Some m | _ => None end.
Definition get (i : ipld) (key : string) : option ipld :=
  m ← as_map i; bt_get key m.
Definition index (i : ipld) (idx : nat) : option ipld :=
  l ← as_list i; l !! idx.
Definition len (i : ipld) : nat :=
  match i with
  | IList l => length l
  | IMap m => length m
  | IString s => String.length s
  | IBytes b => length b
  | _ => 0%nat
  end.
Definition is_empty (i : ipld) : bool :=
  match i with
  | INull => true
  | IList l => bool_decide (l = [])
  | IMap m => bool_decide (length m = 0%nat)
  | IString s => bool_decide (s = ""%string)
  | IBytes b => bool_decide (b = [])
  | _ => false
  end.
Definition type_name (i : ipld) : string :=
  match i with
  | INull => "null" | IBool _ => "bool" | IInteger _ => "integer" | IFloat _ => "float"
  | IString _ => "string" | IBytes _ => "bytes" | IList _ => "list" | IMap _ => "map"
  | ILink _ => "link"
  end.

(** [collect_links] pushes onto a vector; [links] starts it empty. *)
Fixpoint collect_links (i : ipld) (result : list Cid) : list Cid :=
  match i with
  | ILink c => result ++ [c]
  | IList l =>
    (fix go l result :=
       match l with [] => result | x :: l' => go l' (collect_links x result) end) l result
  | IMap m =>
    (fix go m result :=
       match m with [] => result | (_, v) :: m' => go m' (collect_links v result) end)
      m result
  | _ => result
  end.
Definition links (i : ipld) : list Cid := collect_links i [].

(** ** Encoding *)
Definition encode_cbor_length (major_type length : Z) (buffer : bytes) : bytes :=
  let mt := Z.shiftl major_type 5 in
  if length <? 24 then buffer ++ [Z.lor mt length]
  else if length <? 256 then buffer ++ [Z.lor mt 24] ++ [length]
  else if length <? 65536 then buffer ++ [Z.lor mt 25] ++ be_bytes 2 length
  else if length <? 4294967296 then buffer ++ [Z.lor mt 26] ++ be_bytes 4 length
  else buffer ++ [Z.lor mt 27] ++ be_bytes 8 length.

Definition encode_cbor_tag (tag : Z) (buffer : bytes) : bytes :=
  encode_cbor_length 6 tag buffer.

Definition encode_cbor_integer (value : Z) (buffer : bytes) : outcome Error bytes :=
  if 0 <=? value then Ok (encode_cbor_length 0 (as_u64 value) buffer)
  else Ok (encode_cbor_length 1 (as_u64 (-1 - value)) buffer).

Definition zlen {A} (l : list A) : Z := Z.of_nat (length l).
Lemma zlen_app {A} (l1 l2 : list A) : (zlen (l1 ++ l2) = zlen l1 + zlen l2)%Z.
Proof. unfold zlen. rewrite length_app. lia. Qed.

Fixpoint encode_dag_cbor (i : ipld) (buffer : bytes) : outcome Error bytes :=
  match i with
  | INull => Ok (buffer ++ [0xf6])
  | IBool b => Ok (buffer ++ [if b then 0xf5 else 0xf4])
  | IInteger n => encode_cbor_integer n buffer
  | IFloat f => Ok (buffer ++ [0xfb] ++ be_bytes 8 f)
  | IString s =>
    Ok (encode_cbor_length 3 (zlen (string_bytes s)) buffer ++ string_bytes s)
  | IBytes b => Ok (encode_cbor_length 2 (zlen b) buffer ++ b)
  | IList l =>
    (fix go l buffer :=
       match l with
       | [] => Ok buffer
       | item :: l' => let! buffer := encode_dag_cbor item buffer in go l' buffer
       end) l (encode_cbor_length 4 (zlen l) buffer)
  | IMap m =>
    (fix go m buffer :=
       match m with
       | [] => Ok buffer
       | (key, value) :: m' =>
         let buffer :=
           encode_cbor_length 3 (zlen (string_bytes key)) buffer ++ string_bytes key in
         let! buffer := encode_dag_cbor value buffer in go m' buffer
       end) m (encode_cbor_length 5 (zlen m) buffer)
  | ILink c =>
    let buffer := encode_cbor_tag CID_TAG buffer in
    let prefixed := 0x00 :: Cid_to_bytes c in
    Ok (encode_cbor_length 2 (zlen prefixed) buffer ++ prefixed)
  end.

Definition to_dag_cbor (i : ipld) : outcome Error bytes := encode_dag_cbor i [].

(** ** Decoding *)

(** [Read::read_exact] into a buffer of [n] bytes. *)
Definition read_exact (n : Z) (r : bytes) : outcome Error (bytes * bytes) :=
  if n <=? zlen r then Ok (take (Z.to_nat n) r, drop (Z.to_nat n) r)
  else Err Deserialization.

(** [vec![0u8; len]] and [Vec::with_capacity(len)] of elements of [size] bytes panic with
    "capacity overflow" when the allocation exceeds [isize::MAX]. *)
Definition alloc (len size : Z) : outcome Error unit :=
  if isize_max <? len * size then Panic else Ok tt.

Definition decode_cbor_uint (additional_info : Z) (r : bytes) : outcome Error (Z * bytes) :=
  if additional_info <=? 23 then Ok (additional_info, r)
  else if additional_info =? 24 then
    let! (buf, r) := read_exact 1 r in Ok (of_be_bytes buf, r)
  else if additional_info =? 25 then
    let! (buf, r) := read_exact 2 r in Ok (of_be_bytes buf, r)
  else if additional_info =? 26 then
    let! (buf, r) := read_exact 4 r in Ok (of_be_bytes buf, r)
  else if additional_info =? 27 then
    let! (buf, r) := read_exact 8 r in Ok (of_be_bytes buf, r)
  else Err Deserialization.

(** The normalisation loop of [f16_to_f64]; [f] has at most ten leading zeros to skip. *)
Fixpoint f16_normalize (fuel : nat) (f e : Z) : Z * Z :=
  match fuel with
  | O => (f, e)
  | S fuel' =>
    if Z.land f 0x400 =? 0 then f16_normalize fuel' (Z.shiftl f 1) (e - 1) else (f, e)
  end.

Definition f16_to_f64 (bits : Z) : Z :=
  let sign := Z.land (Z.shiftr bits 15) 1 in
  let exp := Z.land (Z.shiftr bits 10) 0x1f in
  let frac := Z.land bits 0x3ff in
  if exp =? 0 then
    if frac =? 0 then Z.shiftl sign 63
    else
      let '(f, e) := f16_normalize 10 frac (-14) in
      let new_exp := as_u64 (e + 1023) in
      let new_frac := Z.shiftl (Z.land f 0x3ff) 42 in
      Z.lor (Z.lor (Z.shiftl sign 63) (Z.shiftl new_exp 52)) new_frac
  else if exp =? 31 then
    if frac =? 0 then Z.lor (Z.shiftl sign 63) (Z.shiftl 0x7ff 52)
    else Z.lor (Z.lor (Z.shiftl sign 63) (Z.shiftl 0x7ff 52)) (Z.shiftl frac 42)
  else
    let new_exp := as_u64 (exp - 15 + 1023) in
    let new_frac := Z.shiftl frac 42 in
    Z.lor (Z.lor (Z.shiftl sign 63) (Z.shiftl new_exp 52)) new_frac.

(** The loops [for _ in 0..len] of the array and map cases, over the decoder of one item.
    Every item takes at least one byte, so one more round than there are bytes is enough. *)
Section loops.
Context (decode : bytes → outcome Error (ipld * bytes)).

Fixpoint decode_items (fuel : nat) (len : Z) (r : bytes) (list : list ipld) :
    outcome Error (ipld * bytes) :=
  if len <=? 0 then Ok (IList list, r) else
  match fuel with
  | O => OutOfFuel
  | S fuel' =>
    let! (item, r) := decode r in decode_items fuel' (len - 1) r (list ++ [item])
  end.

Fixpoint decode_entries (fuel : nat) (len : Z) (r : bytes) (map : list (string * ipld)) :
    outcome Error (ipld * bytes) :=
  if len <=? 0 then Ok (IMap map, r) else
  match fuel with
  | O => OutOfFuel
  | S fuel' =>
    let! (key, r) := decode r in
    let! key_str :=
      match key with IString s => Ok s | _ => Err Deserialization end in
    let! (value, r) := decode r in
    decode_entries fuel' (len - 1) r (bt_insert key_str value map)
  end.
End loops.

Fixpoint decode_dag_cbor (fuel : nat) (r : bytes) : outcome Error (ipld * bytes) :=
  match fuel with
  | O => OutOfFuel
  | S fuel' =>
    let! (first_byte, r) := read_exact 1 r in
    let first_byte := of_be_bytes first_byte in
    let major_type := Z.shiftr first_byte 5 in
    let additional_info := Z.land first_byte 0x1f in
    if major_type =? 0 then
      let! (value, r) := decode_cbor_uint additional_info r in Ok (IInteger value, r)
    else if major_type =? 1 then
      let! (value, r) := decode_cbor_uint additional_info r in Ok (IInteger (-1 - value), r)
    else if major_type =? 2 then
      let! (len, r) := decode_cbor_uint additional_info r in
      let! _ := alloc len 1 in
      let! (b, r) := read_exact len r in Ok (IBytes b, r)
    else if major_type =? 3 then
      let! (len, r) := decode_cbor_uint additional_info r in
      let! _ := alloc len 1 in
      let! (b, r) := read_exact len r in
      if utf8_valid b then Ok (IString (bytes_string b), r) else Err Deserialization
    else if major_type =? 4 then
      let! (len, r) := decode_cbor_uint additional_info r in
      let! _ := alloc len ipld_size in
      decode_items (decode_dag_cbor fuel') (S (length r)) len r []
    else if major_type =? 5 then
      let! (len, r) := decode_cbor_uint additional_info r in
      decode_entries (decode_dag_cbor fuel') (S (length r)) len r []
    else if major_type =? 6 then
      let! (tag, r) := decode_cbor_uint additional_info r in
      if tag =? CID_TAG then
        let! (bytes_ipld, r) := decode_dag_cbor fuel' r in
        match bytes_ipld with
        | IBytes b =>
          let b := match b with 0x00 :: b' => b' | _ => b end in
          let! c := ok_or (Cid_try_from b) Deserialization in Ok (ILink c, r)
        | _ => Err Deserialization
        end
      else decode_dag_cbor fuel' r
    else if major_type =? 7 then
      if additional_info =? 20 then Ok (IBool false, r)
      else if additional_info =? 21 then Ok (IBool true, r)
      else if additional_info =? 22 then Ok (INull, r)
      else if additional_info =? 25 then
        let! (b, r) := read_exact 2 r in Ok (IFloat (f16_to_f64 (of_be_bytes b)), r)
      else if additional_info =? 26 then
        let! (b, r) := read_exact 4 r in Ok (IFloat (f32_to_f64 (of_be_bytes b)), r)
      else if additional_info =? 27 then
        let! (b, r) := read_exact 8 r in Ok (IFloat (of_be_bytes b), r)
      else Err Deserialization
    else Err Deserialization
  end.

(** What follows the first value is not looked at. *)
Definition from_dag_cbor (data : bytes) : outcome Error ipld :=
  let! (i, _) := decode_dag_cbor (S (length data)) data in Ok i.
End ipld.

(** Evaluating the decoder on a concrete input without normalising the types involved. *)
Definition decodes_to `{CidCrate} (data : bytes) (v : ipld) : bool :=
  match from_dag_cbor data with Ok w => ipld_eqb w v | _ => false end.

Lemma decodes_to_eq `{CidCrate} data v : decodes_to data v = true → from_dag_cbor data = Ok v.
Proof.
  unfold decodes_to. destruct (from_dag_cbor data) as [w| | |]; try done.
  by intros ->%ipld_eqb_eq.
Qed.
