(* ===== verification/IpldFacts.v ===== *)
(** * Correctness of the DAG-CBOR codec

    The encoder appends the reference encoding [cbor] to its buffer; the decoder inverts it
    on every well-formed value and never needs more fuel than there are bytes; integers
    outside 64 bits are truncated. *)

From Stdlib Require Import ZArith Lia List.
From stdpp Require Import base tactics numbers list gmap sets strings.
From S2P Require Import Prelude Collections Ieee Cid Ipld.

#[local] Open Scope Z_scope.

(** ** The CBOR head *)

(** The bytes of a major type and argument, as the standard lays them out. *)
Definition cbor_head (major arg : Z) : bytes :=
  if arg <? 24 then [32 * major + arg]
  else if arg <? 2 ^ 8 then [32 * major + 24; arg]
  else if arg <? 2 ^ 16 then (32 * major + 25) :: be_bytes 2 arg
  else if arg <? 2 ^ 32 then (32 * major + 26) :: be_bytes 4 arg
  else (32 * major + 27) :: be_bytes 8 arg.

Definition head_byte_ok (m l : nat) : bool :=
  let b := Z.lor (Z.shiftl (Z.of_nat m) 5) (Z.of_nat l) in
  (b =? 32 * Z.of_nat m + Z.of_nat l) && (Z.shiftr b 5 =? Z.of_nat m)
  && (Z.land b 0x1f =? Z.of_nat l).

Lemma head_byte m l :
  0 <= m < 8 → 0 <= l < 32 →
  Z.lor (Z.shiftl m 5) l = 32 * m + l
  ∧ Z.shiftr (32 * m + l) 5 = m ∧ Z.land (32 * m + l) 0x1f = l.
Proof.
  intros Hm Hl.
  assert (Forall (λ m, Forall (λ l, head_byte_ok m l = true) (seq 0 32)) (seq 0 8)) as HF
    by (vm_compute; repeat constructor).
  rewrite Forall_forall in HF. specialize (HF (Z.to_nat m)).
  rewrite Forall_forall in HF. specialize (HF ltac:(apply elem_of_seq; lia) (Z.to_nat l)).
  specialize (HF ltac:(apply elem_of_seq; lia)). unfold head_byte_ok in HF.
  rewrite !Z2Nat.id in HF by lia.
  apply andb_true_iff in HF as [[E1%Z.eqb_eq E2%Z.eqb_eq]%andb_true_iff E3%Z.eqb_eq].
  rewrite E1 in E2, E3. done.
Qed.

Lemma zlen_nonneg {A} (l : list A) : 0 <= zlen l.
Proof. unfold zlen. lia. Qed.
#[export] Hint Resolve zlen_nonneg : core.

Section facts.
Context `{CidCrate}.

Lemma encode_cbor_length_head m arg buffer :
  0 <= m < 8 → 0 <= arg < 2 ^ 64 →
  encode_cbor_length m arg buffer = buffer ++ cbor_head m arg.
Proof.
  intros Hm Harg. unfold encode_cbor_length, cbor_head.
  change (2 ^ 8) with 256. change (2 ^ 16) with 65536. change (2 ^ 32) with 4294967296.
  destruct (Z.ltb_spec arg 24); [by rewrite (proj1 (head_byte m arg Hm ltac:(lia)))|].
  rewrite (proj1 (head_byte m 24 Hm ltac:(lia))), (proj1 (head_byte m 25 Hm ltac:(lia))),
    (proj1 (head_byte m 26 Hm ltac:(lia))), (proj1 (head_byte m 27 Hm ltac:(lia))).
  by repeat case_match.
Qed.

Lemma read_exact_app n (b r : bytes) : zlen b = n → read_exact n (b ++ r) = Ok (b, r).
Proof.
  unfold read_exact, zlen. intros <-. rewrite length_app.
  destruct (Z.leb_spec (Z.of_nat (length b)) (Z.of_nat (length b + length r))); [|lia].
  by rewrite Nat2Z.id, take_app_length, drop_app_length.
Qed.

Lemma read_exact_inv n (r b r' : bytes) :
  read_exact n r = Ok (b, r') → r = b ++ r' ∧ (0 <= n → zlen b = n).
Proof.
  unfold read_exact. case_match eqn:E; [|done]. intros [= <- <-]. apply Z.leb_le in E.
  split; [by rewrite take_drop|]. unfold zlen in *. rewrite length_take. lia.
Qed.

(** Reading back a head: the first byte splits into the major type and the additional
    information, from which [decode_cbor_uint] recovers the argument. *)
Lemma decode_head m arg r :
  0 <= m < 8 → 0 <= arg < 2 ^ 64 →
  ∃ b info tl, cbor_head m arg ++ r = b :: tl ∧ Z.shiftr b 5 = m ∧ Z.land b 0x1f = info
    ∧ decode_cbor_uint info tl = Ok (arg, r).
Proof.
  intros Hm Harg. unfold cbor_head.
  destruct (Z.ltb_spec arg 24).
  { destruct (head_byte m arg Hm ltac:(lia)) as (_ & ? & ?).
    exists (32 * m + arg), arg, r. split_and!; try done.
    unfold decode_cbor_uint. by destruct (Z.leb_spec arg 23); [|lia]. }
  destruct (Z.ltb_spec arg (2 ^ 8)).
  { destruct (head_byte m 24 Hm ltac:(lia)) as (_ & ? & ?).
    exists (32 * m + 24), 24, (arg :: r). split_and!; try done.
    unfold decode_cbor_uint. simpl. change (arg :: r) with ([arg] ++ r).
    by rewrite read_exact_app. }
  assert (∀ i n, 0 <= i < 32 → 0 <= arg < 256 ^ Z.of_nat n →
    (∀ tl : bytes, decode_cbor_uint i tl
       = let! (buf, r) := read_exact (Z.of_nat n) tl in Ok (of_be_bytes buf, r)) →
    ∃ b info tl, ((32 * m + i) :: be_bytes n arg) ++ r = b :: tl ∧ Z.shiftr b 5 = m
      ∧ Z.land b 0x1f = info ∧ decode_cbor_uint info tl = Ok (arg, r)) as Hwide.
  { intros i n Hi Hn Hd. destruct (head_byte m i Hm Hi) as (_ & ? & ?).
    exists (32 * m + i), i, (be_bytes n arg ++ r). split_and!; try done.
    rewrite Hd, read_exact_app by (unfold zlen; by rewrite length_be_bytes).
    simpl. by rewrite of_be_be_bytes. }
  destruct (Z.ltb_spec arg (2 ^ 16)); [apply (Hwide 25 2%nat); simpl; try lia; done|].
  destruct (Z.ltb_spec arg (2 ^ 32)); [apply (Hwide 26 4%nat); simpl; try lia; done|].
  apply (Hwide 27 8%nat); simpl; try lia; done.
Qed.

(** ** The reference encoding *)
Fixpoint cbor (i : ipld) : bytes :=
  match i with
  | INull => [0xf6]
  | IBool b => [if b then 0xf5 else 0xf4]
  | IInteger n => if 0 <=? n then cbor_head 0 n else cbor_head 1 (-1 - n)
  | IFloat f => 0xfb :: be_bytes 8 f
  | IString s => cbor_head 3 (zlen (string_bytes s)) ++ string_bytes s
  | IBytes b => cbor_head 2 (zlen b) ++ b
  | IList l => cbor_head 4 (zlen l) ++ concat (map cbor l)
  | IMap m =>
    cbor_head 5 (zlen m) ++
    concat (map (λ p, cbor_head 3 (zlen (string_bytes p.1)) ++ string_bytes p.1 ++ cbor p.2) m)
  | ILink c =>
    cbor_head 6 CID_TAG ++ cbor_head 2 (zlen (0 :: Cid_to_bytes c)) ++ 0 :: Cid_to_bytes c
  end.

(** The invariant of the Rust type together with the memory limits of the platform: 64-bit
    integers and floats, UTF-8 strings, sorted maps, and collections that fit in memory. *)
Fixpoint wf_ipld (i : ipld) : Prop :=
  match i with
  | INull | IBool _ => True
  | IInteger n => - 2 ^ 64 <= n < 2 ^ 64
  | IFloat f => 0 <= f < 2 ^ 64
  | IString s => str_ok s
  | IBytes b => zlen b <= isize_max
  | IList l => zlen l * ipld_size <= isize_max ∧ zlen l <= isize_max
               ∧ foldr (λ x P, wf_ipld x ∧ P) True l
  | IMap m => zlen m <= isize_max ∧ bt_sorted m
              ∧ foldr (λ p P, (str_ok p.1 ∧ wf_ipld p.2) ∧ P) True m
  | ILink c => zlen (Cid_to_bytes c) < isize_max ∧ Cid_try_from (Cid_to_bytes c) = Some c
  end.

Lemma foldr_and_Forall {A} (P : A → Prop) l : foldr (λ x Q, P x ∧ Q) True l ↔ Forall P l.
Proof. induction l; simpl; [done|]. by rewrite IHl, Forall_cons. Qed.

Lemma isize_lt_u64 x : 0 <= x <= isize_max → 0 <= x < 2 ^ 64.
Proof. unfold isize_max. lia. Qed.

Lemma zlen_string s : zlen (string_bytes s) = Z.of_nat (String.length s).
Proof. unfold zlen. by rewrite length_string_bytes. Qed.

(** ** The encoder *)
Lemma encode_dag_cbor_cbor i buffer :
  wf_ipld i → encode_dag_cbor i buffer = Ok (buffer ++ cbor i).
Proof.
  revert buffer. induction i as [|b|n|f|s|b|l IH|m IH|c] using ipld_ind';
    intros buffer Hwf; simpl in Hwf; simpl; rewrite ?encode_cbor_length_head by
      (try lia; apply isize_lt_u64; split; auto; destruct_and?; auto).
  - done.
  - by destruct b.
  - unfold encode_cbor_integer.
    destruct (Z.leb_spec 0 n); rewrite as_u64_small by lia; by rewrite encode_cbor_length_head by lia.
  - done.
  - destruct Hwf. rewrite encode_cbor_length_head by
      (try lia; apply isize_lt_u64; rewrite zlen_string; lia). by rewrite <- app_assoc.
  - by rewrite <- app_assoc.
  - destruct Hwf as (_ & _ & Hwf). apply foldr_and_Forall in Hwf.
    rewrite app_assoc. generalize (buffer ++ cbor_head 4 (zlen l)). clear buffer.
    induction l as [|x l IHl]; intros buffer; simpl; [by rewrite app_nil_r|].
    apply Forall_cons in IH as [IHx IH]. apply Forall_cons in Hwf as [Hx Hwf].
    rewrite IHx by done. simpl. rewrite IHl by done. by rewrite app_assoc.
  - destruct Hwf as (_ & _ & Hwf). apply foldr_and_Forall in Hwf.
    rewrite app_assoc. generalize (buffer ++ cbor_head 5 (zlen m)). clear buffer.
    induction m as [|[k v] m IHm]; intros buffer; simpl; [by rewrite app_nil_r|].
    apply Forall_cons in IH as [IHx IH]. apply Forall_cons in Hwf as [[[_ Hk] Hx] Hwf].
    simpl in *. rewrite encode_cbor_length_head by
      (try lia; apply isize_lt_u64; rewrite zlen_string; lia).
    rewrite IHx by done. simpl. rewrite IHm by done. by rewrite <- !app_assoc.
  - unfold encode_cbor_tag. destruct Hwf as [Hc _]. unfold zlen in *. simpl length.
    rewrite (encode_cbor_length_head 6) by (unfold CID_TAG; lia).
    rewrite encode_cbor_length_head by (unfold isize_max in *; lia). by rewrite <- !app_assoc.
Qed.

Lemma to_dag_cbor_cbor i : wf_ipld i → to_dag_cbor i = Ok (cbor i).
Proof. intros. unfold to_dag_cbor. by rewrite encode_dag_cbor_cbor. Qed.

(** ** The decoder, one value at a time *)
Lemma read_exact_1 b (r : bytes) : read_exact 1 (b :: r) = Ok ([b], r).
Proof. by apply (read_exact_app 1 [b]). Qed.

Lemma alloc_ok len size : len * size <= isize_max → alloc len size = Ok tt.
Proof. unfold alloc. by destruct (Z.ltb_spec isize_max (len * size)); [lia|]. Qed.

Lemma cbor_head_nonempty m a : (0 < length (cbor_head m a))%nat.
Proof. unfold cbor_head. repeat case_match; simpl; lia. Qed.

Lemma cbor_nonempty i : (0 < length (cbor i))%nat.
Proof.
  pose proof cbor_head_nonempty as Hh.
  destruct i; simpl; rewrite ?length_app; try (pose proof (Hh 3 (zlen (string_bytes s))));
    try (pose proof (Hh 2 (zlen b))); try (pose proof (Hh 4 (zlen l)));
    try (pose proof (Hh 5 (zlen m))); try (pose proof (Hh 6 CID_TAG)); try lia.
  case_match; apply Hh.
Qed.
End facts.

Ltac decode_head m arg :=
  let b := fresh "b" in let info := fresh "info" in let tl := fresh "tl" in
  let Hm := fresh "Hm" in let Hi := fresh "Hi" in let Hd := fresh "Hd" in let E := fresh "E" in
  lazymatch goal with
  | |- decode_dag_cbor _ (cbor_head _ _ ++ ?r) = _ =>
    destruct (decode_head m arg r) as (b & info & tl & E & Hm & Hi & Hd);
    [ lia | | rewrite E; cbn [decode_dag_cbor]; rewrite read_exact_1; cbn [outcome_bind];
      change (of_be_bytes [b]) with b; rewrite Hm, Hi; lazy delta [Z.eqb Pos.eqb] beta iota; rewrite Hd; cbn [outcome_bind] ]
  end.

Section decode.
Context `{CidCrate}.

Lemma decode_items_app (decode : bytes → outcome Error (ipld * bytes)) l fuel rest acc :
  (∀ x tl, x ∈ l → (length (cbor x ++ tl) ≤ length (concat (map cbor l) ++ rest))%nat →
     decode (cbor x ++ tl) = Ok (x, tl)) →
  (length l ≤ fuel)%nat →
  decode_items decode fuel (zlen l) (concat (map cbor l) ++ rest) acc = Ok (IList (acc ++ l), rest).
Proof.
  revert fuel acc. induction l as [|x l IH]; intros fuel acc Hdec Hfuel.
  - destruct fuel; simpl; by rewrite app_nil_r.
  - destruct fuel as [|fuel]; simpl in *; [lia|].
    destruct (Z.leb_spec (zlen (x :: l)) 0); [unfold zlen in *; simpl in *; lia|].
    rewrite <- app_assoc, Hdec; [|left|by rewrite !app_assoc]. simpl.
    replace (zlen (x :: l) - 1) with (zlen l) by (unfold zlen; simpl; lia).
    rewrite IH; [by rewrite <- app_assoc| |lia].
    intros y tl Hy Hlen. apply Hdec; [by right|]. rewrite !length_app in *. lia.
Qed.

Definition cbor_entry (p : string * ipld) : bytes :=
  cbor_head 3 (zlen (string_bytes p.1)) ++ string_bytes p.1 ++ cbor p.2.

Lemma decode_entries_app (decode : bytes → outcome Error (ipld * bytes)) m fuel rest acc :
  (∀ i tl, (∃ p, p ∈ m ∧ (i = IString p.1 ∨ i = p.2)) →
     (length (cbor i ++ tl) ≤ length (concat (map cbor_entry m) ++ rest))%nat →
     decode (cbor i ++ tl) = Ok (i, tl)) →
  bt_sorted (acc ++ m) → (length m ≤ fuel)%nat →
  decode_entries decode fuel (zlen m) (concat (map cbor_entry m) ++ rest) acc
    = Ok (IMap (acc ++ m), rest).
Proof.
  revert fuel acc. induction m as [|[k v] m IH]; intros fuel acc Hdec Hs Hfuel.
  - destruct fuel; simpl; by rewrite app_nil_r.
  - destruct fuel as [|fuel]; simpl in *; [lia|].
    destruct (Z.leb_spec (zlen ((k, v) :: m)) 0); [unfold zlen in *; simpl in *; lia|].
    unfold cbor_entry at 1. simpl. rewrite <- !app_assoc.
    pose proof (Hdec (IString k) (cbor v ++ concat (map cbor_entry m) ++ rest)) as Hk.
    simpl in Hk. rewrite <- !app_assoc in Hk. rewrite Hk; clear Hk; simpl.
    + rewrite Hdec; simpl.
      * replace (zlen ((k, v) :: m) - 1) with (zlen m) by (unfold zlen; simpl; lia).
        rewrite bt_insert_last by (intros q Hq; by apply (bt_sorted_app_lt acc (k, v) m Hs)).
        rewrite IH; [by rewrite <- app_assoc| |by rewrite <- app_assoc|lia].
        intros i tl (p & Hp & Hi) Hlen. apply Hdec; [exists p; split; [by right|done]|].
        rewrite !length_app in *. lia.
      * exists (k, v). split; [left|by right].
      * unfold cbor_entry; simpl. rewrite !length_app. lia.
    + exists (k, v). split; [left|by left].
    + unfold cbor_entry; simpl. rewrite !length_app. lia.
Qed.

Lemma length_concat_cbor {A} (f : A → bytes) l :
  (∀ x, (0 < length (f x))%nat) → (length l ≤ length (concat (map f l)))%nat.
Proof.
  intros Hf. induction l as [|x l IH]; simpl; [lia|]. rewrite length_app. specialize (Hf x). lia.
Qed.

Lemma cbor_entry_nonempty p : (0 < length (cbor_entry p))%nat.
Proof.
  unfold cbor_entry. rewrite !length_app.
  pose proof (cbor_head_nonempty 3 (zlen (string_bytes p.1))). lia.
Qed.

Lemma decode_byte_string fuel b rest :
  zlen b <= isize_max → (length (cbor_head 2 (zlen b) ++ b ++ rest) < fuel)%nat →
  decode_dag_cbor fuel (cbor_head 2 (zlen b) ++ b ++ rest) = Ok (IBytes b, rest).
Proof.
  intros Hlen Hfuel. destruct fuel as [|fuel]; [lia|]. decode_head 2 (zlen b); [apply isize_lt_u64; auto|].
  rewrite alloc_ok by lia. simpl. by rewrite read_exact_app.
Qed.

Lemma decode_string fuel s rest :
  str_ok s → (length (cbor (IString s) ++ rest) < fuel)%nat →
  decode_dag_cbor fuel (cbor (IString s) ++ rest) = Ok (IString s, rest).
Proof.
  intros [Hu Hlen] Hfuel. destruct fuel as [|fuel]; [lia|]. cbn [cbor]. rewrite <- app_assoc.
  decode_head 3 (zlen (string_bytes s)); [apply isize_lt_u64; rewrite zlen_string; lia|].
  rewrite alloc_ok by (rewrite zlen_string; lia). simpl.
  rewrite read_exact_app by done. simpl. by rewrite Hu, bytes_string_bytes.
Qed.

(** Every well-formed value is decoded from its encoding, whatever bytes follow, which are
    left unread. *)
Lemma decode_dag_cbor_cbor i fuel rest :
  wf_ipld i → (length (cbor i ++ rest) < fuel)%nat →
  decode_dag_cbor fuel (cbor i ++ rest) = Ok (i, rest).
Proof.
  revert fuel rest. induction i as [|b|n|f|s|b|l IH|m IH|c] using ipld_ind';
    intros [|fuel] rest Hwf Hfuel; try lia; simpl in Hwf; cbn [cbor] in *.
  - cbn [decode_dag_cbor app]. by rewrite read_exact_1.
  - cbn [decode_dag_cbor app]. rewrite read_exact_1. by destruct b.
  - destruct (Z.leb_spec 0 n).
    + by decode_head 0 n; [lia|].
    + decode_head 1 (-1 - n); [lia|]. by replace (-1 - (-1 - n)) with n by lia.
  - cbn [decode_dag_cbor app]. rewrite read_exact_1.
    change ((let! (b, r) := read_exact 8 (be_bytes 8 f ++ rest) in Ok (IFloat (of_be_bytes b), r))
            = Ok (IFloat f, rest)).
    rewrite read_exact_app by (unfold zlen; by rewrite length_be_bytes). cbn [outcome_bind].
    by rewrite of_be_be_bytes by (simpl; lia).
  - by apply decode_string.
  - rewrite <- app_assoc in Hfuel |- *. by apply decode_byte_string.
  - destruct Hwf as (Ha & Hlen & Hwf). apply foldr_and_Forall in Hwf.
    rewrite <- app_assoc in Hfuel |- *. decode_head 4 (zlen l); [apply isize_lt_u64; auto|].
    rewrite alloc_ok by done. cbn [outcome_bind].
    pose proof (cbor_head_nonempty 4 (zlen l)). rewrite length_app in Hfuel.
    rewrite decode_items_app; [done| |].
    + intros x tl' Hx Hle. rewrite Forall_forall in IH, Hwf. apply IH; auto. lia.
    + rewrite length_app. pose proof (length_concat_cbor cbor l cbor_nonempty). lia.
  - destruct Hwf as (Hlen & Hs & Hwf). apply foldr_and_Forall in Hwf.
    rewrite <- app_assoc in Hfuel |- *. decode_head 5 (zlen m); [apply isize_lt_u64; auto|].
    pose proof (cbor_head_nonempty 5 (zlen m)). rewrite length_app in Hfuel.
    change (λ p, cbor_head 3 _ ++ _) with cbor_entry in *.
    rewrite decode_entries_app; [done| |done|].
    + intros i tl' (p & Hp & Hi') Hle. rewrite Forall_forall in IH, Hwf. destruct (Hwf p Hp).
      destruct Hi' as [-> | ->]; [|apply IH; auto; lia]. apply decode_string; [done|lia].
    + rewrite length_app.
      pose proof (length_concat_cbor cbor_entry m cbor_entry_nonempty). lia.
  - destruct Hwf as [Hlen Hc]. rewrite <- !app_assoc in Hfuel |- *. decode_head 6 CID_TAG; [unfold CID_TAG; lia|].
    pose proof (cbor_head_nonempty 6 CID_TAG). rewrite length_app in Hfuel.
    change (42 =? CID_TAG) with true. simpl.
    pose proof (decode_byte_string fuel (0 :: Cid_to_bytes c) rest) as Hb.
    simpl app in Hb, Hfuel |- *. rewrite Hb; [| |lia]; [|unfold zlen in *; simpl; lia].
    simpl. by rewrite Hc.
Qed.
End decode.

(** ** The decoder terminates and yields well-formed values *)
Section decoded.
Context `{CidCrate}.

(** The outcome is not a lack of fuel, and leaves fewer than [n] bytes unread. *)
Definition within {A} (n : nat) (o : outcome Error (A * bytes)) : Prop :=
  match o with
  | Ok (_, r') => (length r' < n)%nat
  | OutOfFuel => False
  | _ => True
  end.

Lemma within_mono {A} n n' (o : outcome Error (A * bytes)) :
  (n <= n')%nat → within n o → within n' o.
Proof. destruct o as [[? ?]| | |]; simpl; intros; lia || done. Qed.

Lemma within_bind {A B} n (m : outcome Error (A * bytes)) (k : A * bytes → outcome Error (B * bytes)) :
  within n m → (∀ a r', (length r' < n)%nat → within n (k (a, r'))) →
  within n (outcome_bind k m).
Proof. intros Hm Hk. destruct m as [[a r']| | |]; simpl in *; auto. Qed.

Lemma within_alloc {B} n l sz (k : unit → outcome Error (B * bytes)) :
  within n (k tt) → within n (outcome_bind k (alloc l sz)).
Proof. unfold alloc. by case_match. Qed.

Lemma within_ok_or {A B} n (o : option A) e (k : A → outcome Error (B * bytes)) :
  (∀ a, within n (k a)) → within n (outcome_bind k (ok_or o e)).
Proof. destruct o; simpl; auto. Qed.

Lemma within_read_exact n k r : (length r < n)%nat → within n (read_exact k r).
Proof. unfold read_exact. intros. case_match; simpl; [|done]. rewrite length_drop. lia. Qed.

Lemma within_decode_cbor_uint n info r :
  (length r < n)%nat → within n (decode_cbor_uint info r).
Proof.
  intros. unfold decode_cbor_uint.
  repeat case_match; simpl; try lia; try done;
    apply within_bind; try (by apply within_read_exact); simpl; auto.
Qed.

Section loops.
Context (decode : bytes → outcome Error (ipld * bytes)) (n : nat).
Hypothesis Hdec : ∀ r, (length r < n)%nat → within (length r) (decode r).

Lemma within_decode_items fuel len r acc :
  (length r < n)%nat → (length r < fuel)%nat →
  within (S (length r)) (decode_items decode fuel len r acc).
Proof using All.
  revert len r acc. induction fuel as [|fuel IH]; intros len r acc Hn Hf; [lia|]. simpl.
  case_match; [simpl; lia|]. eapply within_mono; [|apply within_bind; [by apply Hdec|]]; [lia|].
  intros i r' Hr'. eapply within_mono; [|apply IH]; lia.
Qed.

Lemma within_decode_entries fuel len r acc :
  (length r < n)%nat → (length r < fuel)%nat →
  within (S (length r)) (decode_entries decode fuel len r acc).
Proof using All.
  revert len r acc. induction fuel as [|fuel IH]; intros len r acc Hn Hf; [lia|]. simpl.
  case_match; [simpl; lia|]. eapply within_mono; [|apply within_bind; [by apply Hdec|]]; [lia|].
  intros i r' Hr'. destruct i; simpl; try done.
  eapply within_mono; [|apply within_bind; [apply Hdec; lia|]]; [lia|].
  intros v r'' Hr''. eapply within_mono; [|apply IH]; lia.
Qed.
End loops.

(** Enough fuel: one unit per byte of input, plus one.  The result is then an answer, and at
    least one byte has been read. *)
Lemma within_decode fuel r : (length r < fuel)%nat → within (length r) (decode_dag_cbor fuel r).
Proof.
  revert r. induction fuel as [|fuel IH]; intros r Hf; [lia|]. cbn [decode_dag_cbor].
  destruct r as [|b r]; [done|]. rewrite read_exact_1. cbn [outcome_bind]. simpl length in *.
  assert (∀ r', (length r' < fuel)%nat → (length r' < S (length r))%nat →
    within (S (length r)) (decode_dag_cbor fuel r')) as Hrec.
  { intros r' ? ?. eapply within_mono; [|apply IH]; lia. }
  set (info := Z.land _ _). set (major := Z.shiftr _ _). clearbody info major.
  repeat match goal with
  | |- within _ (if _ =? _ then _ else _) => case_match
  end;
  try (apply within_bind; [apply within_decode_cbor_uint; lia|]; intros len r1 Hr1);
  cbn [outcome_bind]; try done; try (simpl; lia);
  try (apply within_bind; [apply within_read_exact; lia | intros; simpl; lia]).
  - apply within_alloc. apply within_bind; [by apply within_read_exact|]. simpl. auto.
  - apply within_alloc. apply within_bind; [by apply within_read_exact|].
    intros b' r2 Hr2. by case_match.
  - apply within_alloc. eapply within_mono; [|apply (within_decode_items _ fuel); [|lia|lia]];
      [lia|]. auto.
  - eapply within_mono; [|apply (within_decode_entries _ fuel); [|lia|lia]]; [lia|]. auto.
  - case_match; [|apply Hrec; lia]. apply within_bind; [apply Hrec; lia|].
    intros i r2 Hr2. destruct i; simpl; try done. by apply within_ok_or.
Qed.
End decoded.

(** ** Half-precision floats *)

Lemma land_shiftl_low x n f : 0 <= n → 0 <= f < 2 ^ n → Z.land (Z.shiftl x n) f = 0.
Proof.
  intros Hn Hf. apply Z.bits_inj'. intros m Hm. rewrite Z.land_spec, Z.bits_0.
  destruct (decide (m < n)).
  - by rewrite Z.shiftl_spec_low.
  - destruct (decide (f = 0)) as [->|]; [by rewrite Z.bits_0, andb_false_r|].
    rewrite (Z.bits_above_log2 f), andb_false_r; [done|lia|]. apply Z.log2_lt_pow2; [lia|].
    pose proof (Z.pow_le_mono_r 2 n m). lia.
Qed.

Lemma lor_shiftl_low x n f : 0 <= n → 0 <= f < 2 ^ n → Z.lor (Z.shiftl x n) f = x * 2 ^ n + f.
Proof.
  intros Hn Hf. rewrite <- Z.shiftl_mul_pow2 by lia.
  rewrite Z.add_nocarry_lxor by (by apply land_shiftl_low).
  symmetry. apply Z.lxor_lor. by apply land_shiftl_low.
Qed.

(** Assembling a float from its shifted fields is [pack]. *)
Lemma lor_fields s e f :
  0 <= e < 2 ^ 11 → 0 <= f < 2 ^ 52 →
  Z.lor (Z.lor (Z.shiftl s 63) (Z.shiftl e 52)) f = pack 11 52 s e f.
Proof.
  intros He Hf. unfold pack.
  replace (Z.shiftl s 63) with (Z.shiftl (Z.shiftl s 11) 52) by (by rewrite Z.shiftl_shiftl).
  rewrite <- Z.shiftl_lor.
  rewrite (lor_shiftl_low (Z.lor (Z.shiftl s 11) e) 52 f), (lor_shiftl_low s 11 e) by lia. done.
Qed.

Lemma f16_fields b :
  Z.land (Z.shiftr b 15) 1 = sign_of 5 10 b mod 2 ∧ Z.land (Z.shiftr b 10) 0x1f = exp_of 5 10 b
  ∧ Z.land b 0x3ff = frac_of 10 b.
Proof.
  change 1 with (Z.ones 1) at 1. change 0x1f with (Z.ones 5). change 0x3ff with (Z.ones 10).
  rewrite !Z.land_ones, !Z.shiftr_div_pow2 by lia. unfold sign_of, exp_of, frac_of.
  rewrite Z.div_div by lia. done.
Qed.

(** Checking a predicate on an interval of integers by evaluation. *)
Fixpoint check_below (n : nat) (b : Z) (f : Z → bool) : bool :=
  match n with O => true | S n' => f b && check_below n' (b + 1) f end.

Lemma check_below_spec n b f :
  check_below n b f = true → ∀ x, b <= x < b + Z.of_nat n → f x = true.
Proof.
  revert b; induction n as [|n IH]; intros b H x Hx; [lia|].
  simpl in H. apply andb_true_iff in H as [Hb H].
  destruct (decide (x = b)) as [->|]; [done|]. apply (IH (b + 1)); [done|lia].
Qed.

Lemma sign_of_small b : 0 <= b < 2 ^ 16 → sign_of 5 10 b mod 2 = sign_of 5 10 b.
Proof. intros. apply Z.mod_small, (sign_of_range 5 10); lia. Qed.

Definition f16_normalize_ok (f : Z) : bool :=
  let k := Z.log2 f in
  let '(g, e) := f16_normalize 10 f (-14) in (g =? f * 2 ^ (10 - k)) && (e =? k - 24).

(** The normalisation loop stops after at most ten shifts, with the leading one in bit 10. *)
Lemma f16_normalize_spec f :
  0 < f < 2 ^ 10 → f16_normalize 10 f (-14) = (f * 2 ^ (10 - Z.log2 f), Z.log2 f - 24).
Proof.
  intros Hf.
  assert (f16_normalize_ok f = true) as Hok.
  { apply (check_below_spec (Z.to_nat 1023) 1); [vm_compute; reflexivity | simpl; lia]. }
  unfold f16_normalize_ok in Hok. destruct (f16_normalize 10 f (-14)) as [g e].
  apply andb_true_iff in Hok as [->%Z.eqb_eq ->%Z.eqb_eq]. done.
Qed.

(** [f16_to_f64] is the exact widening of a half-precision number. *)
Lemma f16_to_f64_widen b :
  0 <= b < 2 ^ 16 → ¬ (exp_of 5 10 b = 31 ∧ frac_of 10 b ≠ 0) → f16_to_f64 b = widen 5 10 b.
Proof.
  intros Hb Hnan. unfold f16_to_f64, widen.
  destruct (f16_fields b) as (-> & -> & ->).
  rewrite sign_of_small by done.
  pose proof (exp_of_range 5 10 b ltac:(lia)) as He. change (2 ^ 5) with 32 in *.
  pose proof (frac_of_range 10 b ltac:(lia)) as Hf. change (2 ^ 10) with 1024 in *.
  set (s := sign_of 5 10 b) in *. set (e := exp_of 5 10 b) in *. set (f := frac_of 10 b) in *.
  clearbody s e f. change (2 ^ (5 - 1) - 1) with 15. change (32 - 1) with 31.
  destruct (Z.eqb_spec e 0) as [->|]; [destruct (Z.eqb_spec f 0) as [->|]|].
  - unfold pack. rewrite Z.shiftl_mul_pow2 by lia. lia.
  - rewrite f16_normalize_spec by lia.
    assert (0 <= Z.log2 f < 10) by (split; [apply Z.log2_nonneg | apply Z.log2_lt_pow2; lia]).
    pose proof (Z.log2_spec f ltac:(lia)) as Hk. rewrite Z.pow_succ_r in Hk by lia.
    set (k := Z.log2 f) in *. clearbody k.
    assert (2 ^ 10 = 2 ^ k * 2 ^ (10 - k)) as E by (rewrite <- Z.pow_add_r by lia; f_equal; lia).
    change (2 ^ 10) with 1024 in E.
    assert (2 ^ (52 - k) = 2 ^ (10 - k) * 2 ^ 42) as E' by (rewrite <- Z.pow_add_r by lia; f_equal; lia).
    assert (0 < 2 ^ (10 - k)) by (apply Z.pow_pos_nonneg; lia).
    change 0x3ff with (Z.ones 10). rewrite Z.land_ones by lia. change (2 ^ 10) with 1024.
    replace ((f * 2 ^ (10 - k)) mod 1024) with ((f - 2 ^ k) * 2 ^ (10 - k)) by
      (symmetry; replace (f * 2 ^ (10 - k)) with ((f - 2 ^ k) * 2 ^ (10 - k) + 1 * 1024) by lia;
       rewrite Z.mod_add by lia; apply Z.mod_small; nia).
    unfold as_u64. rewrite (Z.mod_small (k - 24 + 1023)) by lia.
    rewrite (Z.shiftl_mul_pow2 _ 42) by lia.
    rewrite lor_fields by nia. rewrite E'. f_equal; lia.
  - destruct (Z.eqb_spec e 31) as [->|].
    + destruct (Z.eqb_spec f 0) as [->|]; [|tauto].
      rewrite <- (lor_fields s 2047 0) by lia. by rewrite Z.lor_0_r.
    + unfold as_u64. rewrite (Z.mod_small (e - 15 + 1023)) by lia.
      rewrite (Z.shiftl_mul_pow2 _ 42) by lia.
      rewrite lor_fields by lia. f_equal; lia.
Qed.

(** A NaN stays a NaN, its payload shifted (a signalling NaN is not quieted). *)
Lemma f16_to_f64_nan b :
  0 <= b < 2 ^ 16 → exp_of 5 10 b = 31 → frac_of 10 b ≠ 0 →
  f16_to_f64 b = pack 11 52 (sign_of 5 10 b) 2047 (frac_of 10 b * 2 ^ 42).
Proof.
  intros Hb He Hf. unfold f16_to_f64. destruct (f16_fields b) as (-> & -> & ->).
  rewrite He, sign_of_small by done. simpl. destruct (Z.eqb_spec (frac_of 10 b) 0); [done|].
  pose proof (frac_of_range 10 b ltac:(lia)) as Hr. change (2 ^ 10) with 1024 in *.
  rewrite (Z.shiftl_mul_pow2 (frac_of 10 b)) by lia. by rewrite lor_fields by lia.
Qed.

Lemma f16_to_f64_range b : 0 <= b < 2 ^ 16 → 0 <= f16_to_f64 b < 2 ^ 64.
Proof.
  intros Hb. pose proof (frac_of_range 10 b ltac:(lia)) as Hr. change (2 ^ 10) with 1024 in *.
  pose proof (sign_of_range 5 10 b ltac:(lia) ltac:(lia) Hb) as Hs.
  destruct (decide (exp_of 5 10 b = 31 ∧ frac_of 10 b ≠ 0)) as [[He Hf]|Hn].
  - rewrite f16_to_f64_nan by done. apply (pack_range 11 52); lia.
  - rewrite f16_to_f64_widen by done. apply (widen_range 5 10); lia.
Qed.

(** ** What the decoder returns satisfies the type's invariant *)
Definition u8s (r : bytes) : Prop := Forall (λ b, 0 <= b < 256) r.

Lemma of_be_bytes_range l n :
  u8s l → zlen l = n → 0 <= of_be_bytes l < 256 ^ n.
Proof.
  intros Hl <-. induction l as [|b l IH] using rev_ind; [done|].
  apply Forall_app in Hl as [Hl [Hb _]%Forall_cons]. specialize (IH Hl).
  rewrite of_be_bytes_snoc. unfold zlen in *. rewrite length_app, Nat2Z.inj_add.
  rewrite Z.pow_add_r by lia. change (256 ^ Z.of_nat (length [b])) with 256. lia.
Qed.

Section decoded_wf.
Context `{CidCrate} `{!CidLaws}.

(** [r'] is what is left of [r] after at least [n] bytes. *)
Definition leaves (n : nat) (r r' : bytes) : Prop := ∃ p, r = p ++ r' ∧ (n <= length p)%nat.

Lemma leaves_u8s n r r' : leaves n r r' → u8s r → u8s r'.
Proof. intros (p & -> & _) Hr. by apply Forall_app in Hr as [_ ?]. Qed.

Lemma leaves_length n r r' : leaves n r r' → (n + length r' <= length r)%nat.
Proof. intros (p & -> & ?). rewrite length_app. lia. Qed.

Lemma leaves_trans n1 n2 r r1 r2 : leaves n1 r r1 → leaves n2 r1 r2 → leaves (n1 + n2) r r2.
Proof.
  intros (p1 & -> & ?) (p2 & -> & ?). exists (p1 ++ p2).
  rewrite length_app, <- app_assoc. split; [done|lia].
Qed.

Lemma leaves_mono n n' r r' : leaves n r r' → (n' <= n)%nat → leaves n' r r'.
Proof. intros (p & ? & ?) ?. exists p. split; [done|lia]. Qed.

Lemma read_exact_leaves n r b r' :
  read_exact n r = Ok (b, r') → u8s r → leaves 0 r r' ∧ u8s b ∧ (0 <= n → zlen b = n).
Proof.
  intros [-> Hlen]%read_exact_inv Hr. apply Forall_app in Hr as [? ?].
  split_and!; try done. exists b. split; [done|lia].
Qed.

Lemma decode_cbor_uint_wf info r v r' :
  decode_cbor_uint info r = Ok (v, r') → u8s r → 0 <= info < 32 →
  0 <= v < 2 ^ 64 ∧ leaves 0 r r'.
Proof.
  intros Hd Hr Hi. unfold decode_cbor_uint in Hd.
  destruct (Z.leb_spec info 23).
  { injection Hd as <- <-. split; [lia|]. exists []. by split. }
  assert (∀ n, 0 <= n <= 8 → (let! (buf, r) := read_exact n r in Ok (of_be_bytes buf, r)) = Ok (v, r') →
    0 <= v < 2 ^ 64 ∧ leaves 0 r r') as Hwide.
  { intros n Hn Hb. apply outcome_bind_Ok in Hb as ([b r1] & Hb & [= <- <-]).
    apply read_exact_leaves in Hb as (? & ? & Hlen); [|done]. split; [|done].
    pose proof (of_be_bytes_range b n ltac:(done) ltac:(apply Hlen; lia)).
    pose proof (Z.pow_le_mono_r 256 n 8). lia. }
  repeat case_match; try done; eapply Hwide; try exact Hd; lia.
Qed.

Lemma alloc_bind_Ok {B} l sz (k : unit → outcome Error B) b :
  outcome_bind k (alloc l sz) = Ok b → l * sz <= isize_max ∧ k tt = Ok b.
Proof. unfold alloc. destruct (Z.ltb_spec isize_max (l * sz)); simpl; [done|]. split; [lia|done]. Qed.

Section loops_wf.
Context (decode : bytes → outcome Error (ipld * bytes)) (n : nat).
Hypothesis Hdec : ∀ r i r', (length r < n)%nat → decode r = Ok (i, r') → u8s r →
  zlen r <= isize_max → wf_ipld i ∧ leaves 1 r r'.

Lemma decode_items_wf fuel len r acc i r' :
  (length r < n)%nat → decode_items decode fuel len r acc = Ok (i, r') → u8s r →
  zlen r <= isize_max → Forall wf_ipld acc → 0 <= len →
  ∃ l, i = IList l ∧ Forall wf_ipld l ∧ zlen l = zlen acc + len
    ∧ leaves (length l - length acc) r r'.
Proof using All.
  revert len r acc. induction fuel as [|fuel IH]; intros len r acc Hn Hd Hr Hmax Hacc Hlen; simpl in Hd;
    (destruct (Z.leb_spec len 0);
      [injection Hd as <- <-; exists acc; split_and!; try done;
       [lia|exists []; simpl; split; [done|lia]]|]); [done|].
  apply outcome_bind_Ok in Hd as ([x r1] & Hx & Hd).
  apply Hdec in Hx as [Hwf Hl]; [|done..]. pose proof (leaves_length _ _ _ Hl).
  apply IH in Hd as (l & -> & Hl' & Hz & Hl1);
    [|lia|by eapply leaves_u8s|unfold zlen in *; lia|by apply Forall_app; split; [|constructor]|lia].
  exists l. unfold zlen in *. rewrite length_app in *. simpl in *.
  split_and!; try done; [lia|]. eapply leaves_mono; [by eapply leaves_trans|lia].
Qed.

Lemma decode_entries_wf fuel len r acc i r' :
  (length r < n)%nat → decode_entries decode fuel len r acc = Ok (i, r') → u8s r →
  zlen r <= isize_max → Forall (λ p, str_ok p.1 ∧ wf_ipld p.2) acc → bt_sorted acc →
  ∃ m, i = IMap m ∧ Forall (λ p, str_ok p.1 ∧ wf_ipld p.2) m ∧ bt_sorted m
    ∧ leaves (length m - length acc) r r'.
Proof using All.
  revert len r acc. induction fuel as [|fuel IH]; intros len r acc Hn Hd Hr Hmax Hacc Hs; simpl in Hd;
    (destruct (Z.leb_spec len 0);
      [injection Hd as <- <-; exists acc; split_and!; try done;
       exists []; simpl; split; [done|lia]|]); [done|].
  apply outcome_bind_Ok in Hd as ([k r1] & Hk & Hd).
  apply Hdec in Hk as [Hwfk Hl1]; [|done..]. pose proof (leaves_length _ _ _ Hl1).
  destruct k; simpl in Hd; try done. apply outcome_bind_Ok in Hd as ([v r2] & Hv & Hd).
  apply Hdec in Hv as [Hwfv Hl2]; [|lia|by eapply leaves_u8s|unfold zlen in *; lia]. pose proof (leaves_length _ _ _ Hl2).
  assert (length (bt_insert s v acc) <= S (length acc))%nat by apply length_bt_insert.
  apply IH in Hd as (m & -> & Hm & Hsm & Hl3);
    [|lia|eapply leaves_u8s, leaves_u8s; done|unfold zlen in *; lia| |by apply bt_insert_sorted].
  - exists m. split_and!; try done. eapply leaves_mono;
      [eapply leaves_trans; [by eapply leaves_trans|done]|lia].
  - rewrite Forall_forall in Hacc |- *. intros p [->|Hp]%bt_insert_keys; auto.
Qed.
End loops_wf.

Lemma decode_wf fuel r i r' :
  (length r < fuel)%nat → decode_dag_cbor fuel r = Ok (i, r') → u8s r → zlen r <= isize_max →
  wf_ipld i ∧ leaves 1 r r'.
Proof.
  revert r i r'. induction fuel as [|fuel IH]; intros r i r' Hf Hd Hr Hmax; [lia|].
  cbn [decode_dag_cbor] in Hd.
  apply outcome_bind_Ok in Hd as ([b r1] & Hb & Hd).
  apply read_exact_inv in Hb as [-> Hlen]. specialize (Hlen ltac:(lia)).
  apply Forall_app in Hr as [_ Hr]. unfold zlen in Hlen.
  assert (length r1 < fuel)%nat as Hf1 by (rewrite length_app in Hf; lia).
  assert (zlen r1 <= isize_max) as Hmax1 by (unfold zlen in *; rewrite length_app in Hmax; lia).
  enough (wf_ipld i ∧ leaves 0 r1 r') as [? (p & -> & _)].
  { split; [done|]. exists (b ++ p). rewrite app_assoc, length_app. split; [done|lia]. }
  assert (0 <= Z.land (of_be_bytes b) 0x1f < 32) as Hinfo
    by (change 0x1f with (Z.ones 5); rewrite Z.land_ones by lia; by apply Z.mod_pos_bound).
  clear Hlen Hf Hmax. set (info := Z.land _ _) in *. set (major := Z.shiftr _ _) in *.
  clearbody info major.
  assert (∀ r i r', (length r < fuel)%nat → decode_dag_cbor fuel r = Ok (i, r') → u8s r →
    zlen r <= isize_max → wf_ipld i ∧ leaves 0 r r') as IH0.
  { intros ???? Hd' ??. apply IH in Hd' as [? ?]; try done. split; [done|].
    by eapply leaves_mono; [|lia]. }
  assert (∀ r i r', (length r < fuel)%nat → decode_dag_cbor fuel r = Ok (i, r') → u8s r →
    zlen r <= isize_max → wf_ipld i ∧ leaves 1 r r') as IH1 by auto.
  repeat match type of Hd with (if _ =? _ then _ else _) = _ => case_match end; try done;
  try (apply outcome_bind_Ok in Hd as ([v r2] & Hv & Hd);
       apply decode_cbor_uint_wf in Hv as [Hv Hl2]; [|done..];
       pose proof (leaves_length _ _ _ Hl2); pose proof (leaves_u8s _ _ _ Hl2 Hr)).
  - injection Hd as <- <-. split; [simpl; lia|done].
  - injection Hd as <- <-. split; [simpl; lia|done].
  - apply alloc_bind_Ok in Hd as [Ha Hd]. apply outcome_bind_Ok in Hd as ([b' r3] & Hb & Hd).
    injection Hd as <- <-. apply read_exact_leaves in Hb as (Hl3 & _ & Hlen); [|done].
    specialize (Hlen ltac:(lia)). split; [simpl; lia|]. apply (leaves_trans 0 0 _ r2); done.
  - apply alloc_bind_Ok in Hd as [Ha Hd]. apply outcome_bind_Ok in Hd as ([b' r3] & Hb & Hd).
    apply read_exact_leaves in Hb as (Hl3 & Hu & Hlen); [|done]. specialize (Hlen ltac:(lia)).
    case_match; [|done]. injection Hd as <- <-. split; [|by apply (leaves_trans 0 0 _ r2)].
    simpl. split; [by rewrite string_bytes_string|].
    rewrite <- length_string_bytes, string_bytes_string by done. unfold zlen in Hlen. lia.
  - apply alloc_bind_Ok in Hd as [Ha Hd].
    apply (decode_items_wf _ fuel IH1) in Hd as (l & -> & Hwf & Hz & Hl3);
      [|lia|done|unfold zlen in *; lia|constructor|lia].
    split; [|by apply (leaves_trans 0 0 _ r2); [|eapply leaves_mono; [|lia]]].
    simpl. pose proof ipld_size_bound. unfold zlen in *. simpl in Hz.
    split_and!; [nia|nia|by apply foldr_and_Forall].
  - apply (decode_entries_wf _ fuel IH1) in Hd as (m & -> & Hwf & Hs & Hl3);
      [|lia|done|unfold zlen in *; lia|constructor|constructor].
    split; [|by apply (leaves_trans 0 0 _ r2); [|eapply leaves_mono; [|lia]]].
    pose proof (leaves_length _ _ _ Hl3). simpl in *. unfold zlen in *.
    split_and!; [lia|done|by apply foldr_and_Forall].
  - assert (zlen r2 <= isize_max) as Hmax2 by (unfold zlen in *; lia).
    case_match.
    + apply outcome_bind_Ok in Hd as ([x r3] & Hx & Hd). apply IH0 in Hx as [_ Hl3]; [|lia|done..].
      destruct x; try done. apply outcome_bind_Ok in Hd as (c & Hc & Hd). injection Hd as <- <-.
      split; [|by apply (leaves_trans 0 0 _ r2)]. simpl.
      pose proof (Cid_to_bytes_bound c). unfold zlen, isize_max.
      split; [lia|apply Cid_try_from_to_bytes].
    + apply IH0 in Hd as [? ?]; [|lia|done..]. split; [done|]. by apply (leaves_trans 0 0 _ r2).
  - injection Hd as <- <-. split; [done|]. exists []. by split.
  - injection Hd as <- <-. split; [done|]. exists []. by split.
  - injection Hd as <- <-. split; [done|]. exists []. by split.
  - apply outcome_bind_Ok in Hd as ([b' r3] & Hb & Hd). injection Hd as <- <-.
    apply read_exact_leaves in Hb as (? & Hu & Hlen); [|done]. split; [|done]. simpl.
    apply f16_to_f64_range, (of_be_bytes_range b' 2); auto with lia.
  - apply outcome_bind_Ok in Hd as ([b' r3] & Hb & Hd). injection Hd as <- <-.
    apply read_exact_leaves in Hb as (? & Hu & Hlen); [|done]. split; [|done]. simpl.
    apply (widen_range 8 23); [lia..|]. apply (of_be_bytes_range b' 4); auto with lia.
  - apply outcome_bind_Ok in Hd as ([b' r3] & Hb & Hd). injection Hd as <- <-.
    apply read_exact_leaves in Hb as (? & Hu & Hlen); [|done]. split; [|done]. simpl.
    apply (of_be_bytes_range b' 8); auto with lia.
Qed.
End decoded_wf.

(** ** Properties *)
Section properties.
Context `{CidCrate}.

Lemma from_dag_cbor_answers data : from_dag_cbor data ≠ OutOfFuel.
Proof.
  unfold from_dag_cbor. pose proof (within_decode (S (length data)) data ltac:(lia)) as Hw.
  by destruct (decode_dag_cbor _ _) as [[? ?]| | |].
Qed.

Lemma from_dag_cbor_cbor v rest : wf_ipld v → from_dag_cbor (cbor v ++ rest) = Ok v.
Proof. intros Hwf. unfold from_dag_cbor. by rewrite decode_dag_cbor_cbor by (done || lia). Qed.

(** C4. DAG-CBOR round trip: every well-formed IPLD value is encoded successfully, and
    decoding the encoding, whatever bytes follow it, returns exactly that value. *)
Theorem dag_cbor_roundtrip (v : ipld) (Hwf : wf_ipld v) :
  ∃ b, to_dag_cbor v = Ok b ∧ ∀ rest, from_dag_cbor (b ++ rest) = Ok v.
Proof.
  exists (cbor v). split; [by apply to_dag_cbor_cbor|]. intros rest. by apply from_dag_cbor_cbor.
Qed.

(** C30. The decoder terminates on every input: one unit of fuel per byte, plus one, always
    yields an answer (a value, an error or a panic), and more fuel never exhausts either. *)
Theorem from_dag_cbor_total (data : bytes) (fuel : nat) :
  from_dag_cbor data ≠ OutOfFuel ∧
  decode_dag_cbor (S (length data) + fuel) data ≠ OutOfFuel.
Proof.
  split; [apply from_dag_cbor_answers|].
  pose proof (within_decode (S (length data) + fuel) data ltac:(lia)) as Hw.
  by destruct (decode_dag_cbor _ _) as [[? ?]| | |].
Qed.

(** C34. The decoder only returns well-formed values (64-bit integers, UTF-8 strings, sorted
    duplicate-free maps, parsable links), so re-encoding what was decoded succeeds and
    decodes to the same value. *)
Theorem from_dag_cbor_wf `{!CidLaws} (data : bytes) (v : ipld)
  (Hu8 : u8s data) (Hlen : zlen data <= isize_max) (Hd : from_dag_cbor data = Ok v) :
  wf_ipld v ∧ ∃ b, to_dag_cbor v = Ok b ∧ from_dag_cbor b = Ok v.
Proof.
  unfold from_dag_cbor in Hd. apply outcome_bind_Ok in Hd as ([w r] & Hd & [= ->]).
  apply decode_wf in Hd as [Hwf _]; [|lia|done..]. split; [done|].
  exists (cbor v). split; [by apply to_dag_cbor_cbor|].
  rewrite <- (app_nil_r (cbor v)). by apply from_dag_cbor_cbor.
Qed.

(** Integers wider than 64 bits are silently truncated by the encoder, although the type
    promises "full i128 range": what is decoded back is the argument modulo 2^64 (of [n], or
    of [-1 - n] when negative). *)
Theorem encode_integer_truncates (n : Z) :
  ∃ b, to_dag_cbor (IInteger n) = Ok b ∧
    from_dag_cbor b = Ok (IInteger (if 0 <=? n then n mod 2 ^ 64 else -1 - (-1 - n) mod 2 ^ 64)).
Proof.
  set (n' := if 0 <=? n then _ else _).
  assert (wf_ipld (IInteger n') ∧ to_dag_cbor (IInteger n) = to_dag_cbor (IInteger n')) as [Hwf ->].
  { subst n'. pose proof (Z.mod_pos_bound n (2 ^ 64) eq_refl).
    pose proof (Z.mod_pos_bound (-1 - n) (2 ^ 64) eq_refl).
    unfold to_dag_cbor; simpl; unfold encode_cbor_integer, as_u64. destruct (Z.leb_spec 0 n).
    - rewrite (proj2 (Z.leb_le 0 (n mod 2 ^ 64))) by lia. rewrite Z.mod_mod by lia.
      split; [lia|done].
    - rewrite (proj2 (Z.leb_gt 0 (-1 - (-1 - n) mod 2 ^ 64))) by lia.
      replace (-1 - (-1 - (-1 - n) mod 2 ^ 64)) with ((-1 - n) mod 2 ^ 64) by lia.
      rewrite Z.mod_mod by lia. split; [lia|done]. }
  exists (cbor (IInteger n')). split; [by apply to_dag_cbor_cbor|].
  unfold from_dag_cbor. rewrite <- (app_nil_r (cbor _)).
  by rewrite decode_dag_cbor_cbor by (done || lia).
Qed.

(** A byte string that is too long for the platform. *)
Lemma from_dag_cbor_oversized len rest :
  isize_max < len < 2 ^ 64 → from_dag_cbor (cbor_head 2 len ++ rest) = Panic.
Proof.
  intros Hlen. unfold from_dag_cbor.
  destruct (decode_head 2 len rest) as (b & info & tl & -> & Hm & Hi & Hd);
    [lia|unfold isize_max in *; lia|].
  cbn [decode_dag_cbor]; rewrite read_exact_1; cbn [outcome_bind].
  change (of_be_bytes [b]) with b. rewrite Hm, Hi. lazy delta [Z.eqb Pos.eqb] beta iota.
  rewrite Hd. cbn [outcome_bind]. unfold alloc. by rewrite (proj2 (Z.ltb_lt isize_max (len * 1))) by lia.
Qed.

(** A length prefix beyond the address space makes the decoder panic ("capacity
    overflow") instead of returning an error: a byte or text string head above [isize::MAX],
    or an array head whose elements would take more, from a nine-byte input. *)
Theorem oversized_length_panics (len : Z) (rest : bytes) (Hlen : 0 <= len < 2 ^ 64) :
  (isize_max < len → from_dag_cbor (cbor_head 2 len ++ rest) = Panic
                     ∧ from_dag_cbor (cbor_head 3 len ++ rest) = Panic)
  ∧ (isize_max < len * ipld_size → from_dag_cbor (cbor_head 4 len ++ rest) = Panic).
Proof.
  assert (∀ n, isize_max < n → (isize_max <? n) = true) as Hlt by (intros; by apply Z.ltb_lt).
  split; intros Hbig; unfold from_dag_cbor; [split|];
    match goal with |- context [cbor_head ?m len] =>
      destruct (decode_head m len rest) as (b & info & tl & -> & Hm & Hi & Hd); [lia|done|]
    end;
    cbn [decode_dag_cbor]; rewrite read_exact_1; cbn [outcome_bind];
    change (of_be_bytes [b]) with b; rewrite Hm, Hi; lazy delta [Z.eqb Pos.eqb] beta iota;
    rewrite Hd; cbn [outcome_bind]; unfold alloc; by rewrite Hlt by lia.
Qed.

(** Half-precision floats are widened exactly: for every 16-bit pattern that is not a NaN,
    the bit manipulation of [f16_to_f64], normalisation loop included, is the generic exact
    widening of a 5-bit-exponent, 10-bit-fraction number. *)
Theorem f16_to_f64_exact (b : Z) (Hb : 0 <= b < 2 ^ 16)
  (Hnan : ¬ (exp_of 5 10 b = 31 ∧ frac_of 10 b ≠ 0)) :
  f16_to_f64 b = widen 5 10 b.
Proof. by apply f16_to_f64_widen. Qed.
End properties.

(** ** Witnesses, at the reference CID crate *)
Import Reference.

Definition demo_cid : Cid := new_v1 DAG_CBOR (poly_digest Sha2_256 [1; 2; 3]).

Definition demo_value : ipld :=
  IMap [("a", IList [IInteger (-3); IInteger 70000; IFloat 0x3ff8000000000000]);
        ("link", ILink demo_cid); ("s", IString "hé"); ("z", IBytes [255; 0])]%string.

Lemma demo_value_wf : wf_ipld demo_value.
Proof.
  unfold demo_value. simpl. unfold bt_sorted, str_ok.
  split_and!; repeat constructor; try done; vm_compute; split_and?; congruence.
Defined.

Lemma dag_cbor_roundtrip_witness :
  wf_ipld demo_value ∧
  ∃ b, to_dag_cbor demo_value = Ok b ∧ ∀ rest, from_dag_cbor (b ++ rest) = Ok demo_value.
Proof. split; [exact demo_value_wf | exact (dag_cbor_roundtrip demo_value demo_value_wf)]. Defined.

(** A map with an out-of-order key, a half float and a link, as another encoder may write it. *)
Definition demo_input : bytes :=
  [0xa2; 0x61; 0x62; 0xf9; 0x3c; 0x00; 0x61; 0x61; 0xd8; 0x2a; 0x50; 0x00]
  ++ to_bytes demo_cid.
Definition demo_decoded : ipld :=
  IMap [("a", ILink demo_cid); ("b", IFloat 0x3ff0000000000000)]%string.

Lemma from_dag_cbor_wf_witness :
  from_dag_cbor demo_input = Ok demo_decoded ∧
  wf_ipld demo_decoded ∧
  ∃ b, to_dag_cbor demo_decoded = Ok b ∧ from_dag_cbor b = Ok demo_decoded.
Proof.
  assert (from_dag_cbor demo_input = Ok demo_decoded) as Hd by (apply decodes_to_eq; vm_compute; reflexivity).
  split; [exact Hd|]. apply (from_dag_cbor_wf demo_input); [|vm_compute; congruence|exact Hd].
  vm_compute. repeat constructor; congruence.
Defined.

Lemma oversized_length_panics_witness :
  from_dag_cbor (cbor_head 2 (2 ^ 63) ++ []) = Panic
  ∧ from_dag_cbor (cbor_head 4 (2 ^ 60) ++ []) = Panic.
Proof.
  split.
  - refine (proj1 (proj1 (oversized_length_panics (2 ^ 63) [] _) _)); [lia|vm_compute; done].
  - refine (proj2 (oversized_length_panics (2 ^ 60) [] _) _); [lia|vm_compute; done].
Defined.

Lemma f16_to_f64_exact_witness :
  f16_to_f64 0x0001 = widen 5 10 0x0001 ∧ f16_to_f64 0x0001 = 0x3e70000000000000.
Proof.
  split; [|vm_compute; reflexivity].
  apply f16_to_f64_exact; [lia | vm_compute; intros [? ?]; congruence].
Defined.
