(* ===== verification/Store.v ===== *)
(** * Block stores: [crates/ipfrs-knowledge/src/store.rs] and the errors of [error.rs]

    [BlockStore] is the trait, [BlockStoreLaws] what its users rely on: a store is read
    through the finite map [blocks] of what it holds.  [MemStore] implements it; [Audited] is
    any store together with a ghost flag that records whether a [put] ever replaced the bytes
    of a CID by different ones, that is, whether the run met a hash collision. *)

From Stdlib Require Import ZArith Lia List.
From stdpp Require Import base tactics numbers list gmap sets strings.
From S2P Require Import Prelude Cid Ipld.

(** [KError], less the human-readable messages. *)
Inductive KError : Type := KCore (e : Error) | KDecode | KNotFound | KGraph.

Section store.
Context `{CidCrate}.

Class BlockStore (T : Type) : Type := {
  put : Cid → bytes → T → T;
  bs_get : T → Cid → option bytes;
  bs_len : T → nat;
}.

(** The provided methods of the trait. *)
Definition has `{BlockStore T} (s : T) (c : Cid) : bool := bool_decide (is_Some (bs_get s c)).
Definition bs_is_empty `{BlockStore T} (s : T) : bool := Nat.eqb (bs_len s) 0.

Class BlockStoreLaws (T : Type) `{BlockStore T} : Type := {
  blocks : T → gmap Cid bytes;
  bs_get_blocks : ∀ s c, bs_get s c = blocks s !! c;
  blocks_put : ∀ c b s, blocks (put c b s) = <[c := b]> (blocks s);
  bs_len_blocks : ∀ s, bs_len s = size (blocks s);
}.

(** ** [MemStore] *)
Record MemStore : Type := mkMemStore { ms_blocks : gmap Cid bytes }.

Definition MemStore_new : MemStore := mkMemStore ∅.

#[export] Instance MemStore_BlockStore : BlockStore MemStore := {
  put c b s := mkMemStore (<[c := b]> (ms_blocks s));
  bs_get s c := ms_blocks s !! c;
  bs_len s := size (ms_blocks s);
}.

#[export] Instance MemStore_laws : BlockStoreLaws MemStore.
Proof. by refine {| blocks := ms_blocks |}. Defined.

(** ** The ghost instrumentation *)
Record Audited (T : Type) : Type := mkAudited { audited : T; clash : bool }.
#[global] Arguments mkAudited {T} _ _.
#[global] Arguments audited {T} _.
#[global] Arguments clash {T} _.

Definition start {T} (s : T) : Audited T := mkAudited s false.

(** The bytes under [c] would change. *)
Definition clashes `{BlockStore T} (c : Cid) (b : bytes) (s : T) : bool :=
  match bs_get s c with
  | Some b' => bool_decide (b' ≠ b)
  | None => false
  end.

#[export] Instance Audited_BlockStore `{BlockStore T} : BlockStore (Audited T) := {
  put c b s := mkAudited (put c b (audited s)) (clash s || clashes c b (audited s));
  bs_get s c := bs_get (audited s) c;
  bs_len s := bs_len (audited s);
}.

#[export] Instance Audited_laws `{BlockStoreLaws T} : BlockStoreLaws (Audited T).
Proof.
  refine {| blocks s := blocks (audited s) |}; intros; simpl.
  - apply bs_get_blocks.
  - apply blocks_put.
  - apply bs_len_blocks.
Defined.

(** ** Runs without a collision only add blocks *)
Definition grows `{BlockStoreLaws T} (s s' : Audited T) : Prop :=
  (clash s = true → clash s' = true) ∧ (clash s' = false → blocks s ⊆ blocks s').

#[export] Instance grows_preorder `{BlockStoreLaws T} : PreOrder grows.
Proof.
  split; [by split|]. intros s1 s2 s3 [Hc1 Hb1] [Hc2 Hb2]. split; [auto|].
  intros Hc. etrans; [apply Hb1 | by apply Hb2].
  destruct (clash s2) eqn:E; [|done]. by rewrite Hc2 in Hc.
Qed.

Lemma grows_put `{BlockStoreLaws T} c b (s : Audited T) : grows s (put c b s).
Proof.
  split; simpl; [by intros ->|]. intros [_ Hc]%orb_false_iff.
  rewrite blocks_put. unfold clashes in Hc. rewrite bs_get_blocks in Hc.
  destruct (blocks (audited s) !! c) as [b'|] eqn:E; [|by apply insert_subseteq].
  apply bool_decide_eq_false in Hc. by rewrite insert_id; [|rewrite E; f_equal; apply dec_stable].
Qed.

Lemma grows_start `{BlockStoreLaws T} (s s' : Audited T) :
  grows s s' → clash s' = false → clash s = false.
Proof. intros [Hc _] Hf. destruct (clash s); [|done]. by rewrite Hc in Hf. Qed.

(** The instrumentation does not change what a computation does: computations written
    against the trait give equal results on a store and on its audited version.  [erases] is
    that statement for one computation. *)
Definition erases `{BlockStore T} {E A} (m : stateful T E A) (m' : stateful (Audited T) E A) : Prop :=
  ∀ s, m (audited s) = ((m' s).1, audited (m' s).2).

Lemma erases_bind `{BlockStore T} {E A B} (m : stateful T E A) m' (f : A → stateful T E B) f' :
  erases m m' → (∀ a, erases (f a) (f' a)) → erases (st_bind f m) (st_bind f' m').
Proof.
  intros Hm Hf s. unfold st_bind. rewrite (Hm s). destruct (m' s) as [[a| | |] s1]; simpl; try done.
  apply Hf.
Qed.

Lemma erases_lift `{BlockStore T} {E A} (o : outcome E A) :
  erases (lift o : stateful T E A) (lift o).
Proof. done. Qed.

Lemma erases_put `{BlockStore T} {E} c b :
  erases (modifies (put c b) : stateful T E unit) (modifies (put c b)).
Proof. done. Qed.

Lemma erases_reads `{BlockStore T} {E A} (f : T → outcome E A) (f' : Audited T → outcome E A) :
  (∀ s, f (audited s) = f' s) → erases (reads f) (reads f').
Proof. intros Hf s. unfold reads. by rewrite Hf. Qed.
(** ** Reasoning about runs on an audited store

    [growing]: the run only adds blocks, unless it clashes.  [yields m B Q]: on any store that
    holds at least the blocks [B], a run of [m] without a clash returns [Ok], and [Q] holds of
    the result and of the blocks held at the end. *)
Section runs.
Context `{BlockStoreLaws T} {E : Type}.
Implicit Types B : gmap Cid bytes.

Definition growing {A} (m : stateful (Audited T) E A) : Prop := ∀ s, grows s (m s).2.

Lemma growing_bind {A A'} (m : stateful (Audited T) E A) (f : A → stateful _ E A') :
  growing m → (∀ a, growing (f a)) → growing (st_bind f m).
Proof.
  intros Hm Hf s. specialize (Hm s). unfold st_bind.
  destruct (m s) as [[a| | |] s1]; simpl in *; try done. etrans; [done|apply Hf].
Qed.
Lemma growing_lift {A} (o : outcome E A) : growing (lift o).
Proof. by intros s. Qed.
Lemma growing_reads {A} (f : Audited T → outcome E A) : growing (reads f).
Proof. by intros s. Qed.
Lemma growing_put c b : growing (modifies (put c b) : stateful (Audited T) E unit).
Proof. intros s. apply grows_put. Qed.

Definition yields {A} (m : stateful (Audited T) E A) B (Q : A → gmap Cid bytes → Prop) : Prop :=
  ∀ s, B ⊆ blocks s → clash (m s).2 = false → ∃ a, (m s).1 = Ok a ∧ Q a (blocks (m s).2).

Lemma yields_bind {A A'} (m : stateful _ E A) (f : A → stateful _ E A') B Q1 Q :
  growing m → (∀ a, growing (f a)) → yields m B Q1 →
  (∀ a B1, B ⊆ B1 → Q1 a B1 → yields (f a) B1 Q) → yields (st_bind f m) B Q.
Proof.
  intros Hgm Hgf Hm Hf s HB Hc. specialize (Hgm s). specialize (Hm s HB).
  unfold st_bind in *. destruct (m s) as [o s1]; simpl in *.
  assert (clash s1 = false) as Hc1.
  { destruct o as [a| | |]; simpl in *; try done. by eapply grows_start; [apply Hgf|]. }
  destruct (Hm Hc1) as (a & -> & HQ). destruct (Hgm) as [_ Hsub].
  apply (Hf a (blocks s1)); [|done..]. etrans; [done|auto].
Qed.
Lemma yields_lift {A} (a : A) B Q : (∀ B', B ⊆ B' → Q a B') → yields (lift (Ok a)) B Q.
Proof. intros HQ s HB _. exists a. auto. Qed.
Lemma yields_reads {A} (f : Audited T → outcome E A) a B Q :
  (∀ s, B ⊆ blocks s → f s = Ok a) → (∀ B', B ⊆ B' → Q a B') → yields (reads f) B Q.
Proof. intros Hf HQ s HB _. exists a. split; [by apply Hf|by apply HQ]. Qed.
Lemma yields_put c b B Q :
  (∀ B', B ⊆ B' → B' !! c = Some b → Q tt B') → yields (modifies (put c b)) B Q.
Proof.
  intros HQ s HB Hc. exists tt. split; [done|]. simpl. apply HQ.
  - etrans; [done|]. by apply (grows_put c b s).
  - rewrite blocks_put. apply lookup_insert_eq.
Qed.
Lemma yields_weaken {A} (m : stateful _ E A) B B' Q Q' :
  yields m B Q → B ⊆ B' → (∀ a B1, Q a B1 → Q' a B1) → yields m B' Q'.
Proof.
  intros Hm HB HQ s Hs Hc. destruct (Hm s) as (a & Ha & HQa); [by etrans|done|]. eauto.
Qed.
End runs.
End store.

Create HintDb erasure.
#[export] Hint Resolve erases_bind erases_lift erases_put erases_reads : erasure.
Create HintDb growing.
#[export] Hint Resolve growing_bind growing_lift growing_reads growing_put : growing.
