(* ===== verification/Hamt.v ===== *)
(** * The block-backed hash-array-mapped trie: [crates/ipfrs-knowledge/src/hamt.rs]

    A trie node is an array of [WIDTH] slots stored as a DAG-CBOR block.  The operations are
    written against the [BlockStore] interface; a key is the list of the 32 bytes of an
    [EntityId].  [nibble] panics, as the array access does, outside the key. *)

From Stdlib Require Import ZArith Lia List.
From stdpp Require Import base tactics numbers list gmap sets strings.
From S2P Require Import Prelude Collections Cid Ipld Store.

Abbreviation EntityId := (list Z).

Definition WIDTH : nat := 16.
Definition MAX_DEPTH : nat := 64.

(** [Slot], over the type of the references to child nodes: [Cid] in the code, a subtree in
    the abstract trie of [HamtFacts]. *)
Inductive Slot (V C : Type) : Type :=
| Empty
| Leaf (k : EntityId) (v : V)
| Branch (c : C).
Arguments Empty {V C}.
Arguments Leaf {V C} k v.
Arguments Branch {V C} c.

Definition nibble (key : EntityId) (depth : nat) : outcome KError nat :=
  match key !! (depth / 2)%nat with
  | Some byte =>
    Ok (Z.to_nat (if Nat.even depth then Z.shiftr byte 4 else Z.land byte 0x0f))
  | None => Panic
  end.

(** An array access, panicking out of range. *)
Definition slot_at {V C} (slots : list (Slot V C)) (i : nat) : outcome KError (Slot V C) :=
  match slots !! i with Some s => Ok s | None => Panic end.

Section hamt.
Context `{CidCrate}.

Definition slot_to_ipld (s : Slot Cid Cid) : ipld :=
  match s with
  | Empty => INull
  | Leaf k v => IMap (bt_of_list [("k", IBytes k); ("v", ILink v)])
  | Branch c => ILink c
  end%string.

Definition slot_from_ipld (i : ipld) : outcome KError (Slot Cid Cid) :=
  match i with
  | INull => Ok Empty
  | ILink c => Ok (Branch c)
  | IMap m =>
    let! k :=
      match bt_get "k" m with
      | Some (IBytes b) => if decide (length b = 32) then Ok b else Err KDecode
      | _ => Err KDecode
      end in
    let! v := ok_or (x ← bt_get "v" m; as_link x) KDecode in
    Ok (Leaf k v)
  | _ => Err KDecode
  end%string.

Definition node_ipld (slots : list (Slot Cid Cid)) : ipld :=
  IMap (bt_of_list [("@type", IString "hamt"); ("slots", IList (slot_to_ipld <$> slots))])%string.

Section store.
Context {T : Type} `{!BlockStore T}.

Definition node_to_cid (slots : list (Slot Cid Cid)) : stateful T KError Cid :=
  do! bytes := lift (map_err KCore (to_dag_cbor (node_ipld slots))) in
  do! cid := lift (map_err KCore (CidBuilder.build_dag_cbor CidBuilder.new bytes)) in
  do! _ := modifies (put cid bytes) in
  lift (Ok cid).

Definition load (cid : Cid) (store : T) : outcome KError (list (Slot Cid Cid)) :=
  let! bytes := ok_or (bs_get store cid) KNotFound in
  let! i := map_err KCore (from_dag_cbor bytes) in
  let! slots_ipld :=
    match i with
    | IMap m =>
      match bt_get "slots" m with
      | Some (IList l) => if decide (length l = WIDTH) then Ok l else Err KDecode
      | _ => Err KDecode
      end
    | _ => Err KDecode
    end%string in
  try_map slot_from_ipld slots_ipld.

Definition empty : stateful T KError Cid := node_to_cid (replicate WIDTH Empty).

(** [depth] grows at each call; [MAX_DEPTH + 1 - depth] units of fuel are enough. *)
Fixpoint insert_slots (fuel : nat) (slots : list (Slot Cid Cid)) (key : EntityId) (val : Cid)
    (depth : nat) : stateful T KError Cid :=
  match fuel with
  | O => lift OutOfFuel
  | S fuel' =>
    if MAX_DEPTH <=? depth then lift (Err KGraph) else
    do! nib := lift (nibble key depth) in
    do! s := lift (slot_at slots nib) in
    do! new :=
      match s with
      | Empty => lift (Ok (Leaf key val))
      | Leaf k v =>
        if decide (k = key) then lift (Ok (Leaf key val)) else
        do! c1 := insert_slots fuel' (replicate WIDTH Empty) k v (depth + 1) in
        do! child := reads (load c1) in
        do! c2 := insert_slots fuel' child key val (depth + 1) in
        lift (Ok (Branch c2))
      | Branch c =>
        do! child := reads (load c) in
        do! c' := insert_slots fuel' child key val (depth + 1) in
        lift (Ok (Branch c'))
      end in
    node_to_cid (<[nib := new]> slots)
  end%nat.

Definition insert (root : Cid) (key : EntityId) (val : Cid) : stateful T KError Cid :=
  do! slots := reads (load root) in
  insert_slots (S MAX_DEPTH) slots key val 0.

(** The loop of [get], from the node [cur] at [depth]. *)
Fixpoint get_loop (fuel : nat) (store : T) (cur : Cid) (key : EntityId) (depth : nat) :
    outcome KError (option Cid) :=
  match fuel with
  | O => OutOfFuel
  | S fuel' =>
    if MAX_DEPTH <=? depth then Ok None else
    let! slots := load cur store in
    let! nib := nibble key depth in
    let! s := slot_at slots nib in
    match s with
    | Empty => Ok None
    | Leaf k v => Ok (if decide (k = key) then Some v else None)
    | Branch c => get_loop fuel' store c key (depth + 1)
    end
  end%nat.

Definition get (store : T) (root : Cid) (key : EntityId) : outcome KError (option Cid) :=
  get_loop (S MAX_DEPTH) store root key 0.

(** The body of the [for] loop of [entries]: [out] and [stack] are vectors pushed at their
    end, and [stack.pop()] takes the last element. *)
Fixpoint scan_slots (slots : list (Slot Cid Cid)) (out : list (EntityId * Cid)) (stack : list Cid) :
    list (EntityId * Cid) * list Cid :=
  match slots with
  | [] => (out, stack)
  | Empty :: slots' => scan_slots slots' out stack
  | Leaf k v :: slots' => scan_slots slots' (out ++ [(k, v)]) stack
  | Branch c :: slots' => scan_slots slots' out (stack ++ [c])
  end.

(** One unit of fuel per node visited; on a trie that is not a tree-shaped DAG the code
    visits a shared node once per reference to it. *)
Fixpoint entries_loop (fuel : nat) (store : T) (stack : list Cid) (out : list (EntityId * Cid)) :
    outcome KError (list (EntityId * Cid)) :=
  match last stack with
  | None => Ok out
  | Some cid =>
    match fuel with
    | O => OutOfFuel
    | S fuel' =>
      let! slots := load cid store in
      let '(out, stack) := scan_slots slots out (removelast stack) in
      entries_loop fuel' store stack out
    end
  end.

Definition entries (fuel : nat) (store : T) (root : Cid) : outcome KError (list (EntityId * Cid)) :=
  entries_loop fuel store [root] [].
End store.
End hamt.
