(* ===== verification/HamtFacts.v ===== *)
(** * The trie implements a finite map

    Three layers: the block of a node and back; the abstract [trie] with the invariant that
    every key sits on the path of its nibbles; and the refinement: a run on a block store that
    meets no hash collision implements lookup, insertion and enumeration of the finite map
    that [hamt_rep] assigns to a root CID, and leaves every older root intact. *)

From Stdlib Require Import ZArith Lia List.
From stdpp Require Import base tactics numbers list gmap sets strings.
From S2P Require Import Prelude Collections Cid CidFacts Ipld IpldFacts Store Hamt.

(** ** Nibbles *)

(** The 64 nibbles of a 32-byte key, most significant first. *)
Definition nibbles (key : EntityId) : list nat :=
  concat (map (λ b, [Z.to_nat (Z.shiftr b 4); Z.to_nat (Z.land b 0x0f)]) key).

(** What the type [EntityId], a wrapped [[u8; 32]], guarantees. *)
Definition key_ok (key : EntityId) : Prop := length key = 32%nat ∧ u8s key.

Lemma nibble_nibbles key d :
  nibble key d = match nibbles key !! d with Some n => Ok n | None => Panic end.
Proof.
  unfold nibble. revert d. induction key as [|b key IH]; intros d; [by destruct (d / 2)|].
  destruct d as [|[|d]]; try done.
  replace (S (S d) / 2) with (S (d / 2)).
  2:{ replace (S (S d)) with (d + 1 * 2) by lia. rewrite Nat.div_add by lia. lia. }
  exact (IH d).
Qed.

Lemma length_nibbles key : length (nibbles key) = 2 * length key.
Proof. unfold nibbles. induction key; simpl in *; lia. Qed.

Lemma nibble_values b : Z.shiftr b 4 = (b / 16)%Z ∧ Z.land b 0x0f = (b mod 16)%Z.
Proof. split; [by apply Z.shiftr_div_pow2 | by apply (Z.land_ones b 4)]. Qed.

Lemma nibbles_bound key : u8s key → Forall (λ n, n < WIDTH) (nibbles key).
Proof.
  unfold nibbles, WIDTH. induction 1 as [|b key Hb _ IH]; simpl; [constructor|].
  simpl in Hb. destruct (nibble_values b) as [-> ->].
  pose proof (Z.mod_pos_bound b 16). pose proof (Z.div_lt_upper_bound b 16 16).
  pose proof (Z.div_pos b 16).
  apply Forall_cons; split; [lia|]. apply Forall_cons; split; [lia|done].
Qed.

Lemma nibbles_inj k k' : u8s k → u8s k' → nibbles k = nibbles k' → k = k'.
Proof.
  unfold nibbles. intros Hk. revert k'. induction Hk as [|b k Hb Hk IH]; intros [|b' k'] Hk' Heq;
    try done.
  apply Forall_cons in Hk' as [Hb' Hk']. simpl in Heq. injection Heq as Hhi Hlo Heq.
  simpl in Hb, Hb'.
  f_equal; [|by apply IH]. revert Hhi Hlo.
  destruct (nibble_values b) as [-> ->], (nibble_values b') as [-> ->]. intros Hhi Hlo.
  pose proof (Z.mod_pos_bound b 16). pose proof (Z.mod_pos_bound b' 16).
  pose proof (Z.div_pos b 16). pose proof (Z.div_pos b' 16).
  pose proof (Z.div_mod b 16). pose proof (Z.div_mod b' 16). lia.
Qed.

(** Where a key continues below the prefix it shares with a node. *)
Lemma key_path key d : key_ok key → d < MAX_DEPTH →
  ∃ i, nibbles key !! d = Some i ∧ i < WIDTH ∧ drop d (nibbles key) = i :: drop (S d) (nibbles key)
     ∧ take (S d) (nibbles key) = take d (nibbles key) ++ [i].
Proof.
  intros [Hlen Hu8] Hd. destruct (lookup_lt_is_Some_2 (nibbles key) d) as [i Hi].
  { rewrite length_nibbles, Hlen. done. }
  exists i. split_and!; [done| | |].
  - by eapply Forall_lookup_1 in Hi; [|apply nibbles_bound].
  - by apply drop_S.
  - by apply take_S_r.
Qed.

Lemma key_full k k' : key_ok k → key_ok k' →
  take MAX_DEPTH (nibbles k) = take MAX_DEPTH (nibbles k') → k = k'.
Proof.
  intros [Hl Hu] [Hl' Hu']. rewrite !take_ge by (rewrite length_nibbles, ?Hl, ?Hl'; done).
  by apply nibbles_inj.
Qed.

Section facts.
Context `{CidCrate} `{!CidLaws}.

(** ** The block of a node *)
Definition slot_ok (s : Slot Cid Cid) : Prop :=
  match s with Leaf k _ => length k = 32%nat | _ => True end.

(** What the Rust array type guarantees of a node, with its keys. *)
Definition node_ok (slots : list (Slot Cid Cid)) : Prop :=
  length slots = WIDTH ∧ Forall slot_ok slots.

Definition node_bytes (slots : list (Slot Cid Cid)) : bytes := cbor (node_ipld slots).
Definition node_cid (slots : list (Slot Cid Cid)) : Cid :=
  Cid_new_v1 0x71 (digest Sha2_256 (node_bytes slots)).

Lemma link_wf c : wf_ipld (ILink c).
Proof.
  simpl. split; [|apply Cid_try_from_to_bytes]. pose proof (Cid_to_bytes_bound c).
  unfold zlen, isize_max. lia.
Qed.

Lemma slot_ipld_wf s : slot_ok s → wf_ipld (slot_to_ipld s).
Proof.
  destruct s as [|k v|c]; intros Hok; [done| |apply link_wf].
  pose proof (link_wf v). simpl in *. unfold bt_sorted, zlen in *. rewrite Hok.
  split_and!; repeat constructor; try done; apply link_wf.
Qed.

Lemma slot_roundtrip s : slot_ok s → slot_from_ipld (slot_to_ipld s) = Ok s.
Proof. destruct s as [|k v|c]; intros Hok; try done. simpl in *. by rewrite decide_True. Qed.

Lemma node_wf slots : node_ok slots → wf_ipld (node_ipld slots).
Proof.
  intros [Hlen Hok]. pose proof ipld_size_bound. simpl. unfold bt_sorted, zlen.
  rewrite length_fmap, Hlen. split_and!; try done; [repeat constructor|unfold isize_max, WIDTH in *; lia|].
  apply foldr_and_Forall, Forall_fmap. eapply Forall_impl; [done|]. intros s Hs. by apply slot_ipld_wf.
Qed.

Lemma from_dag_cbor_node slots :
  node_ok slots → from_dag_cbor (node_bytes slots) = Ok (node_ipld slots).
Proof.
  intros Hok. pose proof (from_dag_cbor_cbor (node_ipld slots) [] (node_wf slots Hok)) as Hd.
  by rewrite app_nil_r in Hd.
Qed.

Section on_store.
Context {T : Type} `{!BlockStore T} `{!BlockStoreLaws T}.
Implicit Types B : gmap Cid bytes.

Lemma load_node (s : T) slots :
  node_ok slots → blocks s !! node_cid slots = Some (node_bytes slots) →
  load (node_cid slots) s = Ok slots.
Proof.
  intros Hok Hs. unfold load. rewrite bs_get_blocks, Hs. simpl ok_or. unfold outcome_bind at 1.
  rewrite from_dag_cbor_node by done.
  simpl. rewrite decide_True by (by rewrite length_fmap; apply Hok). simpl.
  apply try_map_fmap. eapply Forall_impl; [apply Hok|]. intros. by apply slot_roundtrip.
Qed.

Lemma node_to_cid_run slots (s : T) : node_ok slots →
  node_to_cid slots s = (Ok (node_cid slots), put (node_cid slots) (node_bytes slots) s).
Proof.
  intros Hok. unfold node_to_cid, st_bind, lift. rewrite to_dag_cbor_cbor by by apply node_wf.
  cbv beta iota delta [map_err]. by rewrite build_dag_cbor_new.
Qed.
End on_store.

Section on_audited.
Context {T : Type} `{!BlockStore T} `{!BlockStoreLaws T}.
Implicit Types B : gmap Cid bytes.

Lemma growing_node_to_cid slots : growing (node_to_cid (T := Audited T) slots).
Proof. unfold node_to_cid. auto 10 with growing. Qed.

Lemma yields_node_to_cid slots B (Q : Cid → gmap Cid bytes → Prop) :
  node_ok slots →
  (∀ B', B ⊆ B' → B' !! node_cid slots = Some (node_bytes slots) → Q (node_cid slots) B') →
  yields (node_to_cid (T := Audited T) slots) B Q.
Proof.
  intros Hok HQ s HB Hc. rewrite node_to_cid_run in * by done. simpl in *.
  exists (node_cid slots). split; [done|].
  apply HQ; [|by rewrite blocks_put; apply lookup_insert_eq].
  etrans; [done|]. by apply (grows_put (node_cid slots) (node_bytes slots) s).
Qed.
End on_audited.

(** ** The abstract trie *)
Inductive trie : Type := Node (slots : list (Slot Cid trie)).

Definition slots_of (t : trie) : list (Slot Cid trie) := let 'Node l := t in l.

Definition smap {V C D} (f : C → D) (s : Slot V C) : Slot V D :=
  match s with Empty => Empty | Leaf k v => Leaf k v | Branch c => Branch (f c) end.

(** The CID of the block that stands for a trie. *)
Fixpoint tree_cid (t : trie) : Cid := let 'Node l := t in node_cid (map (smap tree_cid) l).
Definition shallow (t : trie) : list (Slot Cid Cid) := smap tree_cid <$> slots_of t.

#[local] Arguments tree_cid : simpl never.
#[local] Opaque MAX_DEPTH WIDTH.

(** Every node of the trie is in the store. *)
Inductive stored (B : gmap Cid bytes) : trie → Prop :=
| stored_node l :
    B !! tree_cid (Node l) = Some (node_bytes (shallow (Node l))) →
    (∀ i c, l !! i = Some (Branch c) → stored B c) → stored B (Node l).

Lemma stored_inv B l : stored B (Node l) →
  B !! tree_cid (Node l) = Some (node_bytes (shallow (Node l))) ∧
  ∀ i c, l !! i = Some (Branch c) → stored B c.
Proof. by inversion 1. Qed.

(** The invariant: the node reached by the nibbles [pfx] is not deeper than a key is long,
    has [WIDTH] slots, and slot [i] only holds keys whose path starts with [pfx ++ [i]]. *)
Inductive trie_ok : list nat → trie → Prop :=
| trie_ok_node pfx l :
    length pfx < MAX_DEPTH → length l = WIDTH →
    (∀ i k v, l !! i = Some (Leaf k v) →
       key_ok k ∧ take (S (length pfx)) (nibbles k) = pfx ++ [i]) →
    (∀ i c, l !! i = Some (Branch c) → trie_ok (pfx ++ [i]) c) →
    trie_ok pfx (Node l).

(** Lookup along a path of nibbles. *)
Fixpoint tlookup (t : trie) (key : EntityId) (path : list nat) : option Cid :=
  match path with
  | [] => None
  | i :: path' =>
    match slots_of t !! i with
    | Some (Leaf k v) => if decide (k = key) then Some v else None
    | Some (Branch c) => tlookup c key path'
    | _ => None
    end
  end.

Lemma stored_mono B B' t : B ⊆ B' → stored B t → stored B' t.
Proof.
  intros HB. induction 1 as [l Hl _ IH]. constructor; [|done]. by eapply lookup_weaken.
Qed.

Lemma shallow_ok pfx t : trie_ok pfx t → node_ok (shallow t).
Proof.
  destruct 1 as [pfx l _ Hlen Hleaf _]. split; [by unfold shallow; rewrite length_fmap|].
  apply Forall_lookup. intros i s. unfold shallow.
  rewrite list_lookup_fmap. intros ([| |]&Hi&->)%fmap_Some; try done.
  by apply (Hleaf _ _ _) in Hi as [[??] _].
Qed.

Lemma empty_trie_ok pfx : length pfx < MAX_DEPTH → trie_ok pfx (Node (replicate WIDTH Empty)).
Proof.
  intros. constructor; [done|done| |]; intros i; intros;
    match goal with Hi : replicate _ _ !! _ = _ |- _ => apply lookup_replicate in Hi as [? _] end;
    done.
Qed.

(** ** Lookup *)
Section lookup.
Context {T : Type} `{!BlockStore T} `{!BlockStoreLaws T}.
Implicit Types B : gmap Cid bytes.

Lemma load_trie (s : T) pfx t B :
  trie_ok pfx t → stored B t → B ⊆ blocks s → load (tree_cid t) s = Ok (shallow t).
Proof.
  intros Hok Hst HB. destruct t as [l]. apply load_node; [by eapply shallow_ok|].
  apply stored_inv in Hst as [Hl _]. by eapply lookup_weaken.
Qed.

Lemma slot_at_shallow t i :
  slot_at (shallow t) i = match slots_of t !! i with Some s => Ok (smap tree_cid s) | None => Panic end.
Proof.
  unfold slot_at, shallow. rewrite list_lookup_fmap. by destruct (slots_of t !! i).
Qed.

Lemma slot_lookup pfx t i : trie_ok pfx t → i < WIDTH → is_Some (slots_of t !! i).
Proof.
  destruct 1 as [pfx l _ Hlen _ _]. intros Hi. apply lookup_lt_is_Some. simpl. lia.
Qed.

Lemma get_loop_trie fuel (s : T) pfx t key :
  key_ok key → trie_ok pfx t → stored (blocks s) t → MAX_DEPTH < fuel + length pfx →
  get_loop fuel s (tree_cid t) key (length pfx)
    = Ok (tlookup t key (drop (length pfx) (nibbles key))).
Proof.
  intros Hk Hok. revert fuel. induction Hok as [pfx l Hd Hlen Hleaf Hbr IH].
  intros fuel Hst Hfuel. destruct fuel as [|fuel]; [lia|]. simpl get_loop.
  assert (trie_ok pfx (Node l)) as Hok by by constructor.
  destruct (Nat.leb_spec MAX_DEPTH (length pfx)); [lia|].
  rewrite (load_trie s pfx (Node l) (blocks s)) by done. simpl.
  destruct (key_path key (length pfx)) as (i & Hi & Hw & Hdrop & _); [done..|].
  rewrite nibble_nibbles, Hi, Hdrop. simpl. rewrite slot_at_shallow.
  destruct (slot_lookup pfx (Node l) i) as [sl Hsl]; [done..|]. rewrite Hsl. simpl in *. rewrite Hsl.
  destruct sl as [|k v|c]; simpl; try done.
  specialize (IH i c Hsl (fuel)). rewrite length_app in IH. simpl in IH.
  rewrite Nat.add_1_r in *. apply IH; [|lia].
  by eapply stored_inv.
Qed.
End lookup.

(** ** Insertion *)
Section insertion.
Context {T : Type} `{!BlockStore T} `{!BlockStoreLaws T}.
Implicit Types B : gmap Cid bytes.

Lemma growing_insert_slots fuel slots key val depth :
  growing (insert_slots (T := Audited T) fuel slots key val depth).
Proof.
  revert slots key val depth. induction fuel as [|fuel IH]; intros; simpl; [auto with growing|].
  destruct (_ <=? _)%nat; [auto with growing|].
  do 2 (apply growing_bind; [apply growing_lift|intros ?]).
  apply growing_bind; [|intros; apply growing_node_to_cid].
  case_match; try case_match; auto 10 with growing.
Qed.

(** Lookup below slot [s], on the rest of the path. *)
Definition sget (s : Slot Cid trie) (key : EntityId) (path : list nat) : option Cid :=
  match s with
  | Empty => None
  | Leaf k v => if decide (k = key) then Some v else None
  | Branch c => tlookup c key path
  end.

(** The parts of the invariants that concern one slot, whose path is [p]. *)
Definition slot_trie_ok (p : list nat) (s : Slot Cid trie) : Prop :=
  match s with
  | Empty => True
  | Leaf k _ => key_ok k ∧ take (length p) (nibbles k) = p
  | Branch c => trie_ok p c
  end.
Definition slot_stored B (s : Slot Cid trie) : Prop :=
  match s with Branch c => stored B c | _ => True end.

Lemma trie_ok_slots pfx l :
  trie_ok pfx (Node l) ↔ length pfx < MAX_DEPTH ∧ length l = WIDTH ∧
    ∀ i s, l !! i = Some s → slot_trie_ok (pfx ++ [i]) s.
Proof.
  split.
  - inversion 1; subst. split_and!; try done. intros i [|k v|c] Hi; simpl; [done| |eauto].
    rewrite length_app, Nat.add_1_r. eauto.
  - intros (? & ? & Hs). constructor; try done; [intros i k v Hi|intros i c Hi].
    + apply Hs in Hi. simpl in Hi. by rewrite length_app, Nat.add_1_r in Hi.
    + by apply Hs in Hi.
Qed.

Lemma yields_update t i ns pfx B :
  trie_ok pfx t → (∀ i s, slots_of t !! i = Some s → slot_stored B s) →
  slot_trie_ok (pfx ++ [i]) ns → slot_stored B ns →
  yields (node_to_cid (T := Audited T) (<[i := smap tree_cid ns]> (shallow t))) B
    (λ r B', let t' := Node (<[i := ns]> (slots_of t)) in
             r = tree_cid t' ∧ trie_ok pfx t' ∧ stored B' t').
Proof.
  intros Hok Hst Hns Hnst. destruct t as [l]. unfold shallow. simpl in *.
  rewrite <- list_fmap_insert.
  assert (trie_ok pfx (Node (<[i:=ns]> l))) as Hok'.
  { apply trie_ok_slots in Hok as (? & ? & Hs). apply trie_ok_slots.
    split_and!; [done|by rewrite length_insert|].
    intros j s [(-> & -> & _)|[_ Hj]]%list_lookup_insert_Some; auto. }
  apply yields_node_to_cid; [by apply (shallow_ok pfx (Node _))|].
  intros B' HB HB'. split_and!; [done|done|]. constructor; [done|].
  intros j c [(_ & -> & _)|[_ Hj]]%list_lookup_insert_Some; eapply stored_mono; try done.
  by apply Hst in Hj.
Qed.

Lemma tlookup_update l i s ns pfx key val :
  length pfx < MAX_DEPTH → i < length l → l !! i = Some s →
  key_ok key → take (S (length pfx)) (nibbles key) = pfx ++ [i] →
  (∀ k', key_ok k' → take (S (length pfx)) (nibbles k') = pfx ++ [i] →
     sget ns k' (drop (S (length pfx)) (nibbles k'))
     = if decide (k' = key) then Some val else sget s k' (drop (S (length pfx)) (nibbles k'))) →
  ∀ k', key_ok k' → take (length pfx) (nibbles k') = pfx →
    tlookup (Node (<[i := ns]> l)) k' (drop (length pfx) (nibbles k'))
    = if decide (k' = key) then Some val
      else tlookup (Node l) k' (drop (length pfx) (nibbles k')).
Proof.
  intros Hd Hi Hs Hkey Hpath Hns k' Hk' Hpfx.
  destruct (key_path k' (length pfx)) as (j & _ & _ & -> & Hj); [done..|].
  rewrite Hpfx in Hj. simpl. destruct (decide (i = j)) as [<-|Hne].
  - rewrite list_lookup_insert_eq, Hs by done. specialize (Hns k' Hk' Hj). by destruct ns, s.
  - rewrite list_lookup_insert_ne by done.
    destruct (decide (k' = key)) as [->|]; [|done]. rewrite Hpath in Hj.
    by apply (inj (app pfx)) in Hj; simplify_eq.
Qed.

Lemma tlookup_empty key path : tlookup (Node (replicate WIDTH Empty)) key path = None.
Proof.
  destruct path as [|i path]; simpl; [done|].
  destruct (replicate WIDTH Empty !! i) eqn:E; [|done]. by apply lookup_replicate in E as [-> _].
Qed.

(** What one call of [insert_slots] promises at the node of path [pfx]. *)
Definition insert_post (t : trie) key val pfx (r : Cid) B' : Prop :=
  ∃ t', r = tree_cid t' ∧ trie_ok pfx t' ∧ stored B' t' ∧
    ∀ k', key_ok k' → take (length pfx) (nibbles k') = pfx →
      tlookup t' k' (drop (length pfx) (nibbles k'))
      = if decide (k' = key) then Some val else tlookup t k' (drop (length pfx) (nibbles k')).

(** What the choice of the new slot promises. *)
Definition slot_post (s : Slot Cid trie) key val p (new : Slot Cid Cid) B' : Prop :=
  ∃ ns, new = smap tree_cid ns ∧ slot_trie_ok p ns ∧ slot_stored B' ns ∧
    ∀ k', key_ok k' → take (length p) (nibbles k') = p →
      sget ns k' (drop (length p) (nibbles k'))
      = if decide (k' = key) then Some val else sget s k' (drop (length p) (nibbles k')).

Lemma slot_post_leaf s key val p B' :
  key_ok key → take (length p) (nibbles key) = p →
  (∀ k', k' ≠ key → sget s k' (drop (length p) (nibbles k')) = None) →
  slot_post s key val p (Leaf key val) B'.
Proof.
  intros Hk Hp Hs. exists (Leaf key val). split_and!; try done. intros k' _ _. simpl.
  destruct (decide (k' = key)) as [->|]; [by rewrite decide_True|].
  by rewrite decide_False, Hs by congruence.
Qed.

Lemma slot_post_branch s t key val p (m : stateful (Audited T) KError Cid) B :
  growing m → yields m B (insert_post t key val p) →
  (∀ k', key_ok k' → take (length p) (nibbles k') = p → k' ≠ key →
     tlookup t k' (drop (length p) (nibbles k')) = sget s k' (drop (length p) (nibbles k'))) →
  yields (do! c := m in lift (Ok (Branch c))) B (slot_post s key val p).
Proof.
  intros Hg Hm Hs. eapply yields_bind; [done|auto with growing|exact Hm|].
  intros c B1 HB (t' & -> & Hok & Hst & Hl). apply yields_lift. intros B2 HB2.
  exists (Branch t'). split_and!; simpl; try done; [by eapply stored_mono|].
  intros k' Hk' Hp. rewrite Hl by done. destruct (decide (k' = key)); auto.
Qed.

Lemma yields_load {A} t pfx B (f : list (Slot Cid Cid) → stateful (Audited T) KError A) Q :
  trie_ok pfx t → stored B t → (∀ a, growing (f a)) → yields (f (shallow t)) B Q →
  yields (st_bind f (reads (load (tree_cid t)))) B Q.
Proof.
  intros Hok Hst Hg Hf.
  eapply (yields_bind _ _ _ (λ a B', a = shallow t)); [apply growing_reads|done| |].
  - eapply yields_reads; [|by intros]. intros s HB. by eapply load_trie.
  - intros a B1 HB ->. by eapply yields_weaken.
Qed.

Lemma stored_slots B t : stored B t → ∀ i s, slots_of t !! i = Some s → slot_stored B s.
Proof. destruct 1 as [l _ Hst]. intros i [] Hi; simpl; try done. by eapply Hst. Qed.

Lemma shallow_empty : shallow (Node (replicate WIDTH Empty)) = replicate WIDTH Empty.
Proof. unfold shallow. simpl. by rewrite fmap_replicate. Qed.

(** The collision case: two calls of the recursion [ins] and a load in between. *)
Lemma yields_collision (ins : list (Slot Cid Cid) → EntityId → Cid → stateful (Audited T) KError Cid)
    k v key val p B :
  k ≠ key → key_ok k → key_ok key → length p ≤ MAX_DEPTH →
  take (length p) (nibbles k) = p → take (length p) (nibbles key) = p →
  (∀ slots key val, growing (ins slots key val)) →
  (∀ c key val B', key_ok key → trie_ok p c → take (length p) (nibbles key) = p →
     (∀ j s, slots_of c !! j = Some s → slot_stored B' s) →
     yields (ins (shallow c) key val) B' (insert_post c key val p)) →
  yields (do! c1 := ins (replicate WIDTH Empty) k v in
          do! child := reads (load c1) in
          do! c2 := ins child key val in
          lift (Ok (Branch c2))) B (slot_post (Leaf k v) key val p).
Proof.
  intros Hne Hk Hkey Hd Hpk Hp Hg Hins.
  assert (length p < MAX_DEPTH) as Hlt.
  { destruct (decide (length p = MAX_DEPTH)) as [Heq|]; [|lia].
    destruct Hne. apply key_full; [done..|]. by rewrite <- Heq, Hpk. }
  eapply yields_bind; [apply Hg|auto with growing| |].
  - rewrite <- shallow_empty. apply Hins; try done; [by apply empty_trie_ok|]. simpl.
    intros j s [-> _]%lookup_replicate. done.
  - intros c1 B1 HB (t1 & -> & Hok1 & Hst1 & Hl1).
    eapply yields_load; [done..|auto with growing|].
    apply (slot_post_branch (Leaf k v) t1); [apply Hg| |].
    + apply Hins; try done. by apply stored_slots.
    + intros k' Hk' Hp' Hne'. rewrite Hl1 by done. rewrite tlookup_empty. simpl.
      destruct (decide (k' = k)) as [->|]; [by rewrite decide_True|by rewrite decide_False].
Qed.

Lemma yields_insert fuel t key val pfx B :
  key_ok key → trie_ok pfx t → take (length pfx) (nibbles key) = pfx →
  MAX_DEPTH < fuel + length pfx →
  (∀ i s, slots_of t !! i = Some s → slot_stored B s) →
  yields (insert_slots fuel (shallow t) key val (length pfx)) B (insert_post t key val pfx).
Proof.
  revert t key val pfx B. induction fuel as [|fuel IH]; intros t key val pfx B Hk Hok Hp Hf Hst.
  { inversion Hok; subst. lia. }
  destruct t as [l]. pose proof Hok as (Hd & Hlen & Hslots)%trie_ok_slots. simpl in Hst.
  cbn [insert_slots]. destruct (Nat.leb_spec MAX_DEPTH (length pfx)); [lia|].
  destruct (key_path key (length pfx)) as (i & Hi & Hw & Hdrop & Htake); [done..|].
  rewrite Hp in Htake. destruct (slot_lookup pfx (Node l) i) as [s Hs]; [done..|]. simpl in Hs.
  rewrite nibble_nibbles, Hi, st_bind_lift, slot_at_shallow. simpl slots_of.
  rewrite Hs, st_bind_lift.
  pose proof (Hslots i s Hs) as Hsok. pose proof (Hst i s Hs) as Hsst.
  assert (length (pfx ++ [i]) = S (length pfx)) as Hlp by (rewrite length_app; simpl; lia).
  eapply (yields_bind _ _ _ (slot_post s key val (pfx ++ [i]))).
  - destruct s as [|k v|c]; simpl; try case_match; auto 10 using growing_insert_slots with growing.
  - intros. apply growing_node_to_cid.
  - assert (∀ c key val B', key_ok key → trie_ok (pfx ++ [i]) c →
      take (length (pfx ++ [i])) (nibbles key) = pfx ++ [i] →
      (∀ j s, slots_of c !! j = Some s → slot_stored B' s) →
      yields (insert_slots fuel (shallow c) key val (length pfx + 1)) B'
        (insert_post c key val (pfx ++ [i]))) as IH'.
    { replace (length pfx + 1) with (length (pfx ++ [i])) by lia.
      intros. apply IH; try done. rewrite Hlp. lia. }
    destruct s as [|k v|c]; simpl.
    + apply yields_lift. intros. apply slot_post_leaf; try done. by rewrite Hlp.
    + simpl in Hsok. destruct Hsok as [Hk' Hpk]. case_decide as Hkk.
      * apply yields_lift. intros. apply slot_post_leaf; try done; [by rewrite Hlp|].
        intros k' Hne. simpl. by rewrite decide_False by congruence.
      * apply (yields_collision (λ l k v, insert_slots fuel l k v (length pfx + 1)));
          rewrite ?Hlp in *; try done; auto using growing_insert_slots.
    + eapply yields_load; [done..|auto using growing_insert_slots with growing|].
      apply (slot_post_branch (Branch c) c); [apply growing_insert_slots| |done].
      apply IH'; try done; [by rewrite Hlp|]. by apply stored_slots.
  - intros new B1 HB (ns & -> & Hns & Hnst & Hget). rewrite Hlp in Hget.
    assert (∀ j s', l !! j = Some s' → slot_stored B1 s') as Hst1.
    { intros j s' Hj. apply Hst in Hj. destruct s'; try done. by eapply stored_mono. }
    eapply yields_weaken; [exact (yields_update (Node l) i ns pfx B1 Hok Hst1 Hns Hnst)|done|].
    intros r B2 (-> & Hok' & Hst'). exists (Node (<[i:=ns]> l)). split_and!; try done.
    intros k' Hk' Hp'. simpl slots_of. eapply tlookup_update; try done. lia.
Qed.
End insertion.

(** ** Enumeration *)
Definition leaf_of (s : Slot Cid trie) : option (EntityId * Cid) :=
  match s with Leaf k v => Some (k, v) | _ => None end.
Definition branch_of (s : Slot Cid trie) : option trie :=
  match s with Branch c => Some c | _ => None end.

Fixpoint tleaves (t : trie) : list (EntityId * Cid) :=
  let 'Node l := t in
  concat (map (λ s, match s with Empty => [] | Leaf k v => [(k, v)] | Branch c => tleaves c end) l).
Definition slot_leaves (s : Slot Cid trie) : list (EntityId * Cid) :=
  match s with Empty => [] | Leaf k v => [(k, v)] | Branch c => tleaves c end.

(** The number of node visits the enumeration makes. *)
Fixpoint tsize (t : trie) : nat :=
  let 'Node l := t in
  S (foldr (λ s n, match s with Branch c => tsize c + n | _ => n end) 0 l).

Lemma tleaves_split l :
  tleaves (Node l) ≡ₚ omap leaf_of l ++ concat (tleaves <$> omap branch_of l).
Proof.
  change (tleaves (Node l)) with (concat (slot_leaves <$> l)).
  induction l as [|[|k v|c] l IH]; simpl; rewrite ?IH; try done.
  apply Permutation_app_swap_app.
Qed.

Lemma tsize_split l : tsize (Node l) = S (sum_list (tsize <$> omap branch_of l)).
Proof.
  change (tsize (Node l)) with (S (foldr (λ s n, match s with Branch c => tsize c + n | _ => n end) 0 l)).
  f_equal. induction l as [|[|k v|c] l IH]; simpl; auto.
Qed.

Lemma scan_slots_spec l out ts :
  scan_slots (smap tree_cid <$> l) out (tree_cid <$> ts)
    = (out ++ omap leaf_of l, tree_cid <$> (ts ++ omap branch_of l)).
Proof.
  revert out ts. induction l as [|[|k v|c] l IH]; intros out ts; simpl; rewrite ?app_nil_r; try done.
  - by rewrite IH, <- app_assoc.
  - change [tree_cid c] with (tree_cid <$> [c]). by rewrite <- fmap_app, IH, <- app_assoc.
Qed.

Lemma tleaves_lookup pfx t k v :
  trie_ok pfx t →
  (k, v) ∈ tleaves t ↔ key_ok k ∧ take (length pfx) (nibbles k) = pfx ∧
                       tlookup t k (drop (length pfx) (nibbles k)) = Some v.
Proof.
  induction 1 as [pfx l Hd Hlen Hleaf Hbr IH].
  change (tleaves (Node l)) with (concat (slot_leaves <$> l)). rewrite elem_of_concat.
  assert (∀ i, length (pfx ++ [i]) = S (length pfx)) as Hlp
    by (intros; rewrite length_app; simpl; lia).
  split.
  - intros (i & ? & (s & -> & Hs)%list_lookup_fmap_Some & Hin).
    assert (key_ok k ∧ take (S (length pfx)) (nibbles k) = pfx ++ [i]
            ∧ sget s k (drop (S (length pfx)) (nibbles k)) = Some v) as (Hk & Htk & Hget).
    { destruct s as [|k' v'|c]; simpl in *; [set_solver| |].
      - apply list_elem_of_singleton in Hin as [= <- <-]. rewrite decide_True by done.
        split_and!; by destruct (Hleaf _ _ _ Hs).
      - apply (IH _ _ Hs) in Hin. by rewrite Hlp in Hin. }
    assert (take (length pfx) (nibbles k) = pfx) as Hp.
    { apply (f_equal (take (length pfx))) in Htk.
      by rewrite take_take, take_app_length, Nat.min_l in Htk by lia. }
    destruct (key_path k (length pfx)) as (j & Hj & _ & -> & Htj); [done..|].
    rewrite Htk, Hp in Htj. apply (inj (app pfx)) in Htj as [= <-].
    split_and!; try done. simpl. rewrite Hs. by destruct s.
  - intros (Hk & Hp & Hget). destruct (key_path k (length pfx)) as (i & Hi & Hw & Hdr & Htk); [done..|].
    rewrite Hdr in Hget. rewrite Hp in Htk. simpl in Hget.
    destruct (l !! i) as [s|] eqn:Hs; [|done]. exists i, (slot_leaves s).
    split; [apply list_lookup_fmap_Some; eauto|].
    destruct s as [|k' v'|c]; simpl in *; [done| |].
    + case_decide; simplify_eq. by left.
    + apply (IH _ _ Hs). by rewrite Hlp.
Qed.

Lemma tleaves_NoDup pfx t : trie_ok pfx t → NoDup (tleaves t).
Proof.
  induction 1 as [pfx l Hd Hlen Hleaf Hbr IH].
  change (tleaves (Node l)) with (concat (slot_leaves <$> l)). apply NoDup_concat.
  - intros i ? (s & -> & Hs)%list_lookup_fmap_Some.
    destruct s as [|k v|c]; simpl; [constructor|apply NoDup_singleton|by eapply IH].
  - intros i j ?? [k v] (s1 & -> & Hs1)%list_lookup_fmap_Some (s2 & -> & Hs2)%list_lookup_fmap_Some.
    assert (∀ n s, l !! n = Some s → (k, v) ∈ slot_leaves s →
              take (S (length pfx)) (nibbles k) = pfx ++ [n]) as Hpath.
    { intros n [|k' v'|c] Hn; simpl; [set_solver| |].
      - intros [= -> ->]%list_elem_of_singleton. by eapply Hleaf.
      - intros Hin%(tleaves_lookup (pfx ++ [n])); [|by eapply Hbr].
        rewrite length_app, Nat.add_1_r in Hin. apply Hin. }
    intros Hin1 Hin2. apply (Hpath _ _ Hs1) in Hin1. apply (Hpath _ _ Hs2) in Hin2.
    rewrite Hin1 in Hin2. by apply (inj (app pfx)) in Hin2 as [= ->].
Qed.

Lemma entries_loop_spec {T} `{!BlockStore T} `{!BlockStoreLaws T} fuel (s : T) ts out :
  Forall (λ t, (∃ pfx, trie_ok pfx t) ∧ stored (blocks s) t) ts → sum_list (tsize <$> ts) ≤ fuel →
  ∃ out', entries_loop fuel s (tree_cid <$> ts) out = Ok out' ∧ out' ≡ₚ out ++ concat (tleaves <$> ts).
Proof.
  revert ts out. induction fuel as [|fuel IH]; intros ts out Hts Hf;
    destruct ts as [|t ts _] using rev_ind; try (by exists out; rewrite app_nil_r).
  { rewrite fmap_app, sum_list_with_app in Hf. destruct t. simpl in Hf. lia. }
  rewrite fmap_app. simpl. rewrite last_snoc, removelast_last.
  apply Forall_app in Hts as [Hts [[[pfx Hok] Hst] _]%Forall_cons].
  erewrite load_trie by done. simpl. unfold shallow. rewrite scan_slots_spec.
  destruct t as [l]. simpl slots_of. edestruct (IH (ts ++ omap branch_of l) (out ++ omap leaf_of l))
    as (out' & Hrun & Hout).
  - apply Forall_app; split; [done|]. apply Forall_forall. intros c (sl & Hsl & Hc)%list_elem_of_omap.
    destruct sl as [| |c']; simplify_eq/=. apply list_elem_of_lookup in Hsl as [i Hi].
    inversion Hok; subst. split; [eexists; eauto|]. apply stored_inv in Hst as [_ Hst]. by eapply Hst.
  - rewrite fmap_app, sum_list_with_app in *. cbn [fmap list_fmap sum_list_with] in Hf.
    rewrite tsize_split in Hf. unfold id in *. lia.
  - exists out'. split; [done|]. rewrite Hout, !fmap_app, !concat_app.
    cbn [fmap list_fmap concat]. rewrite app_nil_r, tleaves_split, <- !app_assoc.
    apply Permutation_app_head, Permutation_app_swap_app.
Qed.
End facts.

(** ** The map a root stands for *)
Section refinement.
Context `{CidCrate} `{!CidLaws} {T : Type} `{!BlockStore T} `{!BlockStoreLaws T}.
Implicit Types (B : gmap Cid bytes) (m : gmap EntityId Cid) (s : T).

#[local] Opaque MAX_DEPTH WIDTH.

Definition hamt_rep B (root : Cid) m : Prop :=
  ∃ t, root = tree_cid t ∧ stored B t ∧ trie_ok [] t ∧
    ∀ k v, m !! k = Some v ↔ key_ok k ∧ tlookup t k (nibbles k) = Some v.

Lemma hamt_rep_mono B B' root m : B ⊆ B' → hamt_rep B root m → hamt_rep B' root m.
Proof. intros HB (t & -> & Hst & Hok & Hm). exists t. split_and!; try done. by eapply stored_mono. Qed.

Lemma get_trie s t key :
  key_ok key → trie_ok [] t → stored (blocks s) t →
  get s (tree_cid t) key = Ok (tlookup t key (nibbles key)).
Proof.
  intros Hk Hok Hst. etrans; [apply (get_loop_trie (S MAX_DEPTH) s [] t key); try done; simpl; lia|].
  simpl. by rewrite drop_0.
Qed.

Lemma hamt_rep_lookup t m k : key_ok k →
  (∀ k v, m !! k = Some v ↔ key_ok k ∧ tlookup t k (nibbles k) = Some v) →
  m !! k = tlookup t k (nibbles k).
Proof. intros Hk Hm. apply option_eq. intros v. rewrite Hm. tauto. Qed.

Lemma yields_insert_root root key val m B :
  key_ok key → hamt_rep B root m →
  yields (insert (T := Audited T) root key val) B (λ r B', hamt_rep B' r (<[key := val]> m)).
Proof.
  intros Hk (t & -> & Hst & Hok & Hm). unfold insert.
  eapply yields_load; [done..|intros; apply growing_insert_slots|].
  eapply yields_weaken; [apply (yields_insert _ t key val []); try done; [lia|by apply stored_slots]|done|].
  intros r B' (t' & -> & Hok' & Hst' & Hl). exists t'. split_and!; try done. intros k v.
  destruct (decide (key = k)) as [<-|Hne].
  - rewrite lookup_insert_eq. specialize (Hl key Hk eq_refl). rewrite decide_True in Hl by done.
    simpl in Hl. rewrite drop_0 in Hl. rewrite Hl. tauto.
  - rewrite lookup_insert_ne, Hm by done. split; intros [Hk' Hv]; (split; [done|]);
      specialize (Hl k Hk' eq_refl); rewrite decide_False in Hl by done;
      simpl in Hl; rewrite !drop_0 in Hl; congruence.
Qed.

Lemma growing_insert root key val : growing (insert (T := Audited T) root key val).
Proof. unfold insert. auto using growing_insert_slots with growing. Qed.

(** *** The instrumentation can be erased *)
Lemma load_audited (s : Audited T) cid : load cid (audited s) = load cid s.
Proof. done. Qed.

Lemma erases_node_to_cid slots : erases (T := T) (node_to_cid slots) (node_to_cid slots).
Proof. unfold node_to_cid. auto 10 with erasure. Qed.

Lemma erases_insert_slots fuel slots key val depth :
  erases (T := T) (insert_slots fuel slots key val depth) (insert_slots fuel slots key val depth).
Proof.
  revert slots key val depth. induction fuel as [|fuel IH]; intros; simpl; [auto with erasure|].
  destruct (_ <=? _)%nat; [auto with erasure|].
  do 2 (apply erases_bind; [apply erases_lift|intros ?]).
  apply erases_bind; [|intros; apply erases_node_to_cid].
  case_match; try case_match; auto 10 with erasure.
Qed.

Lemma erases_insert root key val :
  erases (T := T) (insert root key val) (insert root key val).
Proof. unfold insert. auto using erases_insert_slots with erasure. Qed.

(** *** Histories *)
Fixpoint insert_all {T'} `{!BlockStore T'} (root : Cid) (l : list (EntityId * Cid)) :
    stateful T' KError Cid :=
  match l with
  | [] => lift (Ok root)
  | (key, val) :: l' => do! root := insert root key val in insert_all root l'
  end.

Lemma growing_insert_all root l : growing (insert_all (T' := Audited T) root l).
Proof.
  revert root. induction l as [|[k v] l IH]; intros root; simpl; [apply growing_lift|].
  auto using growing_insert with growing.
Qed.

Lemma yields_insert_all l root m B :
  Forall (λ p, key_ok p.1) l → hamt_rep B root m →
  yields (insert_all (T' := Audited T) root l) B
    (λ r B', hamt_rep B' r (foldl (λ m p, <[p.1 := p.2]> m) m l)).
Proof.
  intros Hl. revert root m B. induction Hl as [|[k v] l Hk _ IH]; intros root m B Hrep; simpl.
  - apply yields_lift. intros B' HB. by eapply hamt_rep_mono.
  - eapply yields_bind; [apply growing_insert|intros; apply growing_insert_all|by apply yields_insert_root|].
    simpl. auto.
Qed.

Lemma yields_empty B : yields (empty (T := Audited T)) B (λ r B', hamt_rep B' r ∅).
Proof.
  unfold empty. pose proof (empty_trie_ok [] (Nat.lt_0_succ 63)) as Hok.
  rewrite <- shallow_empty. apply yields_node_to_cid; [by eapply shallow_ok|].
  intros B' HB HB'. exists (Node (replicate WIDTH Empty)). split_and!; try done.
  - constructor; [done|]. intros i c [? _]%lookup_replicate. done.
  - intros k v. rewrite tlookup_empty. by split; [|intros [??]].
Qed.

Lemma yields_history l B : Forall (λ p, key_ok p.1) l →
  yields (T := T) (do! root := empty in insert_all root l) B
    (λ r B', hamt_rep B' r (foldl (λ m p, <[p.1 := p.2]> m) ∅ l)).
Proof.
  intros Hl. eapply yields_bind; [apply growing_node_to_cid|intros; apply growing_insert_all|apply yields_empty|].
  simpl. intros. by apply yields_insert_all.
Qed.

Lemma erases_history l :
  erases (T := T) (do! root := empty in insert_all root l) (do! root := empty in insert_all root l).
Proof.
  apply erases_bind; [apply erases_node_to_cid|].
  induction l as [|[k v] l IH]; intros root; simpl; [apply erases_lift|].
  apply erases_bind; [apply erases_insert|done].
Qed.

(** *** How many blocks an operation adds *)
Definition adds {A} (n : nat) (m : stateful T KError A) : Prop :=
  ∀ s, size (blocks (m s).2) ≤ size (blocks s) + n.

Lemma adds_bind {A A'} n n' (m : stateful T KError A) (f : A → stateful T KError A') :
  adds n m → (∀ a, adds n' (f a)) → adds (n + n') (st_bind f m).
Proof.
  intros Hm Hf s. specialize (Hm s). unfold st_bind. destruct (m s) as [[a| | |] s1]; simpl in *; try lia.
  specialize (Hf a s1). lia.
Qed.
Lemma adds_lift {A} n (o : outcome KError A) : adds n (lift o).
Proof. intros s. simpl. lia. Qed.
Lemma adds_reads {A} n (f : T → outcome KError A) : adds n (reads f).
Proof. intros s. simpl. lia. Qed.
Lemma adds_put c b : adds 1 (modifies (put c b)).
Proof.
  intros s. simpl. rewrite blocks_put. destruct (decide (is_Some (blocks s !! c))).
  - rewrite map_size_insert_Some by done. lia.
  - rewrite map_size_insert_None; [lia|]. by apply eq_None_not_Some.
Qed.
Lemma adds_le {A} n n' (m : stateful T KError A) : adds n m → n ≤ n' → adds n' m.
Proof. intros Hm Hle s. specialize (Hm s). lia. Qed.

Lemma adds_node_to_cid slots : adds 1 (node_to_cid slots).
Proof.
  unfold node_to_cid. apply (adds_bind 0 1); [apply adds_lift|intros].
  apply (adds_bind 0 1); [apply adds_lift|intros].
  apply (adds_bind 1 0); [apply adds_put|intros; apply adds_lift].
Qed.

(** Inserting into a fresh node stops at once, whatever the key. *)
Lemma adds_insert_empty fuel key val depth :
  adds 1 (insert_slots (T := T) fuel (replicate WIDTH Empty) key val depth).
Proof.
  destruct fuel as [|fuel]; cbn [insert_slots]; [apply adds_lift|].
  destruct (_ <=? _)%nat; [apply adds_lift|].
  apply (adds_bind 0 1); [apply adds_lift|intros i].
  unfold slot_at. destruct (replicate WIDTH Empty !! i) as [sl|] eqn:Hs; [|by intros s; simpl; lia].
  apply lookup_replicate in Hs as [-> _].
  rewrite !st_bind_lift. apply adds_node_to_cid.
Qed.

Lemma adds_insert_slots fuel slots key val depth :
  adds (2 * (MAX_DEPTH - depth)) (insert_slots fuel slots key val depth).
Proof.
  revert slots key val depth. induction fuel as [|fuel IH]; intros; cbn [insert_slots]; [apply adds_lift|].
  destruct (Nat.leb_spec MAX_DEPTH depth) as [|Hd]; [apply adds_lift|].
  assert (∀ slots key val, adds (2 * (MAX_DEPTH - depth) - 2) (insert_slots fuel slots key val (depth + 1)))
    as Hrec by (intros; eapply adds_le; [apply IH|lia]).
  apply (adds_le (0 + (0 + ((2 * (MAX_DEPTH - depth) - 1) + 1)))); [|lia].
  do 2 (apply adds_bind; [apply adds_lift|intros ?]).
  apply adds_bind; [|intros; apply adds_node_to_cid].
  case_match; [apply adds_lift|case_match; [apply adds_lift|]|].
  - apply (adds_le (1 + (0 + ((2 * (MAX_DEPTH - depth) - 2) + 0)))); [|lia].
    apply adds_bind; [apply adds_insert_empty|intros].
    apply adds_bind; [apply adds_reads|intros].
    apply adds_bind; [apply Hrec|intros; apply adds_lift].
  - apply (adds_le (0 + ((2 * (MAX_DEPTH - depth) - 2) + 0))); [|lia].
    apply adds_bind; [apply adds_reads|intros].
    apply adds_bind; [apply Hrec|intros; apply adds_lift].
Qed.

(** *** More fuel changes nothing *)
Lemma entries_loop_fuel n fuel s stack out r :
  entries_loop n s stack out = Ok r → n ≤ fuel → entries_loop fuel s stack out = Ok r.
Proof.
  revert fuel stack out. induction n as [|n IH]; intros fuel stack out Hr Hle; simpl in Hr.
  - destruct (last stack) eqn:Hl; [done|]. destruct fuel; simpl; by rewrite Hl.
  - destruct fuel as [|fuel]; [lia|]. simpl. destruct (last stack) as [c|]; [|done].
    apply outcome_bind_Ok in Hr as (slots & -> & Hr). simpl.
    destruct (scan_slots slots out (removelast stack)). apply IH; [done|lia].
Qed.

(** *** Lookups of arbitrary tries *)
Lemma load_width cid s slots : load cid s = Ok slots → length slots = WIDTH.
Proof.
  unfold load. intros. inv_outcome. repeat case_match; simplify_eq.
  match goal with Hm : try_map _ _ = Ok _ |- _ => apply try_map_Ok, Forall2_length in Hm end.
  congruence.
Qed.

Definition decodable B : Prop := ∀ c b, B !! c = Some b → from_dag_cbor b ≠ Panic.

Lemma load_answers cid s : decodable (blocks s) → load cid s ≠ Panic ∧ load cid s ≠ OutOfFuel.
Proof.
  intros Hd. unfold load. rewrite bs_get_blocks. destruct (blocks s !! cid) as [b|] eqn:Hb; [|done].
  simpl. pose proof (from_dag_cbor_answers b) as Hf. specialize (Hd cid b Hb).
  destruct (from_dag_cbor b) as [i| | |]; try done. simpl.
  assert (∀ l, try_map slot_from_ipld l ≠ Panic ∧ try_map slot_from_ipld l ≠ OutOfFuel) as Ht.
  { induction l as [|x l [IH1 IH2]]; simpl; [done|].
    assert (slot_from_ipld x ≠ Panic ∧ slot_from_ipld x ≠ OutOfFuel) as [Hx1 Hx2].
    { unfold slot_from_ipld. repeat case_match; simplify_eq; try done; simpl.
      all: destruct (_ ≫= _); simpl; done. }
    destruct (slot_from_ipld x); simpl; try done. by destruct (try_map slot_from_ipld l). }
  repeat case_match; simpl; auto.
Qed.

Lemma get_loop_answers fuel s cur key depth :
  key_ok key → decodable (blocks s) → depth ≤ MAX_DEPTH → MAX_DEPTH < fuel + depth →
  get_loop fuel s cur key depth ≠ Panic ∧ get_loop fuel s cur key depth ≠ OutOfFuel.
Proof.
  intros Hk Hd. revert cur depth. induction fuel as [|fuel IH]; intros cur depth Hle Hf; cbn [get_loop].
  - simpl in Hf. lia.
  - destruct (Nat.leb_spec MAX_DEPTH depth) as [|Hlt]; [done|].
    pose proof (load_answers cur s Hd). destruct (load cur s) as [slots| | |] eqn:Hl; simpl; try tauto; try done.
    destruct (key_path key depth) as (i & Hi & Hw & _); [done..|].
    rewrite nibble_nibbles, Hi. simpl. apply load_width in Hl. unfold slot_at.
    destruct (lookup_lt_is_Some_2 slots i) as [sl Hsl]; [lia|]. rewrite Hsl. simpl.
    destruct sl; try done. apply IH; lia.
Qed.
End refinement.

(** ** Properties *)
Section properties.
Context `{CidCrate} `{!CidLaws} {T : Type} `{!BlockStore T} `{!BlockStoreLaws T}.
Implicit Types (B : gmap Cid bytes) (m : gmap EntityId Cid) (s : T).

(** C1. Insertion implements insertion into a finite map: on any block store that holds a trie
    standing for the map [m], a run of [insert] in which no two different blocks have the same
    CID succeeds, the new root stands for [m] with the key set to the value, and every root
    that stood for a map before still stands for it (old versions stay readable). *)
Theorem hamt_insert_refines s (root : Cid) m (key : EntityId) (val : Cid)
  (Hkey : key_ok key) (Hrep : hamt_rep (blocks s) root m)
  (Hclash : clash (insert root key val (start s)).2 = false) :
  ∃ root' s', insert root key val s = (Ok root', s')
    ∧ hamt_rep (blocks s') root' (<[key := val]> m)
    ∧ ∀ r0 m0, hamt_rep (blocks s) r0 m0 → hamt_rep (blocks s') r0 m0.
Proof.
  pose proof (erases_insert root key val (start s)) as He. simpl in He. rewrite He.
  destruct (yields_insert_root root key val m (blocks s) Hkey Hrep (start s)) as (r & Hr & Hrep');
    [done..|].
  rewrite Hr. eexists _, _. split_and!; [done|exact Hrep'|].
  intros r0 m0. apply hamt_rep_mono. by apply (growing_insert root key val (start s)).
Qed.

(** C15. Lookup implements lookup in the map a root stands for, absent keys included. *)
Theorem hamt_get_refines s (root : Cid) m (key : EntityId)
  (Hkey : key_ok key) (Hrep : hamt_rep (blocks s) root m) :
  get s root key = Ok (m !! key).
Proof.
  destruct Hrep as (t & -> & Hst & Hok & Hm).
  by rewrite get_trie, (hamt_rep_lookup t m key).
Qed.

Lemma hamt_rep_entries s (root : Cid) m : hamt_rep (blocks s) root m →
  ∃ n out, out ≡ₚ map_to_list m ∧ ∀ fuel, n ≤ fuel → entries fuel s root = Ok out.
Proof.
  intros (t & -> & Hst & Hok & Hm). exists (tsize t).
  destruct (entries_loop_spec (tsize t) s [t] []) as (out & Hrun & Hout); [|simpl; lia|].
  { repeat constructor; eauto. }
  exists out. split.
  - rewrite Hout. simpl. rewrite app_nil_r.
    apply NoDup_Permutation; [by eapply tleaves_NoDup|apply NoDup_map_to_list|].
    intros [k v]. rewrite elem_of_map_to_list, Hm, (tleaves_lookup []) by done.
    simpl. rewrite drop_0. tauto.
  - intros fuel Hf. by eapply entries_loop_fuel.
Qed.

(** Enumeration terminates and lists every entry of the map exactly once: with enough
    fuel the result is a permutation of the bindings of the map. *)
Theorem hamt_entries_refines s (root : Cid) m (Hrep : hamt_rep (blocks s) root m) :
  ∃ n out, out ≡ₚ map_to_list m ∧ ∀ fuel, n ≤ fuel → entries fuel s root = Ok out.
Proof. by apply hamt_rep_entries. Qed.

(** A whole history: starting from [empty], after any sequence of insertions on any store
    without a hash collision, looking a key up in the final root gives the value of its last
    insertion. *)
Theorem hamt_history s (l : list (EntityId * Cid))
  (Hkeys : Forall (λ p, key_ok p.1) l)
  (Hclash : clash ((do! root := empty in insert_all root l) (start s)).2 = false) :
  ∃ root s', (do! root := empty in insert_all root l) s = (Ok root, s')
    ∧ ∀ key, key_ok key → get s' root key = Ok (foldl (λ m p, <[p.1 := p.2]> m) ∅ l !! key).
Proof.
  pose proof (erases_history l (start s)) as He. simpl in He. rewrite He.
  destruct (yields_history l (blocks s) Hkeys (start s)) as (r & Hr & t & Ht & Hst & Hok & Hm); [done..|].
  rewrite Hr. eexists _, _. split; [done|]. intros key Hkey.
  by rewrite Ht, get_trie, <- (hamt_rep_lookup t _ key Hkey Hm).
Qed.

(** C39. An insertion writes at most two blocks per level of the key, 128 in all, whatever the
    number of entries and whatever the store holds. *)
Theorem hamt_insert_touches s (root : Cid) (key : EntityId) (val : Cid) :
  size (blocks (insert root key val s).2) ≤ size (blocks s) + 128.
Proof.
  pose proof (adds_bind 0 (2 * (MAX_DEPTH - 0)) (reads (load root))
    (λ slots, insert_slots (S MAX_DEPTH) slots key val 0) (adds_reads _ _)) as Ha.
  apply (Ha (λ slots, adds_insert_slots _ slots key val 0) s).
Qed.

(** Lookup is safe on stores nobody vouches for: as long as every block the store holds
    can be decoded without a panic, [get] answers (with a value or an error) for every root,
    however the blocks link to each other, cycles included. *)
Theorem hamt_get_answers s (root : Cid) (key : EntityId)
  (Hkey : key_ok key) (Hdec : decodable (blocks s)) :
  get s root key ≠ Panic ∧ get s root key ≠ OutOfFuel.
Proof. unfold get. apply get_loop_answers; [done..|lia|lia]. Qed.
End properties.

(** ** Witnesses: a trie of four keys, three of which collide on their first nibbles *)
Import Reference.

Definition demo_key (a b : Z) : EntityId := a :: b :: replicate 30 7%Z.
Definition demo_val (n : Z) : Cid := new_v1 DAG_CBOR (poly_digest Sha2_256 [n]).
Definition demo_list : list (EntityId * Cid) :=
  [(demo_key 1 2, demo_val 1); (demo_key 1 3, demo_val 2); (demo_key 17 2, demo_val 3);
   (demo_key 1 2, demo_val 4)].
Definition demo_run : outcome KError Cid * Audited MemStore :=
  (do! root := empty in insert_all root demo_list) (start MemStore_new).
Definition demo_store : MemStore := audited demo_run.2.
Definition demo_root : Cid := match demo_run.1 with Ok r => r | _ => demo_val 0 end.
Definition demo_map : gmap EntityId Cid := foldl (λ m p, <[p.1 := p.2]> m) ∅ demo_list.

Lemma demo_keys_ok : Forall (λ p, key_ok p.1) demo_list.
Proof. unfold demo_list, demo_key, key_ok, u8s. repeat constructor; vm_compute; congruence. Defined.

Lemma demo_rep : hamt_rep (blocks demo_store) demo_root demo_map.
Proof.
  destruct (yields_history demo_list ∅ demo_keys_ok (start MemStore_new)) as (r & Hr & Hrep);
    [apply map_empty_subseteq|vm_compute; reflexivity|].
  unfold demo_root, demo_run. rewrite Hr. exact Hrep.
Qed.

Lemma hamt_insert_refines_witness :
  ∃ root' s', insert demo_root (demo_key 1 18) (demo_val 5) demo_store = (Ok root', s')
    ∧ hamt_rep (blocks s') root' (<[demo_key 1 18 := demo_val 5]> demo_map)
    ∧ ∀ r0 m0, hamt_rep (blocks demo_store) r0 m0 → hamt_rep (blocks s') r0 m0.
Proof.
  apply hamt_insert_refines; [|exact demo_rep|vm_compute; reflexivity].
  split; [reflexivity|]. unfold demo_key, u8s. repeat constructor; vm_compute; congruence.
Defined.

Lemma hamt_get_refines_witness :
  get demo_store demo_root (demo_key 1 2) = Ok (demo_map !! demo_key 1 2).
Proof.
  apply hamt_get_refines; [|exact demo_rep].
  split; [reflexivity|]. unfold demo_key, u8s. repeat constructor; vm_compute; congruence.
Defined.

Lemma hamt_entries_refines_witness :
  ∃ n out, out ≡ₚ map_to_list demo_map ∧ ∀ fuel, n ≤ fuel → entries fuel demo_store demo_root = Ok out.
Proof. exact (hamt_entries_refines demo_store demo_root demo_map demo_rep). Defined.

Lemma hamt_history_witness :
  ∃ root s', (do! root := empty in insert_all root demo_list) MemStore_new = (Ok root, s')
    ∧ ∀ key, key_ok key → get s' root key = Ok (demo_map !! key).
Proof. apply (hamt_history MemStore_new demo_list demo_keys_ok). vm_compute. reflexivity. Defined.

(** A store whose only block is not even a trie node. *)
Definition bad_store : MemStore := put (demo_val 0) [0x01%Z] MemStore_new.

Lemma hamt_get_answers_witness :
  get bad_store (demo_val 0) (demo_key 1 2) ≠ Panic ∧ get bad_store (demo_val 0) (demo_key 1 2) ≠ OutOfFuel.
Proof.
  apply hamt_get_answers.
  - split; [reflexivity|]. unfold demo_key, u8s. repeat constructor; vm_compute; congruence.
  - intros c b Hb. change (blocks bad_store) with (<[demo_val 0 := [0x01%Z]]> (∅ : gmap Cid bytes)) in Hb.
    apply lookup_insert_Some in Hb as [[_ <-]|[_ Hb]]; [|by rewrite lookup_empty in Hb].
    rewrite (decodes_to_eq [0x01%Z] (IInteger 1)); [done|]. vm_compute. reflexivity.
Defined.
