(* ===== verification/KNode.v ===== *)
(** * Knowledge nodes and their encoding: [crates/ipfrs-knowledge/src/node.rs]

    [KnowledgeNode] is the enum with its six kinds of node, [to_ipld] and [from_ipld] the two
    directions of its encoding, built on the field accessors [gstr] ... [gspan].  An [f32] is
    its bit pattern.  The hexadecimal form of an [EntityId] and [Debug] are not modelled. *)

From Stdlib Require Import ZArith Lia List.
From stdpp Require Import base tactics numbers list gmap sets strings.
From S2P Require Import Prelude Collections Ieee Cid Ipld Store Hamt.

#[local] Open Scope Z_scope.

(** ** Hypothesis status *)
Inductive HypothesisStatus : Type := Open | Supported | Refuted.

Module HypothesisStatus.
Definition as_str (s : HypothesisStatus) : string :=
  match s with Open => "open" | Supported => "supported" | Refuted => "refuted" end.
Definition parse (s : string) : HypothesisStatus :=
  if String.eqb s "supported" then Supported
  else if String.eqb s "refuted" then Refuted
  else Open.
End HypothesisStatus.

Section node.
Context `{CidCrate}.

Inductive KnowledgeNode : Type :=
| Entity (id : EntityId) (kind name : string) (aliases : list string)
    (attrs : list (string * string)) (observations : list Cid)
| Concept (name definition : string) (broader related : list Cid)
| Relation (subject : Cid) (predicate : string) (object : Cid) (evidence : list Cid) (weight : Z)
| Evidence (source : Cid) (span : option (Z * Z)) (extracted_by : string) (proof : option Cid)
| Observation (about : Cid) (statement : string) (ts : Z) (agent : string)
| Hypothesis_ (claim : string) (supports refutes : list Cid) (status : HypothesisStatus)
    (proof : option Cid).

Definition type_name (n : KnowledgeNode) : string :=
  match n with
  | Entity _ _ _ _ _ _ => "Entity"
  | Concept _ _ _ _ => "Concept"
  | Relation _ _ _ _ _ => "Relation"
  | Evidence _ _ _ _ => "Evidence"
  | Observation _ _ _ _ => "Observation"
  | Hypothesis_ _ _ _ _ _ => "Hypothesis"
  end.

(** ** Encoding *)
Definition links (cids : list Cid) : ipld := IList (link <$> cids).

(** [if let Some(p) = proof { m.insert("proof", ...) }]. *)
Definition insert_opt (k : string) (v : option ipld) (m : list (string * ipld)) :
    list (string * ipld) :=
  match v with Some x => bt_insert k x m | None => m end.

Definition to_ipld (n : KnowledgeNode) : ipld :=
  let m := bt_insert "@type" (IString (type_name n)) [] in
  IMap
    match n with
    | Entity id kind name aliases attrs observations =>
      let m := bt_insert "id" (IBytes id) m in
      let m := bt_insert "kind" (IString kind) m in
      let m := bt_insert "name" (IString name) m in
      let m := bt_insert "aliases" (IList (IString <$> aliases)) m in
      let m := bt_insert "attrs" (IMap (bt_of_list ((λ p, (p.1, IString p.2)) <$> attrs))) m in
      bt_insert "observations" (links observations) m
    | Concept name definition broader related =>
      let m := bt_insert "name" (IString name) m in
      let m := bt_insert "definition" (IString definition) m in
      let m := bt_insert "broader" (links broader) m in
      bt_insert "related" (links related) m
    | Relation subject predicate object evidence weight =>
      let m := bt_insert "subject" (link subject) m in
      let m := bt_insert "predicate" (IString predicate) m in
      let m := bt_insert "object" (link object) m in
      let m := bt_insert "evidence" (links evidence) m in
      bt_insert "weight" (IFloat (f32_to_f64 weight)) m
    | Evidence source span extracted_by proof =>
      let m := bt_insert "source" (link source) m in
      let m := insert_opt "span" ((λ '(a, b), IList [IInteger a; IInteger b]) <$> span) m in
      let m := bt_insert "extracted_by" (IString extracted_by) m in
      insert_opt "proof" (link <$> proof) m
    | Observation about statement ts agent =>
      let m := bt_insert "about" (link about) m in
      let m := bt_insert "statement" (IString statement) m in
      let m := bt_insert "ts" (IInteger ts) m in
      bt_insert "agent" (IString agent) m
    | Hypothesis_ claim supports refutes status proof =>
      let m := bt_insert "claim" (IString claim) m in
      let m := bt_insert "supports" (links supports) m in
      let m := bt_insert "refutes" (links refutes) m in
      let m := bt_insert "status" (IString (HypothesisStatus.as_str status)) m in
      insert_opt "proof" (link <$> proof) m
    end%string.

Definition encode (n : KnowledgeNode) : outcome KError (Cid * bytes) :=
  let! bytes := map_err KCore (to_dag_cbor (to_ipld n)) in
  let! cid := map_err KCore (CidBuilder.build_dag_cbor CidBuilder.new bytes) in
  Ok (cid, bytes).

(** ** Field accessors *)
Abbreviation fields := (list (string * ipld)).

Definition as_map (i : ipld) : outcome KError fields :=
  match i with IMap m => Ok m | _ => Err KDecode end.
Definition field (m : fields) (k : string) : outcome KError ipld := ok_or (bt_get k m) KDecode.
Definition gstr (m : fields) (k : string) : outcome KError string :=
  let! i := field m k in match i with IString s => Ok s | _ => Err KDecode end.
Definition gint (m : fields) (k : string) : outcome KError Z :=
  let! i := field m k in match i with IInteger n => Ok n | _ => Err KDecode end.
Definition gfloat (m : fields) (k : string) : outcome KError Z :=
  let! i := field m k in
  match i with IFloat x => Ok x | IInteger n => Ok (int_to_f64 n) | _ => Err KDecode end.
Definition gbytes (m : fields) (k : string) : outcome KError bytes :=
  let! i := field m k in match i with IBytes b => Ok b | _ => Err KDecode end.
Definition glink (m : fields) (k : string) : outcome KError Cid :=
  let! i := field m k in ok_or (as_link i) KDecode.
Definition glink_opt (m : fields) (k : string) : option Cid := v ← bt_get k m; as_link v.
Definition glinks (m : fields) (k : string) : outcome KError (list Cid) :=
  let! i := field m k in
  match i with IList l => try_map (λ v, ok_or (as_link v) KDecode) l | _ => Err KDecode end.
Definition gstrlist (m : fields) (k : string) : outcome KError (list string) :=
  let! i := field m k in
  match i with
  | IList l => try_map (λ v, match v with IString s => Ok s | _ => Err KDecode end) l
  | _ => Err KDecode
  end.
Definition gstrmap (m : fields) (k : string) : outcome KError (list (string * string)) :=
  let! i := field m k in
  match i with
  | IMap mm =>
    let! l := try_map (λ '(kk, v), match v with IString s => Ok (kk, s) | _ => Err KDecode end) mm in
    Ok (bt_of_list l)
  | _ => Err KDecode
  end.
Definition gspan (m : fields) : outcome KError (option (Z * Z)) :=
  match bt_get "span" m with
  | None => Ok None
  | Some (IList l) =>
    match l with
    | [x; y] =>
      let! a := match x with IInteger n => Ok (as_u64 n) | _ => Err KDecode end in
      let! b := match y with IInteger n => Ok (as_u64 n) | _ => Err KDecode end in
      Ok (Some (a, b))
    | _ => Err KDecode
    end
  | Some _ => Err KDecode
  end.

(** ** Decoding *)
Definition from_ipld (i : ipld) : outcome KError KnowledgeNode :=
  let! m := as_map i in
  let! ty := gstr m "@type" in
  if String.eqb ty "Entity" then
    let! id := gbytes m "id" in
    let! id := if decide (length id = 32%nat) then Ok id else Err KDecode in
    let! kind := gstr m "kind" in
    let! name := gstr m "name" in
    let! aliases := gstrlist m "aliases" in
    let! attrs := gstrmap m "attrs" in
    let! observations := glinks m "observations" in
    Ok (Entity id kind name aliases attrs observations)
  else if String.eqb ty "Concept" then
    let! name := gstr m "name" in
    let! definition := gstr m "definition" in
    let! broader := glinks m "broader" in
    let! related := glinks m "related" in
    Ok (Concept name definition broader related)
  else if String.eqb ty "Relation" then
    let! subject := glink m "subject" in
    let! predicate := gstr m "predicate" in
    let! object := glink m "object" in
    let! evidence := glinks m "evidence" in
    let! weight := gfloat m "weight" in
    Ok (Relation subject predicate object evidence (f64_to_f32 weight))
  else if String.eqb ty "Evidence" then
    let! source := glink m "source" in
    let! span := gspan m in
    let! extracted_by := gstr m "extracted_by" in
    Ok (Evidence source span extracted_by (glink_opt m "proof"))
  else if String.eqb ty "Observation" then
    let! about := glink m "about" in
    let! statement := gstr m "statement" in
    let! ts := gint m "ts" in
    let! agent := gstr m "agent" in
    Ok (Observation about statement (as_u64 ts) agent)
  else if String.eqb ty "Hypothesis" then
    let! claim := gstr m "claim" in
    let! supports := glinks m "supports" in
    let! refutes := glinks m "refutes" in
    let! status := gstr m "status" in
    Ok (Hypothesis_ claim supports refutes (HypothesisStatus.parse status) (glink_opt m "proof"))
  else Err KDecode.

Definition decode (b : bytes) : outcome KError KnowledgeNode :=
  let! i := map_err KCore (from_dag_cbor b) in from_ipld i.
End node.
