(* ===== verification/KNodeFacts.v ===== *)
(** * Knowledge nodes survive encoding *)

From Stdlib Require Import ZArith Lia List Sorted.
From stdpp Require Import base tactics numbers list gmap sets strings.
From S2P Require Import Prelude Collections Ieee Cid CidFacts Ipld IpldFacts Store Hamt HamtFacts KNode.

#[local] Open Scope Z_scope.

Section facts.
Context `{CidCrate} `{!CidLaws}.
Implicit Types (n : KnowledgeNode) (m : list (string * ipld)).

(** What the Rust types guarantee of a node: UTF-8 strings, sorted attributes, machine-width
    integers, collections that fit in memory.  A NaN weight is left out, because conversion
    between float widths does not preserve its payload. *)
Definition fits {A} (l : list A) : Prop := zlen l * ipld_size <= isize_max.
Definition wf_node n : Prop :=
  match n with
  | Entity id kind name aliases attrs observations =>
    length id = 32%nat ∧ str_ok kind ∧ str_ok name ∧ (fits aliases ∧ Forall str_ok aliases)
    ∧ (fits attrs ∧ bt_sorted attrs ∧ Forall (λ p, str_ok p.1 ∧ str_ok p.2) attrs)
    ∧ fits observations
  | Concept name definition broader related =>
    str_ok name ∧ str_ok definition ∧ fits broader ∧ fits related
  | Relation _ predicate _ evidence weight =>
    str_ok predicate ∧ fits evidence ∧ (0 <= weight < 2 ^ 32 ∧ f32_not_nan weight)
  | Evidence _ span extracted_by _ =>
    (match span with Some (a, b) => 0 <= a < 2 ^ 64 ∧ 0 <= b < 2 ^ 64 | None => True end)
    ∧ str_ok extracted_by
  | Observation _ statement ts agent =>
    str_ok statement ∧ 0 <= ts < 2 ^ 64 ∧ str_ok agent
  | Hypothesis_ claim supports refutes _ _ =>
    str_ok claim ∧ fits supports ∧ fits refutes
  end.

Lemma fits_len {A} (l : list A) : fits l → zlen l <= isize_max.
Proof. unfold fits. pose proof ipld_size_bound. pose proof (zlen_nonneg l). nia. Qed.

Lemma zlen_fmap {A B} (f : A → B) l : zlen (f <$> l) = zlen l.
Proof. unfold zlen. by rewrite length_fmap. Qed.

Lemma links_wf l : fits l → wf_ipld (links l).
Proof.
  intros Hl. simpl. rewrite zlen_fmap. split_and!; [done|by apply fits_len|].
  apply foldr_and_Forall, Forall_fmap, Forall_true. intros c. apply link_wf.
Qed.

Lemma strlist_wf l : fits l → Forall str_ok l → wf_ipld (IList (IString <$> l)).
Proof.
  intros Hl Hs. simpl. rewrite zlen_fmap. split_and!; [done|by apply fits_len|].
  by apply foldr_and_Forall, Forall_fmap.
Qed.

Lemma bt_sorted_fmap {A B} (f : A → B) (l : list (string * A)) :
  bt_sorted l → bt_sorted ((λ p, (p.1, f p.2)) <$> l).
Proof.
  induction 1 as [|p l _ IH Hp]; simpl; constructor; [done|].
  apply Forall_fmap. eapply Forall_impl; [exact Hp|done].
Qed.

Lemma strmap_wf l :
  fits l → bt_sorted l → Forall (λ p, str_ok p.1 ∧ str_ok p.2) l →
  wf_ipld (IMap (bt_of_list ((λ p, (p.1, IString p.2)) <$> l))).
Proof.
  intros Hl Hs Hok. rewrite bt_of_list_sorted by by apply bt_sorted_fmap. simpl.
  rewrite zlen_fmap. split_and!; [by apply fits_len|by apply bt_sorted_fmap|].
  by apply foldr_and_Forall, Forall_fmap.
Qed.

(** A map with a handful of fields, given in order. *)
Lemma fields_wf m :
  zlen m <= isize_max → StronglySorted (λ p q, slt p.1 q.1) m →
  Forall (λ p, str_ok p.1 ∧ wf_ipld p.2) m → wf_ipld (IMap m).
Proof. intros ???. split_and!; [done..|]. by apply foldr_and_Forall. Qed.

Lemma status_ok s : str_ok (HypothesisStatus.as_str s).
Proof. by destruct s. Qed.

Lemma string_wf s : str_ok s → wf_ipld (IString s).
Proof. done. Qed.
Lemma integer_wf x : 0 <= x < 2 ^ 64 → wf_ipld (IInteger x).
Proof. simpl. lia. Qed.
Lemma pair_wf a b :
  0 <= a < 2 ^ 64 → 0 <= b < 2 ^ 64 → wf_ipld (IList [IInteger a; IInteger b]).
Proof.
  intros. pose proof ipld_size_bound. simpl. unfold zlen, isize_max. simpl length.
  split_and!; lia || done.
Qed.
Lemma key_wf id : length id = 32%nat → wf_ipld (IBytes id).
Proof. simpl. unfold zlen. by intros ->. Qed.
Lemma weight_wf w : 0 <= w < 2 ^ 32 → wf_ipld (IFloat (f32_to_f64 w)).
Proof. intros Hw. apply (widen_range 8 23); lia. Qed.

Lemma to_ipld_wf n : wf_node n → wf_ipld (to_ipld n).
Proof.
  destruct n as [| | |? [[? ?]|] ? []| |? ? ? ? []]; intros Hn; unfold to_ipld; simpl insert_opt;
    simpl bt_insert; cbn [wf_node] in Hn; destruct_and?;
    (apply fields_wf; [done|repeat constructor; done|]).
  all: repeat (apply Forall_cons_2; [split; cbn [fst snd]|]); try apply Forall_nil_2;
    auto using string_wf, link_wf, links_wf, strlist_wf, strmap_wf, status_ok, integer_wf, pair_wf, key_wf,
      weight_wf.
  all: try apply string_wf; try apply status_ok; by apply str_okb_ok.
Qed.

(** ** Reading fields back *)
Lemma gstr_ok m k s : bt_get k m = Some (IString s) → gstr m k = Ok s.
Proof. intros Hk. unfold gstr, field. by rewrite Hk. Qed.
Lemma gbytes_ok m k b : bt_get k m = Some (IBytes b) → gbytes m k = Ok b.
Proof. intros Hk. unfold gbytes, field. by rewrite Hk. Qed.
Lemma gint_ok m k x : bt_get k m = Some (IInteger x) → gint m k = Ok x.
Proof. intros Hk. unfold gint, field. by rewrite Hk. Qed.
Lemma gfloat_ok m k x : bt_get k m = Some (IFloat x) → gfloat m k = Ok x.
Proof. intros Hk. unfold gfloat, field. by rewrite Hk. Qed.
Lemma glink_ok m k c : bt_get k m = Some (link c) → glink m k = Ok c.
Proof. intros Hk. unfold glink, field. by rewrite Hk. Qed.
Lemma glinks_ok m k l : bt_get k m = Some (links l) → glinks m k = Ok l.
Proof.
  intros Hk. unfold glinks, field. rewrite Hk. simpl. by apply try_map_fmap, Forall_true.
Qed.
Lemma gstrlist_ok m k l : bt_get k m = Some (IList (IString <$> l)) → gstrlist m k = Ok l.
Proof.
  intros Hk. unfold gstrlist, field. rewrite Hk. simpl. by apply try_map_fmap, Forall_true.
Qed.
Lemma gstrmap_ok m k l :
  bt_sorted l → bt_get k m = Some (IMap (bt_of_list ((λ p, (p.1, IString p.2)) <$> l))) →
  gstrmap m k = Ok l.
Proof.
  intros Hs Hk. unfold gstrmap, field. rewrite Hk, bt_of_list_sorted by by apply bt_sorted_fmap.
  simpl. rewrite try_map_fmap by by apply Forall_true; intros []. simpl.
  by rewrite bt_of_list_sorted.
Qed.

Lemma parse_as_str s : HypothesisStatus.parse (HypothesisStatus.as_str s) = s.
Proof. by destruct s. Qed.

(** One accessor after the other, on a map whose fields are known. *)
Ltac read_field :=
  erewrite outcome_bind_eq by
    first [ apply gstr_ok; reflexivity | apply gbytes_ok; reflexivity | apply gint_ok; reflexivity
          | apply gfloat_ok; reflexivity | apply glink_ok; reflexivity
          | apply glinks_ok; reflexivity | apply gstrlist_ok; reflexivity
          | apply gstrmap_ok; [done|reflexivity] | reflexivity ]; cbv beta.
Ltac read_fields := repeat (first [read_field | progress simpl (String.eqb _ _) | progress cbv iota]).

Lemma from_ipld_to_ipld n : wf_node n → from_ipld (to_ipld n) = Ok n.
Proof.
  destruct n as [| | |? [[? ?]|] ? []| |? ? ? ? []]; intros Hn; unfold to_ipld, from_ipld;
    cbn [insert_opt fmap option_fmap option_map type_name]; cbn [wf_node] in Hn; destruct_and?;
    read_fields.
  1: rewrite decide_True by done; read_fields; reflexivity.
  all: rewrite ?as_u64_small, ?f64_to_f32_to_f64, ?parse_as_str by done; reflexivity.
Qed.

(** The block of a node. *)
Definition node_block n : bytes := cbor (to_ipld n).
Definition block_cid (b : bytes) : Cid := Cid_new_v1 0x71 (digest Sha2_256 b).

Lemma encode_ok n : wf_node n → encode n = Ok (block_cid (node_block n), node_block n).
Proof.
  intros Hn. unfold encode. rewrite to_dag_cbor_cbor by by apply to_ipld_wf.
  unfold map_err, outcome_bind. by rewrite build_dag_cbor_new.
Qed.

Lemma decode_node n : wf_node n → decode (node_block n) = Ok n.
Proof.
  intros Hn. unfold decode. pose proof (from_dag_cbor_cbor (to_ipld n) [] (to_ipld_wf n Hn)) as Hd.
  rewrite app_nil_r in Hd. fold (node_block n) in Hd. rewrite Hd. cbn [map_err outcome_bind].
  by apply from_ipld_to_ipld.
Qed.

(** Every well-formed knowledge node, of each of the six kinds, is encoded to a block and
    the CIDv1 of that block, and decoding the block gives the node back: no field is lost,
    reordered or truncated, optional fields included. *)
Theorem knode_roundtrip n (Hwf : wf_node n) :
  ∃ b, encode n = Ok (Cid_new_v1 0x71 (digest Sha2_256 b), b) ∧ decode b = Ok n.
Proof. exists (node_block n). split; [by apply encode_ok|by apply decode_node]. Qed.
End facts.

(** ** Witness *)
Import Reference.

Definition demo_node : KnowledgeNode :=
  Entity (replicate 32 9) "person" "Ada" ["Lovelace"; "Countess"]
    [("born", "1815"); ("field", "maths")] [demo_cid].

Lemma knode_roundtrip_witness :
  ∃ b, encode demo_node = Ok (Cid_new_v1 0x71 (digest Sha2_256 b), b) ∧ decode b = Ok demo_node.
Proof.
  apply knode_roundtrip. unfold demo_node, wf_node, fits.
  split_and!; try by apply str_okb_ok.
  - reflexivity.
  - apply Z.leb_le. reflexivity.
  - repeat constructor; by apply str_okb_ok.
  - apply Z.leb_le. reflexivity.
  - repeat constructor.
  - repeat constructor; by apply str_okb_ok.
  - apply Z.leb_le. reflexivity.
Defined.
