(* ===== verification/ColdStore.v ===== *)
(** * The storage backend: [crates/ipfrs-storage/src/traits.rs] and [memory.rs]

    [ColdStore] is the asynchronous trait the knowledge layer calls through
    [Arc<dyn BlockStoreTrait>]; awaiting is sequencing, since each caller awaits one call at a
    time.  A backend may fail: [ColdLaws] says that a call that fails changes nothing and that
    one that succeeds does what it says; [Reliable] adds that no call fails.
    [MemoryBlockStore] is reliable.  A block is its CID and its bytes. *)

From Stdlib Require Import ZArith Lia List.
From stdpp Require Import base tactics numbers list gmap sets strings fin_maps.
From S2P Require Import Prelude Cid.

Section cold.
Context `{CidCrate}.

Class ColdStore (K : Type) : Type := {
  cold_put : Cid → bytes → stateful K Error unit;
  cold_get : Cid → K → outcome Error (option bytes);
  cold_has : Cid → K → outcome Error bool;
  cold_delete : Cid → stateful K Error unit;
  cold_list : K → outcome Error (list Cid);
  cold_len : K → nat;
}.

(** ** The provided methods *)
Section provided.
Context {K : Type} `{!ColdStore K}.

Fixpoint put_many (l : list (Cid * bytes)) : stateful K Error unit :=
  match l with
  | [] => lift (Ok tt)
  | (c, b) :: l' => do! _ := cold_put c b in put_many l'
  end.
Definition get_many (cids : list Cid) (k : K) : outcome Error (list (option bytes)) :=
  try_map (λ c, cold_get c k) cids.
Definition has_many (cids : list Cid) (k : K) : outcome Error (list bool) :=
  try_map (λ c, cold_has c k) cids.
Fixpoint delete_many (cids : list Cid) : stateful K Error unit :=
  match cids with
  | [] => lift (Ok tt)
  | c :: cids' => do! _ := cold_delete c in delete_many cids'
  end.
Definition cold_is_empty (k : K) : bool := Nat.eqb (cold_len k) 0.
End provided.

(** ** What a backend promises *)
(** A call that changes the contents: the new contents when it succeeds, the old ones when it
    fails. *)
Definition updates {K} (contents : K → gmap Cid bytes) (r : outcome Error unit * K)
    (old new : gmap Cid bytes) : Prop :=
  match r with
  | (Ok _, k) => contents k = new
  | (Err _, k) => contents k = old
  | _ => False
  end.

Class ColdLaws (K : Type) `{ColdStore K} : Type := {
  contents : K → gmap Cid bytes;
  cold_get_law : ∀ c k, fails_or (cold_get c k) (λ o, o = contents k !! c);
  cold_has_law : ∀ c k, fails_or (cold_has c k) (λ b, b = bool_decide (is_Some (contents k !! c)));
  cold_list_law : ∀ k, fails_or (cold_list k) (λ l, l ≡ₚ elements (dom (contents k)));
  cold_put_law : ∀ c b k, updates contents (cold_put c b k) (contents k) (<[c := b]> (contents k));
  cold_delete_law : ∀ c k, updates contents (cold_delete c k) (contents k) (delete c (contents k));
}.

Class Reliable (K : Type) `{ColdLaws K} : Prop := {
  cold_get_ok : ∀ c k, cold_get c k = Ok (contents k !! c);
  cold_list_ok : ∀ k, ∃ l, cold_list k = Ok l;
  cold_put_ok : ∀ c b k, (cold_put c b k).1 = Ok tt;
  cold_delete_ok : ∀ c k, (cold_delete c k).1 = Ok tt;
}.

(** ** [MemoryBlockStore]

    The concurrent map is a finite map; its iteration order is some order of its keys. *)
Record MemoryBlockStore : Type := mkMemoryBlockStore { mb_blocks : gmap Cid bytes }.

Definition MemoryBlockStore_new : MemoryBlockStore := mkMemoryBlockStore ∅.
Definition MemoryBlockStore_clear (_ : MemoryBlockStore) : MemoryBlockStore := mkMemoryBlockStore ∅.

#[export] Instance MemoryBlockStore_cold : ColdStore MemoryBlockStore := {
  cold_put c b k := (Ok tt, mkMemoryBlockStore (<[c := b]> (mb_blocks k)));
  cold_get c k := Ok (mb_blocks k !! c);
  cold_has c k := Ok (bool_decide (is_Some (mb_blocks k !! c)));
  cold_delete c k := (Ok tt, mkMemoryBlockStore (delete c (mb_blocks k)));
  cold_list k := Ok (elements (dom (mb_blocks k)));
  cold_len k := size (mb_blocks k);
}.

#[export] Instance MemoryBlockStore_laws : ColdLaws MemoryBlockStore.
Proof. refine {| contents := mb_blocks |}; intros; simpl; reflexivity. Defined.

#[export] Instance MemoryBlockStore_reliable : Reliable MemoryBlockStore.
Proof. split; intros; simpl; eauto. Qed.
End cold.

(** ** A store that records whether a block was replaced

    A ghost flag on any [ColdStore]: histories on which it stays unset are those without a hash
    collision that matters. *)
Module Watched.
Section watched.
Context `{CidCrate} {K : Type} `{!ColdStore K} `{!ColdLaws K}.
Record Watched : Type := watch { watched : K; clashed : bool }.

Definition replaces (c : Cid) (b : bytes) (k : K) : bool :=
  match contents k !! c with Some b' => bool_decide (b' ≠ b) | None => false end.
#[export] Instance Watched_cold : ColdStore Watched := {
  cold_put c b w := let '(r, k) := cold_put c b (watched w) in (r, watch k (clashed w || replaces c b (watched w)));
  cold_get c w := cold_get c (watched w);
  cold_has c w := cold_has c (watched w);
  cold_delete c w := let '(r, k) := cold_delete c (watched w) in (r, watch k (clashed w));
  cold_list w := cold_list (watched w);
  cold_len w := cold_len (watched w);
}.
#[export] Instance Watched_laws : ColdLaws Watched.
Proof.
  refine {| contents w := contents (watched w) |}; intros; simpl.
  - apply cold_get_law.
  - apply cold_has_law.
  - apply cold_list_law.
  - pose proof (cold_put_law c b (watched k)) as Hp. by destruct (cold_put _ _ _) as [[] ?].
  - pose proof (cold_delete_law c (watched k)) as Hp. by destruct (cold_delete _ _) as [[] ?].
Defined.
#[export] Instance Watched_reliable `{!Reliable K} : Reliable Watched.
Proof.
  split; intros; simpl.
  - apply cold_get_ok.
  - apply cold_list_ok.
  - pose proof (cold_put_ok c b (watched k)) as Hp. by destruct (cold_put _ _ _).
  - pose proof (cold_delete_ok c (watched k)) as Hp. by destruct (cold_delete _ _).
Qed.
End watched.
Arguments Watched K : clear implicits.
Arguments watch {K} watched clashed.
Arguments watched {K} w.
Arguments clashed {K} w.
End Watched.
