(* ===== verification/KGc.v ===== *)
(** * Garbage collection and the tiered store:
      [crates/ipfrs-knowledge/src/gc.rs] and [tiered.rs]

    [collect_links_filtered] walks one value; [reachable] is the mark phase and [collect] the
    whole collection; [TieredStore] is the hot map, the set of dirty CIDs and the backend, with
    [flush] and [hydrate].  [Ipld::from_dag_cbor] may panic ([IpldFacts]), and then so do the
    loops that call it.  The order in which [flush] visits the dirty set, which the hash set
    leaves open, is an argument. *)

From Stdlib Require Import ZArith Lia List.
From stdpp Require Import base tactics numbers list gmap sets strings.
From S2P Require Import Prelude Cid Ipld Store ColdStore.

Section gc.
Context `{CidCrate}.

(** Pushes onto [out]. *)
Fixpoint collect_links_filtered (i : ipld) (out : list Cid) (skip_prev : bool) : list Cid :=
  match i with
  | ILink c => out ++ [c]
  | IMap m =>
    (fix go m out :=
       match m with
       | [] => out
       | (k, v) :: m' =>
         if skip_prev && String.eqb k "prev" then go m' out
         else go m' (collect_links_filtered v out skip_prev)
       end) m out
  | IList l =>
    (fix go l out :=
       match l with
       | [] => out
       | v :: l' => go l' (collect_links_filtered v out skip_prev)
       end) l out
  | _ => out
  end.

(** [if let Ok(ipld) = Ipld::from_dag_cbor(bytes) { collect_links(&ipld, &mut frontier) }]. *)
Definition push_links (b : bytes) (frontier : list Cid) (skip_prev : bool) : outcome KError (list Cid) :=
  match from_dag_cbor b with
  | Ok i => Ok (collect_links_filtered i frontier skip_prev)
  | Err _ => Ok frontier
  | Panic => Panic
  | OutOfFuel => OutOfFuel
  end.

Section backend.
Context {K : Type} `{!ColdStore K}.

(** ** [gc.rs] *)
Record GcReport : Type := mkGcReport { kept : nat; deleted : list Cid }.

(** The [while let] loop of the mark phase; the vector [frontier] is popped at its end. *)
Fixpoint reachable_loop (fuel : nat) (cold : K) (seen : gset Cid) (frontier : list Cid)
    (keep_history : bool) : outcome KError (gset Cid) :=
  match last frontier with
  | None => Ok seen
  | Some cid =>
    match fuel with
    | O => OutOfFuel
    | S fuel' =>
      let frontier := removelast frontier in
      if decide (cid ∈ seen) then reachable_loop fuel' cold seen frontier keep_history else
      let seen := {[cid]} ∪ seen in
      let! block := map_err KCore (cold_get cid cold) in
      match block with
      | None => reachable_loop fuel' cold seen frontier keep_history
      | Some data =>
        let! frontier := push_links data frontier (negb keep_history) in
        reachable_loop fuel' cold seen frontier keep_history
      end
    end
  end.

Definition reachable (fuel : nat) (cold : K) (pins : list Cid) (keep_history : bool) :
    outcome KError (gset Cid) :=
  reachable_loop fuel cold ∅ pins keep_history.

(** The sweep. *)
Fixpoint sweep (live : gset Cid) (all : list Cid) (deleted : list Cid) :
    stateful K KError (list Cid) :=
  match all with
  | [] => lift (Ok deleted)
  | cid :: all' =>
    if decide (cid ∈ live) then sweep live all' deleted else
    do! _ := (λ cold, let '(r, cold') := cold_delete cid cold in (map_err KCore r, cold')) in
    sweep live all' (deleted ++ [cid])
  end.

Definition collect (fuel : nat) (pins : list Cid) (keep_history : bool) :
    stateful K KError GcReport :=
  do! live := reads (λ cold, reachable fuel cold pins keep_history) in
  do! all := reads (λ cold, map_err KCore (cold_list cold)) in
  do! deleted := sweep live all [] in
  lift (Ok (mkGcReport (size live) deleted)).

(** ** [tiered.rs] *)
Record TieredStore : Type := mkTieredStore {
  hot : MemStore;
  dirty : gset Cid;
  cold : K;
}.

Definition TieredStore_new (k : K) : TieredStore := mkTieredStore MemStore_new ∅ k.
Definition dirty_len (t : TieredStore) : nat := size (dirty t).

#[export] Instance TieredStore_BlockStore : BlockStore TieredStore := {
  put c b t := mkTieredStore (put c b (hot t)) ({[c]} ∪ dirty t) (cold t);
  bs_get t c := bs_get (hot t) c;
  bs_len t := bs_len (hot t);
}.

#[export] Instance TieredStore_laws : BlockStoreLaws TieredStore.
Proof. by refine {| blocks t := blocks (hot t) |}. Defined.

(** The loop of [flush] over the dirty CIDs. *)
Fixpoint flush_loop (cids : list Cid) : stateful TieredStore KError unit :=
  match cids with
  | [] => lift (Ok tt)
  | cid :: cids' =>
    λ t, match bs_get (hot t) cid with
         | None => flush_loop cids' t
         | Some b =>
           let '(r, k) := cold_put cid b (cold t) in
           match map_err KCore r with
           | Ok _ => flush_loop cids' (mkTieredStore (hot t) (dirty t ∖ {[cid]}) k)
           | e => (e, mkTieredStore (hot t) (dirty t) k)
           end
         end
  end.

Definition flush (order : gset Cid → list Cid) : stateful TieredStore KError unit :=
  λ t, flush_loop (order (dirty t)) t.

Fixpoint hydrate_loop (fuel : nat) (seen : gset Cid) (frontier : list Cid) (fetched : nat) :
    stateful TieredStore KError nat :=
  match last frontier with
  | None => lift (Ok fetched)
  | Some cid =>
    match fuel with
    | O => lift OutOfFuel
    | S fuel' =>
      let frontier := removelast frontier in
      if decide (cid ∈ seen) then hydrate_loop fuel' seen frontier fetched else
      let seen := {[cid]} ∪ seen in
      do! is_hot := reads (λ t, Ok (has (hot t) cid)) in
      if (is_hot : bool) then hydrate_loop fuel' seen frontier fetched else
      do! block := reads (λ t, map_err KCore (cold_get cid (cold t))) in
      match block with
      | None => hydrate_loop fuel' seen frontier fetched
      | Some data =>
        do! frontier := lift (push_links data frontier false) in
        do! _ := modifies (λ t, mkTieredStore (put cid data (hot t)) (dirty t) (cold t)) in
        hydrate_loop fuel' seen frontier (S fetched)
      end
    end
  end.

Definition hydrate (fuel : nat) (root : Cid) : stateful TieredStore KError nat :=
  hydrate_loop fuel ∅ [root] 0.
End backend.
End gc.
#[global] Arguments TieredStore {_} K.
#[global] Arguments GcReport {_}.
