(* ===== verification/KGcFacts.v ===== *)
(** * Garbage collection keeps exactly what is reachable, and the tiered store loses nothing *)

From Stdlib Require Import ZArith Lia List.
From stdpp Require Import base tactics numbers list gmap sets strings fin_maps.
From S2P Require Import Prelude Collections Cid CidFacts Ipld IpldFacts Store ColdStore Hamt HamtFacts KGc.

Section gc.
Context `{CidCrate}.
Implicit Types (B : gmap Cid bytes) (skip : bool).

(** ** The links of a block *)
Definition links_of skip (b : bytes) : list Cid :=
  match from_dag_cbor b with Ok i => collect_links_filtered i [] skip | _ => [] end.

Lemma collect_links_filtered_app i out skip :
  collect_links_filtered i out skip = out ++ collect_links_filtered i [] skip.
Proof.
  revert out. induction i as [| | | | | |l IH|m IH|c] using ipld_ind'; intros out; simpl;
    rewrite ?app_nil_r; try done.
  - revert out. induction IH as [|x l Hx _ IHl]; intros out; [by rewrite app_nil_r|].
    rewrite IHl, Hx, <- app_assoc. f_equal. symmetry. apply IHl.
  - revert out. induction IH as [|[k x] m Hx _ IHm]; intros out; [by rewrite app_nil_r|].
    destruct (skip && (k =? "prev")%string); [apply IHm|]. simpl in Hx.
    rewrite IHm, Hx, <- app_assoc. f_equal. symmetry. apply IHm.
Qed.

(** Without the filter the walker is the core's [Ipld::links]. *)
Lemma collect_links_filtered_false i out : collect_links_filtered i out false = collect_links i out.
Proof.
  revert out. induction i as [| | | | | |l IH|m IH|c] using ipld_ind'; intros out; simpl; try done.
  - revert out. induction IH as [|x l Hx _ IHl]; intros out; [done|]. by rewrite Hx, IHl.
  - revert out. induction IH as [|[k x] m Hx _ IHm]; intros out; [done|]. simpl in Hx.
    by rewrite Hx, IHm.
Qed.

Lemma push_links_Ok b f skip f' : push_links b f skip = Ok f' → f' = f ++ links_of skip b.
Proof.
  unfold push_links, links_of. destruct (from_dag_cbor b); intros [= <-]; [|by rewrite app_nil_r].
  apply collect_links_filtered_app.
Qed.

Lemma push_links_decodable b f skip :
  from_dag_cbor b ≠ Panic → push_links b f skip = Ok (f ++ links_of skip b).
Proof.
  intros Hb. pose proof (from_dag_cbor_answers b). unfold push_links, links_of.
  destruct (from_dag_cbor b); try done; [|by rewrite app_nil_r].
  by rewrite collect_links_filtered_app.
Qed.

(** ** Reachability

    The specification: the closure of the pins under the links of the stored blocks. *)
Inductive reach B skip (pins : list Cid) : Cid → Prop :=
| reach_pin c : c ∈ pins → reach B skip pins c
| reach_link c b c' : reach B skip pins c → B !! c = Some b → c' ∈ links_of skip b →
    reach B skip pins c'.

(** Half way through the mark phase: everything found is reachable, and what is reachable is
    in [seen] or will be found from the frontier. *)
Definition mark_inv B skip pins (seen : gset Cid) (frontier : list Cid) : Prop :=
  (∀ c, c ∈ seen ∨ c ∈ frontier → reach B skip pins c) ∧
  (∀ c, c ∈ pins → c ∈ seen ∨ c ∈ frontier) ∧
  (∀ c b c', c ∈ seen → B !! c = Some b → c' ∈ links_of skip b → c' ∈ seen ∨ c' ∈ frontier).

Lemma mark_inv_init B skip pins : mark_inv B skip pins ∅ pins.
Proof. split_and!; [intros c [|]; [set_solver|by constructor]|auto|set_solver]. Qed.

Lemma mark_inv_done B skip pins seen :
  mark_inv B skip pins seen [] → ∀ c, c ∈ seen ↔ reach B skip pins c.
Proof.
  intros (Hs & Hp & Hl) c. split; [auto|].
  induction 1 as [c Hc|c b c' _ IH Hb Hc]; [destruct (Hp c Hc)|destruct (Hl c b c')]; set_solver.
Qed.

Lemma mark_inv_seen B skip pins seen frontier c :
  c ∈ seen → mark_inv B skip pins seen (frontier ++ [c]) → mark_inv B skip pins seen frontier.
Proof.
  intros Hc (Hs & Hp & Hl). split_and!.
  - intros c' Hc'. apply Hs. set_solver.
  - intros c' Hc'. apply Hp in Hc'. set_solver.
  - intros c1 b c2 Hc1 Hb Hc2. destruct (Hl c1 b c2); set_solver.
Qed.

Lemma mark_inv_visit B skip pins seen frontier c :
  mark_inv B skip pins seen (frontier ++ [c]) →
  mark_inv B skip pins ({[c]} ∪ seen)
    (frontier ++ match B !! c with Some b => links_of skip b | None => [] end).
Proof.
  intros (Hs & Hp & Hl).
  assert (reach B skip pins c) as Hc by (apply Hs; set_solver).
  split_and!.
  - intros c' [Hc'|[Hc'|Hc']%elem_of_app].
    + destruct (decide (c' = c)) as [->|]; [done|]. apply Hs. set_solver.
    + apply Hs. set_solver.
    + destruct (B !! c) as [b|] eqn:Hb; [by eapply reach_link|set_solver].
  - intros c' Hc'. apply Hp in Hc'. set_solver.
  - intros c1 b c2 [->%elem_of_singleton|Hc1]%elem_of_union Hb Hc2.
    + rewrite Hb. set_solver.
    + destruct (Hl c1 b c2); set_solver.
Qed.

(** ** The work left: one visit per element of the frontier, and at most one per link of a
    stored block not seen yet *)
Definition weight B skip : gset Cid → nat := todo (λ b, length (links_of skip b)) B.

(** ** The mark phase *)
Section mark.
Context {K : Type} `{!ColdStore K} `{!ColdLaws K}.
Implicit Types k : K.

Lemma reachable_loop_spec fuel k seen frontier kh pins live :
  mark_inv (contents k) (negb kh) pins seen frontier →
  reachable_loop fuel k seen frontier kh = Ok live →
  ∀ c, c ∈ live ↔ reach (contents k) (negb kh) pins c.
Proof.
  revert seen frontier. induction fuel as [|fuel IH]; intros seen frontier Hinv Hrun;
    destruct (frontier_cases frontier) as [->|(c & f & -> & Hlast & Hrl)]; simpl in Hrun.
  - injection Hrun as <-. by apply mark_inv_done.
  - by rewrite Hlast in Hrun.
  - injection Hrun as <-. by apply mark_inv_done.
  - rewrite Hlast, Hrl in Hrun. destruct (decide (c ∈ seen)).
    { eapply IH; [by eapply mark_inv_seen|done]. }
    apply mark_inv_visit in Hinv. pose proof (cold_get_law c k) as Hg.
    destruct (cold_get c k) as [o| | |]; try done. simpl in Hg, Hrun. subst o.
    destruct (contents k !! c) as [b|].
    + apply outcome_bind_Ok in Hrun as (f' & ->%push_links_Ok & Hrun). by eapply IH.
    + rewrite app_nil_r in Hinv. by eapply IH.
Qed.

(** With enough fuel, and no block that makes the decoder panic, the mark phase ends. *)
Lemma reachable_loop_answers `{!Reliable K} fuel k seen frontier kh :
  decodable (contents k) → length frontier + weight (contents k) (negb kh) seen ≤ fuel →
  ∃ live, reachable_loop fuel k seen frontier kh = Ok live.
Proof.
  intros Hdec. revert seen frontier. induction fuel as [|fuel IH]; intros seen frontier Hf;
    destruct (frontier_cases frontier) as [->|(c & f & -> & Hlast & Hrl)]; simpl; eauto.
  { rewrite length_app in Hf. simpl in Hf. lia. }
  rewrite Hlast, Hrl. rewrite length_app in Hf. simpl in Hf.
  destruct (decide (c ∈ seen)) as [|Hc]; [apply IH; lia|].
  rewrite cold_get_ok. simpl. destruct (contents k !! c) as [b|] eqn:Hb.
  - rewrite push_links_decodable by by eapply Hdec. simpl. apply IH.
    rewrite length_app. pose proof (todo_visit (λ b, length (links_of (negb kh) b)) _ seen c b Hb Hc). unfold weight in *. simpl in *. lia.
  - apply IH. pose proof (todo_mono (λ b, length (links_of (negb kh) b)) (contents k) seen ({[c]} ∪ seen)).
    unfold weight in *. set_solver by lia.
Qed.

(** ** The sweep *)
Lemma sweep_spec live all del k r k' :
  sweep live all del k = (r, k') →
  contents k' ⊆ contents k
  ∧ (∀ c, c ∈ live → contents k' !! c = contents k !! c)
  ∧ (∀ del', r = Ok del' → del' = del ++ filter (λ c, c ∉ live) all
       ∧ ∀ c, c ∈ all → c ∉ live → contents k' !! c = None).
Proof.
  revert del k. induction all as [|c all IH]; intros del k Hrun; simpl in Hrun.
  - injection Hrun as <- <-. split_and!; [done..|]. intros del' [= <-]. rewrite app_nil_r. set_solver.
  - destruct (decide (c ∈ live)) as [Hc|Hc].
    + destruct (IH _ _ Hrun) as (Hsub & Hlive & Hok). split_and!; [done..|]. intros del' Hr.
      destruct (Hok _ Hr) as [-> Hdel]. rewrite filter_cons_False by tauto. split; [done|].
      intros c' [->|?]%elem_of_cons; [done|auto].
    + unfold st_bind in Hrun. pose proof (cold_delete_law c k) as Hd.
      destruct (cold_delete c k) as [[] k1]; simpl in Hd, Hrun; try done.
      * destruct (IH _ _ Hrun) as (Hsub & Hlive & Hok). rewrite Hd in *. split_and!.
        -- etrans; [done|apply delete_subseteq].
        -- intros c' Hc'. rewrite Hlive by done. apply lookup_delete_ne. by intros ->.
        -- intros del' Hr. destruct (Hok _ Hr) as [-> Hdel].
           rewrite filter_cons_True, <- app_assoc by done. split; [done|].
           intros c' [->|?]%elem_of_cons Hc'; [|auto].
           eapply lookup_weaken_None; [|exact Hsub]. apply lookup_delete_eq.
      * injection Hrun as <- <-. by rewrite Hd.
Qed.

Lemma sweep_ok `{!Reliable K} live all del k : ∃ del' k', sweep live all del k = (Ok del', k').
Proof.
  revert del k. induction all as [|c all IH]; intros del k; simpl; [by eexists _, _|].
  destruct (decide (c ∈ live)); [apply IH|]. unfold st_bind.
  pose proof (cold_delete_ok c k) as Hd. destruct (cold_delete c k) as [o k1]. simpl in Hd. subst o.
  apply IH.
Qed.

(** ** Hydration *)
Implicit Types t : TieredStore K.

(** The hot tier half way: the initial hot blocks, and the cold blocks already visited. *)
Definition hydrate_inv t0 pins (seen : gset Cid) (frontier : list Cid) t : Prop :=
  cold t = cold t0 ∧ dirty t = dirty t0 ∧
  mark_inv (contents (cold t0) ∖ blocks t0) false pins seen frontier ∧
  ∀ c, blocks t !! c = match blocks t0 !! c with
                       | Some b => Some b
                       | None => if decide (c ∈ seen) then contents (cold t0) !! c else None
                       end.

Lemma has_spec `{!BlockStore T} `{!BlockStoreLaws T} (s : T) c :
  has s c = bool_decide (is_Some (blocks s !! c)).
Proof. unfold has. by rewrite bs_get_blocks. Qed.

Lemma hydrate_inv_skip t0 pins seen frontier t c :
  c ∈ seen → hydrate_inv t0 pins seen (frontier ++ [c]) t → hydrate_inv t0 pins seen frontier t.
Proof. intros Hc (? & ? & Hm & ?). split_and!; try done. by eapply mark_inv_seen. Qed.

Lemma hydrate_inv_absent t0 pins seen frontier t c :
  hydrate_inv t0 pins seen (frontier ++ [c]) t →
  (is_Some (blocks t0 !! c) ∨ contents (cold t0) !! c = None) →
  hydrate_inv t0 pins ({[c]} ∪ seen) frontier t.
Proof.
  intros (Hcold & Hdirty & Hm & Hb) Hc. split_and!; try done.
  - apply mark_inv_visit in Hm. rewrite lookup_difference in Hm.
    destruct (blocks t0 !! c) as [b|] eqn:E; [by rewrite app_nil_r in Hm|].
    destruct Hc as [[? ?]|Hc]; [done|]. by rewrite Hc, app_nil_r in Hm.
  - intros c'. rewrite Hb. destruct (blocks t0 !! c') as [b|] eqn:E; [done|].
    destruct (decide (c' = c)) as [->|Hne].
    + destruct Hc as [[? ?]|Hc]; [congruence|]. rewrite Hc. by repeat case_decide.
    + repeat case_decide; set_solver.
Qed.

Lemma hydrate_inv_fetch t0 pins seen frontier t c b :
  hydrate_inv t0 pins seen (frontier ++ [c]) t →
  blocks t0 !! c = None → contents (cold t0) !! c = Some b →
  hydrate_inv t0 pins ({[c]} ∪ seen) (frontier ++ links_of false b)
    (mkTieredStore (put c b (hot t)) (dirty t) (cold t)).
Proof.
  intros (Hcold & Hdirty & Hm & Hb) Hhot Hc. split_and!; try done.
  - apply mark_inv_visit in Hm. by rewrite lookup_difference, Hhot, Hc in Hm.
  - intros c'. change (blocks (mkTieredStore _ _ _)) with (<[c := b]> (blocks t)).
    destruct (decide (c' = c)) as [->|Hne].
    + by rewrite lookup_insert_eq, Hhot, decide_True by set_solver.
    + rewrite lookup_insert_ne, Hb by done.
      destruct (blocks t0 !! c'); [done|]. repeat case_decide; set_solver.
Qed.

Lemma hydrate_loop_spec fuel t0 pins seen frontier n t r t' :
  hydrate_inv t0 pins seen frontier t → hydrate_loop fuel seen frontier n t = (r, t') →
  ∃ seen' frontier', hydrate_inv t0 pins seen' frontier' t' ∧ (∀ m, r = Ok m → frontier' = []).
Proof.
  revert seen frontier n t. induction fuel as [|fuel IH]; intros seen frontier n t Hinv Hrun;
    destruct (frontier_cases frontier) as [->|(c & f & -> & Hlast & Hrl)]; simpl in Hrun.
  1-3: try rewrite Hlast in Hrun; injection Hrun as <- <-; by eexists _, _.
  rewrite Hlast, Hrl in Hrun. destruct (decide (c ∈ seen)).
  { eapply IH; [by eapply hydrate_inv_skip|done]. }
  unfold st_bind, reads in Hrun. pose proof Hinv as (Hcold & Hdirty & Hm & Hb).
  pose proof (has_spec t c) as Hh. change (has t c) with (has (hot t) c) in Hh. rewrite Hh in Hrun.
  case_bool_decide as Hhot.
  { eapply IH; [|done]. eapply hydrate_inv_absent; [done|]. rewrite Hb in Hhot.
    destruct (blocks t0 !! c); [by left; eexists|by case_decide; destruct Hhot]. }
  assert (blocks t0 !! c = None) as Hnone.
  { rewrite Hb in Hhot. destruct (blocks t0 !! c); [by destruct Hhot|done]. }
  pose proof (cold_get_law c (cold t)) as Hg.
  destruct (cold_get c (cold t)) as [o|e| |]; try done; simpl in Hg, Hrun.
  2:{ injection Hrun as <- <-. by exists seen, (f ++ [c]). }
  rewrite Hcold in Hg. subst o. destruct (contents (cold t0) !! c) as [b|] eqn:Hc.
  - unfold lift in Hrun. destruct (push_links b f false) as [f'| | |] eqn:Hpush; simpl in Hrun.
    2-4: injection Hrun as <- <-; by exists seen, (f ++ [c]).
    apply push_links_Ok in Hpush as ->. eapply IH; [|done]. by apply hydrate_inv_fetch.
  - eapply IH; [|done]. eapply hydrate_inv_absent; eauto.
Qed.

Lemma hydrate_inv_init t root : hydrate_inv t [root] ∅ [root] t.
Proof. split_and!; [done..|apply mark_inv_init|]. intros c. destruct (blocks t !! c); [done|]. by case_decide. Qed.

Lemma hydrate_loop_answers `{!Reliable K} fuel t0 pins seen frontier n t :
  decodable (contents (cold t0)) → hydrate_inv t0 pins seen frontier t →
  length frontier + weight (contents (cold t0)) false seen ≤ fuel →
  ∃ m t', hydrate_loop fuel seen frontier n t = (Ok m, t').
Proof.
  intros Hdec. revert seen frontier n t. induction fuel as [|fuel IH]; intros seen frontier n t Hinv Hf;
    destruct (frontier_cases frontier) as [->|(c & f & -> & Hlast & Hrl)]; simpl;
    try by eexists _, _.
  { rewrite length_app in Hf. simpl in Hf. lia. }
  rewrite Hlast, Hrl. rewrite length_app in Hf. simpl in Hf.
  unfold weight in *.
  pose proof (todo_mono (λ b, length (links_of false b)) (contents (cold t0)) seen ({[c]} ∪ seen)
    ltac:(set_solver)).
  destruct (decide (c ∈ seen)) as [|Hc]; [apply IH; [by eapply hydrate_inv_skip|lia]|].
  unfold st_bind, reads. pose proof Hinv as (Hcold & Hdirty & Hm & Hb).
  pose proof (has_spec t c) as Hh. change (has t c) with (has (hot t) c) in Hh. rewrite Hh.
  case_bool_decide as Hhot.
  { apply IH; [|lia]. eapply hydrate_inv_absent; [done|]. rewrite Hb in Hhot.
    destruct (blocks t0 !! c); [by left; eexists|by case_decide; destruct Hhot]. }
  assert (blocks t0 !! c = None) as Hnone.
  { rewrite Hb in Hhot. destruct (blocks t0 !! c); [by destruct Hhot|done]. }
  rewrite cold_get_ok, Hcold. simpl. destruct (contents (cold t0) !! c) as [b|] eqn:Hcb.
  - unfold lift. rewrite push_links_decodable by by eapply Hdec. simpl. apply IH.
    + by apply hydrate_inv_fetch.
    + rewrite length_app. pose proof (todo_visit (λ b, length (links_of false b)) _ seen c b Hcb Hc). simpl in *. lia.
  - apply IH; [eapply hydrate_inv_absent; eauto|lia].
Qed.

(** ** Flushing *)

(** Nothing is lost: every hot block is dirty or already persistent. *)
Definition tiered_inv t : Prop :=
  ∀ c b, blocks t !! c = Some b → c ∈ dirty t ∨ contents (cold t) !! c = Some b.

Lemma flush_loop_spec cids t r t' :
  flush_loop cids t = (r, t') → tiered_inv t →
  tiered_inv t' ∧ hot t' = hot t ∧ dirty t' ⊆ dirty t
  ∧ (r = Ok tt → ∀ c, c ∈ cids → is_Some (blocks t !! c) → c ∉ dirty t').
Proof.
  revert t. induction cids as [|c cids IH]; intros t Hrun Hinv; simpl in Hrun.
  - injection Hrun as <- <-. split_and!; set_solver.
  - destruct (ms_blocks (hot t) !! c) as [b|] eqn:Hb.
    + pose proof (cold_put_law c b (cold t)) as Hp.
      destruct (cold_put c b (cold t)) as [[[]|e| |] k]; simpl in Hp, Hrun; try done.
      * destruct (IH _ Hrun) as (Hinv' & Hhot & Hsub & Hok).
        { intros c' b' Hc'. change (blocks (hot t) !! c' = Some b') in Hc'. simpl.
          destruct (decide (c' = c)) as [->|Hne].
          - right. rewrite Hp, lookup_insert_eq. by rewrite <- Hb.
          - rewrite Hp, lookup_insert_ne by done. destruct (Hinv c' b' Hc'); set_solver. }
        simpl in Hhot, Hsub. split_and!; [done|done|set_solver|].
        intros Hr c' [->|Hc']%elem_of_cons Hs; [set_solver|by apply Hok].
      * injection Hrun as <- <-. split_and!; [|done..].
        intros c' b' Hc'. simpl. rewrite Hp. by apply Hinv.
    + destruct (IH _ Hrun Hinv) as (Hinv' & Hhot & Hsub & Hok). split_and!; [done..|].
      intros Hr c' [->|Hc']%elem_of_cons Hs; [|by apply Hok].
      change (is_Some (ms_blocks (hot t) !! c)) in Hs. rewrite Hb in Hs. by destruct Hs.
Qed.

Lemma put_inv c b t : tiered_inv t → tiered_inv (put c b t).
Proof.
  intros Hinv c' b'. rewrite blocks_put. simpl.
  destruct (decide (c' = c)) as [->|Hne]; [set_solver|].
  rewrite lookup_insert_ne by done. intros Hc'. destruct (Hinv _ _ Hc'); set_solver.
Qed.

Lemma hydrate_keeps_inv fuel root t r t' :
  hydrate fuel root t = (r, t') → tiered_inv t → tiered_inv t'.
Proof.
  intros Hrun Hinv. apply (hydrate_loop_spec _ t [root]) in Hrun as (seen & f & (Hc & Hd & _ & Hb) & _);
    [|apply hydrate_inv_init].
  intros c b. rewrite Hb, Hc, Hd. destruct (blocks t !! c) as [b'|] eqn:E.
  - intros [= ->]. by apply Hinv.
  - case_decide; [|done]. auto.
Qed.

(** Everything a program can do with a tiered store, errors included. *)
Inductive tiered_step : TieredStore K → TieredStore K → Prop :=
| step_put c b t : tiered_step t (put c b t)
| step_flush order t r t' : flush order t = (r, t') → tiered_step t t'
| step_hydrate fuel root t r t' : hydrate fuel root t = (r, t') → tiered_step t t'.

Lemma tiered_reachable_inv k t : rtc tiered_step (TieredStore_new k) t → tiered_inv t.
Proof.
  intros Hr. revert t Hr. apply rtc_ind_r.
  - intros c b Hc. change ((∅ : gmap Cid bytes) !! c = Some b) in Hc. by rewrite lookup_empty in Hc.
  - intros t1 t2 _ [c b t|order t r t' Hf|fuel root t r t' Hh] Hinv.
    + by apply put_inv.
    + by eapply flush_loop_spec.
    + by eapply hydrate_keeps_inv.
Qed.
End mark.
End gc.

(** ** Properties *)
Section properties.
Context `{CidCrate} {K : Type} `{!ColdStore K} `{!ColdLaws K}.
Implicit Types (k : K) (pins : list Cid) (t : TieredStore K).

(** C2. Garbage collection is safe on any backend: whatever calls fail, wherever the run stops
    and whatever it returns, every block reachable from the pins (following [prev] links only
    when history is kept) has the same bytes as before, and no block was added or changed. *)
Theorem gc_safe fuel pins (keep_history : bool) k :
  let k' := (collect fuel pins keep_history k).2 in
  contents k' ⊆ contents k ∧
  ∀ c, reach (contents k) (negb keep_history) pins c → contents k' !! c = contents k !! c.
Proof.
  unfold collect, st_bind, reads, reachable.
  destruct (reachable_loop fuel k ∅ pins keep_history) as [live| | |] eqn:Hmark; try done.
  destruct (cold_list k) as [all| | |]; try done. simpl.
  destruct (sweep live all [] k) as [r k'] eqn:Hsweep.
  apply sweep_spec in Hsweep as (Hsub & Hlive & _).
  destruct r; simpl; (split; [done|]); intros c Hc; apply Hlive;
    by apply (reachable_loop_spec fuel k ∅ pins keep_history pins live (mark_inv_init _ _ _) Hmark).
Qed.

(** C3. Garbage collection is exact and terminates: on a reliable backend whose blocks can be
    decoded without a panic, fuel for one visit per pin and per stored link suffices, and then
    the blocks left are exactly the stored blocks reachable from the pins, the report lists
    each deleted CID once, and [kept] is the size of the reachable set. *)
Theorem gc_exact `{!Reliable K} fuel pins (keep_history : bool) k
  (Hdec : decodable (contents k))
  (Hfuel : length pins + weight (contents k) (negb keep_history) ∅ ≤ fuel) :
  ∃ (live : gset Cid) deleted k',
    collect fuel pins keep_history k = (Ok (mkGcReport (size live) deleted), k')
    ∧ (∀ c, c ∈ live ↔ reach (contents k) (negb keep_history) pins c)
    ∧ (∀ c b, contents k' !! c = Some b ↔ contents k !! c = Some b ∧ c ∈ live)
    ∧ NoDup deleted ∧ (∀ c, c ∈ deleted ↔ is_Some (contents k !! c) ∧ c ∉ live).
Proof.
  destruct (reachable_loop_answers fuel k ∅ pins keep_history) as [live Hmark]; [done..|].
  destruct (cold_list_ok k) as [all Hall]. pose proof (cold_list_law k) as Hperm.
  rewrite Hall in Hperm. simpl in Hperm.
  destruct (sweep_ok live all [] k) as (del & k' & Hsweep).
  exists live, del, k'. unfold collect, st_bind, reads, reachable, lift.
  rewrite Hmark, Hall. simpl. rewrite Hsweep.
  apply sweep_spec in Hsweep as (Hsub & Hlive & Hdel). destruct (Hdel _ eq_refl) as [-> Hgone].
  assert (∀ c, c ∈ all ↔ is_Some (contents k !! c)) as Hin.
  { intros c. rewrite Hperm, elem_of_elements. apply elem_of_dom. }
  split_and!; [done|by eapply reachable_loop_spec; [apply mark_inv_init|]| | |].
  - intros c b. destruct (decide (c ∈ live)) as [Hc|Hc]; [rewrite Hlive by done; naive_solver|].
    split; [|naive_solver]. intros Hb. pose proof (lookup_weaken _ _ _ _ Hb Hsub) as Hb'.
    rewrite Hgone in Hb; [done|apply Hin; eauto|done].
  - apply NoDup_filter. rewrite Hperm. apply NoDup_elements.
  - intros c. simpl. rewrite list_elem_of_filter, Hin. tauto.
Qed.

(** A pinned block that is not DAG-CBOR can stop every collection: when its bytes start
    like a byte string of more than [isize::MAX] bytes (nine bytes are enough), the mark phase
    panics, for either setting of [keep_history] and any amount of fuel but zero. *)
Theorem gc_panics_on_raw_block `{!Reliable K} fuel (keep_history : bool) pins k c (len : Z) rest
  (Hstored : contents k !! c = Some (cbor_head 2 len ++ rest))
  (Hlen : (isize_max < len < 2 ^ 64)%Z) :
  collect (S fuel) (pins ++ [c]) keep_history k = (Panic, k).
Proof.
  unfold collect, st_bind, reads, reachable. cbn [reachable_loop].
  rewrite last_snoc, removelast_last, decide_False by set_solver.
  rewrite cold_get_ok, Hstored. simpl. unfold push_links.
  by rewrite from_dag_cbor_oversized.
Qed.

(** C29. The tiered store loses nothing: after any sequence of writes, flushes and hydrations
    from an empty store, interrupted by any backend errors, every hot block is dirty or
    persistent with the same bytes; and when a flush then succeeds, every hot block is
    persistent, nothing is dirty, and the hot blocks are unchanged. *)
Theorem tiered_loses_nothing k t (order : gset Cid → list Cid)
  (Hrun : rtc tiered_step (TieredStore_new k) t) (Horder : ∀ s, order s ≡ₚ elements s) :
  tiered_inv t ∧
  ∀ t', flush order t = (Ok tt, t') →
    blocks t' = blocks t ∧ ∀ c b, blocks t !! c = Some b → contents (cold t') !! c = Some b.
Proof.
  apply tiered_reachable_inv in Hrun as Hinv. split; [done|]. intros t' Hf.
  apply flush_loop_spec in Hf as (Hinv' & Hhot & Hsub & Hclean); [|done].
  assert (blocks t' = blocks t) as Hb by (change (blocks (hot t') = blocks (hot t)); by rewrite Hhot).
  split; [done|]. intros c b Hc. rewrite <- Hb in Hc. destruct (Hinv' c b Hc) as [Hd|]; [|done].
  exfalso. apply Hsub in Hd as Hd'. eapply (Hclean eq_refl c); [|rewrite <- Hb; eauto|done].
  rewrite Horder. by apply elem_of_elements.
Qed.

(** Hydration terminates and fetches the closure of the root through the blocks that are
    not hot yet: on a reliable backend with decodable blocks, fuel for the root and one visit
    per stored link suffices; afterwards the hot blocks are the ones before plus exactly the
    cold blocks reachable from the root without passing through a hot block, and neither the
    dirty set nor the backend has changed. *)
Theorem hydrate_exact `{!Reliable K} fuel root t
  (Hdec : decodable (contents (cold t)))
  (Hfuel : 1 + weight (contents (cold t)) false ∅ ≤ fuel) :
  ∃ n t', hydrate fuel root t = (Ok n, t') ∧ cold t' = cold t ∧ dirty t' = dirty t ∧
    ∀ c b, blocks t' !! c = Some b ↔
      blocks t !! c = Some b ∨
      blocks t !! c = None ∧ contents (cold t) !! c = Some b ∧
      reach (contents (cold t) ∖ blocks t) false [root] c.
Proof.
  destruct (hydrate_loop_answers fuel t [root] ∅ [root] 0 t) as (n & t' & Hrun);
    [done|apply hydrate_inv_init|done|].
  exists n, t'. split; [done|].
  apply (hydrate_loop_spec _ t [root]) in Hrun as (seen & f & (Hc & Hd & Hm & Hb) & Hf);
    [|apply hydrate_inv_init].
  rewrite (Hf n eq_refl) in Hm. pose proof (mark_inv_done _ _ _ _ Hm) as Hseen.
  split_and!; [done..|]. intros c b. rewrite Hb, <- Hseen.
  destruct (blocks t !! c) as [b'|]; [naive_solver|]. case_decide; naive_solver.
Qed.
End properties.

(** Deciding [decodable] of a concrete store. *)
Definition decodableb `{CidCrate} (B : gmap Cid bytes) : bool :=
  forallb (λ p, match from_dag_cbor p.2 with Panic => false | _ => true end) (map_to_list B).

Lemma decodableb_ok `{CidCrate} (B : gmap Cid bytes) : decodableb B = true → decodable B.
Proof.
  intros Hb c b Hc Hp. unfold decodableb in Hb. rewrite forallb_forall in Hb.
  apply elem_of_map_to_list in Hc. specialize (Hb (c, b)). rewrite <- list_elem_of_In in Hb.
  specialize (Hb Hc). simpl in Hb. by rewrite Hp in Hb.
Qed.

(** ** Witnesses: a head with a live child, a previous version and a stray block *)
Import Reference.

Definition gc_cid (n : Z) : Cid := new_v1 DAG_CBOR (poly_digest Sha2_256 [n]).
Definition gc_head : bytes :=
  cbor (IMap [("child", ILink (gc_cid 1)); ("gone", ILink (gc_cid 9)); ("prev", ILink (gc_cid 2))])%string.
Definition gc_store : MemoryBlockStore :=
  mkMemoryBlockStore
    (<[gc_cid 0 := gc_head]> (<[gc_cid 1 := cbor INull]> (<[gc_cid 2 := cbor INull]>
      (<[gc_cid 3 := cbor INull]> ∅)))).

Lemma gc_store_decodable : decodable (contents gc_store).
Proof. apply decodableb_ok. vm_compute. reflexivity. Qed.

Lemma gc_exact_witness :
  ∃ (live : gset Cid) deleted k',
    collect 10 [gc_cid 0] false gc_store = (Ok (mkGcReport (size live) deleted), k')
    ∧ (∀ c, c ∈ live ↔ reach (contents gc_store) true [gc_cid 0] c)
    ∧ (∀ c b, contents k' !! c = Some b ↔ contents gc_store !! c = Some b ∧ c ∈ live)
    ∧ NoDup deleted ∧ (∀ c, c ∈ deleted ↔ is_Some (contents gc_store !! c) ∧ c ∉ live).
Proof.
  apply (gc_exact 10 [gc_cid 0] false gc_store gc_store_decodable).
  apply Nat.leb_le. vm_compute. reflexivity.
Defined.

(** [kept] is documented as the number of blocks retained; it also counts links to blocks that
    are not stored: here the report says three and two blocks are left. *)
Definition gc_run : outcome KError GcReport * MemoryBlockStore := collect 10 [gc_cid 0] false gc_store.
Example gc_kept_counts_dangling :
  (match gc_run.1 with Ok r => kept r | _ => 0 end = 3) ∧ size (contents gc_run.2) = 2.
Proof. split; vm_compute; reflexivity. Qed.

(** A raw block of ten bytes. *)
Definition raw_block : bytes := cbor_head 2 (2 ^ 64 - 1) ++ [0x78%Z].

Lemma gc_panics_on_raw_block_witness :
  let k := mkMemoryBlockStore {[gc_cid 5 := raw_block]} in
  collect 1 ([] ++ [gc_cid 5]) true k = (Panic, k).
Proof.
  apply (gc_panics_on_raw_block 0 true [] _ (gc_cid 5) (2 ^ 64 - 1) [0x78%Z]).
  - apply lookup_singleton_eq.
  - unfold isize_max. lia.
Defined.

(** Two writes, a flush and a third write. *)
Definition tiered_0 : TieredStore MemoryBlockStore := TieredStore_new gc_store.
Definition tiered_1 : TieredStore MemoryBlockStore := put (gc_cid 5) [2%Z] (put (gc_cid 4) [1%Z] tiered_0).
Definition tiered_2 : TieredStore MemoryBlockStore := put (gc_cid 6) [3%Z] (flush elements tiered_1).2.

Lemma tiered_loses_nothing_witness :
  tiered_inv tiered_2 ∧
  ∀ t', flush elements tiered_2 = (Ok tt, t') →
    blocks t' = blocks tiered_2 ∧
    ∀ c b, blocks tiered_2 !! c = Some b → contents (cold t') !! c = Some b.
Proof.
  apply (tiered_loses_nothing gc_store tiered_2 elements); [|done].
  eapply rtc_l; [apply (step_put (gc_cid 4) [1%Z])|].
  eapply rtc_l; [apply (step_put (gc_cid 5) [2%Z])|].
  eapply rtc_l; [eapply step_flush, surjective_pairing|].
  eapply rtc_l; [apply (step_put (gc_cid 6) [3%Z])|]. apply rtc_refl.
Defined.

Lemma hydrate_exact_witness :
  ∃ n t', hydrate 10 (gc_cid 0) tiered_0 = (Ok n, t') ∧ cold t' = cold tiered_0
    ∧ dirty t' = dirty tiered_0 ∧
    ∀ c b, blocks t' !! c = Some b ↔
      blocks tiered_0 !! c = Some b ∨
      blocks tiered_0 !! c = None ∧ contents (cold tiered_0) !! c = Some b ∧
      reach (contents (cold tiered_0) ∖ blocks tiered_0) false [gc_cid 0] c.
Proof.
  apply (hydrate_exact 10 (gc_cid 0) tiered_0 gc_store_decodable).
  apply Nat.leb_le. vm_compute. reflexivity.
Defined.

(** A root that is already hot stops the walk, although its child is only in the cold tier. *)
Example hydrate_stops_at_hot_root :
  let t := put (gc_cid 0) gc_head tiered_0 in
  (hydrate 10 (gc_cid 0) t).1 = Ok 0 ∧ has (hydrate 10 (gc_cid 0) t).2 (gc_cid 1) = false.
Proof. split; vm_compute; reflexivity. Qed.
