(* ===== verification/WantList.v ===== *)
(** * The want list: [crates/ipfrs-transport/src/want_list.rs]

    A priority queue of wanted blocks: a binary heap of versioned entries that is never
    searched, and the map [entries] that says which version of a CID's heap entry is live.
    Instants are nanoseconds on the monotonic clock, durations nanoseconds, priorities [i32]s;
    versions and retry counts wrap as in a release build.
    A method that reads the clock takes the reading as an argument; one that reads it once per
    entry takes a function from the entry's CID.  [ConcurrentWantList] takes a lock around
    each call of the same methods, so its behaviours are the sequences of these operations. *)

From Stdlib Require Import ZArith Lia List.
From stdpp Require Import base tactics numbers list gmap sets strings.
From S2P Require Import Prelude Collections Cid.

#[local] Open Scope Z_scope.

Record WantListConfig : Type := mkWantListConfig {
  max_wants : nat;
  default_timeout : Z;
  max_retries : Z;
  base_retry_delay : Z;
  max_retry_delay : Z;
}.

Definition WantListConfig_default : WantListConfig :=
  mkWantListConfig 1024 (secs 30) 3 (millis 100) (secs 10).

(** ** Priorities *)
Inductive Priority : Type := Low | Normal | High | Urgent | Critical.

Definition priority_i32 (p : Priority) : Z :=
  match p with Low => 0 | Normal => 50 | High => 100 | Urgent => 200 | Critical => 300 end.

Definition priority_from (v : Z) : Priority :=
  if 300 <=? v then Critical
  else if 200 <=? v then Urgent
  else if 100 <=? v then High
  else if 50 <=? v then Normal
  else Low.

Section want_list.
Context `{CidCrate}.

(** ** Entries *)
Record WantEntry : Type := mkWantEntry {
  we_cid : Cid;
  we_priority : Z;
  we_created_at : Z;
  we_expires_at : Z;
  we_retry_count : Z;
  we_last_attempt : option Z;
  we_send_dont_have : bool;
  we_deadline : option Z;
  we_tag : option string;
}.

Definition WantEntry_new (now : Z) (cid : Cid) (priority timeout : Z) : WantEntry :=
  mkWantEntry cid priority now (now + timeout) 0 None false None None.
Definition with_deadline (e : WantEntry) (deadline : Z) : WantEntry :=
  mkWantEntry (we_cid e) (we_priority e) (we_created_at e) (we_expires_at e) (we_retry_count e)
    (we_last_attempt e) (we_send_dont_have e) (Some deadline) (we_tag e).
Definition with_tag (e : WantEntry) (tag : string) : WantEntry :=
  mkWantEntry (we_cid e) (we_priority e) (we_created_at e) (we_expires_at e) (we_retry_count e)
    (we_last_attempt e) (we_send_dont_have e) (we_deadline e) (Some tag).
Definition with_dont_have (e : WantEntry) : WantEntry :=
  mkWantEntry (we_cid e) (we_priority e) (we_created_at e) (we_expires_at e) (we_retry_count e)
    (we_last_attempt e) true (we_deadline e) (we_tag e).
Definition with_priority (e : WantEntry) (priority : Z) : WantEntry :=
  mkWantEntry (we_cid e) priority (we_created_at e) (we_expires_at e) (we_retry_count e)
    (we_last_attempt e) (we_send_dont_have e) (we_deadline e) (we_tag e).
Definition with_attempt (e : WantEntry) (now : Z) : WantEntry :=
  mkWantEntry (we_cid e) (we_priority e) (we_created_at e) (we_expires_at e)
    (as_u32 (we_retry_count e + 1)) (Some now) (we_send_dont_have e) (we_deadline e) (we_tag e).

Definition is_expired (now : Z) (e : WantEntry) : bool := we_expires_at e <=? now.
Definition can_retry (e : WantEntry) (max_retries : Z) : bool := we_retry_count e <? max_retries.

Definition effective_priority (now : Z) (e : WantEntry) : Z :=
  let priority := we_priority e in
  match we_deadline e with
  | None => priority
  | Some deadline =>
    if deadline <=? now then Z.max priority (priority_i32 Critical)
    else
      let time_left := deadline - now in
      if time_left <? secs 1 then Z.max priority (priority_i32 Urgent)
      else if time_left <? secs 5 then Z.max priority (priority_i32 High)
      else priority
  end.

(** ** Heap entries *)
Record HeapEntry : Type := mkHeapEntry {
  he_cid : Cid;
  he_priority : Z;
  he_created_at : Z;
  he_version : Z;
}.

(** [Ord::cmp] is [Less] or [Equal]: a lower priority, or the same one and a later creation. *)
Definition he_leb (x y : HeapEntry) : bool :=
  (he_priority x <? he_priority y)
  || (he_priority x =? he_priority y) && (he_created_at y <=? he_created_at x).
Definition he_le (x y : HeapEntry) : Prop := he_leb x y = true.

Context `{!HashIter Cid} `{!BinaryHeap HeapEntry he_le}.

Record WantList : Type := mkWantList {
  heap : list HeapEntry;
  entries : gmap Cid (WantEntry * Z);
  version_counter : Z;
  config : WantListConfig;
}.

Definition WantList_new (config : WantListConfig) : WantList := mkWantList [] ∅ 0 config.
Definition with_defaults : WantList := WantList_new WantListConfig_default.

Definition contains (w : WantList) (cid : Cid) : bool := bool_decide (is_Some (entries w !! cid)).
Definition get (w : WantList) (cid : Cid) : option WantEntry := fst <$> entries w !! cid.
Definition len (w : WantList) : nat := size (entries w).
Definition is_empty (w : WantList) : bool := bool_decide (entries w = ∅).

(** [get_mut], as the change the caller makes through the reference. *)
Definition get_mut (w : WantList) (cid : Cid) (f : WantEntry → WantEntry) : WantList :=
  mkWantList (heap w) (alter (λ '(e, v), (f e, v)) cid (entries w)) (version_counter w) (config w).

Definition add (now : Z) (entry : WantEntry) (w : WantList) : bool * WantList :=
  if contains w (we_cid entry) then (false, w)
  else if Nat.leb (max_wants (config w)) (len w) then (false, w)
  else
    let cid := we_cid entry in
    let priority := effective_priority now entry in
    let version := as_u64 (version_counter w + 1) in
    (true, mkWantList (mkHeapEntry cid priority (we_created_at entry) version :: heap w)
                      (<[cid := (entry, version)]> (entries w)) version (config w)).

(** [created] is the reading in [WantEntry::new], [now] the one in [effective_priority]. *)
Definition add_simple (created now : Z) (cid : Cid) (priority : Z) (w : WantList) : bool * WantList :=
  add now (WantEntry_new created cid priority (default_timeout (config w))) w.

Definition remove (cid : Cid) (w : WantList) : option WantEntry * WantList :=
  (get w cid, mkWantList (heap w) (delete cid (entries w)) (version_counter w) (config w)).

Definition update_priority (cid : Cid) (new_priority : Z) (w : WantList) : bool * WantList :=
  match entries w !! cid with
  | Some (entry, _) =>
    let version := as_u64 (version_counter w + 1) in
    (true, mkWantList (mkHeapEntry cid new_priority (we_created_at entry) version :: heap w)
                      (<[cid := (with_priority entry new_priority, version)]> (entries w))
                      version (config w))
  | None => (false, w)
  end.

(** [update_priority] for each pair of a list, counting the successes. *)
Fixpoint update_priorities_batch (updates : list (Cid * Z)) (w : WantList) : nat * WantList :=
  match updates with
  | [] => (0%nat, w)
  | (cid, priority) :: updates' =>
    let '(ok, w) := update_priority cid priority w in
    let '(n, w) := update_priorities_batch updates' w in
    (if ok then S n else n, w)
  end.

(** The updates one entry contributes: [now] is read before the loop, [clock] inside. *)
Definition boost_entry (now : Z) (clock : Cid → Z) (p : Cid * (WantEntry * Z)) : list (Cid * Z) :=
  let '(cid, (entry, _)) := p in
  match we_deadline entry with
  | None => []
  | Some deadline =>
    let effective := effective_priority (clock cid) entry in
    (if we_priority entry <? effective then [(cid, effective)] else []) ++
    (if (deadline <=? now) && (we_priority entry <? priority_i32 Critical)
     then [(cid, priority_i32 Critical)] else [])
  end.

Definition boost_deadline_priorities (now : Z) (clock : Cid → Z) (w : WantList) : WantList :=
  let updates := hash_iter (entries w) ≫= boost_entry now clock in
  (update_priorities_batch updates w).2.

(** The loop of [pop]: every round takes one element off the heap. *)
Fixpoint pop_loop (fuel : nat) (w : WantList) : option (option WantEntry * WantList) :=
  match heap_pop (heap w) with
  | None => Some (None, w)
  | Some (heap_entry, heap') =>
    match fuel with
    | O => None
    | S fuel' =>
      let w' := mkWantList heap' (entries w) (version_counter w) (config w) in
      let cid := he_cid heap_entry in
      match entries w !! cid with
      | Some (_, version) =>
        if version =? he_version heap_entry then Some (remove cid w') else pop_loop fuel' w'
      | None => pop_loop fuel' w'
      end
    end
  end.

Definition pop (w : WantList) : option (option WantEntry * WantList) :=
  pop_loop (length (heap w)) w.

(** [Iterator::max_by_key]: the last of the greatest elements. *)
Definition max_by_key {A} (key : A → Z) (l : list A) : option A :=
  fold_left (λ best x, match best with
                       | Some y => if key x <? key y then best else Some x
                       | None => Some x
                       end) l None.

(** The clock is read at each comparison; the readings of one call are taken to be equal. *)
Definition peek (now : Z) (w : WantList) : option WantEntry :=
  max_by_key (effective_priority now) ((λ p, p.2.1) <$> hash_iter (entries w)).

Fixpoint remove_batch (cids : list Cid) (w : WantList) : list WantEntry * WantList :=
  match cids with
  | [] => ([], w)
  | cid :: cids' =>
    let '(r, w) := remove cid w in
    let '(removed, w) := remove_batch cids' w in
    (match r with Some e => e :: removed | None => removed end, w)
  end.

Definition cleanup_expired (clock : Cid → Z) (w : WantList) : list WantEntry * WantList :=
  let cids_to_remove :=
    (filter (λ p, is_expired (clock p.1) p.2.1 = true) (hash_iter (entries w))).*1 in
  remove_batch cids_to_remove w.

Definition get_retry_candidates (w : WantList) : list Cid :=
  (filter (λ p, can_retry p.2.1 (max_retries (config w)) && bool_decide (is_Some (we_last_attempt p.2.1)) = true)
     (hash_iter (entries w))).*1.

Definition mark_attempted (now : Z) (cid : Cid) (w : WantList) : WantList :=
  get_mut w cid (λ e, with_attempt e now).

(** [now] is the system time in nanoseconds since the epoch, as an [i64]. *)
Definition retry_delay (now : Z) (w : WantList) (retry_count : Z) : Z :=
  let base := as_u64 (as_millis (base_retry_delay (config w))) in
  let max := as_u64 (as_millis (max_retry_delay (config w))) in
  let delay_ms := u64_saturating_mul base (Z.shiftl 1 (Z.min retry_count 10)) in
  let delay_ms := Z.min delay_ms max in
  let jitter := as_i64 (delay_ms / 10) in
  let jitter_offset := if 0 <? jitter then Z.rem now (jitter * 2) - jitter else 0 in
  millis (as_u64 (Z.max (as_i64 delay_ms + jitter_offset) 0)).

Definition cids (w : WantList) : list Cid := (hash_iter (entries w)).*1.

(** [sort_by_key] is stable: an element goes behind the ones with the same key. *)
Fixpoint sort_insert {A} (key : A → Z) (x : A) (l : list A) : list A :=
  match l with
  | [] => [x]
  | y :: l' => if key x <=? key y then x :: l else y :: sort_insert key x l'
  end.
Definition sort_by_key {A} (key : A → Z) (l : list A) : list A := foldr (sort_insert key) [] l.

Definition entries_by_priority (now : Z) (w : WantList) : list WantEntry :=
  sort_by_key (λ e, - effective_priority now e) ((λ p, p.2.1) <$> hash_iter (entries w)).

Definition entries_with_tag (w : WantList) (tag : string) : list WantEntry :=
  filter (λ e, we_tag e = Some tag) ((λ p, p.2.1) <$> hash_iter (entries w)).

Definition clear (w : WantList) : WantList := mkWantList [] ∅ (version_counter w) (config w).

(** ** Batches *)
Fixpoint add_batch (clock : Cid → Z * Z) (l : list (Cid * Z)) (w : WantList) : nat * WantList :=
  match l with
  | [] => (0%nat, w)
  | (cid, priority) :: l' =>
    let '(ok, w) := add_simple (clock cid).1 (clock cid).2 cid priority w in
    let '(n, w) := add_batch clock l' w in
    (if ok then S n else n, w)
  end.

Definition add_batch_same_priority (clock : Cid → Z * Z) (l : list Cid) (priority : Z)
    (w : WantList) : nat * WantList :=
  add_batch clock ((λ cid, (cid, priority)) <$> l) w.

Definition contains_any (w : WantList) (l : list Cid) : bool := existsb (contains w) l.
Definition contains_all (w : WantList) (l : list Cid) : bool := forallb (contains w) l.
Definition get_batch (w : WantList) (l : list Cid) : list WantEntry := omap (get w) l.
End want_list.
