(* ===== verification/WantListFacts.v ===== *)
(** * The want list pops wants by priority *)

From Stdlib Require Import ZArith Lia List Sorted.
From stdpp Require Import base tactics numbers list gmap sets strings fin_maps relations.
From S2P Require Import Prelude Collections Cid WantList.

#[local] Open Scope Z_scope.

Section facts.
Context `{CidCrate} `{!HashIter Cid} `{!BinaryHeap HeapEntry he_le}.
Implicit Types (w : WantList) (e : WantEntry) (h : HeapEntry) (c : Cid).

(** ** The invariant

    A heap entry is live when its version is the one the map records for its CID.  Every want
    has a live heap entry with its creation time, no two heap entries have the same version,
    versions come from the counter, and the capacity is respected. *)
Definition live w h : Prop :=
  h ∈ heap w ∧ ∃ e, entries w !! he_cid h = Some (e, he_version h).

Record wl_inv w : Prop := {
  inv_entry : ∀ c e v, entries w !! c = Some (e, v) →
    we_cid e = c ∧ ∃ p, mkHeapEntry c p (we_created_at e) v ∈ heap w;
  inv_versions : NoDup (he_version <$> heap w);
  inv_counter : 0 ≤ version_counter w ∧ ∀ h, h ∈ heap w → he_version h ≤ version_counter w;
  inv_capacity : (size (entries w) ≤ max_wants (config w))%nat;
}.

Lemma version_inj w h1 h2 :
  wl_inv w → h1 ∈ heap w → h2 ∈ heap w → he_version h1 = he_version h2 → h1 = h2.
Proof.
  intros Hinv Hin1 Hin2 Hv. apply list_elem_of_lookup in Hin1 as [i Hi], Hin2 as [j Hj].
  assert (i = j) as ->; [|congruence].
  eapply (NoDup_lookup _ i j (he_version h1) (inv_versions _ Hinv));
    rewrite list_lookup_fmap; [by rewrite Hi|by rewrite Hj, Hv].
Qed.

Lemma live_unique w h1 h2 : wl_inv w → live w h1 → live w h2 → he_cid h1 = he_cid h2 → h1 = h2.
Proof.
  intros Hinv [Hin1 [e1 He1]] [Hin2 [e2 He2]] Hc. rewrite Hc in He1.
  eapply version_inj; try done. congruence.
Qed.

Lemma inv_live w c e v : wl_inv w → entries w !! c = Some (e, v) →
  ∃ h, live w h ∧ he_cid h = c ∧ he_version h = v ∧ he_created_at h = we_created_at e.
Proof.
  intros Hinv He. destruct (inv_entry _ Hinv c e v He) as [_ [p Hp]].
  eexists. split_and!; [split; [exact Hp|simpl; eauto]|done..].
Qed.

Lemma new_inv cfg : wl_inv (WantList_new cfg).
Proof. split; simpl; [by intros ??? ?%lookup_empty_Some|constructor|split; [done|set_solver]|rewrite map_size_empty; lia]. Qed.

(** Pushing a heap entry with a fresh version and recording it. *)
Lemma push_inv w c e p :
  wl_inv w → we_cid e = c → version_counter w + 1 < 2 ^ 64 →
  (is_Some (entries w !! c) ∨ size (entries w) < max_wants (config w))%nat →
  let v := as_u64 (version_counter w + 1) in
  wl_inv (mkWantList (mkHeapEntry c p (we_created_at e) v :: heap w) (<[c := (e, v)]> (entries w)) v (config w))
  ∧ v = version_counter w + 1.
Proof.
  intros [He Hv [Hc0 Hc] Hn] Hce Hroom Hcap v. assert (v = version_counter w + 1) as Hv1 by (apply as_u64_small; lia).
  split; [|done]. rewrite Hv1. clear v Hv1. split; simpl.
  - intros c' e' v' [[<- [= <- <-]]|[Hne Hc']]%lookup_insert_Some.
    + split; [done|]. eexists. by left.
    + destruct (He _ _ _ Hc') as [? [p' Hp']]. split; [done|]. exists p'. by right.
  - constructor; [|done]. intros (h & Hh & Hin)%list_elem_of_fmap. apply Hc in Hin. lia.
  - split; [lia|]. intros h [->|Hin]%elem_of_cons; simpl; [lia|]. apply Hc in Hin. lia.
  - destruct (decide (is_Some (entries w !! c))).
    + by rewrite map_size_insert_Some.
    + rewrite map_size_insert_None by by apply eq_None_not_Some. destruct Hcap; [done|lia].
Qed.

(** An operation keeps the invariant and draws at most [k] versions, as long as the counter has room. *)
Definition draws (k : nat) w w' : Prop :=
  wl_inv w → version_counter w + Z.of_nat k < 2 ^ 64 → wl_inv w' ∧ version_counter w' ≤ version_counter w + Z.of_nat k.

Lemma add_inv now e w : draws 1 w (add now e w).2.
Proof.
  intros Hinv Hk. unfold add. destruct (contains w (we_cid e)); [split; [done|simpl; lia]|].
  destruct (Nat.leb_spec (max_wants (config w)) (len w)); [split; [done|simpl; lia]|].
  destruct (push_inv w (we_cid e) e (effective_priority now e) Hinv) as [Hp Hv]; [done|lia|by right|].
  split; [exact Hp|]. simpl. lia.
Qed.

Lemma update_priority_inv c p w : draws 1 w (update_priority c p w).2.
Proof.
  intros Hinv Hk. unfold update_priority. destruct (entries w !! c) as [[e v]|] eqn:He; [|split; [done|simpl; lia]].
  destruct (push_inv w c (with_priority e p) p Hinv) as [Hp Hv]; [by destruct (inv_entry _ Hinv _ _ _ He)|lia|left; eauto|].
  split; [exact Hp|]. simpl. lia.
Qed.

Lemma update_priorities_batch_inv l w : draws (length l) w (update_priorities_batch l w).2.
Proof.
  revert w. induction l as [|[c p] l IH]; intros w Hinv Hk; cbn [length update_priorities_batch] in *; [split; [done|simpl; lia]|].
  destruct (update_priority_inv c p w Hinv) as [Hu Hv]; [lia|]. destruct (update_priority c p w) as [ok w1]. simpl in Hu, Hv.
  destruct (IH w1 Hu) as [H1 H2]; [lia|]. destruct (update_priorities_batch l w1). simpl in *. split; [done|lia].
Qed.

Lemma boost_entry_length now clock (l : list (Cid * (WantEntry * Z))) :
  (length (l ≫= boost_entry now clock) ≤ 2 * length l)%nat.
Proof.
  induction l as [|[c [e v]] l IH]; [simpl; lia|]. rewrite bind_cons, length_app. cbn [length].
  assert (length (boost_entry now clock (c, (e, v))) ≤ 2)%nat; [|lia].
  unfold boost_entry. destruct (we_deadline e); [|simpl; lia]. rewrite length_app. repeat case_match; simpl; lia.
Qed.
Lemma boost_inv now clock w : draws (2 * len w) w (boost_deadline_priorities now clock w).
Proof.
  intros Hinv Hk. unfold boost_deadline_priorities.
  pose proof (boost_entry_length now clock (hash_iter (entries w))) as Hl. rewrite length_hash_iter in Hl. fold (len w) in Hl.
  destruct (update_priorities_batch_inv (hash_iter (entries w) ≫= boost_entry now clock) w Hinv) as [H1 H2]; [lia|].
  split; [done|lia].
Qed.

Lemma remove_inv c w : wl_inv w → wl_inv (remove c w).2.
Proof.
  intros [He Hv Hc Hn]. split; simpl; try done.
  - intros c' e v [_ Hc']%lookup_delete_Some. by apply He.
  - etrans; [|exact Hn]. apply map_subseteq_size, delete_subseteq.
Qed.

Lemma remove_batch_inv l w : wl_inv w → wl_inv (remove_batch l w).2.
Proof.
  revert w. induction l as [|c l IH]; intros w Hinv; cbn [remove_batch]; [done|].
  pose proof (remove_inv c w Hinv) as Hr. destruct (remove c w) as [ok w1].
  specialize (IH w1 Hr). by destruct (remove_batch l w1).
Qed.

Lemma get_mut_inv c f w :
  (∀ e, we_cid (f e) = we_cid e ∧ we_created_at (f e) = we_created_at e) →
  wl_inv w → wl_inv (get_mut w c f).
Proof.
  intros Hf [He Hv Hc Hn]. split; simpl; try done.
  - intros c' e v. destruct (decide (c' = c)) as [->|Hne].
    + rewrite lookup_alter_eq. intros ([e0 v0] & Hc0 & Heq)%fmap_Some.
      injection Heq as -> ->. destruct (Hf e0) as [Hf1 Hf2]. rewrite Hf1, Hf2. by apply He.
    + rewrite lookup_alter_ne by done. apply He.
  - by rewrite <- size_dom, dom_alter_L, size_dom.
Qed.

(** ** [pop] *)

(** Taking a stale heap entry away changes nothing. *)
Lemma drop_stale w h heap' :
  wl_inv w → heap w ≡ₚ h :: heap' → ¬ live w h →
  let w' := mkWantList heap' (entries w) (version_counter w) (config w) in
  wl_inv w' ∧ ∀ h', live w' h' ↔ live w h'.
Proof.
  intros [He Hv Hc Hn] Hp Hstale. split.
  - split; simpl; [|rewrite Hp in Hv; by apply NoDup_cons in Hv as [_ ?]| |done].
    + intros c e v Hce. destruct (He _ _ _ Hce) as [Hec [p Hin]]. split; [done|]. exists p.
      rewrite Hp in Hin. apply elem_of_cons in Hin as [Heq|]; [|done].
      destruct Hstale. split; [rewrite Hp; left|exists e; by rewrite <- Heq].
    + split; [apply Hc|]. intros h' Hh'. apply Hc. rewrite Hp. by right.
  - intros h'. unfold live. simpl. rewrite Hp, elem_of_cons. split; [tauto|].
    intros [[->|?] ?]; [|done]. destruct Hstale. split; [rewrite Hp; left|done].
Qed.

Lemma empty_heap w : wl_inv w → heap w = [] → entries w = ∅.
Proof.
  intros Hinv Hh. apply map_empty. intros c. apply eq_None_not_Some. intros [[e v] He].
  destruct (inv_entry _ Hinv _ _ _ He) as [_ [p Hin]]. rewrite Hh in Hin. by apply elem_of_nil in Hin.
Qed.

Lemma pop_loop_spec fuel w :
  wl_inv w → (length (heap w) ≤ fuel)%nat →
  ∃ r w', pop_loop fuel w = Some (r, w') ∧ wl_inv w' ∧
    match r with
    | None => entries w = ∅ ∧ entries w' = ∅
    | Some e => ∃ h, live w h ∧ (∀ h', live w h' → he_le h' h)
        ∧ entries w !! he_cid h = Some (e, he_version h)
        ∧ entries w' = delete (he_cid h) (entries w)
        ∧ ∀ h', live w' h' ↔ live w h' ∧ h' ≠ h
    end.
Proof.
  revert w. induction fuel as [|fuel IH]; intros w Hinv Hlen; cbn [pop_loop];
    destruct (heap_pop (heap w)) as [[h heap']|] eqn:Hpop.
  1: apply heap_pop_Some in Hpop as [Hp _]; rewrite Hp in Hlen; simpl in Hlen; lia.
  1,3: apply heap_pop_None, (empty_heap w Hinv) in Hpop; exists None, w; by split_and!.
  apply heap_pop_Some in Hpop as [Hp Hmax].
  assert ((∃ e, entries w !! he_cid h = Some (e, he_version h)) ∨
          ¬ ∃ e, entries w !! he_cid h = Some (e, he_version h)) as [[e He]|Hno].
  { destruct (entries w !! he_cid h) as [[e v]|]; [|right; by intros [? ?]].
    destruct (decide (v = he_version h)) as [->|]; [left; eauto|right; intros [? ?]; congruence]. }
  - rewrite He, Z.eqb_refl. exists (Some e). eexists. split; [by unfold remove, get; simpl; rewrite He|].
    assert (live w h) as Hlive by (split; [rewrite Hp; left|eauto]).
    split.
    + destruct Hinv as [Hent Hv Hc Hn]. split; simpl.
      * intros c' e' v' [Hne Hc']%lookup_delete_Some. destruct (Hent _ _ _ Hc') as [? [p Hin]].
        split; [done|]. exists p. rewrite Hp in Hin. apply elem_of_cons in Hin as [Heq|]; [|done].
        subst h. by destruct Hne.
      * rewrite Hp in Hv. by apply NoDup_cons in Hv as [_ ?].
      * split; [apply Hc|]. intros h' Hh'. apply Hc. rewrite Hp. by right.
      * etrans; [|exact Hn]. apply map_subseteq_size, delete_subseteq.
    + exists h. split_and!; try done; [intros h' [? _]; by apply Hmax|].
      intros h'. unfold live at 1. simpl. split.
      * intros [Hin [e' He']]. apply lookup_delete_Some in He' as [Hne He'].
        split; [split; [rewrite Hp; by right|eauto]|]. by intros ->.
      * intros [Hl Hne]. pose proof Hl as [Hin [e' He']].
        rewrite Hp in Hin. apply elem_of_cons in Hin as [|Hin]; [done|]. split; [done|].
        exists e'. rewrite lookup_delete_ne; [done|]. intros Hc. apply Hne.
        by eapply live_unique.
  - assert (¬ live w h) as Hstale by (intros [_ ?]; done).
    destruct (drop_stale w h heap' Hinv Hp Hstale) as [Hinv' Hlive].
    destruct (IH (mkWantList heap' (entries w) (version_counter w) (config w)))
      as (r & w' & Hrun & Hinv'' & Hr); [done|simpl; rewrite Hp in Hlen; simpl in Hlen; lia|].
    exists r, w'. split_and!; [|done|].
    + destruct (entries w !! he_cid h) as [[e v]|] eqn:He; [|done].
      destruct (Z.eqb_spec v (he_version h)) as [->|]; [|done]. destruct Hno. eauto.
    + destruct r as [e|]; [|done]. destruct Hr as (h1 & Hl1 & Hmax1 & He1 & Hdel & Hl1').
      exists h1. split_and!; try done; [by apply Hlive|intros h' Hh'; by apply Hmax1, Hlive|].
      intros h'. by rewrite Hl1', Hlive.
Qed.

Lemma pop_spec w : wl_inv w →
  ∃ r w', pop w = Some (r, w') ∧ wl_inv w' ∧
    match r with
    | None => entries w = ∅ ∧ entries w' = ∅
    | Some e => ∃ h, live w h ∧ (∀ h', live w h' → he_le h' h)
        ∧ entries w !! he_cid h = Some (e, he_version h)
        ∧ entries w' = delete (he_cid h) (entries w)
        ∧ ∀ h', live w' h' ↔ live w h' ∧ h' ≠ h
    end.
Proof. intros. by apply pop_loop_spec. Qed.

(** ** Everything a program can do with a want list

    Each step with the number of versions it draws, at most. *)
Inductive wl_step : nat → WantList → WantList → Prop :=
| step_add now e w : wl_step 1 w (add now e w).2
| step_remove c w : wl_step 0 w (remove c w).2
| step_update c p w : wl_step 1 w (update_priority c p w).2
| step_boost now clock w : wl_step (2 * len w) w (boost_deadline_priorities now clock w)
| step_pop w r w' : pop w = Some (r, w') → wl_step 0 w w'
| step_cleanup clock w : wl_step 0 w (cleanup_expired clock w).2
| step_clear w : wl_step 0 w (clear w)
| step_get_mut c f w :
    (∀ e, we_cid (f e) = we_cid e ∧ we_created_at (f e) = we_created_at e) →
    wl_step 0 w (get_mut w c f).
(** Lists that [n] drawn versions, at most, lead to from a new one. *)
Inductive wl_run (cfg : WantListConfig) : nat → WantList → Prop :=
| run_new : wl_run cfg 0 (WantList_new cfg)
| run_step n k w w' : wl_run cfg n w → wl_step k w w' → wl_run cfg (k + n) w'.

Lemma remove_batch_counter l w : version_counter (remove_batch l w).2 = version_counter w.
Proof.
  revert w. induction l as [|c l IH]; intros w; cbn [remove_batch]; [done|]. unfold remove at 1.
  match goal with |- context [remove_batch l ?w1] => specialize (IH w1); destruct (remove_batch l w1) end. exact IH.
Qed.
Lemma pop_loop_counter fuel w r w' : pop_loop fuel w = Some (r, w') →
  version_counter w' = version_counter w ∧ entries w' ⊆ entries w.
Proof.
  revert w. induction fuel as [|fuel IH]; intros w; cbn [pop_loop]; destruct (heap_pop (heap w)) as [[h heap']|];
    try done; try (by intros [= <- <-]).
  intros Hrun. assert (∀ w1, version_counter w1 = version_counter w → entries w1 = entries w →
    pop_loop fuel w1 = Some (r, w') → version_counter w' = version_counter w ∧ entries w' ⊆ entries w) as Hnext.
  { intros w1 <- <-. apply IH. }
  destruct (entries w !! he_cid h) as [[e v]|]; [|by apply Hnext in Hrun].
  destruct (v =? he_version h); [|by apply Hnext in Hrun]. unfold remove in Hrun. injection Hrun as _ <-. simpl.
  split; [done|apply delete_subseteq].
Qed.

Lemma wl_step_inv k w w' : wl_step k w w' → draws k w w'.
Proof.
  destruct 1 as [now e w|c w|c p w|now clock w|w r w' Hpop|clock w|w|c f w Hf].
  - apply add_inv.
  - intros Hinv _. split; [by apply remove_inv|simpl; lia].
  - apply update_priority_inv.
  - apply boost_inv.
  - intros Hinv _. destruct (pop_spec w Hinv) as (? & ? & Heq & Hinv' & _). rewrite Hpop in Heq; simplify_eq.
    split; [done|]. apply pop_loop_counter in Hpop as [-> _]. lia.
  - intros Hinv _. split; [by apply remove_batch_inv|]. unfold cleanup_expired. rewrite remove_batch_counter. lia.
  - intros [_ _ [Hc _] _] _. split; [|simpl; lia].
    split; simpl; [by intros ??? ?%lookup_empty_Some|constructor|split; [done|set_solver]|rewrite map_size_empty; lia].
  - intros Hinv _. split; [by apply get_mut_inv|simpl; lia].
Qed.

Lemma wl_run_inv cfg n w : wl_run cfg n w → Z.of_nat n < 2 ^ 64 → wl_inv w ∧ version_counter w ≤ Z.of_nat n.
Proof.
  induction 1 as [|n k w w' _ IH Hs]; intros Hn; [split; [apply new_inv|done]|].
  destruct IH as [Hinv Hv]; [lia|]. destruct (wl_step_inv k w w' Hs Hinv) as [Hinv' Hv']; [lia|]. split; [done|lia].
Qed.

(** Each want is recorded under its own CID, however many versions were drawn. *)
Definition wl_named w : Prop := ∀ c e v, entries w !! c = Some (e, v) → we_cid e = c.
Lemma remove_batch_named l w : wl_named w → wl_named (remove_batch l w).2.
Proof.
  revert w. induction l as [|c l IH]; intros w Hw; cbn [remove_batch]; [done|]. unfold remove at 1.
  match goal with |- context [remove_batch l ?w1] => specialize (IH w1); destruct (remove_batch l w1) end. apply IH.
  intros c' e v. simpl. intros [_ Hc']%lookup_delete_Some. by eapply Hw.
Qed.
Lemma update_priority_named c p w : wl_named w → wl_named (update_priority c p w).2.
Proof.
  intros Hw. unfold update_priority. destruct (entries w !! c) as [[e v]|] eqn:He; [|done].
  intros c' e' v'. simpl. intros [[<- [= <- <-]]|[_ Hc']]%lookup_insert_Some; [by apply (Hw c e v)|by eapply Hw].
Qed.
Lemma update_priorities_batch_named l w : wl_named w → wl_named (update_priorities_batch l w).2.
Proof.
  revert w. induction l as [|[c p] l IH]; intros w Hw; cbn [update_priorities_batch]; [done|].
  pose proof (update_priority_named c p w Hw) as Hu. destruct (update_priority c p w) as [ok w1].
  specialize (IH w1 Hu). by destruct (update_priorities_batch l w1).
Qed.
Lemma wl_step_named k w w' : wl_step k w w' → wl_named w → wl_named w'.
Proof.
  destruct 1 as [now e w|c w|c p w|now clock w|w r w' Hpop|clock w|w|c f w Hf]; intros Hw.
  - unfold add. destruct (contains _ _); [done|]. destruct (_ <=? _)%nat; [done|].
    intros c' e' v'. simpl. intros [[<- [= <- <-]]|[_ Hc']]%lookup_insert_Some; [done|by eapply Hw].
  - intros c' e v. simpl. intros [_ Hc']%lookup_delete_Some. by eapply Hw.
  - by apply update_priority_named.
  - by apply update_priorities_batch_named.
  - apply pop_loop_counter in Hpop as [_ Hsub]. intros c e v Hc. eapply Hw, lookup_weaken; done.
  - by apply remove_batch_named.
  - intros c e v. simpl. by intros ?%lookup_empty_Some.
  - intros c' e v. simpl. destruct (decide (c' = c)) as [->|Hne].
    + rewrite lookup_alter_eq. intros ([e0 v0] & Hc0 & Heq)%fmap_Some. injection Heq as -> ->.
      rewrite (proj1 (Hf e0)). by eapply Hw.
    + rewrite lookup_alter_ne by done. by eapply Hw.
Qed.

(** ** Draining *)
Fixpoint drain (n : nat) w : list WantEntry * WantList :=
  match n with
  | O => ([], w)
  | S n' =>
    match pop w with
    | Some (Some e, w') => let '(l, w'') := drain n' w' in (e :: l, w'')
    | Some (None, w') => ([], w')
    | None => ([], w)
    end
  end.

Lemma drain_spec n w : wl_inv w → size (entries w) = n →
  ∃ hs, StronglySorted (λ h1 h2, he_le h2 h1) hs ∧ (∀ h, h ∈ hs ↔ live w h)
    ∧ Forall2 (λ h e, entries w !! he_cid h = Some (e, he_version h)) hs (drain n w).1
    ∧ entries (drain n w).2 = ∅.
Proof.
  revert w. induction n as [|n IH]; intros w Hinv Hn; cbn [drain].
  - apply map_size_empty_inv in Hn as Hemp. exists []. split_and!; try constructor; try done.
    + by intros ?%elem_of_nil.
    + intros [_ [e He]]. by rewrite Hemp, lookup_empty in He.
  - destruct (pop_spec w Hinv) as (r & w' & -> & Hinv' & Hr). destruct r as [e|].
    2:{ destruct Hr as [Hr _]. by rewrite Hr, map_size_empty in Hn. }
    destruct Hr as (h & Hlive & Hmax & He & Hdel & Hl).
    assert (size (entries w') = n) as Hn'.
    { rewrite Hdel, map_size_delete_Some by eauto. lia. }
    destruct (IH w' Hinv' Hn') as (hs & Hsort & Hhs & Hall & Hend).
    destruct (drain n w') as [l w''] eqn:Hd. simpl in *. exists (h :: hs). split_and!; try done.
    + constructor; [done|]. apply Forall_forall. intros h' Hh'. apply Hmax. by apply Hl, Hhs.
    + intros h'. rewrite elem_of_cons, Hhs, Hl. split; [intros [->|[? _]]; done|].
      intros Hh'. destruct (decide (he_version h' = he_version h)) as [Heq|Hne].
      * left. exact (version_inj w h' h Hinv (proj1 Hh') (proj1 Hlive) Heq).
      * right. split; [done|]. by intros ->.
    + constructor; [done|]. eapply Forall2_impl; [exact Hall|]. intros h1 e1.
      rewrite Hdel. intros [_ ?]%lookup_delete_Some. done.
Qed.

(** ** Deadlines *)
Definition apply_updates c (l : list (Cid * Z)) e : WantEntry :=
  fold_left (λ e u, if decide (u.1 = c) then with_priority e u.2 else e) l e.

Lemma batch_entries l w c :
  get (update_priorities_batch l w).2 c = apply_updates c l <$> get w c.
Proof.
  revert w. induction l as [|[c' p] l IH]; intros w; cbn [update_priorities_batch].
  { simpl. unfold apply_updates. simpl. by destruct (get w c). }
  destruct (update_priority c' p w) as [ok w1] eqn:Hu. specialize (IH w1).
  destruct (update_priorities_batch l w1) as [n w2]. simpl in *. rewrite IH.
  unfold update_priority in Hu. unfold apply_updates, get. simpl.
  destruct (entries w !! c') as [[e v]|] eqn:He; injection Hu as _ <-; simpl.
  - destruct (decide (c' = c)) as [->|Hne].
    + by rewrite lookup_insert_eq, He.
    + by rewrite lookup_insert_ne.
  - destruct (decide (c' = c)) as [->|Hne]; [by rewrite He|done].
Qed.

Lemma boost_entry_other now clock c x l e :
  x.1 ≠ c → apply_updates c (boost_entry now clock x ++ l) e = apply_updates c l e.
Proof.
  intros Hne. unfold apply_updates. rewrite fold_left_app. f_equal. destruct x as [c' [e' v']].
  simpl in *. destruct (we_deadline e'); [|done].
  repeat case_match; simpl; by rewrite ?decide_False by done.
Qed.

Lemma boost_entries_absent now clock (l : list (Cid * (WantEntry * Z))) c e :
  c ∉ l.*1 → apply_updates c (l ≫= boost_entry now clock) e = e.
Proof.
  induction l as [|x l IH]; intros Hx; [done|]. rewrite bind_cons.
  rewrite fmap_cons in Hx. apply not_elem_of_cons in Hx as [Hx Hl].
  rewrite boost_entry_other by done. by apply IH.
Qed.

Lemma boost_entries now clock (l : list (Cid * (WantEntry * Z))) c e v e0 :
  NoDup l.*1 → (c, (e, v)) ∈ l →
  apply_updates c (l ≫= boost_entry now clock) e0 = apply_updates c (boost_entry now clock (c, (e, v))) e0.
Proof.
  induction l as [|x l IH]; intros Hnd Hin; [by apply elem_of_nil in Hin|].
  rewrite bind_cons. rewrite fmap_cons in Hnd. apply NoDup_cons in Hnd as [Hx Hnd].
  apply elem_of_cons in Hin as [<-|Hin].
  - unfold apply_updates at 1. rewrite fold_left_app. by apply boost_entries_absent.
  - rewrite boost_entry_other; [by apply IH|]. intros Heq. apply Hx. rewrite Heq.
    apply list_elem_of_fmap. by exists (c, (e, v)).
Qed.

Lemma boost_one now clock c e v :
  now ≤ clock c →
  apply_updates c (boost_entry now clock (c, (e, v))) e
    = with_priority e (effective_priority (clock c) e).
Proof.
  intros Hclock. unfold boost_entry, effective_priority, apply_updates.
  assert (∀ p, we_priority e = p → e = with_priority e p) as Hid by (intros ? <-; by destruct e).
  destruct (we_deadline e) as [d|]; simpl; [|by apply Hid].
  destruct (Z.leb_spec d (clock c)); destruct (Z.leb_spec d now); try lia;
    repeat match goal with |- context [?a <? ?b] => destruct (Z.ltb_spec a b) end;
    simpl in *; rewrite ?decide_True by done; simpl; try lia;
    try (apply Hid; lia); try done;
    unfold with_priority; simpl; f_equal; lia.
Qed.
End facts.

(** ** Properties *)
Section properties.
Context `{CidCrate} `{!HashIter Cid} `{!BinaryHeap HeapEntry he_le}.
Implicit Types (w : WantList) (e : WantEntry) (h : HeapEntry) (c : Cid).

(** C28. Lazy deletion is sound: whatever sequence of operations (deadline boosts, retries,
    expiry and changes through [get_mut] included) led to a want list, as long as fewer than [2 ^ 64]
    versions were drawn (one by an addition or an update, at most two per want by a boost; the counter
    is a [u64] that wraps), every want has exactly one live heap entry, with its creation time; versions
    never collide; the capacity is respected; and [pop] finds a want whenever there is one. *)
Theorem want_list_invariant cfg n w (Hrun : wl_run cfg n w) (Hn : Z.of_nat n < 2 ^ 64) :
  (∀ c e v, entries w !! c = Some (e, v) →
     we_cid e = c ∧ ∃ h, live w h ∧ he_cid h = c ∧ he_created_at h = we_created_at e
                        ∧ ∀ h', live w h' → he_cid h' = c → h' = h) ∧
  NoDup (he_version <$> heap w) ∧
  (len w ≤ max_wants (config w))%nat ∧
  (∃ r w', pop w = Some (r, w') ∧ (r = None ↔ entries w = ∅)).
Proof.
  destruct (wl_run_inv cfg n w Hrun Hn) as [Hinv _]. split_and!.
  - intros c e v He. split; [by destruct (inv_entry _ Hinv _ _ _ He)|].
    destruct (inv_live w c e v Hinv He) as (h & Hl & Hc & _ & Ht). exists h. split_and!; try done.
    intros h' Hl' Hc'. eapply live_unique; [done..|congruence].
  - by apply inv_versions.
  - by apply inv_capacity.
  - destruct (pop_spec w Hinv) as (r & w' & Hpop & _ & Hr). exists r, w'. split; [done|].
    destruct r as [e|]; [|tauto]. split; [done|]. intros Hemp.
    destruct Hr as (h & _ & _ & He & _). by rewrite Hemp, lookup_empty in He.
Qed.

(** Popping until the list is empty returns every want exactly once, in the order of the
    heap: higher recorded priority first and, among equal priorities, earlier creation
    first. *)
Theorem want_list_drains_by_priority cfg n w (Hrun : wl_run cfg n w) (Hn : Z.of_nat n < 2 ^ 64) :
  ∃ hs, StronglySorted (λ h1 h2, he_le h2 h1) hs
    ∧ (∀ h, h ∈ hs ↔ live w h)
    ∧ Forall2 (λ h e, entries w !! he_cid h = Some (e, he_version h)) hs (drain (len w) w).1
    ∧ entries (drain (len w) w).2 = ∅.
Proof. destruct (wl_run_inv cfg n w Hrun Hn) as [Hinv _]. by apply drain_spec. Qed.

(** [boost_deadline_priorities] raises every want to its effective priority at the moment
    it is visited (critical past its deadline, urgent in the last second, high in the last
    five), changes nothing else of it, and neither adds nor drops wants. *)
Theorem boost_raises_to_effective now (clock : Cid → Z) w c (Hclock : ∀ c, now ≤ clock c) :
  get (boost_deadline_priorities now clock w) c
    = (λ e, with_priority e (effective_priority (clock c) e)) <$> get w c.
Proof.
  unfold boost_deadline_priorities. rewrite batch_entries.
  destruct (get w c) as [e|] eqn:Hg; [|done]. simpl. f_equal.
  unfold get in Hg. destruct (entries w !! c) as [[e' v]|] eqn:He; [|done]. injection Hg as ->.
  rewrite (boost_entries now clock _ c e v); [by apply boost_one|apply NoDup_hash_iter_keys|].
  by apply elem_of_hash_iter.
Qed.

(** Exponential backoff stays in bounds: for configured delays that fit in 63 bits of
    milliseconds, and a clock after 1970, the delay of attempt [n] is within a tenth of
    [min (base * 2^min(n, 10)) max], never below nine tenths of it and never a tenth or more
    above it. *)
Theorem retry_delay_bounds now w n
  (Hnow : 0 <= now)
  (Hbase : 0 <= base_retry_delay (config w) < 2 ^ 63) (Hmax : 0 <= max_retry_delay (config w) < 2 ^ 63)
  (Hn : 0 <= n) :
  let target := Z.min (as_millis (base_retry_delay (config w)) * 2 ^ Z.min n 10)
                      (as_millis (max_retry_delay (config w))) in
  millis (target - target / 10) <= retry_delay now w n <= millis (target + target / 10).
Proof.
  unfold retry_delay. set (base := base_retry_delay (config w)) in *.
  set (mx := max_retry_delay (config w)) in *. cbv zeta.
  assert (∀ d, 0 <= d < 2 ^ 63 → 0 <= as_millis d < 2 ^ 62) as Hms.
  { intros d Hd. unfold as_millis. split; [apply Z.div_pos; lia|].
    apply Z.div_lt_upper_bound; lia. }
  specialize (Hms base Hbase) as Hb. specialize (Hms mx Hmax) as Hm.
  rewrite (as_u64_small (as_millis base)), (as_u64_small (as_millis mx)) by lia.
  rewrite Z.shiftl_1_l. unfold u64_saturating_mul, u64_max.
  assert (0 < 2 ^ Z.min n 10) by (apply Z.pow_pos_nonneg; lia).
  replace (Z.min (Z.min (2 ^ 64 - 1) (as_millis base * 2 ^ Z.min n 10)) (as_millis mx))
    with (Z.min (as_millis base * 2 ^ Z.min n 10) (as_millis mx)) by lia.
  set (t := Z.min (as_millis base * 2 ^ Z.min n 10) (as_millis mx)).
  assert (0 <= t < 2 ^ 62) as Ht by (unfold t; nia). clearbody t.
  assert (0 <= t / 10 <= t) as Hj by (split; [apply Z.div_pos; lia|apply Z.div_le_upper_bound; lia]).
  rewrite (as_i64_small (t / 10)), (as_i64_small t) by lia.
  assert (- (t / 10) <= (if 0 <? t / 10 then Z.rem now (t / 10 * 2) - t / 10 else 0) <= t / 10) as Ho.
  { destruct (Z.ltb_spec 0 (t / 10)); [|lia].
    rewrite Z.rem_mod_nonneg by lia. pose proof (Z.mod_pos_bound now (t / 10 * 2)). lia. }
  rewrite as_u64_small by lia. unfold millis. lia.
Qed.
End properties.

(** ** Witnesses *)
Import Reference.

Definition he_heap : BinaryHeap HeapEntry he_le.
Proof.
  refine {| heap_pop := first_greatest he_leb |}.
  - apply first_greatest_None.
  - apply first_greatest_spec; unfold he_leb; intros;
      repeat match goal with
      | Hx : (_ || _)%bool = _ |- _ => revert Hx
      end; repeat match goal with
      | |- context [?a <? ?b] => destruct (Z.ltb_spec a b)
      | |- context [?a =? ?b] => destruct (Z.eqb_spec a b)
      | |- context [?a <=? ?b] => destruct (Z.leb_spec a b)
      end; simpl; done || lia.
Defined.
#[local] Existing Instance he_heap.
#[local] Instance cid_iter : HashIter Cid := default_iter Cid.

Definition wl_cid (n : Z) : Cid := new_v1 RAW (poly_digest Sha2_256 [n]).
Definition wl_0 : WantList := WantList_new WantListConfig_default.
Definition wl_1 : WantList := (add 10 (WantEntry_new 1 (wl_cid 1) 50 (secs 30)) wl_0).2.
Definition wl_2 : WantList := (add 11 (with_deadline (WantEntry_new 2 (wl_cid 2) 0 (secs 30)) (secs 3)) wl_1).2.
Definition wl_3 : WantList := (update_priority (wl_cid 1) 200 wl_2).2.

Lemma wl_3_run : wl_run WantListConfig_default 3 wl_3.
Proof.
  apply (run_step _ 2 1 wl_2); [|apply (step_update (wl_cid 1) 200)].
  apply (run_step _ 1 1 wl_1); [|apply (step_add 11 (with_deadline (WantEntry_new 2 (wl_cid 2) 0 (secs 30)) (secs 3)))].
  apply (run_step _ 0 1 wl_0); [apply run_new|apply (step_add 10 (WantEntry_new 1 (wl_cid 1) 50 (secs 30)))].
Defined.

Lemma want_list_invariant_witness :
  NoDup (he_version <$> heap wl_3) ∧ (len wl_3 ≤ 1024)%nat.
Proof.
  destruct (want_list_invariant WantListConfig_default 3 wl_3 wl_3_run eq_refl) as (_ & Hnd & Hlen & _).
  split; [exact Hnd|exact Hlen].
Defined.

Lemma want_list_drains_by_priority_witness :
  ∃ hs, StronglySorted (λ h1 h2, he_le h2 h1) hs
    ∧ (∀ h, h ∈ hs ↔ live wl_3 h)
    ∧ Forall2 (λ h e, entries wl_3 !! he_cid h = Some (e, he_version h)) hs (drain (len wl_3) wl_3).1
    ∧ entries (drain (len wl_3) wl_3).2 = ∅.
Proof. exact (want_list_drains_by_priority WantListConfig_default 3 wl_3 wl_3_run eq_refl). Defined.

Example drained_priorities : we_priority <$> (drain 2 wl_3).1 = [200; 0].
Proof. vm_compute. reflexivity. Qed.

Lemma boost_raises_to_effective_witness :
  get (boost_deadline_priorities (secs 4) (λ _, secs 4) wl_3) (wl_cid 2)
    = (λ e, with_priority e (effective_priority (secs 4) e)) <$> get wl_3 (wl_cid 2).
Proof. apply (boost_raises_to_effective (secs 4) (λ _, secs 4) wl_3 (wl_cid 2)). intros _. lia. Defined.

Lemma retry_delay_bounds_witness :
  millis (800 - 80) <= retry_delay 1700000000123456789 wl_3 3 <= millis (800 + 80).
Proof. apply (retry_delay_bounds 1700000000123456789 wl_3 3); vm_compute; done || (split; congruence). Defined.

(** The documented maximum is exceeded by the jitter. *)
Example retry_delay_exceeds_maximum :
  max_retry_delay (config wl_3) < retry_delay 1999 wl_3 10.
Proof. vm_compute. reflexivity. Qed.
