(* ===== verification/Session.v ===== *)
(** * Block exchange sessions: [crates/ipfrs-transport/src/session.rs]

    A session groups block requests, counts what arrives and announces its completion.  Its
    methods take [&self] and keep their state behind locks; the lock on the statistics is not
    reentrant, so a method that asks for it while it holds it waits for itself for ever.
    [Deadlock] is that outcome, and [stats_held] the lock.  Events go to a channel, kept here
    as the list of what was sent; the instants are arguments.  The floating-point [progress]
    and [throughput] are not modelled. *)

From Stdlib Require Import ZArith Lia List.
From stdpp Require Import base tactics numbers list gmap sets strings.
From S2P Require Import Prelude Collections Cid WantList.

#[local] Open Scope Z_scope.

Abbreviation SessionId := Z.

Inductive SessionError : Type :=
| NotFound (id : SessionId)
| AlreadyExists (id : SessionId)
| Closed (id : SessionId)
| BlockNotInSession
| Timeout.

(** How a method ends when it does not return [Ok]. *)
Inductive Exit : Type := Fails (e : SessionError) | Deadlock.

Inductive SessionState : Type := Active | Paused | Completing | Completed | Cancelled.
#[global] Instance SessionState_eq_dec : EqDecision SessionState.
Proof. solve_decision. Defined.

Record SessionConfig : Type := mkSessionConfig {
  timeout : Z;
  default_priority : Priority;
  max_concurrent_blocks : nat;
  progress_notifications : bool;
}.
Definition SessionConfig_default : SessionConfig := mkSessionConfig (secs 300) Normal 100 true.

Record SessionStats : Type := mkSessionStats {
  total_blocks : nat;
  blocks_received : nat;
  blocks_failed : nat;
  bytes_transferred : Z;
  started_at : option Z;
  completed_at : option Z;
  avg_block_time : option Z;
}.

Definition is_complete (st : SessionStats) : bool :=
  Nat.leb (total_blocks st) (blocks_received st + blocks_failed st).

(** Updates of one field or two. *)
Definition stats_add (st : SessionStats) : SessionStats :=
  mkSessionStats (total_blocks st + 1) (blocks_received st) (blocks_failed st) (bytes_transferred st)
    (started_at st) (completed_at st) (avg_block_time st).
Definition stats_receive (st : SessionStats) (size fetch_time : Z) : SessionStats :=
  mkSessionStats (total_blocks st) (blocks_received st + 1) (blocks_failed st)
    (bytes_transferred st + size) (started_at st) (completed_at st)
    (Some match avg_block_time st with Some avg => (avg + fetch_time) / 2 | None => fetch_time end).
Definition stats_fail (st : SessionStats) : SessionStats :=
  mkSessionStats (total_blocks st) (blocks_received st) (blocks_failed st + 1) (bytes_transferred st)
    (started_at st) (completed_at st) (avg_block_time st).
Definition stats_complete (st : SessionStats) (now : Z) : SessionStats :=
  mkSessionStats (total_blocks st) (blocks_received st) (blocks_failed st) (bytes_transferred st)
    (started_at st) (Some now) (avg_block_time st).

Section session.
Context `{CidCrate}.

Record BlockRequest : Type := mkBlockRequest {
  br_cid : Cid;
  br_priority : Priority;
  br_requested_at : Z;
  br_completed_at : option Z;
  br_size : option Z;
}.

Inductive SessionEvent : Type :=
| EvStarted (id : SessionId)
| EvBlockReceived (id : SessionId) (cid : Cid) (size : Z)
| EvBlockFailed (id : SessionId) (cid : Cid) (error : string)
| EvProgress (id : SessionId) (stats : SessionStats)
| EvCompleted (id : SessionId) (stats : SessionStats)
| EvCancelled (id : SessionId).

(** [has_tx] says whether the session has the sending end of a channel. *)
Record Session : Type := mkSession {
  id : SessionId;
  config : SessionConfig;
  state : SessionState;
  blocks : gmap Cid BlockRequest;
  stats : SessionStats;
  stats_held : bool;
  has_tx : bool;
  sent : list SessionEvent;
}.

Definition send (ev : SessionEvent) (s : Session) : Session :=
  mkSession (id s) (config s) (state s) (blocks s) (stats s) (stats_held s) (has_tx s)
    (if has_tx s then sent s ++ [ev] else sent s).
Definition set_state (st : SessionState) (s : Session) : Session :=
  mkSession (id s) (config s) st (blocks s) (stats s) (stats_held s) (has_tx s) (sent s).
Definition set_blocks (b : gmap Cid BlockRequest) (s : Session) : Session :=
  mkSession (id s) (config s) (state s) b (stats s) (stats_held s) (has_tx s) (sent s).
Definition set_stats (st : SessionStats) (s : Session) : Session :=
  mkSession (id s) (config s) (state s) (blocks s) st (stats_held s) (has_tx s) (sent s).
Definition set_held (h : bool) (s : Session) : Session :=
  mkSession (id s) (config s) (state s) (blocks s) (stats s) h (has_tx s) (sent s).

Definition Session_new (now : Z) (i : SessionId) (cfg : SessionConfig) (tx : bool) : Session :=
  send (EvStarted i)
    (mkSession i cfg Active ∅ (mkSessionStats 0 0 0 0 (Some now) None None) false tx []).

(** The lock on the statistics: acquiring it while it is held blocks for ever. *)
Definition lock_stats : stateful Session Exit unit :=
  λ s, if stats_held s then (Err Deadlock, s) else (Ok tt, set_held true s).
Definition unlock_stats : stateful Session Exit unit := modifies (set_held false).
(** [self.stats.read().clone()]. *)
Definition read_stats : stateful Session Exit SessionStats :=
  do! _ := lock_stats in
  do! st := reads (λ s, Ok (stats s)) in
  do! _ := unlock_stats in
  lift (Ok st).

Definition transition_state (new_state : SessionState) : stateful Session Exit unit :=
  do! _ := modifies (set_state new_state) in
  do! tx := reads (λ s, Ok (has_tx s)) in
  if decide (new_state = Completed) then
    if (tx : bool) then
      do! st := read_stats in
      modifies (λ s, send (EvCompleted (id s) st) s)
    else lift (Ok tt)
  else lift (Ok tt).

Definition add_block (now : Z) (cid : Cid) (priority : option Priority) : stateful Session Exit unit :=
  λ s : Session,
  (if decide (state s = Active) then
     let priority := default (default_priority (config s)) priority in
     let request := mkBlockRequest cid priority now None None in
     do! _ := modifies (λ s, set_blocks (<[cid := request]> (blocks s)) s) in
     do! _ := lock_stats in
     do! _ := modifies (λ s, set_stats (stats_add (stats s)) s) in
     unlock_stats
   else lift (Err (Fails (Closed (id s))))) s.

Fixpoint add_blocks (now : Z) (cids : list Cid) (priority : option Priority) :
    stateful Session Exit unit :=
  match cids with
  | [] => lift (Ok tt)
  | cid :: cids' => do! _ := add_block now cid priority in add_blocks now cids' priority
  end.

(** [completed], [now]: the clock when the block is marked and when the session is. *)
Definition mark_received (completed now : Z) (cid : Cid) (size : Z) : stateful Session Exit unit :=
  do! block := reads (λ s, ok_or (blocks s !! cid) (Fails BlockNotInSession)) in
  let block := mkBlockRequest (br_cid block) (br_priority block) (br_requested_at block)
                 (Some completed) (Some size) in
  do! _ := modifies (λ s, set_blocks (<[cid := block]> (blocks s)) s) in
  do! _ := lock_stats in
  do! _ := modifies (λ s, set_stats (stats_receive (stats s) size (completed - br_requested_at block)) s) in
  do! should_complete :=
    reads (λ s, Ok (is_complete (stats s) && bool_decide (state s = Active))) in
  do! _ := (if (should_complete : bool)
            then modifies (λ s, set_stats (stats_complete (stats s) now) s)
            else lift (Ok tt)) in
  do! _ := unlock_stats in
  do! _ := (if (should_complete : bool) then transition_state Completed else lift (Ok tt)) in
  do! _ := modifies (λ s, send (EvBlockReceived (id s) cid size) s) in
  do! progress := reads (λ s, Ok (has_tx s && progress_notifications (config s))) in
  if (progress : bool) then
    do! st := read_stats in modifies (λ s, send (EvProgress (id s) st) s)
  else lift (Ok tt).

(** Here the state changes before the lock on the statistics is released. *)
Definition mark_failed (now : Z) (cid : Cid) (error : string) : stateful Session Exit unit :=
  do! _ := reads (λ s, ok_or (blocks s !! cid) (Fails BlockNotInSession)) in
  do! _ := lock_stats in
  do! _ := modifies (λ s, set_stats (stats_fail (stats s)) s) in
  do! completes := reads (λ s, Ok (is_complete (stats s) && bool_decide (state s = Active))) in
  do! _ := (if (completes : bool) then
              do! _ := modifies (λ s, set_stats (stats_complete (stats s) now) s) in
              transition_state Completed
            else lift (Ok tt)) in
  do! _ := unlock_stats in
  modifies (λ s, send (EvBlockFailed (id s) cid error) s).

Definition pause : stateful Session Exit unit := transition_state Paused.
Definition resume : stateful Session Exit unit := transition_state Active.
Definition cancel : stateful Session Exit unit :=
  do! _ := transition_state Cancelled in
  modifies (λ s, send (EvCancelled (id s)) s).

Definition pending_blocks `{!HashIter Cid} (s : Session) : list Cid :=
  (filter (λ p, br_completed_at p.2 = None) (hash_iter (blocks s))).*1.

(** [observed]: the states the watch channel yields while waiting, before its sender goes. *)
Fixpoint wait_loop (observed : list SessionState) : stateful Session Exit SessionStats :=
  match observed with
  | [] => λ s, (Err (Fails (Closed (id s))), s)
  | st :: observed' =>
    if decide (st = Completed ∨ st = Cancelled) then read_stats else wait_loop observed'
  end.
Definition wait_completion (observed : list SessionState) : stateful Session Exit SessionStats :=
  do! st := reads (λ s, Ok (state s)) in
  if decide (st = Completed ∨ st = Cancelled) then read_stats else wait_loop observed.

(** ** The manager

    Sessions are shared objects ([Arc<Session>]): [objects] holds every session created,
    [sessions] the ids the manager still lists. *)
Record SessionManager : Type := mkSessionManager {
  objects : gmap SessionId Session;
  sessions : gset SessionId;
  next_session_id : SessionId;
}.

Definition SessionManager_new : SessionManager := mkSessionManager ∅ ∅ 1.

Definition create_session (now : Z) (cfg : SessionConfig) (m : SessionManager) :
    SessionId * SessionManager :=
  let session_id := next_session_id m in
  (session_id,
   mkSessionManager (<[session_id := Session_new now session_id cfg true]> (objects m))
     ({[session_id]} ∪ sessions m) (session_id + 1)).

Definition get_session (i : SessionId) (m : SessionManager) : option Session :=
  if decide (i ∈ sessions m) then objects m !! i else None.

Definition remove_session (i : SessionId) (m : SessionManager) : option Session * SessionManager :=
  (get_session i m, mkSessionManager (objects m) (sessions m ∖ {[i]}) (next_session_id m)).

(** A call of a session's method through a shared reference, kept or not by the manager. *)
Definition on_session {A} (i : SessionId) (f : stateful Session Exit A) (m : SessionManager) :
    SessionManager :=
  match objects m !! i with
  | Some s => mkSessionManager (<[i := (f s).2]> (objects m)) (sessions m) (next_session_id m)
  | None => m
  end.

Definition session_in (P : SessionState → Prop) `{∀ st, Decision (P st)} (m : SessionManager)
    (i : SessionId) : bool :=
  match get_session i m with Some s => bool_decide (P (state s)) | None => false end.

Definition active_sessions (m : SessionManager) : gset SessionId :=
  filter (λ i, session_in (λ st, st = Active) m i = true) (sessions m).

Definition cleanup_completed (m : SessionManager) : nat * SessionManager :=
  let to_remove :=
    filter (λ i, session_in (λ st, st = Completed ∨ st = Cancelled) m i = true) (sessions m) in
  (size to_remove, mkSessionManager (objects m) (sessions m ∖ to_remove) (next_session_id m)).
End session.
