(* ===== verification/SessionFacts.v ===== *)
(** * When sessions complete, and when they block *)

From Stdlib Require Import ZArith Lia List.
From stdpp Require Import base tactics numbers list gmap sets strings fin_sets relations.
From S2P Require Import Prelude Collections Cid WantList Session.

#[local] Open Scope Z_scope.

Section facts.
Context `{CidCrate}.
Implicit Types (s : Session) (c : Cid).

(** Running a method: unfolding the monad on a concrete sequence of steps. *)
Ltac run_session :=
  unfold read_stats, lock_stats, unlock_stats; unfold st_bind, reads, modifies, lift; simpl.

Lemma read_stats_free s : stats_held s = false → read_stats s = (Ok (stats s), s).
Proof. intros Hh. destruct s. simpl in Hh. subst. reflexivity. Qed.

Lemma read_stats_held s : stats_held s = true → read_stats s = (Err Deadlock, s).
Proof. intros Hh. run_session. by rewrite Hh. Qed.

Lemma add_block_active now c p s :
  stats_held s = false → state s = Active →
  add_block now c p s =
    (Ok tt, set_stats (stats_add (stats s))
              (set_blocks (<[c := mkBlockRequest c (default (default_priority (config s)) p) now None None]>
                             (blocks s)) s)).
Proof.
  intros Hh Hs. unfold add_block. rewrite decide_True by done. run_session. rewrite Hh.
  destruct s; simpl in *. by subst.
Qed.

Lemma add_block_closed now c p s :
  state s ≠ Active → add_block now c p s = (Err (Fails (Closed (id s))), s).
Proof. intros Hs. unfold add_block. by rewrite decide_False. Qed.

(** The events that announce completion. *)
Definition announces (ev : SessionEvent) : bool :=
  match ev with EvCompleted _ _ => true | _ => false end.
Definition completions s : nat := length (filter (λ ev, announces ev = true) (sent s)).

(** The part of a session the counting arguments are about. *)
Record view : Type := mkView {
  v_state : SessionState;
  v_dom : gset Cid;
  v_total : nat;
  v_received : nat;
  v_failed : nat;
  v_bytes : Z;
  v_completed : option Z;
  v_completions : nat;
}.
Definition session_view s : view :=
  mkView (state s) (dom (blocks s)) (total_blocks (stats s)) (blocks_received (stats s))
    (blocks_failed (stats s)) (bytes_transferred (stats s)) (completed_at (stats s)) (completions s).

Lemma mark_received_spec t now c size s :
  stats_held s = false → c ∈ dom (blocks s) →
  let fin := is_complete (stats_receive (stats s) 0 0) && bool_decide (state s = Active) in
  ∃ s', mark_received t now c size s = (Ok tt, s')
    ∧ stats_held s' = false ∧ has_tx s' = has_tx s
    ∧ session_view s' =
        mkView (if fin then Completed else state s) (dom (blocks s)) (total_blocks (stats s))
          (blocks_received (stats s) + 1) (blocks_failed (stats s)) (bytes_transferred (stats s) + size)
          (if fin then Some now else completed_at (stats s))
          (completions s + if fin && has_tx s then 1 else 0).
Proof.
  intros Hh Hc fin. apply elem_of_dom in Hc as [b Hb].
  assert (dom (<[c := mkBlockRequest (br_cid b) (br_priority b) (br_requested_at b) (Some t) (Some size)]>
             (blocks s)) = dom (blocks s)) as Hdom.
  { rewrite dom_insert_L. apply elem_of_dom_2 in Hb. set_solver. }
  unfold mark_received, transition_state. run_session. rewrite Hb. simpl. rewrite Hh. simpl.
  change (is_complete (stats_receive (stats s) size (t - br_requested_at b)))
    with (is_complete (stats_receive (stats s) 0 0)).
  fold fin. destruct fin; simpl; [|]; destruct (has_tx s) eqn:Htx; simpl;
    rewrite ?Htx; simpl; try destruct (progress_notifications (config s)); simpl;
    eexists; split_and!; try done; unfold session_view; simpl; rewrite Hdom; f_equal;
    unfold completions; simpl; rewrite ?Htx, ?filter_app, ?length_app; simpl; lia.
Qed.

Lemma add_blocks_spec now l p s :
  stats_held s = false → state s = Active →
  ∃ s', add_blocks now l p s = (Ok tt, s') ∧ stats_held s' = false ∧ has_tx s' = has_tx s
    ∧ session_view s' =
        mkView Active (list_to_set l ∪ dom (blocks s)) (total_blocks (stats s) + length l)
          (blocks_received (stats s)) (blocks_failed (stats s)) (bytes_transferred (stats s))
          (completed_at (stats s)) (completions s).
Proof.
  revert s. induction l as [|c l IH]; intros s Hh Hs; simpl.
  - exists s. split_and!; try done. unfold session_view. rewrite Hs. f_equal; [set_solver|lia].
  - unfold st_bind. rewrite add_block_active by done.
    destruct (IH (set_stats (stats_add (stats s))
      (set_blocks (<[c := mkBlockRequest c (default (default_priority (config s)) p) now None None]>
         (blocks s)) s))) as (s' & Hrun & Hh' & Htx' & Hv); [done..|].
    exists s'. split_and!; try done. rewrite Hv. simpl. f_equal; [|lia].
    rewrite dom_insert_L. set_solver.
Qed.

(** One call of [mark_received] per receipt: the CID, the two clock readings, the size. *)
Definition receipt : Type := Cid * (Z * Z * Z).
Fixpoint receive_all (l : list receipt) : stateful Session Exit unit :=
  match l with
  | [] => lift (Ok tt)
  | (c, (t, now, size)) :: l' => do! _ := mark_received t now c size in receive_all l'
  end.

Definition total_size (l : list receipt) : Z := foldr (λ r n, r.2.2 + n) 0 l.

Lemma receive_all_spec l s :
  stats_held s = false → state s = Active → Forall (λ r, r.1 ∈ dom (blocks s)) l →
  (blocks_received (stats s) + blocks_failed (stats s) + length l ≤ total_blocks (stats s))%nat →
  (blocks_received (stats s) + blocks_failed (stats s) < total_blocks (stats s))%nat →
  let complete := Nat.eqb (blocks_received (stats s) + blocks_failed (stats s) + length l)
                          (total_blocks (stats s)) in
  ∃ s', receive_all l s = (Ok tt, s') ∧ stats_held s' = false
    ∧ session_view s' =
        mkView (if complete then Completed else Active) (dom (blocks s)) (total_blocks (stats s))
          (blocks_received (stats s) + length l) (blocks_failed (stats s))
          (bytes_transferred (stats s) + total_size l)
          (if complete then (λ r, r.2.1.2) <$> last l else completed_at (stats s))
          (completions s + if complete && has_tx s then 1 else 0).
Proof.
  revert s. induction l as [|[c [[t now] size]] l IH]; intros s Hh Hs Hl Hle Hlt.
  - simpl in *. rewrite (proj2 (Nat.eqb_neq _ _)) by lia. exists s. split_and!; try done.
    unfold session_view. rewrite Hs. simpl. f_equal; lia.
  - apply Forall_cons in Hl as [Hc Hl]. cbn [receive_all]. simpl length in *.
    destruct (mark_received_spec t now c size s Hh Hc) as (s1 & Hrun & Hh1 & Htx1 & Hv1).
    unfold st_bind. rewrite Hrun.
    rewrite bool_decide_eq_true_2, andb_true_r in Hv1 by done.
    unfold is_complete in Hv1. simpl in Hv1. injection Hv1 as Hst1 Hdom1 Htot1 Hrec1 Hfail1 Hby1 Hat1 Hco1.
    destruct (Nat.leb_spec (total_blocks (stats s)) (blocks_received (stats s) + 1 + blocks_failed (stats s))).
    + assert (l = []) as -> by (destruct l; [done|simpl in *; lia]). simpl.
      rewrite (proj2 (Nat.eqb_eq _ _)) by lia. exists s1. split_and!; try done.
      unfold session_view. rewrite Hst1, Hdom1, Htot1, Hrec1, Hfail1, Hby1, Hat1, Hco1.
      simpl. f_equal; lia.
    + destruct (IH s1) as (s2 & Hrun2 & Hh2 & Hv2); try done;
        rewrite ?Hdom1, ?Hrec1, ?Hfail1, ?Htot1, ?Hst1; try done; try lia.
      exists s2. split_and!; try done. rewrite Hv2.
      rewrite Hdom1, Htot1, Hrec1, Hfail1, Hby1, Hat1, Hco1, Htx1.
      replace (blocks_received (stats s) + 1 + blocks_failed (stats s) + length l)%nat
        with (blocks_received (stats s) + blocks_failed (stats s) + S (length l))%nat by lia.
      destruct (Nat.eqb_spec (blocks_received (stats s) + blocks_failed (stats s) + S (length l))
                             (total_blocks (stats s))).
      * f_equal; simpl; try lia. destruct l; [simpl in *; lia|done].
      * f_equal; simpl; lia.
Qed.

Lemma mark_failed_spec now c err s :
  stats_held s = false → c ∈ dom (blocks s) →
  let fin := is_complete (stats_fail (stats s)) && bool_decide (state s = Active) in
  if fin && has_tx s then
    ∃ s', mark_failed now c err s = (Err Deadlock, s') ∧ stats_held s' = true
      ∧ state s' = Completed ∧ dom (blocks s') = dom (blocks s) ∧ sent s' = sent s
  else
    ∃ s', mark_failed now c err s = (Ok tt, s') ∧ stats_held s' = false
      ∧ state s' = if fin then Completed else state s.
Proof.
  intros Hh Hc fin. apply elem_of_dom in Hc as [b Hb].
  unfold mark_failed, transition_state. run_session. rewrite Hb. simpl. rewrite Hh. simpl.
  fold fin. destruct fin; simpl; [|eexists; by split_and!].
  destruct (has_tx s) eqn:Htx; simpl; rewrite ?Htx; simpl; eexists; split_and!; done.
Qed.

(** ** The manager *)
Inductive manager_step : SessionManager → SessionManager → Prop :=
| step_create now cfg m : manager_step m (create_session now cfg m).2
| step_remove_session i m : manager_step m (remove_session i m).2
| step_cleanup_sessions m : manager_step m (cleanup_completed m).2
| step_call {A} i (f : stateful Session Exit A) m :
    (∀ s, id (f s).2 = id s) → manager_step m (on_session i f m).

(** Every listed session exists, objects carry their id, and ids come from the counter. *)
Definition manager_inv (m : SessionManager) : Prop :=
  (∀ i s, objects m !! i = Some s → id s = i ∧ i < next_session_id m) ∧
  (∀ i, i ∈ sessions m → is_Some (objects m !! i)).

Lemma manager_reachable_inv m : rtc manager_step SessionManager_new m → manager_inv m.
Proof.
  revert m. apply rtc_ind_r.
  { split; simpl; [intros i s Hi; by rewrite lookup_empty in Hi|set_solver]. }
  intros m1 m2 _ [now cfg m|i m|m|A i f m Hf] [Hobj Hreg].
  - split; simpl.
    + intros i s [[<- <-]|[_ Hi]]%lookup_insert_Some; [split; [done|lia]|].
      apply Hobj in Hi. lia.
    + intros i [->%elem_of_singleton|Hi]%elem_of_union; [by rewrite lookup_insert_eq|].
      apply lookup_insert_is_Some'. auto.
  - split; simpl; [done|set_solver].
  - split; simpl; [done|set_solver].
  - unfold on_session. destruct (objects m !! i) as [s|] eqn:Hi; [|done]. split; simpl.
    + intros j s' [[<- <-]|[_ Hj]]%lookup_insert_Some; [|auto]. rewrite Hf. auto.
    + intros j Hj. apply lookup_insert_is_Some'. auto.
Qed.
End facts.

(** ** Properties *)
Section properties.
Context `{CidCrate}.
Implicit Types (s : Session) (c : Cid) (m : SessionManager).

(** Completion counts receipts. After adding [n] requests to a new session, every sequence
    of at most [n] calls of [mark_received] on blocks of the session returns [Ok]; the session
    stays active up to the last but one and completes exactly at the [n]th, recording the time
    and the bytes of all receipts and announcing completion once on its channel, if it has
    one. (A block that arrives twice counts twice.) *)
Theorem session_completes_at_last_receipt t0 i cfg tx now l p (r : list receipt)
  (Hl : l ≠ []) (Hin : Forall (λ x, x.1 ∈ l) r) (Hlen : (length r ≤ length l)%nat) :
  let complete := Nat.eqb (length r) (length l) in
  ∃ s, (do! _ := add_blocks now l p in receive_all r) (Session_new t0 i cfg tx) = (Ok tt, s)
    ∧ state s = (if complete then Completed else Active)
    ∧ blocks_received (stats s) = length r ∧ total_blocks (stats s) = length l
    ∧ bytes_transferred (stats s) = total_size r
    ∧ completed_at (stats s) = (if complete then (λ x, x.2.1.2) <$> last r else None)
    ∧ completions s = if complete && tx then 1%nat else 0%nat.
Proof.
  set (s0 := Session_new t0 i cfg tx).
  assert (stats s0 = mkSessionStats 0 0 0 0 (Some t0) None None ∧ completions s0 = 0%nat) as [Hst0 Hc0]
    by by destruct tx.
  destruct (add_blocks_spec now l p s0) as (s1 & Hadd & Hh1 & Htx1 & Hv1); [done..|].
  rewrite Hst0, Hc0 in Hv1. injection Hv1 as Hst1 Hdom1 Htot1 Hrec1 Hfail1 Hby1 Hat1 Hco1.
  simpl in *.
  assert (0 < length l)%nat by (destruct l; [done|simpl; lia]).
  destruct (receive_all_spec r s1) as (s2 & Hrec & Hh2 & Hv2);
    rewrite ?Hdom1, ?Hrec1, ?Hfail1, ?Htot1; try done; try lia.
  { eapply Forall_impl; [exact Hin|]. intros x Hx. set_solver. }
  exists s2. unfold st_bind. rewrite Hadd. split; [done|].
  rewrite Hdom1, Hrec1, Hfail1, Htot1, Hby1, Hat1, Hco1, Htx1 in Hv2. simpl in Hv2.
  injection Hv2 as -> _ -> -> _ -> -> ->. split_and!; try done.
Qed.

(** [mark_failed] deadlocks exactly when the failure completes an active session that has
    an event channel: it then waits for the statistics lock it holds itself, after the state
    has become [Completed] and before anything is announced; from then on every receipt and
    every reading of the statistics blocks as well. In all other cases it returns [Ok] on a
    block of the session, and an error on any other. *)
Theorem mark_failed_deadlock now c err s (Hfree : stats_held s = false) :
  (c ∉ dom (blocks s) → mark_failed now c err s = (Err (Fails BlockNotInSession), s)) ∧
  (c ∈ dom (blocks s) →
     let s' := (mark_failed now c err s).2 in
     if is_complete (stats_fail (stats s)) && bool_decide (state s = Active) && has_tx s then
       (mark_failed now c err s).1 = Err Deadlock ∧ state s' = Completed ∧ sent s' = sent s
       ∧ (read_stats s').1 = Err Deadlock
       ∧ ∀ t now' c' size, c' ∈ dom (blocks s) → (mark_received t now' c' size s').1 = Err Deadlock
     else (mark_failed now c err s).1 = Ok tt).
Proof.
  split; intros Hc.
  - apply not_elem_of_dom in Hc. unfold mark_failed, st_bind, reads. by rewrite Hc.
  - pose proof (mark_failed_spec now c err s Hfree Hc) as Hm. cbv zeta in Hm |- *.
    destruct (is_complete (stats_fail (stats s)) && bool_decide (state s = Active) && has_tx s).
    + destruct Hm as (s' & Hrun & Hh & Hst & Hdom & Hsent). rewrite Hrun. simpl.
      split_and!; try done; [by rewrite read_stats_held|].
      intros t now' c' size Hc'. rewrite <- Hdom in Hc'. apply elem_of_dom in Hc' as [b Hb].
      unfold mark_received, st_bind, reads, lift. rewrite Hb. simpl. unfold lock_stats. simpl. by rewrite Hh.
    + destruct Hm as (s' & Hrun & _). by rewrite Hrun.
Qed.

(** No state is final: a cancelled (or completed) session refuses new blocks, but
    [resume] makes it active again, whatever its state, and it then accepts them. *)
Theorem session_reopens now c p s (Hfree : stats_held s = false) :
  let s1 := (cancel s).2 in
  let s2 := (resume s1).2 in
  state s1 = Cancelled ∧ (add_block now c p s1).1 = Err (Fails (Closed (id s))) ∧
  state s2 = Active ∧ (add_block now c p s2).1 = Ok tt.
Proof.
  cbv zeta. split_and!; try done.
  rewrite add_block_active; done.
Qed.

(** The manager never reuses an id, lists only sessions it created, and a cleanup removes
    exactly the listed sessions that are completed or cancelled and returns their number,
    leaving the shared session objects alone. *)
Theorem manager_cleanup_exact m (Hrun : rtc manager_step SessionManager_new m) :
  (∀ now cfg, objects m !! (create_session now cfg m).1 = None) ∧
  (∀ i, i ∈ sessions m → ∃ s, get_session i m = Some s ∧ id s = i) ∧
  let '(n, m') := cleanup_completed m in
  n = (size (sessions m) - size (sessions m'))%nat ∧ objects m' = objects m ∧
  ∀ i, i ∈ sessions m' ↔
    i ∈ sessions m ∧ ∀ s, get_session i m = Some s → state s ≠ Completed ∧ state s ≠ Cancelled.
Proof.
  apply manager_reachable_inv in Hrun as [Hobj Hreg]. split_and!.
  - intros now cfg. simpl. apply eq_None_not_Some. intros [s Hs]. apply Hobj in Hs. lia.
  - intros i Hi. unfold get_session. rewrite decide_True by done.
    destruct (Hreg i Hi) as [s Hs]. exists s. split; [done|]. by apply Hobj.
  - unfold cleanup_completed. simpl. split_and!; [|done|].
    + rewrite size_difference by set_solver. 
      pose proof (subseteq_size (filter (λ i, session_in (λ st, st = Completed ∨ st = Cancelled) m i = true)
        (sessions m)) (sessions m) ltac:(set_solver)). lia.
    + intros i. rewrite elem_of_difference, elem_of_filter. unfold session_in. split.
      * intros [Hi Hn]. split; [done|]. intros s Hs. rewrite Hs in Hn.
        destruct (decide (state s = Completed ∨ state s = Cancelled)) as [Hst|Hst]; [|tauto].
        destruct Hn. split; [by apply bool_decide_eq_true|done].
      * intros [Hi Hs]. split; [done|]. intros [Hst _].
        destruct (get_session i m) as [s|]; [|done]. apply bool_decide_eq_true in Hst.
        specialize (Hs s eq_refl). tauto.
Qed.
End properties.

(** ** Witnesses *)
Import Reference.

Definition s_cid (n : Z) : Cid := new_v1 RAW (poly_digest Sha2_256 [n]).
Definition demo_receipts : list receipt := [(s_cid 2, (20, 21, 700)); (s_cid 1, (30, 31, 300))].

Lemma session_completes_at_last_receipt_witness :
  ∃ s, (do! _ := add_blocks 10 [s_cid 1; s_cid 2] None in receive_all demo_receipts)
         (Session_new 5 1 SessionConfig_default true) = (Ok tt, s)
    ∧ state s = Completed ∧ blocks_received (stats s) = 2%nat ∧ total_blocks (stats s) = 2%nat
    ∧ bytes_transferred (stats s) = 1000 ∧ completed_at (stats s) = Some 31 ∧ completions s = 1%nat.
Proof.
  apply (session_completes_at_last_receipt 5 1 SessionConfig_default true 10 [s_cid 1; s_cid 2] None demo_receipts);
    [done| |done].
  repeat constructor; simpl; set_solver.
Defined.

(** One block received twice completes a session of two, the other still pending. *)
#[local] Instance s_iter : HashIter Cid := default_iter Cid.
Example duplicate_receipt_completes :
  let s := ((do! _ := add_blocks 10 [s_cid 1; s_cid 2] None in
             receive_all [(s_cid 2, (20, 21, 700)); (s_cid 2, (22, 23, 700))])
              (Session_new 5 1 SessionConfig_default true)).2 in
  bool_decide (state s = Completed) && bool_decide (pending_blocks s = [s_cid 1]) = true.
Proof. vm_compute. reflexivity. Qed.

Definition failing_session : Session :=
  (add_block 10 (s_cid 1) None (Session_new 5 1 SessionConfig_default true)).2.

Lemma mark_failed_deadlock_witness :
  (mark_failed 11 (s_cid 1) "gone" failing_session).1 = Err Deadlock.
Proof.
  pose proof (proj2 (mark_failed_deadlock 11 (s_cid 1) "gone" failing_session eq_refl)) as Hm.
  apply Hm. vm_compute. reflexivity.
Defined.

Lemma session_reopens_witness :
  state (resume (cancel failing_session).2).2 = Active.
Proof. apply (session_reopens 12 (s_cid 3) None failing_session eq_refl). Defined.

Definition demo_manager : SessionManager :=
  (create_session 5 SessionConfig_default SessionManager_new).2.

Lemma manager_cleanup_exact_witness :
  objects demo_manager !! (create_session 6 SessionConfig_default demo_manager).1 = None.
Proof.
  apply (manager_cleanup_exact demo_manager).
  eapply rtc_l; [apply (step_create 5 SessionConfig_default)|apply rtc_refl].
Defined.
