(* ===== verification/Raft.v ===== *)
(** * A RAFT node: [crates/ipfrs-storage/src/raft.rs]

    The state of one node and what can happen to it: the two RPC handlers, the application of
    committed entries to the block store, the client call [append_entry], and the election
    timer.  The handlers run under the write lock on the persistent state; the timer takes the
    lock three times, so its three writes are three steps that handlers may interleave with.
    Terms and indices are [u64]s; decrementing an index and incrementing a term wrap around as
    in the release build.  The statistics record and the event loop's plumbing are not modelled. *)

From Stdlib Require Import ZArith Lia List.
From stdpp Require Import base tactics numbers list gmap sets strings.
From S2P Require Import Prelude Cid ColdStore.

#[local] Open Scope Z_scope.

Abbreviation NodeId := Z.
Abbreviation Term := Z.
Abbreviation LogIndex := Z.

Inductive NodeState : Type := Follower | Candidate | Leader.
#[global] Instance NodeState_eq_dec : EqDecision NodeState.
Proof. solve_decision. Defined.

Inductive Command : Type :=
| CmdPut (cid_bytes data : bytes)
| CmdDelete (cid_bytes : bytes)
| CmdNoOp.

Record LogEntry : Type := mkLogEntry { term : Term; index : LogIndex; command : Command }.

Record AppendEntriesRequest : Type := mkAppendEntriesRequest {
  ae_term : Term;
  ae_leader_id : NodeId;
  ae_prev_log_index : LogIndex;
  ae_prev_log_term : Term;
  ae_entries : list LogEntry;
  ae_leader_commit : LogIndex;
}.
Record AppendEntriesResponse : Type := mkAppendEntriesResponse {
  ar_term : Term;
  ar_success : bool;
  ar_conflict_index : option LogIndex;
}.
Record RequestVoteRequest : Type := mkRequestVoteRequest {
  rv_term : Term;
  rv_candidate_id : NodeId;
  rv_last_log_index : LogIndex;
  rv_last_log_term : Term;
}.
Record RequestVoteResponse : Type := mkRequestVoteResponse {
  vr_term : Term;
  vr_vote_granted : bool;
}.

(** [PersistentState] and [VolatileState]. *)
Record PersistentState : Type := mkPersistentState {
  current_term : Term;
  voted_for : option NodeId;
}.
Record VolatileState : Type := mkVolatileState {
  commit_index : LogIndex;
  last_applied : LogIndex;
}.

Section raft.
Context `{CidCrate} {K : Type} `{!ColdStore K}.

Record RaftNode : Type := mkRaftNode {
  id : NodeId;
  peers : list NodeId;
  state : NodeState;
  persistent : PersistentState;
  volatile : VolatileState;
  log : list LogEntry;
  store : K;
  last_heartbeat : Z;
  current_leader : option NodeId;
}.

Definition RaftNode_new (now : Z) (i : NodeId) (ps : list NodeId) (k : K) : RaftNode :=
  mkRaftNode i ps Follower (mkPersistentState 0 None) (mkVolatileState 0 0) [] k now None.

Definition set_state (st : NodeState) (n : RaftNode) : RaftNode :=
  mkRaftNode (id n) (peers n) st (persistent n) (volatile n) (log n) (store n) (last_heartbeat n)
    (current_leader n).
Definition set_persistent (p : PersistentState) (n : RaftNode) : RaftNode :=
  mkRaftNode (id n) (peers n) (state n) p (volatile n) (log n) (store n) (last_heartbeat n)
    (current_leader n).
Definition set_volatile (v : VolatileState) (n : RaftNode) : RaftNode :=
  mkRaftNode (id n) (peers n) (state n) (persistent n) v (log n) (store n) (last_heartbeat n)
    (current_leader n).
Definition set_log (l : list LogEntry) (n : RaftNode) : RaftNode :=
  mkRaftNode (id n) (peers n) (state n) (persistent n) (volatile n) l (store n) (last_heartbeat n)
    (current_leader n).
Definition set_store (k : K) (n : RaftNode) : RaftNode :=
  mkRaftNode (id n) (peers n) (state n) (persistent n) (volatile n) (log n) k (last_heartbeat n)
    (current_leader n).
Definition hear_from (now : Z) (leader : NodeId) (n : RaftNode) : RaftNode :=
  mkRaftNode (id n) (peers n) (state n) (persistent n) (volatile n) (log n) (store n) now
    (Some leader).

Definition log_len (l : list LogEntry) : Z := Z.of_nat (length l).

(** ** AppendEntries *)

(** A higher term makes the node a follower of that term that has not voted. *)
Definition update_term (t : Term) (n : RaftNode) : RaftNode :=
  if current_term (persistent n) <? t
  then set_state Follower (set_persistent (mkPersistentState t None) n)
  else n.

(** [for entry in log.iter().rev() { ... }], over the reversed log. *)
Fixpoint scan_conflict (rev_log : list LogEntry) (conflict_term : Term) (conflict_index : LogIndex) :
    LogIndex :=
  match rev_log with
  | [] => conflict_index
  | entry :: rev_log' =>
    if term entry =? conflict_term then scan_conflict rev_log' conflict_term (index entry)
    else conflict_index
  end.

(** One round of the loop that appends the new entries. *)
Definition append_one (l : list LogEntry) (entry : LogEntry) : list LogEntry :=
  let index := as_u64 (index entry - 1) in
  match l !! Z.to_nat index with
  | None => l ++ [entry]
  | Some e => if term e =? term entry then l else take (Z.to_nat index) l ++ [entry]
  end.

Definition update_commit (leader_commit : LogIndex) (n : RaftNode) : RaftNode :=
  if commit_index (volatile n) <? leader_commit
  then set_volatile (mkVolatileState (Z.min leader_commit (log_len (log n)))
                                     (last_applied (volatile n))) n
  else n.

(** The check of the entry before the new ones: the response when it fails. *)
Definition check_prev (request : AppendEntriesRequest) (n : RaftNode) :
    option AppendEntriesResponse :=
  let prev := ae_prev_log_index request in
  if 0 <? prev then
    match log n !! Z.to_nat (prev - 1) with
    | None =>
      Some (mkAppendEntriesResponse (current_term (persistent n)) false (Some (log_len (log n))))
    | Some prev_entry =>
      if term prev_entry =? ae_prev_log_term request then None
      else Some (mkAppendEntriesResponse (current_term (persistent n)) false
             (Some (scan_conflict (reverse (log n)) (term prev_entry) prev)))
    end
  else None.

Definition handle_append_entries (now : Z) (request : AppendEntriesRequest) (n : RaftNode) :
    AppendEntriesResponse * RaftNode :=
  if ae_term request <? current_term (persistent n) then
    (mkAppendEntriesResponse (current_term (persistent n)) false None, n)
  else
    let n := hear_from now (ae_leader_id request) (update_term (ae_term request) n) in
    match check_prev request n with
    | Some response => (response, n)
    | None =>
      let n := set_log (fold_left append_one (ae_entries request) (log n)) n in
      let n := update_commit (ae_leader_commit request) n in
      (mkAppendEntriesResponse (current_term (persistent n)) true None, n)
    end.

(** ** RequestVote *)
Definition log_ok (request : RequestVoteRequest) (l : list LogEntry) : bool :=
  let last_log_index := log_len l in
  let last_log_term := match last l with Some e => term e | None => 0 end in
  (last_log_term <? rv_last_log_term request)
  || (rv_last_log_term request =? last_log_term) && (last_log_index <=? rv_last_log_index request).

Definition handle_request_vote (request : RequestVoteRequest) (n : RaftNode) :
    RequestVoteResponse * RaftNode :=
  if rv_term request <? current_term (persistent n) then
    (mkRequestVoteResponse (current_term (persistent n)) false, n)
  else
    let n := update_term (rv_term request) n in
    let p := persistent n in
    if (bool_decide (voted_for p = None) || bool_decide (voted_for p = Some (rv_candidate_id request)))
       && log_ok request (log n)
    then (mkRequestVoteResponse (current_term p) true,
          set_persistent (mkPersistentState (current_term p) (Some (rv_candidate_id request))) n)
    else (mkRequestVoteResponse (current_term p) false, n).

(** ** Applying committed entries *)
Definition apply_command (c : Command) : stateful K Error unit :=
  match c with
  | CmdPut cid_bytes data =>
    match Cid_try_from cid_bytes with
    | Some cid => cold_put cid data
    | None => lift (Ok tt)
    end
  | CmdDelete cid_bytes =>
    match Cid_try_from cid_bytes with
    | Some cid => cold_delete cid
    | None => lift (Ok tt)
    end
  | CmdNoOp => lift (Ok tt)
  end.

(** The loop, one unit of fuel per entry; [commit] is read once before it. *)
Fixpoint apply_loop (fuel : nat) (commit : LogIndex) : stateful RaftNode Error unit :=
  λ n,
  if commit <=? last_applied (volatile n) then (Ok tt, n) else
  match fuel with
  | O => (OutOfFuel, n)
  | S fuel' =>
    let n := set_volatile (mkVolatileState (commit_index (volatile n)) (last_applied (volatile n) + 1)) n in
    match log n !! Z.to_nat (last_applied (volatile n) - 1) with
    | None => (Panic, n)
    | Some entry =>
      let '(r, k) := apply_command (command entry) (store n) in
      let n := set_store k n in
      match r with
      | Ok _ => apply_loop fuel' commit n
      | e => (e, n)
      end
    end
  end.

Definition apply_committed_entries : stateful RaftNode Error unit :=
  λ n, apply_loop (Z.to_nat (commit_index (volatile n) - last_applied (volatile n)))
         (commit_index (volatile n)) n.

(** ** Client calls *)
Definition append_entry (c : Command) : stateful RaftNode Error LogIndex :=
  λ n,
  if decide (state n ≠ Leader) then (Err Internal, n) else
  let index := log_len (log n) + 1 in
  (Ok index, set_log (log n ++ [mkLogEntry (current_term (persistent n)) index c]) n).

Definition is_leader (n : RaftNode) : bool := bool_decide (state n = Leader).

(** ** The election timer: its check and its three writes *)
Definition election_due (now timeout : Z) (n : RaftNode) : bool :=
  negb (bool_decide (state n = Leader)) && (timeout <=? now - last_heartbeat n).
Definition become_candidate (n : RaftNode) : RaftNode := set_state Candidate n.
Definition increment_term (n : RaftNode) : RaftNode :=
  set_persistent (mkPersistentState (as_u64 (current_term (persistent n) + 1)) (voted_for (persistent n))) n.
Definition vote_for_self (n : RaftNode) : RaftNode :=
  set_persistent (mkPersistentState (current_term (persistent n)) (Some (id n))) n.
Definition start_election (n : RaftNode) : RaftNode :=
  vote_for_self (increment_term (become_candidate n)).
End raft.
#[global] Arguments RaftNode : clear implicits.
