(* ===== verification/RaftFacts.v ===== *)
(** * What one RAFT node guarantees, and where it does not *)

From Stdlib Require Import ZArith Lia List.
From stdpp Require Import base tactics numbers list gmap sets strings relations.
From S2P Require Import Prelude Cid ColdStore Raft.

#[local] Open Scope Z_scope.

(** ** Logs *)

(** The entry at position [i] carries the index [i + 1]. *)
Definition wf_log (l : list LogEntry) : Prop :=
  ∀ i e, l !! i = Some e → index e = Z.of_nat i + 1.

(** Consecutive entries that start after position [p]. *)
Definition entries_from (p : nat) (es : list LogEntry) : Prop :=
  ∀ j e, es !! j = Some e → index e = Z.of_nat p + Z.of_nat j + 1.

Lemma entries_from_cons p e es :
  entries_from p (e :: es) → index e = Z.of_nat p + 1 ∧ entries_from (S p) es.
Proof.
  intros He. split.
  - rewrite (He 0%nat e); [lia|done].
  - intros j e' Hj. rewrite (He (S j) e'); [lia|done].
Qed.

Lemma wf_log_app l es : wf_log l → entries_from (length l) es → wf_log (l ++ es).
Proof.
  intros Hl Hes i e [Hi|[Hle Hi]]%lookup_app_Some; [by apply Hl|].
  rewrite (Hes _ _ Hi). lia.
Qed.

Lemma wf_log_take l n : wf_log l → wf_log (take n l).
Proof. intros Hl i e [Hi _]%lookup_take_Some. by apply Hl. Qed.

Definition u64_len (n : nat) : Prop := Z.of_nat n < 2 ^ 64.

Lemma append_one_at l e p :
  index e = Z.of_nat p + 1 → u64_len p →
  append_one l e = match l !! p with
                   | None => l ++ [e]
                   | Some e' => if term e' =? term e then l else take p l ++ [e]
                   end.
Proof.
  unfold u64_len. intros He Hp. unfold append_one. rewrite He, as_u64_small by lia.
  by replace (Z.to_nat (Z.of_nat p + 1 - 1)) with p by lia.
Qed.

Lemma append_tail es l :
  entries_from (length l) es → u64_len (length l + length es) →
  fold_left append_one es l = l ++ es.
Proof.
  revert l. induction es as [|e es IH]; intros l Hes Hlen; simpl; [by rewrite app_nil_r|].
  apply entries_from_cons in Hes as [He Hes]. unfold u64_len in *. simpl in Hlen.
  rewrite (append_one_at l e (length l)), lookup_ge_None_2 by (done || unfold u64_len; lia).
  rewrite IH; [by rewrite <- app_assoc| |]; rewrite length_app; simpl.
  - by rewrite Nat.add_1_r.
  - unfold u64_len. lia.
Qed.

(** What the sent entries make of the stored ones that start at the same index: stored entries
    of the same term stay, the first one of another term and all behind it make room, and the
    sent entries take their place; stored entries behind the sent ones stay. *)
Fixpoint merged (old sent : list LogEntry) : list LogEntry :=
  match old, sent with
  | _, [] => old
  | [], _ => sent
  | e' :: old', e :: sent' => if term e' =? term e then e' :: merged old' sent' else sent
  end.

Lemma append_entries_merged es l p :
  entries_from p es → (p ≤ length l)%nat → u64_len (length l + length es) →
  fold_left append_one es l = take p l ++ merged (drop p l) es.
Proof.
  revert l p. induction es as [|e es IH]; intros l p Hes Hp Hlen; simpl.
  { assert (merged (drop p l) [] = drop p l) as -> by (by destruct (drop p l)). by rewrite take_drop. }
  pose proof Hes as Hall. apply entries_from_cons in Hes as [He Hes]. unfold u64_len in *. simpl in Hlen.
  rewrite (append_one_at l e p) by (done || unfold u64_len; lia).
  assert (∀ l', length l' = p → fold_left append_one es (l' ++ [e]) = l' ++ e :: es) as Htail.
  { intros l' Hl'. rewrite append_tail; rewrite ?length_app; simpl.
    - by rewrite <- app_assoc.
    - by rewrite Hl', Nat.add_1_r.
    - unfold u64_len. lia. }
  destruct (l !! p) as [e0|] eqn:Hl.
  - rewrite (drop_S l e0 p Hl). apply lookup_lt_Some in Hl as Hlt.
    cbn [merged]. destruct (term e0 =? term e).
    + rewrite (IH l (S p)), (take_S_r l p e0 Hl), <- app_assoc by (done || unfold u64_len; lia). done.
    + apply Htail. rewrite length_take. lia.
  - apply lookup_ge_None in Hl. rewrite drop_ge, take_ge by lia. apply Htail. lia.
Qed.

Lemma merged_wf es l p : wf_log l → entries_from p es → (p ≤ length l)%nat →
  wf_log (take p l ++ merged (drop p l) es).
Proof.
  revert l p. induction es as [|e es IH]; intros l p Hl Hes Hp.
  { assert (merged (drop p l) [] = drop p l) as -> by (by destruct (drop p l)). by rewrite take_drop. }
  pose proof Hes as Hall. apply entries_from_cons in Hes as [He Hes].
  assert (wf_log (take p l ++ e :: es)) as Hcut.
  { apply wf_log_app; [by apply wf_log_take|]. by rewrite length_take, Nat.min_l by lia. }
  destruct (l !! p) as [e0|] eqn:Hlp.
  - rewrite (drop_S l e0 p Hlp). cbn [merged]. apply lookup_lt_Some in Hlp as Hlt.
    destruct (term e0 =? term e); [|done].
    specialize (IH l (S p) Hl Hes Hlt). by rewrite (take_S_r l p e0 Hlp), <- app_assoc in IH.
  - apply lookup_ge_None in Hlp. by rewrite drop_ge by lia.
Qed.

(** Every sent entry, or a stored one of its term, is at its place. *)
Lemma merged_agrees old sent i e :
  sent !! i = Some e → ∃ e', merged old sent !! i = Some e' ∧ term e' = term e.
Proof.
  revert old i. induction sent as [|e1 sent IH]; intros old i Hi; [done|].
  destruct old as [|e0 old]; simpl; [eauto|].
  destruct (Z.eqb_spec (term e0) (term e1)) as [Ht|Ht]; [|eauto].
  destruct i as [|i]; simpl in *; [simplify_eq; eauto|]. by apply IH.
Qed.

(** ** Applying commands *)
Section apply.
Context `{CidCrate} {K : Type} `{!ColdStore K} `{!ColdLaws K}.

Definition effect (B : gmap Cid bytes) (c : Command) : gmap Cid bytes :=
  match c with
  | CmdPut cid_bytes data =>
    match Cid_try_from cid_bytes with Some cid => <[cid := data]> B | None => B end
  | CmdDelete cid_bytes =>
    match Cid_try_from cid_bytes with Some cid => delete cid B | None => B end
  | CmdNoOp => B
  end.
Definition effects (B : gmap Cid bytes) (es : list LogEntry) : gmap Cid bytes :=
  fold_left (λ B e, effect B (command e)) es B.

Lemma apply_command_law c (k : K) :
  updates contents (apply_command c k) (contents k) (effect (contents k) c).
Proof.
  destruct c as [cb data|cb|]; simpl; [| |done]; destruct (Cid_try_from cb); simpl; try done.
  - apply cold_put_law.
  - apply cold_delete_law.
Qed.

Lemma effects_snoc B es e : effects B (es ++ [e]) = effect (effects B es) (command e).
Proof. unfold effects. by rewrite fold_left_app. Qed.

(** One entry is consumed per round; an entry whose command fails counts as consumed too. *)
Lemma apply_loop_spec fuel commit (n : RaftNode K) r n' :
  apply_loop fuel commit n = (r, n') →
  0 ≤ last_applied (volatile n) → commit ≤ log_len (log n) →
  commit - last_applied (volatile n) ≤ Z.of_nat fuel →
  let start := Z.to_nat (last_applied (volatile n)) in
  log n' = log n ∧ commit_index (volatile n') = commit_index (volatile n) ∧
  ∃ j, last_applied (volatile n') = last_applied (volatile n) + Z.of_nat j ∧
    match r with
    | Ok _ => Z.max commit (last_applied (volatile n)) = last_applied (volatile n')
        ∧ contents (store n') = effects (contents (store n)) (take j (drop start (log n)))
    | Err _ => (0 < j)%nat ∧ last_applied (volatile n') ≤ commit
        ∧ contents (store n') = effects (contents (store n)) (take (j - 1) (drop start (log n)))
    | _ => False
    end.
Proof.
  revert n. induction fuel as [|fuel IH]; intros n Hrun Hpos Hlen Hfuel; cbn [apply_loop] in Hrun;
    destruct (Z.leb_spec commit (last_applied (volatile n))) as [Hdone|Hmore].
  1,3: injection Hrun as <- <-; split_and!; [done..|]; exists 0%nat; split_and!; [lia|lia|done].
  { lia. }
  cbn zeta beta in Hrun. simpl in Hrun. cbv zeta.
  set (la := last_applied (volatile n)) in *.
  destruct (log n !! Z.to_nat (la + 1 - 1)) as [e|] eqn:He.
  2:{ apply lookup_ge_None in He. unfold log_len in Hlen. lia. }
  replace (Z.to_nat (la + 1 - 1)) with (Z.to_nat la) in He by lia.
  pose proof (apply_command_law (command e) (store n)) as Hcmd.
  destruct (apply_command (command e) (store n)) as [[[]|err| |] k]; simpl in Hcmd; try done.
  - apply IH in Hrun; simpl in *; try lia.
    destruct Hrun as (Hlog & Hci & j & Hla & Hr). split_and!; [done..|]. exists (S j).
    split; [lia|].
    assert (take (S j) (drop (Z.to_nat la) (log n))
            = e :: take j (drop (Z.to_nat (la + 1)) (log n))) as Htake.
    { erewrite drop_S by exact He. simpl. by replace (Z.to_nat (la + 1)) with (S (Z.to_nat la)) by lia. }
    destruct r as [|err| |]; [| |done..].
    + destruct Hr as [Hmax Hc]. split; [lia|]. rewrite Hc, Hcmd, Htake. done.
    + destruct Hr as (Hj & Hle & Hc). split_and!; [lia..|]. rewrite Hc, Hcmd.
      destruct j as [|j]; [lia|]. simpl Nat.sub. rewrite Nat.sub_0_r.
      erewrite (drop_S _ e (Z.to_nat la)) by exact He. simpl.
      by replace (Z.to_nat (la + 1)) with (S (Z.to_nat la)) by lia.
  - injection Hrun as <- <-. split_and!; [done..|]. exists 1%nat. simpl. split_and!; [lia..|].
    by rewrite Hcmd.
Qed.
End apply.

(** ** Runs of a node *)
Section runs.
Context `{CidCrate} {K : Type} `{!ColdStore K}.
Implicit Types n : RaftNode K.

(** What may happen to a node, with the vote it casts.  [atomic] says whether the election
    timer's three writes happen as one step; as one step it does not wrap the term. *)
Inductive raft_step (atomic : bool) : RaftNode K → option (Term * NodeId) → RaftNode K → Prop :=
| step_append now req n : raft_step atomic n None (handle_append_entries now req n).2
| step_vote req n :
    raft_step atomic n
      (if vr_vote_granted (handle_request_vote req n).1
       then Some (vr_term (handle_request_vote req n).1, rv_candidate_id req) else None)
      (handle_request_vote req n).2
| step_apply n r n' : apply_committed_entries n = (r, n') → raft_step atomic n None n'
| step_client c n : raft_step atomic n None (append_entry c n).2
| step_election n :
    atomic = true → as_u64 (current_term (persistent n) + 1) = current_term (persistent n) + 1 →
    raft_step atomic n (Some (current_term (persistent n) + 1, id n)) (start_election n)
| step_candidate n : atomic = false → raft_step atomic n None (become_candidate n)
| step_increment n : atomic = false → raft_step atomic n None (increment_term n)
| step_self_vote n :
    atomic = false → raft_step atomic n (Some (current_term (persistent n), id n)) (vote_for_self n).

(** Runs, with the votes cast so far. *)
Inductive raft_run (atomic : bool) : RaftNode K → list (Term * NodeId) → Prop :=
| run_new now i ps k : raft_run atomic (RaftNode_new now i ps k) []
| run_step n votes v n' : raft_run atomic n votes → raft_step atomic n v n' →
    raft_run atomic n' (option_list v ++ votes).

Lemma apply_loop_keeps fuel commit n r n' :
  apply_loop fuel commit n = (r, n') → state n' = state n ∧ persistent n' = persistent n.
Proof.
  revert n. induction fuel as [|fuel IH]; intros n Hrun; cbn [apply_loop] in Hrun;
    destruct (commit <=? last_applied (volatile n)); try by injection Hrun as <- <-.
  cbn zeta beta in Hrun. case_match; [|by injection Hrun as <- <-].
  destruct (apply_command _ _) as [[[]|e| |] k]; simpl in Hrun; try by injection Hrun as <- <-.
  apply IH in Hrun as [-> ->]. done.
Qed.

Lemma append_entries_state now req n :
  (handle_append_entries now req n).2 = n ∨
  state (handle_append_entries now req n).2 = state (update_term (ae_term req) n) ∧
  persistent (handle_append_entries now req n).2 = persistent (update_term (ae_term req) n).
Proof.
  unfold handle_append_entries. destruct (ae_term req <? current_term (persistent n)); [by left|right].
  destruct (check_prev _ _); [done|]. unfold update_commit. by case_match.
Qed.

Lemma update_term_state t n :
  (update_term t n = n ∧ t ≤ current_term (persistent n)) ∨
  state (update_term t n) = Follower ∧ current_term (persistent n) < t
  ∧ persistent (update_term t n) = mkPersistentState t None.
Proof. unfold update_term. destruct (Z.ltb_spec (current_term (persistent n)) t); [by right|by left]. Qed.

(** A vote is for the current term or an older one, and a vote in the current term is the one
    the node remembers. *)
Definition votes_inv n (votes : list (Term * NodeId)) : Prop :=
  (∀ t c, (t, c) ∈ votes → t ≤ current_term (persistent n)
     ∧ (t = current_term (persistent n) → voted_for (persistent n) = Some c)) ∧
  (∀ t c1 c2, (t, c1) ∈ votes → (t, c2) ∈ votes → c1 = c2).

Lemma votes_inv_term n n' votes t :
  votes_inv n votes → persistent n' = persistent (update_term t n) → votes_inv n' votes.
Proof.
  intros [Hv Hu] Hp. split; [|done]. intros t' c Hin. rewrite Hp.
  destruct (update_term_state t n) as [[-> _]|(_ & Hlt & ->)]; [by apply Hv|].
  destruct (Hv t' c Hin). simpl. split; [lia|]. intros ->. lia.
Qed.

Lemma votes_inv_grant n n' votes c :
  votes_inv n votes → current_term (persistent n') = current_term (persistent n) →
  (voted_for (persistent n) = None ∨ voted_for (persistent n) = Some c) →
  voted_for (persistent n') = Some c →
  votes_inv n' ((current_term (persistent n), c) :: votes).
Proof.
  intros [Hv Hu] Ht Hold Hnew. split.
  - intros t c' [[= -> ->]|Hin]%elem_of_cons; rewrite Ht; [by split|].
    destruct (Hv t c' Hin) as [Hle Heq]. split; [done|]. intros ->.
    specialize (Heq eq_refl). rewrite Hnew. destruct Hold; congruence.
  - assert (∀ c', (current_term (persistent n), c') ∈ votes → c' = c) as Honly.
    { intros c' Hin. destruct (Hv _ _ Hin) as [_ Heq]. specialize (Heq eq_refl).
      destruct Hold; congruence. }
    intros t c1 c2 [Hc1|Hc1]%elem_of_cons [Hc2|Hc2]%elem_of_cons; simplify_eq; auto.
    + symmetry. auto.
    + by eapply Hu.
Qed.

Lemma votes_invariant n votes : raft_run true n votes → votes_inv n votes.
Proof.
  induction 1 as [now i ps k|n votes v n' _ IH Hstep].
  { split; [by intros ?? ?%elem_of_nil|by intros ??? ?%elem_of_nil]. }
  destruct Hstep as [now req n|req n|n r n' Hr|c n|n _ Hnw|n|n|n]; simpl; try done.
  - destruct (append_entries_state now req n) as [->|[_ Hp]]; [done|]. by eapply votes_inv_term.
  - unfold handle_request_vote. destruct (_ <? _); [done|].
    pose proof (votes_inv_term n (update_term (rv_term req) n) votes (rv_term req) IH eq_refl) as Hinv.
    destruct (_ && _) eqn:Hgrant; [|done]. simpl.
    apply andb_true_iff in Hgrant as [Hv _]. apply votes_inv_grant; try done.
    apply orb_true_iff in Hv as [?%bool_decide_eq_true|?%bool_decide_eq_true]; auto.
  - unfold apply_committed_entries in Hr. apply apply_loop_keeps in Hr as [_ Hp].
    destruct IH as [Hv Hu]. split; [|done]. by rewrite Hp.
  - unfold append_entry. by case_decide.
  - destruct IH as [Hv Hu]. split.
    + intros t c [[= -> ->]|Hin]%elem_of_cons; simpl; rewrite Hnw; [done|].
      destruct (Hv t c Hin). split; [lia|]. intros ->. lia.
    + intros t c1 c2 [Hc1|Hc1]%elem_of_cons [Hc2|Hc2]%elem_of_cons; simplify_eq; try done.
      * apply Hv in Hc2. lia.
      * apply Hv in Hc1. lia.
      * by eapply Hu.
Qed.

Lemma never_leader atomic n votes : raft_run atomic n votes → state n ≠ Leader.
Proof.
  induction 1 as [now i ps k|n votes v n' _ IH Hstep]; [done|].
  destruct Hstep as [now req n|req n|n r n' Hr|c n|n _ Hnw|n|n|n]; simpl; try done.
  - destruct (append_entries_state now req n) as [->|[-> _]]; [done|].
    by destruct (update_term_state (ae_term req) n) as [[-> _]|[-> _]].
  - assert (state (update_term (rv_term req) n) ≠ Leader).
    { by destruct (update_term_state (rv_term req) n) as [[-> _]|[-> _]]. }
    unfold handle_request_vote. destruct (_ <? _); [done|]. by destruct (_ && _).
  - unfold apply_committed_entries in Hr. by apply apply_loop_keeps in Hr as [-> _].
  - unfold append_entry. by case_decide.
Qed.
End runs.

(** ** Properties *)
Section properties.
Context `{CidCrate} {K : Type} `{!ColdStore K} `{!ColdLaws K}.
Implicit Types n : RaftNode K.

(** The node that has heard from the sender of a request and adopted its term. *)
Definition heard now (req : AppendEntriesRequest) n (v : VolatileState) (l : list LogEntry) : RaftNode K :=
  let newer := current_term (persistent n) <? ae_term req in
  mkRaftNode (id n) (peers n) (if newer then Follower else state n)
    (if newer then mkPersistentState (ae_term req) None else persistent n)
    v l (store n) now (Some (ae_leader_id req)).

(** C31. AppendEntries, for a request whose entries carry the consecutive indices behind
    [prev_log_index].  A request of an older term is refused and changes nothing.  Otherwise
    the node adopts the term, and the request succeeds exactly when the log has an entry of the
    given term just before the new ones (or they start at the beginning).  Either way the whole
    resulting node is given: a failure leaves log and commit index alone; a success keeps the
    log up to the new entries, keeps the stored entries whose terms agree, cuts the log at the
    first that does not and puts exactly the sent entries from there on in their place, so that
    every sent entry's term is at its place and a well-indexed log stays well indexed; and the
    commit index follows the leader's, up to the length of the new log. *)
Theorem append_entries_spec now (req : AppendEntriesRequest) n p
  (Hprev : ae_prev_log_index req = Z.of_nat p) (Hentries : entries_from p (ae_entries req))
  (Hlen : u64_len (length (log n) + length (ae_entries req))) :
  let '(resp, n') := handle_append_entries now req n in
  if ae_term req <? current_term (persistent n)
  then resp = mkAppendEntriesResponse (current_term (persistent n)) false None ∧ n' = n
  else
    let log' := take p (log n) ++ merged (drop p (log n)) (ae_entries req) in
    let commit' := if commit_index (volatile n) <? ae_leader_commit req
                   then Z.min (ae_leader_commit req) (log_len log') else commit_index (volatile n) in
    current_term (persistent n') = ae_term req ∧ ar_term resp = ae_term req
    ∧ (ar_success resp = true ↔
         p = 0%nat ∨ ∃ e, log n !! (p - 1)%nat = Some e ∧ term e = ae_prev_log_term req)
    ∧ (ar_success resp = false → n' = heard now req n (volatile n) (log n))
    ∧ (ar_success resp = true →
         n' = heard now req n (mkVolatileState commit' (last_applied (volatile n))) log'
         ∧ (wf_log (log n) → wf_log (log n'))
         ∧ ∀ i e, ae_entries req !! i = Some e →
             ∃ e', log n' !! (p + i)%nat = Some e' ∧ term e' = term e).
Proof.
  unfold handle_append_entries.
  destruct (Z.ltb_spec (ae_term req) (current_term (persistent n))) as [|Hge]; [done|].
  set (m := hear_from now (ae_leader_id req) (update_term (ae_term req) n)).
  assert (m = heard now req n (volatile n) (log n)) as Hm.
  { unfold m, heard, update_term. by destruct (_ <? _). }
  assert (current_term (persistent m) = ae_term req) as Htm.
  { rewrite Hm. unfold heard. simpl. destruct (Z.ltb_spec (current_term (persistent n)) (ae_term req)); simpl; lia. }
  assert (log m = log n) as Hlm by (by rewrite Hm).
  clearbody m.
  assert ((check_prev req m = None ↔
             p = 0%nat ∨ ∃ e, log n !! (p - 1)%nat = Some e ∧ term e = ae_prev_log_term req) ∧
          ∀ r, check_prev req m = Some r → ar_success r = false ∧ ar_term r = ae_term req) as [Hcp Hfail].
  { unfold check_prev. rewrite Hprev, Hlm, Htm. destruct (Z.ltb_spec 0 (Z.of_nat p)) as [Hp|Hp].
    - replace (Z.to_nat (Z.of_nat p - 1)) with (p - 1)%nat by lia.
      destruct (log n !! (p - 1)%nat) as [e|]; [destruct (Z.eqb_spec (term e) (ae_prev_log_term req))|];
        split; try (intros r [= <-]; done); split; try done; naive_solver lia.
    - split; [|done]. split; [|done]. intros _. left. lia. }
  destruct (check_prev req m) as [r|] eqn:Hc; cbv zeta.
  - destruct (Hfail r eq_refl) as [Hs Ht]. rewrite Hs. split_and!; try done.
    split; [done|]. intros Hbad. apply Hcp in Hbad. done.
  - assert (p ≤ length (log n))%nat as Hple.
    { destruct (proj1 Hcp eq_refl) as [->|(e & He & _)]; [lia|]. apply lookup_lt_Some in He. lia. }
    rewrite Hlm, (append_entries_merged _ _ _ Hentries Hple Hlen).
    set (log' := take p (log n) ++ _) in *.
    set (v := mkVolatileState _ _).
    assert (update_commit (ae_leader_commit req) (set_log log' m) = heard now req n v log') as ->.
    { unfold update_commit, v. rewrite Hm. cbn [volatile heard set_log log].
      destruct (_ <? _); [done|]. by destruct (volatile n). }
    rewrite Hm in Htm. split_and!; [exact Htm|exact Htm|split; [by intros _; apply Hcp|done]|done|].
    intros _. split_and!; [done|intros Hl; by apply merged_wf|]. intros i e Hi. cbn [heard log].
    unfold log'. rewrite lookup_app_r, length_take, Nat.min_l by (rewrite ?length_take; lia).
    replace (p + i - p)%nat with i by lia. by apply merged_agrees.
Qed.

(** The commit index follows the leader over entries it has not confirmed: a heartbeat
    that starts at the beginning of the log, of a term that is not older and with a commit
    index at least as long as the follower's log, commits the follower's whole log, whatever
    entries are in it and whichever term they come from. *)
Theorem heartbeat_commits_unconfirmed now leader t commit n
  (Hterm : current_term (persistent n) ≤ t) (Hcommit : commit_index (volatile n) < commit)
  (Hlen : log_len (log n) ≤ commit) :
  let '(resp, n') := handle_append_entries now (mkAppendEntriesRequest t leader 0 0 [] commit) n in
  ar_success resp = true ∧ log n' = log n ∧ commit_index (volatile n') = log_len (log n).
Proof.
  unfold handle_append_entries. simpl. destruct (Z.ltb_spec t (current_term (persistent n))); [lia|].
  unfold check_prev, update_commit. simpl.
  assert (log (update_term t n) = log n ∧ volatile (update_term t n) = volatile n) as [Hl Hv]
    by (unfold update_term; by case_match).
  rewrite Hl, Hv. destruct (Z.ltb_spec (commit_index (volatile n)) commit); [|lia]. simpl.
  split_and!; try done. lia.
Qed.

(** One vote per term: as long as the election timer's writes are not interleaved with
    the handlers, a node never votes for two candidates in one term, itself included, over
    any run of requests, elections and applications in which no election increments the last
    term, 2^64 - 1, which wraps to 0. *)
Theorem one_vote_per_term n votes t c1 c2 (Hrun : raft_run true n votes)
  (Hv1 : (t, c1) ∈ votes) (Hv2 : (t, c2) ∈ votes) : c1 = c2.
Proof. by eapply (proj2 (votes_invariant n votes Hrun)). Qed.

(** The timer's writes are not atomic, and one vote per term can fail: a RequestVote that
    arrives after the timer has incremented the term and before it has recorded its own vote
    is granted when the node has not voted in the old term and the candidate's log is as good
    as its own; the node then votes for itself in the same term. *)
Theorem election_race_votes_twice n votes (req : RequestVoteRequest)
  (Hrun : raft_run false n votes) (Hfree : voted_for (persistent n) = None)
  (Hterm : rv_term req = as_u64 (current_term (persistent n) + 1)) (Hlog : log_ok req (log n) = true) :
  let t := as_u64 (current_term (persistent n) + 1) in
  ∃ n' votes', raft_run false n' votes' ∧ (t, rv_candidate_id req) ∈ votes' ∧ (t, id n) ∈ votes'
    ∧ current_term (persistent n') = t ∧ voted_for (persistent n') = Some (id n).
Proof.
  set (n1 := increment_term (become_candidate n)).
  assert (handle_request_vote req n1 =
    (mkRequestVoteResponse (as_u64 (current_term (persistent n) + 1)) true,
     set_persistent (mkPersistentState (as_u64 (current_term (persistent n) + 1)) (Some (rv_candidate_id req))) n1))
    as Hgrant.
  { assert (current_term (persistent n1) = rv_term req) as Ht1 by done.
    assert (update_term (rv_term req) n1 = n1) as Hupd
      by (unfold update_term; by rewrite Ht1, Z.ltb_irrefl).
    unfold handle_request_vote. rewrite Hupd, Ht1, Z.ltb_irrefl.
    change (log n1) with (log n). change (voted_for (persistent n1)) with (voted_for (persistent n)).
    by rewrite Hlog, Hfree, Hterm. }
  pose proof (run_step false _ _ _ _ Hrun (step_candidate false n eq_refl)) as R1.
  pose proof (run_step false _ _ _ _ R1 (step_increment false _ eq_refl)) as R2.
  pose proof (run_step false _ _ _ _ R2 (step_vote false req n1)) as R3. rewrite Hgrant in R3.
  pose proof (run_step false _ _ _ _ R3 (step_self_vote false _ eq_refl)) as R4.
  eexists _, _. split; [exact R4|]. simpl. split_and!; [right; left|left|done|done].
Qed.

(** No node of the cluster ever becomes leader: under every interleaving of requests,
    elections, applications and client calls the state is follower or candidate, so
    [is_leader] is false and every client command is refused. *)
Theorem raft_never_leads atomic n votes (c : Command) (Hrun : raft_run atomic n votes) :
  is_leader n = false ∧ append_entry c n = (Err Internal, n).
Proof.
  apply never_leader in Hrun. split; [by apply bool_decide_eq_false|].
  unfold append_entry. by rewrite decide_True.
Qed.

(** Application: with the commit index inside the log, [apply_committed_entries] ends,
    without a panic, having executed the commands after [last_applied] in log order, each
    once; it succeeds when it has reached the commit index. When the backend fails on a
    command the entry counts as applied although it has not been executed, so that the next
    call goes on behind it. *)
Theorem apply_committed_spec n
  (Hpos : 0 ≤ last_applied (volatile n)) (Hle : last_applied (volatile n) ≤ commit_index (volatile n))
  (Hlen : commit_index (volatile n) ≤ log_len (log n)) :
  let '(r, n') := apply_committed_entries n in
  let pending := drop (Z.to_nat (last_applied (volatile n))) (log n) in
  ∃ j, last_applied (volatile n') = last_applied (volatile n) + Z.of_nat j
    ∧ log n' = log n ∧ commit_index (volatile n') = commit_index (volatile n)
    ∧ match r with
      | Ok _ => last_applied (volatile n') = commit_index (volatile n)
          ∧ contents (store n') = effects (contents (store n)) (take j pending)
      | Err _ => (0 < j)%nat ∧ last_applied (volatile n') ≤ commit_index (volatile n)
          ∧ contents (store n') = effects (contents (store n)) (take (j - 1) pending)
      | _ => False
      end.
Proof.
  destruct (apply_committed_entries n) as [r n'] eqn:Hrun. unfold apply_committed_entries in Hrun.
  apply apply_loop_spec in Hrun as (Hlog & Hci & j & Hla & Hr); [|lia..].
  exists j. split_and!; try done. destruct r; try done. destruct Hr. split; [lia|done].
Qed.
End properties.

(** ** Witnesses *)
Import Reference.

Definition entry (t i : Z) : LogEntry := mkLogEntry t i CmdNoOp.
Definition raft_0 : RaftNode MemoryBlockStore := RaftNode_new 0 1 [2; 3] MemoryBlockStore_new.
(** Two entries of term 1 from leader 2. *)
Definition raft_1 : RaftNode MemoryBlockStore :=
  (handle_append_entries 10 (mkAppendEntriesRequest 1 2 0 0 [entry 1 1; entry 1 2] 1) raft_0).2.

Lemma raft_1_run atomic : raft_run atomic raft_1 [].
Proof. exact (run_step atomic _ _ _ _ (run_new atomic 0 1 [2; 3] MemoryBlockStore_new) (step_append atomic 10 _ _)). Defined.

(** The leader of term 2 replaces the second entry and adds a third. *)
Definition raft_req : AppendEntriesRequest :=
  mkAppendEntriesRequest 2 3 1 1 [entry 2 2; entry 2 3] 1.

Lemma append_entries_spec_witness :
  let '(resp, n') := handle_append_entries 20 raft_req raft_1 in
  (ar_success resp = true ↔ 1%nat = 0%nat ∨ ∃ e, log raft_1 !! 0%nat = Some e ∧ term e = 1)
  ∧ (ar_success resp = true → log n' = [entry 1 1; entry 2 2; entry 2 3] ∧ commit_index (volatile n') = 1).
Proof.
  assert (entries_from 1 (ae_entries raft_req)) as Hes.
  { intros [|[|i]] e He; [by injection He as <-|by injection He as <-|done]. }
  assert (u64_len (length (log raft_1) + length (ae_entries raft_req))) as Hlen by (vm_compute; done).
  pose proof (append_entries_spec 20 raft_req raft_1 1 eq_refl Hes Hlen) as Hspec.
  destruct (handle_append_entries 20 raft_req raft_1) as [resp n'].
  destruct Hspec as (_ & _ & Hs & _ & Hn). split; [exact Hs|].
  intros Hok. destruct (Hn Hok) as (-> & _). split; reflexivity.
Defined.

(** A request that repeats stored entries does not cut those behind it. *)
Example repeated_entries_kept :
  let n := set_log [entry 1 1; entry 1 2; entry 1 3] raft_1 in
  log (handle_append_entries 20 (mkAppendEntriesRequest 1 2 0 0 [entry 1 1; entry 1 2] 0) n).2 = log n.
Proof. reflexivity. Qed.

(** A new leader that knows nothing of the follower's two entries commits both. *)
Lemma heartbeat_commits_unconfirmed_witness :
  let '(resp, n') := handle_append_entries 30 (mkAppendEntriesRequest 2 3 0 0 [] 2) raft_1 in
  ar_success resp = true ∧ log n' = log raft_1 ∧ commit_index (volatile n') = 2.
Proof. apply (heartbeat_commits_unconfirmed 30 3 2 2 raft_1); vm_compute; congruence. Defined.

Definition raft_vote : RequestVoteRequest := mkRequestVoteRequest 2 2 2 1.

Lemma one_vote_per_term_witness :
  raft_run true (handle_request_vote raft_vote raft_1).2 [(2, 2)] ∧ 2 = 2.
Proof.
  assert (raft_run true (handle_request_vote raft_vote raft_1).2 [(2, 2)]) as Hrun
    by exact (run_step true _ _ _ _ (raft_1_run true) (step_vote true raft_vote raft_1)).
  split; [exact Hrun|]. apply (one_vote_per_term _ [(2, 2)] 2 2 2 Hrun); left.
Defined.

Lemma election_race_votes_twice_witness :
  ∃ n' votes', raft_run false n' votes' ∧ (2, 2) ∈ votes' ∧ (2, 1) ∈ votes'
    ∧ current_term (persistent n') = 2 ∧ voted_for (persistent n') = Some 1.
Proof.
  exact (election_race_votes_twice raft_1 [] raft_vote (raft_1_run false) eq_refl eq_refl eq_refl).
Defined.

Lemma raft_never_leads_witness : append_entry CmdNoOp raft_1 = (Err Internal, raft_1).
Proof. exact (proj2 (raft_never_leads true raft_1 [] CmdNoOp (raft_1_run true))). Defined.

Lemma apply_committed_spec_witness :
  let '(r, n') := apply_committed_entries raft_1 in
  ∃ j, last_applied (volatile n') = 0 + Z.of_nat j ∧ log n' = log raft_1.
Proof.
  pose proof (apply_committed_spec raft_1 ltac:(vm_compute; congruence) ltac:(vm_compute; congruence)
    ltac:(vm_compute; congruence)) as Hspec.
  destruct (apply_committed_entries raft_1) as [r n']. destruct Hspec as (j & Hj & Hl & _).
  exists j. split; [exact Hj|exact Hl].
Defined.

(** The documented search for the conflicting term's first index starts at the end of the log:
    entries of a later term behind the conflict stop it at once. *)
Example conflict_index_not_first :
  let n := set_log [entry 1 1; entry 1 2; entry 2 3] raft_1 in
  (handle_append_entries 40 (mkAppendEntriesRequest 3 3 2 3 [] 0) n).1
    = mkAppendEntriesResponse 3 false (Some 2).
Proof. vm_compute. reflexivity. Qed.
