(* ===== verification/Pinning.v ===== *)
(** * Pins: [crates/ipfrs-storage/src/pinning.rs]

    The pin manager maps the bytes of a CID to the kind of its pin and a reference count, and
    counts pins by kind in four atomic counters.  Calls are taken one at a time: a call's own
    accesses to the concurrent map are not interleaved with another's.  Saving and loading go
    through the [oxicode] crate and the file system; [load_entries] is the part after the
    decoding.  The [u64] counters wrap like the atomics, and the [u32] reference counts wrap as in
    the release profile (a build with overflow checks panics there instead). *)

From Stdlib Require Import ZArith Lia List.
From stdpp Require Import base tactics numbers list gmap sets strings.
From S2P Require Import Prelude Collections Cid.

#[local] Open Scope Z_scope.

Inductive PinType : Type := Direct | Recursive | Indirect.
#[global] Instance PinType_eq_dec : EqDecision PinType.
Proof. solve_decision. Defined.

Record PinInfo : Type := mkPinInfo {
  pin_type : PinType;
  ref_count : Z;
  created_at : Z;
  name : option string;
  pinned_by : option bytes;
}.

Definition PinInfo_new (now : Z) (t : PinType) : PinInfo := mkPinInfo t 1 now None None.
Definition with_name (i : PinInfo) (n : string) : PinInfo :=
  mkPinInfo (pin_type i) (ref_count i) (created_at i) (Some n) (pinned_by i).
Definition with_ref_count (i : PinInfo) (r : Z) : PinInfo :=
  mkPinInfo (pin_type i) r (created_at i) (name i) (pinned_by i).
Definition with_pin_type (i : PinInfo) (t : PinType) : PinInfo :=
  mkPinInfo t (ref_count i) (created_at i) (name i) (pinned_by i).

(** ** Statistics *)
Record PinStats : Type := mkPinStats {
  total_pins : Z;
  direct_pins : Z;
  recursive_pins : Z;
  indirect_pins : Z;
}.

Definition PinStats_default : PinStats := mkPinStats 0 0 0 0.

(** [fetch_add(d)] on the total and on the counter of one kind. *)
Definition count_pin (d : Z) (t : PinType) (s : PinStats) : PinStats :=
  let add x := as_u64 (x + d) in
  match t with
  | Direct =>
    mkPinStats (add (total_pins s)) (add (direct_pins s)) (recursive_pins s) (indirect_pins s)
  | Recursive =>
    mkPinStats (add (total_pins s)) (direct_pins s) (add (recursive_pins s)) (indirect_pins s)
  | Indirect =>
    mkPinStats (add (total_pins s)) (direct_pins s) (recursive_pins s) (add (indirect_pins s))
  end.
Definition increment : PinType → PinStats → PinStats := count_pin 1.
Definition decrement : PinType → PinStats → PinStats := count_pin (-1).

Section pinning.
Context `{CidCrate}.

Record PinManager : Type := mkPinManager {
  pins : gmap bytes PinInfo;
  stats : PinStats;
}.

Definition PinManager_new : PinManager := mkPinManager ∅ PinStats_default.

(** ** Pinning *)
Definition with_parent (i : PinInfo) (parent : Cid) : PinInfo :=
  mkPinInfo (pin_type i) (ref_count i) (created_at i) (name i) (Some (Cid_to_bytes parent)).

(** These calls always return [Ok]. *)
Definition pin_with_type (now : Z) (cid : Cid) (t : PinType) (nm : option string) (m : PinManager) :
    PinManager :=
  let key := Cid_to_bytes cid in
  match pins m !! key with
  | Some info =>
    let info := with_ref_count info (as_u32 (ref_count info + 1)) in
    if bool_decide (t = Recursive) && bool_decide (pin_type info = Direct)
    then mkPinManager (<[key := with_pin_type info Recursive]> (pins m))
           (increment Recursive (decrement Direct (stats m)))
    else mkPinManager (<[key := info]> (pins m)) (stats m)
  | None =>
    let info := PinInfo_new now t in
    let info := match nm with Some n => with_name info n | None => info end in
    mkPinManager (<[key := info]> (pins m)) (increment t (stats m))
  end.

Definition pin (now : Z) (cid : Cid) (m : PinManager) : PinManager := pin_with_type now cid Direct None m.
Definition pin_named (now : Z) (cid : Cid) (n : string) (m : PinManager) : PinManager :=
  pin_with_type now cid Direct (Some n) m.

Definition pin_indirect (now : Z) (cid parent : Cid) (m : PinManager) : PinManager :=
  let key := Cid_to_bytes cid in
  match pins m !! key with
  | Some info => mkPinManager (<[key := with_ref_count info (as_u32 (ref_count info + 1))]> (pins m)) (stats m)
  | None =>
    mkPinManager (<[key := with_parent (PinInfo_new now Indirect) parent]> (pins m))
      (increment Indirect (stats m))
  end.

Section resolver.
Context (link_resolver : Cid → outcome Error (list Cid)).

(** The inner [for] loop: fresh links are pinned and pushed. *)
Fixpoint pin_links (now : Z) (root : Cid) (links : list Cid) (seen : gset Cid) (pinned_count : nat)
    (to_process : list Cid) (m : PinManager) : gset Cid * nat * list Cid * PinManager :=
  match links with
  | [] => (seen, pinned_count, to_process, m)
  | link_cid :: links' =>
    if decide (link_cid ∈ seen) then pin_links now root links' seen pinned_count to_process m
    else pin_links now root links' ({[link_cid]} ∪ seen) (S pinned_count) (to_process ++ [link_cid])
           (pin_indirect now link_cid root m)
  end.

Fixpoint pin_loop (fuel : nat) (now : Z) (root : Cid) (to_process : list Cid) (seen : gset Cid)
    (pinned_count : nat) : stateful PinManager Error nat :=
  match last to_process with
  | None => lift (Ok pinned_count)
  | Some current_cid =>
    match fuel with
    | O => lift OutOfFuel
    | S fuel' =>
      do! links := lift (link_resolver current_cid) in
      λ m,
      let '(seen, pinned_count, to_process, m) :=
        pin_links now root links seen pinned_count (removelast to_process) m in
      pin_loop fuel' now root to_process seen pinned_count m
    end
  end.

Definition pin_recursive (fuel : nat) (now : Z) (cid : Cid) : stateful PinManager Error nat :=
  do! _ := modifies (pin_with_type now cid Recursive None) in
  pin_loop fuel now cid [cid] {[cid]} 1.

(** ** Unpinning *)
Definition unpin (cid : Cid) (m : PinManager) : bool * PinManager :=
  let key := Cid_to_bytes cid in
  match pins m !! key with
  | Some info =>
    if ref_count info <=? 1
    then (true, mkPinManager (delete key (pins m)) (decrement (pin_type info) (stats m)))
    else (false, mkPinManager (<[key := with_ref_count info (as_u32 (ref_count info - 1))]> (pins m)) (stats m))
  | None => (false, m)
  end.

Fixpoint unpin_loop (fuel : nat) (to_process : list Cid) (seen : gset Cid) (unpinned_count : nat) :
    stateful PinManager Error nat :=
  match last to_process with
  | None => lift (Ok unpinned_count)
  | Some current_cid =>
    match fuel with
    | O => lift OutOfFuel
    | S fuel' =>
      let to_process := removelast to_process in
      if decide (current_cid ∈ seen) then unpin_loop fuel' to_process seen unpinned_count else
      λ m,
      let '(removed, m) := unpin current_cid m in
      let unpinned_count := if removed then S unpinned_count else unpinned_count in
      match link_resolver current_cid with
      | Ok links => unpin_loop fuel' (to_process ++ links) ({[current_cid]} ∪ seen) unpinned_count m
      | Err _ => unpin_loop fuel' to_process ({[current_cid]} ∪ seen) unpinned_count m
      | Panic => (Panic, m)
      | OutOfFuel => (OutOfFuel, m)
      end
    end
  end.

Definition unpin_recursive (fuel : nat) (cid : Cid) : stateful PinManager Error nat :=
  unpin_loop fuel [cid] ∅ 0.
End resolver.

(** ** Queries *)
Definition is_pinned (m : PinManager) (cid : Cid) : bool :=
  bool_decide (is_Some (pins m !! Cid_to_bytes cid)).
Definition get_pin_info (m : PinManager) (cid : Cid) : option PinInfo := pins m !! Cid_to_bytes cid.

Section iteration.
Context `{!HashIter bytes}.
Definition list_pins (m : PinManager) : outcome Error (list (Cid * PinInfo)) :=
  try_map (λ '(key, info), let! cid := ok_or (Cid_try_from key) CidError in Ok (cid, info))
    (hash_iter (pins m)).
Definition list_pins_by_type (m : PinManager) (t : PinType) : outcome Error (list Cid) :=
  try_map (λ '(key, _), ok_or (Cid_try_from key) CidError)
    (filter (λ p, pin_type p.2 = t) (hash_iter (pins m))).

(** [load_from_file], once the file is decoded. *)
Definition load_entries (entries : gmap bytes PinInfo) : PinManager :=
  fold_left (λ m '(key, info), mkPinManager (<[key := info]> (pins m)) (increment (pin_type info) (stats m)))
    (hash_iter entries) PinManager_new.
End iteration.

Definition clear (m : PinManager) : PinManager := mkPinManager ∅ PinStats_default.

(** ** Pin sets *)
Record PinSet : Type := mkPinSet {
  ps_name : string;
  ps_description : option string;
  ps_cids : list bytes;
  ps_created_at : Z;
}.
Definition PinSet_new (now : Z) (n : string) : PinSet := mkPinSet n None [] now.
Definition ps_add (cid : Cid) (s : PinSet) : PinSet :=
  let b := Cid_to_bytes cid in
  if decide (b ∈ ps_cids s) then s
  else mkPinSet (ps_name s) (ps_description s) (ps_cids s ++ [b]) (ps_created_at s).
Definition ps_remove (cid : Cid) (s : PinSet) : PinSet :=
  mkPinSet (ps_name s) (ps_description s) (filter (λ c, c ≠ Cid_to_bytes cid) (ps_cids s)) (ps_created_at s).
Definition ps_contains (cid : Cid) (s : PinSet) : bool := bool_decide (Cid_to_bytes cid ∈ ps_cids s).
Definition ps_list_cids (s : PinSet) : outcome Error (list Cid) :=
  try_map (λ b, ok_or (Cid_try_from b) CidError) (ps_cids s).
Definition ps_len (s : PinSet) : nat := length (ps_cids s).
Definition ps_is_empty (s : PinSet) : bool := Nat.eqb (ps_len s) 0.
End pinning.
