(* ===== verification/PinningFacts.v ===== *)
(** * Pins are counted right, and recursive pins can be taken back *)

From Stdlib Require Import ZArith Lia List.
From stdpp Require Import base tactics numbers list gmap sets strings fin_maps fin_sets relations.
From S2P Require Import Prelude Collections Cid Pinning.

#[local] Open Scope Z_scope.

(** ** Counting by kind *)
Definition is_kind (t t' : PinType) : Z := if decide (t = t') then 1 else 0.
Definition kinds (t : PinType) (P : gmap bytes PinInfo) : Z :=
  Z.of_nat (size (filter (λ p, pin_type p.2 = t) P)).

Lemma kinds_insert t P k i : P !! k = None → kinds t (<[k := i]> P) = kinds t P + is_kind t (pin_type i).
Proof.
  intros Hk. unfold kinds, is_kind. destruct (decide (t = pin_type i)) as [->|Hne].
  - rewrite map_filter_insert_True by done. rewrite map_size_insert_None; [lia|].
    apply map_lookup_filter_None. by left.
  - assert (filter (λ p, pin_type p.2 = t) (<[k := i]> P) = filter (λ p, pin_type p.2 = t) P) as ->; [|lia].
    rewrite map_filter_insert_False by (simpl; congruence). by rewrite delete_id.
Qed.

Lemma kinds_delete t P k i : P !! k = Some i → kinds t (delete k P) = kinds t P - is_kind t (pin_type i).
Proof.
  intros Hk. rewrite <- (insert_delete_id P k i Hk) at 2.
  rewrite kinds_insert by apply lookup_delete_eq. lia.
Qed.

Lemma kinds_replace t P k i i' : P !! k = Some i →
  kinds t (<[k := i']> P) = kinds t P - is_kind t (pin_type i) + is_kind t (pin_type i').
Proof.
  intros Hk. rewrite <- (insert_delete_eq P k i'). rewrite kinds_insert by apply lookup_delete_eq.
  by rewrite (kinds_delete t P k i).
Qed.

Section facts.
Context `{CidCrate} `{!CidLaws}.
Implicit Types (m : PinManager) (c root : Cid).

(** The statistics a map of pins should have. *)
Definition stats_of (P : gmap bytes PinInfo) : PinStats :=
  mkPinStats (as_u64 (Z.of_nat (size P))) (as_u64 (kinds Direct P)) (as_u64 (kinds Recursive P))
    (as_u64 (kinds Indirect P)).
Definition stats_inv m : Prop := stats m = stats_of (pins m).
Definition counts_ok m : Prop := ∀ k i, pins m !! k = Some i → 1 ≤ ref_count i < 2 ^ 32.

Lemma stats_insert P k i : P !! k = None →
  stats_of (<[k := i]> P) = increment (pin_type i) (stats_of P).
Proof.
  intros Hk. unfold stats_of. rewrite !kinds_insert, map_size_insert_None by done.
  rewrite Nat2Z.inj_succ, <- Z.add_1_r.
  destruct (pin_type i); unfold increment, count_pin, is_kind; simpl; rewrite !as_u64_add, ?Z.add_0_r;
    done.
Qed.

Lemma stats_delete P k i : P !! k = Some i →
  stats_of (delete k P) = decrement (pin_type i) (stats_of P).
Proof.
  intros Hk. unfold stats_of. rewrite !(kinds_delete _ P k i) by done.
  rewrite map_size_delete_Some by eauto.
  assert (0 < size P)%nat.
  { destruct (size P) eqn:Hs; [|lia]. apply map_size_empty_inv in Hs. by rewrite Hs, lookup_empty in Hk. }
  replace (Z.of_nat (pred (size P))) with (Z.of_nat (size P) + -1) by lia.
  destruct (pin_type i); unfold decrement, count_pin, is_kind; simpl; rewrite !as_u64_add, ?Z.sub_0_r;
    done.
Qed.

Lemma stats_same_kind P k i i' : P !! k = Some i → pin_type i' = pin_type i →
  stats_of (<[k := i']> P) = stats_of P.
Proof.
  intros Hk Ht. unfold stats_of. rewrite !(kinds_replace _ P k i i'), Ht by done.
  rewrite map_size_insert_Some by eauto. by rewrite !Z.sub_add.
Qed.

Lemma stats_upgrade P k i i' : P !! k = Some i → pin_type i = Direct → pin_type i' = Recursive →
  stats_of (<[k := i']> P) = increment Recursive (decrement Direct (stats_of P)).
Proof.
  intros Hk Hi Hi'. rewrite <- (insert_delete_eq P k i'), stats_insert by apply lookup_delete_eq.
  by rewrite (stats_delete P k i), Hi, Hi'.
Qed.

Lemma pin_with_type_stats now c t nm m : stats_inv m → stats_inv (pin_with_type now c t nm m).
Proof.
  unfold stats_inv, pin_with_type. intros Hs. destruct (pins m !! Cid_to_bytes c) as [i|] eqn:Hi.
  - destruct (bool_decide (t = Recursive) && _) eqn:Hup; simpl.
    + apply andb_true_iff in Hup as [_ Hd%bool_decide_eq_true]. by rewrite (stats_upgrade _ _ i), Hs.
    + by rewrite (stats_same_kind _ _ i).
  - simpl. rewrite stats_insert, Hs by done. by destruct nm.
Qed.

Lemma pin_indirect_stats now c parent m : stats_inv m → stats_inv (pin_indirect now c parent m).
Proof.
  unfold stats_inv, pin_indirect. intros Hs. destruct (pins m !! Cid_to_bytes c) as [i|] eqn:Hi; simpl.
  - by rewrite (stats_same_kind _ _ i).
  - by rewrite stats_insert, Hs.
Qed.

Lemma unpin_stats c m : stats_inv m → stats_inv (unpin c m).2.
Proof.
  unfold stats_inv, unpin. intros Hs. destruct (pins m !! Cid_to_bytes c) as [i|] eqn:Hi; [|done].
  destruct (Z.leb_spec (ref_count i) 1); simpl.
  - by rewrite (stats_delete _ _ i), Hs.
  - by rewrite (stats_same_kind _ _ i).
Qed.

(** ** Reference counts *)
Definition refs m c : Z := match pins m !! Cid_to_bytes c with Some i => ref_count i | None => 0 end.
Definition one (P : Prop) `{Decision P} : Z := if decide P then 1 else 0.

Lemma one_nonneg (P : Prop) `{Decision P} : 0 ≤ one P.
Proof. unfold one. case_decide; lia. Qed.

Lemma to_bytes_inj c c' : Cid_to_bytes c = Cid_to_bytes c' → c = c'.
Proof.
  intros Heq. pose proof (Cid_try_from_to_bytes c) as Hc. rewrite Heq, Cid_try_from_to_bytes in Hc. congruence.
Qed.

Lemma refs_insert (P : gmap bytes PinInfo) s c i c' :
  refs (mkPinManager (<[Cid_to_bytes c := i]> P) s) c' =
    if decide (c' = c) then ref_count i else refs (mkPinManager P s) c'.
Proof.
  unfold refs. simpl. destruct (decide (c' = c)) as [->|Hne]; [by rewrite lookup_insert_eq|].
  rewrite lookup_insert_ne; [done|]. intros ?%to_bytes_inj. congruence.
Qed.

Lemma refs_range m c : counts_ok m → 0 ≤ refs m c < 2 ^ 32.
Proof. intros Hok. unfold refs. destruct (pins m !! _) eqn:E; [apply Hok in E|]; lia. Qed.

Lemma refs_pinned m c : counts_ok m → is_pinned m c = bool_decide (0 < refs m c).
Proof.
  intros Hok. unfold is_pinned, refs. apply bool_decide_ext. destruct (pins m !! _) as [i|] eqn:E.
  - apply Hok in E. split; [lia|by eexists].
  - split; [by intros []|lia].
Qed.

(** A map of pins after one entry is set to a count in range. *)
Lemma counts_insert m k i : counts_ok m → 1 ≤ ref_count i < 2 ^ 32 →
  ∀ s, counts_ok (mkPinManager (<[k := i]> (pins m)) s).
Proof. intros Hok Hi s k' j. simpl. intros [[_ <-]|[_ Hk]]%lookup_insert_Some; [done|by eapply Hok]. Qed.

(** Below the largest count a pin adds one reference. *)
Lemma pin_with_type_refs now c t nm m : counts_ok m → refs m c < 2 ^ 32 - 1 →
  counts_ok (pin_with_type now c t nm m)
  ∧ ∀ c', refs (pin_with_type now c t nm m) c' = refs m c' + one (c' = c).
Proof.
  intros Hok Hroom. pose proof (refs_range m c Hok) as Hr. unfold pin_with_type, one.
  destruct (pins m !! Cid_to_bytes c) as [i|] eqn:Hi.
  - pose proof (Hok _ _ Hi). assert (refs m c = ref_count i) as Hc by (unfold refs; by rewrite Hi).
    rewrite as_u32_small by lia.
    destruct (bool_decide (t = Recursive) && _); (split; [by apply counts_insert; [|simpl; lia]|]);
      intros c'; rewrite refs_insert; destruct (decide (c' = c)) as [->|]; simpl;
      unfold refs in *; simpl; lia.
  - assert (refs m c = 0) as Hc by (unfold refs; by rewrite Hi).
    split; [apply counts_insert; [done|by destruct nm]|]. intros c'.
    rewrite refs_insert. destruct (decide (c' = c)) as [->|]; [|unfold refs; simpl; lia].
    rewrite Hc. by destruct nm.
Qed.

Lemma pin_indirect_refs now c parent m : counts_ok m → refs m c < 2 ^ 32 - 1 →
  counts_ok (pin_indirect now c parent m)
  ∧ ∀ c', refs (pin_indirect now c parent m) c' = refs m c' + one (c' = c).
Proof.
  intros Hok Hroom. unfold pin_indirect, one. destruct (pins m !! Cid_to_bytes c) as [i|] eqn:Hi.
  - pose proof (Hok _ _ Hi). assert (refs m c = ref_count i) as Hc by (unfold refs; by rewrite Hi).
    rewrite as_u32_small by lia. split; [by apply counts_insert; [|simpl; lia]|].
    intros c'. rewrite refs_insert; destruct (decide (c' = c)) as [->|]; simpl; unfold refs in *; simpl; lia.
  - assert (refs m c = 0) as Hc by (unfold refs; by rewrite Hi).
    split; [by apply counts_insert|]. intros c'. rewrite refs_insert.
    destruct (decide (c' = c)) as [->|]; [rewrite Hc; done|unfold refs; simpl; lia].
Qed.

(** An unpin takes one reference back, and reports whether it was the last. *)
Lemma unpin_refs c m : counts_ok m →
  counts_ok (unpin c m).2
  ∧ (∀ c', refs (unpin c m).2 c' = Z.max 0 (refs m c' - one (c' = c)))
  ∧ (unpin c m).1 = bool_decide (refs m c = 1).
Proof.
  intros Hok. pose proof (λ c', refs_range m c' Hok) as Hr. unfold unpin, one.
  destruct (pins m !! Cid_to_bytes c) as [i|] eqn:Hi.
  - pose proof (Hok _ _ Hi). assert (refs m c = ref_count i) as Hc by (unfold refs; by rewrite Hi).
    destruct (Z.leb_spec (ref_count i) 1); simpl;
      (split_and!; [| |by case_bool_decide; (done || lia)]).
    + intros k j. simpl. intros [_ Hk]%lookup_delete_Some. by eapply Hok.
    + intros c'. specialize (Hr c'). unfold refs in *. simpl. destruct (decide (c' = c)) as [->|Hne].
      * rewrite lookup_delete_eq, Hi. lia.
      * rewrite lookup_delete_ne by (intros ?%to_bytes_inj; congruence). lia.
    + apply counts_insert; [done|]. simpl. rewrite as_u32_small; lia.
    + intros c'. specialize (Hr c'). rewrite refs_insert. destruct (decide (c' = c)) as [->|]; simpl.
      * rewrite as_u32_small; lia.
      * unfold refs in *. simpl. lia.
  - simpl. assert (refs m c = 0) as Hc by (unfold refs; by rewrite Hi). split_and!; [done| |].
    + intros c'. specialize (Hr c'). destruct (decide (c' = c)) as [->|]; lia.
    + rewrite bool_decide_eq_false_2; [done|lia].
Qed.

(** ** Recursive pins *)
Section walks.
Context (link_resolver : Cid → outcome Error (list Cid)).

Lemma one_visit (X : gset Cid) c seen c' (x : Z) : c ∉ seen → c ∈ X →
  x + one (c' = c) + one (c' ∈ X ∖ ({[c]} ∪ seen)) = x + one (c' ∈ X ∖ seen).
Proof.
  intros Hc HX. unfold one. destruct (decide (c' = c)) as [->|Hne].
  - rewrite decide_False, decide_True by set_solver. lia.
  - destruct (decide (c' ∈ X ∖ ({[c]} ∪ seen))); [rewrite decide_True|rewrite decide_False];
      set_solver by lia.
Qed.

(** The inner loop adds each link not seen before, once. *)
Lemma pin_links_spec now root links seen n tp m seen' n' tp' m' :
  pin_links now root links seen n tp m = (seen', n', tp', m') →
  counts_ok m → (∀ c, c ∈ links → c ∉ seen → refs m c < 2 ^ 32 - 1) →
  seen' = seen ∪ list_to_set links
  ∧ (n' + size seen = n + size seen')%nat
  ∧ (length tp' + size seen = length tp + size seen')%nat
  ∧ (∀ c, c ∈ tp' ↔ c ∈ tp ∨ c ∈ links ∧ c ∉ seen)
  ∧ counts_ok m'
  ∧ (∀ c, refs m' c = refs m c + one (c ∈ seen' ∖ seen)).
Proof.
  revert seen n tp m. induction links as [|c links IH]; intros seen n tp m Hrun Hok Hroom; simpl in Hrun.
  - injection Hrun as <- <- <- <-. split_and!; [set_solver|lia|lia|set_solver|done|].
    intros c. unfold one. rewrite decide_False by set_solver. lia.
  - destruct (decide (c ∈ seen)) as [Hc|Hc].
    + apply IH in Hrun as (-> & Hn & Ht & Htp & Hi & Hr); [|done|set_solver].
      assert (seen ∪ list_to_set (c :: links) = seen ∪ list_to_set links) as ->.
      { rewrite list_to_set_cons, (union_comm_L {[c]}), union_assoc_L.
        clear -Hc. apply set_eq. intros x. rewrite !elem_of_union, elem_of_singleton. naive_solver. }
      split_and!; try done. intros c'. rewrite Htp, elem_of_cons. naive_solver.
    + destruct (pin_indirect_refs now c root m) as [Hok1 Hr1]; [done|by apply Hroom; [left|]|].
      apply IH in Hrun as (-> & Hn & Ht & Htp & Hi & Hr); [|done|].
      2:{ intros c' Hin Hns. rewrite Hr1. unfold one. rewrite decide_False by set_solver.
          assert (refs m c' < 2 ^ 32 - 1) by (apply Hroom; [by right|clear -Hns; set_solver]). lia. }
      rewrite length_app in Ht. simpl in Ht.
      rewrite size_union, size_singleton in Hn, Ht by set_solver.
      assert ({[c]} ∪ seen ∪ list_to_set links = seen ∪ list_to_set (c :: links)) as Heq
        by (rewrite list_to_set_cons, (union_comm_L {[c]}); by rewrite union_assoc_L).
      rewrite Heq in *. split_and!; [done|lia|lia| |done|].
      * intros c'. rewrite Htp, elem_of_app, list_elem_of_singleton, elem_of_cons.
        rewrite elem_of_union, elem_of_singleton. clear -Hc. destruct (decide (c' = c)); naive_solver.
      * intros c'. rewrite Hr, Hr1. apply one_visit; [done|]. rewrite <- Heq. set_solver.
Qed.

(** A finite graph the resolver knows: every link leads to a vertex of the graph. *)
Context (G : gmap Cid (list Cid)).
Definition edge c c' : Prop := ∃ l, G !! c = Some l ∧ c' ∈ l.
Context (Hres : ∀ c l, G !! c = Some l → link_resolver c = Ok l).
Context (Hclosed : ∀ c c', edge c c' → c' ∈ dom G).

Lemma reach_dom root c : root ∈ dom G → rtc edge root c → c ∈ dom G.
Proof. intros Hroot Hc. apply rtc_inv_r in Hc as [<-|(x & _ & He)]; eauto. Qed.

Lemma closed_exact root (K : gset Cid) : root ∈ K → (∀ c, c ∈ K → rtc edge root c) →
  (∀ c c', c ∈ K → edge c c' → c' ∈ K) → ∀ c, c ∈ K ↔ rtc edge root c.
Proof. intros Hroot Hr Hcl c. split; [by apply Hr|]. apply (rtc_ind_r (λ c, c ∈ K) root); eauto. Qed.

Lemma pin_loop_spec fuel now root tp seen n m :
  root ∈ dom G → root ∈ seen → (∀ c, c ∈ tp → c ∈ seen) → (∀ c, c ∈ seen → rtc edge root c) →
  (∀ c c', c ∈ seen → edge c c' → c ∈ tp ∨ c' ∈ seen) →
  (size (dom G) + length tp ≤ fuel + size seen)%nat →
  counts_ok m → (∀ c, rtc edge root c → c ∉ seen → refs m c < 2 ^ 32 - 1) →
  ∃ K n' m', pin_loop link_resolver fuel now root tp seen n m = (Ok n', m')
    ∧ (n' + size seen = n + size K)%nat ∧ (∀ c, c ∈ K ↔ rtc edge root c)
    ∧ counts_ok m' ∧ ∀ c, refs m' c = refs m c + one (c ∈ K ∖ seen).
Proof.
  intros Hroot Hrs. revert tp seen n m Hrs.
  induction fuel as [|fuel IH]; intros tp seen n m Hrs Htp Hreach Hcl Hf Hok Hroom;
    destruct (frontier_cases tp) as [->|(c & f & -> & Hlast & Hrl)]; simpl.
  1, 3: exists seen, n, m; split_and!; [done|lia| |done|];
    [apply closed_exact; [done..|]; intros c c' Hc He; destruct (Hcl c c' Hc He); set_solver
    |intros c; unfold one; rewrite decide_False by set_solver; lia].
  { assert (size seen ≤ size (dom G))%nat as Hle.
    { apply subseteq_size. intros x Hx. eapply reach_dom; eauto. }
    rewrite length_app in Hf. simpl in Hf. lia. }
  rewrite Hlast, Hrl. assert (c ∈ seen) as Hc by (apply Htp; set_solver).
  assert (is_Some (G !! c)) as [l Hl] by (apply elem_of_dom; eapply reach_dom; eauto).
  rewrite (Hres c l Hl), st_bind_lift.
  destruct (pin_links now root l seen n f m) as [[[seen1 n1] tp1] m1] eqn:Hrun.
  assert (∀ x, x ∈ l → rtc edge root x) as Hlr.
  { intros x Hx. eapply rtc_r; [by apply Hreach|]. by exists l. }
  apply pin_links_spec in Hrun as (-> & Hn & Ht & Htp1 & Hok1 & Hr1); [|done|by eauto].
  edestruct (IH tp1 (seen ∪ list_to_set l) n1 m1) as (K & n' & m' & Hrun & Hn' & HK & Hok' & Hr').
  - set_solver.
  - intros x [Hx|Hx]%Htp1; [|set_solver]. apply elem_of_union_l, Htp. set_solver.
  - intros x [Hx|Hx%elem_of_list_to_set]%elem_of_union; eauto.
  - intros x y [Hx|Hx%elem_of_list_to_set]%elem_of_union He.
    + destruct (Hcl x y Hx He) as [[Hxf| ->%list_elem_of_singleton]%elem_of_app|]; [|right|set_solver].
      * left. apply Htp1. by left.
      * destruct He as (l' & Hl' & Hy). rewrite Hl in Hl'. injection Hl' as <-. set_solver.
    + destruct (decide (x ∈ seen)) as [Hxs|Hxs]; [|left; apply Htp1; by right].
      destruct (Hcl x y Hxs He) as [[Hxf| ->%list_elem_of_singleton]%elem_of_app|]; [|right|set_solver].
      * left. apply Htp1. by left.
      * destruct He as (l' & Hl' & Hy). rewrite Hl in Hl'. injection Hl' as <-. set_solver.
  - rewrite length_app in Hf. simpl in Hf. lia.
  - done.
  - intros x Hx Hns. rewrite Hr1. unfold one. rewrite decide_False by set_solver.
    assert (refs m x < 2 ^ 32 - 1) by (apply Hroom; [done|clear -Hns; set_solver]). lia.
  - exists K, n', m'. split_and!; [done|lia|done|done|]. intros x. rewrite Hr', Hr1. unfold one.
    assert (seen ∪ list_to_set l ⊆ K) as Hsub.
    { intros y [Hy|Hy%elem_of_list_to_set]%elem_of_union; apply HK; eauto. }
    repeat destruct (decide _); try lia; set_solver.
Qed.

(** Removing one reference from every vertex not visited yet. *)
Definition released m c (K : gset Cid) : Z := Z.max 0 (refs m c - one (c ∈ K)).
Definition last_refs m (K : gset Cid) : nat := size (filter (λ c, refs m c = 1) K).

Lemma released_visit m m1 (K seen : gset Cid) c :
  counts_ok m → (∀ c', refs m1 c' = Z.max 0 (refs m c' - one (c' = c))) → c ∈ K → c ∉ seen →
  (∀ c', released m1 c' (K ∖ ({[c]} ∪ seen)) = released m c' (K ∖ seen))
  ∧ last_refs m (K ∖ seen) =
      ((if decide (refs m c = 1%Z) then 1 else 0) + last_refs m1 (K ∖ ({[c]} ∪ seen)))%nat.
Proof.
  intros Hok Hr HK Hc. split.
  - intros c'. pose proof (refs_range m c' Hok). unfold released. rewrite Hr.
    pose proof (one_visit K c seen c' 0 Hc HK). pose proof (one_nonneg (c' = c)).
    pose proof (one_nonneg (c' ∈ K ∖ ({[c]} ∪ seen))). lia.
  - assert (K ∖ seen = {[c]} ∪ (K ∖ ({[c]} ∪ seen))) as ->.
    { apply set_eq. intros x. destruct (decide (x = c)); set_solver. }
    unfold last_refs. rewrite (filter_union_L (C := gset Cid) _ {[c]}).
    assert (filter (λ x, refs m x = 1) (K ∖ ({[c]} ∪ seen))
            = filter (λ x, refs m1 x = 1) (K ∖ ({[c]} ∪ seen))) as ->.
    { apply set_eq. intros x. rewrite !elem_of_filter, Hr. unfold one.
      pose proof (refs_range m x Hok). case_decide; [set_solver|].
      assert (Z.max 0 (refs m x - 0) = refs m x) as -> by lia. done. }
    assert (filter (λ x, refs m x = 1) {[c]} = if decide (refs m c = 1) then {[c]} else ∅ :> gset Cid) as ->
      by (case_decide; apply set_eq; intros x; rewrite elem_of_filter; set_solver).
    case_decide as H1; [|by rewrite union_empty_l_L].
    rewrite size_union; [by rewrite size_singleton|].
    clear. apply disjoint_singleton_l. rewrite elem_of_filter. set_solver.
Qed.

Lemma released_none m (K : gset Cid) :
  counts_ok m → last_refs m (K ∖ K) = 0%nat ∧ ∀ c, released m c (K ∖ K) = refs m c.
Proof.
  intros Hok. rewrite difference_diag_L. split.
  - unfold last_refs. apply size_empty_iff. intros x. rewrite elem_of_filter. set_solver.
  - intros c. pose proof (refs_range m c Hok). unfold released, one.
    rewrite decide_False by set_solver. lia.
Qed.

Lemma unpin_loop_spec fuel root tp seen n m :
  root ∈ dom G → root ∈ seen ∨ root ∈ tp → (∀ c, c ∈ tp ∨ c ∈ seen → rtc edge root c) →
  (∀ c c', c ∈ seen → edge c c' → c' ∈ seen ∨ c' ∈ tp) →
  (length tp + todo length G seen ≤ fuel)%nat → counts_ok m →
  ∃ K m', unpin_loop link_resolver fuel tp seen n m = (Ok (n + last_refs m (K ∖ seen))%nat, m')
    ∧ (∀ c, c ∈ K ↔ rtc edge root c) ∧ counts_ok m' ∧ ∀ c, refs m' c = released m c (K ∖ seen).
Proof.
  intros Hroot. revert tp seen n m.
  induction fuel as [|fuel IH]; intros tp seen n m Hrs Hreach Hcl Hf Hok;
    destruct (frontier_cases tp) as [->|(c & f & -> & Hlast & Hrl)]; simpl.
  1, 3: exists seen, m; destruct (released_none m seen Hok) as [-> Hrel];
    split_and!; [by rewrite Nat.add_0_r|apply closed_exact; set_solver|done|done].
  { rewrite length_app in Hf. simpl in Hf. lia. }
  rewrite Hlast, Hrl. rewrite length_app in Hf. simpl in Hf.
  assert (rtc edge root c) as Hrc by (apply Hreach; set_solver).
  destruct (decide (c ∈ seen)) as [Hc|Hc].
  { apply IH; [set_solver|set_solver| |lia|done]. intros x y Hx He. specialize (Hcl x y Hx He). set_solver. }
  destruct (unpin_refs c m Hok) as (Hok1 & Hr1 & Hrem).
  destruct (unpin c m) as [removed m1] eqn:Hun. simpl in Hok1, Hr1, Hrem.
  assert (is_Some (G !! c)) as [l Hl] by (apply elem_of_dom; eapply reach_dom; eauto).
  rewrite (Hres c l Hl).
  edestruct (IH (f ++ l) ({[c]} ∪ seen) (if removed then S n else n) m1) as (K & m' & Hrun & HK & Hok' & Hr').
  - set_solver.
  - intros x Hx. destruct (decide (x ∈ l)) as [Hxl|Hxl].
    + eapply rtc_r; [exact Hrc|by exists l].
    + destruct (decide (x = c)) as [->|]; [done|]. apply Hreach. set_solver.
  - intros x y [->%elem_of_singleton|Hx]%elem_of_union He.
    + destruct He as (l' & Hl' & Hy). rewrite Hl in Hl'. injection Hl' as <-. set_solver.
    + specialize (Hcl x y Hx He). set_solver.
  - rewrite length_app. pose proof (todo_visit length G seen c l Hl Hc). lia.
  - done.
  - destruct (released_visit m m1 K seen c Hok Hr1) as [Hrel Hlast1]; [by apply HK|done|].
    exists K, m'. split_and!; [|done|done|by intros x; rewrite Hr', Hrel].
    rewrite Hrun, Hlast1, Hrem. do 2 f_equal. case_bool_decide; case_decide; lia || done.
Qed.

(** [pin_recursive] and [unpin_recursive] from the root. *)
Lemma pin_recursive_spec fuel now root m :
  root ∈ dom G → (size (dom G) ≤ fuel)%nat →
  counts_ok m → (∀ c, rtc edge root c → refs m c < 2 ^ 32 - 1) →
  ∃ (K : gset Cid) m', pin_recursive link_resolver fuel now root m = (Ok (size K), m')
    ∧ (∀ c, c ∈ K ↔ rtc edge root c) ∧ counts_ok m' ∧ ∀ c, refs m' c = refs m c + one (c ∈ K).
Proof.
  intros Hroot Hf Hok Hroom. unfold pin_recursive, modifies, st_bind.
  destruct (pin_with_type_refs now root Recursive None m) as [Hok1 Hr1];
    [done|by apply Hroom, rtc_refl|].
  set (m1 := pin_with_type now root Recursive None m) in *.
  destruct (pin_loop_spec fuel now root [root] {[root]} 1 m1) as (K & n & m' & Hrun & Hn & HK & Hok' & Hr').
  - done.
  - set_solver.
  - set_solver.
  - intros c ->%elem_of_singleton. apply rtc_refl.
  - set_solver.
  - rewrite size_singleton. simpl. lia.
  - done.
  - intros c Hc Hne. rewrite Hr1. unfold one. rewrite decide_False by set_solver.
    specialize (Hroom c Hc). lia.
  - rewrite size_singleton in Hn. replace n with (size K) in * by lia.
    exists K, m'. split_and!; [done..|]. intros c. rewrite Hr', Hr1.
    assert (root ∈ K) as HrK by apply HK, rtc_refl.
    pose proof (one_visit K root ∅ c (refs m c) ltac:(set_solver) HrK) as Hv.
    by rewrite union_empty_r_L, difference_empty_L in Hv.
Qed.

Lemma unpin_recursive_spec fuel root m :
  root ∈ dom G → (1 + todo length G ∅ ≤ fuel)%nat → counts_ok m →
  ∃ (K : gset Cid) m', unpin_recursive link_resolver fuel root m = (Ok (last_refs m K), m')
    ∧ (∀ c, c ∈ K ↔ rtc edge root c) ∧ counts_ok m' ∧ ∀ c, refs m' c = released m c K.
Proof.
  intros Hroot Hf Hok.
  destruct (unpin_loop_spec fuel root [root] ∅ 0 m) as (K & m' & Hrun & HK & Hok' & Hr'); [done|set_solver| |set_solver| |done|].
  - intros c [->%list_elem_of_singleton|?]; [apply rtc_refl|set_solver].
  - simpl. lia.
  - rewrite difference_empty_L in *. by exists K, m'.
Qed.
End walks.

(** ** The operations as steps *)
Section steps.
Context `{!HashIter bytes}.

Inductive pin_step (m : PinManager) : PinManager → Prop :=
| step_pin now c : pin_step m (pin now c m)
| step_pin_named now c n : pin_step m (pin_named now c n m)
| step_pin_recursive resolver fuel now c : pin_step m (pin_recursive resolver fuel now c m).2
| step_unpin c : pin_step m (unpin c m).2
| step_unpin_recursive resolver fuel c : pin_step m (unpin_recursive resolver fuel c m).2
| step_load entries : pin_step m (load_entries entries)
| step_clear : pin_step m (clear m).

Lemma pin_links_stats now root links seen n tp m :
  stats_inv m → stats_inv (pin_links now root links seen n tp m).2.
Proof.
  revert seen n tp m. induction links as [|c links IH]; intros seen n tp m Hs; simpl; [done|].
  case_decide; [by apply IH|]. by apply IH, pin_indirect_stats.
Qed.

Lemma pin_loop_stats resolver fuel now root tp seen n m :
  stats_inv m → stats_inv (pin_loop resolver fuel now root tp seen n m).2.
Proof.
  revert tp seen n m. induction fuel as [|fuel IH]; intros tp seen n m Hs; simpl;
    (destruct (last tp) as [c|]; [|done]); [done|].
  unfold st_bind, lift. destruct (resolver c) as [links| | |]; try done.
  pose proof (pin_links_stats now root links seen n (removelast tp) m Hs) as Hl.
  destruct (pin_links _ _ _ _ _ _ _) as [[[seen' n'] tp'] m']. by apply IH.
Qed.

Lemma unpin_loop_stats resolver fuel tp seen n m :
  stats_inv m → stats_inv (unpin_loop resolver fuel tp seen n m).2.
Proof.
  revert tp seen n m. induction fuel as [|fuel IH]; intros tp seen n m Hs; simpl;
    (destruct (last tp) as [c|]; [|done]); [done|].
  case_decide; [by apply IH|]. pose proof (unpin_stats c m Hs) as Hu.
  destruct (unpin c m) as [b m']. destruct (resolver c); try done; by apply IH.
Qed.

Lemma load_entries_stats entries : stats_inv (load_entries entries).
Proof.
  unfold load_entries. pose proof (NoDup_hash_iter_keys entries) as Hnd.
  assert (∀ k, k ∈ (hash_iter entries).*1 → pins PinManager_new !! k = None) as Hfree
    by (intros; apply lookup_empty).
  assert (stats_inv PinManager_new) as Hs by done.
  revert Hnd Hfree Hs. generalize PinManager_new as m.
  induction (hash_iter entries) as [|[k i] l IH]; intros m Hnd Hfree Hs; simpl; [done|].
  apply NoDup_cons in Hnd as [Hk Hnd]. apply IH; simpl; [done| |].
  - intros k' Hk'. rewrite lookup_insert_ne by (intros ->; done). apply Hfree. by right.
  - unfold stats_inv in *. simpl. rewrite stats_insert, Hs; [done|]. apply Hfree. by left.
Qed.

(** Statistics: after any sequence of pins (plain, named, recursive), unpins (single,
    recursive), loads and clears, whatever the link resolver answers and wherever a recursive
    call stops, the four counters are the number of pins and the numbers of pins of each kind,
    modulo 2^64. *)
Theorem pin_stats_invariant m (Hrun : rtc pin_step PinManager_new m) :
  total_pins (stats m) = as_u64 (Z.of_nat (size (pins m)))
  ∧ direct_pins (stats m) = as_u64 (kinds Direct (pins m))
  ∧ recursive_pins (stats m) = as_u64 (kinds Recursive (pins m))
  ∧ indirect_pins (stats m) = as_u64 (kinds Indirect (pins m)).
Proof.
  assert (stats_inv m) as Hs; [|by rewrite Hs].
  revert m Hrun. apply (rtc_ind_r stats_inv); [done|].
  intros m m' _ Hstep Hs. destruct Hstep; try done.
  - by apply pin_with_type_stats.
  - by apply pin_with_type_stats.
  - unfold pin_recursive, modifies, st_bind. by apply pin_loop_stats, pin_with_type_stats.
  - by apply unpin_stats.
  - by apply unpin_loop_stats.
  - apply load_entries_stats.
Qed.
End steps.

(** C32. Recursive pins can be taken back.  On a finite graph of blocks, cyclic or not, whose
    links the resolver knows, and below the largest reference count: pinning a root
    recursively terminates, adds one reference to exactly the CIDs reachable from the root and
    returns how many they are; unpinning the root recursively after that terminates, returns
    how many of them were not pinned before, and restores every reference count and the set of
    pinned CIDs. *)
Theorem pin_unpin_balanced link_resolver (G : gmap Cid (list Cid)) fuel now root m
  (Hres : ∀ c l, G !! c = Some l → link_resolver c = Ok l)
  (Hclosed : ∀ c c', edge G c c' → c' ∈ dom G)
  (Hroot : root ∈ dom G)
  (Hfuel : (1 + size (dom G) + todo length G ∅ ≤ fuel)%nat)
  (Hok : counts_ok m)
  (Hroom : ∀ c, rtc (edge G) root c → refs m c < 2 ^ 32 - 1) :
  ∃ (K : gset Cid) m1 m2,
    (∀ c, c ∈ K ↔ rtc (edge G) root c)
    ∧ pin_recursive link_resolver fuel now root m = (Ok (size K), m1)
    ∧ (∀ c, refs m1 c = refs m c + one (c ∈ K))
    ∧ (∀ c, c ∈ K → is_pinned m1 c = true)
    ∧ unpin_recursive link_resolver fuel root m1
        = (Ok (size (filter (λ c, is_pinned m c = false) K)), m2)
    ∧ ∀ c, refs m2 c = refs m c ∧ is_pinned m2 c = is_pinned m c.
Proof.
  destruct (pin_recursive_spec link_resolver G Hres Hclosed fuel now root m)
    as (K & m1 & Hpin & HK & Hok1 & Hr1); [done|lia|done..|].
  destruct (unpin_recursive_spec link_resolver G Hres Hclosed fuel root m1)
    as (K' & m2 & Hunpin & HK' & Hok2 & Hr2); [done|lia|done|].
  assert (K' = K) as -> by (apply set_eq; intros c; by rewrite HK, HK').
  assert (∀ c, refs m2 c = refs m c) as Hback.
  { intros c. rewrite Hr2. unfold released. rewrite Hr1. pose proof (refs_range m c Hok). lia. }
  exists K, m1, m2. split_and!; [done..| | |].
  - intros c Hc. rewrite refs_pinned, Hr1 by done. unfold one. rewrite decide_True by done.
    pose proof (refs_range m c Hok). apply bool_decide_eq_true. lia.
  - rewrite Hunpin. unfold last_refs. do 3 f_equal. apply set_eq. intros c. rewrite !elem_of_filter, Hr1.
    rewrite refs_pinned, bool_decide_eq_false by done. pose proof (refs_range m c Hok).
    unfold one. destruct (decide (c ∈ K)); [|tauto].
    split; intros [? ?]; (split; [lia|done]).
  - intros c. split; [done|]. by rewrite !refs_pinned, Hback by done.
Qed.
End facts.

(** ** Witnesses: two blocks that link to each other, one of them pinned *)
Import Reference.

Definition p_cid (n : Z) : Cid := new_v1 DAG_CBOR (poly_digest Sha2_256 [n]).
Definition p_graph : gmap Cid (list Cid) := {[p_cid 1 := [p_cid 2]; p_cid 2 := [p_cid 1; p_cid 2]]}.
Definition p_resolver (c : Cid) : outcome Error (list Cid) := ok_or (p_graph !! c) CidError.
Definition p_manager : PinManager := pin 5 (p_cid 2) PinManager_new.

Lemma p_graph_closed c c' : edge p_graph c c' → c' ∈ dom p_graph.
Proof.
  unfold p_graph. intros (l & Hl & Hc). rewrite dom_insert, dom_singleton.
  apply lookup_insert_Some in Hl as [[_ <-]|[_ [_ <-]%lookup_singleton_Some]]; set_solver.
Qed.

Lemma p_manager_refs : counts_ok p_manager ∧ ∀ c, refs p_manager c < 2 ^ 32 - 1.
Proof.
  destruct (pin_with_type_refs 5 (p_cid 2) Direct None PinManager_new) as [Hok Hr].
  - intros k i Hi. done.
  - vm_compute. done.
  - split; [exact Hok|]. intros c. unfold p_manager, pin. rewrite Hr. unfold one.
    change (refs PinManager_new c) with 0. case_decide; lia.
Qed.

Lemma pin_unpin_balanced_witness :
  ∃ (K : gset Cid) m1 m2,
    pin_recursive p_resolver 8 0 (p_cid 1) p_manager = (Ok (size K), m1)
    ∧ unpin_recursive p_resolver 8 (p_cid 1) m1
        = (Ok (size (filter (λ c, is_pinned p_manager c = false) K)), m2)
    ∧ ∀ c, is_pinned m2 c = is_pinned p_manager c.
Proof.
  destruct (pin_unpin_balanced p_resolver p_graph 8 0 (p_cid 1) p_manager)
    as (K & m1 & m2 & _ & Hpin & _ & _ & Hunpin & Hback).
  - intros c l Hl. unfold p_resolver. rewrite Hl. reflexivity.
  - exact p_graph_closed.
  - apply elem_of_dom_2 with [p_cid 2]. apply lookup_insert_eq.
  - apply Nat.leb_le. vm_compute. reflexivity.
  - apply p_manager_refs.
  - intros c _. apply p_manager_refs.
  - exists K, m1, m2. split; [exact Hpin|split; [exact Hunpin|intros c; apply Hback]].
Defined.

#[local] Existing Instance default_iter.
Lemma pin_stats_invariant_witness :
  total_pins (stats p_manager) = as_u64 (Z.of_nat (size (pins p_manager))).
Proof. apply (pin_stats_invariant p_manager). eapply rtc_l; [apply (step_pin PinManager_new 5 (p_cid 2))|apply rtc_refl]. Defined.

(** The first call counts both blocks, the second unpins the one nobody else holds. *)
Example p_counts :
  let '(r, m) := pin_recursive p_resolver 8 0 (p_cid 1) p_manager in
  (match r with Ok n => n | _ => 0%nat end,
   match (unpin_recursive p_resolver 8 (p_cid 1) m).1 with Ok n => n | _ => 0%nat end) = (2%nat, 1%nat).
Proof. vm_compute. reflexivity. Qed.
