(* ===== verification/CircuitBreaker.v ===== *)
(** * The circuit breaker: [crates/ipfrs-storage/src/circuit_breaker.rs]

    The breaker's fields and the state behind its lock are one record.  An [Instant] is a
    number of nanoseconds, and each operation that reads the clock takes the value it reads.
    A call to the protected service acquires the lock several times: [call] is one call that
    runs alone, and [cb_step] interleaves any number of calls at the granularity of the lock.
    Counters wrap as in the release profile. *)

From Stdlib Require Import ZArith Lia.
From stdpp Require Import base tactics numbers list.
From S2P Require Import Prelude.

#[local] Open Scope Z_scope.

Inductive CircuitState : Type := Closed | Open | HalfOpen.
#[global] Instance CircuitState_eq_dec : EqDecision CircuitState.
Proof. solve_decision. Defined.

Record CircuitStats : Type := mkCircuitStats {
  total_requests : Z;
  successful_requests : Z;
  failed_requests : Z;
  rejected_requests : Z;
  circuit_opened_count : Z;
  stat_consecutive_failures : Z;
}.
Definition CircuitStats_default : CircuitStats := mkCircuitStats 0 0 0 0 0 0.

Record CircuitBreaker : Type := mkCircuitBreaker {
  failure_threshold : Z;
  timeout : Z;
  half_open_threshold : Z;
  cstate : CircuitState;
  consecutive_failures : Z;
  opened_at : option Z;
  cstats : CircuitStats;
}.

(** ** Field updates *)
Definition set_cstate (st : CircuitState) (b : CircuitBreaker) : CircuitBreaker :=
  mkCircuitBreaker (failure_threshold b) (timeout b) (half_open_threshold b) st
    (consecutive_failures b) (opened_at b) (cstats b).
Definition set_failures (n : Z) (b : CircuitBreaker) : CircuitBreaker :=
  mkCircuitBreaker (failure_threshold b) (timeout b) (half_open_threshold b) (cstate b)
    n (opened_at b) (cstats b).
Definition set_opened (o : option Z) (b : CircuitBreaker) : CircuitBreaker :=
  mkCircuitBreaker (failure_threshold b) (timeout b) (half_open_threshold b) (cstate b)
    (consecutive_failures b) o (cstats b).
Definition on_cstats (f : CircuitStats → CircuitStats) (b : CircuitBreaker) : CircuitBreaker :=
  mkCircuitBreaker (failure_threshold b) (timeout b) (half_open_threshold b) (cstate b)
    (consecutive_failures b) (opened_at b) (f (cstats b)).

Definition inc_total (s : CircuitStats) : CircuitStats :=
  mkCircuitStats (as_u64 (total_requests s + 1)) (successful_requests s) (failed_requests s)
    (rejected_requests s) (circuit_opened_count s) (stat_consecutive_failures s).
Definition inc_successful (s : CircuitStats) : CircuitStats :=
  mkCircuitStats (total_requests s) (as_u64 (successful_requests s + 1)) (failed_requests s)
    (rejected_requests s) (circuit_opened_count s) (stat_consecutive_failures s).
Definition inc_failed (s : CircuitStats) : CircuitStats :=
  mkCircuitStats (total_requests s) (successful_requests s) (as_u64 (failed_requests s + 1))
    (rejected_requests s) (circuit_opened_count s) (stat_consecutive_failures s).
Definition inc_rejected (s : CircuitStats) : CircuitStats :=
  mkCircuitStats (total_requests s) (successful_requests s) (failed_requests s)
    (as_u64 (rejected_requests s + 1)) (circuit_opened_count s) (stat_consecutive_failures s).
Definition inc_opened (s : CircuitStats) : CircuitStats :=
  mkCircuitStats (total_requests s) (successful_requests s) (failed_requests s)
    (rejected_requests s) (as_u64 (circuit_opened_count s + 1)) (stat_consecutive_failures s).
Definition set_stat_failures (n : Z) (s : CircuitStats) : CircuitStats :=
  mkCircuitStats (total_requests s) (successful_requests s) (failed_requests s)
    (rejected_requests s) (circuit_opened_count s) n.

(** ** Operations *)
Definition with_half_open_threshold (failures tmo half_open : Z) : CircuitBreaker :=
  mkCircuitBreaker failures tmo half_open Closed 0 None CircuitStats_default.
Definition CircuitBreaker_new (failures tmo : Z) : CircuitBreaker :=
  with_half_open_threshold failures tmo 1.

(** [Instant::elapsed], which is zero for an instant in the future. *)
Definition elapsed (now t : Z) : Z := Z.max 0 (now - t).

Definition can_proceed (now : Z) (b : CircuitBreaker) : bool * CircuitBreaker :=
  match cstate b with
  | Closed => (true, b)
  | Open =>
    match opened_at b with
    | Some t =>
      if timeout b <=? elapsed now t then (true, set_failures 0 (set_cstate HalfOpen b))
      else (false, b)
    | None => (false, b)
    end
  | HalfOpen => (true, b)
  end.

Definition on_success (b : CircuitBreaker) : CircuitBreaker :=
  let b := on_cstats inc_successful b in
  match cstate b with
  | Closed => set_failures 0 b
  | HalfOpen =>
    let b := if consecutive_failures b =? 0 then set_failures 0 b else b in
    set_opened None (set_failures 0 (set_cstate Closed b))
  | Open => set_failures 0 b
  end.

Definition trip (now : Z) (b : CircuitBreaker) : CircuitBreaker :=
  on_cstats inc_opened (set_opened (Some now) (set_cstate Open b)).

Definition on_failure (now : Z) (b : CircuitBreaker) : CircuitBreaker :=
  let b := on_cstats inc_failed b in
  let b := set_failures (as_u32 (consecutive_failures b + 1)) b in
  let b :=
    match cstate b with
    | Closed => if failure_threshold b <=? consecutive_failures b then trip now b else b
    | HalfOpen => trip now b
    | Open => b
    end in
  on_cstats (set_stat_failures (consecutive_failures b)) b.

(** One call that runs alone: [now] is read by [can_proceed], the service answers [f], and
    [now'] is read by [on_failure]. *)
Inductive call_error (E : Type) : Type := CircuitOpen | CallFailed (e : E).
Arguments CircuitOpen {E}.
Arguments CallFailed {E} e.

Definition call {A E} (now now' : Z) (f : A + E) : stateful CircuitBreaker (call_error E) A := λ b,
  let '(go, b) := can_proceed now b in
  if negb go then (Err CircuitOpen, on_cstats inc_rejected b) else
  let b := on_cstats inc_total b in
  match f with
  | inl result => (Ok result, on_success b)
  | inr e => (Err (CallFailed e), on_failure now' b)
  end.

Definition reset (b : CircuitBreaker) : CircuitBreaker :=
  let b := set_opened None (set_failures 0 (set_cstate Closed b)) in
  on_cstats (set_stat_failures 0) b.

Definition is_closed (b : CircuitBreaker) : bool := bool_decide (cstate b = Closed).
Definition is_open (b : CircuitBreaker) : bool := bool_decide (cstate b = Open).
Definition is_half_open (b : CircuitBreaker) : bool := bool_decide (cstate b = HalfOpen).

(** ** Interleaved calls

    [admitted] calls passed [can_proceed] and did not count their request yet, [denied] calls
    were refused and did not count it yet, and [running] calls wait for the service. *)
Record cb_world : Type := mkWorld {
  breaker : CircuitBreaker;
  admitted : nat;
  denied : nat;
  running : nat;
}.

Inductive cb_step : cb_world → cb_world → Prop :=
| cb_admit now b b' a d r : can_proceed now b = (true, b') →
    cb_step (mkWorld b a d r) (mkWorld b' (S a) d r)
| cb_deny now b b' a d r : can_proceed now b = (false, b') →
    cb_step (mkWorld b a d r) (mkWorld b' a (S d) r)
| cb_count b a d r : cb_step (mkWorld b (S a) d r) (mkWorld (on_cstats inc_total b) a d (S r))
| cb_reject b a d r : cb_step (mkWorld b a (S d) r) (mkWorld (on_cstats inc_rejected b) a d r)
| cb_succeed b a d r : cb_step (mkWorld b a d (S r)) (mkWorld (on_success b) a d r)
| cb_fail now b a d r : cb_step (mkWorld b a d (S r)) (mkWorld (on_failure now b) a d r)
| cb_reset b a d r : cb_step (mkWorld b a d r) (mkWorld (reset b) a d r).
