(* ===== verification/CircuitBreakerFacts.v ===== *)
(** * The circuit breaker opens, rejects and recovers as its thresholds say *)

From Stdlib Require Import ZArith Lia.
From stdpp Require Import base tactics numbers list relations.
From S2P Require Import Prelude CircuitBreaker.

#[local] Open Scope Z_scope.

(** ** The invariant *)
Definition cb_inv (w : cb_world) : Prop :=
  let b := breaker w in
  0 ≤ consecutive_failures b < 2 ^ 32
  ∧ match cstate b with
    | Closed => opened_at b = None
        ∧ (consecutive_failures b = 0 ∨ consecutive_failures b < failure_threshold b)
    | Open => is_Some (opened_at b)
    | HalfOpen => is_Some (opened_at b) ∧ consecutive_failures b = 0
    end
  ∧ total_requests (cstats b)
      = as_u64 (successful_requests (cstats b) + failed_requests (cstats b) + Z.of_nat (running w)).

Lemma as_u64_succ x : as_u64 (as_u64 x + 1) = as_u64 (x + 1).
Proof. apply as_u64_add. Qed.

Lemma as_u32_range x : 0 ≤ as_u32 x < 2 ^ 32.
Proof. apply Z.mod_pos_bound. lia. Qed.

(** Counting one request moves it from the running ones to the finished ones. *)
Lemma count_finished x y n :
  as_u64 (x + y + Z.of_nat (S n)) = as_u64 (as_u64 (x + 1) + y + Z.of_nat n).
Proof.
  rewrite <- !(Z.add_assoc (as_u64 _)), as_u64_add. f_equal. lia.
Qed.

Lemma cb_inv_init failures tmo half : cb_inv (mkWorld (with_half_open_threshold failures tmo half) 0 0 0).
Proof. unfold cb_inv. simpl. split_and!; [lia|lia|done|by left|done]. Qed.

Lemma cb_inv_step w w' : cb_step w w' → cb_inv w → cb_inv w'.
Proof.
  pose proof as_u32_range as Hu. unfold cb_inv.
  destruct 1 as [now b b' a d r Hcp|now b b' a d r Hcp|b a d r|b a d r|b a d r|now b a d r|b a d r];
    simpl; intros (Hcf & Hst & Htot).
  - unfold can_proceed in Hcp. destruct (cstate b) eqn:Hs;
      [injection Hcp as <-; by rewrite Hs| |injection Hcp as <-; by rewrite Hs].
    destruct (opened_at b) eqn:Ho; [|done]. destruct (_ <=? _); [|done].
    injection Hcp as <-; simpl. rewrite Ho. split_and!; [lia|lia|by eexists|done|done].
  - unfold can_proceed in Hcp. destruct (cstate b) eqn:Hs; [done| |done].
    destruct (opened_at b) eqn:Ho; [destruct (_ <=? _); [done|]|]; injection Hcp as <-; by rewrite Hs, Ho.
  - split_and!; [lia..|done|]. rewrite Htot, as_u64_succ. f_equal. lia.
  - done.
  - rewrite count_finished in Htot. unfold on_success. simpl.
    destruct (cstate b) eqn:Hs; simpl; rewrite ?Hs; try (destruct (_ =? _); simpl);
      split_and!; try done; try lia; try (by left); by destruct Hst.
  - rewrite (Z.add_comm (successful_requests _)), count_finished in Htot.
    rewrite (Z.add_comm (as_u64 _)) in Htot. unfold on_failure. simpl.
    destruct (cstate b) eqn:Hs; simpl; rewrite ?Hs; simpl.
    + destruct (Z.leb_spec (failure_threshold b) (as_u32 (consecutive_failures b + 1))); simpl; rewrite ?Hs.
      * split_and!; [apply Hu|apply Hu|by eexists|done].
      * split_and!; [apply Hu|apply Hu|apply Hst|by right|done].
    + split_and!; [apply Hu|apply Hu|done|done].
    + split_and!; [apply Hu|apply Hu|by eexists|done].
  - split_and!; [lia..|done|by left|done].
Qed.

(** Invariant of the breaker under any interleaving of calls, at the granularity of its
    lock, and of manual resets: a closed breaker has no opening time and fewer consecutive
    failures than its threshold (or none), an open or half-open breaker has an opening time
    (so it can recover), a half-open breaker has no consecutive failure, and the requests
    counted are the successes, the failures and the calls still running, modulo 2^64. *)
Theorem circuit_invariant failures tmo half w
  (Hrun : rtc cb_step (mkWorld (with_half_open_threshold failures tmo half) 0 0 0) w) :
  let b := breaker w in
  (cstate b = Closed → opened_at b = None
     ∧ (consecutive_failures b = 0 ∨ consecutive_failures b < failure_threshold b))
  ∧ (cstate b ≠ Closed → is_Some (opened_at b))
  ∧ (cstate b = HalfOpen → consecutive_failures b = 0)
  ∧ total_requests (cstats b)
      = as_u64 (successful_requests (cstats b) + failed_requests (cstats b) + Z.of_nat (running w)).
Proof.
  assert (cb_inv w) as (_ & Hst & Htot).
  { revert w Hrun. apply (rtc_ind_r cb_inv); [apply cb_inv_init|]. intros w w' _ Hs. by apply cb_inv_step. }
  simpl. split_and!; [intros Hs; by rewrite Hs in Hst| | |done]; intros Hs.
  - destruct (cstate (breaker w)); [done|done|apply Hst].
  - rewrite Hs in Hst. apply Hst.
Qed.

(** ** One call at a time *)
Section calls.
Context {A E : Type}.
Implicit Types (b : CircuitBreaker) (f : A + E).

(** Failing calls at the given times. *)
Definition fail_calls (e : E) (ts : list (Z * Z)) b : CircuitBreaker :=
  fold_left (λ b t, (call (A := A) t.1 t.2 (inr e) b).2) ts b.

Lemma fail_calls_closed e ts b :
  cstate b = Closed → 0 ≤ consecutive_failures b →
  consecutive_failures b + Z.of_nat (length ts) < failure_threshold b → failure_threshold b < 2 ^ 32 →
  let b' := fail_calls e ts b in
  cstate b' = Closed ∧ consecutive_failures b' = consecutive_failures b + Z.of_nat (length ts)
  ∧ failure_threshold b' = failure_threshold b ∧ timeout b' = timeout b.
Proof.
  revert b. induction ts as [|[t t'] ts IH]; intros b Hs Hcf Hlt Hthr; simpl; [split_and!; [done|lia|done..]|].
  simpl in Hlt. unfold call, can_proceed. rewrite Hs. simpl. unfold on_failure. simpl. rewrite Hs.
  rewrite as_u32_small by lia. destruct (Z.leb_spec (failure_threshold b) (consecutive_failures b + 1)); [lia|].
  match goal with |- context [fail_calls e ts ?b1] => destruct (IH b1) as (H1 & H2 & H3 & H4) end;
    simpl; try done; try lia.
  split_and!; [exact H1| |exact H3|exact H4]. etransitivity; [exact H2|simpl; lia].
Qed.

(** The cycle of the breaker, one call at a time.  A closed breaker without failures stays
    closed for one failure less than its threshold; the next failure opens it at the time
    that failure is handled.  While the timeout has not elapsed every call is refused, the
    service is not called and only the count of refusals changes.  The first call after the
    timeout goes through: its success closes the breaker whatever [half_open_threshold] is,
    its failure opens it again from that moment. *)
Theorem breaker_cycle b (e : E) (ts : list (Z * Z)) t t'
  (Hs : cstate b = Closed) (Hcf : consecutive_failures b = 0)
  (Hthr : failure_threshold b < 2 ^ 32) (Hts : Z.of_nat (S (length ts)) = failure_threshold b) :
  let b1 := fail_calls e ts b in
  let b2 := (call (A := A) t t' (inr e) b1).2 in
  cstate b1 = Closed
  ∧ cstate b2 = Open ∧ opened_at b2 = Some t'
  ∧ (∀ now now' f, elapsed now t' < timeout b →
      call now now' f b2 = (Err CircuitOpen, on_cstats inc_rejected b2))
  ∧ (∀ now now' (a : A), timeout b ≤ elapsed now t' →
      (call now now' (inl a : A + E) b2).1 = Ok a
      ∧ let b3 := (call now now' (inl a : A + E) b2).2 in
        cstate b3 = Closed ∧ opened_at b3 = None ∧ consecutive_failures b3 = 0)
  ∧ (∀ now now' (e' : E), timeout b ≤ elapsed now t' →
      (call (A := A) now now' (inr e') b2).1 = Err (CallFailed e')
      ∧ let b3 := (call (A := A) now now' (inr e') b2).2 in
        cstate b3 = Open ∧ opened_at b3 = Some now').
Proof.
  destruct (fail_calls_closed e ts b) as (H1 & H2 & H3 & H4); [done|lia|lia|done|].
  intros b1 b2. fold b1 in H1, H2, H3, H4. assert (cstate b2 = Open ∧ opened_at b2 = Some t' ∧ timeout b2 = timeout b) as (Hopen & Hat & Htmo).
  { unfold b2, call, can_proceed. rewrite H1. simpl. unfold on_failure. simpl. rewrite H1.
    rewrite H2, Hcf, H3, as_u32_small by lia. rewrite (proj2 (Z.leb_le _ _)) by lia. done. }
  assert (∀ now, can_proceed now b2 =
    if timeout b <=? elapsed now t' then (true, set_failures 0 (set_cstate HalfOpen b2)) else (false, b2)) as Hcp.
  { intros now. unfold can_proceed. by rewrite Hopen, Hat, Htmo. }
  split_and!; [done..| | |].
  - intros now now' f Hlt. unfold call. rewrite Hcp, (proj2 (Z.leb_gt _ _)) by lia. done.
  - intros now now' a Hle. unfold call. rewrite Hcp, (proj2 (Z.leb_le _ _)) by lia. done.
  - intros now now' e' Hle. unfold call. rewrite Hcp, (proj2 (Z.leb_le _ _)) by lia. done.
Qed.
End calls.

(** ** Witnesses: three failures open the breaker for ten units of time *)
Definition demo_breaker : CircuitBreaker := with_half_open_threshold 3 10 2.

Lemma circuit_invariant_witness :
  total_requests (cstats (on_cstats inc_total demo_breaker)) = as_u64 1.
Proof.
  apply (circuit_invariant 3 10 2 (mkWorld (on_cstats inc_total demo_breaker) 0 0 1)).
  eapply rtc_l; [by apply (cb_admit 0 demo_breaker demo_breaker 0 0 0)|].
  eapply rtc_l; [apply cb_count|apply rtc_refl].
Defined.

Lemma breaker_cycle_witness :
  let b2 := (call (A := unit) 3 4 (inr tt) (fail_calls (A := unit) tt [(1, 1); (2, 2)] demo_breaker)).2 in
  cstate b2 = Open ∧ (call 14 15 (inl tt : unit + unit) b2).1 = Ok tt.
Proof.
  destruct (breaker_cycle (A := unit) demo_breaker tt [(1, 1); (2, 2)] 3 4 eq_refl eq_refl eq_refl eq_refl)
    as (_ & Hopen & _ & _ & Hok & _).
  split; [exact Hopen|].
  assert (timeout demo_breaker ≤ elapsed 14 4) as Hle by (unfold elapsed; simpl; lia).
  exact (proj1 (Hok 14 15 tt Hle)).
Defined.

(** The statistics keep the last count of consecutive failures after a success ended them. *)
Example stale_consecutive_failures :
  let b := on_success (on_failure 1 demo_breaker) in
  (consecutive_failures b, stat_consecutive_failures (cstats b)) = (0, 1).
Proof. reflexivity. Qed.
