(* ===== verification/Ir.v ===== *)
(** * Terms, predicates, rules: [crates/ipfrs-tensorlogic/src/ir.rs]

    The data the inference engines work on.  A [Vec<Term>] is a list, an [i64] an integer, and
    the text of a float constant a string.  The [Display] instances are in [Datalog]. *)

From Stdlib Require Import ZArith Lia List Sorting Permutation.
From stdpp Require Import base tactics numbers list sorting gmap sets strings.
From S2P Require Import Prelude Collections Cid.

Section ir.
Context `{CidCrate}.

Inductive Constant : Type :=
| CString (s : string)
| CInt (n : Z)
| CBool (b : bool)
| CFloat (s : string).

Record TermRef : Type := mkTermRef { ref_cid : Cid; hint : option string }.
Definition TermRef_new (c : Cid) : TermRef := mkTermRef c None.
Definition TermRef_with_hint (c : Cid) (h : string) : TermRef := mkTermRef c (Some h).

Inductive Term : Type :=
| Var (v : string)
| Const (c : Constant)
| Fun (f : string) (args : list Term)
| Ref (r : TermRef).

#[global] Instance Constant_eq_dec : EqDecision Constant.
Proof. solve_decision. Defined.

(** ** Terms *)
Definition is_var (t : Term) : bool := match t with Var _ => true | _ => false end.
Definition is_const (t : Term) : bool := match t with Const _ => true | _ => false end.

Fixpoint is_ground (t : Term) : bool :=
  match t with
  | Var _ => false
  | Const _ => true
  | Fun _ args => forallb is_ground args
  | Ref _ => true
  end.

Fixpoint estimate_var_count (t : Term) : nat :=
  match t with
  | Var _ => 1
  | Const _ | Ref _ => 0
  | Fun _ args => foldr (λ t n, estimate_var_count t + n) 0 args
  end.

(** [vars.push(v)] in the order of the traversal. *)
Fixpoint collect_vars (t : Term) (vars : list string) : list string :=
  match t with
  | Var v => vars ++ [v]
  | Fun _ args => fold_left (λ vars arg, collect_vars arg vars) args vars
  | _ => vars
  end.

(** [sort_unstable] by the order of [String], and [dedup]. *)
Definition sle (s t : string) : Prop := ¬ slt t s.
#[global] Instance sle_dec s t : Decision (sle s t).
Proof. unfold sle. apply _. Defined.

Definition sort_strings : list string → list string := merge_sort sle.

Fixpoint dedup (l : list string) : list string :=
  match l with
  | [] => []
  | x :: l' =>
    match l' with
    | y :: _ => if decide (x = y) then dedup l' else x :: dedup l'
    | [] => [x]
    end
  end.

Definition term_variables (t : Term) : list string := dedup (sort_strings (collect_vars t [])).

Fixpoint complexity (t : Term) : nat :=
  match t with
  | Var _ | Const _ | Ref _ => 1
  | Fun _ args => 1 + foldr (λ t n, complexity t + n) 0 args
  end.

(** ** Predicates and rules *)
Record Predicate : Type := mkPredicate { name : string; args : list Term }.

Definition arity (p : Predicate) : nat := length (args p).
Definition pred_is_ground (p : Predicate) : bool := forallb is_ground (args p).
Definition pred_variables (p : Predicate) : list string :=
  dedup (sort_strings (fold_left (λ vars arg, collect_vars arg vars) (args p) [])).

Record Rule : Type := mkRule { head : Predicate; body : list Predicate }.

Definition Rule_fact (h : Predicate) : Rule := mkRule h [].
Definition is_fact (r : Rule) : bool := match body r with [] => true | _ => false end.

Definition push_new (vars : list string) (v : string) : list string :=
  if decide (v ∈ vars) then vars else vars ++ [v].
Definition rule_variables (r : Rule) : list string :=
  sort_strings
    (fold_left (λ vars pred, fold_left push_new (pred_variables pred) vars) (body r)
       (pred_variables (head r))).

(** ** Knowledge bases *)
Record KnowledgeBase : Type := mkKB { facts : list Predicate; rules : list Rule }.

Definition KB_new : KnowledgeBase := mkKB [] [].
Definition add_fact (p : Predicate) (kb : KnowledgeBase) : KnowledgeBase :=
  mkKB (facts kb ++ [p]) (rules kb).
Definition add_rule (r : Rule) (kb : KnowledgeBase) : KnowledgeBase :=
  mkKB (facts kb) (rules kb ++ [r]).
Definition get_predicates (n : string) (kb : KnowledgeBase) : list Predicate :=
  filter (λ p, name p = n) (facts kb).
Definition get_rules (n : string) (kb : KnowledgeBase) : list Rule :=
  filter (λ r, name (head r) = n) (rules kb).
Definition kb_stats (kb : KnowledgeBase) : nat * nat := (length (facts kb), length (rules kb)).

(** [index.entry(key).or_default().push(x)]. *)
Definition push_entry {A} (key : string) (x : A) (index : gmap string (list A)) :
    gmap string (list A) :=
  <[key := default [] (index !! key) ++ [x]]> index.

Definition index_rules_by_predicate (rule_cids : gmap nat Cid) (kb : KnowledgeBase) :
    gmap string (list Cid) :=
  fold_left (λ index '(idx, rule),
    match rule_cids !! idx with
    | Some cid => push_entry (name (head rule)) cid index
    | None => index
    end) (imap pair (rules kb)) ∅.

Definition index_rules_by_predicate_local (kb : KnowledgeBase) : gmap string (list nat) :=
  fold_left (λ index '(idx, rule), push_entry (name (head rule)) idx index)
    (imap pair (rules kb)) ∅.

(** ** Induction on terms *)
Lemma Term_ind' (P : Term → Prop) :
  (∀ v, P (Var v)) → (∀ c, P (Const c)) → (∀ f l, Forall P l → P (Fun f l)) → (∀ r, P (Ref r)) →
  ∀ t, P t.
Proof.
  intros Hv Hc Hf Hr. fix IH 1. intros [v|c|f l|r]; [apply Hv|apply Hc| |apply Hr].
  apply Hf. induction l; constructor; auto.
Qed.

Lemma Term_list_ind (P : Term → Prop) (Q : list Term → Prop) :
  (∀ v, P (Var v)) → (∀ c, P (Const c)) → (∀ f l, Q l → P (Fun f l)) → (∀ r, P (Ref r)) →
  Q [] → (∀ t l, P t → Q l → Q (t :: l)) → (∀ t, P t) ∧ ∀ l, Q l.
Proof.
  intros Hv Hc Hf Hr Hn Hcons.
  assert (∀ t, P t) as Ht by (apply Term_ind'; auto; intros f l Hl; apply Hf; induction Hl; auto).
  split; [done|]. intros l. induction l; auto.
Qed.
End ir.
