(* ===== verification/Reasoning.v ===== *)
(** * Unification and backward chaining: [crates/ipfrs-tensorlogic/src/reasoning.rs]

    Recursion that the code does not bound structurally takes fuel: [unify] recurses into
    argument lists to which the substitution has just been applied, the engine into rule
    bodies.  [OutOfFuel] for every fuel means that the code recurses until its stack is
    exhausted.  The engines return [Result], but no path of theirs returns [Err]. *)

From Stdlib Require Import ZArith Lia List.
From stdpp Require Import base tactics numbers list gmap sets strings pretty.
From S2P Require Import Prelude Collections Cid Ir.

(** [HashMap<String, Term>]; nothing iterates over it. *)
Abbreviation Substitution := (gmap string Term).

Section reasoning.
Context `{CidCrate}.

(** ** Applying substitutions *)
Fixpoint apply_subst_term (t : Term) (subst : Substitution) : Term :=
  match t with
  | Var v => default t (subst !! v)
  | Fun f args => Fun f (map (λ t, apply_subst_term t subst) args)
  | _ => t
  end.

Definition apply_subst_predicate (pred : Predicate) (subst : Substitution) : Predicate :=
  mkPredicate (name pred) (map (λ t, apply_subst_term t subst) (args pred)).

Fixpoint occurs_in (var : string) (t : Term) : bool :=
  match t with
  | Var v => bool_decide (v = var)
  | Fun _ args => existsb (occurs_in var) args
  | _ => false
  end.

(** ** Unification *)
Definition bind_var (v : string) (t : Term) (subst : Substitution) : option Substitution :=
  match t with
  | Var v2 =>
    if decide (v = v2) then Some subst
    else if occurs_in v t then None else Some (<[v := t]> subst)
  | _ => if occurs_in v t then None else Some (<[v := t]> subst)
  end.

(** The loop over two argument lists of the same length. *)
Fixpoint unify_args (unify : Term → Term → Substitution → outcome Error (option Substitution))
    (args1 args2 : list Term) (subst : Substitution) : outcome Error (option Substitution) :=
  match args1, args2 with
  | a1 :: args1', a2 :: args2' =>
    let! r := unify a1 a2 subst in
    match r with
    | Some new_subst => unify_args unify args1' args2' new_subst
    | None => Ok None
    end
  | _, _ => Ok (Some subst)
  end.

Fixpoint unify (fuel : nat) (t1 t2 : Term) (subst : Substitution) :
    outcome Error (option Substitution) :=
  match fuel with
  | O => OutOfFuel
  | S fuel' =>
    match apply_subst_term t1 subst, apply_subst_term t2 subst with
    | Const c1, Const c2 => if decide (c1 = c2) then Ok (Some subst) else Ok None
    | Var v, t => Ok (bind_var v t subst)
    | t, Var v => Ok (bind_var v t subst)
    | Fun f1 args1, Fun f2 args2 =>
      if decide (f1 = f2 ∧ length args1 = length args2)
      then unify_args (unify fuel') args1 args2 subst
      else Ok None
    | Ref r1, Ref r2 => if decide (ref_cid r1 = ref_cid r2) then Ok (Some subst) else Ok None
    | _, _ => Ok None
    end
  end.

Definition unify_predicates (fuel : nat) (p1 p2 : Predicate) (subst : Substitution) :
    outcome Error (option Substitution) :=
  if decide (name p1 = name p2 ∧ length (args p1) = length (args p2))
  then unify_args (unify fuel) (args p1) (args p2) subst
  else Ok None.

(** ** Renaming apart *)

(** [format!("{}_{}", v, suffix)]. *)
Definition rename_var (suffix : nat) (v : string) : string := v +:+ "_" +:+ pretty suffix.
Definition rename_subst (suffix : nat) (vars : list string) : Substitution :=
  list_to_map (map (λ v, (v, Var (rename_var suffix v))) vars).
Definition rename_rule_vars (rule : Rule) (suffix : nat) : Rule :=
  let s := rename_subst suffix (rule_variables rule) in
  mkRule (apply_subst_predicate (head rule) s) (map (λ p, apply_subst_predicate p s) (body rule)).

(** ** Proofs *)
Record ProofRule : Type := mkProofRule {
  pr_head : Predicate;
  pr_body : list Predicate;
  pr_is_fact : bool;
}.
Inductive Proof : Type := mkProof (goal : Predicate) (rule : option ProofRule) (subproofs : list Proof).
Definition proof_goal (p : Proof) : Predicate := let '(mkProof g _ _) := p in g.
Definition proof_rule (p : Proof) : option ProofRule := let '(mkProof _ r _) := p in r.
Definition proof_subproofs (p : Proof) : list Proof := let '(mkProof _ _ s) := p in s.

Definition Proof_fact (goal : Predicate) : Proof := mkProof goal (Some (mkProofRule goal [] true)) [].
Definition Proof_from_rule (goal : Predicate) (rule : Rule) (subproofs : list Proof) : Proof :=
  mkProof goal (Some (mkProofRule (head rule) (body rule) false)) subproofs.

Fixpoint proof_depth (p : Proof) : nat :=
  match p with
  | mkProof _ _ [] => 1
  | mkProof _ _ subproofs => 1 + foldr (λ p n, proof_depth p `max` n) 0 subproofs
  end.
Fixpoint proof_size (p : Proof) : nat :=
  let '(mkProof _ _ subproofs) := p in 1 + foldr (λ p n, proof_size p + n) 0 subproofs.
Definition proof_is_fact (p : Proof) : bool := match proof_subproofs p with [] => true | _ => false end.
Fixpoint all_goals (p : Proof) : list Predicate :=
  let '(mkProof goal _ subproofs) := p in goal :: flat_map all_goals subproofs.

(** ** The engine's limits; [cycle_detection] is stored and never read. *)
Record InferenceEngine : Type := mkEngine {
  max_depth : nat;
  max_solutions : nat;
  cycle_detection : bool;
}.
Definition InferenceEngine_new : InferenceEngine := mkEngine 100 100 true.
Definition with_limits (d s : nat) : InferenceEngine := mkEngine d s true.
Definition with_cycle_detection (e : InferenceEngine) (enabled : bool) : InferenceEngine :=
  mkEngine (max_depth e) (max_solutions e) enabled.

Section engine.
Context (e : InferenceEngine) (fuel_unify : nat) (kb : KnowledgeBase).
Notation Solutions := (list Substitution).

(** ** Queries *)

(** The loop over the facts; the flag tells that the limit of solutions was reached. *)
Fixpoint solve_facts (goal : Predicate) (facts : list Predicate) (subst : Substitution)
    (solutions : Solutions) : outcome Error (Solutions * bool) :=
  match facts with
  | [] => Ok (solutions, false)
  | fact :: facts' =>
    let! r := unify_predicates fuel_unify goal fact subst in
    match r with
    | Some new_subst =>
      let solutions := solutions ++ [new_subst] in
      if max_solutions e <=? length solutions then Ok (solutions, true)
      else solve_facts goal facts' subst solutions
    | None => solve_facts goal facts' subst solutions
    end
  end.

Section recursion.
(** The recursive call [solve_goal], at the depth of the goals of a body. *)
Context (solve : Predicate → Substitution → Solutions → outcome Error Solutions).

(** The loop over the solutions of the first goal of a conjunction. *)
Fixpoint solve_each (solve_rest : Substitution → Solutions → outcome Error Solutions)
    (intermediate : list Substitution) (solutions : Solutions) : outcome Error Solutions :=
  match intermediate with
  | [] => Ok solutions
  | s :: intermediate' =>
    if max_solutions e <=? length solutions then Ok solutions else
    let! solutions := solve_rest s solutions in
    solve_each solve_rest intermediate' solutions
  end.

Fixpoint solve_conjunction (goals : list Predicate) (subst : Substitution) (solutions : Solutions) :
    outcome Error Solutions :=
  match goals with
  | [] => Ok (solutions ++ [subst])
  | first_goal :: rest_goals =>
    let! intermediate := solve first_goal subst [] in
    solve_each (solve_conjunction rest_goals) intermediate solutions
  end.

(** The loop over the rules. *)
Fixpoint solve_rules (goal : Predicate) (rules : list Rule) (subst : Substitution) (depth : nat)
    (solutions : Solutions) : outcome Error Solutions :=
  match rules with
  | [] => Ok solutions
  | rule :: rules' =>
    let renamed_rule := rename_rule_vars rule depth in
    let! r := unify_predicates fuel_unify goal (head renamed_rule) subst in
    match r with
    | Some new_subst =>
      let! solutions := solve_conjunction (body renamed_rule) new_subst solutions in
      solve_rules goal rules' subst depth solutions
    | None => solve_rules goal rules' subst depth solutions
    end
  end.
End recursion.

Fixpoint solve_goal (fuel : nat) (depth : nat) (goal : Predicate) (subst : Substitution)
    (solutions : Solutions) : outcome Error Solutions :=
  if max_depth e <? depth then Ok solutions else
  if max_solutions e <=? length solutions then Ok solutions else
  match fuel with
  | O => OutOfFuel
  | S fuel' =>
    let goal := apply_subst_predicate goal subst in
    let! (solutions, full) := solve_facts goal (get_predicates (name goal) kb) subst solutions in
    if full : bool then Ok solutions else
    solve_rules (solve_goal fuel' (S depth)) goal (get_rules (name goal) kb) subst depth solutions
  end.

Definition query (fuel : nat) (goal : Predicate) : outcome Error Solutions :=
  solve_goal fuel 0 goal ∅ [].

(** ** Proof search *)

(** [for fact in facts { if unify(..).is_some() { return .. } }]. *)
Fixpoint unifies_with_some (goal : Predicate) (facts : list Predicate) (subst : Substitution) :
    outcome Error bool :=
  match facts with
  | [] => Ok false
  | fact :: facts' =>
    let! r := unify_predicates fuel_unify goal fact subst in
    match r with
    | Some _ => Ok true
    | None => unifies_with_some goal facts' subst
    end
  end.

Section recursion.
Context (prove : Predicate → Substitution → outcome Error (option Proof)).

Fixpoint prove_conjunction (goals : list Predicate) (subst : Substitution) :
    outcome Error (option (list Proof)) :=
  match goals with
  | [] => Ok (Some [])
  | first_goal :: rest_goals =>
    let! first := prove first_goal subst in
    match first with
    | Some first_proof =>
      let! rest := prove_conjunction rest_goals subst in
      match rest with
      | Some rest_proofs => Ok (Some (first_proof :: rest_proofs))
      | None => Ok None
      end
    | None => Ok None
    end
  end.

Fixpoint prove_rules (goal : Predicate) (rules : list Rule) (subst : Substitution) (depth : nat) :
    outcome Error (option Proof) :=
  match rules with
  | [] => Ok None
  | rule :: rules' =>
    let renamed_rule := rename_rule_vars rule depth in
    let! r := unify_predicates fuel_unify goal (head renamed_rule) subst in
    match r with
    | Some new_subst =>
      let! subproofs := prove_conjunction (body renamed_rule) new_subst in
      match subproofs with
      | Some subproofs => Ok (Some (Proof_from_rule goal renamed_rule subproofs))
      | None => prove_rules goal rules' subst depth
      end
    | None => prove_rules goal rules' subst depth
    end
  end.
End recursion.

Fixpoint prove_goal (fuel : nat) (depth : nat) (goal : Predicate) (subst : Substitution) :
    outcome Error (option Proof) :=
  if max_depth e <? depth then Ok None else
  match fuel with
  | O => OutOfFuel
  | S fuel' =>
    let goal := apply_subst_predicate goal subst in
    let! found := unifies_with_some goal (get_predicates (name goal) kb) subst in
    if found : bool then Ok (Some (Proof_fact goal))
    else prove_rules (prove_goal fuel' (S depth)) goal (get_rules (name goal) kb) subst depth
  end.

Definition prove (fuel : nat) (goal : Predicate) : outcome Error (option Proof) :=
  prove_goal fuel 0 goal ∅.

(** ** Verification *)
Definition same_shape (p q : Predicate) : bool :=
  bool_decide (name p = name q) && (length (args p) =? length (args q)).
Fixpoint same_shapes (ps qs : list Predicate) : bool :=
  match ps, qs with
  | p :: ps', q :: qs' => same_shape p q && same_shapes ps' qs'
  | _, _ => true
  end.

Definition rule_exists (goal : Predicate) (rule : ProofRule) : bool :=
  existsb (λ kb_rule,
      same_shape (head kb_rule) (pr_head rule)
      && (length (body kb_rule) =? length (pr_body rule))
      && same_shapes (body kb_rule) (pr_body rule))
    (get_rules (name goal) kb).

Fixpoint verify_proof_recursive (p : Proof) (depth : nat) : outcome Error bool :=
  if max_depth e <? depth then Ok false else
  let '(mkProof goal r subproofs) := p in
  match r with
  | None => Ok false
  | Some rule =>
    if pr_is_fact rule then unifies_with_some goal (get_predicates (name goal) kb) ∅ else
    if negb (rule_exists goal rule) then Ok false else
    if negb (length subproofs =? length (pr_body rule)) then Ok false else
    (fix verify_each (subproofs : list Proof) (body : list Predicate) : outcome Error bool :=
       match subproofs, body with
       | subproof :: subproofs', body_predicate :: body' =>
         if decide (name (proof_goal subproof) ≠ name body_predicate) then Ok false else
         let! ok := verify_proof_recursive subproof (S depth) in
         if ok : bool then verify_each subproofs' body' else Ok false
       | _, _ => Ok true
       end) subproofs (pr_body rule)
  end.

Definition verify (p : Proof) : outcome Error bool := verify_proof_recursive p 0.
End engine.

(** ** Goal decomposition *)
Record GoalDecomposition : Type := mkDecomposition {
  gd_goal : Predicate;
  subgoals : list Predicate;
  rule_applied : option Rule;
  local_solutions : list bool;
  gd_depth : nat;
}.
Definition GoalDecomposition_new (goal : Predicate) (depth : nat) : GoalDecomposition :=
  mkDecomposition goal [] None [] depth.
Definition apply_rule (rule : Rule) (d : GoalDecomposition) : GoalDecomposition :=
  mkDecomposition (gd_goal d) (body rule) (Some rule) (replicate (length (body rule)) false) (gd_depth d).
Definition mark_solved (index : nat) (d : GoalDecomposition) : GoalDecomposition :=
  if index <? length (local_solutions d)
  then mkDecomposition (gd_goal d) (subgoals d) (rule_applied d)
         (<[index := true]> (local_solutions d)) (gd_depth d)
  else d.
Definition is_complete (d : GoalDecomposition) : bool := forallb id (local_solutions d).
Definition unsolved_subgoals (d : GoalDecomposition) : list Predicate :=
  map fst (filter (λ p, p.2 = false) (zip (subgoals d) (local_solutions d))).

(** ** The distributed reasoner's tracked proof search, over its list of decompositions *)
Section tracking.
Context (fuel_unify : nat) (kb : KnowledgeBase).
Notation Tracked := (stateful (list GoalDecomposition) Error).

Section recursion.
Context (prove_tracking : Predicate → Tracked (option Proof)).

(** The loop over the body: the subproofs, or [None] at the first goal without a proof. *)
Fixpoint track_subgoals (i : nat) (goals : list Predicate) (subst : Substitution)
    (d : GoalDecomposition) (subproofs : list Proof) :
    Tracked (option (list Proof) * GoalDecomposition) :=
  match goals with
  | [] => lift (Ok (Some subproofs, d))
  | subgoal :: goals' =>
    do! r := prove_tracking (apply_subst_predicate subgoal subst) in
    match r with
    | Some subproof => track_subgoals (S i) goals' subst (mark_solved i d) (subproofs ++ [subproof])
    | None => lift (Ok (None, d))
    end
  end.

Fixpoint track_rules (goal : Predicate) (rules : list Rule) (depth : nat) (d : GoalDecomposition) :
    Tracked (option Proof) :=
  match rules with
  | [] => do! _ := modifies (λ ds, ds ++ [d]) in lift (Ok None)
  | rule :: rules' =>
    let renamed_rule := rename_rule_vars rule depth in
    do! r := lift (unify_predicates fuel_unify goal (head renamed_rule) ∅) in
    match r with
    | Some subst =>
      do! (all, d) := track_subgoals 0 (body renamed_rule) subst (apply_rule renamed_rule d) [] in
      match all with
      | Some subproofs =>
        do! _ := modifies (λ ds, ds ++ [d]) in
        lift (Ok (Some (Proof_from_rule goal renamed_rule subproofs)))
      | None => track_rules goal rules' depth d
      end
    | None => track_rules goal rules' depth d
    end
  end.
End recursion.

Fixpoint prove_tracking (fuel : nat) (depth : nat) (goal : Predicate) : Tracked (option Proof) :=
  match fuel with
  | O => lift OutOfFuel
  | S fuel' =>
    let decomp := GoalDecomposition_new goal depth in
    do! found := lift (unifies_with_some fuel_unify goal (get_predicates (name goal) kb) ∅) in
    if found : bool then
      do! _ := modifies (λ ds, ds ++ [decomp]) in lift (Ok (Some (Proof_fact goal)))
    else track_rules (prove_tracking fuel' (S depth)) goal (get_rules (name goal) kb) depth decomp
  end.

Definition prove_with_decomposition (fuel : nat) (goal : Predicate) :
    stateful (list GoalDecomposition) Error (option Proof * list GoalDecomposition) :=
  do! _ := modifies (λ _, []) in
  do! proof := prove_tracking fuel 0 goal in
  λ ds, (Ok (proof, ds), []).
End tracking.

Definition get_unsolved_goals (ds : list GoalDecomposition) : list Predicate :=
  flat_map unsolved_subgoals ds.

(** ** Cycle detection *)
Definition goal_to_key (goal : Predicate) : string :=
  name goal +:+ "(" +:+ pretty (length (args goal)) +:+ ")".

Record CycleDetector : Type := mkDetector { goal_stack : list string; goal_set : gset string }.
Definition CycleDetector_new : CycleDetector := mkDetector [] ∅.
(** The stack grows at the end of the list. *)
Definition cd_push (goal : Predicate) (d : CycleDetector) : bool * CycleDetector :=
  let key := goal_to_key goal in
  if decide (key ∈ goal_set d) then (false, d)
  else (true, mkDetector (goal_stack d ++ [key]) ({[key]} ∪ goal_set d)).
Definition cd_pop (d : CycleDetector) : CycleDetector :=
  match last (goal_stack d) with
  | Some key => mkDetector (removelast (goal_stack d)) (goal_set d ∖ {[key]})
  | None => d
  end.
Definition would_cycle (goal : Predicate) (d : CycleDetector) : bool :=
  bool_decide (goal_to_key goal ∈ goal_set d).
Definition cd_depth (d : CycleDetector) : nat := length (goal_stack d).
Definition cd_clear (d : CycleDetector) : CycleDetector := CycleDetector_new.
End reasoning.
