(* ===== verification/UnifyFacts.v ===== *)
(** * Unification against ground terms is matching

    The engine's [unify] is sound and complete when one side is ground and the substitution
    maps to ground terms; [ReasoningLimits.unify_diverges] shows what
    can happen otherwise.  References are compared by their CID alone, so terms are compared
    after [strip], which forgets the hints. *)

From Stdlib Require Import ZArith Lia List.
From stdpp Require Import base tactics numbers list gmap sets strings pretty sorting.
From S2P Require Import Prelude Collections Cid Ir Reasoning.

Section facts.
Context `{CidCrate}.
Implicit Types (t g u : Term) (s th : Substitution) (p q : Predicate).

(** ** Terms up to the hints of references *)
Fixpoint strip t : Term :=
  match t with
  | Fun f l => Fun f (map strip l)
  | Ref r => Ref (TermRef_new (ref_cid r))
  | _ => t
  end.
Definition strip_pred p : Predicate := mkPredicate (name p) (map strip (args p)).

Fixpoint term_depth t : nat :=
  match t with
  | Fun _ l => S (foldr (λ t n, term_depth t `max` n) 0 l)
  | _ => 1
  end.
Definition args_depth (l : list Term) : nat := foldr (λ t n, term_depth t `max` n) 0 l.

Fixpoint term_vars t : gset string :=
  match t with
  | Var v => {[v]}
  | Fun _ l => ⋃ map term_vars l
  | _ => ∅
  end.
Definition args_vars (l : list Term) : gset string := ⋃ map term_vars l.

Lemma elem_of_args_vars v l : v ∈ args_vars l ↔ ∃ t, t ∈ l ∧ v ∈ term_vars t.
Proof.
  unfold args_vars. rewrite elem_of_union_list. setoid_rewrite elem_of_list_map. naive_solver.
Qed.

(** ** Ground terms and ground substitutions *)
Definition ground_range s : Prop := ∀ v t, s !! v = Some t → is_ground t = true.

Lemma forallb_ground l : forallb is_ground l = true ↔ ∀ t, t ∈ l → is_ground t = true.
Proof. rewrite forallb_forall. setoid_rewrite list_elem_of_In. done. Qed.

Lemma ground_vars t : is_ground t = true ↔ term_vars t = ∅.
Proof.
  induction t as [w|k|f l IH|r] using Term_ind'; simpl; try done.
  change (⋃ map term_vars l) with (args_vars l). rewrite forallb_ground, Forall_forall in *.
  split; intros Hl.
  - apply set_eq. intros v. rewrite elem_of_args_vars. split; [|set_solver].
    intros (t & Ht & Hv). rewrite (proj1 (IH t Ht) (Hl t Ht)) in Hv. set_solver.
  - intros t Ht. apply IH; [done|]. apply set_eq. intros v. split; [|set_solver].
    intros Hv. rewrite <- Hl, elem_of_args_vars. eauto.
Qed.

Lemma map_ext_elem {A B} (f g : A → B) l : (∀ x, x ∈ l → f x = g x) → map f l = map g l.
Proof. intros Hfg. apply map_ext_in. intros x Hx. by apply Hfg, list_elem_of_In. Qed.

(** Application depends on the variables of the term only. *)
Lemma apply_ext t s s' :
  (∀ v, v ∈ term_vars t → apply_subst_term (Var v) s = apply_subst_term (Var v) s') →
  apply_subst_term t s = apply_subst_term t s'.
Proof.
  induction t as [w|k|f l IH|r] using Term_ind'; try done.
  - intros Hv. apply Hv. simpl. set_solver.
  - intros Hv. simpl. f_equal. rewrite Forall_forall in IH. apply map_ext_elem. intros t Ht.
    apply IH; [done|]. intros v Hin. apply Hv. apply elem_of_args_vars. eauto.
Qed.

Lemma apply_ground t s : is_ground t = true → apply_subst_term t s = t.
Proof.
  induction t as [w|k|f l IH|r] using Term_ind'; try done. simpl. rewrite forallb_ground. rewrite Forall_forall in IH.
  intros Hl. f_equal. rewrite <- (map_id l) at 2. apply map_ext_elem. auto.
Qed.

Lemma apply_ground_range t s :
  ground_range s → term_vars t ⊆ dom s → is_ground (apply_subst_term t s) = true.
Proof.
  intros Hs. induction t as [w|k|f l IH|r] using Term_ind'; try done.
  - intros Hv. simpl in *. assert (w ∈ dom s) as [t Ht]%elem_of_dom by set_solver.
    rewrite Ht. by apply (Hs w).
  - intros Hv. simpl. rewrite Forall_forall in IH. apply forallb_ground.
    intros ? (t & <- & Ht)%elem_of_list_map. apply IH; [done|].
    intros v Hin. apply Hv. apply elem_of_args_vars. eauto.
Qed.

(** The variables left after an application are unbound. *)
Lemma apply_vars t s v :
  ground_range s → v ∈ term_vars (apply_subst_term t s) → v ∈ term_vars t ∧ s !! v = None.
Proof.
  intros Hs. induction t as [w|k|f l IH|r] using Term_ind'; try done.
  - simpl. destruct (s !! w) as [t|] eqn:Hw; simpl.
    + rewrite (proj1 (ground_vars t)) by by eapply Hs. set_solver.
    + intros ->%elem_of_singleton. split; [set_solver|done].
  - simpl. rewrite Forall_forall in IH. intros Hv.
    apply elem_of_args_vars in Hv as (? & (t & <- & Ht)%elem_of_list_map & Hv).
    destruct (IH t Ht Hv) as [? ?]. split; [|done].
    apply elem_of_args_vars. eauto.
Qed.

Lemma apply_compose t s s' :
  ground_range s → s ⊆ s' → apply_subst_term (apply_subst_term t s) s' = apply_subst_term t s'.
Proof.
  intros Hs Hsub. induction t as [w|k|f l IH|r] using Term_ind'; try done.
  - simpl. destruct (s !! w) as [t|] eqn:Hv; [|done]. simpl.
    rewrite (lookup_weaken _ _ _ _ Hv Hsub). apply apply_ground. by eapply Hs.
  - simpl. f_equal. rewrite Forall_forall in IH. rewrite map_map.
    apply map_ext_elem. auto.
Qed.

(** ** Substitutions up to hints *)
Definition extends s th : Prop := ∀ v t, s !! v = Some t → ∃ t', th !! v = Some t' ∧ strip t' = strip t.

Lemma extends_subseteq s s' : s ⊆ s' → extends s s'.
Proof. intros Hsub v t Hv. exists t. split; [by eapply lookup_weaken|done]. Qed.

Lemma extends_trans s1 s2 s3 : extends s1 s2 → extends s2 s3 → extends s1 s3.
Proof.
  intros H12 H23 v t Hv. destruct (H12 v t Hv) as (t2 & Hv2 & He2).
  destruct (H23 v t2 Hv2) as (t3 & Hv3 & He3). exists t3. split; [done|congruence].
Qed.

Lemma strip_apply_compose t s th : ground_range s → extends s th →
  strip (apply_subst_term (apply_subst_term t s) th) = strip (apply_subst_term t th).
Proof.
  intros Hs Hext. induction t as [w|k|f l IH|r] using Term_ind'; try done.
  - simpl. destruct (s !! w) as [t|] eqn:Hv; [|done]. simpl.
    destruct (Hext w t Hv) as (t' & -> & Ht). rewrite apply_ground by by eapply Hs. done.
  - simpl. f_equal. rewrite Forall_forall in IH. rewrite !map_map.
    apply map_ext_elem. auto.
Qed.

Lemma strip_ground t u : strip t = strip u → is_ground t = is_ground u.
Proof.
  revert u. induction t as [w|k|f l IH|r] using Term_ind'; intros [|?|f' l'|?]; simpl; try done.
  intros [= _ Hl].
  revert l' Hl. induction IH as [|t l Ht _ IHl]; intros [|u l'] Hl; try done. simpl in *.
  injection Hl as Htu Hl. by rewrite (Ht u Htu), (IHl l' Hl).
Qed.

(** ** Matching *)

(** What a matcher of the terms [l] against the ground terms [gs] should answer from [s]: a
    least extension of [s] that makes them equal, or nothing when there is none. *)
Definition matches (l gs : list Term) s (r : option Substitution) : Prop :=
  match r with
  | Some s' =>
    ground_range s' ∧ s ⊆ s' ∧ dom s' ⊆ dom s ∪ args_vars l
    ∧ map (λ t, strip (apply_subst_term t s')) l = map strip gs
    ∧ ∀ th, extends s th → map (λ t, strip (apply_subst_term t th)) l = map strip gs → extends s' th
  | None => ∀ th, extends s th → map (λ t, strip (apply_subst_term t th)) l ≠ map strip gs
  end.

Lemma matches_nil s : ground_range s → matches [] [] s (Some s).
Proof. intros Hs. by split_and!; [|done|set_solver|..]. Qed.

(** Matching the applied terms is matching the terms. *)
Lemma args_vars_apply l s v :
  ground_range s → v ∈ args_vars (map (λ t, apply_subst_term t s) l) → v ∈ args_vars l ∧ s !! v = None.
Proof.
  intros Hs (? & (t & <- & Ht)%elem_of_list_map & Hv)%elem_of_args_vars.
  destruct (apply_vars t s v Hs Hv). split; [|done].
  apply elem_of_args_vars. eauto.
Qed.

Lemma matches_apply l gs s r :
  ground_range s → matches (map (λ t, apply_subst_term t s) l) gs s r → matches l gs s r.
Proof.
  intros Hs. assert (∀ th, extends s th →
    map (λ t, strip (apply_subst_term t th)) (map (λ t, apply_subst_term t s) l)
    = map (λ t, strip (apply_subst_term t th)) l) as Heq.
  { intros th Hth. rewrite map_map. apply map_ext_elem. intros t _. by apply strip_apply_compose. }
  destruct r as [s'|]; simpl.
  - intros (Hg & Hsub & Hd & He & Hl). split_and!; [done|done| | |].
    + intros v [?|[? _]%(args_vars_apply _ _ _ Hs)]%Hd%elem_of_union; set_solver.
    + rewrite <- He. symmetry. apply Heq. by apply extends_subseteq.
    + intros th Hth Ht. apply Hl; [done|]. by rewrite Heq.
  - intros Hn th Hth. rewrite <- Heq by done. by apply Hn.
Qed.

(** One more argument. *)
Lemma matches_cons t l g gs s s1 r :
  ground_range s → is_ground g = true → matches [t] [g] s (Some s1) → matches l gs s1 r →
  matches (t :: l) (g :: gs) s r.
Proof.
  intros Hs Hg (Hg1 & Hsub1 & Hd1 & He1 & Hl1). injection He1 as He1.
  assert (args_vars [t] = term_vars t) as Ht by (unfold args_vars; simpl; set_solver).
  assert (args_vars (t :: l) = term_vars t ∪ args_vars l) as Htl by done. rewrite Ht in Hd1.
  destruct r as [s2|]; simpl.
  - intros (Hg2 & Hsub2 & Hd2 & He2 & Hl2). split_and!; [done|by transitivity s1|set_solver| |].
    + f_equal; [|done]. rewrite <- He1, <- (apply_compose t s1 s2) by done.
      rewrite (apply_ground (apply_subst_term t s1)); [done|]. by rewrite (strip_ground _ _ He1).
    + intros th Hth [= Ht1 Ht2]. apply Hl2; [|done]. apply Hl1; [done|]. simpl. congruence.
  - intros Hn th Hth [= Ht1 Ht2]. apply (Hn th); [|done]. apply Hl1; [done|]. simpl. congruence.
Qed.

Lemma matches_cons_fail t l g gs s :
  matches [t] [g] s None → matches (t :: l) (g :: gs) s None.
Proof. intros Hn th Hth [= Ht _]. apply (Hn th Hth). simpl. congruence. Qed.

(** [unify] against a ground term, and the loop over the arguments. *)
Lemma term_depth_pos t : 1 ≤ term_depth t.
Proof. destruct t; simpl; lia. Qed.

Lemma unify_args_matches fuel l gs s :
  (∀ t g s, is_ground g = true → term_depth g ≤ fuel → ground_range s →
     ∃ r, unify fuel t g s = Ok r ∧ matches [t] [g] s r) →
  length l = length gs → forallb is_ground gs = true → args_depth gs ≤ fuel → ground_range s →
  ∃ r, unify_args (unify fuel) l gs s = Ok r ∧ matches l gs s r.
Proof.
  intros Hun. revert gs s. induction l as [|t l IH]; intros [|g gs] s Hlen Hgs Hd Hs; try done; simpl.
  { exists (Some s). split; [done|by apply matches_nil]. }
  simpl in *. apply andb_true_iff in Hgs as [Hg Hgs].
  destruct (Hun t g s) as ([s1|] & -> & Hm); [done|lia|done| |]; simpl.
  - destruct (IH gs s1) as (r & -> & Hr); [lia|done|lia|apply Hm|].
    exists r. split; [done|]. by eapply matches_cons.
  - exists None. split; [done|by apply matches_cons_fail].
Qed.

Lemma bind_var_matches v g s :
  is_ground g = true → ground_range s → s !! v = None → matches [Var v] [g] s (bind_var v g s).
Proof.
  intros Hg Hs Hv. assert (bind_var v g s = Some (<[v := g]> s)) as ->.
  { assert (occurs_in v g = false) as Hocc.
    { apply not_true_is_false. intros Hocc. apply ground_vars in Hg.
      assert (v ∈ term_vars g); [|set_solver]. clear Hg. revert Hocc.
      induction g as [w|k|f l IH|r] using Term_ind'; simpl; try done.
      - intros ->%bool_decide_eq_true. set_solver.
      - intros (t & Ht & Hv')%existsb_exists. apply list_elem_of_In in Ht. rewrite Forall_forall in IH.
        apply elem_of_args_vars. eauto. }
    unfold bind_var. rewrite Hocc. by destruct g. }
  split_and!.
  - intros w t. rewrite lookup_insert_Some. intros [[_ <-]|[_ Ht]]; [done|by eapply Hs].
  - by apply insert_subseteq.
  - rewrite dom_insert. unfold args_vars. simpl. set_solver.
  - simpl. by rewrite lookup_insert_eq.
  - intros th Hth [= Ht]. intros w t. rewrite lookup_insert_Some. intros [[<- <-]|[_ Hw]]; [|by apply Hth].
    destruct (th !! v) as [t|]; simpl in Ht; [by exists t|].
    destruct g; done.
Qed.

Lemma matches_same t g s :
  ground_range s → term_vars t = ∅ → strip t = strip g → matches [t] [g] s (Some s).
Proof.
  intros Hs Ht%ground_vars Heq. split_and!; [done|done|set_solver| |done].
  simpl. rewrite apply_ground by done. by rewrite Heq.
Qed.

Lemma matches_fail t g s :
  (∀ th, strip (apply_subst_term t th) ≠ strip g) → matches [t] [g] s None.
Proof. intros Hn th _ [= Heq]. by apply (Hn th). Qed.

Lemma matches_fun f l gs s r : matches l gs s r → matches [Fun f l] [Fun f gs] s r.
Proof.
  assert (args_vars [Fun f l] = args_vars l) as Hv by (unfold args_vars; simpl; set_solver).
  assert (∀ th, map (λ t, strip (apply_subst_term t th)) [Fun f l] = map strip [Fun f gs] ↔
                map (λ t, strip (apply_subst_term t th)) l = map strip gs) as Heq.
  { intros th. simpl. rewrite map_map. split; [by intros [= ?]|by intros ->]. }
  unfold matches. rewrite Hv. destruct r as [s'|].
  - rewrite Heq. setoid_rewrite Heq. done.
  - setoid_rewrite Heq. done.
Qed.

Lemma unify_matches fuel t g s :
  is_ground g = true → term_depth g ≤ fuel → ground_range s →
  ∃ r, unify fuel t g s = Ok r ∧ matches [t] [g] s r.
Proof.
  revert t g s. induction fuel as [|fuel IH]; intros t g s Hg Hd Hs.
  { pose proof (term_depth_pos g). lia. }
  cut (∃ r, unify (S fuel) t g s = Ok r ∧ matches [apply_subst_term t s] [g] s r).
  { intros (r & Hr & Hm). exists r. split; [done|]. by apply matches_apply. }
  simpl. rewrite (apply_ground g) by done.
  pose proof (λ v, apply_vars t s v Hs) as Hfree.
  destruct (apply_subst_term t s) as [v|c|f l|r].
  - eexists. split; [done|]. apply bind_var_matches; [done..|]. by apply Hfree; simpl; set_solver.
  - destruct g as [|c'| |]; try done; [case_decide as Hc|..]; eexists; (split; [reflexivity|]);
      try (apply matches_fail; intros th; simpl; congruence).
    by apply matches_same; [..|subst].
  - destruct g as [|c'|f' gs|]; try done; [|case_decide as Hc|]; try (eexists; split; [reflexivity|]);
      try (apply matches_fail; intros th; simpl; congruence).
    + destruct Hc as [<- Hlen]. destruct (unify_args_matches fuel l gs s) as (r & Hr & Hm);
        [done|done|done| |done|].
      { simpl in Hd. unfold args_depth. lia. }
      exists r. split; [done|by apply matches_fun].
    + apply matches_fail. intros th [= Hf Hl]. apply Hc. split; [done|].
      apply (f_equal length) in Hl. by rewrite !length_map in Hl.
  - destruct g as [| | |r']; try done; [..|case_decide as Hc]; eexists; (split; [reflexivity|]);
      try (apply matches_fail; intros th; simpl; congruence).
    + apply matches_same; [done..|]. simpl. by rewrite Hc.
    + apply matches_fail. intros th [= Heq]. done.
Qed.

(** With the ground term on the left the answer is the same. *)
Lemma unify_ground_sym fuel g t s :
  is_ground g = true → term_depth g ≤ fuel → ground_range s → unify fuel g t s = unify fuel t g s.
Proof.
  revert g t s. induction fuel as [|fuel IH]; intros g t s Hg Hd Hs; [done|]. simpl.
  rewrite (apply_ground g) by done.
  destruct g as [|c|f gs|r]; [done|..]; destruct (apply_subst_term t s) as [v'|c'|f' l|r']; try done.
  - destruct (decide (c = c')), (decide (c' = c)); congruence.
  - cut (unify_args (unify fuel) gs l s = unify_args (unify fuel) l gs s).
    { intros Hargs. destruct (decide (f = f' ∧ _)), (decide (f' = f ∧ _)); naive_solver. }
    simpl in Hg, Hd. apply le_S_n in Hd. clear t. revert l s Hs.
    induction gs as [|g gs IHgs]; intros [|t l] s Hs; try done. simpl in *.
    apply andb_true_iff in Hg as [Hg Hgs]. rewrite IH by (done || lia).
    destruct (unify_matches fuel t g s) as ([s1|] & -> & Hm); [done|lia|done| |done]. simpl.
    apply IHgs; [done|lia|apply Hm].
  - destruct (decide (ref_cid r = ref_cid r')), (decide (ref_cid r' = ref_cid r)); congruence.
Qed.

(** Predicates of the same name: matching the arguments. *)
Definition matches_pred p q s (r : option Substitution) : Prop := matches (args p) (args q) s r.

Lemma unify_predicates_matches fuel p q s :
  name p = name q → pred_is_ground q = true → args_depth (args q) ≤ fuel → ground_range s →
  ∃ r, unify_predicates fuel p q s = Ok r ∧ matches (args p) (args q) s r.
Proof.
  intros Hn Hq Hd Hs. unfold unify_predicates. case_decide as Hlen.
  - apply unify_args_matches; [|apply Hlen|done..]. intros. by apply unify_matches.
  - exists None. split; [done|]. intros th _ Heq. apply Hlen. split; [done|].
    apply (f_equal length) in Heq. by rewrite !length_map in Heq.
Qed.

Lemma unify_predicates_ground_sym fuel p q s :
  pred_is_ground p = true → args_depth (args p) ≤ fuel → ground_range s →
  unify_predicates fuel p q s = unify_predicates fuel q p s.
Proof.
  intros Hp Hd Hs. unfold unify_predicates.
  destruct (decide (name p = name q ∧ _)), (decide (name q = name p ∧ _)); try naive_solver.
  destruct p as [n gs], q as [n' l]. unfold pred_is_ground in Hp. simpl in *. clear a a0.
  revert l s Hs. induction gs as [|g gs IHgs]; intros [|t l] s Hs; try done. simpl in *.
  apply andb_true_iff in Hp as [Hg Hgs]. rewrite unify_ground_sym by (done || lia).
  destruct (unify_matches fuel t g s) as ([s1|] & -> & Hm); [done|lia|done| |done]. simpl.
  apply IHgs; [done|lia|apply Hm].
Qed.

(** ** Renaming apart: suffixes of different depths give different names *)
Notation chars := String.list_ascii_of_string.

Lemma chars_app x y : chars (x +:+ y) = chars x ++ chars y.
Proof. induction x as [|a x IH]; simpl; [done|by rewrite IH]. Qed.

Lemma chars_inj x y : chars x = chars y → x = y.
Proof.
  intros Hxy. rewrite <- (String.string_of_list_ascii_of_string x), Hxy.
  apply String.string_of_list_ascii_of_string.
Qed.

Definition underscore : Ascii.ascii := Ascii.Ascii true true true true true false true false.

Lemma pretty_go_digits x w : underscore ∉ chars w → underscore ∉ chars (pretty_N_go x w).
Proof.
  revert w. induction (N.lt_wf_0 x) as [x _ IH]; intros w Hw.
  assert (x = 0 ∨ 0 < x)%N as [->|Hx] by lia; [done|].
  rewrite pretty_N_go_step by done. apply IH; [by apply N.div_lt|].
  simpl. intros [Heq|?]%elem_of_cons; [|done].
  unfold pretty_N_char in Heq. by repeat case_match.
Qed.

Lemma pretty_nat_digits (n : nat) : underscore ∉ chars (pretty n).
Proof.
  unfold pretty, pretty_nat, pretty, pretty_N. case_decide; [by intros ?%list_elem_of_singleton|].
  apply pretty_go_digits. by intros ?%elem_of_nil.
Qed.

Lemma last_separator {A} (c : A) x x' y y' :
  c ∉ y → c ∉ y' → x ++ c :: y = x' ++ c :: y' → x = x' ∧ y = y'.
Proof.
  intros Hy Hy' Heq. assert (reverse y ++ c :: reverse x = reverse y' ++ c :: reverse x') as Hr.
  { apply (f_equal reverse) in Heq. rewrite !reverse_app, !reverse_cons, <- !app_assoc in Heq. done. }
  clear Heq. assert (c ∉ reverse y) as Hy1 by by rewrite elem_of_reverse.
  assert (c ∉ reverse y') as Hy2 by by rewrite elem_of_reverse.
  assert (reverse x = reverse x' ∧ reverse y = reverse y') as [Hx Hyy].
  { revert Hr Hy1 Hy2. generalize (reverse y) (reverse y') (reverse x) (reverse x').
    intros l. induction l as [|a l IH]; intros [|b l'] m m' Hr H1 H2; simplify_eq/=; [done|set_solver..|].
    apply not_elem_of_cons in H1 as [_ H1], H2 as [_ H2]. destruct (IH l' m m') as [-> ->]; done. }
  by split; apply (inj reverse).
Qed.

Lemma rename_var_inj d d' v v' : rename_var d v = rename_var d' v' → d = d' ∧ v = v'.
Proof.
  unfold rename_var. intros Heq. apply (f_equal chars) in Heq. rewrite !chars_app in Heq. simpl in Heq.
  apply (last_separator underscore) in Heq as [Hv Hd]; [|apply pretty_nat_digits..].
  apply chars_inj in Hv, Hd. by apply (inj pretty) in Hd.
Qed.

(** ** The variables of a rule *)
Lemma elem_of_collect_vars t vars v : v ∈ collect_vars t vars ↔ v ∈ vars ∨ v ∈ term_vars t.
Proof.
  revert vars. induction t as [w|k|f l IH|r] using Term_ind'; intros vars; simpl; try set_solver.
  change (⋃ map term_vars l) with (args_vars l). revert vars.
  induction IH as [|t l Ht _ IHl]; intros vars; simpl; [unfold args_vars; set_solver|].
  rewrite IHl, Ht. change (args_vars (t :: l)) with (term_vars t ∪ args_vars l). set_solver.
Qed.

Lemma elem_of_collect_args l vars v :
  v ∈ fold_left (λ vars arg, collect_vars arg vars) l vars ↔ v ∈ vars ∨ v ∈ args_vars l.
Proof.
  revert vars. induction l as [|t l IH]; intros vars; simpl; [unfold args_vars; set_solver|].
  rewrite IH, elem_of_collect_vars. change (args_vars (t :: l)) with (term_vars t ∪ args_vars l). set_solver.
Qed.

Lemma elem_of_dedup l (v : string) : v ∈ dedup l ↔ v ∈ l.
Proof.
  induction l as [|x l IH]; [done|]. destruct l as [|y l]; [done|].
  change (dedup (x :: y :: l)) with (if decide (x = y) then dedup (y :: l) else x :: dedup (y :: l)).
  case_decide; [subst; rewrite IH; set_solver|]. rewrite elem_of_cons, IH, (elem_of_cons (y :: l)). done.
Qed.

Lemma elem_of_sort_strings l v : v ∈ sort_strings l ↔ v ∈ l.
Proof. unfold sort_strings. by rewrite merge_sort_Permutation. Qed.

Lemma elem_of_pred_variables p v : v ∈ pred_variables p ↔ v ∈ args_vars (args p).
Proof.
  unfold pred_variables. rewrite elem_of_dedup, elem_of_sort_strings, elem_of_collect_args. set_solver.
Qed.

Lemma elem_of_push_new l vars v : v ∈ fold_left push_new l vars ↔ v ∈ vars ∨ v ∈ l.
Proof.
  revert vars. induction l as [|w l IH]; intros vars; simpl; [set_solver|].
  rewrite IH. unfold push_new. case_decide; set_solver.
Qed.

Lemma elem_of_rule_variables r v :
  v ∈ rule_variables r ↔ v ∈ args_vars (args (head r)) ∨ ∃ b, b ∈ body r ∧ v ∈ args_vars (args b).
Proof.
  unfold rule_variables. rewrite elem_of_sort_strings, <- elem_of_pred_variables.
  generalize (pred_variables (head r)) as vars. induction (body r) as [|b bs IH]; intros vars; simpl.
  - set_solver.
  - rewrite IH, elem_of_push_new, elem_of_pred_variables. setoid_rewrite elem_of_cons. naive_solver.
Qed.

(** ** What an instance says of the values of the variables *)
Lemma strip_apply_iff t th1 th2 :
  strip (apply_subst_term t th1) = strip (apply_subst_term t th2) ↔
  ∀ v, v ∈ term_vars t → strip (apply_subst_term (Var v) th1) = strip (apply_subst_term (Var v) th2).
Proof.
  induction t as [w|k|f l IH|r] using Term_ind'.
  - change (term_vars (Var w)) with ({[w]} : gset string).
    split; [by intros Hw v ->%elem_of_singleton|]. intros Hv. apply Hv. simpl. set_solver.
  - done.
  - change (term_vars (Fun f l)) with (args_vars l). simpl. rewrite !map_map. split.
    + intros [= Hl] v (t & Ht & Hv)%elem_of_args_vars.
      rewrite Forall_forall in IH. apply (IH t Ht); [|done]. clear -Hl Ht.
      induction l as [|u l IHl]; [set_solver|]. injection Hl as Hu Hl.
      apply elem_of_cons in Ht as [->|Ht]; auto.
    + intros Hv. f_equal. apply map_ext_elem. intros t Ht. rewrite Forall_forall in IH.
      apply IH; [done|]. intros v Hin. apply Hv. apply elem_of_args_vars. eauto.
  - done.
Qed.

Lemma ground_apply_iff t th :
  is_ground (apply_subst_term t th) = true ↔
  ∀ v, v ∈ term_vars t → is_ground (apply_subst_term (Var v) th) = true.
Proof.
  induction t as [w|k|f l IH|r] using Term_ind'.
  - change (term_vars (Var w)) with ({[w]} : gset string).
    split; [by intros Hw v ->%elem_of_singleton|]. intros Hv. apply Hv. simpl. set_solver.
  - split; [|done]. intros _ v Hv. simpl in Hv. set_solver.
  - change (term_vars (Fun f l)) with (args_vars l). simpl. rewrite forallb_ground, Forall_forall in *. split.
    + intros Hl v (t & Ht & Hv)%elem_of_args_vars. apply (IH t Ht); [|done]. apply Hl.
      apply elem_of_list_map. by exists t.
    + intros Hv ? (t & <- & Ht)%elem_of_list_map.
      apply IH; [done|]. intros v Hin. apply Hv. apply elem_of_args_vars. eauto.
  - split; [|done]. intros _ v Hv. simpl in Hv. set_solver.
Qed.

Lemma args_depth_elem l t : t ∈ l → term_depth t ≤ args_depth l.
Proof.
  induction l as [|u l IH]; [set_solver|]. intros [->|Ht]%elem_of_cons; simpl; [lia|].
  specialize (IH Ht). unfold args_depth in *. lia.
Qed.

Lemma args_depth_le l m : (∀ t, t ∈ l → term_depth t ≤ m) → args_depth l ≤ m.
Proof.
  induction l as [|u l IH]; intros Hl; simpl; [lia|]. pose proof (Hl u ltac:(set_solver)).
  assert (args_depth l ≤ m) by (apply IH; set_solver). unfold args_depth in *. lia.
Qed.

Lemma term_depth_strip t : term_depth (strip t) = term_depth t.
Proof.
  induction t as [w|k|f l IH|r] using Term_ind'; try done. simpl. f_equal.
  induction IH as [|t l Ht _ IHl]; simpl; [done|]. by rewrite Ht, IHl.
Qed.

Lemma depth_var_le t th v : v ∈ term_vars t →
  term_depth (apply_subst_term (Var v) th) ≤ term_depth (apply_subst_term t th).
Proof.
  induction t as [w|k|f l IH|r] using Term_ind'; intros Hv; try by (simpl in Hv; set_solver).
  apply elem_of_args_vars in Hv as (t & Ht & Hv). rewrite Forall_forall in IH.
  etransitivity; [by apply (IH t Ht)|]. simpl. apply Nat.le_le_succ_r.
  apply (args_depth_elem (map (λ t, apply_subst_term t th) l)). apply elem_of_list_map. by exists t.
Qed.

Lemma depth_apply_le t th m :
  (∀ v, v ∈ term_vars t → term_depth (apply_subst_term (Var v) th) ≤ m) →
  term_depth (apply_subst_term t th) ≤ term_depth t + m.
Proof.
  induction t as [w|k|f l IH|r] using Term_ind'; intros Hv; try by (simpl; lia).
  - specialize (Hv w ltac:(simpl; set_solver)). simpl in *. lia.
  - simpl. change (args_depth (map (λ t, apply_subst_term t th) l) < S (args_depth l + m)).
    apply le_n_S, args_depth_le. intros ? (t & <- & Ht)%elem_of_list_map.
    rewrite Forall_forall in IH. pose proof (args_depth_elem l t Ht).
    assert (term_depth (apply_subst_term t th) ≤ term_depth t + m); [|lia].
    apply IH; [done|]. intros v Hin. apply Hv. apply elem_of_args_vars. eauto.
Qed.

(** The same for predicates, as terms with their arguments. *)
Definition pred_vars p : gset string := args_vars (args p).
Definition pred_depth p : nat := args_depth (args p).
Definition as_term p : Term := Fun (name p) (args p).

Lemma as_term_apply p s : as_term (apply_subst_predicate p s) = apply_subst_term (as_term p) s.
Proof. done. Qed.
Lemma as_term_strip p q : strip_pred p = strip_pred q ↔ strip (as_term p) = strip (as_term q).
Proof.
  destruct p as [n l], q as [n' l']. unfold strip_pred. simpl. split; intros [= -> ->]; done.
Qed.
Lemma as_term_ground p : pred_is_ground p = is_ground (as_term p).
Proof. done. Qed.
Lemma as_term_depth p : term_depth (as_term p) = S (pred_depth p).
Proof. done. Qed.
End facts.
