(* ===== verification/ReasoningFacts.v ===== *)
(** * What the inference engine proves, and what it does not

    The specification is the least Herbrand model of a knowledge base, by levels: [derives kb n
    g] says that the ground atom [g] has a derivation of height at most [n].  In knowledge
    bases with ground facts and without existential variables ([kb_closed]) ground goals stay
    ground, and there proof search is exact; queries are sound but not complete.  Outside that
    fragment queries are unsound, and unification may not end. *)

From Stdlib Require Import ZArith Lia List.
From stdpp Require Import base tactics numbers list gmap sets strings pretty.
From S2P Require Import Prelude Collections Cid Ir Reasoning UnifyFacts.

#[local] Arguments rename_rule_vars {_} _ _ : simpl never.

Section facts.
Context `{CidCrate}.
Implicit Types (t : Term) (s th : Substitution) (p q g : Predicate) (r : Rule) (kb : KnowledgeBase).

(** ** Derivations *)
Inductive derives kb : nat → Predicate → Prop :=
| derives_fact n g f : f ∈ facts kb → strip_pred g = strip_pred f → derives kb (S n) g
| derives_rule n g r th : r ∈ rules kb → strip_pred g = strip_pred (apply_subst_predicate (head r) th) →
    (∀ b, b ∈ body r → derives kb n (apply_subst_predicate b th)) → derives kb (S n) g.

Lemma derives_strip kb n g g' : strip_pred g = strip_pred g' → derives kb n g → derives kb n g'.
Proof.
  intros Hg Hd. revert Hg. destruct Hd as [n g1 f Hf Heq|n g1 r th Hr Heq Hb]; intros Hg.
  - apply (derives_fact kb n g' f Hf). congruence.
  - apply (derives_rule kb n g' r th Hr); [congruence|done].
Qed.

Record kb_closed kb : Prop := {
  closed_facts : ∀ f, f ∈ facts kb → pred_is_ground f = true;
  closed_rules : ∀ r b, r ∈ rules kb → b ∈ body r → pred_vars b ⊆ pred_vars (head r);
}.
Definition body_depth kb : nat := foldr (λ r n, foldr (λ b n, pred_depth b `max` n) n (body r)) 0 (rules kb).

Lemma body_depth_le kb r b : r ∈ rules kb → b ∈ body r → pred_depth b ≤ body_depth kb.
Proof.
  unfold body_depth. intros Hr Hb. induction (rules kb) as [|r' rs IH]; [set_solver|]. simpl.
  set (n0 := foldr _ 0 rs) in *. apply elem_of_cons in Hr as [<-|Hr].
  - clear IH. induction (body r) as [|b' bs IHb]; [set_solver|]. simpl.
    apply elem_of_cons in Hb as [<-|Hb]; [lia|]. specialize (IHb Hb). lia.
  - specialize (IH Hr). assert (n0 ≤ foldr (λ b n, pred_depth b `max` n) n0 (body r')); [|lia].
    induction (body r'); simpl; lia.
Qed.

(** ** Substitutions given by a function on a list of variables *)
Lemma lookup_tagged {K} (k : string → string) `{!Inj (=) (=) k} (f : string → K) l v :
  v ∈ l → list_to_map (M := gmap string K) (map (λ v, (k v, f v)) l) !! k v = Some (f v).
Proof.
  induction l as [|w l IH]; [set_solver|]. intros Hv. simpl. destruct (decide (w = v)) as [->|Hne].
  - by rewrite lookup_insert_eq.
  - rewrite lookup_insert_ne by (intros ?%(inj k); done). apply IH. set_solver.
Qed.

Lemma lookup_tagged_None {K} (k : string → string) (f : string → K) l x :
  (∀ v, x ≠ k v) → list_to_map (M := gmap string K) (map (λ v, (k v, f v)) l) !! x = None.
Proof.
  intros Hx. induction l as [|w l IH]; simpl; [done|]. rewrite lookup_insert_ne; [done|].
  intros <-. by apply (Hx w).
Qed.

#[local] Instance rename_var_Inj d : Inj (=) (=) (rename_var d).
Proof. intros v v' Heq. by apply rename_var_inj in Heq as [_ ?]. Qed.

(** The substitution on the variables of a rule that a substitution on the renamed ones is. *)
Definition unrename (d : nat) (vars : list string) s : Substitution :=
  list_to_map (map (λ v, (v, apply_subst_term (Var (rename_var d v)) s)) vars).
(** And back, on top of another substitution. *)
Definition rerename (d : nat) (vars : list string) th s : Substitution :=
  list_to_map (map (λ v, (rename_var d v, apply_subst_term (Var v) th)) vars) ∪ s.

Lemma apply_twice t s s' th :
  (∀ v, v ∈ term_vars t → apply_subst_term (apply_subst_term (Var v) s) s' = apply_subst_term (Var v) th) →
  apply_subst_term (apply_subst_term t s) s' = apply_subst_term t th.
Proof.
  induction t as [w|k|f l IH|r] using Term_ind'; intros Hv; try done.
  - apply Hv. simpl. set_solver.
  - simpl. f_equal. rewrite map_map. rewrite Forall_forall in IH. apply map_ext_elem. intros t Ht.
    apply IH; [done|]. intros v Hin. apply Hv. apply elem_of_args_vars. eauto.
Qed.

Lemma apply_pred_twice p s s' th :
  (∀ v, v ∈ pred_vars p → apply_subst_term (apply_subst_term (Var v) s) s' = apply_subst_term (Var v) th) →
  apply_subst_predicate (apply_subst_predicate p s) s' = apply_subst_predicate p th.
Proof.
  intros Hv. unfold apply_subst_predicate. simpl. f_equal. rewrite map_map. apply map_ext_elem.
  intros t Ht. apply apply_twice. intros v Hin. apply Hv. apply elem_of_args_vars. eauto.
Qed.

Lemma apply_unrename d vars p s :
  (∀ v, v ∈ pred_vars p → v ∈ vars) →
  apply_subst_predicate (apply_subst_predicate p (rename_subst d vars)) s
    = apply_subst_predicate p (unrename d vars s).
Proof.
  intros Hp. apply apply_pred_twice. intros v Hv. simpl. unfold rename_subst, unrename.
  rewrite (lookup_tagged (λ v, v)) by auto. rewrite (lookup_tagged (λ v, v)) by auto. done.
Qed.

Lemma apply_rerename d vars p th s :
  (∀ v, v ∈ pred_vars p → v ∈ vars) →
  apply_subst_predicate (apply_subst_predicate p (rename_subst d vars)) (rerename d vars th s)
    = apply_subst_predicate p th.
Proof.
  intros Hp. apply apply_pred_twice. intros v Hv. simpl. unfold rename_subst, rerename.
  rewrite (lookup_tagged (λ v, v)) by auto. simpl. erewrite lookup_union_Some_l; [done|].
  apply (lookup_tagged (rename_var d) (λ v, apply_subst_term (Var v) th)). auto.
Qed.

(** The names bound so far come from rules applied at smaller depths. *)
Definition fresh s (depth : nat) : Prop := ∀ x, x ∈ dom s → ∃ d v, d < depth ∧ x = rename_var d v.

Lemma extends_rerename d vars th s : fresh s d → extends s (rerename d vars th s).
Proof.
  intros Hs v t Hv. exists t. split; [|done]. unfold rerename. rewrite lookup_union_r; [done|].
  apply lookup_tagged_None. intros w ->. destruct (Hs (rename_var d w)) as (d' & w' & Hd & Heq).
  - by apply elem_of_dom_2 in Hv.
  - apply rename_var_inj in Heq as [-> _]. lia.
Qed.

(** ** Unifying a ground goal with a renamed rule head *)
Lemma get_predicates_spec n kb f : f ∈ get_predicates n kb ↔ f ∈ facts kb ∧ name f = n.
Proof. unfold get_predicates. rewrite list_elem_of_filter. tauto. Qed.
Lemma get_rules_spec n kb r : r ∈ get_rules n kb ↔ r ∈ rules kb ∧ name (head r) = n.
Proof. unfold get_rules. rewrite list_elem_of_filter. tauto. Qed.

Lemma strip_pred_matches p q th : name p = name q →
  (strip_pred (apply_subst_predicate p th) = strip_pred q ↔
   map (λ t, strip (apply_subst_term t th)) (args p) = map strip (args q)).
Proof.
  destruct p as [n l], q as [n' l']. intros Hn. simpl in *. subst n'. unfold strip_pred. simpl.
  rewrite map_map. split; [by intros [= ?]|by intros ->].
Qed.

(** What a successful head unification gives for the body. *)
Lemma head_instance kb r d s' g : kb_closed kb → r ∈ rules kb → pred_is_ground g = true →
  ground_range s' → let r' := rename_rule_vars r d in
  strip_pred (apply_subst_predicate (head r') s') = strip_pred g →
  ∃ th, strip_pred (apply_subst_predicate (head r) th) = strip_pred g
    ∧ body r' = map (λ b, apply_subst_predicate b (rename_subst d (rule_variables r))) (body r)
    ∧ ∀ b, b ∈ body r →
        apply_subst_predicate (apply_subst_predicate b (rename_subst d (rule_variables r))) s'
          = apply_subst_predicate b th
        ∧ pred_is_ground (apply_subst_predicate b th) = true
        ∧ pred_depth (apply_subst_predicate b th) ≤ body_depth kb + pred_depth g
        ∧ ∀ th2, strip_pred (apply_subst_predicate (head r) th2) = strip_pred g →
            strip_pred (apply_subst_predicate b th2) = strip_pred (apply_subst_predicate b th).
Proof.
  intros Hkb Hr Hg Hs r' Heq. set (vars := rule_variables r) in *. exists (unrename d vars s').
  assert (∀ v, v ∈ pred_vars (head r) → v ∈ vars) as Hvh by (intros; apply elem_of_rule_variables; by left).
  assert (∀ b v, b ∈ body r → v ∈ pred_vars b → v ∈ vars) as Hvb
    by (intros b v ??; apply elem_of_rule_variables; right; eauto).
  change (head r') with (apply_subst_predicate (head r) (rename_subst d vars)) in Heq.
  rewrite apply_unrename in Heq by done. split; [done|]. split; [done|]. intros b Hb.
  rewrite apply_unrename by eauto. split; [done|]. set (th := unrename d vars s') in *.
  apply as_term_strip in Heq. rewrite as_term_apply in Heq.
  assert (∀ v, v ∈ term_vars (as_term b) → v ∈ term_vars (as_term (head r))) as Hsub
    by (by apply (closed_rules kb Hkb r b)).
  split_and!.
  - rewrite as_term_ground, as_term_apply. apply ground_apply_iff. intros v Hv.
    apply (ground_apply_iff (as_term (head r))); [|by apply Hsub].
    rewrite (strip_ground _ _ Heq). done.
  - enough (term_depth (as_term (apply_subst_predicate b th)) ≤ S (body_depth kb) + pred_depth g) as Hle.
    { rewrite as_term_depth in Hle. lia. }
    etransitivity; [apply (depth_apply_le (as_term b) th (pred_depth g))|].
    + intros v Hv%Hsub. apply elem_of_args_vars in Hv as (t & Ht & Hv).
      etransitivity; [by apply (depth_var_le t)|]. unfold pred_depth.
      assert (map strip (map (λ t, apply_subst_term t th) (args (head r))) = map strip (args g)) as Hl
        by by injection Heq.
      assert (strip (apply_subst_term t th) ∈ map strip (args g)) as (u & Hu & Hin)%elem_of_list_map.
      { rewrite <- Hl, map_map. apply elem_of_list_map. by exists t. }
      rewrite <- (term_depth_strip (apply_subst_term t th)), <- Hu, term_depth_strip. by apply args_depth_elem.
    + rewrite as_term_depth. pose proof (body_depth_le kb r b Hr Hb). lia.
  - intros th2 Heq2. apply as_term_strip. rewrite !as_term_apply. apply strip_apply_iff. intros v Hv%Hsub.
    apply as_term_strip in Heq2. rewrite as_term_apply, <- Heq in Heq2.
    by apply (proj1 (strip_apply_iff _ _ _) Heq2).
Qed.

(** The outcome of the unification with a head. *)
Lemma unify_head fu r d g s : pred_is_ground g = true → pred_depth g ≤ fu → ground_range s →
  name g = name (head r) →
  ∃ res, unify_predicates fu g (head (rename_rule_vars r d)) s = Ok res
    ∧ match res with
      | Some s' => ground_range s' ∧ s ⊆ s' ∧ (fresh s d → fresh s' (S d))
          ∧ strip_pred (apply_subst_predicate (head (rename_rule_vars r d)) s') = strip_pred g
      | None => fresh s d → ∀ th, strip_pred (apply_subst_predicate (head r) th) ≠ strip_pred g
      end.
Proof.
  intros Hg Hd Hs Hn. rewrite unify_predicates_ground_sym by done.
  destruct (unify_predicates_matches fu (head (rename_rule_vars r d)) g s) as (res & Hres & Hm); [done..|].
  exists res. split; [done|]. destruct res as [s'|].
  - destruct Hm as (Hs' & Hsub & Hdom & Heq & _). split_and!; [done|done| |].
    + intros Hf x Hx. specialize (Hdom x Hx). apply elem_of_union in Hdom as [Hx'|Hx'].
      * destruct (Hf x Hx') as (d' & v & ? & ->). exists d', v. split; [lia|done].
      * apply elem_of_args_vars in Hx' as (? & (t & <- & Ht)%elem_of_list_map & Hv).
        exists d. assert (∃ v, x = rename_var d v) as [v ->]; [|exists v; split; [lia|done]].
        assert (∀ v, v ∈ term_vars t → v ∈ rule_variables r) as Hvars.
        { intros v Hv'. apply elem_of_rule_variables. left. apply elem_of_args_vars. eauto. }
        clear -Hv Hvars. induction t as [w|k|f l IH|q] using Term_ind'; try by (simpl in Hv; set_solver).
        -- simpl in Hv. unfold rename_subst in Hv. rewrite (lookup_tagged (λ v, v)) in Hv by (apply Hvars; simpl; set_solver).
           simpl in Hv. apply elem_of_singleton in Hv. eauto.
        -- apply elem_of_args_vars in Hv as (? & (t & <- & Ht)%elem_of_list_map & Hv). rewrite Forall_forall in IH.
           apply (IH t Ht Hv). intros v Hv'. apply Hvars. apply elem_of_args_vars. eauto.
    + apply strip_pred_matches; [done|]. exact Heq.
  - intros Hf th Heq. apply (Hm (rerename d (rule_variables r) th s)); [by apply extends_rerename|].
    apply strip_pred_matches; [done|]. simpl. rewrite apply_rerename; [done|].
    intros v Hv. apply elem_of_rule_variables. by left.
Qed.

(** ** Proof search on ground goals *)
Section search.
Context (e : InferenceEngine) (fu : nat) (kb : KnowledgeBase) (Hkb : kb_closed kb).
Notation levels d := (max_depth e + 1 - d).

Lemma exists_cons {A} (P : A → Prop) a l : (∃ x, x ∈ a :: l ∧ P x) ↔ P a ∨ ∃ x, x ∈ l ∧ P x.
Proof.
  split.
  - intros (x & [->|?]%elem_of_cons & ?); [by left|right; by exists x].
  - intros [?|(x & ? & ?)]; [exists a|exists x]; (split; [|done]); by constructor.
Qed.

Lemma strip_pred_ground_apply p s : pred_is_ground p = true → apply_subst_predicate p s = p.
Proof.
  intros Hp. pose proof (apply_ground (as_term p) s Hp) as Heq. destruct p as [n l].
  injection Heq as Heq. unfold apply_subst_predicate. simpl. by rewrite Heq.
Qed.

Lemma unifies_ground g fs s : pred_is_ground g = true → pred_depth g ≤ fu → ground_range s →
  (∀ f, f ∈ fs → pred_is_ground f = true ∧ name f = name g) →
  ∃ b, unifies_with_some fu g fs s = Ok b ∧ (b = true ↔ ∃ f, f ∈ fs ∧ strip_pred g = strip_pred f).
Proof.
  intros Hg Hd Hs Hfs. induction fs as [|f fs IH]; simpl; [exists false; set_solver|].
  destruct (Hfs f ltac:(left)) as [Hf Hn].
  rewrite unify_predicates_ground_sym by done.
  destruct (unify_predicates_matches fu f g s) as (res & -> & Hm); [done..|]. simpl.
  assert (∀ th, strip_pred f = strip_pred g ↔ map (λ t, strip (apply_subst_term t th)) (args f) = map strip (args g)) as Hiff.
  { intros th. rewrite <- (strip_pred_matches f g th), strip_pred_ground_apply by done. done. }
  destruct res as [s'|].
  - exists true. split; [done|]. split; [|done]. intros _. exists f. split; [left|].
    symmetry. apply (Hiff s'). apply Hm.
  - destruct IH as (b & -> & Hb); [intros; apply Hfs; by right|]. exists b. split; [done|].
    rewrite exists_cons, Hb. split; [by right|]. intros [Heq|?]; [|done].
    exfalso. apply (Hm s); [by apply extends_subseteq|]. by apply Hiff.
Qed.

Lemma facts_of_goal g f : f ∈ get_predicates (name g) kb → pred_is_ground f = true ∧ name f = name g.
Proof. intros [Hf Hn]%get_predicates_spec. split; [by apply (closed_facts kb Hkb)|done]. Qed.

(** A subproof that belongs to a body goal, and passes verification. *)
Definition subproof_ok (d : nat) s (sp : Proof) (b : Predicate) : Prop :=
  proof_goal sp = apply_subst_predicate b s ∧ verify_proof_recursive e fu kb sp d = Ok true.

Lemma prove_conjunction_exact prove d n s goals :
  (∀ b, b ∈ goals → ∃ res, prove b s = Ok res
     ∧ (is_Some res ↔ derives kb n (apply_subst_predicate b s))
     ∧ ∀ sp, res = Some sp → subproof_ok d s sp b) →
  ∃ res, prove_conjunction prove goals s = Ok res
    ∧ (is_Some res ↔ ∀ b, b ∈ goals → derives kb n (apply_subst_predicate b s))
    ∧ ∀ subs, res = Some subs → Forall2 (subproof_ok d s) subs goals.
Proof.
  induction goals as [|b goals IH]; intros Hgoals; simpl.
  { eexists. split; [done|]. split; [split; [set_solver|by eexists]|]. intros subs [= <-]. constructor. }
  destruct (Hgoals b ltac:(left)) as ([sp|] & -> & Hd & Hsp); simpl.
  - destruct IH as ([subs|] & -> & Hds & Hsubs); [intros; apply Hgoals; by right|..]; simpl;
      (eexists; split; [done|]; split).
    + split; [|by eexists]. intros _ b' [->|Hb']%elem_of_cons; [by apply Hd|]. by apply Hds.
    + intros subs' [= <-]. constructor; auto.
    + split; [by intros []|]. intros Hall. apply Hds. set_solver.
    + done.
  - eexists. split; [done|]. split; [|done]. split; [by intros []|]. intros Hall.
    by destruct (proj2 Hd (Hall b ltac:(left))).
Qed.

Lemma same_shape_rename b s0 : same_shape b (apply_subst_predicate b s0) = true.
Proof. unfold same_shape. simpl. rewrite length_map, bool_decide_eq_true_2, Nat.eqb_refl; done. Qed.

Lemma verify_from_rule g r d s subs : max_depth e <? d = false → r ∈ rules kb → name (head r) = name g →
  Forall2 (subproof_ok (S d) s) subs (body (rename_rule_vars r d)) →
  verify_proof_recursive e fu kb (Proof_from_rule g (rename_rule_vars r d) subs) d = Ok true.
Proof.
  intros Hd Hr Hn Hsubs. unfold Proof_from_rule. cbn [verify_proof_recursive pr_is_fact pr_body]. rewrite Hd.
  assert (rule_exists kb g (mkProofRule (head (rename_rule_vars r d)) (body (rename_rule_vars r d)) false) = true) as ->.
  { unfold rule_exists. apply existsb_exists. exists r. split; [by apply list_elem_of_In, get_rules_spec|].
    unfold rename_rule_vars. simpl. rewrite same_shape_rename, length_map, Nat.eqb_refl. simpl.
    induction (body r) as [|b bs IH]; simpl; [done|]. by rewrite same_shape_rename. }
  rewrite (Forall2_length _ _ _ Hsubs), Nat.eqb_refl. simpl negb. cbv iota.
  induction Hsubs as [|sp b subs bs [Hg Hv] _ IH]; [done|].
  rewrite decide_False by (rewrite Hg; tauto). rewrite Hv. simpl. done.
Qed.

Lemma prove_rules_exact prove d s g rs : max_depth e <? d = false →
  pred_is_ground g = true → ground_range s → fresh s d →
  pred_depth g + levels d * body_depth kb ≤ fu →
  (∀ b s', pred_is_ground (apply_subst_predicate b s') = true → ground_range s' → fresh s' (S d) →
     pred_depth (apply_subst_predicate b s') + levels (S d) * body_depth kb ≤ fu →
     ∃ res, prove b s' = Ok res
       ∧ (is_Some res ↔ derives kb (levels (S d)) (apply_subst_predicate b s'))
       ∧ ∀ sp, res = Some sp → subproof_ok (S d) s' sp b) →
  (∀ r, r ∈ rs → r ∈ rules kb ∧ name (head r) = name g) →
  ∃ res, prove_rules fu prove g rs s d = Ok res
    ∧ (is_Some res ↔ ∃ r, r ∈ rs ∧ ∃ th, strip_pred g = strip_pred (apply_subst_predicate (head r) th)
         ∧ ∀ b, b ∈ body r → derives kb (levels (S d)) (apply_subst_predicate b th))
    ∧ ∀ pf, res = Some pf → proof_goal pf = g ∧ verify_proof_recursive e fu kb pf d = Ok true.
Proof.
  intros Hd Hg Hs Hf Hfu Hprove.
  assert (pred_depth g ≤ fu) as Hgfu by (eapply Nat.le_trans; [apply Nat.le_add_r|exact Hfu]).
  induction rs as [|r rs IH]; intros Hrs; cbn [prove_rules].
  { eexists. split; [done|]. split; [|done]. split; [by intros []|]. set_solver. }
  destruct (Hrs r ltac:(left)) as [Hr Hn].
  destruct IH as (rest & Hrest & Hiff & Hpf); [intros; apply Hrs; by right|].
  destruct (unify_head fu r d g s) as ([s'|] & -> & Hu); [done..| |]; cbn [outcome_bind].
  - destruct Hu as (Hs' & _ & Hf' & Heq).
    destruct (head_instance kb r d s' g Hkb Hr Hg Hs' Heq) as (th & Hth & Hbody & Hb).
    apply Nat.ltb_ge in Hd. assert (levels d = S (levels (S d))) as Hlev by lia.
    destruct (prove_conjunction_exact prove (S d) (levels (S d)) s' (body (rename_rule_vars r d)))
      as (res & Hres & Hd1 & Hsubs).
    { intros ? (b & <- & Hin)%elem_of_list_map. destruct (Hb b Hin) as (Hbeq & Hbg & Hbd & _).
      apply Hprove; [by rewrite Hbeq|done|by apply Hf'|]. rewrite Hbeq. rewrite Hlev in Hfu. simpl in Hfu. lia. }
    assert (is_Some res ↔ ∀ b, b ∈ body r → derives kb (levels (S d)) (apply_subst_predicate b th)) as Hd2.
    { rewrite Hd1. split.
      - intros Hall b Hin. destruct (Hb b Hin) as (<- & _). apply Hall. apply elem_of_list_map. eauto.
      - intros Hall ? (b & <- & Hin)%elem_of_list_map. destruct (Hb b Hin) as (-> & _). auto. }
    rewrite Hres. cbn [outcome_bind]. destruct res as [subs|].
    + eexists. split; [done|]. split.
      * split; [|by eexists]. intros _. apply exists_cons. left. exists th. split; [done|]. by apply Hd2.
      * intros pf [= <-]. split; [done|]. eapply (verify_from_rule g r d s'); [by apply Nat.ltb_ge|done..|].
        by apply Hsubs.
    + exists rest. split; [done|]. split; [|done]. rewrite exists_cons, Hiff. split; [by right|].
      intros [(th' & Heq' & Hall)|?]; [|done]. exfalso.
      assert (is_Some (None : option (list Proof))) as []; [|done]. apply Hd2. intros b Hin.
      destruct (Hb b Hin) as (_ & _ & _ & Huniq). 
      apply (derives_strip _ _ (apply_subst_predicate b th')); [by apply Huniq|by apply Hall].
  - exists rest. split; [done|]. split; [|done]. rewrite exists_cons, Hiff. split; [by right|].
    intros [(th' & Heq' & Hall)|?]; [|done]. by destruct (Hu Hf th').
Qed.

Lemma prove_goal_exact fuel d g0 s : let g := apply_subst_predicate g0 s in
  pred_is_ground g = true → ground_range s → fresh s d → levels d ≤ fuel →
  pred_depth g + levels d * body_depth kb ≤ fu →
  ∃ res, prove_goal e fu kb fuel d g0 s = Ok res
    ∧ (is_Some res ↔ derives kb (levels d) g)
    ∧ ∀ pf, res = Some pf → proof_goal pf = g ∧ verify_proof_recursive e fu kb pf d = Ok true.
Proof.
  revert d g0 s. induction fuel as [|fuel IH]; intros d g0 s g Hg Hs Hf Hfuel Hfu; simpl;
    (destruct (max_depth e <? d) eqn:Hd;
     [eexists; split; [done|]; split; [|done]; split; [by intros []|];
      apply Nat.ltb_lt in Hd; replace (levels d) with 0 by lia; by inversion 1|]).
  { apply Nat.ltb_ge in Hd. lia. }
  fold g. change (name g0) with (name g).
  assert (pred_depth g ≤ fu) as Hgfu by (eapply Nat.le_trans; [apply Nat.le_add_r|exact Hfu]).
  destruct (unifies_ground g (get_predicates (name g) kb) s) as (b & -> & Hb);
    [done..|by apply facts_of_goal|]. simpl.
  assert (levels d = S (levels (S d))) as Hlev by (apply Nat.ltb_ge in Hd; lia).
  destruct b.
  - eexists. split; [done|]. split.
    + split; [|by eexists]. intros _. destruct (proj1 Hb eq_refl) as (f & [Hin _]%get_predicates_spec & Heq).
      rewrite Hlev. by eapply derives_fact.
    + intros pf [= <-]. split; [done|]. unfold Proof_fact. cbn [verify_proof_recursive pr_is_fact]. rewrite Hd.
      destruct (unifies_ground g (get_predicates (name g) kb) ∅) as (b & -> & Hb');
        [done..|by apply facts_of_goal|]. f_equal. by apply Hb', Hb.
  - destruct (prove_rules_exact (prove_goal e fu kb fuel (S d)) d s g (get_rules (name g) kb))
      as (res & Hres & Hiff & Hpf); [done..| |by intros r ?%get_rules_spec|].
    { intros b s' Hbg Hs' Hf' Hbd. apply IH; [done..|lia|done]. }
    exists res. split; [done|]. split; [|done]. rewrite Hiff, Hlev. split.
    + intros (r & [Hr _]%get_rules_spec & th & Heq & Hall). by eapply derives_rule.
    + intros Hder. inversion Hder as [n g1 f Hf1 Heq|n g1 r th Hr Heq Hall]; subst.
      * assert (false = true); [|done]. apply Hb. exists f. split; [|done]. apply get_predicates_spec.
        split; [done|]. by apply (f_equal name) in Heq.
      * exists r. split; [|by exists th]. apply get_rules_spec. split; [done|].
        by apply (f_equal name) in Heq.
Qed.

(** ** Queries on ground goals *)

(** The solutions a call adds, and what they say when there are any. *)
Definition adds (o : outcome Error (list Substitution)) (sols : list Substitution) s (P : Prop) : Prop :=
  ∃ new, o = Ok (sols ++ new) ∧ Forall (λ s', ground_range s' ∧ s ⊆ s') new ∧ (new ≠ [] → P).

Lemma adds_none sols s P : adds (Ok sols) sols s P.
Proof. exists []. by rewrite app_nil_r. Qed.

Lemma adds_app (f : list Substitution → outcome Error (list Substitution)) new sols s (P : Prop) :
  Forall (λ s', ground_range s' ∧ s ⊆ s') new → (new ≠ [] → P) →
  adds (f (sols ++ new)) (sols ++ new) s P → adds (f (sols ++ new)) sols s P.
Proof.
  intros Hnew HP (new' & Heq & Hnew' & HP'). exists (new ++ new'). rewrite app_assoc. split_and!; [done| |].
  - by apply Forall_app.
  - destruct new; [done|]. by intros _; apply HP.
Qed.

Lemma adds_weaken o sols s s' (P Q : Prop) : s ⊆ s' → (P → Q) → adds o sols s' P → adds o sols s Q.
Proof.
  intros Hsub HPQ (new & -> & Hnew & HP). exists new. split_and!; [done| |auto].
  eapply Forall_impl; [done|]. intros x [? ?]. split; [done|by transitivity s'].
Qed.

Lemma solve_facts_ground g fs s sols : pred_is_ground g = true → pred_depth g ≤ fu → ground_range s →
  (∀ f, f ∈ fs → pred_is_ground f = true ∧ name f = name g) →
  ∃ new full, solve_facts e fu g fs s sols = Ok (sols ++ new, full)
    ∧ Forall (λ s', ground_range s' ∧ s ⊆ s') new
    ∧ (new ≠ [] → ∃ f, f ∈ fs ∧ strip_pred g = strip_pred f).
Proof.
  intros Hg Hd Hs. revert sols. induction fs as [|f fs IH]; intros sols Hfs; simpl.
  { exists [], false. by rewrite app_nil_r. }
  destruct (Hfs f ltac:(left)) as [Hf Hn]. rewrite unify_predicates_ground_sym by done.
  destruct (unify_predicates_matches fu f g s) as (res & -> & Hm); [done..|]. simpl.
  destruct res as [s'|].
  - assert (strip_pred g = strip_pred f) as Heq.
    { symmetry. rewrite <- (strip_pred_ground_apply f s') by done. apply strip_pred_matches; [done|]. apply Hm. }
    assert (ground_range s' ∧ s ⊆ s') as Hs' by (split; apply Hm).
    destruct (_ <=? _).
    + exists [s'], true. split; [done|]. split; [by constructor|]. intros _. apply exists_cons. by left.
    + destruct (IH (sols ++ [s'])) as (new & full & -> & Hnew & _); [intros; apply Hfs; by right|].
      exists (s' :: new), full. rewrite <- app_assoc. split; [done|]. split; [by constructor|].
      intros _. apply exists_cons. by left.
  - destruct (IH sols) as (new & full & -> & Hnew & Hne); [intros; apply Hfs; by right|].
    exists new, full. split_and!; [done..|]. intros ?. apply exists_cons. right. auto.
Qed.

Lemma solve_each_ground rest l sols s (P : Prop) :
  Forall (λ s', ground_range s' ∧ s ⊆ s') l →
  (∀ s' sols, ground_range s' → s ⊆ s' → adds (rest s' sols) sols s P) →
  adds (solve_each e rest l sols) sols s P.
Proof.
  intros Hl Hrest. revert sols. induction Hl as [|s' l [Hs' Hsub] _ IH]; intros sols; simpl.
  { apply adds_none. }
  destruct (_ <=? _); [apply adds_none|].
  destruct (Hrest s' sols Hs' Hsub) as (new & -> & Hnew & HP). simpl. by apply (adds_app (solve_each e rest l)).
Qed.

Lemma instance_extends b s s' : ground_range s → s ⊆ s' →
  pred_is_ground (apply_subst_predicate b s) = true → apply_subst_predicate b s' = apply_subst_predicate b s.
Proof.
  intros Hs Hsub Hb. rewrite <- (strip_pred_ground_apply (apply_subst_predicate b s) s') by done.
  unfold apply_subst_predicate. simpl. f_equal. rewrite map_map. apply map_ext_elem. intros t _.
  symmetry. by apply apply_compose.
Qed.

Lemma solve_conjunction_ground solve n goals s sols :
  (∀ b s' sols, b ∈ goals → ground_range s' → s ⊆ s' →
     adds (solve b s' sols) sols s' (derives kb n (apply_subst_predicate b s))) →
  ground_range s → adds (solve_conjunction e solve goals s sols) sols s
    (∀ b, b ∈ goals → derives kb n (apply_subst_predicate b s)).
Proof.
  intros Hsolve Hs.
  cut (∀ s' sols, ground_range s' → s ⊆ s' → adds (solve_conjunction e solve goals s' sols) sols s'
         (∀ b, b ∈ goals → derives kb n (apply_subst_predicate b s))).
  { intros Hcut. by apply Hcut. }
  clear sols. induction goals as [|b goals IH]; intros s' sols Hs' Hsub; simpl.
  { exists [s']. split_and!; [done|by repeat constructor|set_solver]. }
  destruct (Hsolve b s' [] ltac:(left) Hs' Hsub) as (l & -> & Hl & HP). simpl.
  assert (adds (solve_each e (solve_conjunction e solve goals) l sols) sols s'
            (∀ b, b ∈ goals → derives kb n (apply_subst_predicate b s))) as (new & Heq & Hnew & HQ).
  { apply solve_each_ground; [done|]. intros s2 sols2 Hs2 Hsub2.
    eapply adds_weaken; [exact Hsub2| |apply IH]; [done| |done|by transitivity s'].
    intros ?????. apply Hsolve; [by right|done..]. }
  exists new. split_and!; [done..|]. intros Hne b' [->|Hb']%elem_of_cons; [|by apply HQ].
  apply HP. intros ->. simpl in Heq. injection Heq as Heq. apply Hne.
  apply (app_inv_head sols). by rewrite app_nil_r.
Qed.

Lemma solve_rules_ground solve d s g rs sols : max_depth e <? d = false →
  pred_is_ground g = true → ground_range s → pred_depth g + levels d * body_depth kb ≤ fu →
  (∀ b s' sols, pred_is_ground (apply_subst_predicate b s') = true → ground_range s' →
     pred_depth (apply_subst_predicate b s') + levels (S d) * body_depth kb ≤ fu →
     adds (solve b s' sols) sols s' (derives kb (levels (S d)) (apply_subst_predicate b s'))) →
  (∀ r, r ∈ rs → r ∈ rules kb ∧ name (head r) = name g) →
  adds (solve_rules e fu solve g rs s d sols) sols s (derives kb (levels d) g).
Proof.
  intros Hd Hg Hs Hfu Hsolve.
  assert (pred_depth g ≤ fu) as Hgfu by (eapply Nat.le_trans; [apply Nat.le_add_r|exact Hfu]).
  apply Nat.ltb_ge in Hd. assert (levels d = S (levels (S d))) as Hlev by lia.
  revert sols. induction rs as [|r rs IH]; intros sols Hrs; cbn [solve_rules]; [apply adds_none|].
  destruct (Hrs r ltac:(left)) as [Hr Hn].
  assert (∀ sols, adds (solve_rules e fu solve g rs s d sols) sols s (derives kb (levels d) g)) as IH'
    by (intros; apply IH; intros; apply Hrs; by right).
  destruct (unify_head fu r d g s) as ([s'|] & -> & Hu); [done..| |]; cbn [outcome_bind]; [|done].
  destruct Hu as (Hs' & Hsub & _ & Heq).
  destruct (head_instance kb r d s' g Hkb Hr Hg Hs' Heq) as (th & Hth & Hbody & Hb).
  assert (∀ b', b' ∈ body (rename_rule_vars r d) → ∃ b, b ∈ body r ∧ apply_subst_predicate b' s' = apply_subst_predicate b th
     ∧ pred_is_ground (apply_subst_predicate b' s') = true
     ∧ pred_depth (apply_subst_predicate b' s') + levels (S d) * body_depth kb ≤ fu) as Hb'.
  { intros ? (b & <- & Hin)%elem_of_list_map. destruct (Hb b Hin) as (Hbeq & Hbg & Hbd & _). exists b.
    rewrite Hbeq. split_and!; [done..|]. rewrite Hlev in Hfu. simpl in Hfu. lia. }
  destruct (solve_conjunction_ground solve (levels (S d)) (body (rename_rule_vars r d)) s' sols)
    as (new & -> & Hnew & HP); [|done|]; cbn [outcome_bind].
  { intros b' s2 sols2 Hin Hs2 Hsub2. destruct (Hb' b' Hin) as (b & _ & _ & Hbg & Hbd).
    pose proof (instance_extends b' s' s2 Hs' Hsub2 Hbg) as Hext. rewrite <- Hext in Hbg, Hbd.
    rewrite <- Hext. by apply Hsolve. }
  apply (adds_app (solve_rules e fu solve g rs s d)); [| |apply IH'].
  - eapply Forall_impl; [done|]. intros x [? ?]. split; [done|by transitivity s'].
  - intros Hne. rewrite Hlev. apply (derives_rule _ _ _ r th); [done|done|]. intros b Hin.
    destruct (Hb b Hin) as (<- & _). apply HP; [done|]. apply elem_of_list_map. eauto.
Qed.

Lemma solve_goal_ground fuel d g0 s sols : let g := apply_subst_predicate g0 s in
  pred_is_ground g = true → ground_range s → levels d ≤ fuel →
  pred_depth g + levels d * body_depth kb ≤ fu →
  adds (solve_goal e fu kb fuel d g0 s sols) sols s (derives kb (levels d) g).
Proof.
  revert d g0 s sols. induction fuel as [|fuel IH]; intros d g0 s sols g Hg Hs Hfuel Hfu; cbn [solve_goal];
    (destruct (max_depth e <? d) eqn:Hd; [apply adds_none|]);
    (destruct (max_solutions e <=? length sols); [apply adds_none|]).
  { apply Nat.ltb_ge in Hd. lia. }
  cbv zeta. fold g. assert (pred_depth g ≤ fu) as Hgfu by (eapply Nat.le_trans; [apply Nat.le_add_r|exact Hfu]).
  destruct (solve_facts_ground g (get_predicates (name g) kb) s sols) as (new & full & -> & Hnew & Hf);
    [done..|by apply facts_of_goal|]. cbn [outcome_bind].
  assert (levels d = S (levels (S d))) as Hlev by (apply Nat.ltb_ge in Hd; lia).
  assert (new ≠ [] → derives kb (levels d) g) as Hder.
  { intros Hne. destruct (Hf Hne) as (f & [Hin _]%get_predicates_spec & Heq). rewrite Hlev. by eapply derives_fact. }
  destruct full; [by exists new|].
  apply (adds_app (solve_rules e fu (solve_goal e fu kb fuel (S d)) g (get_rules (name g) kb) s d)); [done..|].
  apply solve_rules_ground; [done..| |by intros r ?%get_rules_spec].
  intros b s' sols' Hbg Hs' Hbd. apply IH; [done..|lia|done].
Qed.
End search.

(** ** Queries against facts *)
Lemma apply_empty p : apply_subst_predicate p ∅ = p.
Proof.
  assert (∀ t, apply_subst_term t ∅ = t) as Ht.
  { intros t. induction t as [w|k|f l IH|r] using Term_ind'; try done. simpl. f_equal.
    rewrite <- (map_id l) at 2. rewrite Forall_forall in IH. by apply map_ext_elem. }
  destruct p as [n l]. unfold apply_subst_predicate. simpl. f_equal.
  rewrite <- (map_id l) at 2. apply map_ext_elem. auto.
Qed.

Definition answers g (fs : list Predicate) s : Prop :=
  ground_range s ∧ dom s = pred_vars g ∧ ∃ f, f ∈ fs ∧ strip_pred (apply_subst_predicate g s) = strip_pred f.

Lemma solve_facts_exact e fu g fs sols :
  (∀ f, f ∈ fs → pred_is_ground f = true ∧ pred_depth f ≤ fu ∧ name f = name g) →
  ∃ new full, solve_facts e fu g fs ∅ sols = Ok (sols ++ new, full)
    ∧ (∀ s, s ∈ new → answers g fs s)
    ∧ (length sols < max_solutions e → length (sols ++ new) ≤ max_solutions e)
    ∧ (if full then max_solutions e ≤ length (sols ++ new) else
       ∀ f th, f ∈ fs → strip_pred (apply_subst_predicate g th) = strip_pred f →
         ∃ s, s ∈ new ∧ strip_pred (apply_subst_predicate g s) = strip_pred f).
Proof.
  revert sols. induction fs as [|f fs IH]; intros sols Hfs; simpl.
  { exists [], false. rewrite app_nil_r. split_and!; [done|set_solver|lia|set_solver]. }
  destruct (Hfs f ltac:(left)) as (Hf & Hd & Hn).
  assert (∀ f, f ∈ fs → pred_is_ground f = true ∧ pred_depth f ≤ fu ∧ name f = name g) as Hfs'
    by (intros; apply Hfs; by right).
  assert (∀ s, answers g fs s → answers g (f :: fs) s) as Hmore.
  { intros s (? & ? & f' & ? & ?). split_and!; [done..|]. exists f'. split; [by right|done]. }
  destruct (unify_predicates_matches fu g f ∅) as (res & -> & Hm); [done..|]. simpl.
  destruct res as [s'|].
  - destruct Hm as (Hs' & _ & Hdom & Heq & _). apply strip_pred_matches in Heq; [|done].
    assert (answers g (f :: fs) s') as Hans.
    { split_and!; [done| |exists f; split; [left|done]]. apply set_eq. intros v. split.
      - intros Hv%Hdom. rewrite dom_empty in Hv. unfold pred_vars. set_solver.
      - intros Hv. assert (is_ground (apply_subst_term (as_term g) s') = true) as Hg.
        { rewrite <- as_term_apply. apply as_term_strip in Heq. by rewrite (strip_ground _ _ Heq). }
        pose proof (proj1 (ground_apply_iff _ _) Hg v Hv) as Hgv. simpl in Hgv.
        apply elem_of_dom. destruct (s' !! v); [by eexists|done]. }
    destruct (max_solutions e <=? length (sols ++ [s'])) eqn:Hmax.
    + apply Nat.leb_le in Hmax. exists [s'], true. split_and!; [done| |rewrite length_app; simpl; lia|done].
      intros s ->%list_elem_of_singleton. done.
    + apply Nat.leb_gt in Hmax. destruct (IH (sols ++ [s']) Hfs') as (new & full & -> & Hnew & Hlen & Hfull).
      exists (s' :: new), full. rewrite <- app_assoc in *. split_and!; [done| |auto|].
      * intros s [->|Hs]%elem_of_cons; [done|auto].
      * destruct full; [done|]. intros f' th [->|Hf']%elem_of_cons Hth.
        -- exists s'. split; [left|]. done.
        -- destruct (Hfull f' th Hf' Hth) as (s & ? & ?). exists s. split; [by right|done].
  - destruct (IH sols Hfs') as (new & full & -> & Hnew & Hlen & Hfull). exists new, full.
    split_and!; [done|auto|done|]. destruct full; [done|]. intros f' th [->|Hf']%elem_of_cons Hth; [|eauto].
    exfalso. apply (Hm th); [by intros v t ?%lookup_empty_Some|]. by apply strip_pred_matches in Hth.
Qed.
End facts.

(** ** The engine on closed knowledge bases *)
Section properties.
Context `{CidCrate}.

(** C16. Proof search is exact on ground goals over closed knowledge bases (ground facts, no
    variable in a rule body that its head does not have): with fuel for the levels and for the
    depth of the terms, [prove] ends; it finds a proof exactly when the goal has a derivation
    of height at most [max_depth + 1]; the proof is one of the goal, and [verify] accepts it. *)
Theorem prove_ground_exact e fu kb fuel g
  (Hkb : kb_closed kb) (Hg : pred_is_ground g = true) (Hfuel : max_depth e + 1 ≤ fuel)
  (Hfu : pred_depth g + (max_depth e + 1) * body_depth kb ≤ fu) :
  ∃ res, prove e fu kb fuel g = Ok res
    ∧ (is_Some res ↔ derives kb (max_depth e + 1) g)
    ∧ ∀ pf, res = Some pf → proof_goal pf = g ∧ verify e fu kb pf = Ok true.
Proof.
  pose proof (prove_goal_exact e fu kb Hkb fuel 0 g ∅) as Hex. cbv zeta in Hex.
  rewrite apply_empty, Nat.sub_0_r in Hex. apply Hex; [done| | |done|done].
  - intros v t Hv. by apply lookup_empty_Some in Hv.
  - intros x Hx. rewrite dom_empty in Hx. set_solver.
Qed.

(** Queries are sound on ground goals over closed knowledge bases: [query] ends, and when
    it returns a solution the goal has a derivation of height at most [max_depth + 1]. *)
Theorem query_ground_sound e fu kb fuel g
  (Hkb : kb_closed kb) (Hg : pred_is_ground g = true) (Hfuel : max_depth e + 1 ≤ fuel)
  (Hfu : pred_depth g + (max_depth e + 1) * body_depth kb ≤ fu) :
  ∃ sols, query e fu kb fuel g = Ok sols ∧ (sols ≠ [] → derives kb (max_depth e + 1) g).
Proof.
  pose proof (solve_goal_ground e fu kb Hkb fuel 0 g ∅ []) as Hex. cbv zeta in Hex.
  rewrite apply_empty, Nat.sub_0_r in Hex. destruct Hex as (new & Heq & _ & Hd); [done| |done|done|by exists new].
  intros v t Hv. by apply lookup_empty_Some in Hv.
Qed.

(** Queries over facts alone, for any goal: [query] ends with at most [max_solutions]
    solutions; each binds exactly the variables of the goal, to ground terms, and makes the
    goal a fact (up to the hints of references); and when there are fewer than
    [max_solutions], every fact that is an instance of the goal is answered. *)
Theorem facts_query_exact e fu kb fuel g
  (Hrules : rules kb = [])
  (Hfacts : ∀ f, f ∈ facts kb → pred_is_ground f = true ∧ pred_depth f ≤ fu) (Hfuel : 1 ≤ fuel) :
  ∃ sols, query e fu kb fuel g = Ok sols
    ∧ length sols ≤ max_solutions e
    ∧ (∀ s, s ∈ sols → answers g (facts kb) s)
    ∧ (length sols < max_solutions e → ∀ f th, f ∈ facts kb →
         strip_pred (apply_subst_predicate g th) = strip_pred f →
         ∃ s, s ∈ sols ∧ strip_pred (apply_subst_predicate g s) = strip_pred f).
Proof.
  unfold query. destruct fuel as [|fuel]; [lia|]. cbn [solve_goal]. simpl (max_depth e <? 0).
  destruct (max_solutions e <=? length []) eqn:Hmax.
  { apply Nat.leb_le in Hmax. exists []. split_and!; [done|simpl; lia|set_solver|simpl in *; lia]. }
  apply Nat.leb_gt in Hmax. cbv zeta. rewrite apply_empty.
  destruct (solve_facts_exact e fu g (get_predicates (name g) kb) []) as (new & full & -> & Hnew & Hlen & Hfull).
  { intros f [Hf Hn]%get_predicates_spec. by destruct (Hfacts f Hf). }
  cbn [outcome_bind]. exists new. assert (get_rules (name g) kb = []) as ->
    by (unfold get_rules; by rewrite Hrules).
  split_and!; [by destruct full|auto| |].
  - intros s Hs. destruct (Hnew s Hs) as (? & ? & f & [Hf _]%get_predicates_spec & ?). by split_and!; [..|exists f].
  - intros Hlt f th Hf Hth. destruct full; [simpl in *; lia|]. apply (Hfull f th); [|done].
    apply get_predicates_spec. split; [done|]. by apply (f_equal name) in Hth.
Qed.
End properties.
