(* ===== verification/ReasoningLimits.v ===== *)
(** * Where the inference engine departs from the logic

    Concrete knowledge bases on which queries are incomplete, queries and proofs are unsound,
    unification recurses for ever, and the tracked proof search does; and the witnesses of
    [ReasoningFacts]. *)

From Stdlib Require Import ZArith Lia List.
From stdpp Require Import base tactics numbers list gmap sets strings pretty.
From S2P Require Import Prelude Collections Cid Ir Reasoning UnifyFacts ReasoningFacts.

#[local] Open Scope string_scope.

Section limits.
Context `{CidCrate}.

Definition con (s : string) : Term := Const (CString s).
Definition atom (n : string) (l : list Term) : Predicate := mkPredicate n l.
Definition solutions (o : outcome Error (list Substitution)) : option nat :=
  match o with Ok sols => Some (length sols) | _ => None end.
Definition proved (o : outcome Error (option Proof)) : option bool :=
  match o with Ok (Some _) => Some true | Ok None => Some false | _ => None end.

(** A boolean test for closed knowledge bases. *)
Definition kb_closedb (kb : KnowledgeBase) : bool :=
  forallb pred_is_ground (facts kb)
  && forallb (λ r, forallb (λ b, bool_decide (pred_vars b ⊆ pred_vars (head r))) (body r)) (rules kb).
Lemma kb_closedb_ok kb : kb_closedb kb = true → kb_closed kb.
Proof.
  intros [Hf Hr]%andb_true_iff. rewrite forallb_forall in Hf, Hr. split.
  - intros f Hin. by apply Hf, list_elem_of_In.
  - intros r b Hin Hb. apply list_elem_of_In, Hr in Hin. rewrite forallb_forall in Hin.
    apply list_elem_of_In, Hin in Hb. by apply bool_decide_eq_true in Hb.
Qed.

(** ** Two body goals that use the same rule

    [r(a). r(b). q(X) :- r(X). p(X, Y) :- q(X), q(Y).] *)
Definition siblings_kb : KnowledgeBase :=
  mkKB [atom "r" [con "a"]; atom "r" [con "b"]]
    [mkRule (atom "q" [Var "X"]) [atom "r" [Var "X"]];
     mkRule (atom "p" [Var "X"; Var "Y"]) [atom "q" [Var "X"]; atom "q" [Var "Y"]]].
Definition siblings_goal : Predicate := atom "p" [con "a"; con "b"].

(** Queries are not complete, even for ground goals over a closed knowledge base: the
    variables of a rule are renamed by the depth alone, so two goals of one body that use the
    same rule share its variables.  Here the goal has a derivation, [prove] finds it, and
    [query], with the default limits, returns no solution. *)
Theorem query_incomplete :
  kb_closed siblings_kb ∧ pred_is_ground siblings_goal = true
  ∧ proved (prove InferenceEngine_new 8 siblings_kb 101 siblings_goal) = Some true
  ∧ solutions (query InferenceEngine_new 8 siblings_kb 101 siblings_goal) = Some 0
  ∧ derives siblings_kb 3 siblings_goal.
Proof.
  split_and!; [by apply kb_closedb_ok; vm_compute|done|by vm_compute|by vm_compute|].
  apply (derives_rule _ _ _ (mkRule (atom "p" [Var "X"; Var "Y"]) [atom "q" [Var "X"]; atom "q" [Var "Y"]])
           (<["X" := con "a"]> (<["Y" := con "b"]> ∅))); [right; left|by vm_compute|].
  assert (∀ c g, atom "r" [con c] ∈ facts siblings_kb → strip_pred g = atom "q" [con c] →
            derives siblings_kb 2 g) as Hq.
  { intros c g Hr Hg. apply (derives_rule _ _ _ (mkRule (atom "q" [Var "X"]) [atom "r" [Var "X"]])
      {["X" := con c]}); [left|by rewrite Hg|]. intros b ->%list_elem_of_singleton.
    by apply (derives_fact _ _ _ (atom "r" [con c])). }
  intros b [-> | ->%list_elem_of_singleton]%elem_of_cons.
  - apply (Hq "a"); [left|by vm_compute].
  - apply (Hq "b"); [right; left|by vm_compute].
Qed.

(** ** A chain of variables longer than the engine follows

    [par(a, b). par(b, c). q(d). anc(X, Y) :- par(X, Y). anc(X, Z) :- par(X, Y), anc(Y, Z).
    p(X) :- anc(X, Y), q(Y).] *)
Definition anc_base : Rule := mkRule (atom "anc" [Var "X"; Var "Y"]) [atom "par" [Var "X"; Var "Y"]].
Definition anc_step : Rule :=
  mkRule (atom "anc" [Var "X"; Var "Z"]) [atom "par" [Var "X"; Var "Y"]; atom "anc" [Var "Y"; Var "Z"]].
Definition meets : Rule := mkRule (atom "p" [Var "X"]) [atom "anc" [Var "X"; Var "Y"]; atom "q" [Var "Y"]].
Definition chain_kb : KnowledgeBase :=
  mkKB [atom "par" [con "a"; con "b"]; atom "par" [con "b"; con "c"]; atom "q" [con "d"]]
    [anc_base; anc_step; meets].
Definition chain_goal : Predicate := atom "p" [con "a"].

(** A model of the knowledge base in which the goal is false. *)
Definition chain_model (g : Predicate) : Prop :=
  (name g = "par" → ∃ x y, args g = [x; y] ∧ (y = con "b" ∨ y = con "c"))
  ∧ (name g = "anc" → ∃ x y, args g = [x; y] ∧ (y = con "b" ∨ y = con "c"))
  ∧ (name g = "q" → args g = [con "d"]) ∧ name g ≠ "p".

Lemma chain_model_ok n g : derives chain_kb n g → chain_model (strip_pred g).
Proof.
  induction 1 as [n g f Hf Heq|n g r th Hr Heq Hb IH]; rewrite Heq.
  - unfold chain_kb in Hf. simpl in Hf. rewrite !elem_of_cons, elem_of_nil in Hf.
    destruct Hf as [->|[->|[->|[]]]]; (split_and!; [intros Hn; try discriminate Hn..|done]); simpl; eauto.
  - unfold chain_kb in Hr. simpl in Hr. rewrite !elem_of_cons, elem_of_nil in Hr.
    destruct Hr as [->|[->|[->|[]]]]; simpl in IH.
    + destruct (IH (atom "par" [Var "X"; Var "Y"]) ltac:(left)) as (Hpar & _).
      destruct (Hpar eq_refl) as (x & y & [= Hx Hy] & Hor).
      split_and!; try done. intros _. simpl. by eexists _, _; split; [|subst; apply Hor].
    + destruct (IH (atom "anc" [Var "Y"; Var "Z"]) ltac:(right; left)) as (_ & Hanc & _).
      destruct (Hanc eq_refl) as (x & y & [= Hx Hy] & Hor).
      split_and!; try done. intros _. simpl. by eexists _, _; split; [|subst; apply Hor].
    + destruct (IH (atom "anc" [Var "X"; Var "Y"]) ltac:(left)) as (_ & Hanc & _).
      destruct (IH (atom "q" [Var "Y"]) ltac:(right; left)) as (_ & _ & Hq & _).
      destruct (Hanc eq_refl) as (x & y & [= Hx Hy] & Hor). specialize (Hq eq_refl). simpl in Hq.
      injection Hq as Hq. rewrite Hq in Hy. destruct Hor as [-> | ->]; discriminate Hy.
Qed.

(** Queries are not sound: the engine applies a substitution once, and twice before it
    binds, so that a variable bound through a longer chain of variables is taken as free and
    bound again.  Here [p(a)] has no derivation of any height, the only descendants of [a]
    being [b] and [c] and the only [q] being [d], and the query has a solution. *)
Theorem query_unsound :
  pred_is_ground chain_goal = true
  ∧ solutions (query InferenceEngine_new 8 chain_kb 101 chain_goal) = Some 1
  ∧ ∀ n, ¬ derives chain_kb n chain_goal.
Proof.
  split_and!; [done|by vm_compute|]. intros n Hd%chain_model_ok. by apply Hd.
Qed.

(** ** Goals of a conjunction proved one by one

    [q(a). r(b). p(a) :- q(Y), r(Y).] *)
Definition shared_kb : KnowledgeBase :=
  mkKB [atom "q" [con "a"]; atom "r" [con "b"]]
    [mkRule (atom "p" [con "a"]) [atom "q" [Var "Y"]; atom "r" [Var "Y"]]].
Definition shared_goal : Predicate := atom "p" [con "a"].

Lemma shared_not_derivable n : ¬ derives shared_kb n shared_goal.
Proof.
  assert (∀ n g f c, derives shared_kb n g → strip_pred g = atom f [c] → f ≠ "p" →
            atom f [c] ∈ facts shared_kb) as Hbase.
  { intros m g f c Hd Hg Hf. destruct Hd as [m g f' Hf' Heq|m g r th Hr Heq _]; rewrite Hg in Heq.
    - simpl in *. rewrite !elem_of_cons, elem_of_nil in *. destruct Hf' as [->|[->|[]]]; auto.
    - simpl in Hr. apply list_elem_of_singleton in Hr as ->. by injection Heq as Hp. }
  intros Hd. inversion Hd as [m g f Hf Heq|m g r th Hr Heq Hall]; subst.
  - simpl in Hf. rewrite !elem_of_cons, elem_of_nil in Hf. by destruct Hf as [->|[->|[]]].
  - simpl in Hr. apply list_elem_of_singleton in Hr as ->. simpl in Hall.
    pose proof (Hbase m _ "q" (strip (default (Var "Y") (th !! "Y")))
      (Hall (atom "q" [Var "Y"]) ltac:(left)) eq_refl ltac:(done)) as Hq.
    pose proof (Hbase m _ "r" (strip (default (Var "Y") (th !! "Y")))
      (Hall (atom "r" [Var "Y"]) ltac:(right; left)) eq_refl ltac:(done)) as Hr.
    simpl in Hq, Hr. rewrite !elem_of_cons, elem_of_nil in Hq, Hr.
    destruct Hq as [[= Hq]|[[=]|[]]], Hr as [[=]|[[= Hr]|[]]]. rewrite Hq in Hr. discriminate Hr.
Qed.

(** Proofs are not sound beyond closed knowledge bases: the goals of a rule body are
    proved one by one under the bindings of the head alone, so a variable they share may take
    a different value in each.  Here [p(a)] has no derivation, [prove] returns a proof of it,
    [verify] accepts the proof, and [query] rightly has no solution. *)
Theorem prove_unsound :
  (∀ n, ¬ derives shared_kb n shared_goal)
  ∧ ∃ pf, prove InferenceEngine_new 8 shared_kb 101 shared_goal = Ok (Some pf)
    ∧ verify InferenceEngine_new 8 shared_kb pf = Ok true
    ∧ solutions (query InferenceEngine_new 8 shared_kb 101 shared_goal) = Some 0.
Proof.
  split; [apply shared_not_derivable|]. eexists. split_and!; [vm_compute; reflexivity|by vm_compute|by vm_compute].
Qed.

(** ** Unification that does not end

    [p(?U, f(?Y), ?Y, ?Y)] and [p(f(?X), ?X, ?U, ?X)]. *)
Definition f_of (v : string) : Term := Fun "f" [Var v].
Definition loop_1 : Predicate := atom "p" [Var "U"; f_of "Y"; Var "Y"; Var "Y"].
Definition loop_2 : Predicate := atom "p" [f_of "X"; Var "X"; Var "U"; Var "X"].

Lemma cyclic_substitution fuel x y s :
  s !! x = Some (f_of y) → s !! y = Some (f_of x) → unify fuel (Var x) (Var y) s = OutOfFuel.
Proof.
  revert x y. induction fuel as [|fuel IH]; intros x y Hx Hy; [done|]. simpl. rewrite Hx, Hy. simpl.
  by rewrite IH.
Qed.

(** Unification of two small predicates recurses for ever: the occurs check looks at a
    term to which the substitution was applied once, so bindings can become cyclic ([X] to
    [f(Y)] and [Y] to [f(X)]), and from there [unify] does not return for any fuel: the code
    runs until its stack overflows. *)
Theorem unify_diverges fuel : unify_predicates fuel loop_1 loop_2 ∅ = OutOfFuel.
Proof.
  destruct fuel as [|[|fuel]]; [done..|].
  set (s := <["Y" := f_of "X"]> (<["X" := f_of "Y"]> (<["U" := f_of "X"]> ∅)) : Substitution).
  assert (unify_predicates (S (S fuel)) loop_1 loop_2 ∅
          = unify_args (unify (S (S fuel))) [Var "Y"] [Var "X"] s) as -> by done.
  cbn [unify_args]. by rewrite cyclic_substitution.
Qed.

(** ** The tracked proof search on a rule that calls itself: [p(X) :- p(X).] *)
Definition self_kb : KnowledgeBase := mkKB [] [mkRule (atom "p" [Var "X"]) [atom "p" [Var "X"]]].

Lemma self_renamed d :
  rename_rule_vars (mkRule (atom "p" [Var "X"]) [atom "p" [Var "X"]]) d
  = mkRule (atom "p" [Var (rename_var d "X")]) [atom "p" [Var (rename_var d "X")]].
Proof. done. Qed.

(** [prove_with_decomposition] has no depth limit and no cycle detection: on a rule that
    calls itself it recurses for ever, for every constant in the goal, while [prove] stops at
    its depth limit without a proof. *)
Theorem tracking_diverges fu fuel c ds :
  (prove_with_decomposition (S fu) self_kb fuel (atom "p" [Const c]) ds).1 = OutOfFuel
  ∧ proved (prove InferenceEngine_new 102 self_kb 101 (atom "p" [Const c])) = Some false.
Proof.
  split.
  - assert (∀ d ds, (prove_tracking (S fu) self_kb fuel d (atom "p" [Const c]) ds).1 = OutOfFuel) as Hdiv.
    { clear ds. induction fuel as [|fuel IH]; intros d ds; [done|]. cbn [prove_tracking].
      change (get_predicates _ self_kb) with (@nil Predicate).
      change (get_rules _ self_kb) with [mkRule (atom "p" [Var "X"]) [atom "p" [Var "X"]]].
      cbn [unifies_with_some]. rewrite st_bind_lift. cbn [track_rules]. rewrite self_renamed.
      generalize (rename_var d "X") as x. intros x.
      change (unify_predicates (S fu) (atom "p" [Const c]) (head (mkRule (atom "p" [Var x]) [atom "p" [Var x]])) ∅)
        with (Ok (Some {[x := Const c]}) : outcome Error (option Substitution)).
      rewrite st_bind_lift. cbn [body track_subgoals].
      assert (apply_subst_predicate (atom "p" [Var x]) {[x := Const c]} = atom "p" [Const c]) as ->
        by (unfold apply_subst_predicate; simpl; by rewrite lookup_singleton_eq).
      unfold st_bind. specialize (IH (S d) ds). destruct (prove_tracking _ _ _ _ _ _) as [r ds'].
      simpl in IH. by subst r. }
    unfold prove_with_decomposition, st_bind, modifies. specialize (Hdiv 0 []).
    destruct (prove_tracking _ _ _ _ _ _) as [r ds']. simpl in Hdiv. by subst r.
  - assert (kb_closed self_kb) as Hkb by by apply kb_closedb_ok; vm_compute.
    assert (∀ n, ¬ derives self_kb n (atom "p" [Const c])) as Hno.
    { intros n Hd. remember (atom "p" [Const c]) as g eqn:Hg.
      assert (∃ t, strip_pred g = atom "p" [t]) as Hshape by (subst g; by exists (Const c)). clear Hg.
      induction Hd as [n g f Hf _|n g r th Hr Heq _ IH]; [by apply elem_of_nil in Hf|].
      apply list_elem_of_singleton in Hr as ->. apply (IH (atom "p" [Var "X"]) ltac:(left)).
      unfold strip_pred. simpl. by eexists. }
    destruct (prove_goal_exact InferenceEngine_new 102 self_kb Hkb 101 0 (atom "p" [Const c]) ∅)
      as (res & Hres & Hiff & _); [done|done|set_solver|done|by vm_compute; lia|].
    unfold prove. rewrite Hres. destruct res; [|done]. exfalso.
    apply (Hno (max_depth InferenceEngine_new + 1 - 0)). apply Hiff. by eexists.
Qed.
End limits.

(** ** Witnesses *)
Import Reference.

Lemma siblings_closed : kb_closed siblings_kb.
Proof. apply kb_closedb_ok. vm_compute. reflexivity. Qed.

Lemma prove_ground_exact_witness :
  ∃ res, prove InferenceEngine_new 102 siblings_kb 101 siblings_goal = Ok res
    ∧ (is_Some res ↔ derives siblings_kb 101 siblings_goal)
    ∧ ∀ pf, res = Some pf → proof_goal pf = siblings_goal ∧ verify InferenceEngine_new 102 siblings_kb pf = Ok true.
Proof.
  apply (prove_ground_exact InferenceEngine_new 102 siblings_kb 101 siblings_goal siblings_closed eq_refl).
  - apply Nat.leb_le. vm_compute. reflexivity.
  - apply Nat.leb_le. vm_compute. reflexivity.
Defined.

Lemma query_ground_sound_witness :
  ∃ sols, query InferenceEngine_new 102 siblings_kb 101 (atom "q" [con "b"]) = Ok sols
    ∧ (sols ≠ [] → derives siblings_kb 101 (atom "q" [con "b"])).
Proof.
  apply (query_ground_sound InferenceEngine_new 102 siblings_kb 101 (atom "q" [con "b"]) siblings_closed eq_refl).
  - apply Nat.leb_le. vm_compute. reflexivity.
  - apply Nat.leb_le. vm_compute. reflexivity.
Defined.

Definition ground_kb : KnowledgeBase :=
  mkKB [atom "par" [con "a"; con "b"]; atom "par" [con "b"; con "c"]; atom "par" [con "a"; Fun "f" [con "c"]]] [].

Lemma facts_query_exact_witness :
  ∃ sols, query InferenceEngine_new 2 ground_kb 1 (atom "par" [con "a"; Var "X"]) = Ok sols
    ∧ ∀ s, s ∈ sols → answers (atom "par" [con "a"; Var "X"]) (facts ground_kb) s.
Proof.
  destruct (facts_query_exact InferenceEngine_new 2 ground_kb 1 (atom "par" [con "a"; Var "X"]))
    as (sols & Hsols & _ & Hans & _).
  - reflexivity.
  - intros f Hf. unfold ground_kb in Hf. simpl in Hf. rewrite !elem_of_cons, elem_of_nil in Hf.
    destruct Hf as [->|[->|[->|[]]]]; (split; [reflexivity|apply Nat.leb_le; reflexivity]).
  - apply Nat.leb_le. reflexivity.
  - exists sols. split; [exact Hsols|exact Hans].
Defined.

Example facts_query_count :
  solutions (query InferenceEngine_new 2 ground_kb 1 (atom "par" [con "a"; Var "X"])) = Some 2.
Proof. vm_compute. reflexivity. Qed.
