(* ===== verification/Recursive.v ===== *)
(** * Tabling and stratification: [crates/ipfrs-tensorlogic/src/recursive_reasoning.rs]

    The tabled engine threads its table through the calls; [HashSet]s and the keys of
    [HashMap]s are iterated in the order of [HashIter].  Fuel bounds the depth of recursion, as
    in [Reasoning]. *)

From Stdlib Require Import ZArith Lia List.
From stdpp Require Import base tactics numbers list gmap sets strings pretty.
From S2P Require Import Prelude Collections Cid Ir Reasoning.

Section recursive.
Context `{CidCrate}.

(** ** Tabling *)
Record TableEntry : Type := mkTableEntry {
  te_goal : Predicate;
  te_solutions : list Substitution;
  complete : bool;
  te_depth : nat;
}.
Record TabledInferenceEngine : Type := mkTabled {
  table : gmap string TableEntry;
  t_max_depth : nat;
  t_max_solutions : nat;
}.
Definition TabledInferenceEngine_new : TabledInferenceEngine := mkTabled ∅ 100 1000.
Definition Tabled_with_limits (d s : nat) : TabledInferenceEngine := mkTabled ∅ d s.
Definition clear_table (t : TabledInferenceEngine) : TabledInferenceEngine :=
  mkTabled ∅ (t_max_depth t) (t_max_solutions t).

Record TableStats : Type := mkTableStats { entries : nat; complete_entries : nat; total_solutions : nat }.
Definition table_stats (t : TabledInferenceEngine) : TableStats :=
  mkTableStats (size (table t)) (length (filter (λ e, complete e.2 = true) (map_to_list (table t))))
    (map_fold (λ _ e n, length (te_solutions e) + n) 0 (table t)).

(** [format!("{}({})", goal.name, goal.args.len())]. *)
Definition goal_key (goal : Predicate) : string :=
  name goal +:+ "(" +:+ pretty (length (args goal)) +:+ ")".

Section solve.
Context (max_depth max_solutions : nat) (fuel_unify : nat) (kb : KnowledgeBase).
Notation Table := (gmap string TableEntry).
Notation Tabling := (stateful Table Error).
Notation Solutions := (list Substitution).

Fixpoint tabled_facts (goal : Predicate) (facts : list Predicate) (solutions : Solutions) :
    outcome Error Solutions :=
  match facts with
  | [] => Ok solutions
  | fact :: facts' =>
    let! r := unify_predicates fuel_unify goal fact ∅ in
    match r with
    | Some new_subst =>
      let solutions := solutions ++ [new_subst] in
      if max_solutions <=? length solutions then Ok solutions
      else tabled_facts goal facts' solutions
    | None => tabled_facts goal facts' solutions
    end
  end.

Section recursion.
Context (solve : Predicate → Substitution → Tabling Solutions).

Fixpoint tabled_each (solve_rest : Substitution → Tabling Solutions) (first_solutions : Solutions)
    (all_solutions : Solutions) : Tabling Solutions :=
  match first_solutions with
  | [] => lift (Ok all_solutions)
  | first_subst :: first_solutions' =>
    do! rest_solutions := solve_rest first_subst in
    let all_solutions := all_solutions ++ rest_solutions in
    if max_solutions <=? length all_solutions then lift (Ok all_solutions)
    else tabled_each solve_rest first_solutions' all_solutions
  end.

Fixpoint tabled_conjunction (goals : list Predicate) (subst : Substitution) : Tabling Solutions :=
  match goals with
  | [] => lift (Ok [subst])
  | first :: rest =>
    do! first_solutions := solve first subst in
    tabled_each (tabled_conjunction rest) first_solutions []
  end.

Fixpoint tabled_rules (goal : Predicate) (rules : list Rule) (depth : nat) (solutions : Solutions) :
    Tabling Solutions :=
  match rules with
  | [] => lift (Ok solutions)
  | rule :: rules' =>
    if max_solutions <=? length solutions then lift (Ok solutions) else
    let renamed_rule := rename_rule_vars rule depth in
    do! r := lift (unify_predicates fuel_unify goal (head renamed_rule) ∅) in
    match r with
    | Some new_subst =>
      do! body_solutions := tabled_conjunction (body renamed_rule) new_subst in
      tabled_rules goal rules' depth (solutions ++ body_solutions)
    | None => tabled_rules goal rules' depth solutions
    end
  end.
End recursion.

Fixpoint solve_tabled (fuel : nat) (depth : nat) (goal : Predicate) (subst : Substitution) :
    Tabling Solutions :=
  if max_depth <? depth then lift (Ok []) else
  match fuel with
  | O => lift OutOfFuel
  | S fuel' =>
    let goal := apply_subst_predicate goal subst in
    let key := goal_key goal in
    do! cached := reads (λ t, Ok (t !! key)) in
    match cached with
    | Some entry => if complete entry then lift (Ok (te_solutions entry)) else lift (Ok [])
    | None =>
      do! _ := modifies (<[key := mkTableEntry goal [] false depth]>) in
      do! solutions := lift (tabled_facts goal (get_predicates (name goal) kb) []) in
      do! solutions := tabled_rules (solve_tabled fuel' (S depth)) goal
                         (get_rules (name goal) kb) depth solutions in
      do! _ := modifies (<[key := mkTableEntry goal solutions true depth]>) in
      lift (Ok solutions)
    end
  end.
End solve.

(** A query works on an empty table of its own. *)
Definition tabled_query (t : TabledInferenceEngine) (fuel_unify : nat) (kb : KnowledgeBase)
    (fuel : nat) (goal : Predicate) : outcome Error (list Substitution) :=
  (solve_tabled (t_max_depth t) (t_max_solutions t) fuel_unify kb fuel 0 goal ∅ ∅).1.

(** ** Stratification *)
Section stratification.
Context `{!HashIter string}.
Notation Dependencies := (gmap string (gset string)).

(** The elements of a [HashSet<String>]. *)
Definition set_iter (X : gset string) : list string := (hash_iter (gset_to_gmap tt X)).*1.

Definition add_rule_dependencies (deps : Dependencies) (rule : Rule) : Dependencies :=
  let key := name (head rule) in
  <[key := default ∅ (deps !! key) ∪ list_to_set (map name (body rule))]> deps.

Definition build_dependency_graph (kb : KnowledgeBase) (deps : Dependencies) : Dependencies :=
  fold_left (λ deps predicate_name, fold_left add_rule_dependencies (get_rules predicate_name kb) deps)
    (set_iter (list_to_set (map (λ r, name (head r)) (rules kb)))) deps.

Section graph.
Context (deps : Dependencies).
Notation Marks := (gset string * gset string)%type.

(** The loops of the search: stop at the first node from which it finds a cycle. *)
Fixpoint any_cycle (search : string → stateful Marks Error bool) (nodes : list string) :
    stateful Marks Error bool :=
  match nodes with
  | [] => lift (Ok false)
  | node :: nodes' =>
    do! found := search node in
    if found : bool then lift (Ok true) else any_cycle search nodes'
  end.

(** The state is [(visited, rec_stack)]. *)
Fixpoint has_cycle_util (fuel : nat) (node : string) : stateful Marks Error bool :=
  match fuel with
  | O => lift OutOfFuel
  | S fuel' =>
    do! (visited, rec_stack) := reads Ok in
    if decide (node ∈ rec_stack) then lift (Ok true) else
    if decide (node ∈ visited) then lift (Ok false) else
    do! _ := modifies (λ _, ({[node]} ∪ visited, {[node]} ∪ rec_stack)) in
    do! found :=
      match deps !! node with
      | Some neighbors => any_cycle (has_cycle_util fuel') (set_iter neighbors)
      | None => lift (Ok false)
      end in
    if found : bool then lift (Ok true) else
    do! _ := modifies (λ '(visited, rec_stack), (visited, rec_stack ∖ {[node]})) in
    lift (Ok false)
  end.

Definition has_cycles (fuel : nat) : outcome Error bool :=
  (any_cycle (has_cycle_util fuel) (hash_iter deps).*1 (∅, ∅)).1.

Definition has_remaining_deps (remaining : gset string) (pred : string) : bool :=
  match deps !! pred with
  | Some ds => bool_decide (ds ∩ remaining ≠ ∅)
  | None => false
  end.

(** [while !remaining.is_empty()]. *)
Fixpoint strata_loop (fuel : nat) (remaining : gset string) (strata : list (list string)) :
    outcome Error (list (list string)) :=
  if decide (remaining = ∅) then Ok strata else
  match fuel with
  | O => OutOfFuel
  | S fuel' =>
    let current_stratum := filter (λ pred, has_remaining_deps remaining pred = false) (set_iter remaining) in
    match current_stratum with
    | [] => Ok strata
    | _ => strata_loop fuel' (remaining ∖ list_to_set current_stratum) (strata ++ [current_stratum])
    end
  end.

Definition compute_strata (fuel : nat) : outcome Error (list (list string)) :=
  strata_loop fuel (dom deps) [].
End graph.

Inductive StratificationResult : Type :=
| Stratifiable (strata : list (list string))
| NonStratifiable.

(** The analyzer keeps its graph between calls. *)
Definition analyze (fuel : nat) (kb : KnowledgeBase) : stateful Dependencies Error StratificationResult :=
  do! _ := modifies (build_dependency_graph kb) in
  do! cyclic := reads (λ deps, has_cycles deps fuel) in
  if cyclic : bool then lift (Ok NonStratifiable) else
  do! strata := reads (λ deps, compute_strata deps fuel) in
  lift (Ok (Stratifiable strata)).
End stratification.
End recursive.
