(* ===== verification/RecursiveFacts.v ===== *)
(** * Stratification is exact; tabling forgets the arguments of goals *)

From Stdlib Require Import ZArith Lia List Relations.
From stdpp Require Import base tactics numbers list gmap sets strings pretty relations fin_sets.
From S2P Require Import Prelude Collections Cid Ir Reasoning UnifyFacts ReasoningFacts ReasoningLimits Recursive.

Section graph.
Context `{!HashIter string}.
Implicit Types (V R X : gset string).

Lemma elem_of_set_iter X v : v ∈ set_iter X ↔ v ∈ X.
Proof.
  unfold set_iter. rewrite list_elem_of_fmap. split.
  - intros ([w []] & -> & Hw%elem_of_hash_iter). by apply lookup_gset_to_gmap_Some in Hw as [? _].
  - intros Hv. exists (v, tt). split; [done|]. apply elem_of_hash_iter. by apply lookup_gset_to_gmap_Some.
Qed.

Lemma NoDup_set_iter X : NoDup (set_iter X).
Proof. apply NoDup_hash_iter_keys. Qed.

Context (deps : gmap string (gset string)).

Definition edge (a b : string) : Prop := ∃ ds, deps !! a = Some ds ∧ b ∈ ds.
Definition cyclic : Prop := ∃ a, tc edge a a.

Definition nodes : gset string := dom deps ∪ ⋃ (map_to_list deps).*2.

Lemma edge_nodes a b : edge a b → a ∈ nodes ∧ b ∈ nodes.
Proof.
  intros (ds & Ha & Hb). unfold nodes. split; apply elem_of_union.
  - left. by apply elem_of_dom_2 in Ha.
  - right. apply elem_of_union_list. exists ds. split; [|done]. apply list_elem_of_fmap.
    exists (a, ds). split; [done|]. by apply elem_of_map_to_list.
Qed.

Lemma tc_first a c : tc edge a c → ∃ b, edge a b ∧ (b = c ∨ tc edge b c).
Proof. destruct 1; eauto. Qed.

(** ** The depth-first search

    [V] are the visited nodes and [R] the nodes of the current path; the others visited are
    finished: they lead only to finished nodes, and none of them is on a cycle. *)
Definition search_inv V R : Prop :=
  R ⊆ V ∧ V ⊆ nodes
  ∧ (∀ a b, a ∈ V ∖ R → edge a b → b ∈ V ∖ R)
  ∧ (∀ a, a ∈ V ∖ R → ¬ tc edge a a).

Definition search_ok (o : outcome Error bool * (gset string * gset string)) V R (P : gset string → Prop) : Prop :=
  ∃ res V' R', o = (Ok res, (V', R'))
    ∧ (if res : bool then cyclic else R' = R ∧ V ⊆ V' ∧ search_inv V' R ∧ P (V' ∖ R)).

Lemma finished_closed V R a b : search_inv V R → a ∈ V ∖ R → tc edge a b → b ∈ V ∖ R.
Proof. intros (_ & _ & Hcl & _) Ha Hab. induction Hab; eauto. Qed.

Lemma any_cycle_ok search l V R :
  (∀ a V', a ∈ l → V ⊆ V' → search_inv V' R → search_ok (search a (V', R)) V' R (λ F, a ∈ F)) →
  search_inv V R → search_ok (any_cycle search l (V, R)) V R (λ F, ∀ a, a ∈ l → a ∈ F).
Proof.
  revert V. induction l as [|a l IH]; intros V Hs Hinv; simpl.
  { exists false, V, R. split; [done|]. split_and!; [done..|set_solver]. }
  unfold st_bind. destruct (Hs a V ltac:(left) ltac:(done) Hinv) as ([] & V1 & R1 & -> & Hres).
  { by exists true, V1, R1. }
  destruct Hres as (-> & Hsub & Hinv1 & Ha).
  destruct (IH V1) as ([] & V2 & R2 & -> & Hres2); 
    [intros b V' ???; apply Hs; [by right|by transitivity V1|done]|done|..].
  { by exists true, V2, R2. }
  destruct Hres2 as (-> & Hsub2 & Hinv2 & Hall). exists false, V2, R.
  split; [done|]. split_and!; [done|by transitivity V1|done|].
  intros b [->|Hb]%elem_of_cons; [set_solver|auto].
Qed.

Lemma has_cycle_util_ok fuel a V R :
  search_inv V R → a ∈ nodes → (∀ r, r ∈ R → tc edge r a) → size (nodes ∖ V) < fuel →
  search_ok (has_cycle_util deps fuel a (V, R)) V R (λ F, a ∈ F).
Proof.
  revert a V R. induction fuel as [|fuel IH]; intros a V R Hinv Ha Hpath Hf; [lia|].
  cbn [has_cycle_util]. unfold st_bind, reads, modifies, lift.
  destruct (decide (a ∈ R)) as [HR|HR].
  { exists true, V, R. split; [done|]. exists a. by apply Hpath. }
  destruct (decide (a ∈ V)) as [HV|HV].
  { exists false, V, R. split; [done|]. split_and!; [done..|set_solver]. }
  set (V1 := {[a]} ∪ V). set (R1 := {[a]} ∪ R).
  assert (V1 ∖ R1 = V ∖ R) as Hfin.
  { pose proof Hinv as (HRV & _). apply set_eq. intros x. unfold V1, R1. destruct (decide (x = a)); set_solver. }
  assert (search_inv V1 R1) as Hinv1.
  { destruct Hinv as (HRV & HVn & Hcl & Hac). unfold search_inv. rewrite Hfin.
    split_and!; [unfold V1, R1; set_solver|unfold V1; set_solver|done|done]. }
  assert (size (nodes ∖ V1) < fuel) as Hf1.
  { assert (nodes ∖ V1 ⊂ nodes ∖ V) as Hss%subset_size; [|lia]. unfold V1. set_solver. }
  assert (search_ok (match deps !! a with
      | Some neighbors => any_cycle (has_cycle_util deps fuel) (set_iter neighbors)
      | None => λ s, (Ok false, s) end (V1, R1)) V1 R1 (λ F, ∀ b, edge a b → b ∈ F))
    as ([] & V2 & R2 & -> & Hres).
  { destruct (deps !! a) as [ds|] eqn:Hds.
    - destruct (any_cycle_ok (has_cycle_util deps fuel) (set_iter ds) V1 R1) as (res & V2 & R2 & Heq & Hres).
      + intros b V' Hb%elem_of_set_iter HV' Hinv'. assert (edge a b) as Hab by by exists ds.
        apply IH; [done|by apply (edge_nodes a b)| |].
        * intros r [->%elem_of_singleton|Hr]%elem_of_union; [by apply tc_once|].
          eapply tc_r; [by apply Hpath|done].
        * eapply Nat.le_lt_trans; [|exact Hf1]. apply subseteq_size. set_solver.
      + done.
      + exists res, V2, R2. split; [done|]. destruct res; [done|]. destruct Hres as (? & ? & ? & Hall).
        split_and!; [done..|]. intros b (ds' & Hds' & Hb). apply Hall, elem_of_set_iter. congruence.
    - exists false, V1, R1. split; [done|]. split_and!; [done..|].
      intros b (ds' & Hds' & Hb). congruence. }
  { by exists true, V2, R2. }
  destruct Hres as (-> & Hsub & Hinv2 & Hnb). exists false, V2, (R1 ∖ {[a]}). split; [done|].
  assert (R1 ∖ {[a]} = R) as HR2 by (unfold R1; set_solver).
  assert (a ∈ V2) as HaV by (unfold V1 in Hsub; set_solver).
  assert (∀ x, x ∈ V2 ∖ R ↔ x = a ∨ x ∈ V2 ∖ R1) as Hfin2.
  { intros x. unfold R1. destruct (decide (x = a)) as [->|]; set_solver. }
  split_and!; [done|unfold V1 in Hsub; set_solver| |by apply Hfin2; left].
  pose proof Hinv2 as (HRV2 & HVn2 & Hcl2 & Hac2). split_and!; [set_solver|done| |].
  - intros x y [->|Hx]%Hfin2 Hxy; apply Hfin2; right; eauto.
  - intros x [->|Hx]%Hfin2; [|by apply Hac2]. intros Htc.
    assert (a ∈ V2 ∖ R1) as HaR; [|apply elem_of_difference in HaR as [_ []]; by apply elem_of_union_l, elem_of_singleton].
    destruct (tc_first _ _ Htc) as (y & Hay & [->|Hya]); [by apply Hnb|].
    eapply finished_closed; [done|by apply Hnb|done].
Qed.

Lemma has_cycles_exact fuel : size nodes < fuel →
  ∃ b, has_cycles deps fuel = Ok b ∧ (b = true ↔ cyclic).
Proof.
  intros Hf. unfold has_cycles. assert (search_inv ∅ ∅) as Hinv by (split_and!; set_solver).
  destruct (any_cycle_ok (has_cycle_util deps fuel) (hash_iter deps).*1 ∅ ∅) as (res & V' & R' & -> & Hres).
  - intros a V Ha HV Hinv'. apply has_cycle_util_ok; [done| |set_solver|].
    + apply list_elem_of_fmap in Ha as ([a' ds] & -> & Ha%elem_of_hash_iter). unfold nodes.
      apply elem_of_union_l. by apply elem_of_dom_2 in Ha.
    + eapply Nat.le_lt_trans; [|exact Hf]. apply subseteq_size. set_solver.
  - done.
  - exists res. split; [done|]. destruct res; [done|]. destruct Hres as (_ & _ & Hinv' & Hall).
    split; [done|]. intros (a & Ha). exfalso. destruct Hinv' as (_ & _ & _ & Hac).
    apply (Hac a); [|done]. apply Hall. apply list_elem_of_fmap.
    assert (∃ ds, deps !! a = Some ds) as [ds Hds] by (inversion Ha as [? ? (ds & ? & _)|? ? ? (ds & ? & _)]; eauto).
    exists (a, ds). split; [done|]. by apply elem_of_hash_iter.
Qed.

(** ** Strata *)

(** A set of nodes of an acyclic graph that is not empty has one without an edge into it. *)
Lemma minimal_node X : ¬ cyclic → X ≠ ∅ → ∃ a, a ∈ X ∧ ∀ b, edge a b → b ∉ X.
Proof.
  intros Hac [a Ha]%set_choose_L. assert (sn edge a) as Hsn.
  { apply tc_finite_sn; [intros x Hx; apply Hac; by exists x|]. exists (elements nodes). intros b Hb.
    apply elem_of_elements. inversion Hb as [? ? Hab|? y ? Hay Hyb]; subst; [by apply (edge_nodes a b)|].
    clear -Hyb. induction Hyb as [x y Hxy|x y z Hxy _ IH]; [by apply (edge_nodes x y)|done]. }
  revert Ha. induction Hsn as [a _ IH]. intros Ha.
  destruct (deps !! a) as [ds|] eqn:Hds.
  - destruct (set_choose_or_empty (ds ∩ X)) as [[b Hb]|Hno].
    + apply (IH b); [by exists ds; set_solver|set_solver].
    + exists a. split; [done|]. intros b (ds' & Hds' & Hb). rewrite Hds in Hds'. injection Hds' as <-. set_solver.
  - exists a. split; [done|]. intros b (ds' & Hds' & _). congruence.
Qed.

Lemma has_remaining_false X a : has_remaining_deps deps X a = false ↔ ∀ b, edge a b → b ∉ X.
Proof.
  unfold has_remaining_deps. split.
  - intros Hno b (ds & Hds & Hb) HX. rewrite Hds in Hno. apply bool_decide_eq_false in Hno. set_solver.
  - intros Hno. destruct (deps !! a) as [ds|] eqn:Hds; [|done]. apply bool_decide_eq_false. intros Hne.
    apply Hne. apply set_eq. intros b. split; [|set_solver]. intros [Hb HX]%elem_of_intersection.
    destruct (Hno b); [by exists ds|done].
Qed.

(** Layers of a set of nodes: each node of the set is in one of them, once, and its edges into
    the set go to earlier layers. *)
Fixpoint layered X (strata : list (list string)) : Prop :=
  match strata with
  | [] => X = ∅
  | l :: strata' =>
    l ≠ [] ∧ NoDup l ∧ (∀ a, a ∈ l → a ∈ X ∧ ∀ b, edge a b → b ∉ X)
    ∧ layered (X ∖ list_to_set l) strata'
  end.

Lemma strata_loop_layered fuel X strata : ¬ cyclic → size X ≤ fuel →
  ∃ new, strata_loop deps fuel X strata = Ok (strata ++ new) ∧ layered X new.
Proof.
  intros Hac. revert X strata. induction fuel as [|fuel IH]; intros X strata Hf; simpl;
    (destruct (decide (X = ∅)) as [->|Hne]; [exists []; by rewrite app_nil_r|]).
  { exfalso. apply Hne, leibniz_equiv, size_empty_iff. lia. }
  destruct (minimal_node X Hac Hne) as (a & Ha & Hmin).
  set (l := filter (λ pred, has_remaining_deps deps X pred = false) (set_iter X)).
  assert (∀ b, b ∈ l ↔ b ∈ X ∧ ∀ c, edge b c → c ∉ X) as Hl.
  { intros b. unfold l. rewrite list_elem_of_filter, has_remaining_false, elem_of_set_iter. tauto. }
  assert (a ∈ l) as Hal by by apply Hl.
  destruct (IH (X ∖ list_to_set l) (strata ++ [l])) as (new & Hrun & Hnew).
  { assert (X ∖ list_to_set l ⊂ X) as Hss%subset_size; [|lia]. apply Hl in Hal as Hax. set_solver. }
  exists (l :: new). split.
  - rewrite <- app_assoc in Hrun. clearbody l. destruct l; [by apply elem_of_nil in Hal|exact Hrun].
  - split_and!; [by intros Heq; rewrite Heq in Hal; apply elem_of_nil in Hal|by apply NoDup_filter, NoDup_set_iter|apply Hl|done].
Qed.
End graph.

(** ** The graph of a knowledge base *)
Section analysis.
Context `{CidCrate} `{!HashIter string}.

(** [p] depends on [q] when some rule for [p] has a body goal [q]. *)
Definition depends (kb : KnowledgeBase) (p q : string) : Prop :=
  ∃ r, r ∈ rules kb ∧ name (head r) = p ∧ ∃ b, b ∈ body r ∧ name b = q.

Lemma add_rules_edges rs deps p q :
  edge (fold_left add_rule_dependencies rs deps) p q ↔
  edge deps p q ∨ ∃ r, r ∈ rs ∧ name (head r) = p ∧ ∃ b, b ∈ body r ∧ name b = q.
Proof.
  revert deps. induction rs as [|r rs IH]; intros deps; simpl; [set_solver|].
  rewrite IH, exists_cons. assert (edge (add_rule_dependencies deps r) p q ↔
    edge deps p q ∨ (name (head r) = p ∧ ∃ b, b ∈ body r ∧ name b = q)) as ->; [|tauto].
  unfold edge, add_rule_dependencies. split.
  - intros (ds & Hds & Hq). apply lookup_insert_Some in Hds as [[<- <-]|[Hne Hds]]; [|by left; exists ds].
    apply elem_of_union in Hq as [Hq|Hq%elem_of_list_to_set].
    + left. destruct (deps !! _) as [ds|]; [by exists ds|set_solver].
    + right. split; [done|]. apply elem_of_list_map in Hq as (b & ? & ?). by exists b.
  - intros [(ds & Hds & Hq)|[<- (b & Hb & <-)]].
    + destruct (decide (name (head r) = p)) as [<-|Hne].
      * eexists. rewrite lookup_insert_eq, Hds. split; [done|]. simpl. set_solver.
      * exists ds. by rewrite lookup_insert_ne.
    + eexists. rewrite lookup_insert_eq. split; [done|]. apply elem_of_union_r, elem_of_list_to_set, elem_of_list_map.
      by exists b.
Qed.

Lemma add_rules_dom rs deps p :
  p ∈ dom (fold_left add_rule_dependencies rs deps) ↔ p ∈ dom deps ∨ ∃ r, r ∈ rs ∧ name (head r) = p.
Proof.
  revert deps. induction rs as [|r rs IH]; intros deps; simpl; [set_solver|].
  rewrite IH, exists_cons. unfold add_rule_dependencies. rewrite dom_insert. set_solver.
Qed.

(** All rules are added, grouped by the name of their heads. *)
Lemma build_groups kb ns deps :
  fold_left (λ deps n, fold_left add_rule_dependencies (get_rules n kb) deps) ns deps
  = fold_left add_rule_dependencies (concat (map (λ n, get_rules n kb) ns)) deps.
Proof.
  revert deps. induction ns as [|n ns IH]; intros deps; simpl; [done|]. by rewrite IH, fold_left_app.
Qed.

Lemma build_rules kb r :
  r ∈ concat (map (λ n, get_rules n kb) (set_iter (list_to_set (map (λ r, name (head r)) (rules kb)))))
  ↔ r ∈ rules kb.
Proof.
  rewrite list_elem_of_In, in_concat. setoid_rewrite <- list_elem_of_In. split.
  - intros (l & (n & <- & Hn)%elem_of_list_map & Hr). by apply get_rules_spec in Hr as [? _].
  - intros Hr. exists (get_rules (name (head r)) kb). split; [|by apply get_rules_spec].
    apply elem_of_list_map. exists (name (head r)). split; [done|]. apply elem_of_set_iter, elem_of_list_to_set, elem_of_list_map.
    by exists r.
Qed.

Lemma build_edges kb p q : edge (build_dependency_graph kb ∅) p q ↔ depends kb p q.
Proof.
  unfold build_dependency_graph. rewrite build_groups, add_rules_edges. setoid_rewrite build_rules.
  split; [|by right]. intros [(ds & Hds & _)|?]; [|done]. by apply lookup_empty_Some in Hds.
Qed.

Lemma build_dom kb p : p ∈ dom (build_dependency_graph kb ∅) ↔ ∃ r, r ∈ rules kb ∧ name (head r) = p.
Proof.
  unfold build_dependency_graph. rewrite build_groups, add_rules_dom. setoid_rewrite build_rules.
  rewrite dom_empty. split; [|by right]. intros [?|?]; [set_solver|done].
Qed.

(** The names in the rules bound the fuel. *)
Definition rule_names (r : Rule) : list string := name (head r) :: map name (body r).
Definition kb_names (kb : KnowledgeBase) : gset string := list_to_set (flat_map rule_names (rules kb)).

Lemma nodes_names kb : nodes (build_dependency_graph kb ∅) ⊆ kb_names kb.
Proof.
  assert (∀ r v, r ∈ rules kb → v ∈ rule_names r → v ∈ kb_names kb) as Hin.
  { intros r v Hr Hv. apply elem_of_list_to_set, list_elem_of_In, in_flat_map. exists r.
    by rewrite <- !list_elem_of_In. }
  intros v [(r & Hr & <-)%build_dom|Hv]%elem_of_union; [apply (Hin r); [done|left]|].
  apply elem_of_union_list in Hv as (ds & Hds & Hv).
  apply list_elem_of_fmap in Hds as ([p ds'] & -> & Hp%elem_of_map_to_list).
  assert (edge (build_dependency_graph kb ∅) p v) as (r & Hr & _ & b & Hb & <-)%build_edges by by exists ds'.
  apply (Hin r); [done|]. right. apply elem_of_list_map. by exists b.
Qed.

Lemma tc_weaken {A} (R S : A → A → Prop) a b : (∀ x y, R x y → S x y) → tc R a b → tc S a b.
Proof. intros HRS. induction 1; [apply tc_once|eapply tc_l]; eauto. Qed.

Lemma layered_spec deps X strata : layered deps X strata →
  NoDup (concat strata) ∧ (∀ p, p ∈ concat strata ↔ p ∈ X)
  ∧ ∀ i l p q, strata !! i = Some l → p ∈ l → edge deps p q → q ∈ X →
      ∃ j l', j < i ∧ strata !! j = Some l' ∧ q ∈ l'.
Proof.
  revert X. induction strata as [|l strata IH]; intros X; simpl.
  { intros ->. split_and!; [constructor|set_solver|done]. }
  intros (_ & Hnd & Hl & Hrest). apply IH in Hrest as (Hnd' & Hall & Horder). split_and!.
  - apply NoDup_app. split_and!; [done| |done]. intros p Hp Hp'. apply Hall in Hp'. set_solver.
  - intros p. rewrite elem_of_app, Hall. destruct (decide (p ∈ l)) as [Hp|Hp].
    + split; [intros _; by apply Hl|by left].
    + set_solver.
  - intros [|i] l' p q; simpl.
    + intros [= <-] Hp Hpq Hq. by destruct (proj2 (Hl p Hp) q Hpq).
    + intros Hi Hp Hpq Hq. destruct (decide (q ∈ l)) as [Hql|Hql].
      * exists 0, l. split; [lia|done].
      * destruct (Horder i l' p q Hi Hp Hpq) as (j & l'' & Hj & Hl'' & Hq'); [set_solver|].
        exists (S j), l''. split; [lia|done].
Qed.

(** C26. Stratification is exact: with fuel for the predicate names of the rules, [analyze] on
    a fresh analyzer ends; it answers [NonStratifiable] exactly when some predicate depends on
    itself through the rules; otherwise the strata hold each defined predicate exactly once,
    and what a predicate depends on, when it is defined, is in an earlier stratum. *)
Theorem analyze_exact kb fuel (Hfuel : size (kb_names kb) < fuel) :
  ∃ res deps, analyze fuel kb ∅ = (Ok res, deps) ∧
    match res with
    | NonStratifiable => ∃ p, tc (depends kb) p p
    | Stratifiable strata =>
      (∀ p, ¬ tc (depends kb) p p)
      ∧ NoDup (concat strata)
      ∧ (∀ p, p ∈ concat strata ↔ ∃ r, r ∈ rules kb ∧ name (head r) = p)
      ∧ ∀ i l p q, strata !! i = Some l → p ∈ l → depends kb p q → q ∈ concat strata →
          ∃ j l', j < i ∧ strata !! j = Some l' ∧ q ∈ l'
    end.
Proof.
  unfold analyze, st_bind, modifies, reads, lift. set (deps := build_dependency_graph kb ∅).
  assert (size (nodes deps) < fuel) as Hn.
  { eapply Nat.le_lt_trans; [|exact Hfuel]. apply subseteq_size, nodes_names. }
  destruct (has_cycles_exact deps fuel Hn) as (b & -> & Hb).
  assert (∀ p, tc (edge deps) p p ↔ tc (depends kb) p p) as Htc
    by (intros p; split; apply tc_weaken; intros x y; by apply build_edges).
  destruct b.
  - eexists _, _. split; [done|]. destruct (proj1 Hb eq_refl) as [p Hp]. exists p. by apply Htc.
  - assert (¬ cyclic deps) as Hac by (intros Hc%Hb; done).
    destruct (strata_loop_layered deps fuel (dom deps) [] Hac) as (strata & Hs & Hlay).
    { assert (dom deps ⊆ nodes deps) as Hsub%subseteq_size by (unfold nodes; set_solver). lia. }
    unfold compute_strata. rewrite Hs. eexists _, _. split; [done|]. simpl.
    apply layered_spec in Hlay as (Hnd & Hall & Horder). split_and!.
    + intros p Hp. apply Hac. exists p. by apply Htc.
    + done.
    + intros p. rewrite Hall. apply build_dom.
    + intros i l p q Hi Hp Hpq Hq. apply (Horder i l p q); [done..|by apply build_edges|by apply Hall].
Qed.
End analysis.

(** ** Tabling *)
Section tabling.
Context `{CidCrate}.

Lemma tabled_facts_agree e fu goal fs sols : max_solutions e <=? length sols = false →
  outcome_bind (λ r, Ok r.1) (solve_facts e fu goal fs ∅ sols)
  = tabled_facts (max_solutions e) fu goal fs sols.
Proof.
  revert sols. induction fs as [|f fs IH]; intros sols Hmax; simpl; [done|].
  destruct (unify_predicates fu goal f ∅) as [[s'|]| | |]; simpl; try done; [|by apply IH].
  destruct (max_solutions e <=? length (sols ++ [s'])) eqn:Hm; [done|by apply IH].
Qed.

(** On facts alone tabling changes nothing: for every goal, every fuel and every limit of
    solutions but zero, the tabled query and the plain query have the same outcome. *)
Theorem tabled_agrees_on_facts kb d m fu fuel goal (Hrules : rules kb = []) (Hm : 1 ≤ m) :
  tabled_query (Tabled_with_limits d m) fu kb (S fuel) goal
  = query (with_limits d m) fu kb (S fuel) goal.
Proof.
  unfold tabled_query, query. cbn [solve_tabled solve_goal t_max_depth Tabled_with_limits with_limits max_depth].
  destruct (Nat.ltb_spec d 0); [lia|]. cbn [max_solutions t_max_solutions].
  assert (max_solutions (with_limits d m) <=? length (@nil Substitution) = false) as Hmax
    by (apply Nat.leb_gt; simpl; lia).
  rewrite Hmax.
  cbv zeta. assert (∀ n, get_rules n kb = []) as Hr by (intros n; unfold get_rules; by rewrite Hrules).
  rewrite Hr. unfold st_bind, reads, modifies, lift. rewrite lookup_empty. cbv beta.
  rewrite <- (tabled_facts_agree (with_limits d m)) by done. cbn [tabled_rules solve_rules].
  by destruct (solve_facts _ _ _ _ _ _) as [[sols []]| | |].
Qed.
End tabling.

#[local] Open Scope string_scope.
Section unsound.
Context `{CidCrate}.

(** [par(a, b). gp(X, Z) :- par(X, Y), par(Y, Z).] *)
Definition gp_rule : Rule :=
  mkRule (atom "gp" [Var "X"; Var "Z"]) [atom "par" [Var "X"; Var "Y"]; atom "par" [Var "Y"; Var "Z"]].
Definition gp_kb : KnowledgeBase := mkKB [atom "par" [con "a"; con "b"]] [gp_rule].
Definition gp_goal : Predicate := atom "gp" [con "a"; Var "Z"].

Lemma gp_par n g t u : derives gp_kb n g → strip_pred g = atom "par" [t; u] → t = con "a" ∧ u = con "b".
Proof.
  intros Hd Hg. destruct Hd as [n g f Hf Heq|n g r th Hr Heq _]; rewrite Hg in Heq.
  - apply list_elem_of_singleton in Hf as ->. by injection Heq as -> ->.
  - by apply list_elem_of_singleton in Hr as ->.
Qed.

Lemma gp_not_derivable n th : ¬ derives gp_kb n (apply_subst_predicate gp_goal th).
Proof.
  intros Hd. inversion Hd as [m g f Hf Heq|m g r th' Hr Heq Hall]; subst.
  - by apply list_elem_of_singleton in Hf as ->.
  - apply list_elem_of_singleton in Hr as ->. simpl in Hall.
    destruct (gp_par m _ _ _ (Hall (atom "par" [Var "X"; Var "Y"]) ltac:(left)) eq_refl) as [_ Hy].
    destruct (gp_par m _ _ _ (Hall (atom "par" [Var "Y"; Var "Z"]) ltac:(right; left)) eq_refl) as [Hy' _].
    rewrite Hy in Hy'. discriminate Hy'.
Qed.

(** Tabling is unsound with rules: the table key of a goal is its name and arity, so the
    answers of one goal are returned for every other goal of the predicate, and they do not
    contain the bindings made before.  Here [a] has no grandchild: no instance of the goal has
    a derivation; the plain query has no solution and the tabled one has one, which does not
    bind the variable of the goal. *)
Theorem tabled_unsound :
  (∀ n th, ¬ derives gp_kb n (apply_subst_predicate gp_goal th))
  ∧ solutions (query InferenceEngine_new 8 gp_kb 101 gp_goal) = Some 0
  ∧ ∃ s, tabled_query TabledInferenceEngine_new 8 gp_kb 101 gp_goal = Ok [s] ∧ s !! "Z"%string = None.
Proof.
  split; [exact gp_not_derivable|]. split; [by vm_compute|].
  eexists. split; [vm_compute; reflexivity|by vm_compute].
Qed.
End unsound.

(** ** Witnesses *)
Import Reference.

#[local] Instance string_iter : HashIter string := default_iter string.

(** [p] calls [q], and [q] calls itself; and the knowledge base of grandparents. *)
Definition recursive_kb : KnowledgeBase :=
  mkKB [] [mkRule (atom "p" []) [atom "q" []]; mkRule (atom "q" []) [atom "q" []]].

Lemma analyze_exact_witness :
  ∃ res deps, analyze 4 gp_kb ∅ = (Ok res, deps) ∧
    match res with
    | NonStratifiable => ∃ p, tc (depends gp_kb) p p
    | Stratifiable strata => ∀ p, ¬ tc (depends gp_kb) p p
    end.
Proof.
  destruct (analyze_exact gp_kb 4) as (res & deps & Hrun & Hres).
  - apply Nat.leb_le. vm_compute. reflexivity.
  - exists res, deps. split; [exact Hrun|]. destruct res; [apply Hres|exact Hres].
Defined.

Example analyze_runs :
  (analyze 4 gp_kb ∅).1 = Ok (Stratifiable [["gp"%string]]) ∧ (analyze 4 recursive_kb ∅).1 = Ok NonStratifiable.
Proof. split; vm_compute; reflexivity. Qed.

Lemma tabled_agrees_on_facts_witness :
  tabled_query (Tabled_with_limits 5 3) 4 ground_kb 1 (atom "par" [con "a"; Var "X"])
  = query (with_limits 5 3) 4 ground_kb 1 (atom "par" [con "a"; Var "X"]).
Proof.
  apply (tabled_agrees_on_facts ground_kb 5 3 4 0 (atom "par" [con "a"; Var "X"]) eq_refl).
  apply Nat.leb_le. reflexivity.
Defined.
