(* ===== verification/Block.v ===== *)
(** * Blocks: [crates/ipfrs-core/src/block.rs]

    A block is a CID and the bytes it names.  [Block_new] and the builder compute the CID,
    [from_parts] trusts its caller, and [verify] recomputes it.  The checks over lists of blocks
    are those of [utils.rs]. *)

From Stdlib Require Import ZArith Lia List.
From stdpp Require Import base tactics numbers list gmap sets strings.
From S2P Require Import Prelude Cid.

#[local] Open Scope Z_scope.

Definition MAX_BLOCK_SIZE : Z := 2 * 1024 * 1024.
Definition MIN_BLOCK_SIZE : Z := 1.

(** [std::ops::Bound] of a [usize]. *)
Inductive Bound : Type := Included (n : Z) | Excluded (n : Z) | Unbounded.

(** [&data[start..end]], and [Bytes::slice]: out of range panics. *)
Definition slice_range {E A} (l : list A) (start stop : Z) : outcome E (list A) :=
  if (start <=? stop) && (stop <=? Z.of_nat (length l))
  then Ok (take (Z.to_nat (stop - start)) (drop (Z.to_nat start) l))
  else Panic.

Section block.
Context `{CidCrate}.

Record Block : Type := mkBlock { b_cid : Cid; b_data : bytes }.

Definition from_parts (c : Cid) (b : bytes) : Block := mkBlock c b.
Definition into_parts (b : Block) : Cid * bytes := (b_cid b, b_data b).
Definition block_size (b : Block) : Z := Z.of_nat (length (b_data b)).
Definition block_len (b : Block) : nat := length (b_data b).
Definition block_is_empty (b : Block) : bool := bool_decide (b_data b = []).

Definition validate_size (size : nat) : outcome Error unit :=
  if Z.of_nat size <? MIN_BLOCK_SIZE then Err InvalidData
  else if MAX_BLOCK_SIZE <? Z.of_nat size then Err InvalidData
  else Ok tt.

Definition Block_new (b : bytes) : outcome Error Block :=
  let! _ := validate_size (length b) in
  let! c := CidBuilder.build CidBuilder.new b in
  Ok (mkBlock c b).
Definition from_vec (b : bytes) : outcome Error Block := Block_new b.
Definition from_slice (b : bytes) : outcome Error Block := Block_new b.

Definition verify (b : Block) : outcome Error bool :=
  let! computed_cid := CidBuilder.build CidBuilder.new (b_data b) in
  Ok (bool_decide (computed_cid = b_cid b)).

Definition block_slice (b : Block) (start_bound end_bound : Bound) : outcome Error bytes :=
  let start :=
    match start_bound with Included n => n | Excluded n => as_u64 (n + 1) | Unbounded => 0 end in
  let stop :=
    match end_bound with
    | Included n => as_u64 (n + 1) | Excluded n => n | Unbounded => block_size b
    end in
  slice_range (b_data b) start stop.

(** ** [BlockMetadata] *)
Record BlockMetadata : Type := mkBlockMetadata { md_cid : Cid; md_size : Z; md_links : nat }.
Definition BlockMetadata_new (c : Cid) (n : Z) : BlockMetadata := mkBlockMetadata c n 0.
Definition with_links (m : BlockMetadata) (n : nat) : BlockMetadata :=
  mkBlockMetadata (md_cid m) (md_size m) n.
Definition metadata (b : Block) : BlockMetadata := BlockMetadata_new (b_cid b) (block_size b).

(** ** [BlockBuilder], which is its [CidBuilder] *)
Definition BlockBuilder_build (builder : CidBuilder) (b : bytes) : outcome Error Block :=
  let! _ := validate_size (length b) in
  let! c := CidBuilder.build builder b in
  Ok (mkBlock c b).

(** ** [utils.rs]: checks over lists of blocks *)
Definition blocks_equal (a b : Block) : bool := bool_decide (b_cid a = b_cid b).
Definition verify_block (b : Block) : outcome Error bool := verify b.

(** The valid and the invalid blocks, counted. *)
Fixpoint validate_blocks_loop (blocks : list Block) (valid invalid : nat) : outcome Error (nat * nat) :=
  match blocks with
  | [] => Ok (valid, invalid)
  | b :: blocks' =>
    let! ok := verify b in
    if ok : bool then validate_blocks_loop blocks' (S valid) invalid
    else validate_blocks_loop blocks' valid (S invalid)
  end.
Definition validate_blocks (blocks : list Block) : outcome Error (nat * nat) :=
  validate_blocks_loop blocks 0 0.

Fixpoint find_invalid_loop (idx : nat) (blocks : list Block) (invalid : list nat) : outcome Error (list nat) :=
  match blocks with
  | [] => Ok invalid
  | b :: blocks' =>
    let! ok := verify b in
    find_invalid_loop (S idx) blocks' (if ok : bool then invalid else invalid ++ [idx])
  end.
Definition find_invalid_blocks (blocks : list Block) : outcome Error (list nat) :=
  find_invalid_loop 0 blocks [].

Definition count_unique_blocks (blocks : list Block) : nat :=
  size (list_to_set (C := gset Cid) (map b_cid blocks)).
Definition total_blocks_size (blocks : list Block) : Z := foldr (λ b n, as_u64 (block_size b + n)) 0 blocks.
End block.
