(* ===== verification/BlockFacts.v ===== *)
(** * Properties of blocks *)

From Stdlib Require Import ZArith Lia List.
From stdpp Require Import base tactics numbers list gmap sets strings.
From S2P Require Import Prelude Cid CidFacts Block.

#[local] Open Scope Z_scope.

(** ** Slices *)
Section slices.
Context {E A : Type}.
Implicit Types l : list A.

Lemma slice_range_ok l start stop :
  0 <= start <= stop → stop <= Z.of_nat (length l) →
  ∃ c, slice_range (E := E) l start stop = Ok c ∧ Z.of_nat (length c) = stop - start
       ∧ drop (Z.to_nat start) l = c ++ drop (Z.to_nat stop) l.
Proof.
  intros H1 H2. unfold slice_range.
  rewrite (proj2 (Z.leb_le start stop)), (proj2 (Z.leb_le stop _)) by lia. simpl.
  eexists. split; [done|]. split; [rewrite length_take, length_drop; lia|].
  replace (Z.to_nat stop) with (Z.to_nat start + Z.to_nat (stop - start))%nat by lia.
  by rewrite <- drop_drop, take_drop.
Qed.

Lemma slice_range_full l : slice_range (E := E) l 0 (Z.of_nat (length l)) = Ok l.
Proof.
  unfold slice_range. rewrite (proj2 (Z.leb_le _ _)), Z.leb_refl by lia. simpl.
  by rewrite Z.sub_0_r, Nat2Z.id, drop_0, firstn_all.
Qed.
End slices.

(** A law of the [cid] crate the size of a node depends on: a version 1 CID of a short codec
    over SHA2-256 takes 36 bytes. *)
Class Sha256CidSize `{CidCrate} : Prop :=
  sha256_cid_size : ∀ k d, 0 <= k < 128 →
    Z.of_nat (length (Cid_to_bytes (Cid_new_v1 k (digest Sha2_256 d)))) <= 36.

#[export] Instance reference_cid_size : Sha256CidSize (H := Reference.crate).
Proof.
  intros k d _. vm_compute. done.
Qed.

Section facts.
Context `{CidCrate} `{!CidLaws}.

(** The CIDs of raw blocks and of DAG-CBOR blocks. *)
Definition raw_cid (b : bytes) : Cid := Cid_new_v1 0x55 (digest Sha2_256 b).
Definition cbor_cid (b : bytes) : Cid := Cid_new_v1 0x71 (digest Sha2_256 b).

Definition block_sized (b : bytes) : Prop := MIN_BLOCK_SIZE <= Z.of_nat (length b) <= MAX_BLOCK_SIZE.
#[export] Instance block_sized_dec b : Decision (block_sized b).
Proof. unfold block_sized. apply _. Defined.

Lemma validate_size_spec b :
  validate_size (length b) = if decide (block_sized b) then Ok tt else Err InvalidData.
Proof.
  unfold validate_size, block_sized, MIN_BLOCK_SIZE, MAX_BLOCK_SIZE.
  destruct (Z.ltb_spec (Z.of_nat (length b)) 1); [rewrite decide_False by lia; done|].
  destruct (Z.ltb_spec (2 * 1024 * 1024) (Z.of_nat (length b)));
    [rewrite decide_False by lia | rewrite decide_True by lia]; done.
Qed.

Lemma builder_build_v1 builder b :
  version builder = V1 →
  BlockBuilder_build builder b
  = if decide (block_sized b)
    then Ok (mkBlock (Cid_new_v1 (codec builder)
                        (digest (HashAlgorithm.code (hash_algorithm builder)) b)) b)
    else Err InvalidData.
Proof.
  intros Hv. unfold BlockBuilder_build. rewrite validate_size_spec, build_v1 by done.
  by case_decide.
Qed.

Lemma Block_new_eq b :
  Block_new b = if decide (block_sized b) then Ok (mkBlock (raw_cid b) b) else Err InvalidData.
Proof. by apply (builder_build_v1 CidBuilder.new). Qed.

Lemma verify_eq b : verify b = Ok (bool_decide (raw_cid (b_data b) = b_cid b)).
Proof. unfold verify. by rewrite build_v1. Qed.

Lemma raw_cid_codec b : Cid_codec (raw_cid b) = 0x55.
Proof. by apply Cid_v1_codec. Qed.
Lemma cbor_cid_codec b : Cid_codec (cbor_cid b) = 0x71.
Proof. by apply Cid_v1_codec. Qed.
Lemma raw_cid_ne_cbor b b' : raw_cid b ≠ cbor_cid b'.
Proof. intros E. pose proof (raw_cid_codec b). rewrite E, cbor_cid_codec in *. done. Qed.

(** [Block::verify] on every block: it never fails, and accepts exactly the pairs whose CID
    is the raw SHA2-256 version 1 CID of the data.  So every block [Block::new] builds has a
    legal size and verifies, and every block built with another codec, such as the DAG-CBOR nodes
    of a chunked file, is reported as corrupt by [verify], though its CID is right. *)
Theorem verify_exact (builder : CidBuilder) (b : bytes) (c : Cid) (blk : Block) :
  verify (from_parts c b) = Ok (bool_decide (c = raw_cid b)) ∧
  (Block_new b = Ok blk → block_sized b ∧ b_data blk = b ∧ verify blk = Ok true) ∧
  (version builder = V1 → 0 <= codec builder < 2 ^ 64 → codec builder ≠ RAW →
   BlockBuilder_build builder b = Ok blk → verify blk = Ok false).
Proof.
  split_and!.
  - rewrite verify_eq. simpl. f_equal. by apply bool_decide_ext.
  - rewrite Block_new_eq. case_decide; [|done]. intros [= <-]. split_and!; [done..|].
    rewrite verify_eq. by rewrite bool_decide_eq_true_2.
  - intros Hv Hc Hr. rewrite builder_build_v1 by done. case_decide; [|done]. intros [= <-].
    rewrite verify_eq. simpl. rewrite bool_decide_eq_false_2; [done|]. intros E.
    pose proof (raw_cid_codec b). rewrite E, Cid_v1_codec in * by done. done.
Qed.

(** [validate_blocks] and [find_invalid_blocks] agree: the indices found are those of the
    blocks counted as invalid. *)
Lemma validate_blocks_loop_spec blocks v i :
  validate_blocks_loop blocks v i =
  Ok (v + length (filter (λ b, raw_cid (b_data b) = b_cid b) blocks),
      i + length (filter (λ b, raw_cid (b_data b) ≠ b_cid b) blocks))%nat.
Proof.
  revert v i. induction blocks as [|b blocks IH]; intros v i; simpl; [f_equal; f_equal; lia|].
  rewrite verify_eq. simpl. rewrite !filter_cons.
  case_bool_decide; rewrite IH; case_decide; try done; case_decide; try done; simpl;
    f_equal; f_equal; lia.
Qed.
Lemma find_invalid_loop_length blocks idx inv :
  ∃ l, find_invalid_loop idx blocks inv = Ok l ∧
    length l = (length inv + length (filter (λ b, raw_cid (b_data b) ≠ b_cid b) blocks))%nat.
Proof.
  revert idx inv. induction blocks as [|b blocks IH]; intros idx inv; simpl; [eexists; split; [done|lia]|].
  rewrite verify_eq. simpl. rewrite filter_cons.
  case_bool_decide; [rewrite decide_False by tauto; apply IH|rewrite decide_True by done].
  destruct (IH (S idx) (inv ++ [idx])) as (l & -> & Hl). eexists. split; [done|].
  rewrite Hl, length_app. simpl. lia.
Qed.
Lemma invalid_blocks_agree blocks :
  ∃ v l, validate_blocks blocks = Ok (v, length l) ∧ find_invalid_blocks blocks = Ok l
    ∧ (v + length l = length blocks)%nat.
Proof.
  unfold validate_blocks, find_invalid_blocks. rewrite validate_blocks_loop_spec.
  destruct (find_invalid_loop_length blocks 0 []) as (l & -> & Hl). simpl in Hl.
  eexists _, l. split_and!; [by rewrite Hl | done |]. rewrite Hl. simpl. clear.
  induction blocks; [done|]. rewrite !filter_cons. repeat case_decide; simpl; try done; lia.
Qed.
End facts.

(** ** Witness: a DAG-CBOR block built by the reference crate *)
Import Reference.
Lemma verify_exact_witness :
  let builder := CidBuilder.with_codec CidBuilder.new DAG_CBOR in
  verify (mkBlock (cbor_cid [1; 2]) [1; 2]) = Ok false.
Proof.
  apply (verify_exact (CidBuilder.with_codec CidBuilder.new DAG_CBOR) [1; 2] (cbor_cid [1; 2])
           (mkBlock (cbor_cid [1; 2]) [1; 2])).
  - reflexivity.
  - split; [intros [=] | reflexivity].
  - intros [=].
  - reflexivity.
Defined.
