(* ===== verification/Dag.v ===== *)
(** * Structure of IPLD values: [crates/ipfrs-core/src/dag.rs]

    Functions that walk one value: traversals, links, paths to a link, statistics per level, filters
    and merges.  None follows a link, so a value is a finite tree.  The ratios are
    [f64]s. *)

From Stdlib Require Import ZArith Lia List.
From stdpp Require Import base tactics numbers list gmap sets strings pretty.
From S2P Require Import Prelude Collections F64 Cid Ipld.

(** [Iterator::filter_map], [Iterator::max] with the default of an empty iterator. *)
Definition filter_map {A B} (f : A → option B) : list A → list B :=
  fix go l :=
    match l with
    | [] => []
    | x :: l' => match f x with Some y => y :: go l' | None => go l' end
    end.
Definition max_or (d : nat) (l : list nat) : nat :=
  match l with [] => d | x :: l' => foldr max x l' end.

Section dag.
Context `{CidCrate}.

(** ** Links *)
Fixpoint extract_links_recursive (i : ipld) (links : list Cid) (recursive : bool) : list Cid :=
  match i with
  | ILink cid => links ++ [cid]
  | IList items =>
    fold_left (λ links item,
      if recursive then extract_links_recursive item links true
      else match item with ILink cid => links ++ [cid] | _ => links end) items links
  | IMap m =>
    fold_left (λ links '(_, value),
      if recursive then extract_links_recursive value links true
      else match value with ILink cid => links ++ [cid] | _ => links end) m links
  | _ => links
  end.
Definition extract_links (i : ipld) : list Cid := extract_links_recursive i [] false.
Definition collect_all_links (i : ipld) : list Cid := extract_links_recursive i [] true.
Definition collect_unique_links (i : ipld) : gset Cid := list_to_set (collect_all_links i).

(** ** Statistics *)
Record DagStats : Type := mkDagStats {
  unique_cids : nat;
  total_links : nat;
  max_depth : nat;
  leaf_count : nat;
  intermediate_count : nat;
}.

Fixpoint calculate_depth (i : ipld) (current_depth : nat) : nat :=
  match i with
  | IList items => max_or current_depth (map (λ item, calculate_depth item (current_depth + 1)) items)
  | IMap m => max_or current_depth (map (λ '(_, value), calculate_depth value (current_depth + 1)) m)
  | _ => current_depth
  end.

Definition add_pair (p q : nat * nat) : nat * nat := (p.1 + q.1, p.2 + q.2).
Fixpoint count_node_types (i : ipld) : nat * nat :=
  match i with
  | IList [] | IMap [] => (1, 0)
  | IList items => fold_left (λ p item, add_pair p (count_node_types item)) items (0, 1)
  | IMap m => fold_left (λ p '(_, value), add_pair p (count_node_types value)) m (0, 1)
  | _ => (1, 0)
  end.

Definition DagStats_from_ipld (i : ipld) : DagStats :=
  let all_links := collect_all_links i in
  let '(leaves, intermediates) := count_node_types i in
  mkDagStats (size (list_to_set all_links : gset Cid)) (length all_links) (calculate_depth i 0) leaves intermediates.

Definition deduplication_ratio (s : DagStats) : f64 :=
  if total_links s =? 0 then f64_zero
  else f64_ratio (total_links s - unique_cids s) (total_links s).

(** ** Cycles *)
Section cycles.
(** [Cid::to_string]. *)
Context (to_string : Cid → string).

(** One field of the answer per [HashSet] that the code threads through. *)
Fixpoint has_cycle_dfs (i : ipld) (st : gset string * gset string) : bool * (gset string * gset string) :=
  match i with
  | ILink cid =>
    let '(visited, stack) := st in
    let cid_str := to_string cid in
    if decide (cid_str ∈ stack) then (false, st)
    else if decide (cid_str ∈ visited) then (true, st)
    else (true, ({[cid_str]} ∪ visited, ({[cid_str]} ∪ stack) ∖ {[cid_str]}))
  | IList items =>
    (fix go l st :=
       match l with
       | [] => (true, st)
       | item :: l' => let '(ok, st) := has_cycle_dfs item st in if ok : bool then go l' st else (false, st)
       end) items st
  | IMap m =>
    (fix go l st :=
       match l with
       | [] => (true, st)
       | (_, value) :: l' => let '(ok, st) := has_cycle_dfs value st in if ok : bool then go l' st else (false, st)
       end) m st
  | _ => (true, st)
  end.
Definition is_dag (i : ipld) : bool := (has_cycle_dfs i (∅, ∅)).1.
End cycles.

(** ** Paths *)

(** [format!("[{}]", i)]. *)
Definition index_name (i : nat) : string := "[" +:+ pretty i +:+ "]".

Fixpoint find_paths_recursive (i : ipld) (target : Cid) (current_path : list string)
    (paths : list (list string)) : list (list string) :=
  match i with
  | ILink cid => if decide (cid = target) then paths ++ [current_path] else paths
  | IList items =>
    (fix go n l paths :=
       match l with
       | [] => paths
       | item :: l' => go (S n) l' (find_paths_recursive item target (current_path ++ [index_name n]) paths)
       end) 0 items paths
  | IMap m =>
    fold_left (λ paths '(key, value), find_paths_recursive value target (current_path ++ [key]) paths) m paths
  | _ => paths
  end.
Definition find_paths_to_cid (i : ipld) (target : Cid) : list (list string) := find_paths_recursive i target [] [].

(** ** Traversals *)
Fixpoint bfs_loop (fuel : nat) (queue result : list ipld) : outcome Error (list ipld) :=
  match queue with
  | [] => Ok result
  | node :: queue =>
    match fuel with
    | O => OutOfFuel
    | S fuel =>
      bfs_loop fuel
        (queue ++ match node with IList items => items | IMap m => m.*2 | _ => [] end)
        (result ++ [node])
    end
  end.

Fixpoint count_nodes (i : ipld) : nat :=
  match i with
  | IList items => 1 + list_sum (map count_nodes items)
  | IMap m => 1 + list_sum (map (λ '(_, value), count_nodes value) m)
  | _ => 1
  end.

(** The queue never holds a node twice, so it is popped [count_nodes] times. *)
Definition traverse_bfs (root : ipld) : outcome Error (list ipld) := bfs_loop (count_nodes root) [root] [].

Fixpoint traverse_dfs_recursive (node : ipld) (result : list ipld) : list ipld :=
  match node with
  | IList items => fold_left (λ result item, traverse_dfs_recursive item result) items (result ++ [node])
  | IMap m => fold_left (λ result '(_, value), traverse_dfs_recursive value result) m (result ++ [node])
  | _ => result ++ [node]
  end.
Definition traverse_dfs (root : ipld) : list ipld := traverse_dfs_recursive root [].

Fixpoint subgraph_size (i : ipld) : nat :=
  match i with
  | IList items => fold_left (λ count item, count + subgraph_size item) items 1
  | IMap m => fold_left (λ count '(_, value), count + subgraph_size value) m 1
  | _ => 1
  end.

Fixpoint dag_depth (i : ipld) : nat :=
  match i with
  | IList [] | IMap [] => 1
  | IList items => 1 + max_or 0 (map dag_depth items)
  | IMap m => 1 + max_or 0 (map (λ '(_, value), dag_depth value) m)
  | _ => 1
  end.

Fixpoint find_leaves (i : ipld) : list ipld :=
  match i with
  | IList [] | IMap [] => [i]
  | IList items => flat_map find_leaves items
  | IMap m => flat_map (λ '(_, value), find_leaves value) m
  | _ => [i]
  end.

(** ** Levels *)
Record DagMetrics : Type := mkDagMetrics {
  avg_branching_factor : f64;
  max_branching_factor : nat;
  width : nat;
  total_nodes : nat;
  avg_leaf_depth : f64;
}.

(** The four accumulators of [calculate_metrics]. *)
Record metrics_state : Type := mkMetrics {
  levels : gmap nat nat;
  branching_factors : list nat;
  leaf_depths : list nat;
  m_nodes : nat;
}.
Definition enter (depth : nat) (s : metrics_state) : metrics_state :=
  mkMetrics (<[depth := default 0 (levels s !! depth) + 1]> (levels s)) (branching_factors s) (leaf_depths s) (m_nodes s + 1).
Definition push_leaf (depth : nat) (s : metrics_state) : metrics_state :=
  mkMetrics (levels s) (branching_factors s) (leaf_depths s ++ [depth]) (m_nodes s).
Definition push_branching (n : nat) (s : metrics_state) : metrics_state :=
  mkMetrics (levels s) (branching_factors s ++ [n]) (leaf_depths s) (m_nodes s).

Fixpoint calculate_metrics (i : ipld) (depth : nat) (s : metrics_state) : metrics_state :=
  let s := enter depth s in
  match i with
  | IList [] | IMap [] => push_leaf depth s
  | IList items =>
    fold_left (λ s item, calculate_metrics item (depth + 1) s) items (push_branching (length items) s)
  | IMap m =>
    fold_left (λ s '(_, value), calculate_metrics value (depth + 1) s) m (push_branching (length m) s)
  | _ => push_leaf depth s
  end.

Definition average (l : list nat) : f64 :=
  match l with [] => f64_zero | _ => f64_ratio (list_sum l) (length l) end.
Definition DagMetrics_from_ipld (i : ipld) : DagMetrics :=
  let s := calculate_metrics i 0 (mkMetrics ∅ [] [] 0) in
  mkDagMetrics (average (branching_factors s)) (max_or 0 (branching_factors s))
    (max_or 0 ((map_to_list (levels s)).*2)) (m_nodes s) (average (leaf_depths s)).

(** [while v.len() <= depth { v.push(0) }], and [v[depth] += n]. *)
Definition pad (depth : nat) (v : list nat) : list nat := v ++ replicate (depth + 1 - length v) 0.
Definition bump (depth n : nat) (v : list nat) : list nat := alter (λ x, x + n) depth v.

Fixpoint calculate_fanout (i : ipld) (depth : nat) (fanout : list nat) : list nat :=
  let fanout := pad depth fanout in
  match i with
  | IList items => fold_left (λ f item, calculate_fanout item (depth + 1) f) items (bump depth (length items) fanout)
  | IMap m => fold_left (λ f '(_, value), calculate_fanout value (depth + 1) f) m (bump depth (length m) fanout)
  | _ => fanout
  end.
Definition dag_fanout_by_level (i : ipld) : list nat := calculate_fanout i 0 [].

Fixpoint count_links_recursive (i : ipld) (depth : nat) (counts : list nat) : list nat :=
  let counts := pad depth counts in
  match i with
  | ILink _ => bump depth 1 counts
  | IList items => fold_left (λ c item, count_links_recursive item (depth + 1) c) items counts
  | IMap m => fold_left (λ c '(_, value), count_links_recursive value (depth + 1) c) m counts
  | _ => counts
  end.
Definition count_links_by_depth (i : ipld) : list nat := count_links_recursive i 0 [].

(** [visited.insert(cid)] tells whether the link is new. *)
Definition topological_sort (i : ipld) : list Cid :=
  (fold_left (λ '(result, visited) cid,
     if decide (cid ∈ visited) then (result, visited) else (result ++ [cid], {[cid]} ∪ visited))
     (collect_all_links i) ([], ∅ : gset Cid)).1.

(** ** Transformations *)
Fixpoint filter_dag (predicate : ipld → bool) (i : ipld) : option ipld :=
  if negb (predicate i) then None
  else match i with
       | IList items => Some (IList (filter_map (filter_dag predicate) items))
       | IMap m =>
         Some (IMap (bt_of_list (filter_map (λ '(k, v),
           match filter_dag predicate v with Some w => Some (k, w) | None => None end) m)))
       | other => Some other
       end.

Fixpoint map_dag (transform : ipld → ipld) (i : ipld) : ipld :=
  transform
    match i with
    | IList items => IList (map (map_dag transform) items)
    | IMap m => IMap (bt_of_list (map (λ '(k, v), (k, map_dag transform v)) m))
    | other => other
    end.

Fixpoint prune_dag (should_keep : ipld → bool) (i : ipld) : option ipld :=
  if negb (should_keep i) then None
  else match i with
       | IList items =>
         match filter_map (prune_dag should_keep) items, items with
         | [], _ :: _ => None
         | pruned, _ => Some (IList pruned)
         end
       | IMap m =>
         match bt_of_list (filter_map (λ '(k, v),
           match prune_dag should_keep v with Some w => Some (k, w) | None => None end) m), m with
         | [], _ :: _ => None
         | pruned, _ => Some (IMap pruned)
         end
       | other => Some other
       end.

Definition merge_dags (dag1 dag2 : ipld) : ipld :=
  match dag1, dag2 with
  | IMap map1, IMap map2 => IMap (fold_left (λ merged '(k, v), bt_insert k v merged) map2 map1)
  | IList list1, IList list2 => IList (list1 ++ list2)
  | _, dag2 => dag2
  end.

Definition dag_diff (dag1 dag2 : ipld) : gset Cid * gset Cid * gset Cid :=
  let links1 := collect_unique_links dag1 in
  let links2 := collect_unique_links dag2 in
  (links1 ∖ links2, links2 ∖ links1, links1 ∩ links2).
Definition find_common_links (dag1 dag2 : ipld) : gset Cid :=
  collect_unique_links dag1 ∩ collect_unique_links dag2.
End dag.
