(* ===== verification/DagFacts.v ===== *)
(** * Structure of IPLD values: one tree, many walks

    The functions of [Dag] agree: breadth-first order is the levels one after another, a permutation
    of depth-first order, and the statistics per level are sums over the levels; the paths found to
    a link are exactly the paths that lead to it. *)

From Stdlib Require Import ZArith Lia List.
From stdpp Require Import base tactics numbers list gmap sets strings pretty.
From S2P Require Import Prelude Collections Cid Ipld IpldFacts Dag.

Section walks.
Context `{CidCrate}.
Implicit Types (i j : ipld) (l q r : list ipld).

Definition children i : list ipld :=
  match i with IList items => items | IMap m => m.*2 | _ => [] end.

Lemma ipld_children_ind (P : ipld → Prop) : (∀ i, Forall P (children i) → P i) → ∀ i, P i.
Proof.
  intros Hstep. induction i as [|b|n|f|s|b|l IH|m IH|c] using ipld_ind'; apply Hstep; simpl; try constructor.
  - done.
  - by rewrite Forall_fmap.
Qed.

Lemma fold_left_snd {S A} (f : S → A → S) (m : list (string * A)) s :
  fold_left (λ s '(_, v), f s v) m s = fold_left f m.*2 s.
Proof. revert s. induction m as [|[k v] m IH]; intros s; simpl; [done|apply IH]. Qed.
Lemma map_snd_fmap {A B} (f : A → B) (m : list (string * A)) : map (λ '(_, v), f v) m = map f m.*2.
Proof. induction m as [|[k v] m IH]; simpl; [done|by rewrite IH]. Qed.

(** ** Every walk in terms of the children *)
Lemma count_nodes_eq i : count_nodes i = 1 + list_sum (map count_nodes (children i)).
Proof. destruct i; try done. simpl. by rewrite map_snd_fmap. Qed.
Lemma dfs_eq i r :
  traverse_dfs_recursive i r = fold_left (λ r c, traverse_dfs_recursive c r) (children i) (r ++ [i]).
Proof. destruct i; try done. simpl. apply (fold_left_snd (λ r c, traverse_dfs_recursive c r)). Qed.
Lemma bfs_eq fuel i q r : bfs_loop (S fuel) (i :: q) r = bfs_loop fuel (q ++ children i) (r ++ [i]).
Proof. by destruct i. Qed.
Lemma subgraph_size_eq i : subgraph_size i = fold_left (λ n c, n + subgraph_size c) (children i) 1.
Proof. destruct i; try done. simpl. apply (fold_left_snd (λ n c, n + subgraph_size c)). Qed.
Lemma dag_depth_eq i : dag_depth i = 1 + max_or 0 (map dag_depth (children i)).
Proof. destruct i as [| | | | | |[|x items]|[|[k v] m]|]; try done. simpl. by rewrite map_snd_fmap. Qed.
Lemma bump_0 d v : bump d 0 v = v.
Proof. unfold bump. apply list_alter_id. intros x. lia. Qed.
Lemma fanout_eq i d v :
  calculate_fanout i d v = fold_left (λ v c, calculate_fanout c (d + 1) v) (children i) (bump d (length (children i)) (pad d v)).
Proof.
  destruct i; simpl; rewrite ?bump_0; try done.
  rewrite (fold_left_snd (λ f c, calculate_fanout c (d + 1) f)). by rewrite length_fmap.
Qed.
Definition link_count i : nat := if is_link i then 1 else 0.
Lemma count_links_eq i d v :
  count_links_recursive i d v = fold_left (λ v c, count_links_recursive c (d + 1) v) (children i) (bump d (link_count i) (pad d v)).
Proof.
  unfold link_count. destruct i; simpl; rewrite ?bump_0; try done.
  by rewrite (fold_left_snd (λ f c, count_links_recursive c (d + 1) f)).
Qed.
Lemma leaves_eq i : find_leaves i = match children i with [] => [i] | l => concat (map find_leaves l) end.
Proof.
  destruct i as [| | | | | |[|x items]|[|[k v] m]|]; try done; simpl; rewrite flat_map_concat_map; [done|].
  by rewrite map_snd_fmap.
Qed.
Lemma all_links_eq i L : extract_links_recursive i L true =
  match i with ILink c => L ++ [c] | _ => fold_left (λ L c, extract_links_recursive c L true) (children i) L end.
Proof. destruct i; try done. simpl. apply (fold_left_snd (λ L c, extract_links_recursive c L true)). Qed.

Lemma depth_eq i d : calculate_depth i d = max_or d (map (λ c, calculate_depth c (d + 1)) (children i)).
Proof. destruct i; try done. simpl. by rewrite (map_snd_fmap (λ c, calculate_depth c (d + 1))). Qed.
Lemma node_types_eq i : count_node_types i =
  match children i with [] => (1, 0) | l => fold_left (λ p c, add_pair p (count_node_types c)) l (0, 1) end.
Proof.
  destruct i as [| | | | | |[|x items]|[|[k v] m]|]; try done. simpl.
  by rewrite (fold_left_snd (λ p c, add_pair p (count_node_types c))).
Qed.

(** A walk that appends to its accumulator. *)
Lemma fold_left_append {A B} (f : A → list B → list B) (g : A → list B) (l : list A) (r : list B) :
  (∀ x (r : list B), x ∈ l → f x r = r ++ g x) → fold_left (λ (r : list B) x, f x r) l r = r ++ concat (map g l).
Proof.
  revert r. induction l as [|x l IH]; intros r Hf; simpl; [by rewrite app_nil_r|].
  rewrite Hf by by left. rewrite IH by (intros; apply Hf; by right). by rewrite <- app_assoc.
Qed.
Lemma fold_left_sum (g : ipld → nat) l n : fold_left (λ n c, n + g c) l n = n + list_sum (map g l).
Proof. revert n. induction l as [|x l IH]; intros n; simpl; [lia|]. rewrite IH. lia. Qed.

Lemma dfs_app i r : traverse_dfs_recursive i r = r ++ traverse_dfs i.
Proof.
  revert r. induction i as [i IH] using ipld_children_ind. intros r. unfold traverse_dfs. rewrite !(dfs_eq i).
  rewrite Forall_forall in IH. rewrite !(fold_left_append _ traverse_dfs) by (intros; by apply IH).
  by rewrite <- app_assoc.
Qed.
Lemma dfs_nodes i : traverse_dfs i = i :: concat (map traverse_dfs (children i)).
Proof. unfold traverse_dfs at 1. rewrite dfs_eq, (fold_left_append _ traverse_dfs); [done|]. intros; apply dfs_app. Qed.

Lemma length_dfs i : length (traverse_dfs i) = count_nodes i.
Proof.
  induction i as [i IH] using ipld_children_ind. rewrite dfs_nodes, count_nodes_eq. simpl. f_equal.
  induction IH as [|c l Hc _ IHl]; simpl; [done|]. by rewrite length_app, Hc, IHl.
Qed.
Lemma subgraph_size_count i : subgraph_size i = count_nodes i.
Proof.
  induction i as [i IH] using ipld_children_ind. rewrite subgraph_size_eq, count_nodes_eq, fold_left_sum. f_equal.
  induction IH as [|c l Hc _ IHl]; simpl; [done|]. by rewrite Hc, IHl.
Qed.

(** ** Levels *)
Definition next l : list ipld := concat (map children l).
Definition row d l : list ipld := Nat.iter d next l.
Definition level d i : list ipld := row d [i].

Lemma next_app l r : next (l ++ r) = next l ++ next r.
Proof. unfold next. by rewrite map_app, concat_app. Qed.
Lemma row_S d l : row (S d) l = row d (next l).
Proof. unfold row. apply Nat.iter_succ_r. Qed.
Lemma row_nil d : row d [] = [].
Proof. induction d as [|d IH]; [done|]. by rewrite row_S. Qed.
Lemma row_app d l r : row d (l ++ r) = row d l ++ row d r.
Proof. revert l r. induction d as [|d IH]; intros l r; [done|]. by rewrite !row_S, next_app, IH. Qed.
Lemma row_cons d i l : row d (i :: l) = level d i ++ row d l.
Proof. apply (row_app d [i]). Qed.
Lemma level_S d i : level (S d) i = row d (children i).
Proof. unfold level. rewrite row_S. unfold next. simpl. by rewrite app_nil_r. Qed.

Lemma max_or_foldr (l : list nat) : max_or 0 l = foldr max 0 l.
Proof.
  destruct l as [|x l]; [done|]. simpl. induction l as [|y l IH]; simpl; [lia|]. rewrite IH. lia.
Qed.

Definition forest_depth l : nat := max_or 0 (map dag_depth l).
Lemma forest_depth_cons i l : forest_depth (i :: l) = max (dag_depth i) (forest_depth l).
Proof. unfold forest_depth. by rewrite !max_or_foldr. Qed.

Lemma level_empty i d : level d i = [] ↔ dag_depth i <= d.
Proof.
  revert d. induction i as [i IH] using ipld_children_ind. intros [|d].
  { rewrite dag_depth_eq. unfold level. simpl. split; [done|lia]. }
  rewrite level_S, dag_depth_eq. fold (forest_depth (children i)).
  assert (row d (children i) = [] ↔ forest_depth (children i) <= d) as ->; [|lia].
  induction IH as [|c l Hc _ IHl]; [rewrite row_nil; split; [unfold forest_depth; simpl; lia|done]|].
  rewrite row_cons, forest_depth_cons, app_nil, Hc, IHl. lia.
Qed.

(** ** Breadth first *)
Lemma bfs_row l q r fuel : length l <= fuel →
  bfs_loop fuel (l ++ q) r = bfs_loop (fuel - length l) (q ++ next l) (r ++ l).
Proof.
  revert q r fuel. induction l as [|i l IH]; intros q r fuel Hfuel.
  { simpl. by rewrite Nat.sub_0_r, !app_nil_r. }
  destruct fuel as [|fuel]; simpl in Hfuel; [lia|]. simpl app. rewrite bfs_eq, <- app_assoc, IH by lia.
  simpl. unfold next. simpl. by rewrite <- !app_assoc.
Qed.

Definition forest_nodes l : nat := list_sum (map count_nodes l).
Lemma forest_nodes_app l r : forest_nodes (l ++ r) = forest_nodes l + forest_nodes r.
Proof. unfold forest_nodes. by rewrite map_app, list_sum_app. Qed.
Lemma forest_nodes_next l : forest_nodes l = length l + forest_nodes (next l).
Proof.
  induction l as [|i l IH]; [done|]. change (next (i :: l)) with (children i ++ next l). rewrite forest_nodes_app.
  change (forest_nodes (i :: l)) with (count_nodes i + forest_nodes l). rewrite count_nodes_eq, IH.
  unfold forest_nodes at 2. simpl. lia.
Qed.

Lemma bfs_rows n l r fuel : row n l = [] → forest_nodes l <= fuel →
  bfs_loop fuel l r = Ok (r ++ concat (map (λ d, row d l) (seq 0 n))).
Proof.
  revert l r fuel. induction n as [|n IH]; intros l r fuel Hrow Hfuel.
  { unfold row in Hrow. simpl in Hrow. subst l. simpl. rewrite app_nil_r. by destruct fuel. }
  pose proof (forest_nodes_next l). rewrite <- (app_nil_r l) at 1. rewrite bfs_row by lia.
  rewrite app_nil_l, IH; [|by rewrite <- row_S|lia]. rewrite <- app_assoc. do 2 f_equal.
  rewrite <- cons_seq, <- seq_shift, map_cons, map_map. simpl. f_equal. f_equal. apply map_ext. intros d.
  by rewrite <- row_S.
Qed.

Lemma bfs_permutes fuel q r res : bfs_loop fuel q r = Ok res → res ≡ₚ r ++ concat (map traverse_dfs q).
Proof.
  revert q r. induction fuel as [|fuel IH]; intros [|i q] r; try done.
  - intros [= <-]. simpl. by rewrite app_nil_r.
  - intros [= <-]. simpl. by rewrite app_nil_r.
  - rewrite bfs_eq. intros ->%IH. rewrite map_app, concat_app, <- app_assoc. f_equiv.
    simpl. rewrite dfs_nodes. simpl. f_equiv. apply Permutation_app_comm.
Qed.

(** ** Sums over levels *)
Lemma nth_bump k d n v : d < length v → nth k (bump d n v) 0 = nth k v 0 + (if decide (k = d) then n else 0).
Proof.
  intros Hd. unfold bump. rewrite !nth_lookup. case_decide as Hk.
  - subst k. rewrite list_lookup_alter_eq. destruct (lookup_lt_is_Some_2 v d Hd) as [x ->]. done.
  - rewrite list_lookup_alter_ne by done. lia.
Qed.
Lemma nth_pad k d v : nth k (pad d v) 0 = nth k v 0.
Proof.
  unfold pad. destruct (decide (k < length v)).
  - by rewrite app_nth1.
  - rewrite app_nth2, (nth_overflow v) by lia. destruct (decide (k - length v < d + 1 - length v)).
    + by rewrite nth_lookup, lookup_replicate_2.
    + apply nth_overflow. rewrite length_replicate. lia.
Qed.
Lemma length_pad d v : length (pad d v) = max (length v) (d + 1).
Proof. unfold pad. rewrite length_app, length_replicate. lia. Qed.

(** A walk that adds [g] of every node to the entry of its level. *)
Section per_level.
Context (f : ipld → nat → list nat → list nat) (g : ipld → nat).
Hypothesis f_eq : ∀ i d v, f i d v = fold_left (λ v c, f c (d + 1) v) (children i) (bump d (g i) (pad d v)).

Definition row_sum k l : nat := list_sum (map g (row k l)).

Lemma per_level_nth i d v k :
  nth k (f i d v) 0 = nth k v 0 + (if decide (d <= k) then row_sum (k - d) [i] else 0)
  ∧ length (f i d v) = max (length v) (d + dag_depth i).
Proof.
  revert d v. induction i as [i IH] using ipld_children_ind. intros d v. rewrite f_eq.
  assert (∀ v, nth k (fold_left (λ v c, f c (d + 1) v) (children i) v) 0
      = nth k v 0 + (if decide (d < k) then row_sum (k - S d) (children i) else 0)
    ∧ length (fold_left (λ v c, f c (d + 1) v) (children i) v)
      = max (length v) (match children i with [] => 0 | l => d + 1 + forest_depth l end)) as Hkids.
  { induction IH as [|c l Hc _ IHl]; intros v'; simpl fold_left.
    - rewrite Nat.max_0_r. unfold row_sum. rewrite row_nil. simpl. by case_decide.
    - destruct (IHl (f c (d + 1) v')) as [-> ->]. destruct (Hc (d + 1) v') as [-> ->]. split.
      + unfold row_sum. rewrite (row_cons _ c l), map_app, list_sum_app. unfold level.
        replace (k - (d + 1)) with (k - S d) by lia. repeat case_decide; lia.
      + rewrite (forest_depth_cons c l). destruct l; [|lia]. unfold forest_depth. simpl. lia. }
  destruct (Hkids (bump d (g i) (pad d v))) as [-> ->]. split.
  - rewrite nth_bump, nth_pad by (rewrite length_pad; lia). unfold row_sum. destruct (decide (k = d)) as [->|].
    + rewrite Nat.sub_diag, decide_False, decide_True by lia. unfold row. simpl. lia.
    + destruct (decide (d < k)); [|rewrite decide_False; lia]. rewrite decide_True by lia.
      replace (k - d) with (S (k - S d)) by lia. rewrite (level_S _ i : row _ [i] = _). lia.
  - unfold bump. rewrite length_alter, length_pad, dag_depth_eq. fold (forest_depth (children i)).
    destruct (children i); [unfold forest_depth; simpl; lia|lia].
Qed.

Lemma per_level_spec i : f i 0 [] = map (λ d, row_sum d [i]) (seq 0 (dag_depth i)).
Proof.
  apply (nth_ext _ _ 0 0).
  - rewrite (proj2 (per_level_nth i 0 [] 0)), length_map, length_seq. simpl. lia.
  - intros k. rewrite (proj2 (per_level_nth i 0 [] 0)). intros Hk. simpl in Hk.
    rewrite (proj1 (per_level_nth i 0 [] k)), decide_True by lia. rewrite Nat.sub_0_r.
    replace (nth k [] 0) with 0 by (by destruct k). rewrite (nth_indep _ 0 (row_sum 0 [i])) by (rewrite length_map, length_seq; lia).
    rewrite (map_nth (λ d, row_sum d [i])), seq_nth by lia. done.
Qed.
End per_level.

(** The metrics count every node in its level. *)
Lemma metrics_eq i d s : calculate_metrics i d s =
  match children i with
  | [] => push_leaf d (enter d s)
  | l => fold_left (λ s c, calculate_metrics c (d + 1) s) l (push_branching (length l) (enter d s))
  end.
Proof.
  destruct i as [| | | | | |[|x items]|[|[k v] m]|]; try done. simpl.
  rewrite (fold_left_snd (λ s c, calculate_metrics c (d + 1) s)). by rewrite length_fmap.
Qed.

Definition entry (s : metrics_state) k : nat := default 0 (levels s !! k).

Lemma metrics_spec i d s :
  let s' := calculate_metrics i d s in
  m_nodes s' = m_nodes s + count_nodes i
  ∧ (∀ k, entry s' k = entry s k + (if decide (d <= k) then length (level (k - d) i) else 0))
  ∧ ∀ k, levels s' !! k = Some 0 → levels s !! k = Some 0.
Proof.
  revert d s. induction i as [i IH] using ipld_children_ind. intros d s s'. unfold s'. rewrite metrics_eq, count_nodes_eq.
  set (s0 := match children i with [] => push_leaf d (enter d s) | l => push_branching (length l) (enter d s) end).
  assert (m_nodes s0 = m_nodes s + 1 ∧ levels s0 = levels (enter d s)) as [Hn0 Hl0] by (unfold s0; by destruct (children i)).
  replace (match children i with [] => _ | _ => _ end) with (fold_left (λ s c, calculate_metrics c (d + 1) s) (children i) s0)
    by (unfold s0; by destruct (children i)).
  assert (∀ k, entry s0 k = entry s k + (if decide (k = d) then 1 else 0)) as He0.
  { intros k. unfold entry. rewrite Hl0. simpl. rewrite lookup_insert. repeat case_decide; subst; try done; simpl; lia. }
  assert (∀ k, levels s0 !! k = Some 0 → levels s !! k = Some 0) as Hz0.
  { intros k. rewrite Hl0. simpl. rewrite lookup_insert. case_decide; [|done]. intros [= ?]. lia. }
  clearbody s0. assert (∀ s1, let s2 := fold_left (λ s c, calculate_metrics c (d + 1) s) (children i) s1 in
    m_nodes s2 = m_nodes s1 + list_sum (map count_nodes (children i))
    ∧ (∀ k, entry s2 k = entry s1 k + (if decide (d < k) then length (row (k - S d) (children i)) else 0))
    ∧ ∀ k, levels s2 !! k = Some 0 → levels s1 !! k = Some 0) as Hkids.
  { induction IH as [|c l Hc _ IHl]; intros s1; simpl.
    - split; [lia|]. split; [|done]. intros k. rewrite row_nil. simpl. case_decide; lia.
    - destruct (IHl (calculate_metrics c (d + 1) s1)) as (-> & He & Hz). destruct (Hc (d + 1) s1) as (-> & He1 & Hz1).
      split; [lia|]. split; [|auto]. intros k. rewrite He, He1, row_cons, length_app.
      replace (k - (d + 1)) with (k - S d) by lia. repeat case_decide; lia. }
  destruct (Hkids s0) as (-> & He & Hz). split; [lia|]. split; [|auto]. intros k. rewrite He, He0.
  destruct (decide (k = d)) as [->|].
  - rewrite Nat.sub_diag, decide_False, decide_True by lia. done.
  - destruct (decide (d < k)); [|rewrite decide_False; lia]. rewrite decide_True by lia.
    replace (k - d) with (S (k - S d)) by lia. rewrite level_S. lia.
Qed.

Lemma foldr_max_le (l : list nat) x : x ∈ l → x <= foldr max 0 l.
Proof. induction 1; simpl; lia. Qed.
Lemma foldr_max_spec (l : list nat) n : (∀ x, x ∈ l → x <= n) → n = 0 ∨ n ∈ l → foldr max 0 l = n.
Proof.
  intros Hle Hin. assert (foldr max 0 l <= n) as Hup.
  { clear Hin. induction l as [|x l IH]; simpl; [lia|]. pose proof (Hle x ltac:(left)).
    assert (foldr max 0 l <= n); [|lia]. apply IH. intros; apply Hle. by right. }
  destruct Hin as [->|Hin]; [lia|]. apply foldr_max_le in Hin. lia.
Qed.
Lemma foldr_max_in (l : list nat) : foldr max 0 l = 0 ∨ foldr max 0 l ∈ l.
Proof.
  induction l as [|x l IH]; simpl; [by left|]. right.
  destruct (Nat.max_spec x (foldr max 0 l)) as [[Hlt ->]|[_ ->]]; [|left].
  destruct IH as [IH|IH]; [lia|by right].
Qed.

Lemma width_spec i : width (DagMetrics_from_ipld i) = max_or 0 (map (λ d, length (level d i)) (seq 0 (dag_depth i))).
Proof.
  unfold DagMetrics_from_ipld. cbn [width]. rewrite !max_or_foldr.
  destruct (metrics_spec i 0 (mkMetrics ∅ [] [] 0)) as (_ & He & Hz). set (s := calculate_metrics _ _ _) in *.
  assert (∀ k, entry s k = length (level k i)) as Hs.
  { intros k. rewrite He, decide_True, Nat.sub_0_r by lia. unfold entry. simpl. by rewrite lookup_empty. }
  clear He. apply foldr_max_spec.
  - intros x ([k y] & -> & Hk%elem_of_map_to_list)%list_elem_of_fmap. simpl. apply foldr_max_le.
    assert (y = length (level k i)) as -> by (rewrite <- Hs; unfold entry; by rewrite Hk).
    apply list_elem_of_fmap. exists k. split; [done|]. apply elem_of_seq. split; [lia|].
    destruct (decide (dag_depth i <= k)) as [Hle|]; [|lia]. apply level_empty in Hle. rewrite Hle in Hk. exfalso.
    apply Hz in Hk. simpl in Hk. by rewrite lookup_empty in Hk.
  - destruct (foldr_max_in (map (λ d, length (level d i)) (seq 0 (dag_depth i)))) as [|Hin]; [by left|right].
    set (n := foldr _ _ _) in *. clearbody n. apply list_elem_of_fmap in Hin as (k & -> & [_ Hk]%elem_of_seq).
    apply list_elem_of_fmap. rewrite <- Hs. unfold entry. destruct (levels s !! k) as [x|] eqn:Hx.
    + exists (k, x). split; [done|]. by apply elem_of_map_to_list.
    + pose proof (Hs k) as Hk0. unfold entry in Hk0. rewrite Hx in Hk0. simpl in Hk0. symmetry in Hk0.
      apply nil_length_inv, level_empty in Hk0. lia.
Qed.

(** ** Depth, leaves, links and cycles *)
Lemma calculate_depth_spec i d : calculate_depth i d + 1 = d + dag_depth i.
Proof.
  revert d. induction i as [i IH] using ipld_children_ind. intros d. rewrite depth_eq, dag_depth_eq, max_or_foldr.
  destruct IH as [|c l Hc Hl]; simpl; [lia|].
  cut (∀ a b, a + 1 = d + 1 + b → foldr max a (map (λ c, calculate_depth c (d + 1)) l) + 1
    = d + 1 + max b (foldr max 0 (map dag_depth l))).
  { intros Hcut. rewrite (Hcut _ (dag_depth c)); [lia|apply Hc]. }
  intros a b Hab. induction Hl as [|c' l Hc' _ IHl]; simpl; [lia|]. specialize (Hc' (d + 1)). lia.
Qed.

Lemma node_types_spec i : count_node_types i
  = (length (find_leaves i), count_nodes i - length (find_leaves i)) ∧ length (find_leaves i) <= count_nodes i.
Proof.
  induction i as [i IH] using ipld_children_ind. rewrite node_types_eq, leaves_eq, count_nodes_eq.
  destruct (children i) as [|c l] eqn:Hc; [simpl; split; [done|lia]|]. rewrite <- Hc in *. clear c l Hc.
  assert (∀ p, fold_left (λ p c, add_pair p (count_node_types c)) (children i) p
      = (p.1 + length (concat (map find_leaves (children i))),
         p.2 + (list_sum (map count_nodes (children i)) - length (concat (map find_leaves (children i)))))
    ∧ length (concat (map find_leaves (children i))) <= list_sum (map count_nodes (children i))) as Hf.
  { induction IH as [|c l [Hc Hle] _ IHl]; intros p; simpl.
    - split; [|lia]. destruct p. simpl. f_equal; lia.
    - rewrite length_app. destruct (IHl (add_pair p (count_node_types c))) as [-> ?]. rewrite Hc. simpl. split; [f_equal; lia|lia]. }
  destruct (Hf (0, 1)) as [-> ?]. simpl. split; [f_equal; lia|lia].
Qed.

Lemma concat_map_concat {A} (f : A → list ipld) (l : list (list A)) : concat (map f (concat l)) = concat (map (λ x, concat (map f x)) l).
Proof. induction l as [|x l IH]; simpl; [done|]. by rewrite map_app, concat_app, IH. Qed.

Lemma leaves_spec i : find_leaves i = filter (λ j, children j = []) (traverse_dfs i).
Proof.
  induction i as [i IH] using ipld_children_ind. rewrite leaves_eq, dfs_nodes, filter_cons.
  destruct (children i) as [|c l] eqn:Hc; [by rewrite decide_True|]. rewrite decide_False by done. clear Hc.
  induction IH as [|c' l' Hc' _ IHl]; [done|]. simpl. by rewrite filter_app, <- Hc', IHl.
Qed.

Lemma all_links_app i L : extract_links_recursive i L true = L ++ collect_all_links i.
Proof.
  revert L. induction i as [i IH] using ipld_children_ind. intros L. unfold collect_all_links.
  rewrite (all_links_eq i L), (all_links_eq i []). rewrite Forall_forall in IH.
  destruct i; simpl; try (by rewrite app_nil_r); try done;
    rewrite !(fold_left_append _ collect_all_links) by (intros; by apply IH); done.
Qed.
Lemma all_links_dfs i : collect_all_links i = omap as_link (traverse_dfs i).
Proof.
  induction i as [i IH] using ipld_children_ind. rewrite dfs_nodes. unfold collect_all_links. rewrite all_links_eq.
  assert (fold_left (λ L c, extract_links_recursive c L true) (children i) [] = omap as_link (concat (map traverse_dfs (children i)))) as Hkids.
  { rewrite (fold_left_append _ collect_all_links) by (intros; apply all_links_app). simpl.
    induction IH as [|c l Hc _ IHl]; simpl; [done|]. by rewrite omap_app, Hc, IHl. }
  destruct i; simpl in *; done.
Qed.

(** Nothing is ever on the stack when a node is visited. *)
Lemma has_cycle_ok (ts : Cid → string) i v : ∃ v', has_cycle_dfs ts i (v, ∅) = (true, (v', ∅)).
Proof.
  revert v. induction i as [|b|n|f|s|b|l IH|m IH|c] using ipld_ind'; intros v; simpl; try by exists v.
  - revert v. induction IH as [|x l Hx _ IHl]; intros v; [by exists v|]. destruct (Hx v) as [v' ->]. apply IHl.
  - revert v. induction IH as [|[k x] m Hx _ IHm]; intros v; [by exists v|]. simpl in Hx. destruct (Hx v) as [v' ->]. apply IHm.
  - rewrite decide_False by set_solver. case_decide; [by exists v|]. eexists. do 2 f_equal. set_solver.
Qed.

(** ** Paths *)
Inductive at_path : ipld → list string → ipld → Prop :=
| at_here i : at_path i [] i
| at_index items n x p y : items !! n = Some x → at_path x p y → at_path (IList items) (index_name n :: p) y
| at_key m k x p y : (k, x) ∈ m → at_path x p y → at_path (IMap m) (k :: p) y.

Definition named_children i : list (string * ipld) :=
  match i with IList items => imap (λ n x, (index_name n, x)) items | IMap m => m | _ => [] end.
Definition paths_below (t : Cid) (p : string * ipld) : list (list string) := cons p.1 <$> find_paths_to_cid p.2 t.

Lemma paths_children (P : ipld → Prop) i : Forall P (children i) ↔ Forall (λ p, P p.2) (named_children i).
Proof.
  destruct i; simpl; try (by split; constructor); [|by rewrite Forall_fmap].
  rewrite !Forall_forall. split.
  - intros Hp p (n & x & -> & Hn)%elem_of_lookup_imap. simpl. apply Hp. by eapply list_elem_of_lookup_2.
  - intros Hp x [n Hn]%list_elem_of_lookup. apply (Hp (index_name n, x)). apply elem_of_lookup_imap. by exists n, x.
Qed.

Lemma index_loop t cur items n paths :
  (fix go n l paths :=
     match l with
     | [] => paths
     | item :: l' => go (S n) l' (find_paths_recursive item t (cur ++ [index_name n]) paths)
     end) n items paths
  = fold_left (λ paths '(name, c), find_paths_recursive c t (cur ++ [name]) paths)
      (imap (λ k x, (index_name (n + k), x)) items) paths.
Proof.
  revert n paths. induction items as [|x items IH]; intros n paths; [done|]. simpl. rewrite IH, Nat.add_0_r.
  f_equal. apply imap_ext. intros k y _. simpl. by rewrite Nat.add_succ_r.
Qed.

Lemma find_paths_eq i t cur paths : (∀ c, i ≠ ILink c) →
  find_paths_recursive i t cur paths
  = fold_left (λ paths '(name, c), find_paths_recursive c t (cur ++ [name]) paths) (named_children i) paths.
Proof.
  intros Hi. destruct i as [| | | | | |items| |c]; try done; [|by destruct (Hi c)]. apply (index_loop t cur items 0).
Qed.

Lemma not_link_dec i : (∃ c, i = ILink c) ∨ ∀ c, i ≠ ILink c.
Proof. destruct i; [right..|left; by eexists]; done. Qed.

Lemma find_paths_app i t cur paths :
  find_paths_recursive i t cur paths = paths ++ (app cur <$> find_paths_to_cid i t).
Proof.
  revert cur paths. induction i as [i IH] using ipld_children_ind. intros cur paths.
  destruct (not_link_dec i) as [[c ->]|Hi].
  { unfold find_paths_to_cid. simpl. case_decide; simpl; by rewrite ?app_nil_r. }
  unfold find_paths_to_cid. rewrite !find_paths_eq by done. apply (paths_children _ i) in IH.
  assert (∀ cur ps, fold_left (λ paths '(name, c), find_paths_recursive c t (cur ++ [name]) paths) (named_children i) ps
    = ps ++ concat (map (λ p, app (cur ++ [p.1]) <$> find_paths_to_cid p.2 t) (named_children i))) as Hfold.
  { clear paths cur Hi. intros cur. induction IH as [|[k c] l Hc _ IHl]; intros ps; simpl; [by rewrite app_nil_r|].
    simpl in Hc. by rewrite Hc, IHl, <- app_assoc. }
  rewrite !Hfold. simpl. f_equal. clear IH Hfold Hi.
  induction (named_children i) as [|[k c] l IHl]; [done|]. simpl. rewrite fmap_app, <- IHl. f_equal.
  rewrite <- list_fmap_compose. apply list_fmap_ext. intros _ p _. simpl. by rewrite <- app_assoc.
Qed.
Lemma find_paths_named i t : (∀ c, i ≠ ILink c) →
  find_paths_to_cid i t = concat (map (paths_below t) (named_children i)).
Proof.
  intros Hi. unfold find_paths_to_cid at 1. rewrite find_paths_eq by done.
  cut (∀ (l : list (string * ipld)) ps, fold_left (λ paths '(name, c), find_paths_recursive c t ([] ++ [name]) paths) l ps
    = ps ++ concat (map (paths_below t) l)); [intros Hcut; apply (Hcut _ [])|].
  induction l as [|[k c] l IHl]; intros ps; simpl; [by rewrite app_nil_r|].
  rewrite find_paths_app, IHl, <- app_assoc. done.
Qed.

Lemma at_path_named i p y :
  at_path i p y ↔ match p with [] => y = i | k :: p' => ∃ x, (k, x) ∈ named_children i ∧ at_path x p' y end.
Proof.
  split.
  - destruct 1 as [i|items n x p y Hn Hp|m k x p y Hm Hp]; [done|..]; exists x; split; try done.
    simpl. apply elem_of_lookup_imap. by exists n, x.
  - destruct p as [|k p]; [intros ->; constructor|]. intros (x & Hin & Hp).
    destruct i; simpl in Hin; try by apply elem_of_nil in Hin.
    + apply elem_of_lookup_imap in Hin as (n & ? & [= -> ->] & Hn). by econstructor.
    + by econstructor.
Qed.

Lemma elem_of_paths_below t p k c : p ∈ paths_below t (k, c) ↔ ∃ p', p = k :: p' ∧ p' ∈ find_paths_to_cid c t.
Proof. unfold paths_below. by rewrite list_elem_of_fmap. Qed.

Lemma find_paths_at i t p : p ∈ find_paths_to_cid i t ↔ at_path i p (ILink t).
Proof.
  revert p. induction i as [i IH] using ipld_children_ind. intros p. rewrite at_path_named.
  destruct (not_link_dec i) as [[c ->]|Hi].
  { unfold find_paths_to_cid. simpl. case_decide as Hc.
    - subst c. rewrite list_elem_of_singleton. destruct p; [done|]. split; [done|]. by intros (x & ?%elem_of_nil & _).
    - split; [by intros ?%elem_of_nil|]. destruct p; [congruence|]. by intros (x & ?%elem_of_nil & _). }
  apply (paths_children _ i) in IH. rewrite Forall_forall in IH.
  rewrite find_paths_named, list_elem_of_In, in_concat by done. setoid_rewrite <- list_elem_of_In. split.
  - intros (l & (q & <- & Hq)%elem_of_list_map & Hp). destruct q as [k c]. apply elem_of_paths_below in Hp as (p' & -> & Hp').
    exists c. split; [done|]. by apply (IH (k, c)).
  - destruct p as [|k p]; [by intros Ht; destruct (Hi t)|]. intros (x & Hin & Hp).
    exists (paths_below t (k, x)). split; [apply elem_of_list_map; by eexists|]. apply elem_of_paths_below. exists p. split; [done|].
    by apply (IH (k, x)).
Qed.

(** Every map within is sorted by its keys, as any [BTreeMap]. *)
Definition sorted_maps i : Prop := ∀ m, IMap m ∈ traverse_dfs i → bt_sorted m.

Lemma sorted_maps_children i : sorted_maps i → Forall sorted_maps (children i).
Proof.
  intros Hi. apply Forall_forall. intros c Hc m Hm. apply Hi. rewrite dfs_nodes. right.
  apply list_elem_of_In, in_concat. exists (traverse_dfs c). rewrite <- !list_elem_of_In.
  split; [|done]. apply elem_of_list_map. by exists c.
Qed.
Lemma wf_sorted_maps i : wf_ipld i → sorted_maps i.
Proof.
  induction i as [i IH] using ipld_children_ind. intros Hi m. rewrite dfs_nodes. rewrite Forall_forall in IH.
  intros [Hm|Hm]%elem_of_cons; [subst i; apply Hi|]. apply list_elem_of_In, in_concat in Hm as (d & Hd & Hm).
  apply list_elem_of_In, elem_of_list_map in Hd as (c & <- & Hc). apply list_elem_of_In in Hm.
  apply (IH c Hc); [|done]. destruct i; simpl in Hc; try by apply elem_of_nil in Hc.
  - destruct Hi as (_ & _ & Hl). rewrite foldr_and_Forall, Forall_forall in Hl. auto.
  - destruct Hi as (_ & _ & Hl). rewrite (foldr_and_Forall (λ p, str_ok p.1 ∧ wf_ipld p.2)), Forall_forall in Hl.
    apply list_elem_of_fmap in Hc as (p & -> & Hp). by apply Hl.
Qed.
Lemma sorted_NoDup (m : list (string * ipld)) : bt_sorted m → NoDup m.*1.
Proof.
  induction 1 as [|p m _ IH Hp]; [constructor|]. rewrite fmap_cons. constructor; [|done].
  intros (q & Heq & Hq)%list_elem_of_fmap. rewrite Forall_forall in Hp. apply Hp in Hq. rewrite Heq in Hq.
  by apply slt_irrefl in Hq.
Qed.

Lemma index_name_inj : Inj (=) (=) index_name.
Proof.
  intros n n'. unfold index_name. intros [= Heq].
  assert (∀ s s', s +:+ "]" = s' +:+ "]" → s = s') as Hsuf.
  { induction s as [|a s IH]; intros [|a' s']; simpl; [done|..].
    - intros [= <- Hs]. by destruct s'.
    - intros [= <- Hs]. by destruct s.
    - intros [= <- Hs]. f_equal. by apply IH. }
  apply Hsuf in Heq. by apply (inj pretty).
Qed.

Lemma named_children_NoDup i : sorted_maps i → NoDup (named_children i).*1.
Proof.
  intros Hi. destruct i as [| | | | | |items|m|]; simpl; try constructor.
  - rewrite fmap_imap. clear Hi. apply NoDup_alt. intros n n' k Hn Hn'.
    rewrite list_lookup_imap in Hn, Hn'. destruct (items !! n), (items !! n'); simplify_eq/=. apply index_name_inj. unfold index_name. by f_equal.
  - apply sorted_NoDup, Hi. rewrite dfs_nodes. left.
Qed.

Lemma find_paths_NoDup i t : sorted_maps i → NoDup (find_paths_to_cid i t).
Proof.
  induction i as [i IH] using ipld_children_ind. intros Hi.
  destruct (not_link_dec i) as [[c ->]|Hl].
  { unfold find_paths_to_cid. simpl. case_decide; repeat constructor; set_solver. }
  pose proof (sorted_maps_children i Hi) as Hkids. apply (paths_children _ i) in IH, Hkids.
  rewrite Forall_forall in IH, Hkids. rewrite find_paths_named by done.
  pose proof (named_children_NoDup i Hi) as Hnd. rewrite NoDup_alt in Hnd.
  apply NoDup_concat; change (map (paths_below t)) with (fmap (M:=list) (paths_below t)).
  - intros n l. rewrite list_lookup_fmap_Some. intros ([k c] & -> & Hn).
    apply list_elem_of_lookup_2 in Hn. unfold paths_below. apply NoDup_fmap_2; [by intros ?? [= ->]|].
    apply (IH (k, c)); [done|]. by apply (Hkids (k, c)).
  - intros n n' l l' p. rewrite !list_lookup_fmap_Some. intros ([k c] & -> & Hn) ([k' c'] & -> & Hn').
    rewrite !elem_of_paths_below. intros (p1 & -> & _) (p2 & [= -> _] & _).
    apply (Hnd n n' k'); rewrite list_lookup_fmap; by rewrite ?Hn, ?Hn'.
Qed.

(** ** Filters only remove *)
Lemma filter_map_links (f : ipld → option ipld) l :
  Forall (λ x, ∀ y, f x = Some y → collect_all_links y `sublist_of` collect_all_links x) l →
  concat (map collect_all_links (filter_map f l)) `sublist_of` concat (map collect_all_links l).
Proof.
  induction 1 as [|x l Hx _ IH]; simpl; [done|]. destruct (f x) as [y|].
  - simpl. apply sublist_app; auto.
  - by apply sublist_inserts_l.
Qed.

Definition keep (f : ipld → option ipld) (m : list (string * ipld)) : list (string * ipld) :=
  filter_map (λ '(k, v), match f v with Some w => Some (k, w) | None => None end) m.
Lemma keep_values f m : (keep f m).*2 = filter_map f m.*2.
Proof. induction m as [|[k v] m IH]; [done|]. simpl. destruct (f v); [simpl; f_equal|]; exact IH. Qed.
Lemma keep_sorted f m : bt_sorted m → bt_sorted (keep f m).
Proof.
  induction 1 as [|[k v] m Hm IH Hk]; [constructor|]. simpl. destruct (f v) as [w|]; [|done].
  constructor; [done|]. clear IH Hm. induction Hk as [|[k' v'] m Hk' _ IH]; [constructor|]. simpl.
  destruct (f v'); [by constructor|done].
Qed.

Lemma links_of_children i : (∀ c, i ≠ ILink c) → collect_all_links i = concat (map collect_all_links (children i)).
Proof.
  intros Hi. unfold collect_all_links at 1. rewrite all_links_eq, (fold_left_append _ collect_all_links).
  - destruct i; try done. by destruct (Hi c).
  - intros; apply all_links_app.
Qed.

(** A recursive filter that rebuilds containers from what it keeps of their children. *)
Lemma filter_links (f : ipld → option ipld) i :
  (∀ i j, f i = Some j → j = i ∨ match i with
    | IList items => j = IList (filter_map f items)
    | IMap m => j = IMap (bt_of_list (keep f m))
    | _ => False
    end) →
  sorted_maps i → ∀ j, f i = Some j → collect_all_links j `sublist_of` collect_all_links i.
Proof.
  intros Hf. induction i as [i IH] using ipld_children_ind. intros Hi j Hj.
  apply Hf in Hj as [->|Hj]; [done|]. pose proof (sorted_maps_children i Hi) as Hkids.
  assert (Forall (λ x, ∀ y, f x = Some y → collect_all_links y `sublist_of` collect_all_links x) (children i)) as Hc.
  { eapply Forall_impl; [apply Forall_and; split; [exact IH|exact Hkids]|]. intros x [Hx Hs]. by apply Hx. }
  destruct i as [| | | | | |items|m|]; try done; subst j; rewrite !links_of_children by done.
  - by apply filter_map_links.
  - rewrite bt_of_list_sorted by (apply keep_sorted, Hi; rewrite dfs_nodes; left). simpl. rewrite keep_values.
    by apply filter_map_links.
Qed.
End walks.

(** ** Properties *)
Section properties.
Context `{CidCrate}.

(** Every walk of [dag.rs] sees the same tree.  Let the rows of a value be its levels, from the
    root down: breadth-first traversal ends and returns the rows one after another, a permutation of
    depth-first traversal, of as many nodes as all three counters say; the fan-out per level, the
    links per level and the width are the sums over the rows and their greatest length; the
    leaves and the links are those of the depth-first order; and the two measures of depth agree. *)
Theorem dag_walks_agree (i : ipld) :
  let rows := map (λ d, level d i) (seq 0 (dag_depth i)) in
  traverse_bfs i = Ok (concat rows) ∧ concat rows ≡ₚ traverse_dfs i
  ∧ length (traverse_dfs i) = count_nodes i ∧ subgraph_size i = count_nodes i
  ∧ total_nodes (DagMetrics_from_ipld i) = count_nodes i
  ∧ dag_fanout_by_level i = map (λ row, list_sum (map (length ∘ children) row)) rows
  ∧ count_links_by_depth i = map (λ row, list_sum (map link_count row)) rows
  ∧ width (DagMetrics_from_ipld i) = max_or 0 (map length rows)
  ∧ find_leaves i = filter (λ j, children j = []) (traverse_dfs i)
  ∧ count_node_types i = (length (find_leaves i), count_nodes i - length (find_leaves i))
  ∧ calculate_depth i 0 + 1 = dag_depth i
  ∧ collect_all_links i = omap as_link (traverse_dfs i).
Proof.
  intros rows. assert (traverse_bfs i = Ok (concat rows)) as Hbfs.
  { unfold traverse_bfs. rewrite (bfs_rows (dag_depth i)); [done|by apply level_empty|]. unfold forest_nodes. simpl. lia. }
  split_and!; [done| |apply length_dfs|apply subgraph_size_count| | | | |apply leaves_spec|apply node_types_spec
    |apply (calculate_depth_spec i 0)|apply all_links_dfs].
  - apply bfs_permutes in Hbfs. simpl in Hbfs. by rewrite app_nil_r in Hbfs.
  - unfold DagMetrics_from_ipld. cbn [total_nodes]. by rewrite (proj1 (metrics_spec i 0 (mkMetrics ∅ [] [] 0))).
  - unfold dag_fanout_by_level, rows. rewrite (per_level_spec _ (λ j, length (children j))), map_map; [done|].
    apply fanout_eq.
  - unfold count_links_by_depth, rows. rewrite (per_level_spec _ link_count), map_map; [done|]. apply count_links_eq.
  - unfold rows. rewrite width_spec, map_map. done.
Qed.

(** C35. [find_paths_to_cid] returns exactly the paths of keys and indices that lead from the root to
    the link, and each of them once. *)
Theorem find_paths_exact (i : ipld) (t : Cid) (Hi : sorted_maps i) :
  NoDup (find_paths_to_cid i t) ∧ ∀ p, p ∈ find_paths_to_cid i t ↔ at_path i p (ILink t).
Proof. split; [by apply find_paths_NoDup|]. intros p. apply find_paths_at. Qed.

(** Filtering and pruning never add a link or change the order of the links they keep. *)
Theorem filters_keep_order (P : ipld → bool) (i j : ipld) (Hi : sorted_maps i) :
  filter_dag P i = Some j ∨ prune_dag P i = Some j → collect_all_links j `sublist_of` collect_all_links i.
Proof.
  intros [Hj|Hj].
  - eapply (filter_links (filter_dag P)); [|done|exact Hj]. clear. intros [] j; simpl; (destruct (P _); [|done]);
      intros [= <-]; try (by left); by right.
  - eapply (filter_links (prune_dag P)); [|done|exact Hj]. clear. intros [] j; simpl; (destruct (P _); [|done]);
      try (intros [= <-]; by left).
    + destruct (filter_map _ l) eqn:Hl, l; intros [= <-]; right; by rewrite <- Hl.
    + fold (keep (prune_dag P) m). destruct (bt_of_list _) eqn:Hl, m; intros [= <-]; right; by rewrite <- Hl.
Qed.

(** [is_dag] answers [true] for every value: no link is ever on its stack. *)
Theorem is_dag_vacuous (ts : Cid → string) (i : ipld) : is_dag ts i = true.
Proof. unfold is_dag. by destruct (has_cycle_ok ts i ∅) as [v ->]. Qed.

(** The second map wins where both have a key. *)
Theorem merge_lookup (m1 m2 : list (string * ipld)) (k : string) : bt_sorted m2 →
  ∃ m, merge_dags (IMap m1) (IMap m2) = IMap m
    ∧ bt_get k m = match bt_get k m2 with Some v => Some v | None => bt_get k m1 end.
Proof.
  intros Hs. eexists. split; [done|]. revert m1. induction Hs as [|[k' v] m2 Hm IH Hk]; intros m1; simpl; [done|].
  rewrite IH. destruct (String.eqb_spec k k') as [->|Hne].
  - destruct (bt_get k' m2) as [w|] eqn:Hw; [|by rewrite bt_get_insert_eq].
    apply bt_get_elem_of in Hw. rewrite Forall_forall in Hk. apply Hk in Hw. simpl in Hw. by apply slt_irrefl in Hw.
  - destruct (bt_get k m2); [done|]. by apply bt_get_insert_ne.
Qed.
End properties.

(** ** A value with a link at two places *)
Import Reference.

Definition sample_dag : ipld :=
  IMap [("a"%string, IList [INull; ILink demo_cid]); ("b"%string, ILink demo_cid)].
Lemma sample_dag_sorted : sorted_maps sample_dag.
Proof.
  apply wf_sorted_maps. unfold sample_dag. simpl. unfold bt_sorted, str_ok.
  split_and!; repeat constructor; try done; vm_compute; split_and?; congruence.
Qed.

Lemma find_paths_exact_witness :
  find_paths_to_cid sample_dag demo_cid = [["a"; "[1]"]; ["b"]]%string
  ∧ NoDup (find_paths_to_cid sample_dag demo_cid)
  ∧ ∀ p, p ∈ find_paths_to_cid sample_dag demo_cid ↔ at_path sample_dag p (ILink demo_cid).
Proof. split; [by vm_compute|]. apply (find_paths_exact sample_dag demo_cid sample_dag_sorted). Defined.

Lemma filters_keep_order_witness :
  collect_all_links (IMap [("b"%string, ILink demo_cid)]) `sublist_of` collect_all_links sample_dag.
Proof.
  apply (filters_keep_order (λ i, negb (is_list i)) sample_dag (IMap [("b"%string, ILink demo_cid)]) sample_dag_sorted).
  left. reflexivity.
Defined.

Lemma merge_lookup_witness : ∃ m,
  merge_dags (IMap [("a"%string, INull); ("b"%string, INull)]) (IMap [("a"%string, IBool true)]) = IMap m
  ∧ bt_get "a" m = Some (IBool true).
Proof.
  destruct (merge_lookup [("a"%string, INull); ("b"%string, INull)] [("a"%string, IBool true)] "a") as (m & Hm & Hg).
  - repeat constructor.
  - by exists m.
Defined.
