(* ===== verification/Chunking.v ===== *)
(** * Chunking files into Merkle DAGs: [crates/ipfrs-core/src/chunking.rs]

    [chunk] splits a file, by fixed sizes or at the boundaries a rolling hash finds, makes a raw
    block of every chunk and links the blocks level by level into DAG-CBOR nodes up to one root.
    Sizes are [usize] or [u64] values as integers; the percentage of the deduplication
    statistics, a float computed from the other fields, is left out. *)

From Stdlib Require Import ZArith Lia List.
From stdpp Require Import base tactics numbers list gmap sets strings.
From S2P Require Import Prelude Collections Cid Ipld Block.

#[local] Open Scope Z_scope.

Definition DEFAULT_CHUNK_SIZE : Z := 256 * 1024.
Definition MIN_CHUNK_SIZE : Z := 1024.
Definition MAX_CHUNK_SIZE : Z := 1024 * 1024.
Definition MAX_LINKS_PER_NODE : Z := 174.

(** ** Configurations *)
Inductive ChunkingStrategy : Type := FixedSize | ContentDefined.

Record ChunkingConfig : Type := mkConfig {
  chunk_size : Z;
  strategy : ChunkingStrategy;
  max_links_per_node : Z;
}.
Definition ChunkingConfig_default : ChunkingConfig :=
  mkConfig DEFAULT_CHUNK_SIZE FixedSize MAX_LINKS_PER_NODE.

Definition with_chunk_size (n : Z) : outcome Error ChunkingConfig :=
  if n <? MIN_CHUNK_SIZE then Err InvalidInput
  else if MAX_CHUNK_SIZE <? n then Err InvalidInput
  else Ok (mkConfig n FixedSize MAX_LINKS_PER_NODE).
Definition content_defined : ChunkingConfig :=
  mkConfig DEFAULT_CHUNK_SIZE ContentDefined MAX_LINKS_PER_NODE.
Definition content_defined_with_size (n : Z) : outcome Error ChunkingConfig :=
  if n <? MIN_CHUNK_SIZE then Err InvalidInput
  else if MAX_CHUNK_SIZE <? n then Err InvalidInput
  else Ok (mkConfig n ContentDefined MAX_LINKS_PER_NODE).

Record ChunkingConfigBuilder : Type := mkConfigBuilder {
  cb_chunk_size : option Z;
  cb_strategy : option ChunkingStrategy;
  cb_max_links : option Z;
}.
Definition build_config (b : ChunkingConfigBuilder) : outcome Error ChunkingConfig :=
  let n := default DEFAULT_CHUNK_SIZE (cb_chunk_size b) in
  let s := default FixedSize (cb_strategy b) in
  let m := default MAX_LINKS_PER_NODE (cb_max_links b) in
  if n <? MIN_CHUNK_SIZE then Err InvalidInput
  else if MAX_CHUNK_SIZE <? n then Err InvalidInput
  else Ok (mkConfig n s m).

(** ** The rolling hash *)
Record RabinChunker : Type := mkRabin {
  min_size : Z;
  max_size : Z;
  polynomial : Z;
  window_size : nat;
  mask : Z;
}.

(** [log2] of a float is exact enough for every size up to [MAX_CHUNK_SIZE]. *)
Definition Rabin_new (target_size : Z) : RabinChunker :=
  let mask_bits := Z.log2 target_size in
  mkRabin (target_size / 4) (as_u64 (target_size * 4)) 0x3DA3358B4DC173 48 (Z.shiftl 1 mask_bits - 1).

Definition rotate_left_1 (h : Z) : Z := Z.lor (as_u64 (Z.shiftl h 1)) (Z.shiftr h 63).

Definition out_table (r : RabinChunker) (byte : Z) : Z :=
  Nat.iter (window_size r) (λ val, Z.lxor (rotate_left_1 val) (polynomial r)) byte.
Definition in_table (byte : Z) : Z := byte.

Record Scan : Type := mkScan {
  boundaries : list Z;
  hash : Z;
  window : list Z;
  window_pos : nat;
  last_boundary : Z;
}.

(** One round of the loop of [find_boundaries]; [window_pos] is always in the window. *)
Definition scan_byte (r : RabinChunker) (i byte : Z) (s : Scan) : Scan :=
  let out_byte := nth (window_pos s) (window s) 0 in
  let window := <[window_pos s := byte]> (window s) in
  let window_pos := ((window_pos s + 1) mod window_size r)%nat in
  let hash := rotate_left_1 (hash s) in
  let hash := Z.lxor hash (out_table r out_byte) in
  let hash := Z.lxor hash (in_table byte) in
  let chunk_size := i - last_boundary s in
  if min_size r <=? chunk_size then
    if max_size r <=? chunk_size then
      mkScan (boundaries s ++ [i]) 0 (replicate (window_size r) 0) 0 i
    else if Z.land hash (mask r) =? 0 then mkScan (boundaries s ++ [i]) hash window window_pos i
    else mkScan (boundaries s) hash window window_pos (last_boundary s)
  else mkScan (boundaries s) hash window window_pos (last_boundary s).

Fixpoint scan (r : RabinChunker) (i : Z) (data : bytes) (s : Scan) : Scan :=
  match data with
  | [] => s
  | byte :: data' => scan r (i + 1) data' (scan_byte r i byte s)
  end.

Definition find_boundaries (r : RabinChunker) (data : bytes) : list Z :=
  if zlen data <=? min_size r then [zlen data] else
  let s := scan r 0 data (mkScan [] 0 (replicate (window_size r) 0) 0 0) in
  if last_boundary s <? zlen data then boundaries s ++ [zlen data] else boundaries s.

(** ** Splitting *)

(** [<[T]>::chunks], one unit of fuel per chunk; a size of zero panics. *)
Fixpoint chunks_loop {A} (fuel : nat) (n : nat) (l : list A) : list (list A) :=
  match l, fuel with
  | [], _ | _, O => []
  | _, S fuel' => take n l :: chunks_loop fuel' n (drop n l)
  end.
Definition chunks {E A} (n : Z) (l : list A) : outcome E (list (list A)) :=
  if n =? 0 then Panic else Ok (chunks_loop (length l) (Z.to_nat n) l).

(** [for &end in &boundaries { chunks.push(&data[start..end]); start = end; }]. *)
Fixpoint cut (data : bytes) (start : Z) (boundaries : list Z) : outcome Error (list bytes) :=
  match boundaries with
  | [] => Ok []
  | stop :: boundaries' =>
    let! c := slice_range data start stop in
    let! cs := cut data stop boundaries' in
    Ok (c :: cs)
  end.

Definition split (config : ChunkingConfig) (data : bytes) : outcome Error (list bytes) :=
  match strategy config with
  | FixedSize => chunks (chunk_size config) data
  | ContentDefined => cut data 0 (find_boundaries (Rabin_new (chunk_size config)) data)
  end.

Section chunking.
Context `{CidCrate}.

(** ** DAG nodes *)
Record DagLink : Type := mkDagLink { dl_cid : Cid; dl_size : Z; dl_name : option string }.
Definition DagLink_new (c : Cid) (n : Z) : DagLink := mkDagLink c n None.
Definition DagLink_with_name (c : Cid) (n : Z) (name : string) : DagLink := mkDagLink c n (Some name).

Record DagNode : Type := mkDagNode {
  dn_links : list DagLink;
  total_size : Z;
  dn_data : option bytes;
}.
Definition leaf (data : bytes) : DagNode := mkDagNode [] (zlen data) (Some data).
(** The sum of [u64] sizes wraps in the release profile. *)
Definition intermediate (links : list DagLink) : DagNode :=
  mkDagNode links (foldl (λ n l, as_u64 (n + dl_size l)) 0 links) None.
Definition is_leaf (n : DagNode) : bool := bool_decide (dn_links n = []).
Definition link_count (n : DagNode) : nat := length (dn_links n).

Definition link_ipld (l : DagLink) : ipld :=
  IMap (bt_of_list
    ([("cid", ILink (dl_cid l)); ("size", IInteger (dl_size l))]
     ++ match dl_name l with Some name => [("name", IString name)] | None => [] end))%string.
Definition DagNode_to_ipld (n : DagNode) : ipld :=
  IMap (bt_of_list
    ([("links", IList (map link_ipld (dn_links n))); ("totalSize", IInteger (total_size n))]
     ++ match dn_data n with Some d => [("data", IBytes d)] | None => [] end))%string.
Definition DagNode_to_dag_cbor (n : DagNode) : outcome Error bytes := to_dag_cbor (DagNode_to_ipld n).

(** ** Chunking a file *)
Record DeduplicationStats : Type := mkDedup {
  total_chunks : nat;
  unique_chunks : nat;
  reused_chunks : nat;
  total_data_size : Z;
  deduplicated_size : Z;
}.
Record ChunkedFile : Type := mkChunkedFile {
  root_cid : Cid;
  cf_blocks : list Block;
  cf_total_size : Z;
  chunk_count : nat;
  dedup_stats : option DeduplicationStats;
}.

(** The loop over the chunks: the blocks, the links, and the sizes by CID. *)
Fixpoint leaf_blocks (cs : list bytes) (seen_cids : gmap Cid nat) :
    outcome Error (list Block * list DagLink * gmap Cid nat) :=
  match cs with
  | [] => Ok ([], [], seen_cids)
  | chunk :: cs' =>
    let! block := Block_new chunk in
    let cid := b_cid block in
    let seen_cids :=
      match seen_cids !! cid with Some _ => seen_cids | None => <[cid := length chunk]> seen_cids end in
    let! ((blocks, links), seen_cids) := leaf_blocks cs' seen_cids in
    Ok (block :: blocks, DagLink_new cid (zlen chunk) :: links, seen_cids)
  end.

(** [Block::builder().codec(DAG_CBOR)]. *)
Definition dag_cbor_block (b : bytes) : outcome Error Block :=
  BlockBuilder_build (CidBuilder.with_codec CidBuilder.new DAG_CBOR) b.

(** One level: a node for every group of links. *)
Fixpoint node_blocks (groups : list (list DagLink)) : outcome Error (list DagLink * list Block) :=
  match groups with
  | [] => Ok ([], [])
  | link_chunk :: groups' =>
    let node := intermediate link_chunk in
    let! node_bytes := DagNode_to_dag_cbor node in
    if MAX_BLOCK_SIZE <? zlen node_bytes then Err Internal else
    let! block := dag_cbor_block node_bytes in
    let! (links, blocks) := node_blocks groups' in
    Ok (DagLink_new (b_cid block) (total_size node) :: links, block :: blocks)
  end.

(** [while current_links.len() > 1]: one unit of fuel per level. *)
Fixpoint build_levels (fuel : nat) (max_links : Z) (current_links : list DagLink)
    (all_blocks : list Block) : outcome Error (list DagLink * list Block) :=
  if (length current_links <=? 1)%nat then Ok (current_links, all_blocks) else
  match fuel with
  | O => OutOfFuel
  | S fuel' =>
    let! groups := chunks max_links current_links in
    let! (next_level_links, next_level_blocks) := node_blocks groups in
    build_levels fuel' max_links next_level_links (all_blocks ++ next_level_blocks)
  end.

(** The statistics over the leaves; the sizes are summed in the order of the hash map. *)
Definition dedup_of (cs : list bytes) (data : bytes) (seen_cids : gmap Cid nat) : DeduplicationStats :=
  mkDedup (length cs) (size seen_cids) (length cs - size seen_cids) (zlen data)
    (foldr (λ n s, as_u64 (Z.of_nat n + s)) 0 (map_to_list seen_cids).*2).

Definition chunk (fuel : nat) (config : ChunkingConfig) (data : bytes) : outcome Error ChunkedFile :=
  if decide (data = []) then Err InvalidInput else
  if zlen data <=? chunk_size config then
    let! block := Block_new data in
    Ok (mkChunkedFile (b_cid block) [block] (zlen data) 1
          (Some (mkDedup 1 1 0 (zlen data) (zlen data))))
  else
    let! cs := split config data in
    let! ((blocks, links), seen_cids) := leaf_blocks cs ∅ in
    let! (top, all_blocks) := build_levels fuel (max_links_per_node config) links blocks in
    match top with
    | root :: _ =>
      Ok (mkChunkedFile (dl_cid root) all_blocks (zlen data) (length cs)
            (Some (dedup_of cs data seen_cids)))
    | [] => Panic
    end.

Definition needs_chunking (config : ChunkingConfig) (data_len : Z) : bool := chunk_size config <? data_len.
(** [div_ceil] panics when the divisor is zero. *)
Definition estimate_chunk_count (config : ChunkingConfig) (data_len : Z) : outcome Error Z :=
  if data_len =? 0 then Ok 0
  else if chunk_size config =? 0 then Panic
  else Ok ((data_len + chunk_size config - 1) / chunk_size config).

(** ** [DagBuilder] *)
Definition create_directory (entries : list (string * Cid * Z)) : outcome Error (DagNode * Block) :=
  let node := intermediate (map (λ '((name, c), n), DagLink_with_name c n name) entries) in
  let! node_bytes := DagNode_to_dag_cbor node in
  let! block := dag_cbor_block node_bytes in
  Ok (node, block).
Definition create_file (fuel : nat) (config : ChunkingConfig) (data : bytes) : outcome Error ChunkedFile :=
  chunk fuel config data.
End chunking.
