(* ===== verification/ParallelChunking.v ===== *)
(** * Parallel chunking: [crates/ipfrs-core/src/parallel_chunking.rs]

    [chunk_parallel] computes the blocks of the chunks, and the nodes of each level, on several
    threads and collects them in order, so its result is that of mapping over the ranges; small
    files take a sequential path that does the same.  Elapsed times and the global metrics are
    left out, and so is [ParallelDeduplicator]. *)

From Stdlib Require Import ZArith Lia List.
From stdpp Require Import base tactics numbers list gmap sets strings.
From stdpp Require Import pretty.
From S2P Require Import Prelude Collections Cid Ipld Block Chunking.

#[local] Open Scope Z_scope.

Record ParallelChunkingConfig : Type := mkParallelConfig {
  p_chunk_size : Z;
  p_strategy : ChunkingStrategy;
  p_max_links : Z;
  p_hash_algorithm : HashAlgorithm;
  num_threads : option Z;
}.
Definition Parallel_default : ParallelChunkingConfig :=
  mkParallelConfig DEFAULT_CHUNK_SIZE FixedSize MAX_LINKS_PER_NODE Sha256 None.
Definition parallel_with_chunk_size (n : Z) : outcome Error ParallelChunkingConfig :=
  if n <? MIN_CHUNK_SIZE then Err InvalidInput
  else if MAX_BLOCK_SIZE <? n then Err InvalidInput
  else Ok (mkParallelConfig n FixedSize MAX_LINKS_PER_NODE Sha256 None).
Definition with_threads (n : Z) (c : ParallelChunkingConfig) : ParallelChunkingConfig :=
  mkParallelConfig (p_chunk_size c) (p_strategy c) (p_max_links c) (p_hash_algorithm c) (Some n).
Definition with_hash_algorithm (a : HashAlgorithm) (c : ParallelChunkingConfig) : ParallelChunkingConfig :=
  mkParallelConfig (p_chunk_size c) (p_strategy c) (p_max_links c) a (num_threads c).
Definition with_content_defined (c : ParallelChunkingConfig) : ParallelChunkingConfig :=
  mkParallelConfig (p_chunk_size c) ContentDefined (p_max_links c) (p_hash_algorithm c) (num_threads c).

(** One unit of fuel per range. *)
Fixpoint chunk_ranges (fuel : nat) (chunk_size data_len offset : Z) : outcome Error (list (Z * Z)) :=
  if data_len <=? offset then Ok [] else
  match fuel with
  | O => OutOfFuel
  | S fuel' =>
    let stop := Z.min (as_u64 (offset + chunk_size)) data_len in
    let! rest := chunk_ranges fuel' chunk_size data_len stop in
    Ok ((offset, stop) :: rest)
  end.
Definition calculate_chunk_ranges (fuel : nat) (c : ParallelChunkingConfig) (data_len : Z) :
    outcome Error (list (Z * Z)) :=
  chunk_ranges fuel (p_chunk_size c) data_len 0.

Section parallel.
Context `{CidCrate}.

Record ParallelChunkingResult : Type := mkParallelResult {
  p_root_cid : Cid;
  p_chunk_count : nat;
  total_bytes : Z;
  p_dedup_stats : DeduplicationStats;
  chunk_cids : list Cid;
  dag_nodes : list DagNode;
}.

(** The block of one range; only the threads rewrap its errors. *)
Definition range_block (data : bytes) (range : Z * Z) : outcome Error (Cid * Z) :=
  let! chunk_data := slice_range data range.1 range.2 in
  let! block :=
    if zlen data <? 1000000 then Block_new chunk_data
    else map_err (λ _, InvalidData) (Block_new chunk_data) in
  Ok (b_cid block, block_size block).

(** The parent of one group; its size is not tracked. *)
Definition group_node (group : list Cid) : outcome Error (Cid * DagNode) :=
  let links := imap (λ idx c, DagLink_with_name c 0 ("chunk-" +:+ pretty idx)) group in
  let node := mkDagNode links 0 None in
  let! cbor := map_err (λ _, Serialization) (DagNode_to_dag_cbor node) in
  let! block := map_err (λ _, InvalidData) (Block_new cbor) in
  Ok (b_cid block, node).

Fixpoint parallel_levels (fuel : nat) (max_links : Z) (current_level : list Cid) (nodes : list DagNode) :
    outcome Error (list Cid * list DagNode) :=
  if (length current_level <=? 1)%nat then Ok (current_level, nodes) else
  match fuel with
  | O => OutOfFuel
  | S fuel' =>
    let! groups := chunks max_links current_level in
    let! parent_results := try_map group_node groups in
    parallel_levels fuel' max_links parent_results.*1 (nodes ++ parent_results.*2)
  end.

Definition build_dag_parallel (fuel : nat) (c : ParallelChunkingConfig) (cs : list (Cid * Z)) :
    outcome Error (Cid * list DagNode) :=
  match cs with
  | [] => Err InvalidInput
  | [(c0, _)] => Ok (c0, [])
  | _ =>
    let! (top, nodes) := parallel_levels fuel (p_max_links c) cs.*1 [] in
    match top with root :: _ => Ok (root, nodes) | [] => Panic end
  end.

Definition chunk_parallel (fuel : nat) (c : ParallelChunkingConfig) (data : bytes) :
    outcome Error ParallelChunkingResult :=
  let! ranges := calculate_chunk_ranges fuel c (zlen data) in
  let! results := try_map (range_block data) ranges in
  let! (root, nodes) := build_dag_parallel fuel c results in
  let n := length results in
  Ok (mkParallelResult root n (zlen data) (mkDedup n n 0 (zlen data) (zlen data)) results.*1 nodes).

Definition chunk_files_parallel (fuel : nat) (c : ParallelChunkingConfig) (files : list bytes) :
    outcome Error (list ParallelChunkingResult) :=
  try_map (chunk_parallel fuel c) files.
End parallel.
