(* ===== verification/RabinFacts.v ===== *)
(** * Properties of content-defined chunking

    The boundaries cut the file into consecutive pieces within the size limits, whatever the
    hash does; and a file of zeros, on which the hash never meets the mask, is cut only where the
    maximum size forces it. *)

From Stdlib Require Import ZArith Lia List.
From stdpp Require Import base tactics numbers list gmap sets strings.
From S2P Require Import Prelude Collections Cid Ipld Block BlockFacts Chunking.

#[local] Open Scope Z_scope.

Section boundaries.
Context (r : RabinChunker) (Hmin : 0 < min_size r) (Hmax : min_size r <= max_size r).

(** Boundaries from [start] to [stop] whose distances are within the limits. *)
Fixpoint spaced (start : Z) (bs : list Z) (stop : Z) : Prop :=
  match bs with
  | [] => start = stop
  | b :: bs' => min_size r <= b - start <= max_size r ∧ spaced b bs' stop
  end.

Lemma spaced_snoc start bs b b' :
  spaced start bs b → min_size r <= b' - b <= max_size r → spaced start (bs ++ [b']) b'.
Proof using. revert start. induction bs; simpl; intros start; [intros -> | intros []]; auto. Qed.

Lemma spaced_le start bs stop : spaced start bs stop → start <= stop.
Proof using Hmin.
  revert start. induction bs as [|b bs IH]; simpl; intros start; [lia|]. intros [? ?%IH]. lia.
Qed.

Definition scan_inv (i : Z) (s : Scan) : Prop :=
  spaced 0 (boundaries s) (last_boundary s) ∧ 0 <= i - last_boundary s <= max_size r.

Lemma scan_byte_inv i byte s : scan_inv i s → scan_inv (i + 1) (scan_byte r i byte s).
Proof using All.
  intros [Hs Hi]. unfold scan_byte.
  destruct (Z.leb_spec (min_size r) (i - last_boundary s)); [|split; simpl; [done|lia]].
  assert (spaced 0 (boundaries s ++ [i]) i) by (eapply spaced_snoc; [done|lia]).
  destruct (Z.leb_spec (max_size r) (i - last_boundary s)); [split; simpl; [done|lia]|].
  case_match; split; simpl; try done; lia.
Qed.

Lemma scan_keeps_inv data i s : scan_inv i s → scan_inv (i + zlen data) (scan r i data s).
Proof using All.
  revert i s. induction data as [|b data IH]; intros i s Hi; simpl; unfold zlen; simpl.
  - by rewrite Z.add_0_r.
  - replace (i + Z.of_nat (S (length data))) with (i + 1 + zlen data) by (unfold zlen; lia).
    by apply IH, scan_byte_inv.
Qed.

Lemma find_boundaries_spaced data :
  data ≠ [] → ∃ bs b, find_boundaries r data = bs ++ [zlen data] ∧ spaced 0 bs b
    ∧ 1 <= zlen data - b <= max_size r.
Proof using All.
  intros Hd. assert (1 <= zlen data) as Hl.
  { destruct data; [done|]. unfold zlen. simpl. lia. }
  unfold find_boundaries. destruct (Z.leb_spec (zlen data) (min_size r)).
  { exists [], 0. split_and!; simpl; [done..|lia|lia]. }
  pose proof (scan_keeps_inv data 0 (mkScan [] 0 (replicate (window_size r) 0) 0 0)) as Hi.
  set (s := scan _ _ _ _) in *. destruct Hi as [Hs Hi]; [split; simpl; [done|lia]|].
  rewrite Z.add_0_l in Hi. destruct (Z.ltb_spec (last_boundary s) (zlen data)).
  - exists (boundaries s), (last_boundary s). split_and!; [done..|lia|lia].
  - (* the last boundary is the position of a byte *)
    exfalso. assert (∀ l i s0, last_boundary s0 <= i → l ≠ [] →
      last_boundary (scan r i l s0) < i + zlen l) as Hlt.
    { clear. induction l as [|b l IH]; intros i s0 Hs0 Hne; [done|]. simpl.
      assert (last_boundary (scan_byte r i b s0) <= i) as Hb.
      { unfold scan_byte. repeat case_match; simpl; lia. }
      destruct l as [|b' l']; [simpl; unfold zlen; simpl; lia|].
      pose proof (IH (i + 1) (scan_byte r i b s0) ltac:(lia) ltac:(done)). unfold zlen in *.
      simpl length in *. lia. }
    assert (last_boundary s < 0 + zlen data); [|lia]. by apply Hlt.
Qed.

(** Cutting at such boundaries gives pieces of those sizes. *)
Lemma cut_spaced data bs start b :
  0 <= start → spaced start bs b → b <= zlen data →
  ∃ cs, cut data start (bs ++ [zlen data]) = Ok (cs ++ [drop (Z.to_nat b) data])
    ∧ concat cs ++ drop (Z.to_nat b) data = drop (Z.to_nat start) data
    ∧ Forall (λ c, min_size r <= zlen c <= max_size r) cs.
Proof using All.
  revert start. induction bs as [|b' bs IH]; intros start Hst Hs Hb; simpl in *.
  - subst b. exists []. destruct (slice_range_ok (E := Error) data start (zlen data)) as (c & -> & Hc & Hd);
      [unfold zlen in *; lia..|]. unfold zlen in Hd. rewrite Nat2Z.id, drop_all, app_nil_r in Hd.
    simpl. by rewrite Hd.
  - destruct Hs as [Hb' Hs]. assert (b' <= b) as Hbb.
    { by eapply spaced_le. }
    destruct (slice_range_ok (E := Error) data start b') as (c & -> & Hc & Hd);
      [unfold zlen in *; lia..|]. simpl.
    destruct (IH b') as (cs & Hcut & Hcat & Hf); [lia|done|done|].
    setoid_rewrite Hcut. simpl. exists (c :: cs). split_and!; [done| |].
    + simpl. by rewrite <- app_assoc, Hcat.
    + constructor; [unfold zlen; lia|done].
Qed.
End boundaries.

Lemma Rabin_sizes n : 4 <= n < 2 ^ 62 →
  0 < min_size (Rabin_new n) ∧ min_size (Rabin_new n) <= max_size (Rabin_new n)
  ∧ max_size (Rabin_new n) = n * 4.
Proof.
  intros Hn. simpl. rewrite as_u64_small by lia.
  pose proof (Z.div_mod n 4). pose proof (Z.mod_pos_bound n 4). lia.
Qed.

(** Content-defined chunking cuts every nonempty file. *)
Lemma content_defined_cut n data :
  4 <= n < 2 ^ 62 → data ≠ [] →
  ∃ cs c, cut data 0 (find_boundaries (Rabin_new n) data) = Ok (cs ++ [c]) ∧ concat (cs ++ [c]) = data
    ∧ Forall (λ c, n / 4 <= zlen c <= n * 4) cs ∧ 1 <= zlen c <= n * 4.
Proof.
  intros Hn Hd. destruct (Rabin_sizes n Hn) as (H1 & H2 & H3).
  destruct (find_boundaries_spaced _ H1 H2 data Hd) as (bs & b & -> & Hs & Hb).
  destruct (cut_spaced _ H1 H2 data bs 0 b) as (cs & -> & Hcat & Hf); [lia|done|lia|].
  assert (0 <= b) by (by eapply spaced_le).
  exists cs, (drop (Z.to_nat b) data).
  split_and!; [done| |by rewrite <- H3|..].
  - by rewrite concat_app; simpl; rewrite app_nil_r.
  - unfold zlen in *. rewrite length_drop. lia.
  - unfold zlen in *. rewrite length_drop. lia.
Qed.

(** ** Runs of one byte *)

(** The rolling part of a round: hash, window and position. *)
Definition roll (r : RabinChunker) (byte : Z) (st : Z * list Z * nat) : Z * list Z * nat :=
  let '(h, w, p) := st in
  (Z.lxor (Z.lxor (rotate_left_1 h) (out_table r (nth p w 0))) (in_table byte),
   <[p := byte]> w, ((p + 1) mod window_size r)%nat).

Definition rolling (s : Scan) : Z * list Z * nat := (hash s, window s, window_pos s).

(** A round that finds no boundary. *)
Definition quiet (r : RabinChunker) (h dist : Z) : Prop :=
  dist < min_size r ∨ dist < max_size r ∧ Z.land h (mask r) ≠ 0.

Lemma scan_byte_quiet r i byte s :
  min_size r <= max_size r → quiet r (roll r byte (rolling s)).1.1 (i - last_boundary s) →
  rolling (scan_byte r i byte s) = roll r byte (rolling s) ∧
  boundaries (scan_byte r i byte s) = boundaries s ∧
  last_boundary (scan_byte r i byte s) = last_boundary s.
Proof.
  intros Hm Hq. unfold scan_byte. destruct (Z.leb_spec (min_size r) (i - last_boundary s)); [|done].
  destruct Hq as [?|[? Hq]]; [lia|]. rewrite (proj2 (Z.leb_gt _ _)) by done. simpl in Hq.
  by rewrite (proj2 (Z.eqb_neq _ _)).
Qed.

Lemma scan_quiet r byte n i s :
  min_size r <= max_size r →
  (∀ k, (k < n)%nat → quiet r (Nat.iter (S k) (roll r byte) (rolling s)).1.1
                        (i + Z.of_nat k - last_boundary s)) →
  rolling (scan r i (replicate n byte) s) = Nat.iter n (roll r byte) (rolling s) ∧
  boundaries (scan r i (replicate n byte) s) = boundaries s ∧
  last_boundary (scan r i (replicate n byte) s) = last_boundary s.
Proof.
  intros Hm. revert i s. induction n as [|n IH]; intros i s Hq; [done|]. simpl scan.
  destruct (scan_byte_quiet r i byte s Hm) as (H1 & H2 & H3).
  { replace i with (i + Z.of_nat 0) by lia. apply (Hq 0%nat). lia. }
  destruct (IH (i + 1) (scan_byte r i byte s)) as (IH1 & IH2 & IH3).
  { intros k Hk. rewrite H1, H3, <- Nat.iter_succ_r.
    replace (i + 1 + Z.of_nat k) with (i + Z.of_nat (S k)) by lia. apply Hq. lia. }
  rewrite IH1, IH2, IH3, H1, H2, H3. by rewrite <- Nat.iter_succ_r.
Qed.

(** On a run of one byte the window fills after 48 rounds, and then the hash has period 128. *)
Definition start_roll : Z * list Z * nat := (0, replicate 48 0, 0%nat).
Definition any_rabin : RabinChunker := Rabin_new 0.
Lemma roll_any t byte : roll (Rabin_new t) byte = roll any_rabin byte.
Proof. unfold roll, any_rabin, Rabin_new, out_table. cbn [window_size polynomial]. reflexivity. Qed.

Definition run_hash (out byte h : Z) : Z := Z.lxor (Z.lxor (rotate_left_1 h) out) byte.

(** The first [n] hashes from [h] on meet neither mask. *)
Fixpoint run_masked (n : nat) (out byte h : Z) : bool :=
  match n with
  | O => true
  | S n' =>
    negb (Z.land h (2 ^ 19 - 1) =? 0) && negb (Z.land h (2 ^ 20 - 1) =? 0)
    && run_masked n' out byte (run_hash out byte h)
  end.

Definition run_ok (byte : Z) : bool :=
  let '(h, w, p) := Nat.iter 48 (roll any_rabin byte) start_roll in
  let out := out_table any_rabin byte in
  bool_decide (w = replicate 48 byte) && Nat.eqb p 0
  && (Nat.iter 128 (run_hash out byte) h =? h) && run_masked 128 out byte h.

Lemma run_masked_spec n out byte h k bits :
  run_masked n out byte h = true → (k < n)%nat → bits = 19 ∨ bits = 20 →
  Z.land (Nat.iter k (run_hash out byte) h) (2 ^ bits - 1) ≠ 0.
Proof.
  revert h k. induction n as [|n IH]; intros h k Hr Hk Hbits; [lia|]. cbn [run_masked] in Hr.
  rewrite !andb_true_iff in Hr.
  destruct Hr as [[H1%negb_true_iff%Z.eqb_neq H2%negb_true_iff%Z.eqb_neq] Hr].
  destruct k as [|k]; [by destruct Hbits as [-> | ->]|].
  rewrite Nat.iter_succ_r. apply IH; [done|lia|done].
Qed.

(** Spaces, and the bytes of erased flash memory. *)
Definition filler (byte : Z) : Prop := byte = 0x20 ∨ byte = 0xff.

Lemma run_ok_filler byte : filler byte → run_ok byte = true.
Proof. intros [-> | ->]; vm_compute; reflexivity. Qed.

Lemma iter_period {A} (f : A → A) x p n : Nat.iter p f x = x → (p ≠ 0)%nat →
  Nat.iter n f x = Nat.iter (n mod p) f x.
Proof.
  intros Hp Hp0. assert (∀ q, Nat.iter (q * p) f x = x) as Hq.
  { induction q as [|q IH]; [done|]. cbn [Nat.mul]. by rewrite Nat.iter_add, IH. }
  pose proof (Nat.div_mod n p Hp0) as E. rewrite Nat.add_comm, Nat.mul_comm in E.
  trans (Nat.iter (n mod p + n / p * p) f x); [by rewrite <- E|]. by rewrite Nat.iter_add, Hq.
Qed.

Lemma roll_full byte n h p :
  (p < 48)%nat →
  ∃ p', Nat.iter n (roll any_rabin byte) (h, replicate 48 byte, p)
        = (Nat.iter n (run_hash (out_table any_rabin byte) byte) h, replicate 48 byte, p') ∧ (p' < 48)%nat.
Proof.
  intros Hp. induction n as [|n (p' & IH & Hp')]; [by exists p|].
  rewrite !Nat.iter_succ, IH. exists ((p' + 1) mod 48)%nat. split; [|by apply Nat.mod_upper_bound].
  unfold roll. change (replicate 48 byte) with (replicate 48 byte).
  rewrite list_insert_id by (by apply lookup_replicate_2).
  rewrite (nth_lookup_Some _ _ 0 byte) by (by apply lookup_replicate_2). done.
Qed.

Lemma run_hash_masked byte n bits :
  filler byte → (48 <= n)%nat → bits = 19 ∨ bits = 20 →
  Z.land (Nat.iter n (roll any_rabin byte) start_roll).1.1 (2 ^ bits - 1) ≠ 0.
Proof.
  intros Hb Hn Hbits.
  pose proof (run_ok_filler byte Hb) as Hok.
  unfold run_ok in Hok. replace n with (n - 48 + 48)%nat by lia. rewrite Nat.iter_add.
  destruct (Nat.iter 48 (roll any_rabin byte) start_roll) as [[h w] p].
  rewrite !andb_true_iff in Hok.
  destruct Hok as [[[->%bool_decide_eq_true ->%Nat.eqb_eq] Hper%Z.eqb_eq] Hall].
  destruct (roll_full byte (n - 48) h 0) as (p' & -> & _); [lia|]. simpl fst.
  rewrite (iter_period _ _ 128) by done. eapply run_masked_spec; [done| |done].
  by apply Nat.mod_upper_bound.
Qed.

Lemma scan_app r i l1 l2 s :
  scan r i (l1 ++ l2) s = scan r (i + zlen l1) l2 (scan r i l1 s).
Proof.
  revert i s. induction l1 as [|b l1 IH]; intros i s; simpl; [unfold zlen; simpl; f_equal; lia|].
  rewrite IH. f_equal. unfold zlen. simpl. lia.
Qed.

Lemma scan_extends r i l s : ∃ bs, boundaries (scan r i l s) = boundaries s ++ bs.
Proof.
  revert i s. induction l as [|b l IH]; intros i s; simpl; [exists []; by rewrite app_nil_r|].
  destruct (IH (i + 1) (scan_byte r i b s)) as [bs ->].
  assert (∃ bs', boundaries (scan_byte r i b s) = boundaries s ++ bs') as [bs' ->].
  { unfold scan_byte. repeat case_match; simpl; eauto; exists []; by rewrite app_nil_r. }
  rewrite <- app_assoc. eauto.
Qed.

(** So a content-defined file of fillers is first cut at the maximum chunk size. *)
Lemma filler_first_boundary t byte n :
  filler byte → 2 ^ 19 <= t <= 2 ^ 20 → 0 < n →
  ∃ bs, find_boundaries (Rabin_new t) (replicate (Z.to_nat n) byte) = Z.min n (t * 4) :: bs.
Proof.
  intros Hf Ht Hn. set (r := Rabin_new t). destruct (Rabin_sizes t) as (Hmin & Hmm & Hmax); [lia|].
  fold r in Hmin, Hmm, Hmax.
  assert (2 ^ 17 <= min_size r) as Hmin17.
  { unfold r, Rabin_new. cbn [min_size]. 
    pose proof (Z.div_le_mono (2 ^ 19) t 4 ltac:(lia) ltac:(lia)) as Hd. exact Hd. }
  assert (mask r = 2 ^ 19 - 1 ∨ mask r = 2 ^ 20 - 1) as Hmask.
  { unfold r, Rabin_new. cbn [mask]. rewrite Z.shiftl_1_l.
    pose proof (Z.log2_le_mono (2 ^ 19) t ltac:(lia)). pose proof (Z.log2_le_mono t (2 ^ 20) ltac:(lia)).
    rewrite !Z.log2_pow2 in * by lia.
    assert (Z.log2 t = 19 ∨ Z.log2 t = 20) as [-> | ->] by lia; auto. }
  unfold find_boundaries. unfold zlen. rewrite length_replicate, Z2Nat.id by lia.
  destruct (Z.leb_spec n (min_size r)); [exists []; f_equal; lia|].
  set (s0 := mkScan [] 0 (replicate (window_size r) 0) 0 0).
  assert (∀ m, (Z.of_nat m <= t * 4) →
    boundaries (scan r 0 (replicate m byte) s0) = [] ∧ last_boundary (scan r 0 (replicate m byte) s0) = 0) as Hq.
  { intros m Hm. destruct (scan_quiet r byte m 0 s0 Hmm) as (_ & -> & ->); [|done].
    intros k Hk. change (rolling s0) with start_roll. unfold r. rewrite roll_any. fold r.
    unfold quiet. simpl last_boundary. destruct (decide (k < 48)%nat); [left; lia|].
    right. split; [lia|].
    destruct Hmask as [-> | ->].
    - apply (run_hash_masked byte (S k) 19); [done|lia|by left].
    - apply (run_hash_masked byte (S k) 20); [done|lia|by right]. }
  destruct (Z.le_gt_cases n (t * 4)).
  - destruct (Hq (Z.to_nat n)) as [-> ->]; [lia|].
    rewrite (proj2 (Z.ltb_lt 0 n)) by lia. exists []. by rewrite Z.min_l.
  - destruct (Hq (Z.to_nat (t * 4))) as [Hbs Hl]; [lia|].
    replace (Z.to_nat n) with (Z.to_nat (t * 4) + S (Z.to_nat (n - t * 4 - 1)))%nat by lia.
    rewrite replicate_add, scan_app. simpl replicate. simpl scan. set (s1 := scan r 0 _ s0) in *.
    assert (boundaries (scan_byte r (0 + zlen (replicate (Z.to_nat (t * 4)) byte)) byte s1) = [t * 4]) as Hb1.
    { unfold scan_byte, zlen. rewrite length_replicate, Z2Nat.id, Hl, Hbs by lia. rewrite Z.add_0_l, Z.sub_0_r.
      by rewrite (proj2 (Z.leb_le _ _)), (proj2 (Z.leb_le _ _)) by lia. }
    match goal with |- context [scan r ?i ?l ?s] => destruct (scan_extends r i l s) as [bs Hbs'] end.
    rewrite Hbs', Hb1, Z.min_r by lia. case_match; simpl; eauto.
Qed.
