(* ===== verification/ChunkingFacts.v ===== *)
(** * Properties of chunking

    The blocks of a chunked file are those of an abstract tree: [ftree] is the tree, [tree_block]
    the block of a node, [content] the bytes below it.  [chunk] builds a balanced tree over the
    pieces of the file. *)

From Stdlib Require Import ZArith Lia List.
From stdpp Require Import base tactics numbers list gmap sets strings.
From S2P Require Import Prelude Collections Cid CidFacts Ipld IpldFacts Block BlockFacts Chunking RabinFacts.

#[local] Open Scope Z_scope.

(** ** The encoder adds at least one byte per value, well-formed or not *)
Section growth.
Context `{CidCrate}.

Lemma encode_cbor_length_grows mt n buffer :
  (length buffer < length (encode_cbor_length mt n buffer))%nat.
Proof.
  unfold encode_cbor_length. repeat case_match; rewrite !length_app; simpl; lia.
Qed.

Lemma encode_grows i buffer b :
  encode_dag_cbor i buffer = Ok b → (length buffer < length b)%nat.
Proof.
  revert buffer b. induction i as [|v|n|f|s|v|l IH|m IH|c] using ipld_ind'; intros buffer b; simpl;
    try (intros [= <-]; rewrite !length_app; simpl; lia).
  - unfold encode_cbor_integer. case_match; intros [= <-]; apply encode_cbor_length_grows.
  - intros [= <-]. rewrite length_app. pose proof (encode_cbor_length_grows 3 (zlen (string_bytes s)) buffer). lia.
  - intros [= <-]. rewrite length_app. pose proof (encode_cbor_length_grows 2 (zlen v) buffer). lia.
  - pose proof (encode_cbor_length_grows 4 (zlen l) buffer) as Hg. revert Hg.
    generalize (encode_cbor_length 4 (zlen l) buffer). induction IH as [|x l Hx _ IHl]; intros b' Hg.
    + by intros [= <-].
    + intros Hb. inv_outcome. apply Hx in H0. eapply IHl; [|done]. lia.
  - pose proof (encode_cbor_length_grows 5 (zlen m) buffer) as Hg. revert Hg.
    generalize (encode_cbor_length 5 (zlen m) buffer). induction IH as [|[k x] m Hx _ IHm]; intros b' Hg.
    + by intros [= <-].
    + intros Hb. inv_outcome. apply Hx in H0. eapply IHm; [|done].
      pose proof (encode_cbor_length_grows 3 (zlen (string_bytes k)) b').
      rewrite length_app in H0. lia.
  - intros [= <-]. rewrite length_app. unfold encode_cbor_tag.
    pose proof (encode_cbor_length_grows 6 CID_TAG buffer) as H1.
    pose proof (encode_cbor_length_grows 2 (zlen (0 :: Cid_to_bytes c)) (encode_cbor_length 6 CID_TAG buffer)). lia.
Qed.

Lemma encode_list_grows l buffer b :
  encode_dag_cbor (IList l) buffer = Ok b → (length buffer + length l < length b)%nat.
Proof.
  simpl. pose proof (encode_cbor_length_grows 4 (zlen l) buffer) as Hg. revert Hg.
  generalize (encode_cbor_length 4 (zlen l) buffer). intros b' Hg Hb.
  cut (length b' + length l <= length b)%nat; [lia|]. clear Hg. revert b' Hb.
  induction l as [|x l IHl]; intros b'; [intros [= <-]; simpl; lia|]. intros Hb. inv_outcome.
  apply encode_grows in H0. apply IHl in H1. simpl. lia.
Qed.

Lemma encode_map_list_grows m k l buffer b :
  encode_dag_cbor (IMap m) buffer = Ok b → (k, IList l) ∈ m → (length l < length b)%nat.
Proof.
  simpl. generalize (encode_cbor_length 5 (zlen m) buffer). intros b' Hb Hin. revert b' Hb.
  assert (∀ m' b', (fix go (m : list (string * ipld)) (buffer : bytes) : outcome Error bytes :=
       match m with
       | [] => Ok buffer
       | (key, value) :: m' =>
         let! buffer := encode_dag_cbor value
           (encode_cbor_length 3 (zlen (string_bytes key)) buffer ++ string_bytes key) in go m' buffer
       end) m' b' = Ok b → (length b' <= length b)%nat) as Hgrow.
  { induction m' as [|[k' v] m' IH]; intros b'; [by intros [= <-]|]. intros Hb. inv_outcome.
    apply encode_grows in H0. apply IH in H1. rewrite length_app in H0.
    pose proof (encode_cbor_length_grows 3 (zlen (string_bytes k')) b'). lia. }
  induction m as [|[k' v] m IH]; intros b' Hb; [by apply elem_of_nil in Hin|]. inv_outcome.
  apply elem_of_cons in Hin as [[= <- <-] | Hin]; [|by eapply IH].
  apply encode_list_grows in H0. apply Hgrow in H1. lia.
Qed.
End growth.

(** ** Trees *)
Inductive ftree : Type :=
| Chunk (d : bytes)
| Node (ts : list ftree).

Lemma ftree_ind' (P : ftree → Prop) :
  (∀ d, P (Chunk d)) → (∀ ts, Forall P ts → P (Node ts)) → ∀ t, P t.
Proof.
  intros Hc Hn. fix IH 1. intros [d|ts]; [apply Hc|]. apply Hn. induction ts; constructor; auto.
Qed.

Fixpoint leaves (t : ftree) : list bytes :=
  match t with
  | Chunk d => [d]
  | Node ts => flat_map leaves ts
  end.
Definition content (t : ftree) : bytes := concat (leaves t).
Definition forest_content (ts : list ftree) : bytes := concat (flat_map leaves ts).

(** The inner nodes, counted with repetition. *)
Fixpoint nodes (t : ftree) : nat :=
  match t with
  | Chunk _ => 0
  | Node ts => S (list_sum (map nodes ts))
  end.

(** All the leaves at depth [h]. *)
Fixpoint balanced (h : nat) (t : ftree) : Prop :=
  match h, t with
  | O, Chunk _ => True
  | S h', Node ts => foldr (λ t P, balanced h' t ∧ P) True ts
  | _, _ => False
  end.

Lemma balanced_node h ts : balanced (S h) (Node ts) ↔ Forall (balanced h) ts.
Proof. simpl. by rewrite (foldr_and_Forall (balanced h)). Qed.

Lemma content_node ts : content (Node ts) = forest_content ts.
Proof. done. Qed.
Lemma forest_content_cons t ts : forest_content (t :: ts) = content t ++ forest_content ts.
Proof. unfold forest_content, content. simpl. by rewrite concat_app. Qed.
Lemma forest_content_app ts1 ts2 :
  forest_content (ts1 ++ ts2) = forest_content ts1 ++ forest_content ts2.
Proof. unfold forest_content. by rewrite flat_map_app, concat_app. Qed.
Lemma forest_content_nodes groups :
  forest_content (map Node groups) = forest_content (concat groups).
Proof.
  induction groups as [|g groups IH]; [done|]. simpl.
  by rewrite forest_content_cons, forest_content_app, content_node, IH.
Qed.
Lemma flat_map_leaves_nodes groups :
  flat_map leaves (map Node groups) = flat_map leaves (concat groups).
Proof.
  induction groups as [|g groups IH]; [done|]. simpl. by rewrite flat_map_app, IH.
Qed.

Section trees.
Context `{CidCrate}.

(** The CID of a tree, that is, of its root block; the links and nodes are those the code makes. *)
Fixpoint tree_cid (t : ftree) : Cid :=
  match t with
  | Chunk d => raw_cid d
  | Node ts =>
    cbor_cid (cbor (DagNode_to_ipld (intermediate
      (map (λ t, DagLink_new (tree_cid t) (zlen (content t))) ts))))
  end.
Definition tree_link (t : ftree) : DagLink := DagLink_new (tree_cid t) (zlen (content t)).
Definition node_ipld (ts : list ftree) : ipld := DagNode_to_ipld (intermediate (map tree_link ts)).
Definition tree_block (t : ftree) : Block :=
  mkBlock (tree_cid t) (match t with Chunk d => d | Node ts => cbor (node_ipld ts) end).

(** The blocks of the inner nodes below, and of all nodes. *)
Fixpoint subtrees (t : ftree) : list ftree :=
  t :: match t with Chunk _ => [] | Node ts => flat_map subtrees ts end.

Lemma tree_cid_node ts : tree_cid (Node ts) = cbor_cid (cbor (node_ipld ts)).
Proof. done. Qed.
End trees.

(** ** [<[T]>::chunks] *)
Section slices.
Context {A : Type}.
Implicit Types l : list A.

Lemma concat_chunks_loop fuel n l :
  (0 < n)%nat → (length l <= fuel)%nat → concat (chunks_loop fuel n l) = l.
Proof.
  intros Hn. revert l. induction fuel as [|fuel IH]; intros [|x l] Hl; simpl; try done.
  { simpl in Hl. lia. }
  destruct n as [|n]; [lia|]. simpl. f_equal.
  rewrite IH by (rewrite length_drop; simpl in Hl; lia). apply take_drop.
Qed.

Lemma chunks_loop_sizes fuel n l :
  (0 < n)%nat → Forall (λ c, 1 <= length c <= n)%nat (chunks_loop fuel n l).
Proof.
  intros Hn. revert l. induction fuel as [|fuel IH]; intros [|x l]; simpl; constructor; auto.
  rewrite length_take. simpl. lia.
Qed.

(** The number of chunks, at least the length divided by their size. *)
Lemma length_chunks_loop fuel n l :
  (0 < n)%nat → (length l <= fuel)%nat →
  (length l <= n * length (chunks_loop fuel n l))%nat ∧
  (n * length (chunks_loop fuel n l) < length l + n)%nat.
Proof.
  intros Hn. revert l. induction fuel as [|fuel IH]; intros [|x l] Hl; simpl; try (simpl in Hl; lia).
  destruct (IH (drop n (x :: l))) as [H1 H2]; [rewrite length_drop; simpl in *; lia|].
  rewrite length_drop in H1, H2. simpl length in *. rewrite Nat.mul_succ_r.
  destruct (decide (S (length l) < n)%nat) as [Hlt|]; [|lia].
  rewrite drop_ge by (simpl; lia). destruct fuel; simpl; lia.
Qed.

Lemma chunks_loop_map {B} (f : A → B) fuel n l :
  chunks_loop fuel n (map f l) = map (map f) (chunks_loop fuel n l).
Proof.
  revert l. induction fuel as [|fuel IH]; intros [|x l]; simpl; try done.
  change (f x :: map f l) with (map f (x :: l)). rewrite firstn_map, skipn_map. by rewrite IH.
Qed.

Lemma chunks_Ok {E} n l (gs : list (list A)) : chunks (E := E) n l = Ok gs → 0 <= n →
  concat gs = l ∧ Forall (λ g, 1 <= length g <= Z.to_nat n)%nat gs ∧ gs = chunks_loop (length l) (Z.to_nat n) l.
Proof.
  unfold chunks. destruct (Z.eqb_spec n 0); [done|]. intros [= <-] ?.
  split_and!; [by apply concat_chunks_loop; lia | by apply chunks_loop_sizes; lia | done].
Qed.
Lemma chunks_pos {E} n l : 0 < n →
  chunks (E := E) n l = Ok (chunks_loop (length l) (Z.to_nat n) l).
Proof. unfold chunks. by destruct (Z.eqb_spec n 0); [lia|]. Qed.
Lemma chunks_map {E B} (f : A → B) n l gs :
  chunks (E := E) n (map f l) = Ok gs → ∃ gs', chunks (E := E) n l = Ok gs' ∧ gs = map (map f) gs'.
Proof.
  unfold chunks. case_match; [done|]. intros [= <-]. eexists. split; [done|].
  by rewrite length_map, chunks_loop_map.
Qed.
End slices.

(** ** Nodes *)
Section levels.
Context `{CidCrate} `{!CidLaws}.
Implicit Types ts : list ftree.

Lemma link_ipld_tree t :
  link_ipld (tree_link t) = IMap [("cid", ILink (tree_cid t)); ("size", IInteger (zlen (content t)))]%string.
Proof. done. Qed.

Lemma foldl_sizes ts acc :
  0 <= acc → acc + zlen (forest_content ts) < 2 ^ 64 →
  foldl (λ n l, as_u64 (n + dl_size l)) acc (map tree_link ts) = acc + zlen (forest_content ts).
Proof using Type*.
  revert acc. induction ts as [|t ts IH]; intros acc Hacc Hb; simpl; [unfold zlen; simpl; lia|].
  rewrite forest_content_cons, zlen_app in *.
  pose proof (zlen_nonneg (content t)). pose proof (zlen_nonneg (forest_content ts)).
  rewrite as_u64_small by lia. rewrite IH by lia. lia.
Qed.

Lemma node_ipld_eq ts :
  zlen (forest_content ts) <= isize_max →
  node_ipld ts = IMap [("links", IList (map (λ t, link_ipld (tree_link t)) ts));
                       ("totalSize", IInteger (zlen (forest_content ts)))]%string.
Proof using Type*.
  intros Hs. unfold node_ipld, DagNode_to_ipld, intermediate. cbn [dn_links total_size dn_data].
  rewrite foldl_sizes by (unfold isize_max in *; lia). rewrite map_map. done.
Qed.

Lemma tree_cid_wf t : wf_ipld (ILink (tree_cid t)).
Proof using Type*.
  simpl. split; [|apply Cid_try_from_to_bytes].
  pose proof (Cid_to_bytes_bound (tree_cid t)). unfold zlen, isize_max. lia.
Qed.

Lemma content_le_forest t ts : t ∈ ts → zlen (content t) <= zlen (forest_content ts).
Proof.
  intros Ht. induction ts as [|t' ts IH]; [by apply elem_of_nil in Ht|].
  rewrite forest_content_cons, zlen_app. apply elem_of_cons in Ht as [-> | Ht%IH]; unfold zlen in *; lia.
Qed.

Lemma node_ipld_wf ts :
  zlen (forest_content ts) <= isize_max → zlen ts * ipld_size <= isize_max → wf_ipld (node_ipld ts).
Proof using Type*.
  intros Hs Hl. rewrite node_ipld_eq by done. pose proof ipld_size_bound. pose proof (zlen_nonneg ts).
  pose proof (zlen_nonneg (forest_content ts)).
  assert (zlen (map (λ t, link_ipld (tree_link t)) ts) = zlen ts) as El.
  { unfold zlen. by rewrite length_map. }
  assert (Forall wf_ipld (map (λ t, link_ipld (tree_link t)) ts)) as Hall.
  { apply Forall_forall. intros i (t & <- & Ht%list_elem_of_In)%list_elem_of_In%in_map_iff.
    pose proof (content_le_forest t ts Ht). pose proof (zlen_nonneg (content t)).
    rewrite link_ipld_tree. cbn [wf_ipld foldr fst snd].
    split_and!; try (by apply str_okb_ok); try (by apply tree_cid_wf); try done;
      try (unfold isize_max in *; lia). repeat constructor. }
  cbn [wf_ipld foldr fst snd]. rewrite El.
  split_and!; try (by apply str_okb_ok); try done; try (by apply foldr_and_Forall);
    try (unfold isize_max in *; nia). repeat constructor.
Qed.

(** A node that fits a block has few links. *)
Lemma node_bytes_links ts b :
  DagNode_to_dag_cbor (intermediate (map tree_link ts)) = Ok b → zlen (forest_content ts) <= isize_max →
  zlen b <= MAX_BLOCK_SIZE → zlen ts * ipld_size <= isize_max.
Proof using Type*.
  intros Hb Hs Hl. pose proof ipld_size_bound. unfold DagNode_to_dag_cbor, to_dag_cbor in Hb.
  change (DagNode_to_ipld _) with (node_ipld ts) in Hb. rewrite node_ipld_eq in Hb by done.
  eapply encode_map_list_grows in Hb; [|apply list_elem_of_here].
  rewrite length_map in Hb. unfold zlen, MAX_BLOCK_SIZE, isize_max in *. nia.
Qed.

Lemma dag_cbor_block_eq b :
  dag_cbor_block b = if decide (block_sized b) then Ok (mkBlock (cbor_cid b) b) else Err InvalidData.
Proof using Type*. by apply builder_build_v1. Qed.

Lemma node_bytes_eq ts :
  zlen (forest_content ts) <= isize_max → zlen ts * ipld_size <= isize_max →
  DagNode_to_dag_cbor (intermediate (map tree_link ts)) = Ok (cbor (node_ipld ts)).
Proof using Type*. intros. by apply to_dag_cbor_cbor, node_ipld_wf. Qed.

Lemma forest_content_concat_le (g : list ftree) groups :
  g ∈ groups → zlen (forest_content g) <= zlen (forest_content (concat groups)).
Proof.
  intros Hg. induction groups as [|g' groups IH]; [by apply elem_of_nil in Hg|]. simpl.
  rewrite forest_content_app, zlen_app.
  apply elem_of_cons in Hg as [-> | Hg%IH]; unfold zlen in *; lia.
Qed.

Lemma intermediate_total ts :
  zlen (forest_content ts) <= isize_max →
  total_size (intermediate (map tree_link ts)) = zlen (content (Node ts)).
Proof using Type*. intros. simpl. rewrite foldl_sizes by (unfold isize_max in *; lia). done. Qed.

(** One level, when it succeeds: the links and blocks of the parent nodes, whose children fit
    in memory. *)
Lemma node_blocks_spec groups links blocks :
  node_blocks (map (map tree_link) groups) = Ok (links, blocks) →
  zlen (forest_content (concat groups)) <= isize_max →
  links = map tree_link (map Node groups) ∧ blocks = map tree_block (map Node groups) ∧
  Forall (λ g, zlen g * ipld_size <= isize_max) groups.
Proof using Type*.
  revert links blocks. induction groups as [|g groups IH]; intros links blocks Hb Hs; cbn [map node_blocks] in Hb.
  { by simplify_eq. }
  simpl in Hs. rewrite forest_content_app, zlen_app in Hs.
  pose proof (zlen_nonneg (forest_content g)). pose proof (zlen_nonneg (forest_content (concat groups))).
  inv_outcome. destruct (Z.ltb_spec MAX_BLOCK_SIZE (zlen x)) as [|Hx]; [done|]. inv_outcome.
  assert (zlen g * ipld_size <= isize_max) as Hg by (eapply node_bytes_links; [done|lia|done]).
  match goal with H : DagNode_to_dag_cbor _ = Ok _ |- _ => rewrite node_bytes_eq in H by (done || lia) end.
  assert (x = cbor (node_ipld g)) as -> by congruence.
  match goal with H : dag_cbor_block _ = Ok _ |- _ => rewrite dag_cbor_block_eq in H end.
  case_decide; [|done]. assert (x0 = tree_block (Node g)) as ->.
  { change (tree_block (Node g)) with (mkBlock (cbor_cid (cbor (node_ipld g))) (cbor (node_ipld g))).
    congruence. }
  destruct x1 as [ls bs].
  match goal with H : node_blocks _ = Ok _ |- _ => apply IH in H as (-> & -> & Hall); [|lia] end.
  rewrite (intermediate_total g) in * by lia. cbn [map].
  change (tree_link (Node g)) with (DagLink_new (b_cid (tree_block (Node g))) (zlen (content (Node g)))).
  split_and!; [congruence..|by constructor].
Qed.

Lemma node_blocks_total groups :
  zlen (forest_content (concat groups)) <= isize_max →
  Forall (λ g, zlen g * ipld_size <= isize_max ∧ zlen (cbor (node_ipld g)) <= MAX_BLOCK_SIZE) groups →
  node_blocks (map (map tree_link) groups)
  = Ok (map tree_link (map Node groups), map tree_block (map Node groups)).
Proof using Type*.
  intros Hs Hall. induction Hall as [|g groups [Hg Hc] _ IH]; [done|].
  cbn [map concat node_blocks] in Hs |- *.
  rewrite forest_content_app, zlen_app in Hs.
  pose proof (zlen_nonneg (forest_content g)). pose proof (zlen_nonneg (forest_content (concat groups))).
  rewrite node_bytes_eq by (done || lia). cbn [outcome_bind].
  rewrite (proj2 (Z.ltb_ge _ _)) by done. rewrite dag_cbor_block_eq.
  pose proof (cbor_nonempty (node_ipld g)). rewrite decide_True
    by (unfold block_sized, MIN_BLOCK_SIZE, zlen in *; lia). cbn [outcome_bind].
  rewrite IH by lia. cbn [outcome_bind]. by rewrite intermediate_total by lia.
Qed.

(** *** From one level to the root *)

(** A node small enough to be decoded. *)
Definition fits (t : ftree) : Prop :=
  match t with Node ts => zlen ts * ipld_size <= isize_max | Chunk _ => True end.

(** [ts'] is a forest over [ts] whose new nodes are the blocks [new]. *)
Definition grown (ts ts' : list ftree) (new : list Block) : Prop :=
  flat_map leaves ts' = flat_map leaves ts ∧
  list_sum (map nodes ts') = (list_sum (map nodes ts) + length new)%nat ∧
  ∀ s, s ∈ flat_map subtrees ts' → s ∈ flat_map subtrees ts ∨ tree_block s ∈ new ∧ fits s.

Lemma grown_refl ts : grown ts ts [].
Proof. split_and!; [done|simpl; lia|auto]. Qed.

Lemma grown_trans ts1 ts2 ts3 new1 new2 :
  grown ts1 ts2 new1 → grown ts2 ts3 new2 → grown ts1 ts3 (new1 ++ new2).
Proof.
  intros (Hl1 & Hn1 & Hs1) (Hl2 & Hn2 & Hs2). split_and!; [congruence|rewrite length_app; lia|].
  intros s [Hs|[Hs Hf]]%Hs2; [|right; split; [set_solver|done]].
  apply Hs1 in Hs as [|[]]; [by left|right; split; [set_solver|done]].
Qed.

Lemma subtrees_nodes s groups :
  s ∈ flat_map subtrees (map Node groups) →
  s ∈ flat_map subtrees (concat groups) ∨ ∃ g, g ∈ groups ∧ s = Node g.
Proof.
  induction groups as [|g groups IH]; [by intros ?%elem_of_nil|].
  cbn [map flat_map subtrees concat]. rewrite flat_map_app. rewrite elem_of_app, elem_of_cons.
  intros [[->|Hs]|Hs].
  - right. exists g. split; [apply list_elem_of_here|done].
  - left. apply elem_of_app. by left.
  - apply IH in Hs as [Hs|(g' & Hg & ->)]; [left; apply elem_of_app; by right|].
    right. exists g'. split; [by apply list_elem_of_further|done].
Qed.

Lemma grown_level ts groups :
  concat groups = ts → Forall (λ g, zlen g * ipld_size <= isize_max) groups →
  grown ts (map Node groups) (map tree_block (map Node groups)).
Proof.
  intros <- Hf. split_and!.
  - apply flat_map_leaves_nodes.
  - rewrite !length_map. clear. induction groups as [|g groups IH]; [done|].
    cbn [map concat list_sum foldr nodes length]. rewrite map_app, list_sum_app. unfold list_sum in *. lia.
  - intros s [Hs|(g & Hg & ->)]%subtrees_nodes; [by left|right]. split.
    + apply list_elem_of_In, in_map, in_map, list_elem_of_In, Hg.
    + rewrite Forall_forall in Hf. by apply Hf.
Qed.

Lemma build_levels_spec fuel m h ts bs top bs' :
  0 <= m → build_levels fuel m (map tree_link ts) bs = Ok (top, bs') →
  Forall (balanced h) ts → zlen (forest_content ts) <= isize_max → ts ≠ [] →
  ∃ t h' new, top = [tree_link t] ∧ bs' = bs ++ new ∧ balanced h' t ∧ grown ts [t] new.
Proof using Type*.
  intros Hm. revert h ts bs. induction fuel as [|fuel IH]; intros h ts bs Hb Hbal Hs Hne;
    cbn [build_levels] in Hb; rewrite length_map in Hb;
    destruct (Nat.leb_spec (length ts) 1) as [Hle|Hgt]; try done.
  1, 2: destruct ts as [|t [|t' ts]]; simpl in Hle; [done| |lia];
    exists t, h, []; apply Forall_cons in Hbal as [? _];
    split_and!; [by simplify_eq|by rewrite app_nil_r; simplify_eq|done|apply grown_refl].
  apply outcome_bind_Ok in Hb as (gs & Hgs & Hb). apply outcome_bind_Ok in Hb as ([ls bl] & Hnb & Hb).
  apply chunks_map in Hgs as (groups & Hgs & ->). apply chunks_Ok in Hgs as (<- & Hsz & _); [|done].
  apply node_blocks_spec in Hnb as (-> & -> & Hf); [|done].
  apply (IH (S h)) in Hb as (t & h' & new & -> & -> & Hbt & Hg).
  - eexists t, h', (_ ++ new). split_and!; [done|by rewrite app_assoc|done|].
    eapply grown_trans; [|done]. by apply grown_level.
  - apply Forall_forall. intros ? (g & <- & Hg%list_elem_of_In)%list_elem_of_In%in_map_iff.
    apply balanced_node. apply Forall_forall. intros t Ht. rewrite Forall_forall in Hbal. apply Hbal.
    apply list_elem_of_In, in_concat. exists g. by rewrite <- !list_elem_of_In.
  - by rewrite forest_content_nodes.
  - destruct groups; [by simpl in Hgt; lia|done].
Qed.

(** *** The leaves *)
Lemma tree_link_chunk d : tree_link (Chunk d) = DagLink_new (raw_cid d) (zlen d).
Proof. unfold tree_link, content. simpl. by rewrite app_nil_r. Qed.

Lemma leaf_blocks_spec cs seen bs ls seen' :
  leaf_blocks cs seen = Ok (bs, ls, seen') →
  bs = map tree_block (map Chunk cs) ∧ ls = map tree_link (map Chunk cs) ∧ Forall block_sized cs.
Proof using Type*.
  revert seen bs ls seen'. induction cs as [|c cs IH]; intros seen bs ls seen' Hb; cbn [leaf_blocks] in Hb.
  { by simplify_eq. }
  rewrite Block_new_eq in Hb. case_decide; [|done]. cbn [outcome_bind b_cid] in Hb.
  apply outcome_bind_Ok in Hb as ([[bs' ls'] s'] & Hb & E). apply IH in Hb as (-> & -> & Hf).
  cbn [map]. rewrite tree_link_chunk. change (tree_block (Chunk c)) with (mkBlock (raw_cid c) c).
  split_and!; [congruence..|by constructor].
Qed.

Lemma leaf_blocks_total cs seen :
  Forall block_sized cs →
  ∃ seen', leaf_blocks cs seen = Ok (map tree_block (map Chunk cs), map tree_link (map Chunk cs), seen').
Proof using Type*.
  intros Hf. revert seen. induction Hf as [|c cs Hc _ IH]; intros seen; [by eexists|].
  cbn [leaf_blocks map]. rewrite Block_new_eq, decide_True by done. cbn [outcome_bind b_cid].
  match goal with |- context [leaf_blocks cs ?s] => destruct (IH s) as [seen' ->] end.
  eexists. cbn [outcome_bind]. by rewrite tree_link_chunk.
Qed.

(** The first piece of a wrong size is an error. *)
Lemma leaf_blocks_error cs seen :
  ¬ Forall block_sized cs → leaf_blocks cs seen = Err InvalidData.
Proof using Type*.
  revert seen. induction cs as [|c cs IH]; intros seen Hf; [by destruct Hf|]. cbn [leaf_blocks].
  rewrite Block_new_eq. case_decide; [|done]. cbn [outcome_bind]. rewrite IH; [done|].
  intros ?. apply Hf. by constructor.
Qed.

Lemma forest_content_chunks cs : forest_content (map Chunk cs) = concat cs.
Proof. unfold forest_content. f_equal. induction cs; simpl; by f_equal. Qed.
End levels.

(** ** The size of a node *)
Section node_size.
Context `{CidCrate} `{!CidLaws} `{!Sha256CidSize}.

Lemma cbor_head_short m a : (length (cbor_head m a) <= 9)%nat.
Proof. unfold cbor_head. repeat case_match; simpl; rewrite ?length_be_bytes; lia. Qed.

Lemma tree_cid_short t : (length (Cid_to_bytes (tree_cid t)) <= 36)%nat.
Proof using Type*.
  destruct t; simpl; unfold raw_cid, cbor_cid;
    match goal with |- context [Cid_new_v1 ?k (digest _ ?d)] =>
      pose proof (sha256_cid_size k d); lia end.
Qed.

Lemma length_cbor_link t :
  0 <= zlen (content t) → (length (cbor (link_ipld (tree_link t))) <= 98)%nat.
Proof using Type*.
  intros Hs. rewrite link_ipld_tree. pose proof (tree_cid_short t) as Hc.
  cbn [cbor map concat fst snd]. rewrite (proj2 (Z.leb_le _ _)) by done.
  rewrite !length_app. cbn [length].
  repeat match goal with |- context [length (cbor_head ?m ?a)] =>
    pose proof (cbor_head_short m a); generalize dependent (length (cbor_head m a)); intros end.
  change (length (string_bytes "cid")) with 3%nat. change (length (string_bytes "size")) with 4%nat. lia.
Qed.

Lemma length_cbor_node ts :
  zlen (forest_content ts) <= isize_max → (length (cbor (node_ipld ts)) <= 59 + 98 * length ts)%nat.
Proof using Type*.
  intros Hs. rewrite node_ipld_eq by done. pose proof (zlen_nonneg (forest_content ts)).
  assert (length (concat (map cbor (map (λ t, link_ipld (tree_link t)) ts))) <= 98 * length ts)%nat as Hl.
  { clear -H0 H1. induction ts as [|t ts IH]; [done|]. cbn [map concat length]. rewrite length_app.
    pose proof (length_cbor_link t (zlen_nonneg _)). lia. }
  cbn [cbor map concat fst snd]. rewrite (proj2 (Z.leb_le _ _)) by done.
  rewrite !length_app. cbn [length].
  repeat match goal with |- context [length (cbor_head ?m ?a)] =>
    pose proof (cbor_head_short m a); generalize dependent (length (cbor_head m a)); intros end.
  change (length (string_bytes "links")) with 5%nat. change (length (string_bytes "totalSize")) with 9%nat. lia.
Qed.

(** So every group of links makes a node. *)
Lemma small_node g m :
  (length g <= m)%nat → (Z.of_nat m <= 20000) → zlen (forest_content g) <= isize_max →
  zlen g * ipld_size <= isize_max ∧ zlen (cbor (node_ipld g)) <= MAX_BLOCK_SIZE.
Proof using Type*.
  intros Hg Hm Hs. pose proof ipld_size_bound. pose proof (length_cbor_node g Hs).
  unfold zlen, isize_max, MAX_BLOCK_SIZE in *. nia.
Qed.

Lemma level_total m ts :
  0 < m <= 20000 → zlen (forest_content ts) <= isize_max →
  ∃ groups, chunks (E := Error) m (map tree_link ts) = Ok (map (map tree_link) groups) ∧ concat groups = ts
    ∧ node_blocks (map (map tree_link) groups)
      = Ok (map tree_link (map Node groups), map tree_block (map Node groups))
    ∧ groups = chunks_loop (length ts) (Z.to_nat m) ts.
Proof using Type*.
  intros Hm Hs. pose proof (chunks_pos (E := Error) m ts ltac:(lia)) as Hc.
  pose proof Hc as (Hcat & Hsz & _)%chunks_Ok; [|lia].
  eexists. split_and!; [|done| |done].
  - rewrite chunks_pos by lia. by rewrite length_map, chunks_loop_map.
  - apply node_blocks_total; [by rewrite Hcat|]. rewrite Forall_forall in Hsz |- *. intros g Hg.
    eapply (small_node g (Z.to_nat m)); [by apply Hsz|lia|].
    pose proof (forest_content_concat_le g _ Hg) as Hle. rewrite Hcat in Hle. lia.
Qed.

Lemma build_levels_total fuel m ts bs :
  2 <= m <= 20000 → zlen (forest_content ts) <= isize_max → (length ts <= fuel)%nat →
  ∃ r, build_levels fuel m (map tree_link ts) bs = Ok r.
Proof using Type*.
  intros Hm. revert ts bs. induction fuel as [|fuel IH]; intros ts bs Hs Hl; cbn [build_levels];
    rewrite length_map; destruct (Nat.leb_spec (length ts) 1); eauto; [lia|].
  destruct (level_total m ts ltac:(lia) Hs) as (groups & Hc & Hcat & Hn & Hg).
  rewrite Hc. cbn [outcome_bind]. rewrite Hn. cbn [outcome_bind]. apply IH.
  - by rewrite forest_content_nodes, Hcat.
  - rewrite length_map, Hg.
    pose proof (length_chunks_loop (length ts) (Z.to_nat m) ts ltac:(lia) ltac:(lia)) as [_ Hlt].
    assert (2 <= Z.to_nat m)%nat by lia. nia.
Qed.
End node_size.

Section properties.
Context `{CidCrate} `{!CidLaws}.

(** The configurations [with_chunk_size], [content_defined_with_size] and the builder accept. *)
Definition config_ok (config : ChunkingConfig) : Prop :=
  MIN_CHUNK_SIZE <= chunk_size config <= MAX_CHUNK_SIZE.

(** The longest piece a strategy makes. *)
Definition piece_limit (config : ChunkingConfig) : Z :=
  match strategy config with FixedSize => chunk_size config | ContentDefined => chunk_size config * 4 end.

Lemma split_spec config data :
  config_ok config → data ≠ [] →
  ∃ cs, split config data = Ok cs ∧ concat cs = data ∧ cs ≠ [] ∧
        Forall (λ c, 1 <= zlen c <= piece_limit config) cs.
Proof using.
  unfold config_ok, MIN_CHUNK_SIZE, MAX_CHUNK_SIZE, split, piece_limit. intros Hc Hd.
  destruct (strategy config).
  - rewrite chunks_pos by lia. eexists. split; [done|].
    pose proof (chunks_loop_sizes (length data) (Z.to_nat (chunk_size config)) data ltac:(lia)) as Hf.
    rewrite concat_chunks_loop by lia. split_and!; [done| |].
    + destruct data; [done|]. simpl. done.
    + eapply Forall_impl; [done|]. intros c. unfold zlen. simpl. lia.
  - destruct (content_defined_cut (chunk_size config) data) as (cs & c & -> & Hcat & Hf & Hl); [lia|done|].
    eexists. split_and!; [done|done|by destruct cs|].
    apply Forall_app. split; [|by repeat constructor; lia].
    eapply Forall_impl; [done|]. intros x. simpl.
    pose proof (Z.div_le_mono 1024 (chunk_size config) 4 ltac:(lia) ltac:(lia)) as Hq.
    change (1024 / 4) with 256 in Hq. lia.
Qed.

(** A chunked file is the blocks of a balanced tree over its pieces. *)
Lemma chunk_tree fuel config data file :
  config_ok config → 0 <= max_links_per_node config → zlen data <= isize_max →
  chunk fuel config data = Ok file →
  ∃ t h, balanced h t ∧ content t = data ∧ root_cid file = tree_cid t ∧
    (nodes t + chunk_count file = length (cf_blocks file))%nat ∧ length (leaves t) = chunk_count file ∧
    (∀ s, s ∈ subtrees t → tree_block s ∈ cf_blocks file ∧ fits s).
Proof using Type*.
  intros Hok Hm Hs Hc. unfold chunk in Hc. case_decide as Hd; [done|].
  destruct (Z.leb_spec (zlen data) (chunk_size config)).
  - apply outcome_bind_Ok in Hc as (blk & Hb & Hf). rewrite Block_new_eq in Hb. case_decide; [|done].
    assert (blk = tree_block (Chunk data)) as -> by (injection Hb as <-; done).
    injection Hf as <-. exists (Chunk data), 0%nat. cbn. split_and!; try done.
    + unfold content. simpl. by rewrite app_nil_r.
    + intros s [->|?%elem_of_nil]%elem_of_cons; [|done]. split; [apply list_elem_of_here|done].
  - destruct (split_spec config data Hok Hd) as (cs & Hsp & Hcat & Hne & _). rewrite Hsp in Hc.
    cbn [outcome_bind] in Hc. apply outcome_bind_Ok in Hc as ([[bs ls] seen] & Hlb & Hc).
    apply leaf_blocks_spec in Hlb as (-> & -> & _).
    apply outcome_bind_Ok in Hc as ([top all] & Hb & Hc).
    apply (build_levels_spec _ _ 0) in Hb as (t & h & new & -> & -> & Hbal & Hl & Hn & Hsub); [|done| | |].
    + injection Hc as <-. exists t, h. cbn [root_cid cf_blocks chunk_count]. simpl in Hl.
      rewrite app_nil_r in Hl. assert (flat_map leaves (map Chunk cs) = cs) as Hlc.
      { clear. induction cs; simpl; by f_equal. }
      split_and!; try done.
      * unfold content. by rewrite Hl, Hlc.
      * rewrite length_app, !length_map. simpl in Hn.
        assert (list_sum (map nodes (map Chunk cs)) = 0%nat) as E0 by (clear; by induction cs).
        unfold list_sum in *. lia.
      * by rewrite Hl, Hlc.
      * intros s Hs'. destruct (Hsub s) as [Hs1|[Hs1 Hf]]; [simpl; by rewrite app_nil_r| |].
        -- assert (∃ c, c ∈ cs ∧ s = Chunk c) as (c & Hc & ->).
           { clear -Hs1. induction cs as [|c cs IH]; [by apply elem_of_nil in Hs1|]. simpl in Hs1.
             apply elem_of_cons in Hs1 as [-> | (c' & ? & ->)%IH]; set_solver. }
           split; [|done]. apply elem_of_app. left. by apply list_elem_of_In, in_map, in_map, list_elem_of_In.
        -- split; [|done]. apply elem_of_app. by right.
    + apply Forall_forall. intros ? (c & <- & _)%list_elem_of_In%in_map_iff. done.
    + by rewrite forest_content_chunks, Hcat.
    + by destruct cs.
Qed.

(** Every block of a chunked file has a legal size. *)
Lemma node_blocks_sized groups links blocks :
  node_blocks groups = Ok (links, blocks) → Forall (λ b, block_sized (b_data b)) blocks.
Proof using Type*.
  revert links blocks. induction groups as [|g groups IH]; intros links blocks Hb; cbn [node_blocks] in Hb.
  { injection Hb as _ <-. constructor. }
  apply outcome_bind_Ok in Hb as (nb & _ & Hb). case_match; [done|].
  apply outcome_bind_Ok in Hb as (b & Hblk & Hb). apply outcome_bind_Ok in Hb as ([ls bs] & Hr & Hb).
  injection Hb as _ <-. rewrite dag_cbor_block_eq in Hblk. case_decide as Hsz; [|done].
  constructor; [by injection Hblk as <-|by eapply IH].
Qed.

Lemma build_levels_sized fuel m links bs top bs' :
  build_levels fuel m links bs = Ok (top, bs') → Forall (λ b, block_sized (b_data b)) bs →
  Forall (λ b, block_sized (b_data b)) bs'.
Proof using Type*.
  revert links bs. induction fuel as [|fuel IH]; intros links bs Hb Hf; cbn [build_levels] in Hb;
    case_match; try done; try (by injection Hb as _ <-).
  apply outcome_bind_Ok in Hb as (gs & _ & Hb). apply outcome_bind_Ok in Hb as ([ls bl] & Hn & Hb).
  eapply IH; [done|]. apply Forall_app. split; [done|]. by eapply node_blocks_sized.
Qed.

Lemma chunk_blocks_sized fuel config data file :
  chunk fuel config data = Ok file → Forall (λ b, block_sized (b_data b)) (cf_blocks file).
Proof using Type*.
  unfold chunk. case_decide; [done|]. case_match; intros Hc.
  - apply outcome_bind_Ok in Hc as (b & Hb & Hc). injection Hc as <-. rewrite Block_new_eq in Hb.
    case_decide; [|done]. apply Forall_singleton. by injection Hb as <-.
  - apply outcome_bind_Ok in Hc as (cs & _ & Hc). apply outcome_bind_Ok in Hc as ([[bs ls] seen] & Hl & Hc).
    apply leaf_blocks_spec in Hl as (-> & _ & Hsz).
    apply outcome_bind_Ok in Hc as ([top all] & Hb & Hc). apply build_levels_sized in Hb.
    + destruct top; [done|]. by injection Hc as <-.
    + rewrite map_map. apply Forall_forall. intros ? (c & <- & Hin)%list_elem_of_In%in_map_iff.
      rewrite Forall_forall in Hsz. apply Hsz. by apply list_elem_of_In.
Qed.

Lemma split_sized config (cs : list bytes) :
  config_ok config → (strategy config = ContentDefined → chunk_size config * 4 <= MAX_BLOCK_SIZE) →
  Forall (λ c, 1 <= zlen c <= piece_limit config) cs → Forall block_sized cs.
Proof using.
  intros Hok Hcd Hf. eapply Forall_impl; [done|]. intros c. cbv beta.
  unfold config_ok, piece_limit, block_sized, MIN_BLOCK_SIZE, MAX_BLOCK_SIZE, MAX_CHUNK_SIZE, zlen in *.
  destruct (strategy config); [|specialize (Hcd eq_refl)]; lia.
Qed.

(** *** Termination, whatever the number of links per node is *)
Lemma encode_fails_or (i : ipld) buffer : fails_or (encode_dag_cbor i buffer) (λ _, True).
Proof using.
  revert buffer. induction i as [|v|n|f|s|v|l IH|m IH|c] using ipld_ind'; intros buffer; simpl; try done.
  - unfold encode_cbor_integer. by repeat case_match.
  - generalize (encode_cbor_length 4 (zlen l) buffer). induction IH as [|x l Hx _ IHl]; intros b; [done|].
    eapply fails_or_bind; [apply Hx|]. intros b' _. apply IHl.
  - generalize (encode_cbor_length 5 (zlen m) buffer). induction IH as [|[k x] m Hx _ IHm]; intros b; [done|].
    eapply fails_or_bind; [apply Hx|]. intros b' _. apply IHm.
Qed.
Lemma node_blocks_fails_or (groups : list (list DagLink)) :
  fails_or (node_blocks groups) (λ r, length r.1 = length groups).
Proof using Type*.
  induction groups as [|g groups IH]; cbn [node_blocks]; [done|].
  eapply fails_or_bind; [apply encode_fails_or|]. intros b _. case_match; [done|].
  rewrite dag_cbor_block_eq. case_decide; [|done]. cbn [outcome_bind].
  eapply fails_or_bind; [exact IH|]. intros [ls bl] Hl. simpl in *. by f_equal.
Qed.
Lemma build_levels_fails_or fuel m (ls : list DagLink) bs : 2 <= m → (length ls <= fuel)%nat → ls ≠ [] →
  fails_or (build_levels fuel m ls bs) (λ r, r.1 ≠ []).
Proof using Type*.
  intros Hm. revert ls bs. induction fuel as [|fuel IH]; intros ls bs Hl Hne; cbn [build_levels];
    destruct (Nat.leb_spec (length ls) 1); try done; [lia|].
  rewrite chunks_pos by lia. cbn [outcome_bind]. set (groups := chunks_loop _ _ _).
  pose proof (length_chunks_loop (length ls) (Z.to_nat m) ls ltac:(lia) ltac:(lia)) as [Hlow Hlt]. fold groups in Hlow, Hlt.
  assert (2 <= Z.to_nat m)%nat by lia.
  eapply fails_or_bind; [apply node_blocks_fails_or|]. intros [next bl] Hn. simpl in Hn.
  apply IH; [nia|]. intros ->. simpl in Hn. nia.
Qed.

Lemma chunk_fails_or (config : ChunkingConfig) (data : bytes) (fuel : nat) :
  config_ok config → 2 <= max_links_per_node config → (length data <= fuel)%nat →
  fails_or (chunk fuel config data) (λ _, data ≠ []).
Proof using Type*.
  intros Hok Hm Hf. unfold chunk. case_decide as Hd; [done|]. case_match.
  { rewrite Block_new_eq. by case_decide. }
  destruct (split_spec config data Hok Hd) as (cs & -> & Hcat & Hne & Hcs). cbn [outcome_bind].
  destruct (decide (Forall block_sized cs)) as [Hsz|Hsz]; [|by rewrite leaf_blocks_error].
  destruct (leaf_blocks_total cs ∅ Hsz) as [seen ->]. cbn [outcome_bind].
  eapply fails_or_bind; [apply build_levels_fails_or; [done| |by destruct cs]|].
  - rewrite !length_map. trans (length data); [|done]. rewrite <- Hcat. clear -Hcs.
    induction Hcs as [|c cs Hc _ IH]; [done|]. simpl. rewrite length_app. unfold zlen in *. lia.
  - intros [top all] Htop. simpl in Htop. by destruct top.
Qed.

(** With at most 20000 links per node and pieces that fit into a block, chunking succeeds. *)
Lemma chunk_succeeds `{!Sha256CidSize} (config : ChunkingConfig) (data : bytes) (fuel : nat) :
  config_ok config → 2 <= max_links_per_node config <= 20000 →
  (strategy config = ContentDefined → chunk_size config * 4 <= MAX_BLOCK_SIZE) →
  data ≠ [] → zlen data <= isize_max → (length data <= fuel)%nat → ∃ file, chunk fuel config data = Ok file.
Proof using Type*.
  intros Hok Hm Hcd Hne Hs Hfuel.
  unfold chunk. rewrite decide_False by done.
  destruct (Z.leb_spec (zlen data) (chunk_size config)).
  { rewrite Block_new_eq, decide_True; [by eexists|].
    unfold config_ok, block_sized, MIN_BLOCK_SIZE, MAX_BLOCK_SIZE, MAX_CHUNK_SIZE, zlen in *.
    destruct data; [done|]. simpl in *. lia. }
  destruct (split_spec config data Hok Hne) as (cs & -> & Hcat & Hcs & Hf). cbn [outcome_bind].
  destruct (leaf_blocks_total cs ∅) as [seen ->]; [by eapply split_sized|]. cbn [outcome_bind].
  destruct (build_levels_total fuel (max_links_per_node config) (map Chunk cs)
              (map tree_block (map Chunk cs))) as [[top all] Hb]; [done| | |].
  - by rewrite forest_content_chunks, Hcat.
  - rewrite length_map. trans (length data); [|done]. rewrite <- Hcat. clear -Hf.
    induction Hf as [|c cs Hc _ IH]; [done|]. simpl. rewrite length_app. unfold zlen in *. lia.
  - rewrite Hb. cbn [outcome_bind]. pose proof Hb as Hb'.
    apply (build_levels_spec _ _ 0) in Hb' as (t & h & new & -> & _); [by eexists|lia| | |].
    + apply Forall_forall. intros ? (c & <- & _)%list_elem_of_In%in_map_iff. done.
    + by rewrite forest_content_chunks, Hcat.
    + by destruct cs.
Qed.

(** C27. Chunking ends on every file, with either strategy, any chunk size the constructors accept and
    any number of links per node from two on, one unit of fuel per byte being enough: it never panics;
    it fails only on an empty file, with more than 20000 links per node, or in content-defined chunking
    with a target above 512 KiB; and what it returns is a balanced tree over the file: its leaves, in
    order, are the bytes of the file, the root CID is that of the tree and every node of the tree is
    among the blocks. *)
Theorem chunk_total `{!Sha256CidSize} (config : ChunkingConfig) (data : bytes) (fuel : nat)
    (Hok : config_ok config) (Hm : 2 <= max_links_per_node config)
    (Hs : zlen data <= isize_max) (Hfuel : (length data <= fuel)%nat) :
  match chunk fuel config data with
  | Ok file => data ≠ [] ∧ ∃ t h, balanced h t ∧ content t = data ∧ root_cid file = tree_cid t
      ∧ length (leaves t) = chunk_count file ∧ ∀ s, s ∈ subtrees t → tree_block s ∈ cf_blocks file
  | Err _ => data = [] ∨ 20000 < max_links_per_node config
      ∨ strategy config = ContentDefined ∧ MAX_BLOCK_SIZE < chunk_size config * 4
  | Panic | OutOfFuel => False
  end.
Proof using Type*.
  pose proof (chunk_fails_or config data fuel Hok Hm Hfuel) as Hans.
  destruct (chunk fuel config data) as [file|e| |] eqn:Hc; try done.
  - split; [exact Hans|]. destruct (chunk_tree fuel config data file Hok ltac:(lia) Hs Hc) as (t & h & Hb & Hct & Hr & _ & Hl & Hsub).
    exists t, h. split_and!; [done..|]. intros s Hin. by apply Hsub.
  - destruct (decide (data = [])) as [|Hd]; [by left|right].
    destruct (Z.ltb_spec 20000 (max_links_per_node config)) as [|Hle]; [by left|right].
    destruct (strategy config) eqn:Hst; [|destruct (Z.ltb_spec MAX_BLOCK_SIZE (chunk_size config * 4)); [done|]].
    all: destruct (chunk_succeeds config data fuel Hok ltac:(lia)) as [file Hf]; [congruence || (intros _; lia)|done..|congruence].
Qed.

Lemma one_link_levels `{!Sha256CidSize} fuel ts bs :
  zlen (forest_content ts) <= isize_max → (2 <= length ts)%nat →
  build_levels fuel 1 (map tree_link ts) bs = OutOfFuel.
Proof using Type*.
  revert ts bs. induction fuel as [|fuel IH]; intros ts bs Hs Hl; cbn [build_levels]; rewrite length_map;
    destruct (Nat.leb_spec (length ts) 1); try lia; [done|].
  destruct (level_total 1 ts ltac:(lia) Hs) as (groups & Hc & Hcat & Hn & Hg).
  rewrite Hc. cbn [outcome_bind]. rewrite Hn. cbn [outcome_bind]. apply IH.
  - by rewrite forest_content_nodes, Hcat.
  - rewrite length_map, Hg.
    pose proof (length_chunks_loop (length ts) (Z.to_nat 1) ts ltac:(lia) ltac:(lia)) as [Hlt _]. lia.
Qed.

(** With [max_links_per_node = 1], which the configuration builder accepts, chunking any
    file of more than one chunk never ends: every level has as many nodes as the one below. *)
Theorem chunk_one_link_diverges `{!Sha256CidSize} (n : Z) (data : bytes)
    (Hn : MIN_CHUNK_SIZE <= n <= MAX_CHUNK_SIZE) (Hlong : n < zlen data <= isize_max) :
  ∃ config, build_config (mkConfigBuilder (Some n) None (Some 1)) = Ok config ∧
    ∀ fuel, chunk fuel config data = OutOfFuel.
Proof using Type*.
  exists (mkConfig n FixedSize 1). split.
  { unfold build_config. simpl. rewrite (proj2 (Z.ltb_ge _ _)), (proj2 (Z.ltb_ge _ _)) by lia. done. }
  intros fuel. assert (data ≠ []) as Hne by (intros ->; unfold MIN_CHUNK_SIZE, zlen in *; simpl in *; lia).
  set (config := mkConfig n FixedSize 1). assert (config_ok config) as Hok by done.
  unfold chunk. rewrite decide_False by done. change (chunk_size config) with n.
  destruct (Z.leb_spec (zlen data) n); [lia|].
  destruct (split_spec config data Hok Hne) as (cs & -> & Hcat & Hcs & Hf). cbn [outcome_bind].
  destruct (leaf_blocks_total cs ∅) as [seen ->]; [by eapply split_sized|]. cbn [outcome_bind].
  change (max_links_per_node config) with 1. rewrite one_link_levels; [done| |].
  - rewrite forest_content_chunks, Hcat. lia.
  - rewrite length_map. destruct cs as [|c [|c' cs]]; [done| |simpl; lia].
    apply Forall_cons in Hf as [Hf _]. simpl in Hcat. rewrite app_nil_r in Hcat. subst c.
    unfold piece_limit in Hf. simpl in Hf. lia.
Qed.

(** Content-defined chunking with a target above 512 KiB, which the constructor accepts up to
    1 MiB, cannot chunk a long run of one byte: a file of more than 2 MiB of spaces, or of 0xff
    bytes, has a first chunk larger than a block may be, and is refused as invalid data. *)
Theorem content_defined_rejects_runs (n byte len : Z) (fuel : nat)
    (Hn : 2 ^ 19 < n <= MAX_CHUNK_SIZE) (Hbyte : filler byte) (Hlen : MAX_BLOCK_SIZE < len) :
  ∃ config, content_defined_with_size n = Ok config ∧
    chunk fuel config (replicate (Z.to_nat len) byte) = Err InvalidData.
Proof using Type*.
  unfold MAX_CHUNK_SIZE, MAX_BLOCK_SIZE in *. exists (mkConfig n ContentDefined MAX_LINKS_PER_NODE). split.
  { unfold content_defined_with_size, MIN_CHUNK_SIZE, MAX_CHUNK_SIZE.
    rewrite (proj2 (Z.ltb_ge _ _)), (proj2 (Z.ltb_ge _ _)) by lia. done. }
  set (data := replicate _ _). assert (zlen data = len) as Hdl.
  { unfold zlen, data. rewrite length_replicate. lia. }
  assert (data ≠ []) as Hne by (intros E; rewrite E in Hdl; unfold zlen in Hdl; simpl in Hdl; lia).
  unfold chunk. rewrite decide_False by done. cbn [chunk_size]. rewrite (proj2 (Z.leb_gt _ _)) by lia.
  unfold split. cbn [strategy chunk_size].
  destruct (content_defined_cut n data) as (cs & c & Hcut & _); [lia|done|].
  destruct (filler_first_boundary n byte len) as [bs Hfb]; [done|lia|lia|].
  fold data in Hfb. rewrite Hfb in Hcut |- *. rewrite Hcut. cbn [outcome_bind].
  rewrite leaf_blocks_error; [done|]. cbn [cut] in Hcut.
  destruct (slice_range_ok (E := Error) data 0 (Z.min len (n * 4))) as (c0 & Hsl & Hc0 & _);
    [lia|unfold zlen in Hdl; lia|].
  rewrite Hsl in Hcut. cbn [outcome_bind] in Hcut. apply outcome_bind_Ok in Hcut as (rest & _ & E).
  injection E as E. rewrite <- E.
  intros [Hb _]%Forall_cons. unfold block_sized, MAX_BLOCK_SIZE in Hb. lia.
Qed.
End properties.

(** ** Witnesses at the reference crate *)
Import Reference.

Definition demo_config : ChunkingConfig := mkConfig 1024 FixedSize 2.
Definition demo_file : bytes := replicate 3000 7.

Lemma chunk_total_witness : ∃ file, chunk 3000 demo_config demo_file = Ok file ∧ ∃ t h, balanced h t ∧ content t = demo_file.
Proof.
  assert (config_ok demo_config) as H1 by (unfold config_ok; simpl; unfold MIN_CHUNK_SIZE, MAX_CHUNK_SIZE; lia).
  pose proof (chunk_total demo_config demo_file 3000 H1 ltac:(simpl; lia) ltac:(done) ltac:(done)) as Ht.
  destruct (chunk 3000 demo_config demo_file) as [file|e| |].
  - destruct Ht as (_ & t & h & Hb & Hc & _). exists file. split; [done|]. by exists t, h.
  - exfalso. destruct Ht as [Ht|[Ht|[Ht _]]]; [discriminate Ht|by vm_compute in Ht|discriminate Ht].
  - destruct Ht.
  - destruct Ht.
Defined.

Lemma chunk_one_link_diverges_witness :
  ∃ config, build_config (mkConfigBuilder (Some 1024) None (Some 1)) = Ok config ∧
    ∀ fuel, chunk fuel config demo_file = OutOfFuel.
Proof.
  apply (chunk_one_link_diverges 1024 demo_file); [done|]. unfold zlen, demo_file. rewrite length_replicate.
  unfold isize_max. lia.
Defined.

Lemma content_defined_rejects_runs_witness :
  ∃ config, content_defined_with_size 1048576 = Ok config ∧
    chunk 1 config (replicate (Z.to_nat 3000000) 0x20) = Err InvalidData.
Proof.
  apply (content_defined_rejects_runs 1048576 0x20 3000000 1); [done|by left|done].
Defined.
