(* ===== verification/Streaming.v ===== *)
(** * Reading chunked files: [crates/ipfrs-core/src/streaming.rs]

    [BlockFetcher] is the trait the readers fetch blocks through and [MemoryBlockFetcher] its
    in-memory implementation; awaiting a fetch is sequencing.  [read_chunked_file] walks the DAG
    level by level, [next_chunk] depth first.  [BlockReader] and [AsyncBlockReader] are the same
    cursor over the bytes of one block. *)

From Stdlib Require Import ZArith Lia List.
From stdpp Require Import base tactics numbers list gmap sets strings.
From S2P Require Import Prelude Collections Cid Ipld Block Chunking.

#[local] Open Scope Z_scope.

(** ** [BlockReader] *)
Record BlockReader : Type := mkReader { r_data : bytes; position : nat }.
Definition BlockReader_from_bytes (b : bytes) : BlockReader := mkReader b 0.
Definition remaining (r : BlockReader) : nat := length (r_data r) - position r.
Definition reader_is_empty (r : BlockReader) : bool := (length (r_data r) <=? position r)%nat.
Definition reader_len (r : BlockReader) : nat := length (r_data r).

(** [read], into a buffer of [n] bytes: the bytes written to it. *)
Definition read (n : nat) (r : BlockReader) : bytes * BlockReader :=
  if (length (r_data r) <=? position r)%nat then ([], r) else
  let remaining := drop (position r) (r_data r) in
  let to_read := Nat.min n (length remaining) in
  (take to_read remaining, mkReader (r_data r) (position r + to_read)).

Section streaming.
Context `{CidCrate}.

Definition BlockReader_new (b : Block) : BlockReader := mkReader (b_data b) 0.

(** ** Fetchers *)
Class BlockFetcher (F : Type) : Type := { fetch : F → Cid → outcome Error Block }.

Record MemoryBlockFetcher : Type := mkFetcher { f_blocks : gmap Cid Block }.
Definition MemoryBlockFetcher_new : MemoryBlockFetcher := mkFetcher ∅.
Definition add_block (b : Block) (f : MemoryBlockFetcher) : MemoryBlockFetcher :=
  mkFetcher (<[b_cid b := b]> (f_blocks f)).
Definition add_blocks (bs : list Block) (f : MemoryBlockFetcher) : MemoryBlockFetcher :=
  fold_left (λ f b, add_block b f) bs f.

#[export] Instance MemoryBlockFetcher_fetcher : BlockFetcher MemoryBlockFetcher := {
  fetch f c := ok_or (f_blocks f !! c) BlockNotFound;
}.

Context {F : Type} `{!BlockFetcher F}.

(** ** Reading a whole file *)

(** The loop over the links of a node: the data so far and the queue of nodes to visit. *)
Fixpoint read_links (f : F) (links : list ipld) (result : bytes) (queue : list ipld) :
    outcome Error (bytes * list ipld) :=
  match links with
  | [] => Ok (result, queue)
  | IMap link_map :: links' =>
    match bt_get "cid"%string link_map with
    | Some (ILink c) =>
      let! block := fetch f c in
      if Cid_codec (b_cid block) =? 0x55 then read_links f links' (result ++ b_data block) queue
      else
        let! child_ipld := from_dag_cbor (b_data block) in
        read_links f links' result (queue ++ [child_ipld])
    | _ => read_links f links' result queue
    end
  | _ :: links' => read_links f links' result queue
  end.

(** [while let Some(ipld) = queue.pop_front()]: one unit of fuel per node visited. *)
Fixpoint read_loop (fuel : nat) (f : F) (queue : list ipld) (result : bytes) : outcome Error bytes :=
  match queue with
  | [] => Ok result
  | i :: queue =>
    match fuel with
    | O => OutOfFuel
    | S fuel' =>
      match i with
      | IMap map =>
        let result :=
          match bt_get "data"%string map with Some (IBytes d) => result ++ d | _ => result end in
        let! (result, queue) :=
          match bt_get "links"%string map with
          | Some (IList links) => read_links f links result queue
          | _ => Ok (result, queue)
          end in
        read_loop fuel' f queue result
      | _ => read_loop fuel' f queue result
      end
    end
  end.

Definition read_chunked_file (fuel : nat) (f : F) (root_cid : Cid) : outcome Error bytes :=
  let! root_block := fetch f root_cid in
  if Cid_codec (b_cid root_block) =? 0x55 then Ok (b_data root_block) else
  let! root_ipld := from_dag_cbor (b_data root_block) in
  read_loop fuel f [root_ipld] [].

(** ** Streaming a file chunk by chunk *)

(** The links of a node, those that are maps with a CID and a size. *)
Definition child_link (link_ipld : ipld) : option DagLink :=
  match link_ipld with
  | IMap link_map =>
    match bt_get "cid"%string link_map, bt_get "size"%string link_map with
    | Some (ILink c), Some (IInteger size) => Some (DagLink_new c (as_u64 size))
    | _, _ => None
    end
  | _ => None
  end.

(** [next_chunk] on the pending links, the state of [DagChunkStream]: [None] at the end of the
    stream; one unit of fuel per link taken. *)
Fixpoint next_chunk (fuel : nat) (f : F) : stateful (list DagLink) Error (option bytes) :=
  λ pending_links,
  match pending_links with
  | [] => (Ok None, [])
  | link :: pending_links =>
    match fuel with
    | O => (OutOfFuel, pending_links)
    | S fuel' =>
      match fetch f (dl_cid link) with
      | Ok block =>
        if Cid_codec (b_cid block) =? 0x55 then (Ok (Some (b_data block)), pending_links) else
        match from_dag_cbor (b_data block) with
        | Ok (IMap map) =>
          let pending_links :=
            match bt_get "links"%string map with
            | Some (IList links) => omap child_link links ++ pending_links
            | _ => pending_links
            end in
          match bt_get "data"%string map with
          | Some (IBytes d) => (Ok (Some d), pending_links)
          | _ => next_chunk fuel' f pending_links
          end
        | Ok _ => next_chunk fuel' f pending_links
        | Err e => (Err e, pending_links)
        | Panic => (Panic, pending_links)
        | OutOfFuel => (OutOfFuel, pending_links)
        end
      | Err e => (Err e, pending_links)
      | Panic => (Panic, pending_links)
      | OutOfFuel => (OutOfFuel, pending_links)
      end
    end
  end.
Definition has_more (pending_links : list DagLink) : bool := negb (bool_decide (pending_links = [])).
End streaming.
