(* ===== verification/StreamingFacts.v ===== *)
(** * Properties of reading chunked files *)

From Stdlib Require Import ZArith Lia List.
From stdpp Require Import base tactics numbers list gmap sets strings.
From S2P Require Import Prelude Collections Cid CidFacts Ipld IpldFacts Block BlockFacts Chunking RabinFacts ChunkingFacts ParallelChunking Streaming.

#[local] Open Scope Z_scope.

(** ** The block cursor *)

(** Reading with buffers of sizes [ns], one call after the other. *)
Fixpoint read_all (ns : list nat) (r : BlockReader) : bytes * BlockReader :=
  match ns with
  | [] => ([], r)
  | n :: ns' =>
    let '(b, r) := read n r in
    let '(bs, r) := read_all ns' r in
    (b ++ bs, r)
  end.

Definition reader_ok (r : BlockReader) : Prop := (position r <= length (r_data r))%nat.

Lemma read_step n r :
  reader_ok r →
  let k := Nat.min n (remaining r) in
  read n r = (take k (drop (position r) (r_data r)), mkReader (r_data r) (position r + k)).
Proof.
  unfold reader_ok, remaining, read. intros Hr. destruct (Nat.leb_spec (length (r_data r)) (position r)).
  - replace (Nat.min n (length (r_data r) - position r)) with 0%nat by lia.
    rewrite take_0, Nat.add_0_r. by destruct r.
  - rewrite length_drop. done.
Qed.

Lemma read_all_prefix ns r :
  reader_ok r →
  let k := Nat.min (list_sum ns) (remaining r) in
  read_all ns r = (take k (drop (position r) (r_data r)), mkReader (r_data r) (position r + k)).
Proof.
  revert r. induction ns as [|n ns IH]; intros r Hr; cbn [read_all].
  { simpl. rewrite take_0, Nat.add_0_r. by destruct r. }
  rewrite read_step by done. set (k := Nat.min n (remaining r)).
  rewrite IH by (unfold reader_ok, remaining in *; simpl; lia). unfold remaining. cbn [r_data position].
  change (list_sum (n :: ns)) with (n + list_sum ns)%nat.
  set (k2 := Nat.min (list_sum ns) (length (r_data r) - (position r + k))).
  unfold reader_ok, remaining in *.
  replace (Nat.min (n + list_sum ns) (length (r_data r) - position r)) with (k + k2)%nat by lia.
  rewrite <- drop_drop, Nat.add_assoc. f_equal.
  rewrite <- (take_drop k (drop (position r) (r_data r))) at 3.
  rewrite take_app_add'; [done|]. rewrite length_take, length_drop. lia.
Qed.

Section reading.
Context `{CidCrate} `{!CidLaws} {F : Type} `{!BlockFetcher F} (f : F).

Definition kids (t : ftree) : list ftree := match t with Node ts => ts | Chunk _ => [] end.

(** The fetcher has every block below, and the sizes are those of data in memory. *)
Definition stored (t : ftree) : Prop :=
  zlen (content t) <= isize_max ∧
  ∀ s, s ∈ subtrees t → fetch f (tree_cid s) = Ok (tree_block s) ∧ fits s.

Lemma stored_root t : stored t → fetch f (tree_cid t) = Ok (tree_block t) ∧ fits t.
Proof. intros [_ Hs]. apply Hs. destruct t; apply list_elem_of_here. Qed.

Lemma stored_kids g : stored (Node g) → Forall stored g.
Proof.
  intros [Hl Hs]. apply Forall_forall. intros t Ht. split.
  - rewrite content_node in Hl. pose proof (content_le_forest t g Ht). lia.
  - intros s Hsub. apply Hs. cbn [subtrees]. apply list_elem_of_further.
    apply list_elem_of_In, in_flat_map. exists t. by rewrite <- !list_elem_of_In.
Qed.

Lemma node_decodes g :
  stored (Node g) →
  from_dag_cbor (b_data (tree_block (Node g))) = Ok (node_ipld g) ∧
  node_ipld g = IMap [("links", IList (map (λ t, link_ipld (tree_link t)) g));
                      ("totalSize", IInteger (zlen (forest_content g)))]%string.
Proof using Type*.
  intros Hst. pose proof (stored_root _ Hst) as [_ Hf]. destruct Hst as [Hl _].
  rewrite content_node in Hl. split; [|by apply node_ipld_eq].
  change (b_data (tree_block (Node g))) with (cbor (node_ipld g)).
  rewrite <- (app_nil_r (cbor _)). apply from_dag_cbor_cbor. by apply node_ipld_wf.
Qed.

Lemma fetched_codec t : Cid_codec (b_cid (tree_block t)) = match t with Chunk _ => 0x55 | Node _ => 0x71 end.
Proof using Type*. destruct t; [apply raw_cid_codec|apply cbor_cid_codec]. Qed.

(** ** Level by level *)
Lemma read_links_chunks g result queue :
  Forall stored g → Forall (balanced 0) g →
  read_links f (map (λ t, link_ipld (tree_link t)) g) result queue = Ok (result ++ forest_content g, queue).
Proof using Type*.
  intros Hst. revert result. induction Hst as [|t g Ht _ IH]; intros result Hb; [by rewrite app_nil_r|].
  apply Forall_cons in Hb as [Ht0 Hb]. destruct t as [d|]; [|done]. apply stored_root in Ht as [Hf _].
  cbn [map]. rewrite link_ipld_tree. cbn [read_links bt_get String.eqb Ascii.eqb Bool.eqb].
  rewrite Hf. cbn [outcome_bind]. rewrite fetched_codec. cbn [Z.eqb Pos.eqb].
  rewrite IH by done. rewrite forest_content_cons, app_assoc. f_equal. f_equal. f_equal. f_equal.
  unfold content. simpl. by rewrite app_nil_r.
Qed.

Lemma read_links_nodes h g result queue :
  Forall stored g → Forall (balanced (S h)) g →
  read_links f (map (λ t, link_ipld (tree_link t)) g) result queue
  = Ok (result, queue ++ map (λ t, node_ipld (kids t)) g).
Proof using Type*.
  intros Hst. revert queue. induction Hst as [|t g Ht _ IH]; intros queue Hb; [by rewrite app_nil_r|].
  apply Forall_cons in Hb as [Ht0 Hb]. destruct t as [|g']; [done|].
  pose proof (node_decodes g' Ht) as [Hd _]. apply stored_root in Ht as [Hf _].
  cbn [map]. rewrite link_ipld_tree. cbn [read_links bt_get String.eqb Ascii.eqb Bool.eqb].
  rewrite Hf. cbn [outcome_bind]. rewrite fetched_codec. cbn [Z.eqb Pos.eqb].
  rewrite Hd. cbn [outcome_bind]. rewrite IH by done. by rewrite <- app_assoc.
Qed.

(** One node taken off the queue. *)
Lemma read_loop_node fuel g queue result :
  stored (Node g) →
  read_loop (S fuel) f (node_ipld g :: queue) result
  = let! (result, queue) := read_links f (map (λ t, link_ipld (tree_link t)) g) result queue in
    read_loop fuel f queue result.
Proof using Type*. intros Hst. destruct (node_decodes g Hst) as [_ ->]. done. Qed.

Lemma read_leaves qs fuel result :
  Forall (λ g, stored (Node g)) qs → Forall (Forall (balanced 0)) qs →
  read_loop (length qs + fuel) f (map node_ipld qs) result
  = Ok (result ++ forest_content (concat qs)).
Proof using Type*.
  intros Hst. revert result. induction Hst as [|g qs Hg _ IH]; intros result Hb.
  { rewrite app_nil_r. by destruct fuel. }
  apply Forall_cons in Hb as [Hb0 Hb]. cbn [length Nat.add map concat].
  rewrite read_loop_node by done. rewrite read_links_chunks by (done || by apply stored_kids).
  cbn [outcome_bind]. rewrite IH by done. by rewrite forest_content_app, app_assoc.
Qed.

(** A whole level above the lowest: its nodes are replaced by those of the next level. *)
Lemma read_level h qs next fuel result :
  Forall (λ g, stored (Node g)) qs → Forall (Forall (balanced (S h))) qs →
  read_loop (length qs + fuel) f (map node_ipld qs ++ map node_ipld next) result
  = read_loop fuel f (map node_ipld (next ++ map kids (concat qs))) result.
Proof using Type*.
  intros Hst. revert next. induction Hst as [|g qs Hg _ IH]; intros next Hb.
  { simpl. by rewrite app_nil_r. }
  apply Forall_cons in Hb as [Hb0 Hb]. cbn [length Nat.add map concat app].
  rewrite read_loop_node by done. rewrite (read_links_nodes h) by (done || by apply stored_kids).
  cbn [outcome_bind]. rewrite <- (map_map kids node_ipld), <- app_assoc, <- map_app, IH by done.
  by rewrite (map_app kids), app_assoc.
Qed.

Lemma kids_props h ts :
  Forall stored ts → Forall (balanced (S h)) ts →
  Forall (λ g, stored (Node g)) (map kids ts) ∧ Forall (Forall (balanced h)) (map kids ts) ∧
  forest_content (concat (map kids ts)) = forest_content ts ∧
  (list_sum (map nodes ts) = length ts + list_sum (map nodes (concat (map kids ts))))%nat.
Proof.
  intros Hst. induction Hst as [|t ts Ht _ IH]; intros Hb; [by split_and!|].
  apply Forall_cons in Hb as [Hb0 Hb]. destruct t as [|g]; [done|].
  destruct (IH Hb) as (IH1 & IH2 & IH3 & IH4). apply balanced_node in Hb0. cbn [map kids concat].
  split_and!; [by constructor|by constructor| |].
  - by rewrite forest_content_app, forest_content_cons, content_node, IH3.
  - rewrite map_app, list_sum_app. unfold list_sum in *. cbn [map foldr nodes length]. unfold list_sum. lia.
Qed.

Lemma read_loop_forest h qs fuel result :
  Forall (λ g, stored (Node g)) qs → Forall (Forall (balanced h)) qs →
  (length qs + list_sum (map nodes (concat qs)) <= fuel)%nat →
  read_loop fuel f (map node_ipld qs) result = Ok (result ++ forest_content (concat qs)).
Proof using Type*.
  revert qs fuel result. induction h as [|h IH]; intros qs fuel result Hst Hb Hfuel;
    replace fuel with (length qs + (fuel - length qs))%nat by lia; [by apply read_leaves|].
  assert (Forall stored (concat qs)) as Hst'.
  { apply Forall_concat. eapply Forall_impl; [exact Hst|]. intros g. apply stored_kids. }
  destruct (kids_props h (concat qs) Hst') as (H1 & H2 & H3 & H4); [by apply Forall_concat|].
  pose proof (read_level h qs [] (fuel - length qs) result Hst Hb) as E.
  simpl app in E. rewrite app_nil_r in E. rewrite E. rewrite IH; [by rewrite H3|done|done|].
  rewrite length_map. lia.
Qed.

Lemma read_stored h t fuel :
  stored t → balanced h t → (nodes t <= fuel)%nat →
  read_chunked_file fuel f (tree_cid t) = Ok (content t).
Proof using Type*.
  intros Hst Hb Hfuel. unfold read_chunked_file.
  destruct (stored_root t Hst) as [-> _]. cbn [outcome_bind]. rewrite fetched_codec.
  destruct t as [d|g]; cbn [Z.eqb Pos.eqb].
  - unfold content. simpl. by rewrite app_nil_r.
  - destruct (node_decodes g Hst) as [-> _]. cbn [outcome_bind]. destruct h as [|h]; [done|].
    apply balanced_node in Hb.
    change [node_ipld g] with (map node_ipld [g]).
    rewrite (read_loop_forest h); [|by apply Forall_singleton..|].
    + simpl. by rewrite app_nil_r, content_node.
    + simpl. rewrite app_nil_r. simpl in Hfuel. lia.
Qed.

(** ** Chunk by chunk *)
Fixpoint count (t : ftree) : nat :=
  match t with Chunk _ => 1 | Node ts => S (list_sum (map count ts)) end.

Lemma child_links g :
  stored (Node g) → omap child_link (map (λ t, link_ipld (tree_link t)) g) = map tree_link g.
Proof using Type*.
  intros Hst%stored_kids. induction Hst as [|t g [Hl _] _ IH]; [done|]. cbn [map].
  assert (child_link (link_ipld (tree_link t)) = Some (tree_link t)) as Hc.
  { rewrite link_ipld_tree. cbn [child_link bt_get String.eqb Ascii.eqb Bool.eqb].
    by rewrite as_u64_small by (pose proof (zlen_nonneg (content t)); unfold isize_max in *; lia). }
  change (omap child_link (?x :: ?l)) with
    (match child_link x with Some y => y :: omap child_link l | None => omap child_link l end).
  by rewrite Hc, IH.
Qed.

Lemma next_chunk_spec n ts :
  (list_sum (map count ts) <= n)%nat → Forall stored ts →
  match flat_map leaves ts with
  | [] => next_chunk n f (map tree_link ts) = (Ok None, [])
  | d :: rest =>
    ∃ ts', next_chunk n f (map tree_link ts) = (Ok (Some d), map tree_link ts') ∧ Forall stored ts' ∧
      flat_map leaves ts' = rest ∧ (list_sum (map count ts') <= n)%nat
  end.
Proof using Type*.
  revert ts. induction n as [|n IH]; intros ts Hn Hst;
    (destruct Hst as [|t ts Ht Hst]; [done|]); [destruct t; simpl in Hn; lia|].
  destruct (stored_root t Ht) as [Hf _]. destruct t as [d|g].
  - simpl flat_map. exists ts. cbn [map next_chunk dl_cid tree_link].
    change (dl_cid (tree_link (Chunk d))) with (tree_cid (Chunk d)). rewrite Hf, fetched_codec.
    split_and!; try done. change (list_sum (map count (Chunk d :: ts))) with (1 + list_sum (map count ts))%nat in Hn. lia.
  - cbn [map next_chunk]. change (dl_cid (tree_link (Node g))) with (tree_cid (Node g)).
    rewrite Hf, fetched_codec. cbn [Z.eqb Pos.eqb].
    destruct (node_decodes g Ht) as [-> ->]. cbn [bt_get String.eqb Ascii.eqb Bool.eqb].
    rewrite (child_links g Ht), <- map_app.
    specialize (IH (g ++ ts)). rewrite flat_map_app in IH. cbn [flat_map leaves].
    cbn [map list_sum foldr count] in Hn.
    destruct (flat_map leaves g ++ flat_map leaves ts) as [|d rest].
    + apply IH; [rewrite map_app, list_sum_app; unfold list_sum in *; lia|].
      apply Forall_app. split; [by apply stored_kids|done].
    + destruct IH as (ts' & ? & ? & ? & ?); [rewrite map_app, list_sum_app; unfold list_sum in *; lia| |].
      * apply Forall_app. split; [by apply stored_kids|done].
      * exists ts'. split_and!; [done..|lia].
Qed.

(** A client that calls [next_chunk] until the stream ends. *)
Fixpoint drain (calls fuel : nat) (pending : list DagLink) : outcome Error (list bytes) :=
  match calls with
  | O => OutOfFuel
  | S calls' =>
    match next_chunk fuel f pending with
    | (Ok (Some d), pending) => let! ds := drain calls' fuel pending in Ok (d :: ds)
    | (Ok None, _) => Ok []
    | (Err e, _) => Err e
    | (Panic, _) => Panic
    | (OutOfFuel, _) => OutOfFuel
    end
  end.

Lemma drain_stored calls fuel ts :
  (list_sum (map count ts) <= fuel)%nat → Forall stored ts → (length (flat_map leaves ts) < calls)%nat →
  drain calls fuel (map tree_link ts) = Ok (flat_map leaves ts).
Proof using Type*.
  revert ts. induction calls as [|calls IH]; intros ts Hn Hst Hc; [lia|]. cbn [drain].
  pose proof (next_chunk_spec fuel ts Hn Hst) as Hnext.
  destruct (flat_map leaves ts) as [|d rest]; [by rewrite Hnext|].
  destruct Hnext as (ts' & -> & Hst' & <- & Hn'). rewrite IH by (done || simpl in Hc; lia). done.
Qed.
End reading.

Lemma count_nodes t : count t = (nodes t + length (leaves t))%nat.
Proof.
  induction t as [d|ts IH] using ftree_ind'; [done|]. cbn [count nodes leaves].
  rewrite length_flat_map. induction IH as [|t ts Ht _ IH]; [done|].
  cbn [map list_sum foldr]. unfold list_sum in *. lia.
Qed.

(** The in-memory fetcher has the blocks it was given, unless two of them share a CID. *)
Lemma memory_fetcher_has `{CidCrate} blocks b :
  (∀ b1 b2, b1 ∈ blocks → b2 ∈ blocks → b_cid b1 = b_cid b2 → b1 = b2) → b ∈ blocks →
  fetch (add_blocks blocks MemoryBlockFetcher_new) (b_cid b) = Ok b.
Proof.
  intros Hinj Hb. cbn [fetch MemoryBlockFetcher_fetcher]. apply ok_or_Ok.
  assert (∀ bs m, (∀ x, x ∈ bs → x ∈ blocks) → f_blocks m !! b_cid b = Some b ∨ b ∈ bs →
    f_blocks (add_blocks bs m) !! b_cid b = Some b) as Hadd; [|apply Hadd; auto].
  induction bs as [|x bs IH]; intros m Hsub [Hm|Hin]; simpl; try done; [by apply elem_of_nil in Hin| |].
  - apply IH; [set_solver|]. left. simpl. destruct (decide (b_cid x = b_cid b)) as [E|E].
    + rewrite E, lookup_insert_eq. f_equal. apply Hinj; set_solver.
    + by rewrite lookup_insert_ne.
  - apply IH; [set_solver|]. apply elem_of_cons in Hin as [-> | Hin]; [|by right].
    left. simpl. by rewrite lookup_insert_eq.
Qed.

Section properties.
Context `{CidCrate} `{!CidLaws}.

(** C6. Chunking round trip: from any fetcher that has the blocks of a chunked file, both
    readers give the file back: [read_chunked_file] returns exactly the data that was chunked, and
    the stream of [next_chunk] yields as many chunks as were counted, in order, and ends; one unit
    of fuel per block is enough. *)
Theorem chunk_read_roundtrip {F} `{!BlockFetcher F} (f : F) (fuel : nat) (config : ChunkingConfig)
    (data : bytes) (file : ChunkedFile)
    (Hok : config_ok config) (Hm : 0 <= max_links_per_node config) (Hs : zlen data <= isize_max)
    (Hchunk : chunk fuel config data = Ok file)
    (Hf : ∀ b, b ∈ cf_blocks file → fetch f (b_cid b) = Ok b) :
  (∀ n, (length (cf_blocks file) <= n)%nat → read_chunked_file n f (root_cid file) = Ok data) ∧
  ∃ ds, drain f (S (chunk_count file)) (length (cf_blocks file)) [DagLink_new (root_cid file) (zlen data)] = Ok ds
    ∧ concat ds = data ∧ length ds = chunk_count file.
Proof using Type*.
  destruct (chunk_tree fuel config data file) as (t & h & Hb & Hc & Hr & Hn & Hl & Hsub); [done..|].
  assert (stored f t) as Hst.
  { split; [by rewrite Hc|]. intros s Hin. destruct (Hsub s Hin) as [Hin' Hfit].
    split; [|done]. apply (Hf _ Hin'). }
  rewrite Hr. split.
  - intros n Hlen. rewrite <- Hc. apply (read_stored f h); [done|done|lia].
  - exists (leaves t). split_and!; [|done|done].
    replace (DagLink_new (tree_cid t) (zlen data)) with (tree_link t) by (unfold tree_link; by rewrite Hc).
    change [tree_link t] with (map tree_link [t]). rewrite drain_stored.
    + simpl. by rewrite app_nil_r.
    + simpl. rewrite count_nodes. lia.
    + by apply Forall_singleton.
    + simpl. rewrite app_nil_r. lia.
Qed.

(** ** The parallel chunker *)
Lemma group_node_raw g c node :
  group_node g = Ok (c, node) →
  ∃ nb, DagNode_to_dag_cbor node = Ok nb ∧ c = raw_cid nb ∧ total_size node = 0.
Proof using Type*.
  unfold group_node. intros Hg. apply outcome_bind_Ok in Hg as (nb & Hnb & Hg).
  apply map_err_Ok in Hnb. apply outcome_bind_Ok in Hg as (b & Hb & Hg). apply map_err_Ok in Hb.
  rewrite Block_new_eq in Hb. case_decide; [|done]. injection Hb as <-. injection Hg as <- <-. eauto.
Qed.

Lemma parallel_levels_raw fuel m cur nodes0 top nodes' :
  0 <= m → (2 <= length cur)%nat → parallel_levels fuel m cur nodes0 = Ok (top, nodes') →
  ∃ nb node rest, nodes' = nodes0 ++ rest ∧ last rest = Some node ∧ DagNode_to_dag_cbor node = Ok nb ∧
    total_size node = 0 ∧ (∀ c cs, top = c :: cs → c = raw_cid nb).
Proof using Type*.
  intros Hm. revert cur nodes0. induction fuel as [|fuel IH]; intros cur nodes0 Hl Hp; cbn [parallel_levels] in Hp;
    destruct (Nat.leb_spec (length cur) 1); try lia; [done|].
  apply outcome_bind_Ok in Hp as (groups & Hgs & Hp). apply chunks_Ok in Hgs as (Hcat & _); [|done].
  apply outcome_bind_Ok in Hp as (prs & Hprs & Hp).
  apply try_map_Ok in Hprs.
  assert (∀ c node, (c, node) ∈ prs → ∃ nb, DagNode_to_dag_cbor node = Ok nb ∧ c = raw_cid nb ∧ total_size node = 0) as Hall.
  { intros c node Hin. apply list_elem_of_lookup in Hin as [i Hi].
    destruct (Forall2_lookup_r _ _ _ _ _ Hprs Hi) as (g & _ & Hg). by eapply group_node_raw. }
  destruct (decide (2 <= length prs)%nat) as [Hp2|Hp1].
  - apply IH in Hp as (nb & node & rest & -> & Hlast & Hn & Ht & Htop); [|by rewrite length_fmap].
    exists nb, node, (prs.*2 ++ rest). split_and!; [by rewrite app_assoc| |done..].
    rewrite last_app, Hlast. done.
  - destruct prs as [|[c node] [|]]; [| |simpl in Hp1; lia].
    { apply Forall2_nil_inv_r in Hprs as ->. subst cur. simpl in Hl. lia. }
    destruct (Hall c node) as (nb & Hnb & -> & Ht); [apply list_elem_of_here|].
    assert (top = [raw_cid nb] ∧ nodes' = nodes0 ++ [node]) as [-> ->]
      by (destruct fuel; simpl in Hp; by simplify_eq).
    exists nb, node, [node]. split_and!; try done. by intros c cs [= <- <-].
Qed.

(** The parallel chunker gives a file of more than one chunk a root CID with the raw codec:
    it is the raw CID of the encoded top node, whose total size is recorded as 0.  A reader given
    that block takes it for a leaf and returns the encoding of the node instead of the file. *)
Theorem parallel_root_is_raw {F} `{!BlockFetcher F} (f : F) (fuel : nat) (config : ParallelChunkingConfig)
    (data : bytes) (r : ParallelChunkingResult)
    (Hm : 0 <= p_max_links config) (Hp : chunk_parallel fuel config data = Ok r)
    (Hn : (2 <= p_chunk_count r)%nat) :
  ∃ node nb, last (dag_nodes r) = Some node ∧ total_size node = 0 ∧ DagNode_to_dag_cbor node = Ok nb ∧
    p_root_cid r = raw_cid nb ∧ Cid_codec (p_root_cid r) = RAW ∧
    (fetch f (p_root_cid r) = Ok (mkBlock (p_root_cid r) nb) →
     ∀ n, read_chunked_file n f (p_root_cid r) = Ok nb).
Proof using Type*.
  unfold chunk_parallel in Hp. apply outcome_bind_Ok in Hp as (ranges & _ & Hp).
  apply outcome_bind_Ok in Hp as (results & _ & Hp). apply outcome_bind_Ok in Hp as ([root nds] & Hb & Hp).
  injection Hp as <-. cbn [p_root_cid p_chunk_count dag_nodes] in *.
  destruct results as [|[c0 n0] [|cn results]]; [by simpl in Hn; lia..|].
  cbn [build_dag_parallel] in Hb. apply outcome_bind_Ok in Hb as ([top nds'] & Hl & Hb).
  apply parallel_levels_raw in Hl as (nb & node & rest & -> & Hlast & Hnb & Ht & Htop); [|done|simpl; lia].
  destruct top as [|c cs]; [done|]. injection Hb as <- <-. rewrite (Htop c cs) by done.
  exists node, nb. split_and!; try done; [apply raw_cid_codec|].
  intros Hf n. unfold read_chunked_file. rewrite Hf. cbn [outcome_bind b_cid b_data].
  by rewrite raw_cid_codec.
Qed.
End properties.

(** ** Witnesses at the reference crate *)
Import Reference.

(** Three chunks under two levels of nodes. *)
Definition demo_data : bytes := replicate 1024 1 ++ replicate 1024 2 ++ [3].
Definition demo_chunked : outcome Error ChunkedFile := chunk 10 (mkConfig 1024 FixedSize 2) demo_data.
Definition demo_blocks : list Block := match demo_chunked with Ok file => cf_blocks file | _ => [] end.
Definition demo_fetcher : MemoryBlockFetcher := add_blocks demo_blocks MemoryBlockFetcher_new.

(** No two blocks share a CID, compared by their bytes. *)
Fixpoint distinct_cids (bs : list Block) : bool :=
  match bs with
  | [] => true
  | b :: bs' =>
    forallb (λ b', negb (bool_decide (Cid_to_bytes (b_cid b) = Cid_to_bytes (b_cid b')))) bs'
    && distinct_cids bs'
  end.

Lemma distinct_cids_inj bs b1 b2 :
  distinct_cids bs = true → b1 ∈ bs → b2 ∈ bs → b_cid b1 = b_cid b2 → b1 = b2.
Proof.
  induction bs as [|b bs IH]; [by intros _ ?%elem_of_nil|]. cbn [distinct_cids].
  intros [Hb Hbs]%andb_true_iff H1 H2 E. rewrite forallb_forall in Hb.
  assert (∀ b', b' ∈ bs → b_cid b = b_cid b' → False) as Hne.
  { intros b' Hb' E'. apply list_elem_of_In in Hb'. specialize (Hb b' Hb').
    apply negb_true_iff, bool_decide_eq_false in Hb. by rewrite E' in Hb. }
  apply elem_of_cons in H1 as [-> | H1], H2 as [-> | H2]; try done; [| |by apply IH].
  - by destruct (Hne b2).
  - by destruct (Hne b1).
Qed.

Lemma demo_distinct : distinct_cids demo_blocks = true.
Proof. vm_compute. reflexivity. Qed.

Definition is_ok {E A} (m : outcome E A) : bool := match m with Ok _ => true | _ => false end.
Lemma is_ok_inv {E A} (m : outcome E A) : is_ok m = true → ∃ a, m = Ok a.
Proof. destruct m; eauto; done. Qed.

Lemma chunk_read_roundtrip_witness :
  ∃ file, demo_chunked = Ok file ∧
    read_chunked_file (length (cf_blocks file)) demo_fetcher (root_cid file) = Ok demo_data.
Proof.
  destruct (is_ok_inv demo_chunked) as [file Hfile]; [vm_compute; reflexivity|].
  exists file. split; [done|].
  assert (config_ok (mkConfig 1024 FixedSize 2)) as Hok
    by (unfold config_ok, MIN_CHUNK_SIZE, MAX_CHUNK_SIZE; simpl; lia).
  assert (zlen demo_data <= isize_max) as Hs by (apply Z.leb_le; vm_compute; reflexivity).
  refine (proj1 (chunk_read_roundtrip demo_fetcher 10 (mkConfig 1024 FixedSize 2) demo_data file
                   Hok ltac:(simpl; lia) Hs Hfile _) _ (Nat.le_refl _)).
  intros b Hb. apply memory_fetcher_has.
  - intros b1 b2. apply distinct_cids_inj, demo_distinct.
  - unfold demo_blocks. by rewrite Hfile.
Defined.

Definition demo_parallel : outcome Error ParallelChunkingResult :=
  chunk_parallel 10 (mkParallelConfig 1024 FixedSize 2 Sha256 None) demo_data.

Lemma parallel_root_is_raw_witness :
  ∃ r node nb, demo_parallel = Ok r ∧ last (dag_nodes r) = Some node ∧ p_root_cid r = raw_cid nb ∧
    read_chunked_file 1 (add_block (mkBlock (raw_cid nb) nb) MemoryBlockFetcher_new) (raw_cid nb) = Ok nb.
Proof.
  destruct (is_ok_inv demo_parallel) as [r Hr]; [vm_compute; reflexivity|].
  assert (match demo_parallel with Ok r => Nat.leb 2 (p_chunk_count r) | _ => false end = true) as Hn
    by (vm_compute; reflexivity).
  rewrite Hr in Hn. apply Nat.leb_le in Hn.
  assert (∀ f : MemoryBlockFetcher, ∃ node nb, last (dag_nodes r) = Some node ∧ p_root_cid r = raw_cid nb ∧
    (fetch f (p_root_cid r) = Ok (mkBlock (p_root_cid r) nb) → read_chunked_file 1 f (p_root_cid r) = Ok nb) ∧
    DagNode_to_dag_cbor node = Ok nb) as Hany.
  { intros f. destruct (parallel_root_is_raw f 10 (mkParallelConfig 1024 FixedSize 2 Sha256 None) demo_data r)
      as (node & nb & Hl & _ & Hd & Hroot & _ & Hread); [done|done|done|].
    exists node, nb. split_and!; [done|done|intros Hf; by apply Hread|done]. }
  destruct (Hany MemoryBlockFetcher_new) as (node & nb & Hl & Hroot & _ & Hd).
  exists r, node, nb. split_and!; [done..|].
  destruct (Hany (add_block (mkBlock (raw_cid nb) nb) MemoryBlockFetcher_new)) as (node' & nb' & Hl' & Hroot' & Hread & Hd').
  assert (node' = node) as -> by congruence. assert (nb' = nb) as -> by congruence.
  rewrite Hroot in Hread. apply Hread. cbn [fetch MemoryBlockFetcher_fetcher add_block f_blocks b_cid].
  by rewrite lookup_insert_eq.
Defined.
