(* ===== verification/Compression.v ===== *)
(** * Block compression: [crates/ipfrs-core/src/compression.rs]

    The [oxiarc_zstd] and [oxiarc_lz4] crates are not part of the repository: [Compressors] is
    what the code calls of them and [CompressorLaws] the documented behaviour it relies on.
    [store_compressors] is a concrete pair of uncompressed frame formats that satisfies the
    laws.  The compression ratio, a float, is left out. *)

From Stdlib Require Import ZArith Lia List.
From stdpp Require Import base tactics numbers list gmap sets strings.
From S2P Require Import Prelude Cid Ipld.

#[local] Open Scope Z_scope.

Inductive CompressionAlgorithm : Type := NoCompression | Zstd | Lz4.
#[global] Instance CompressionAlgorithm_eq_dec : EqDecision CompressionAlgorithm.
Proof. solve_decision. Defined.

Definition name (a : CompressionAlgorithm) : string :=
  match a with NoCompression => "none" | Zstd => "zstd" | Lz4 => "lz4" end.
Definition is_compressed (a : CompressionAlgorithm) : bool :=
  match a with NoCompression => false | _ => true end.
Definition all : list CompressionAlgorithm := [NoCompression; Zstd; Lz4].

(** [to_le_bytes] of a [u32]. *)
Definition le_bytes_u32 (v : Z) : bytes := le_bytes 4 v.

Class Compressors : Type := {
  zstd_compress_with_level : Z → bytes → option bytes;
  zstd_decompress : bytes → option bytes;
  lz4_compress : bytes → option bytes;
  lz4_decompress : bytes → Z → option bytes;
}.

(** Decompression inverts compression, given enough room; and a nonempty Zstandard input starts
    with the magic number of a frame, standard or skippable, the least of which, as a
    little-endian number, is [0x184D2A50]. *)
Class CompressorLaws `{Compressors} : Prop := {
  zstd_inverse : ∀ level d c, zstd_compress_with_level level d = Some c → zstd_decompress c = Some d;
  zstd_magic : ∀ c d, zstd_decompress c = Some d → (4 <= length c)%nat →
    0x184D2A50 <= of_le_bytes (take 4 c);
  lz4_inverse : ∀ d c room, lz4_compress d = Some c → zlen d <= room → lz4_decompress c room = Some d;
}.

Section compression.
Context `{Compressors}.

Definition compress_zstd (data : bytes) (level : Z) : outcome Error bytes :=
  let zstd_level := if level =? 0 then 1 else 1 + level * 21 / 9 in
  ok_or (zstd_compress_with_level zstd_level data) Internal.
Definition decompress_zstd (data : bytes) : outcome Error bytes := ok_or (zstd_decompress data) Internal.

Definition compress_lz4 (data : bytes) : outcome Error bytes :=
  let! payload := ok_or (lz4_compress data) Internal in
  Ok (le_bytes_u32 (as_u32 (zlen data)) ++ payload).
Definition decompress_lz4 (data : bytes) : outcome Error bytes :=
  if (length data <? 4)%nat then Err Internal else
  let orig_size := of_le_bytes (take 4 data) in
  let max_output := Z.max (Z.min u64_max (orig_size * 2)) (orig_size + 64) in
  ok_or (lz4_decompress (drop 4 data) max_output) Internal.

Definition compress (data : bytes) (algorithm : CompressionAlgorithm) (level : Z) : outcome Error bytes :=
  if 9 <? level then Err InvalidInput else
  match algorithm with
  | NoCompression => Ok data
  | Zstd => compress_zstd data level
  | Lz4 => compress_lz4 data
  end.
Definition decompress (data : bytes) (algorithm : CompressionAlgorithm) : outcome Error bytes :=
  match algorithm with
  | NoCompression => Ok data
  | Zstd => decompress_zstd data
  | Lz4 => decompress_lz4 data
  end.

(** ** The round trip of each algorithm *)
Context `{!CompressorLaws}.

Lemma of_le_bytes_u32 v r : 0 <= v < 2 ^ 32 → of_le_bytes (take 4 (le_bytes_u32 v ++ r)) = v.
Proof.
  intros Hv. unfold le_bytes_u32. rewrite take_app_length' by by rewrite length_le_bytes.
  by apply of_le_le_bytes.
Qed.

Lemma compress_lz4_shape data c :
  compress_lz4 data = Ok c →
  ∃ payload, lz4_compress data = Some payload ∧ c = le_bytes_u32 (as_u32 (zlen data)) ++ payload.
Proof.
  unfold compress_lz4. intros Hc. apply outcome_bind_Ok in Hc as (payload & Hp%ok_or_Ok & [= <-]). eauto.
Qed.

Lemma length_le_bytes_u32 v : length (le_bytes_u32 v) = 4%nat.
Proof. apply length_le_bytes. Qed.

Lemma compress_roundtrip data a level c :
  zlen data < 2 ^ 32 → compress data a level = Ok c → decompress c a = Ok data.
Proof using Type*.
  intros Hd. unfold compress. destruct (9 <? level); [done|]. destruct a; simpl.
  - congruence.
  - unfold compress_zstd, decompress_zstd. intros Hc%ok_or_Ok. apply ok_or_Ok. by eapply zstd_inverse.
  - intros (payload & Hp & ->)%compress_lz4_shape. unfold decompress_lz4.
    assert (0 <= zlen data) by (unfold zlen; lia). rewrite as_u32_small by lia.
    rewrite length_app, length_le_bytes_u32. simpl Nat.ltb.
    rewrite of_le_bytes_u32, drop_app_length' by (lia || by rewrite length_le_bytes_u32).
    apply ok_or_Ok. eapply lz4_inverse; [done|]. lia.
Qed.

(** What LZ4 wrote for a block is never taken for Zstandard: its header is the length. *)
Lemma lz4_not_zstd data c :
  zlen data < 0x184D2A50 → compress_lz4 data = Ok c → zstd_decompress c = None.
Proof using Type*.
  intros Hd (payload & Hp & ->)%compress_lz4_shape.
  destruct (zstd_decompress _) as [d|] eqn:E; [|done]. exfalso.
  assert (0 <= zlen data) by (unfold zlen; lia). rewrite as_u32_small in E by lia.
  apply zstd_magic in E; [|rewrite length_app, length_le_bytes_u32; lia].
  rewrite of_le_bytes_u32 in E by lia. lia.
Qed.
End compression.

(** ** A concrete pair of formats: a magic number and the bytes as they are *)
Module Stored.
Definition zstd_header : bytes := [0x28; 0xB5; 0x2F; 0xFD].
Definition lz4_header : bytes := [0x04; 0x22; 0x4D; 0x18].
Definition strip (header c : bytes) : option bytes :=
  if decide (take 4 c = header) then Some (drop 4 c) else None.

#[export] Instance store_compressors : Compressors := {
  zstd_compress_with_level _ d := Some (zstd_header ++ d);
  zstd_decompress c := strip zstd_header c;
  lz4_compress d := Some (lz4_header ++ d);
  lz4_decompress c room :=
    d ← strip lz4_header c; if zlen d <=? room then Some d else None;
}.

#[export] Instance store_laws : CompressorLaws.
Proof.
  split; simpl.
  - by intros _ d c [= <-].
  - intros c d. unfold strip. case_decide as E; [|done]. intros _ _. by rewrite E.
  - intros d c room [= <-] Hr. simpl. by rewrite (proj2 (Z.leb_le _ _)).
Qed.
End Stored.
