(* ===== verification/Car.v ===== *)
(** * CAR archives: [crates/ipfrs-core/src/car.rs]

    An archive is a length-prefixed DAG-CBOR header with the root CIDs, then one length-prefixed
    section per block: CID, compression flag, data.  The writer appends to a vector, which never
    fails; the reader is the list of bytes still unread, and no call is made after an error.
    Reading the CID at the front of a section is done by the [cid] crate ([CidReader]). *)

From Stdlib Require Import ZArith Lia List.
From stdpp Require Import base tactics numbers list gmap sets strings.
From S2P Require Import Prelude Collections Cid Ipld Block Compression.

#[local] Open Scope Z_scope.

Definition CAR_VERSION : Z := 1.
Definition MAX_VARINT_SIZE : nat := 10.

(** [Cid::read_bytes]: the CID at the front of the bytes and what follows it. *)
Class CidReader `{CidCrate} : Type := { Cid_read_bytes : bytes → option (Cid * bytes) }.
Class CidReaderLaws `{CidReader} : Prop := {
  Cid_read_to_bytes : ∀ c r, Cid_read_bytes (Cid_to_bytes c ++ r) = Some (c, r);
}.

(** ** Variable-length integers *)

(** The loop of [write_varint]: at most ten bytes for a [u64]. *)
Fixpoint varint_bytes (fuel : nat) (value : Z) : bytes :=
  match fuel with
  | O => []
  | S fuel' =>
    let byte := Z.land value 0x7f in
    let value := Z.shiftr value 7 in
    if value =? 0 then [byte] else Z.lor byte 0x80 :: varint_bytes fuel' value
  end.
Definition write_varint (value : Z) (out : bytes) : bytes := out ++ varint_bytes MAX_VARINT_SIZE value.

(** [read_exact] of the standard library. *)
Definition read_exact_io (n : Z) (r : bytes) : outcome Error (bytes * bytes) :=
  map_err (λ _, Io) (read_exact n r).

(** The loop of [read_varint_opt]: [None] at the end of the input. *)
Fixpoint read_varint_loop (rounds : nat) (r : bytes) (result shift : Z) : outcome Error (option Z * bytes) :=
  match rounds with
  | O => Err Deserialization
  | S rounds' =>
    match r with
    | [] => if shift =? 0 then Ok (None, []) else Err Io
    | byte :: r =>
      let result := Z.lor result (as_u64 (Z.shiftl (Z.land byte 0x7f) shift)) in
      if Z.land byte 0x80 =? 0 then Ok (Some result, r)
      else if 64 <=? shift + 7 then Err Deserialization
      else read_varint_loop rounds' r result (shift + 7)
    end
  end.
Definition read_varint_opt (r : bytes) : outcome Error (option Z * bytes) :=
  read_varint_loop MAX_VARINT_SIZE r 0 0.
Definition read_varint (r : bytes) : outcome Error (Z * bytes) :=
  let! (v, r) := read_varint_opt r in
  let! v := ok_or v Deserialization in
  Ok (v, r).

Section car.
Context `{CidCrate} `{!CidReader} `{!Compressors}.

(** ** The header *)
Record CarHeader : Type := mkCarHeader { version : Z; roots : list Cid }.
Definition CarHeader_new (roots : list Cid) : CarHeader := mkCarHeader CAR_VERSION roots.

Definition header_ipld (h : CarHeader) : ipld :=
  IMap (bt_of_list [("version"%string, IInteger (version h)); ("roots"%string, IList (map ILink (roots h)))]).
Definition encode_header (h : CarHeader) : outcome Error bytes := to_dag_cbor (header_ipld h).

Definition root_of (item : ipld) : outcome Error Cid :=
  match item with ILink c => Ok c | _ => Err Deserialization end.

Definition decode_header (data : bytes) : outcome Error CarHeader :=
  let! i := from_dag_cbor data in
  let! m := ok_or (as_map i) Deserialization in
  let! v :=
    match bt_get "version"%string m with
    | Some (IInteger v) => Ok (as_u64 v)
    | _ => Err Deserialization
    end in
  if negb (v =? CAR_VERSION) then Err Deserialization else
  let! roots :=
    match bt_get "roots"%string m with
    | Some (IList l) => try_map root_of l
    | _ => Err Deserialization
    end in
  Ok (mkCarHeader v roots).

(** ** Statistics; the ratios, which are floats, are left out *)
Record CarCompressionStats : Type := mkCarStats {
  blocks_processed : nat;
  uncompressed_bytes : nat;
  compressed_bytes : nat;
  blocks_compressed : nat;
}.
Definition CarCompressionStats_new : CarCompressionStats := mkCarStats 0 0 0 0.
Definition bytes_saved (s : CarCompressionStats) : nat := uncompressed_bytes s - compressed_bytes s.

(** ** Writing *)
Record CarWriter : Type := mkCarWriter {
  writer : bytes;
  header_written : bool;
  compression : option (CompressionAlgorithm * Z);
  stats : CarCompressionStats;
}.

Definition write_header (h : CarHeader) : stateful CarWriter Error unit :=
  do! header_bytes := lift (encode_header h) in
  modifies (λ w, mkCarWriter (write_varint (zlen header_bytes) (writer w) ++ header_bytes) true
                   (compression w) (stats w)).

Definition CarWriter_new_with_options (out : bytes) (roots : list Cid)
    (compression : option (CompressionAlgorithm * Z)) : outcome Error CarWriter :=
  match write_header (CarHeader_new roots) (mkCarWriter out false compression CarCompressionStats_new) with
  | (Ok _, w) => Ok w
  | (Err e, _) => Err e
  | (Panic, _) => Panic
  | (OutOfFuel, _) => OutOfFuel
  end.
Definition CarWriter_new (out : bytes) (roots : list Cid) : outcome Error CarWriter :=
  CarWriter_new_with_options out roots None.

(** [CarWriterBuilder]: the roots, and the compression if any. *)
Record CarWriterBuilder : Type := mkCarWriterBuilder {
  wb_roots : list Cid;
  wb_compression : option (CompressionAlgorithm * Z);
}.
Definition CarWriterBuilder_new (roots : list Cid) : CarWriterBuilder := mkCarWriterBuilder roots None.
Definition with_compression (algorithm : CompressionAlgorithm) (level : Z) (b : CarWriterBuilder) :
    CarWriterBuilder :=
  mkCarWriterBuilder (wb_roots b) (Some (algorithm, level)).
Definition build_writer (out : bytes) (b : CarWriterBuilder) : outcome Error CarWriter :=
  CarWriter_new_with_options out (wb_roots b) (wb_compression b).

Definition count_block (n : nat) (s : CarCompressionStats) : CarCompressionStats :=
  mkCarStats (blocks_processed s + 1) (uncompressed_bytes s + n) (compressed_bytes s) (blocks_compressed s).
Definition count_written (n : nat) (was_compressed : bool) (s : CarCompressionStats) : CarCompressionStats :=
  mkCarStats (blocks_processed s) (uncompressed_bytes s) (compressed_bytes s + n)
    (blocks_compressed s + if was_compressed then 1 else 0)%nat.
Definition with_stats (f : CarCompressionStats → CarCompressionStats) (w : CarWriter) : CarWriter :=
  mkCarWriter (writer w) (header_written w) (compression w) (f (stats w)).

(** The data to write and its flag; the level is an [i32] cast to [u8]. *)
Definition encode_block (compression : option (CompressionAlgorithm * Z)) (data : bytes) :
    outcome Error (bytes * bool) :=
  match compression with
  | Some (algorithm, level) =>
    let! compressed := compress data algorithm (level mod 256) in
    Ok (compressed, negb (bool_decide (algorithm = NoCompression)))
  | None => Ok (data, false)
  end.

Definition write_block (b : Block) : stateful CarWriter Error unit :=
  do! written := reads (λ w, Ok (header_written w)) in
  if negb written then lift (Err InvalidData) else
  let cid_bytes := Cid_to_bytes (b_cid b) in
  do! _ := modifies (with_stats (count_block (length (b_data b)))) in
  do! (final_data, was_compressed) := reads (λ w, encode_block (compression w) (b_data b)) in
  do! _ := modifies (with_stats (count_written (length final_data) (was_compressed : bool))) in
  let total_len := zlen cid_bytes + 1 + zlen final_data in
  let flag := if was_compressed : bool then 1 else 0 in
  modifies (λ w,
    mkCarWriter (write_varint total_len (writer w) ++ cid_bytes ++ [flag] ++ final_data)
      (header_written w) (compression w) (stats w)).

(** A client that writes a list of blocks. *)
Fixpoint write_blocks (bs : list Block) : stateful CarWriter Error unit :=
  match bs with
  | [] => lift (Ok tt)
  | b :: bs' => do! _ := write_block b in write_blocks bs'
  end.
Definition write_car (roots : list Cid) (bs : list Block) (compression : option (CompressionAlgorithm * Z)) :
    outcome Error bytes :=
  let! w := CarWriter_new_with_options [] roots compression in
  match write_blocks bs w with
  | (Ok _, w) => Ok (writer w)
  | (Err e, _) => Err e
  | (Panic, _) => Panic
  | (OutOfFuel, _) => OutOfFuel
  end.

(** ** Reading *)
Record CarReader : Type := mkCarReader { reader : bytes; header : CarHeader }.

Definition CarReader_new (r : bytes) : outcome Error CarReader :=
  let! (header_len, r) := read_varint r in
  let! _ := alloc header_len 1 in
  let! (header_bytes, r) := read_exact_io header_len r in
  let! h := decode_header header_bytes in
  Ok (mkCarReader r h).

(** [decompress(Zstd).or_else(|_| decompress(Lz4))]. *)
Definition decompress_any (raw : bytes) : outcome Error bytes :=
  match decompress raw Zstd with
  | Err _ => decompress raw Lz4
  | o => o
  end.

(** One section: the CID, the flag if there is one, and the data, which must have that CID. *)
Definition parse_section (block_bytes : bytes) : outcome Error Block :=
  let! (cid, cursor) := ok_or (Cid_read_bytes block_bytes) CidError in
  let! (is_compressed, raw_data) :=
    match cursor with
    | [] => Err Deserialization
    | flag :: data =>
      if (flag =? 0) || (flag =? 1) then Ok (flag =? 1, data) else Ok (false, cursor)
    end in
  let! final_data := if is_compressed : bool then decompress_any raw_data else Ok raw_data in
  let! block := Block_new final_data in
  if decide (b_cid block = cid) then Ok block else Err InvalidData.

Definition read_block (r : bytes) : outcome Error (option Block * bytes) :=
  let! (total_len, r) := read_varint_opt r in
  match total_len with
  | None => Ok (None, r)
  | Some total_len =>
    let! _ := alloc total_len 1 in
    let! (block_bytes, r) := read_exact_io total_len r in
    let! block := parse_section block_bytes in
    Ok (Some block, r)
  end.

(** [while let Some(block) = self.read_block()?]: a section takes at least one byte, so one unit
    of fuel per byte and one more are enough. *)
Fixpoint read_all_loop (fuel : nat) (r : bytes) (blocks : list Block) : outcome Error (list Block) :=
  match fuel with
  | O => OutOfFuel
  | S fuel' =>
    let! (b, r) := read_block r in
    match b with
    | Some b => read_all_loop fuel' r (blocks ++ [b])
    | None => Ok blocks
    end
  end.
Definition read_all_blocks (cr : CarReader) : outcome Error (list Block) :=
  read_all_loop (S (length (reader cr))) (reader cr) [].

Definition read_car (archive : bytes) : outcome Error (list Cid * list Block) :=
  let! cr := CarReader_new archive in
  let! bs := read_all_blocks cr in
  Ok (roots (header cr), bs).
End car.

(** The reader of the concrete crate. *)
#[export] Instance Reference_reader : CidReader (H := Cid.Reference.crate) := {
  Cid_read_bytes l :=
    let n := match l with v :: _ => if v =? 0x12 then 5%nat else 15%nat | [] => 0%nat end in
    c ← Cid_try_from (CidCrate := Cid.Reference.crate) (take n l); Some (c, drop n l);
}.
