(* ===== verification/CarFacts.v ===== *)
(** * Properties of CAR archives *)

From Stdlib Require Import ZArith Lia List.
From stdpp Require Import base tactics numbers list gmap sets strings.
From S2P Require Import Prelude Collections Cid CidFacts Ipld IpldFacts Block BlockFacts Compression Car Chunking RabinFacts ChunkingFacts Streaming StreamingFacts.

#[local] Open Scope Z_scope.

(** ** Variable-length integers *)
Lemma low_byte_facts v :
  0 <= v →
  let b := Z.land v 0x7f in
  b = v mod 128 ∧ Z.land b 0x7f = b ∧ Z.land b 0x80 = 0 ∧
  Z.land (Z.lor b 0x80) 0x7f = b ∧ Z.land (Z.lor b 0x80) 0x80 = 0x80.
Proof.
  intros Hv b. assert (b = v mod 128) as Eb by (apply (Z.land_ones v 7); lia).
  pose proof (Z.mod_pos_bound v 128 eq_refl) as Hb. rewrite <- Eb in Hb.
  assert (Z.land b 0x7f = b) as E1.
  { change 0x7f with (Z.ones 7). rewrite Z.land_ones by lia. apply Z.mod_small. lia. }
  assert (Z.land b 0x80 = 0) as E2.
  { rewrite Z.land_comm. apply (land_shiftl_low 1 7 b); lia. }
  split_and!; [done..| |]; rewrite Z.land_lor_distr_l, ?E1, ?E2; [apply Z.lor_0_r|done].
Qed.

Lemma read_varint_loop_spec n v rest result shift :
  0 <= shift → shift = 7 * (10 - Z.of_nat n) → 0 <= v < 2 ^ (64 - shift) → 0 <= result < 2 ^ shift → shift < 64 →
  read_varint_loop n (varint_bytes n v ++ rest) result shift = Ok (Some (result + v * 2 ^ shift), rest).
Proof.
  revert v result shift. induction n as [|n IH]; intros v result shift Hs Hn Hv Hr H64; [lia|].
  destruct (low_byte_facts v) as (E & E1 & E2 & E3 & E4); [lia|]. cbn [varint_bytes].
  set (b := Z.land v 0x7f) in *. rewrite Z.shiftr_div_pow2 by lia. change (2 ^ 7) with 128.
  pose proof (Z.div_mod v 128 ltac:(lia)) as Hdm. pose proof (Z.mod_pos_bound v 128 eq_refl).
  assert (2 ^ (64 - shift) * 2 ^ shift = 2 ^ 64) as Hpow by (rewrite <- Z.pow_add_r by lia; f_equal; lia).
  assert (0 < 2 ^ shift) by (apply Z.pow_pos_nonneg; lia).
  assert (∀ x, 0 <= x < 2 ^ (64 - shift) →
            Z.lor result (as_u64 (Z.shiftl x shift)) = result + x * 2 ^ shift) as Hor.
  { intros x Hx. rewrite as_u64_small by (rewrite Z.shiftl_mul_pow2 by lia; nia).
    rewrite Z.lor_comm, lor_shiftl_low by lia. lia. }
  assert (b <= v) by (rewrite E; apply Z.mod_le; lia).
  destruct (Z.eqb_spec (v / 128) 0) as [Hz|Hz]; cbn [app read_varint_loop].
  - rewrite E1, E2, Hor by lia. simpl. do 3 f_equal. lia.
  - rewrite E3, E4, Hor by lia. change (0x80 =? 0) with false. cbn iota.
    assert (2 ^ 7 <= 2 ^ (64 - shift)) as H7.
    { change (2 ^ 7) with 128. assert (1 <= v / 128) by (pose proof (Z.div_pos v 128); lia). lia. }
    assert (7 < 64 - shift).
    { destruct (Z.lt_ge_cases 7 (64 - shift)) as [|Hge]; [done|].
      pose proof (Z.pow_le_mono_r 2 (64 - shift) 7 ltac:(lia) Hge).
      assert (v / 128 < 1) by (apply Z.div_lt_upper_bound; lia). pose proof (Z.div_pos v 128). lia. }
    rewrite (proj2 (Z.leb_gt _ _)) by lia.
    assert (2 ^ (shift + 7) = 2 ^ shift * 128) as Ep by (rewrite Z.pow_add_r by lia; lia).
    rewrite IH; [| lia | lia | | |lia].
    + do 3 f_equal. rewrite Ep, E.
      replace (v * 2 ^ shift) with ((128 * (v / 128) + v mod 128) * 2 ^ shift) by (f_equal; lia). ring.
    + split; [apply Z.div_pos; lia|]. apply Z.div_lt_upper_bound; [lia|].
      replace (64 - (shift + 7)) with (64 - shift - 7) by lia.
      rewrite Z.pow_sub_r by lia. change (2 ^ 7) with 128.
      replace (64 - shift) with (64 - shift - 7 + 7) in Hv by lia. rewrite Z.pow_add_r in Hv by lia.
      change (2 ^ 7) with 128 in Hv.
      replace (2 ^ (64 - shift)) with (2 ^ (64 - shift - 7) * 128).
      2:{ change 128 with (2 ^ 7). rewrite <- Z.pow_add_r by lia. f_equal. lia. }
      rewrite Z.div_mul by lia. lia.
    + rewrite Ep. nia.
Qed.

Lemma read_varint_opt_bytes v rest :
  0 <= v < 2 ^ 64 → read_varint_opt (varint_bytes MAX_VARINT_SIZE v ++ rest) = Ok (Some v, rest).
Proof.
  intros Hv. unfold read_varint_opt, MAX_VARINT_SIZE. rewrite read_varint_loop_spec by lia.
  do 3 f_equal. simpl. lia.
Qed.

Lemma read_varint_bytes v rest :
  0 <= v < 2 ^ 64 → read_varint (varint_bytes MAX_VARINT_SIZE v ++ rest) = Ok (v, rest).
Proof. intros Hv. unfold read_varint. by rewrite read_varint_opt_bytes. Qed.

Lemma read_exact_io_app n (b r : bytes) : zlen b = n → read_exact_io n (b ++ r) = Ok (b, r).
Proof. intros Hn. unfold read_exact_io. by rewrite read_exact_app. Qed.

Section car.
Context `{CidCrate} `{!CidLaws} `{!CidReader} `{!CidReaderLaws} `{!Compressors} `{!CompressorLaws}.
Implicit Types b : Block.

(** ** The header *)
Lemma header_wf roots :
  zlen roots * ipld_size <= isize_max → wf_ipld (header_ipld (CarHeader_new roots)).
Proof using Type*.
  intros Hr. pose proof ipld_size_bound. unfold header_ipld, CarHeader_new. cbn [version Car.roots].
  change (bt_of_list _) with [("roots"%string, IList (map ILink roots)); ("version"%string, IInteger CAR_VERSION)].
  assert (zlen (map ILink roots) = zlen roots) as E by (unfold zlen; by rewrite length_map).
  cbn [wf_ipld foldr fst snd]. rewrite E. pose proof (zlen_nonneg roots). unfold isize_max in *.
  assert (Forall wf_ipld (map ILink roots)) as Hall.
  { apply Forall_forall. intros i (c & <- & _)%list_elem_of_In%in_map_iff. simpl.
    pose proof (Cid_to_bytes_bound c). unfold zlen, isize_max. split; [lia|apply Cid_try_from_to_bytes]. }
  split_and!; try (by apply str_okb_ok); try done; try (by apply foldr_and_Forall);
    try (unfold CAR_VERSION; nia). repeat constructor.
Qed.

Lemma header_roundtrip roots hb :
  zlen roots * ipld_size <= isize_max → encode_header (CarHeader_new roots) = Ok hb →
  decode_header hb = Ok (CarHeader_new roots).
Proof using Type*.
  intros Hr Hb. unfold encode_header in Hb. rewrite to_dag_cbor_cbor in Hb by (by apply header_wf).
  assert (hb = cbor (header_ipld (CarHeader_new roots))) as -> by congruence. unfold decode_header.
  rewrite <- (app_nil_r (cbor _)), from_dag_cbor_cbor by (by apply header_wf).
  cbn [outcome_bind]. unfold header_ipld. cbn [as_map ok_or outcome_bind].
  change (bt_of_list _) with [("roots"%string, IList (map ILink roots)); ("version"%string, IInteger CAR_VERSION)].
  change (bt_get "version"%string _) with (Some (IInteger CAR_VERSION)). cbn iota.
  change (as_u64 CAR_VERSION) with CAR_VERSION. cbn [outcome_bind]. rewrite Z.eqb_refl. cbn [negb].
  change (bt_get "roots"%string _) with (Some (IList (map ILink roots))). cbn iota.
  change (map ILink roots) with (ILink <$> roots). rewrite try_map_fmap; [done|].
  apply Forall_forall. done.
Qed.

(** ** Sections *)
Lemma encode_block_roundtrip compression data fd wc :
  zlen data <= MAX_BLOCK_SIZE → encode_block compression data = Ok (fd, wc) →
  (if wc then decompress_any fd else Ok fd) = Ok data.
Proof using Type*.
  intros Hd He. unfold MAX_BLOCK_SIZE in Hd. destruct compression as [[a level]|]; simpl in He; [|by simplify_eq].
  apply outcome_bind_Ok in He as (c & Hc & He). injection He as <- <-.
  destruct a; simpl.
  - unfold compress in Hc. by destruct (9 <? _).
  - pose proof (compress_roundtrip data Zstd _ c ltac:(lia) Hc) as Hz. simpl in Hz. unfold decompress_any.
    simpl. by rewrite Hz.
  - pose proof (compress_roundtrip data Lz4 _ c ltac:(lia) Hc) as Hz. unfold decompress_any. simpl in *.
    unfold compress in Hc. destruct (9 <? _); [done|]. unfold decompress_zstd.
    rewrite (lz4_not_zstd data) by (done || lia). done.
Qed.

Definition section_of (b : Block) (fd : bytes) (wc : bool) : bytes :=
  Cid_to_bytes (b_cid b) ++ [if wc then 1 else 0] ++ fd.
Definition framed (s : bytes) : bytes := varint_bytes MAX_VARINT_SIZE (zlen s) ++ s.

Lemma parse_section_of compression b fd wc :
  block_sized (b_data b) → encode_block compression (b_data b) = Ok (fd, wc) →
  parse_section (section_of b fd wc)
  = if decide (b_cid b = raw_cid (b_data b)) then Ok b else Err InvalidData.
Proof using Type*.
  intros Hb He. unfold parse_section, section_of. rewrite Cid_read_to_bytes. cbn [ok_or outcome_bind app].
  assert (((if wc then 1 else 0) =? 0) || ((if wc then 1 else 0) =? 1) = true) as -> by (by destruct wc).
  assert (((if wc then 1 else 0) =? 1) = wc) as -> by (by destruct wc). cbn [outcome_bind].
  rewrite (encode_block_roundtrip compression (b_data b)); [|unfold block_sized, zlen in *; lia|done].
  cbn [outcome_bind]. rewrite Block_new_eq, decide_True by done. cbn [outcome_bind b_cid].
  destruct (decide (b_cid b = raw_cid (b_data b))) as [E|E].
  - rewrite decide_True by done. rewrite <- E. by destruct b.
  - by rewrite decide_False by (by intros E'; apply E).
Qed.

Lemma read_framed s rest :
  zlen s <= isize_max →
  read_block (framed s ++ rest) = let! b := parse_section s in Ok (Some b, rest).
Proof using.
  intros Hs. unfold framed, read_block. rewrite <- app_assoc.
  rewrite read_varint_opt_bytes by (apply isize_lt_u64; pose proof (zlen_nonneg s); lia).
  cbn [outcome_bind]. rewrite alloc_ok by lia. cbn [outcome_bind].
  by rewrite read_exact_io_app.
Qed.

(** ** Writing a list of blocks *)
Lemma write_block_eq b w :
  header_written w = true →
  write_block b w =
  match encode_block (compression w) (b_data b) with
  | Ok (fd, wc) =>
    (Ok tt, mkCarWriter (writer w ++ framed (section_of b fd wc)) true (compression w)
              (count_written (length fd) wc (count_block (length (b_data b)) (stats w))))
  | Err e => (Err e, with_stats (count_block (length (b_data b))) w)
  | Panic => (Panic, with_stats (count_block (length (b_data b))) w)
  | OutOfFuel => (OutOfFuel, with_stats (count_block (length (b_data b))) w)
  end.
Proof using.
  intros Hh. unfold write_block, st_bind, reads, modifies. rewrite Hh. cbn [negb].
  unfold with_stats at 1. cbn [compression writer header_written stats].
  destruct (encode_block (compression w) (b_data b)) as [[fd wc]| | |]; try done.
  unfold with_stats. cbn [compression writer header_written stats]. rewrite Hh.
  unfold framed, section_of, write_varint. rewrite <- !app_assoc. do 6 f_equal.
  unfold zlen. rewrite !length_app. cbn [length]. lia.
Qed.

Inductive writes (compression : option (CompressionAlgorithm * Z)) : list Block → bytes → Prop :=
| writes_nil : writes compression [] []
| writes_cons b bs fd wc out :
    encode_block compression (b_data b) = Ok (fd, wc) → writes compression bs out →
    writes compression (b :: bs) (framed (section_of b fd wc) ++ out).

Lemma write_blocks_writes bs w w' :
  header_written w = true → write_blocks bs w = (Ok tt, w') →
  ∃ out, writer w' = writer w ++ out ∧ writes (compression w) bs out.
Proof using.
  revert w. induction bs as [|b bs IH]; intros w Hh Hw; cbn [write_blocks] in Hw.
  { injection Hw as <-. exists []. rewrite app_nil_r. split; [done|constructor]. }
  apply st_bind_Ok in Hw as ([] & w1 & Hb & Hw). rewrite write_block_eq in Hb by done.
  destruct (encode_block (compression w) (b_data b)) as [[fd wc]| | |] eqn:He; try done.
  assert (w1 = (mkCarWriter (writer w ++ framed (section_of b fd wc)) true (compression w)
      (count_written (length fd) wc (count_block (length (b_data b)) (stats w))))) as -> by congruence.
  apply IH in Hw as (out & Hout & Hws); [|done]. cbn [writer compression] in *.
  exists (framed (section_of b fd wc) ++ out). split; [by rewrite Hout, <- app_assoc|by constructor].
Qed.

(** ** Reading them back *)
Lemma framed_nonempty s : (0 < length (framed s))%nat.
Proof.
  assert (∀ n v, (0 < n)%nat → (0 < length (varint_bytes n v))%nat) as Hv.
  { intros [|n] v Hn; [lia|]. cbn [varint_bytes]. case_match; simpl; lia. }
  unfold framed. rewrite length_app. specialize (Hv MAX_VARINT_SIZE (zlen s)).
  unfold MAX_VARINT_SIZE in Hv at 1. lia.
Qed.

Lemma read_all_writes compression bs out fuel acc :
  writes compression bs out → Forall (λ b, block_sized (b_data b)) bs → zlen out <= isize_max →
  (length out < fuel)%nat →
  read_all_loop fuel out acc
  = if decide (Forall (λ b, b_cid b = raw_cid (b_data b)) bs) then Ok (acc ++ bs) else Err InvalidData.
Proof using Type*.
  intros Hw. revert fuel acc. induction Hw as [|b bs fd wc out He Hw IH]; intros fuel acc Hsz Hout Hfuel.
  - destruct fuel; [simpl in *; lia|]. by rewrite decide_True, app_nil_r by done.
  - apply Forall_cons in Hsz as [Hb Hsz]. destruct fuel as [|fuel]; [lia|]. cbn [read_all_loop].
    pose proof (framed_nonempty (section_of b fd wc)). unfold zlen in Hout. rewrite length_app in Hout, Hfuel.
    rewrite read_framed by (unfold framed in *; rewrite length_app in *; unfold zlen; lia).
    rewrite (parse_section_of compression) by done.
    destruct (decide (b_cid b = raw_cid (b_data b))) as [E|E]; cbn [outcome_bind].
    + rewrite IH by (done || unfold zlen; lia). rewrite <- app_assoc. simpl app.
      destruct (decide (Forall _ bs)) as [Hall|Hall].
      * rewrite decide_True by (by constructor). done.
      * rewrite decide_False by (by intros [_ ?]%Forall_cons). done.
    + rewrite decide_False by (by intros [? _]%Forall_cons). done.
Qed.

Lemma new_writer_header compression roots w :
  CarWriter_new_with_options [] roots compression = Ok w →
  ∃ hb, encode_header (CarHeader_new roots) = Ok hb ∧ writer w = framed hb ∧
    header_written w = true ∧ Car.compression w = compression.
Proof using.
  unfold CarWriter_new_with_options, write_header, lift, modifies, st_bind.
  destruct (encode_header _) as [hb| | |]; try done. intros [= <-]. by exists hb.
Qed.
End car.

Section properties.
Context `{CidCrate} `{!CidLaws} `{!CidReader} `{!CidReaderLaws} `{!Compressors} `{!CompressorLaws}.

Lemma read_written roots bs compression archive :
  zlen roots * ipld_size <= isize_max → Forall (λ b, block_sized (b_data b)) bs →
  write_car roots bs compression = Ok archive → zlen archive <= isize_max →
  read_car archive =
  if decide (Forall (λ b, b_cid b = raw_cid (b_data b)) bs) then Ok (roots, bs) else Err InvalidData.
Proof using Type*.
  intros Hroots Hsz Hw Ha.
  unfold write_car in Hw. apply outcome_bind_Ok in Hw as (w & Hn & Hw).
  apply new_writer_header in Hn as (hb & Hhb & Hwr & Hh & Hc).
  destruct (write_blocks bs w) as [[[]| | |] w'] eqn:Hb; try done. assert (archive = writer w') as -> by congruence.
  apply write_blocks_writes in Hb as (out & Hout & Hws); [|done]. rewrite Hc in Hws.
  rewrite Hout, Hwr in Ha |- *. unfold framed in Ha |- *. rewrite !zlen_app in Ha.
  pose proof (zlen_nonneg hb). pose proof (zlen_nonneg out).
  pose proof (zlen_nonneg (varint_bytes MAX_VARINT_SIZE (zlen hb))).
  unfold read_car, CarReader_new. rewrite <- app_assoc.
  rewrite read_varint_bytes by (apply isize_lt_u64; lia). cbn [outcome_bind].
  rewrite alloc_ok by lia. cbn [outcome_bind]. rewrite read_exact_io_app by done. cbn [outcome_bind].
  rewrite (header_roundtrip roots) by done. cbn [outcome_bind]. unfold read_all_blocks. cbn [reader header].
  rewrite (read_all_writes compression bs) by (done || lia). by case_decide.
Qed.

(** C10. CAR round trip, exactly: whatever roots and blocks are written, compressed or not, an
    archive that was written reads back as the same roots and blocks when every CID is the raw
    SHA2-256 CID of its data; as soon as one block has another CID, even a correct one such as that
    of a DAG-CBOR node, reading the archive fails with an invalid-data error. *)
Theorem car_roundtrip (roots : list Cid) (bs : list Block)
    (compression : option (CompressionAlgorithm * Z)) (archive : bytes)
    (Hroots : zlen roots * ipld_size <= isize_max)
    (Hsz : Forall (λ b, block_sized (b_data b)) bs)
    (Hw : write_car roots bs compression = Ok archive) (Ha : zlen archive <= isize_max) :
  read_car archive =
  if decide (Forall (λ b, b_cid b = raw_cid (b_data b)) bs) then Ok (roots, bs) else Err InvalidData.
Proof using Type*. by apply (read_written roots bs compression). Qed.

(** Archiving a chunked file: the CAR of a file that fits one chunk reads back; the CAR of a
    file of two or more chunks, once written, can never be read back, because the reader
    recomputes a raw CID for the DAG-CBOR nodes and reports corrupt data. *)
Theorem car_of_chunked_file (fuel : nat) (config : ChunkingConfig) (data : bytes) (file : ChunkedFile)
    (compression : option (CompressionAlgorithm * Z)) (archive : bytes)
    (Hok : config_ok config) (Hm : 0 <= max_links_per_node config) (Hs : zlen data <= isize_max)
    (Hchunk : chunk fuel config data = Ok file)
    (Hw : write_car [root_cid file] (cf_blocks file) compression = Ok archive)
    (Ha : zlen archive <= isize_max) :
  (zlen data <= chunk_size config → read_car archive = Ok ([root_cid file], cf_blocks file)) ∧
  ((2 <= chunk_count file)%nat → read_car archive = Err InvalidData).
Proof using Type*.
  pose proof ipld_size_bound. pose proof (chunk_blocks_sized _ _ _ _ Hchunk) as Hsz.
  rewrite (read_written [root_cid file] (cf_blocks file) compression archive);
    [|unfold zlen, isize_max; simpl; lia|done..]. split.
  - intros Hle. unfold chunk in Hchunk. case_decide; [done|].
    rewrite (proj2 (Z.leb_le _ _)) in Hchunk by done. apply outcome_bind_Ok in Hchunk as (b & Hb & Hf).
    rewrite Block_new_eq in Hb. case_decide; [|done]. injection Hb as <-.
    assert (cf_blocks file = [mkBlock (raw_cid data) data]) as -> by (by injection Hf as <-).
    rewrite decide_True; [done|]. by apply Forall_singleton.
  - intros Hn. destruct (chunk_tree fuel config data file) as (t & h & _ & _ & _ & _ & Hl & Hsub); [done..|].
    rewrite decide_False; [done|]. intros Hall. rewrite Forall_forall in Hall.
    destruct t as [d|ts]; [simpl in Hl; lia|].
    destruct (Hsub (Node ts)) as [Hin _]; [apply list_elem_of_here|].
    apply Hall in Hin. by apply (raw_cid_ne_cbor (b_data (tree_block (Node ts))) (cbor (node_ipld ts))).
Qed.
End properties.

(** ** Witnesses at the reference crates *)
Import Cid.Reference Compression.Stored.

#[export] Instance reference_reader_laws : CidReaderLaws.
Proof.
  split. intros c r. cbn [Cid_read_bytes Reference_reader Cid_to_bytes Cid_try_from crate].
  assert (∃ n, length (to_bytes c) = n ∧ match to_bytes c ++ r with
      | v :: _ => if v =? 0x12 then 5%nat else 15%nat | [] => 0%nat end = n) as (n & Hl & ->).
  { destruct c as [d|[k [m d]]]; eexists; (split; [done|]); simpl; by rewrite ?length_app, ?length_be_bytes. }
  rewrite take_app_length', drop_app_length' by done. by rewrite try_from_to_bytes.
Qed.

Definition demo_raw (d : bytes) : Block := mkBlock (raw_cid d) d.
Definition demo_car : list Block := [demo_raw [1; 2; 3]; demo_raw [4]].

Lemma car_roundtrip_witness :
  ∃ archive, write_car [raw_cid [1]] demo_car (Some (Lz4, 3)) = Ok archive ∧
    read_car archive = Ok ([raw_cid [1]], demo_car).
Proof.
  destruct (is_ok_inv (write_car [raw_cid [1]] demo_car (Some (Lz4, 3)))) as [archive Hw];
    [vm_compute; reflexivity|].
  exists archive. split; [done|].
  assert (match write_car [raw_cid [1]] demo_car (Some (Lz4, 3)) with
          | Ok a => zlen a <=? isize_max | _ => false end = true) as Ha by (vm_compute; reflexivity).
  rewrite Hw in Ha. apply Z.leb_le in Ha.
  assert (Forall (λ b, block_sized (b_data b)) demo_car) as Hsz.
  { repeat constructor; simpl; unfold MIN_BLOCK_SIZE, MAX_BLOCK_SIZE; lia. }
  rewrite (car_roundtrip [raw_cid [1]] demo_car (Some (Lz4, 3)) archive ltac:(vm_compute; congruence) Hsz Hw Ha).
  rewrite decide_True; [done|]. by repeat constructor.
Defined.

Lemma checked {E A} (m : outcome E A) (P : A → bool) :
  match m with Ok a => P a | _ => false end = true → ∃ a, m = Ok a ∧ P a = true.
Proof. destruct m; eauto; done. Qed.

Lemma car_of_chunked_file_witness :
  ∃ file archive, demo_chunked = Ok file ∧ write_car [root_cid file] (cf_blocks file) None = Ok archive ∧
    read_car archive = Err InvalidData.
Proof.
  destruct (checked demo_chunked (λ file,
      match write_car [root_cid file] (cf_blocks file) None with
      | Ok a => (zlen a <=? isize_max) && Nat.leb 2 (chunk_count file) | _ => false end))
    as (file & Hfile & Hc); [vm_compute; reflexivity|].
  apply checked in Hc as (archive & Hw & [Ha%Z.leb_le Hn%Nat.leb_le]%andb_true_iff).
  exists file, archive. split_and!; [done..|].
  assert (config_ok (mkConfig 1024 FixedSize 2)) as Hok
    by (unfold config_ok, MIN_CHUNK_SIZE, MAX_CHUNK_SIZE; simpl; lia).
  assert (zlen demo_data <= isize_max) as Hs by (apply Z.leb_le; vm_compute; reflexivity).
  exact (proj2 (car_of_chunked_file 10 (mkConfig 1024 FixedSize 2) demo_data file None archive
                  Hok ltac:(simpl; lia) Hs Hfile Hw Ha) Hn).
Defined.
