(* ===== verification/StorageGc.v ===== *)
(** * Garbage collection of the block store: [crates/ipfrs-storage/src/gc.rs]

    [collect] marks from the pins of the pin manager through the link resolver and sweeps the
    store; [orphan_collect] is the collector that does not follow links.  The store is any
    [ColdStore], the pin manager that of [Pinning].  Other tasks may set the cancel flag of the
    collector and clear it again ([cancel], [reset_cancel], or another [collect], which clears it
    first), and time may run out: [Run] says for each check of the run what the flag is and how much
    time has passed.  A run's own calls are not interleaved with other changes of the store or of the
    pins.
    The registry of snapshot pins, which lives in [sled], is left out, as are the durations and
    the text of the errors. *)

From Stdlib Require Import ZArith Lia List.
From stdpp Require Import base tactics numbers list gmap sets strings.
From S2P Require Import Prelude Collections Cid ColdStore Pinning.

#[local] Open Scope Z_scope.

(** ** Configuration and results *)
Record GcConfig : Type := mkGcConfig {
  max_blocks_per_run : nat;
  time_limit : option Z;
  incremental : bool;
  batch_size : nat;
  dry_run : bool;
}.
Definition GcConfig_default : GcConfig := mkGcConfig 0 None false 1000 false.
Definition GcConfig_incremental : GcConfig := mkGcConfig 0 None true 1000 false.
Definition GcConfig_dry_run : GcConfig := mkGcConfig 0 None false 1000 true.
Definition with_max_blocks (m : nat) (c : GcConfig) : GcConfig :=
  mkGcConfig m (time_limit c) (incremental c) (batch_size c) (dry_run c).
Definition with_time_limit (t : Z) (c : GcConfig) : GcConfig :=
  mkGcConfig (max_blocks_per_run c) (Some t) (incremental c) (batch_size c) (dry_run c).

Record GcStats : Type := mkGcStats {
  total_runs : Z;
  total_blocks_collected : Z;
  total_bytes_freed : Z;
  last_run_timestamp : Z;
}.
Definition GcStats_default : GcStats := mkGcStats 0 0 0 0.

(** The checks of one run, counted from 0: the cancel flag and the time elapsed at each. *)
Record Run : Type := mkRun { cancel_flag : nat → bool; elapsed : nat → Z }.
Definition is_cancelled (e : Run) (n : nat) : bool := cancel_flag e n.

Section gc.
Context `{CidCrate}.

(** The errors a run records and goes on after. *)
Inductive GcError : Type := ErrorResolving (c : Cid) | ErrorDeleting (c : Cid) | ErrorGetting (c : Cid).

Record GcResult : Type := mkGcResult {
  blocks_collected : nat;
  bytes_freed : Z;
  blocks_marked : nat;
  blocks_scanned : nat;
  interrupted : bool;
  errors : list GcError;
}.
Definition GcResult_default : GcResult := mkGcResult 0 0 0 0 false [].

Definition record_error (e : GcError) (r : GcResult) : GcResult :=
  mkGcResult (blocks_collected r) (bytes_freed r) (blocks_marked r) (blocks_scanned r) (interrupted r)
    (errors r ++ [e]).
Definition interrupt (r : GcResult) : GcResult :=
  mkGcResult (blocks_collected r) (bytes_freed r) (blocks_marked r) (blocks_scanned r) true (errors r).
Definition set_marked (n : nat) (r : GcResult) : GcResult :=
  mkGcResult (blocks_collected r) (bytes_freed r) n (blocks_scanned r) (interrupted r) (errors r).
Definition set_scanned (n : nat) (r : GcResult) : GcResult :=
  mkGcResult (blocks_collected r) (bytes_freed r) (blocks_marked r) n (interrupted r) (errors r).
Definition add_collected (r : GcResult) : GcResult :=
  mkGcResult (S (blocks_collected r)) (bytes_freed r) (blocks_marked r) (blocks_scanned r) (interrupted r)
    (errors r).
Definition add_freed (n : nat) (r : GcResult) : GcResult :=
  mkGcResult (blocks_collected r) (as_u64 (bytes_freed r + Z.of_nat n)) (blocks_marked r) (blocks_scanned r)
    (interrupted r) (errors r).

Definition record_run (now : Z) (r : GcResult) (s : GcStats) : GcStats :=
  mkGcStats (as_u64 (total_runs s + 1))
    (as_u64 (total_blocks_collected s + Z.of_nat (blocks_collected r)))
    (as_u64 (total_bytes_freed s + bytes_freed r)) now.

Section collector.
Context {K : Type} `{!ColdStore K} `{!HashIter bytes}.
Context (link_resolver : Cid → outcome Error (list Cid)) (config : GcConfig) (run : Run).

Definition should_stop (n : nat) : bool :=
  is_cancelled run n
  || match time_limit config with Some limit => limit <? elapsed run n | None => false end.

(** ** Marking *)

(** The loop over the pins: every pinned CID is marked, the direct and recursive ones are roots. *)
Fixpoint mark_pins (pins : list (Cid * PinInfo)) (marked : gset bytes) (to_process : list Cid) :
    gset bytes * list Cid :=
  match pins with
  | [] => (marked, to_process)
  | (cid, info) :: pins' =>
    let to_process :=
      if bool_decide (pin_type info = Direct) || bool_decide (pin_type info = Recursive)
      then to_process ++ [cid] else to_process in
    mark_pins pins' ({[Cid_to_bytes cid]} ∪ marked) to_process
  end.

(** The links of one block: those newly marked are to be processed. *)
Fixpoint mark_links (links : list Cid) (marked : gset bytes) (to_process : list Cid) :
    gset bytes * list Cid :=
  match links with
  | [] => (marked, to_process)
  | link :: links' =>
    if decide (Cid_to_bytes link ∈ marked) then mark_links links' marked to_process
    else mark_links links' ({[Cid_to_bytes link]} ∪ marked) (to_process ++ [link])
  end.

(** [while let Some(cid) = to_process.pop()]: one unit of fuel per block; [n] is the number of the
    next check, and the number of the check after the loop is returned. *)
Fixpoint mark_loop (fuel n : nat) (marked : gset bytes) (to_process : list Cid) (r : GcResult) :
    outcome Error (gset bytes * GcResult * nat) :=
  match last to_process with
  | None => Ok (marked, r, n)
  | Some cid =>
    match fuel with
    | O => OutOfFuel
    | S fuel' =>
      if is_cancelled run n then Ok (marked, r, S n) else
      let to_process := removelast to_process in
      match link_resolver cid with
      | Ok links =>
        let '(marked, to_process) := mark_links links marked to_process in
        mark_loop fuel' (S n) marked to_process r
      | Err _ => mark_loop fuel' (S n) marked to_process (record_error (ErrorResolving cid) r)
      | Panic => Panic
      | OutOfFuel => OutOfFuel
      end
    end
  end.

Definition mark_phase (fuel : nat) (pm : PinManager) (r : GcResult) :
    outcome Error (gset bytes * GcResult * nat) :=
  let! pins := list_pins pm in
  let '(marked, to_process) := mark_pins pins ∅ [] in
  let! ((marked, r), n) := mark_loop fuel 0 marked to_process r in
  Ok (marked, set_marked (size marked) r, n).

(** ** Sweeping *)

(** [if let Ok(Some(block)) = self.store.get(..).await { result.bytes_freed += block.size() }]. *)
Definition freed_by (cid : Cid) (k : K) (r : GcResult) : outcome Error GcResult :=
  match cold_get cid k with
  | Ok (Some b) => Ok (add_freed (length b) r)
  | Ok None | Err _ => Ok r
  | Panic => Panic
  | OutOfFuel => OutOfFuel
  end.

Fixpoint delete_batch (cids : list Cid) (r : GcResult) : stateful K Error GcResult :=
  match cids with
  | [] => lift (Ok r)
  | cid :: cids' =>
    do! r := reads (λ k, freed_by cid k r) in
    λ k,
    let '(deleted, k) := cold_delete cid k in
    match deleted with
    | Ok _ => delete_batch cids' (add_collected r) k
    | Err _ => delete_batch cids' (record_error (ErrorDeleting cid) r) k
    | Panic => (Panic, k)
    | OutOfFuel => (OutOfFuel, k)
    end
  end.

(** The limit on the number of blocks of a run. *)
Definition limit_reached (r : GcResult) : bool :=
  (0 <? max_blocks_per_run config)%nat && (max_blocks_per_run config <=? blocks_collected r)%nat.

Fixpoint sweep_loop (n : nat) (cids : list Cid) (marked : gset bytes) (r : GcResult)
    (to_delete : list Cid) (batch_count : nat) : stateful K Error (GcResult * list Cid) :=
  match cids with
  | [] => lift (Ok (r, to_delete))
  | cid :: cids' =>
    if is_cancelled run n || should_stop (S n) then lift (Ok (interrupt r, to_delete)) else
    if limit_reached r then lift (Ok (interrupt r, to_delete)) else
    if decide (Cid_to_bytes cid ∈ marked) then sweep_loop (S (S n)) cids' marked r to_delete batch_count else
    do! (r, to_delete) :=
      if dry_run config then
        do! r := reads (λ k, freed_by cid k r) in lift (Ok (add_collected r, to_delete))
      else lift (Ok (r, to_delete ++ [cid])) in
    let batch_count := S batch_count in
    if incremental config && (batch_size config <=? batch_count)%nat then
      do! (r, to_delete) :=
        if negb (dry_run config) && negb (bool_decide (to_delete = [])) then
          do! r := delete_batch to_delete r in lift (Ok (r, []))
        else lift (Ok (r, to_delete)) in
      sweep_loop (S (S n)) cids' marked r to_delete 0
    else sweep_loop (S (S n)) cids' marked r to_delete batch_count
  end.

Definition sweep_phase (n : nat) (marked : gset bytes) (r : GcResult) : stateful K Error GcResult :=
  do! all_cids := reads cold_list in
  do! (r, to_delete) := sweep_loop n all_cids marked (set_scanned (length all_cids) r) [] 0 in
  if negb (dry_run config) && negb (bool_decide (to_delete = []))
  then delete_batch to_delete r else lift (Ok r).

(** [collect], on the store; the statistics record the result of a run that returns one. *)
Definition gc_collect (fuel : nat) (pm : PinManager) : stateful K Error GcResult :=
  do! ((marked, r), n) := lift (mark_phase fuel pm GcResult_default) in
  if should_stop n then lift (Ok (interrupt r)) else
  sweep_phase (S n) marked r.

Definition gc_collect_recorded (fuel : nat) (now : Z) (pm : PinManager) :
    stateful (K * GcStats) Error GcResult :=
  λ '(k, s),
  let '(r, k) := gc_collect fuel pm k in
  (r, (k, match r with Ok r => record_run now r s | _ => s end)).
End collector.

(** ** Scheduling *)
Inductive GcPolicy : Type := Manual | TimeBased (interval_secs : Z) | SpaceBased | Combined (interval_secs : Z).

Definition should_run (policy : GcPolicy) (now : Z) (s : GcStats) : bool :=
  match policy with
  | Manual | SpaceBased => false
  | TimeBased interval | Combined interval => interval <=? Z.max 0 (now - last_run_timestamp s)
  end.

(** ** The orphan collector *)
Record OrphanGcConfig : Type := mkOrphanConfig { o_dry_run : bool; min_age_secs : Z; o_batch_size : nat }.
Definition OrphanGcConfig_default : OrphanGcConfig := mkOrphanConfig false 3600 100.

Record OrphanGcResult : Type := mkOrphanResult {
  examined : nat;
  collected : nat;
  freed_bytes : nat;
  o_errors : list GcError;
}.

Section orphan.
Context {K : Type} `{!ColdStore K} (to_string : Cid → string) (config : OrphanGcConfig).
Context (pinned_cids extra_pinned : gset string).

(** Getting the size before the deletion: an error is recorded unless this is a dry run. *)
Definition orphan_size (cid : Cid) (k : K) (r : OrphanGcResult) : outcome Error OrphanGcResult :=
  match cold_get cid k with
  | Ok (Some b) => Ok (mkOrphanResult (examined r) (collected r) (freed_bytes r + length b) (o_errors r))
  | Ok None => Ok r
  | Err _ =>
    Ok (if o_dry_run config then r
        else mkOrphanResult (examined r) (collected r) (freed_bytes r) (o_errors r ++ [ErrorGetting cid]))
  | Panic => Panic
  | OutOfFuel => OutOfFuel
  end.
Definition orphan_collected (r : OrphanGcResult) : OrphanGcResult :=
  mkOrphanResult (examined r) (S (collected r)) (freed_bytes r) (o_errors r).

Fixpoint orphan_loop (cids : list Cid) (r : OrphanGcResult) : stateful K Error OrphanGcResult :=
  match cids with
  | [] => lift (Ok r)
  | cid :: cids' =>
    let r := mkOrphanResult (S (examined r)) (collected r) (freed_bytes r) (o_errors r) in
    if decide (to_string cid ∈ pinned_cids ∨ to_string cid ∈ extra_pinned) then orphan_loop cids' r else
    do! r := reads (λ k, orphan_size cid k r) in
    if o_dry_run config then orphan_loop cids' (orphan_collected r) else
    λ k,
    let '(deleted, k) := cold_delete cid k in
    match deleted with
    | Ok _ => orphan_loop cids' (orphan_collected r) k
    | Err _ =>
      orphan_loop cids'
        (mkOrphanResult (examined r) (collected r) (freed_bytes r) (o_errors r ++ [ErrorDeleting cid])) k
    | Panic => (Panic, k)
    | OutOfFuel => (OutOfFuel, k)
    end
  end.

Definition orphan_collect : stateful K Error OrphanGcResult :=
  do! all_cids := reads cold_list in
  orphan_loop (take (o_batch_size config) all_cids) (mkOrphanResult 0 0 0 []).
End orphan.
End gc.
#[global] Arguments GcResult {_}.
#[global] Arguments GcError {_}.
