(* ===== verification/StorageGcFacts.v ===== *)
(** * The collector deletes what no pin protects, and nothing else

    The mark phase computes the closure of the pins under the link resolver, where a block pinned
    only indirectly is kept but not followed. *)

From Stdlib Require Import ZArith Lia List.
From stdpp Require Import base tactics numbers list gmap sets strings fin_maps fin_sets relations.
From S2P Require Import Prelude Collections Cid ColdStore Pinning PinningFacts StorageGc.

#[local] Open Scope Z_scope.

(** ** Contents without some blocks *)
Section without.
Context `{CidCrate}.
Implicit Types (B : gmap Cid bytes).

Definition stored_size B (cids : list Cid) : nat := sum_list_with (λ c, length (default [] (B !! c))) cids.
Definition without (cids : list Cid) B : gmap Cid bytes := filter (λ p, p.1 ∉ cids) B.

Lemma lookup_without cids B c : without cids B !! c = if decide (c ∈ cids) then None else B !! c.
Proof.
  unfold without. destruct (decide (c ∈ cids)).
  - apply map_lookup_filter_None. right. simpl. auto.
  - destruct (B !! c) as [b|] eqn:Hb; [by apply map_lookup_filter_Some|].
    apply map_lookup_filter_None. by left.
Qed.

Lemma without_app cids cids' B : without cids' (without cids B) = without (cids ++ cids') B.
Proof. apply map_eq. intros c. rewrite !lookup_without. repeat case_decide; set_solver. Qed.

Lemma delete_without c B : delete c B = without [c] B.
Proof.
  apply map_eq. intros c'. rewrite lookup_without. case_decide as Hc'.
  - apply list_elem_of_singleton in Hc' as ->. apply lookup_delete_eq.
  - apply lookup_delete_ne. set_solver.
Qed.

Lemma stored_size_ext B B' (cids : list Cid) :
  (∀ c, c ∈ cids → B !! c = B' !! c) → stored_size B cids = stored_size B' cids.
Proof.
  unfold stored_size. induction cids as [|c cids IH]; intros HB; simpl; [done|].
  rewrite (HB c) by (by left). rewrite IH; [done|]. intros c' Hc'. apply HB. by right.
Qed.

End without.

Section facts.
Context `{CidCrate} `{!CidLaws} `{!HashIter bytes}.
Context (link_resolver : Cid → outcome Error (list Cid)) (config : GcConfig) (run : Run).
Implicit Types (fuel n : nat) (c : Cid) (marked : gset bytes) (tp : list Cid) (pm : PinManager) (r : GcResult).

(** ** What the pins protect *)
Definition followed pm c : Prop := ∀ i, pins pm !! Cid_to_bytes c = Some i → pin_type i ≠ Indirect.

Inductive protected pm : Cid → Prop :=
| protected_pin c i : pins pm !! Cid_to_bytes c = Some i → protected pm c
| protected_link c l c' : protected pm c → followed pm c → link_resolver c = Ok l → c' ∈ l →
    protected pm c'.

(** What a user who pins expects to be kept: all that the links reach from a pinned block.  It is
    protected when the links of indirectly pinned blocks are pinned too, as recursive pins leave
    them. *)
Definition resolved c c' : Prop := ∃ l, link_resolver c = Ok l ∧ c' ∈ l.
Definition descends pm c : Prop := ∃ c0, is_Some (pins pm !! Cid_to_bytes c0) ∧ rtc resolved c0 c.
Definition indirect_closed pm : Prop := ∀ c i c', pins pm !! Cid_to_bytes c = Some i → pin_type i = Indirect →
  resolved c c' → is_Some (pins pm !! Cid_to_bytes c').

Lemma descends_protected pm c : indirect_closed pm → descends pm c → protected pm c.
Proof.
  intros Hcl (c0 & [i Hi] & Hrc). revert c Hrc. apply (rtc_ind_r (protected pm)); [by eapply protected_pin|].
  intros c c' _ (l & Hl & Hc') Hp. destruct (pins pm !! Cid_to_bytes c) as [j|] eqn:Hj.
  - destruct (decide (pin_type j = Indirect)) as [Ht|Ht].
    + destruct (Hcl c j c' Hj Ht) as [i' Hi']; [by exists l|]. by eapply protected_pin.
    + eapply protected_link; [done| |done..]. intros j' Hj'. congruence.
  - eapply protected_link; [done| |done..]. intros j' Hj'. congruence.
Qed.

(** Once set, the cancel flag is not cleared before the next check. *)
Definition flag_stays : Prop := ∀ i, is_cancelled run i = true → is_cancelled run (S i) = true.

(** The keys of the pin map are the bytes of CIDs, as every call of the pin manager writes them. *)
Definition pins_canonical pm : Prop := ∀ k i, pins pm !! k = Some i → ∃ c, k = Cid_to_bytes c.

(** ** The mark phase *)
Definition marking pm marked tp : Prop :=
  (∀ c i, pins pm !! Cid_to_bytes c = Some i → Cid_to_bytes c ∈ marked)
  ∧ (∀ k, k ∈ marked → ∃ c, k = Cid_to_bytes c ∧ protected pm c)
  ∧ (∀ c, c ∈ tp → Cid_to_bytes c ∈ marked ∧ followed pm c)
  ∧ (∀ c l c', Cid_to_bytes c ∈ marked → followed pm c → link_resolver c = Ok l → c' ∈ l →
       c ∈ tp ∨ Cid_to_bytes c' ∈ marked).

Lemma marking_done pm marked c : marking pm marked [] → Cid_to_bytes c ∈ marked ↔ protected pm c.
Proof.
  intros (Hp & Hs & _ & Hl). split.
  - intros (c' & ->%to_bytes_inj & ?)%Hs. done.
  - induction 1 as [c i Hi|c l c' _ IH Hf Hr Hc']; [by eapply Hp|].
    by destruct (Hl c l c' IH Hf Hr Hc') as [?%elem_of_nil|].
Qed.

Lemma mark_pins_spec (ps : list (Cid * PinInfo)) marked tp marked' tp' :
  mark_pins ps marked tp = (marked', tp') →
  (∀ k, k ∈ marked' ↔ k ∈ marked ∨ ∃ p, p ∈ ps ∧ k = Cid_to_bytes p.1)
  ∧ (∀ c, c ∈ tp' ↔ c ∈ tp ∨ ∃ i, (c, i) ∈ ps ∧ pin_type i ≠ Indirect)
  ∧ (length tp' ≤ length tp + length ps)%nat.
Proof.
  revert marked tp. induction ps as [|[c i] ps IH]; intros marked tp Hrun; simpl in Hrun.
  - injection Hrun as <- <-. split_and!; [set_solver..|simpl; lia].
  - apply IH in Hrun as (Hm & Ht & Hlen). split_and!.
    + intros k. rewrite Hm, elem_of_union, elem_of_singleton. setoid_rewrite elem_of_cons.
      split; [intros [[->|?]|(p & ? & ->)]; eauto|intros [?|(p & [->|?] & ->)]; eauto].
    + intros c'. rewrite Ht. setoid_rewrite elem_of_cons.
      destruct (decide (pin_type i = Indirect)) as [Hi|Hi].
      * rewrite !bool_decide_eq_false_2 by (by rewrite Hi). simpl. split.
        -- intros [?|(j & ? & ?)]; eauto.
        -- intros [?|(j & [[= -> ->]|?] & ?)]; [by left|done|eauto].
      * assert (bool_decide (pin_type i = Direct) || bool_decide (pin_type i = Recursive) = true) as ->
          by (by destruct (pin_type i)).
        rewrite elem_of_app, list_elem_of_singleton. split.
        -- intros [[?| ->]|(j & ? & ?)]; eauto.
        -- intros [?|(j & [[= -> ->]|?] & ?)]; eauto.
    + etrans; [exact Hlen|]. destruct (_ || _); rewrite ?length_app; simpl; lia.
Qed.

Lemma list_pins_spec pm : pins_canonical pm →
  ∃ ps, list_pins pm = Ok ps ∧ (∀ c i, (c, i) ∈ ps ↔ pins pm !! Cid_to_bytes c = Some i)
    ∧ length ps = size (pins pm).
Proof.
  intros Hcan. unfold list_pins.
  assert (∃ ps, hash_iter (pins pm) = (λ p : Cid * PinInfo, (Cid_to_bytes p.1, p.2)) <$> ps) as (ps & Hps).
  { assert (∀ p, p ∈ hash_iter (pins pm) → ∃ c, p.1 = Cid_to_bytes c) as Hk.
    { intros [k i] Hki. apply elem_of_hash_iter in Hki. by eapply Hcan. }
    induction (hash_iter (pins pm)) as [|[k i] l IH]; [by exists []|].
    destruct IH as [ps ->]; [intros p Hp; apply Hk; by right|].
    destruct (Hk (k, i)) as [c Hc]; [by left|]. simpl in Hc. subst k. by exists ((c, i) :: ps). }
  exists ps. rewrite Hps. split_and!.
  - apply try_map_fmap, Forall_forall. intros [c i] _. simpl. by rewrite Cid_try_from_to_bytes.
  - intros c i. rewrite <- elem_of_hash_iter, Hps, list_elem_of_fmap. split.
    + intros Hc. by exists (c, i).
    + intros ([c' i'] & [= Hc ->] & Hin). simpl in Hc. by apply to_bytes_inj in Hc as ->.
  - rewrite <- length_map_to_list, <- (hash_iter_perm (pins pm)), Hps. by rewrite length_fmap.
Qed.

Lemma mark_pins_inv pm ps marked tp :
  (∀ c i, (c, i) ∈ ps ↔ pins pm !! Cid_to_bytes c = Some i) →
  mark_pins ps ∅ [] = (marked, tp) → marking pm marked tp.
Proof.
  intros Hps (Hm & Ht & _)%mark_pins_spec. split_and!.
  - intros c i Hi%Hps. apply Hm. right. by exists (c, i).
  - intros k [?%not_elem_of_empty|([c i] & Hin & ->)]%Hm; [done|]. exists c. split; [done|].
    eapply protected_pin. by apply Hps.
  - intros c [?%elem_of_nil|(i & Hin & Hi)]%Ht; [done|]. split.
    + apply Hm. right. by exists (c, i).
    + intros j Hj. apply Hps in Hin. congruence.
  - intros c l c' [?%not_elem_of_empty|([c1 i] & Hin & Heq)]%Hm Hf Hr Hc'; [done|].
    apply to_bytes_inj in Heq as ->. simpl in *. left. apply Ht. right. exists i. split; [done|].
    apply Hf. by apply Hps.
Qed.

Lemma mark_links_spec links marked tp marked' tp' :
  mark_links links marked tp = (marked', tp') →
  marked' = marked ∪ list_to_set (Cid_to_bytes <$> links)
  ∧ (∀ c, c ∈ tp' ↔ c ∈ tp ∨ c ∈ links ∧ Cid_to_bytes c ∉ marked)
  ∧ (length tp' + size marked = length tp + size marked')%nat.
Proof.
  revert marked tp. induction links as [|c links IH]; intros marked tp Hrun; simpl in Hrun.
  - injection Hrun as <- <-. split_and!; [set_solver|set_solver|lia].
  - destruct (decide (Cid_to_bytes c ∈ marked)) as [Hc|Hc].
    + apply IH in Hrun as (-> & Ht & Hlen). split_and!; [set_solver| |done].
      intros c'. rewrite Ht, elem_of_cons. naive_solver.
    + apply IH in Hrun as (-> & Ht & Hlen). rewrite length_app in Hlen. simpl in Hlen.
      rewrite size_union, size_singleton in Hlen by set_solver. split_and!; [set_solver| |lia].
      intros c'. rewrite Ht, elem_of_app, list_elem_of_singleton, elem_of_cons.
      rewrite not_elem_of_union, not_elem_of_singleton.
      destruct (decide (c' = c)) as [->|Hne]; [naive_solver|].
      split; [naive_solver|]. intros [?|[[?|?] ?]]; [naive_solver..|].
      right. split_and!; [done| |done]. by intros ?%to_bytes_inj.
Qed.

Lemma marking_visit pm marked tp c o :
  marking pm marked (tp ++ [c]) → link_resolver c = o →
  (∀ l marked' tp', o = Ok l → mark_links l marked tp = (marked', tp') → marking pm marked' tp')
  ∧ (∀ e, o = Err e → marking pm marked tp).
Proof.
  intros (Hp & Hs & Ht & Hl) Ho.
  assert (Cid_to_bytes c ∈ marked ∧ followed pm c) as [Hcm Hcf] by (apply Ht; set_solver).
  assert (protected pm c) as Hcp by (by destruct (Hs _ Hcm) as (c' & ->%to_bytes_inj & ?)).
  split.
  - intros l marked' tp' -> (-> & Htp & _)%mark_links_spec.
    assert (∀ c', c' ∈ l → protected pm c') as Hlp by (intros; by eapply protected_link).
    split_and!.
    + intros c' i Hi. apply elem_of_union_l. by eapply Hp.
    + intros k [Hk|Hk]%elem_of_union; [by apply Hs|].
      apply elem_of_list_to_set, list_elem_of_fmap in Hk as (c' & -> & Hc'). eauto.
    + intros c' [Hc'|[Hc' Hnew]]%Htp.
      * destruct (Ht c'); [set_solver|]. split; [by apply elem_of_union_l|done].
      * split; [set_solver|]. intros i Hi. by destruct Hnew; eapply Hp.
    + intros c1 l1 c2 Hc1 Hf Hr Hc2. destruct (decide (Cid_to_bytes c1 ∈ marked)) as [Hm|Hm].
      * destruct (Hl c1 l1 c2 Hm Hf Hr Hc2) as [[Hin| ->%list_elem_of_singleton]%elem_of_app|Hin].
        -- left. apply Htp. by left.
        -- right. rewrite Ho in Hr. injection Hr as ->. set_solver.
        -- right. by apply elem_of_union_l.
      * left. apply Htp. right. split; [|done]. apply elem_of_union in Hc1 as [?|Hc1]; [done|].
        by apply elem_of_list_to_set, list_elem_of_fmap in Hc1 as (c' & ->%to_bytes_inj & Hc').
  - intros e ->. split_and!; [done..| |].
    + intros c' Hc'. apply Ht. set_solver.
    + intros c1 l1 c2 Hc1 Hf Hr Hc2.
      destruct (Hl c1 l1 c2 Hc1 Hf Hr Hc2) as [[Hin| ->%list_elem_of_singleton]%elem_of_app|Hin];
        [by left|congruence|by right].
Qed.

(** The loop ends with everything marked, or at a check that found the cancel flag set; whatever
    happens, nothing is unmarked. *)
Lemma mark_loop_spec fuel n pm marked tp r marked' r' n' :
  marking pm marked tp → mark_loop link_resolver run fuel n marked tp r = Ok (marked', r', n') →
  (∃ i, n' = S i ∧ is_cancelled run i = true) ∨ marking pm marked' [].
Proof.
  revert n marked tp r. induction fuel as [|fuel IH]; intros n marked tp r Hinv Hrun;
    destruct (frontier_cases tp) as [->|(c & f & -> & Hlast & Hrl)]; simpl in Hrun.
  1, 3: injection Hrun as <- <- <-; by right.
  { by rewrite Hlast in Hrun. }
  rewrite Hlast, Hrl in Hrun. destruct (is_cancelled run n) eqn:Hcan.
  { injection Hrun as <- <- <-. left. by exists n. }
  destruct (marking_visit pm marked f c _ Hinv eq_refl) as [Hok Herr].
  destruct (link_resolver c) as [l|e| |] eqn:Hr; try done.
  - destruct (mark_links l marked f) as [marked1 tp1] eqn:Hml. eapply IH; [|exact Hrun]. by eapply Hok.
  - eapply IH; [|exact Hrun]. by eapply Herr.
Qed.

Lemma mark_phase_spec fuel pm r0 marked r n :
  pins_canonical pm → mark_phase link_resolver run fuel pm r0 = Ok (marked, r, n) →
  (∃ i, n = S i ∧ is_cancelled run i = true) ∨ ∀ c, Cid_to_bytes c ∈ marked ↔ protected pm c.
Proof.
  intros Hcan. unfold mark_phase. destruct (list_pins_spec pm Hcan) as (ps & -> & Hps & _). simpl.
  destruct (mark_pins ps ∅ []) as [marked0 tp0] eqn:Hmp. intros Hrun.
  apply outcome_bind_Ok in Hrun as ([[marked1 r1] n1] & Hrun & [= <- <- <-]).
  apply (mark_loop_spec _ _ pm) in Hrun as [?|Hinv]; [by left| |by eapply mark_pins_inv].
  right. intros c. by apply marking_done.
Qed.

Lemma mark_loop_grows fuel n marked tp r marked' r' n' :
  mark_loop link_resolver run fuel n marked tp r = Ok (marked', r', n') → marked ⊆ marked'.
Proof.
  revert n marked tp r. induction fuel as [|fuel IH]; intros n marked tp r Hrun; simpl in Hrun;
    (destruct (last tp) as [c|]; [|by injection Hrun as <- <- <-]); [done|].
  destruct (is_cancelled run n); [by injection Hrun as <- <- <-|].
  destruct (link_resolver c) as [l| | |]; try done; [|by eapply IH].
  destruct (mark_links l marked (removelast tp)) as [m1 tp1] eqn:Hml. apply mark_links_spec in Hml as (-> & _ & _).
  apply IH in Hrun. etrans; [|exact Hrun]. apply union_subseteq_l.
Qed.

(** Every pinned CID is marked, even when the loop is left early. *)
Lemma mark_phase_pins fuel pm r0 marked r n c i :
  pins_canonical pm → mark_phase link_resolver run fuel pm r0 = Ok (marked, r, n) →
  pins pm !! Cid_to_bytes c = Some i → Cid_to_bytes c ∈ marked.
Proof.
  intros Hcan. unfold mark_phase. destruct (list_pins_spec pm Hcan) as (ps & -> & Hps & _). simpl.
  destruct (mark_pins ps ∅ []) as [marked0 tp0] eqn:Hmp. intros Hrun Hi.
  apply outcome_bind_Ok in Hrun as ([[marked1 r1] n1] & Hrun & [= <- <- <-]).
  apply mark_loop_grows in Hrun. apply Hrun. by apply (mark_pins_inv pm) in Hmp as (Hp & _); [eapply Hp|].
Qed.

(** A finite set of CIDs that holds the pins and every link bounds the blocks processed. *)
Lemma mark_loop_answers fuel (n : nat) marked tp r (U : gset bytes) :
  (∀ c, fails_or (link_resolver c) (λ l, ∀ c', c' ∈ l → Cid_to_bytes c' ∈ U)) →
  marked ⊆ U → (length tp + size U ≤ fuel + size marked)%nat →
  ∃ res, mark_loop link_resolver run fuel n marked tp r = Ok res.
Proof.
  intros HU. revert n marked tp r. induction fuel as [|fuel IH]; intros n marked tp r Hm Hf;
    destruct (frontier_cases tp) as [->|(c & f & -> & Hlast & Hrl)]; simpl; eauto.
  { apply subseteq_size in Hm. rewrite length_app in Hf. simpl in Hf. lia. }
  rewrite Hlast, Hrl. rewrite length_app in Hf. simpl in Hf. destruct (is_cancelled run n); [eauto|].
  specialize (HU c). destruct (link_resolver c) as [l| | |]; try done; [|apply IH; [done|lia]].
  destruct (mark_links l marked f) as [marked1 tp1] eqn:Hml.
  apply mark_links_spec in Hml as (-> & _ & Hlen). simpl in HU. apply IH; [|lia].
  apply union_least; [done|]. intros k (c' & -> & Hc')%elem_of_list_to_set%list_elem_of_fmap. auto.
Qed.

Lemma mark_phase_answers fuel pm r0 (U : gset bytes) :
  pins_canonical pm → dom (pins pm) ⊆ U →
  (∀ c, fails_or (link_resolver c) (λ l, ∀ c', c' ∈ l → Cid_to_bytes c' ∈ U)) →
  (size (pins pm) + size U ≤ fuel)%nat →
  ∃ res, mark_phase link_resolver run fuel pm r0 = Ok res.
Proof.
  intros Hcan Hdom HU Hf. unfold mark_phase. destruct (list_pins_spec pm Hcan) as (ps & -> & Hps & Hlen).
  simpl. destruct (mark_pins ps ∅ []) as [marked tp] eqn:Hmp.
  apply mark_pins_spec in Hmp as (Hm & _ & Ht). simpl in Ht.
  destruct (mark_loop_answers fuel 0 marked tp r0 U) as [[[m r] n] ->]; [done| |lia|by eexists].
  intros k [?%not_elem_of_empty|([c i] & Hin%Hps & ->)]%Hm; [done|]. apply Hdom. by apply elem_of_dom.
Qed.

(** The mark phase records errors and the count of marks: nothing is collected yet. *)
Definition nothing_collected r : Prop :=
  blocks_collected r = 0%nat ∧ bytes_freed r = 0 ∧ interrupted r = false.

Lemma mark_loop_result fuel n marked tp r marked' r' n' :
  mark_loop link_resolver run fuel n marked tp r = Ok (marked', r', n') →
  nothing_collected r → nothing_collected r'.
Proof.
  revert n marked tp r. induction fuel as [|fuel IH]; intros n marked tp r Hrun Hr; simpl in Hrun;
    (destruct (last tp) as [c|]; [|by injection Hrun as <- <- <-]); [done|].
  destruct (is_cancelled run n); [by injection Hrun as <- <- <-|].
  destruct (link_resolver c) as [l| | |]; try done; [|by eapply IH].
  destruct (mark_links _ _ _). by eapply IH.
Qed.

Lemma mark_phase_result fuel pm r0 marked r n :
  mark_phase link_resolver run fuel pm r0 = Ok (marked, r, n) → nothing_collected r0 → nothing_collected r.
Proof.
  unfold mark_phase. intros Hrun Hr0. apply outcome_bind_Ok in Hrun as (ps & _ & Hrun).
  destruct (mark_pins ps ∅ []) as [m tp].
  apply outcome_bind_Ok in Hrun as ([[m1 r1] n1] & Hrun & [= <- <- <-]).
  by eapply mark_loop_result in Hrun.
Qed.

(** ** The sweep phase *)
Section sweep.
Context {K : Type} `{!ColdStore K} `{!ColdLaws K}.
Implicit Types (k : K) (B : gmap Cid bytes).

(** Whatever happens, only CIDs of the batch lose their block. *)
Lemma delete_batch_safe cids r k o k' :
  delete_batch cids r k = (o, k') →
  contents k' ⊆ contents k ∧ ∀ c, c ∉ cids → contents k' !! c = contents k !! c.
Proof.
  revert r k. induction cids as [|c cids IH]; intros r k Hrun; simpl in Hrun.
  { by injection Hrun as <- <-. }
  unfold st_bind, reads in Hrun. destruct (freed_by c k r) as [r1| | |]; try by injection Hrun as <- <-.
  assert (∀ r2 k1, contents k1 = contents k ∨ contents k1 = delete c (contents k) →
    delete_batch cids r2 k1 = (o, k') →
    contents k' ⊆ contents k ∧ ∀ c', c' ∉ c :: cids → contents k' !! c' = contents k !! c') as Hstep.
  { intros r2 k1 Hk1 [Hsub Hkeep]%IH. split.
    - etrans; [exact Hsub|]. destruct Hk1 as [->| ->]; [done|apply delete_subseteq].
    - intros c' [Hne Hc']%not_elem_of_cons. rewrite Hkeep by done.
      destruct Hk1 as [->| ->]; [done|by rewrite lookup_delete_ne]. }
  pose proof (cold_delete_law c k) as Hd. destruct (cold_delete c k) as [[] k1]; try done;
    (eapply Hstep; [|exact Hrun]); simpl in Hd; auto.
Qed.

Lemma sweep_loop_safe n cids marked r td bc k o k' :
  sweep_loop config run n cids marked r td bc k = (o, k') →
  (∀ c, c ∈ td → Cid_to_bytes c ∉ marked) →
  (dry_run config = true → k' = k)
  ∧ contents k' ⊆ contents k
  ∧ (∀ c, Cid_to_bytes c ∈ marked → contents k' !! c = contents k !! c)
  ∧ (∀ r' td' c, o = Ok (r', td') → c ∈ td' → Cid_to_bytes c ∉ marked).
Proof.
  revert n r td bc k. induction cids as [|c cids IH]; intros n r td bc k Hrun Htd; simpl in Hrun.
  { injection Hrun as <- <-. split_and!; naive_solver. }
  destruct (_ || _); [injection Hrun as <- <-; split_and!; naive_solver|].
  destruct (limit_reached config r); [injection Hrun as <- <-; split_and!; naive_solver|].
  destruct (decide (Cid_to_bytes c ∈ marked)) as [Hc|Hc]; [by eapply IH|].
  assert (∀ x, x ∈ td ++ [c] → Cid_to_bytes x ∉ marked) as Htdc by set_solver.
  destruct (dry_run config) eqn:Hdry; simpl in Hrun.
  - unfold st_bind, reads, lift in Hrun.
    destruct (freed_by c k r); try (injection Hrun as <- <-; split_and!; naive_solver).
    destruct (incremental config && _); by eapply IH in Hrun.
  - rewrite st_bind_lift in Hrun. destruct (incremental config && _); [|by eapply IH in Hrun].
    rewrite bool_decide_eq_false_2 in Hrun by (by destruct td). simpl in Hrun.
    unfold st_bind at 1 2 in Hrun. destruct (delete_batch (td ++ [c]) r k) as [o1 k1] eqn:Hdel.
    apply delete_batch_safe in Hdel as [Hsub Hkeep].
    assert (∀ x, Cid_to_bytes x ∈ marked → contents k1 !! x = contents k !! x) as Hkeep1.
    { intros x Hx. apply Hkeep. intros Hin. by apply (Htdc x). }
    destruct o1 as [r1| | |]; try (injection Hrun as <- <-; split_and!; naive_solver).
    cbn [lift] in Hrun. apply IH in Hrun as (_ & Hsub' & Hm & Hrest); [|set_solver].
    split_and!; [done|by etrans| |done]. intros x Hx. rewrite Hm by done. auto.
Qed.

Lemma sweep_phase_safe n marked r k o k' :
  sweep_phase config run n marked r k = (o, k') →
  (dry_run config = true → k' = k)
  ∧ contents k' ⊆ contents k
  ∧ (∀ c, Cid_to_bytes c ∈ marked → contents k' !! c = contents k !! c).
Proof.
  unfold sweep_phase. unfold st_bind at 1, reads. intros Hrun.
  destruct (cold_list k) as [cids| | |]; try (injection Hrun as <- <-; by split_and!).
  unfold st_bind in Hrun.
  destruct (sweep_loop config run n cids marked _ [] 0 k) as [o1 k1] eqn:Hsw.
  apply sweep_loop_safe in Hsw as (Hdry & Hsub & Hkeep & Htd); [|set_solver].
  destruct o1 as [[r1 td]| | |]; try (injection Hrun as <- <-; by split_and!).
  destruct (negb (dry_run config) && _) eqn:Hdo; [|injection Hrun as <- <-; by split_and!].
  apply delete_batch_safe in Hrun as [Hsub' Hkeep']. split_and!.
  - intros Hd. by rewrite Hd in Hdo.
  - by etrans.
  - intros c Hc. rewrite <- (Hkeep c Hc). apply Hkeep'. intros Hin. by eapply Htd.
Qed.

(** A whole run, whatever its outcome. *)
Lemma gc_collect_safe fuel pm k o k' :
  pins_canonical pm → gc_collect link_resolver config run fuel pm k = (o, k') →
  contents k' ⊆ contents k
  ∧ (∀ c i, pins pm !! Cid_to_bytes c = Some i → contents k' !! c = contents k !! c)
  ∧ (flag_stays → ∀ c, protected pm c → contents k' !! c = contents k !! c)
  ∧ (dry_run config = true → k' = k).
Proof.
  intros Hcan Hrun. unfold gc_collect, st_bind, lift in Hrun.
  destruct (mark_phase link_resolver run fuel pm GcResult_default) as [[[marked r] n]| | |] eqn:Hm;
    try (injection Hrun as <- <-; by split_and!).
  destruct (should_stop config run n) eqn:Hstop; [injection Hrun as <- <-; by split_and!|].
  apply sweep_phase_safe in Hrun as (Hdry & Hsub & Hkeep). split_and!; [done| | |done].
  - intros c i Hc. apply Hkeep. by eapply mark_phase_pins.
  - intros Hstays c Hc. apply Hkeep. apply mark_phase_spec in Hm as [(i & -> & Hi)|Hmark]; [|by apply Hmark|done].
    apply Hstays in Hi. unfold should_stop in Hstop. by rewrite Hi in Hstop.
Qed.

(** ** The sweep of a backend that does not fail *)
Context `{!Reliable K}.

(** What collecting the blocks [cids] of [B] adds to the result. *)
Definition collect_one B r c : GcResult :=
  add_collected (match B !! c with Some b => add_freed (length b) r | None => r end).
Definition collect_all B (cids : list Cid) r : GcResult := fold_left (collect_one B) cids r.

Lemma collect_all_ext B B' cids r :
  (∀ c, c ∈ cids → B !! c = B' !! c) → collect_all B cids r = collect_all B' cids r.
Proof.
  revert r. induction cids as [|c cids IH]; intros r HB; simpl; [done|].
  assert (collect_one B r c = collect_one B' r c) as -> by (unfold collect_one; by rewrite (HB c) by (by left)).
  apply IH. intros c' Hc'. apply HB. by right.
Qed.

Lemma collect_all_app B cids cids' r :
  collect_all B (cids ++ cids') r = collect_all B cids' (collect_all B cids r).
Proof. apply fold_left_app. Qed.

Lemma collect_all_disjoint B cids cids' r :
  (∀ c, c ∈ cids' → c ∉ cids) → collect_all (without cids B) cids' r = collect_all B cids' r.
Proof.
  intros Hd. apply collect_all_ext. intros c Hc. rewrite lookup_without. by rewrite decide_False by auto.
Qed.

Lemma collect_all_spec B cids r : 0 ≤ bytes_freed r < 2 ^ 64 →
  let r' := collect_all B cids r in
  blocks_collected r' = (blocks_collected r + length cids)%nat
  ∧ bytes_freed r' = as_u64 (bytes_freed r + Z.of_nat (stored_size B cids))
  ∧ interrupted r' = interrupted r ∧ errors r' = errors r ∧ blocks_scanned r' = blocks_scanned r.
Proof.
  simpl. unfold stored_size. revert r. induction cids as [|c cids IH]; intros r Hr; simpl.
  { rewrite Z.add_0_r, as_u64_small by lia. split_and!; [lia|done..]. }
  destruct (IH (collect_one B r c)) as (Hn & Hb & -> & -> & ->).
  - unfold collect_one. destruct (B !! c); simpl; [|done]. by apply Z.mod_pos_bound.
  - rewrite Hn, Hb. unfold collect_one. destruct (B !! c) as [b|]; simpl; (split_and!; [lia| |done..]).
    + rewrite as_u64_add. f_equal. lia.
    + done.
Qed.

Lemma delete_batch_exact cids r k : NoDup cids →
  ∃ k', delete_batch cids r k = (Ok (collect_all (contents k) cids r), k')
    ∧ contents k' = without cids (contents k).
Proof.
  revert r k. induction cids as [|c cids IH]; intros r k Hnd; simpl.
  { exists k. split; [done|]. apply map_eq. intros c. by rewrite lookup_without, decide_False by set_solver. }
  apply NoDup_cons in Hnd as [Hc Hnd]. unfold st_bind, reads, freed_by. rewrite cold_get_ok.
  pose proof (cold_delete_law c k) as Hd. pose proof (cold_delete_ok c k) as Hok.
  destruct (cold_delete c k) as [o k1]. simpl in Hok. subst o. simpl in Hd.
  assert (∀ r1, ∃ k', delete_batch cids r1 k1 = (Ok (collect_all (contents k) cids r1), k')
    ∧ contents k' = without (c :: cids) (contents k)) as Hrest.
  { intros r1. destruct (IH r1 k1 Hnd) as (k' & -> & Hk'). exists k'.
    assert (contents k1 = without [c] (contents k)) as Hw by by rewrite Hd, delete_without.
    rewrite Hw in *. rewrite collect_all_disjoint by set_solver. split; [done|].
    by rewrite Hk', without_app. }
  unfold collect_all, collect_one at 2. simpl. destruct (contents k !! c); apply Hrest.
Qed.

(** The blocks of a listing that are not marked. *)
Definition unmarked marked (cids : list Cid) : list Cid := filter (λ c, Cid_to_bytes c ∉ marked) cids.

Lemma go_on n : (∀ i, should_stop config run i = false) → is_cancelled run n = false.
Proof. intros Hgo. by apply orb_false_iff with (1 := Hgo n). Qed.

(** No check stops the run, and the limit does not apply to what the run counts. *)
Definition unlimited r : Prop :=
  max_blocks_per_run config = 0%nat
  ∨ dry_run config = false ∧ incremental config = false ∧ blocks_collected r = 0%nat.

Lemma unlimited_spec r : unlimited r → limit_reached config r = false.
Proof.
  unfold limit_reached. intros [->|(_ & _ & ->)]; [done|]. by destruct (max_blocks_per_run config).
Qed.

Lemma sweep_loop_dry n cids marked r td bc k :
  (∀ i, should_stop config run i = false) → dry_run config = true → unlimited r →
  sweep_loop config run n cids marked r td bc k
  = (Ok (collect_all (contents k) (unmarked marked cids) r, td), k).
Proof.
  intros Hgo Hdry. revert n r bc. induction cids as [|c cids IH]; intros n r bc Hr; simpl; [done|].
  rewrite Hgo, go_on by done. cbn [orb]. rewrite unlimited_spec by done. unfold unmarked. rewrite filter_cons.
  destruct (decide (Cid_to_bytes c ∈ marked)) as [Hc|Hc].
  { rewrite decide_False by auto. by apply IH. }
  rewrite decide_True by done. rewrite Hdry. unfold st_bind, reads, lift, freed_by. rewrite cold_get_ok.
  assert (unlimited (collect_one (contents k) r c)) as Hr'.
  { destruct Hr as [?|(? & _)]; [by left|congruence]. }
  simpl. change (fold_left (collect_one (contents k))) with (collect_all (contents k)).
  fold (unmarked marked cids).
  assert (∀ r1 bc1, r1 = collect_one (contents k) r c →
    sweep_loop config run (S (S n)) cids marked r1 td bc1 k
    = (Ok (collect_all (contents k) (unmarked marked cids) (collect_one (contents k) r c), td), k)) as Hnext
    by (intros ? bc1 ->; by apply IH).
  unfold collect_one in Hnext at 1. unfold collect_one in Hr'.
  destruct (contents k !! c) as [b|] eqn:Hb; destruct (incremental config && _); by apply Hnext.
Qed.

(** The blocks deleted on the way and those left to delete are the garbage, in listing order. *)
Lemma sweep_loop_active n cids marked r td bc k :
  (∀ i, should_stop config run i = false) → dry_run config = false → unlimited r →
  NoDup (td ++ unmarked marked cids) →
  ∃ D td' k', sweep_loop config run n cids marked r td bc k = (Ok (collect_all (contents k) D r, td'), k')
    ∧ D ++ td' = td ++ unmarked marked cids ∧ contents k' = without D (contents k).
Proof.
  intros Hgo Hdry. revert n r td bc k. induction cids as [|c cids IH]; intros n r td bc k Hr Hnd; simpl.
  { exists [], td, k. split_and!; [done|by rewrite app_nil_r|].
    apply map_eq. intros c. by rewrite lookup_without, decide_False by set_solver. }
  rewrite Hgo, go_on by done. cbn [orb]. rewrite unlimited_spec by done. unfold unmarked in *. rewrite filter_cons in *.
  destruct (decide (Cid_to_bytes c ∈ marked)) as [Hc|Hc].
  { rewrite decide_False in * by auto. by apply IH. }
  rewrite decide_True in * by done. rewrite Hdry, st_bind_lift.
  rewrite (cons_middle c td (filter _ cids)), (app_assoc td) in *.
  destruct (incremental config && _) eqn:Hbatch; [|by apply IH].
  rewrite bool_decide_eq_false_2 by (by destruct td). simpl. unfold st_bind at 1 2.
  apply NoDup_app in Hnd as Hnd'. destruct Hnd' as (Hnd1 & Hdisj & Hnd2).
  destruct (delete_batch_exact (td ++ [c]) r k) as (k1 & -> & Hk1); [done|]. cbn [lift].
  destruct (IH (S (S n)) (collect_all (contents k) (td ++ [c]) r) [] 0%nat k1) as (D & td' & k' & Hrun & HD & Hk').
  - left. apply andb_true_iff in Hbatch as [Hi _]. destruct Hr as [?|(_ & ? & _)]; [done|congruence].
  - done.
  - simpl in HD. exists ((td ++ [c]) ++ D), td', k'. split_and!.
    + unfold lift. rewrite Hrun, Hk1, collect_all_disjoint.
      * by rewrite (collect_all_app _ (td ++ [c])).
      * intros x Hx Hin. apply (Hdisj x Hin). rewrite <- HD. apply elem_of_app. by left.
    + by rewrite <- app_assoc, HD.
    + by rewrite Hk', Hk1, without_app.
Qed.

Lemma sweep_phase_exact n marked r k :
  (∀ i, should_stop config run i = false) → unlimited r →
  ∃ all r' k', sweep_phase config run n marked r k = (Ok r', k')
    ∧ cold_list k = Ok all
    ∧ r' = collect_all (contents k) (unmarked marked all) (set_scanned (length all) r)
    ∧ contents k' = if dry_run config then contents k else without (unmarked marked all) (contents k).
Proof.
  intros Hgo Hr. unfold sweep_phase. unfold st_bind at 1, reads.
  destruct (cold_list_ok k) as [all Hall]. pose proof (cold_list_law k) as Hlaw.
  rewrite Hall in *. simpl in Hlaw. exists all.
  assert (unlimited (set_scanned (length all) r)) as Hr' by done.
  assert (NoDup (unmarked marked all)) as Hnd.
  { apply NoDup_filter. rewrite Hlaw. apply NoDup_elements. }
  unfold st_bind. destruct (dry_run config) eqn:Hdry.
  - rewrite sweep_loop_dry by done. by eexists _, k.
  - destruct (sweep_loop_active n all marked (set_scanned (length all) r) [] 0 k) as
      (D & td & k1 & -> & HD & Hk1); [done..|]. simpl in HD |- *. rewrite <- HD in *.
    apply NoDup_app in Hnd as (_ & Hdisj & Hnd).
    case_bool_decide as Htd; simpl.
    + subst td. rewrite app_nil_r. by eexists _, k1.
    + destruct (delete_batch_exact td (collect_all (contents k) D (set_scanned (length all) r)) k1)
        as (k2 & -> & Hk2); [done|].
      exists (collect_all (contents k) (D ++ td) (set_scanned (length all) r)), k2.
      split_and!; [|done..|by rewrite Hk2, Hk1, without_app].
      rewrite Hk1, collect_all_disjoint.
      * by rewrite (collect_all_app _ D).
      * intros x Hx Hin. by apply (Hdisj x).
Qed.

(** ** A whole run *)

(** C7. A run of the collector, on any backend whose failing calls change nothing, under any
    configuration, cancelled or out of time at any check, and whatever its outcome, adds no block and
    leaves every pinned block as it was (pinned when the run reads the pins, whose keys are the bytes of
    CIDs, as the pin operations write them).  If the cancel flag is not cleared between two checks of the
    run, it also leaves every protected block as it was: a block is protected when it is pinned, or
    linked from a protected block that is not pinned only indirectly (the collector keeps those and
    does not follow their links).  So everything that links reach from a pinned block stays when the
    links of the indirectly pinned blocks are themselves pinned.  A dry run changes nothing. *)
Theorem storage_gc_safe fuel pm k o k' (Hcan : pins_canonical pm)
    (Hrun : gc_collect link_resolver config run fuel pm k = (o, k')) :
  contents k' ⊆ contents k
  ∧ (∀ c i, pins pm !! Cid_to_bytes c = Some i → contents k' !! c = contents k !! c)
  ∧ (flag_stays → ∀ c, protected pm c ∨ indirect_closed pm ∧ descends pm c → contents k' !! c = contents k !! c)
  ∧ (dry_run config = true → k' = k).
Proof.
  destruct (gc_collect_safe fuel pm k o k' Hcan Hrun) as (Hsub & Hpin & Hprot & Hdry). split_and!; [done..| |done].
  intros Hstays c [Hc|[Hcl Hc]]; apply Hprot; [done..|by apply descends_protected].
Qed.

(** C5. On a backend that does not fail, a run that nothing stops returns and collects exactly the
    garbage: [garbage] lists, once each, the stored blocks that are not protected, the result counts
    them and their bytes, and the store holds exactly the other blocks (a dry run counts them and
    deletes none).  The bound on the number of blocks of a run applies only to the collection in
    batches and to dry runs: a plain run collects all the garbage whatever the bound.  The fuel
    needed is the number of pins and of CIDs the resolver can return. *)
Theorem storage_gc_exact fuel pm k (U : gset bytes) (Hcan : pins_canonical pm)
    (Hdom : dom (pins pm) ⊆ U)
    (HU : ∀ c, fails_or (link_resolver c) (λ l, ∀ c', c' ∈ l → Cid_to_bytes c' ∈ U))
    (Hfuel : (size (pins pm) + size U ≤ fuel)%nat)
    (Hgo : ∀ i, should_stop config run i = false)
    (Hlim : max_blocks_per_run config = 0%nat ∨ dry_run config = false ∧ incremental config = false) :
  ∃ r k' garbage, gc_collect link_resolver config run fuel pm k = (Ok r, k')
    ∧ NoDup garbage
    ∧ (∀ c, c ∈ garbage ↔ is_Some (contents k !! c) ∧ ¬ protected pm c)
    ∧ blocks_collected r = length garbage
    ∧ bytes_freed r = as_u64 (Z.of_nat (stored_size (contents k) garbage))
    ∧ blocks_scanned r = size (contents k)
    ∧ interrupted r = false
    ∧ ∀ c, contents k' !! c
           = if negb (dry_run config) && bool_decide (c ∈ garbage) then None else contents k !! c.
Proof.
  destruct (mark_phase_answers fuel pm GcResult_default U) as [[[marked r] n] Hm]; [done..|].
  unfold gc_collect. rewrite Hm, st_bind_lift, Hgo.
  pose proof (mark_phase_result _ _ _ _ _ _ Hm ltac:(by split_and!)) as (Hr1 & Hr2 & Hr3).
  apply mark_phase_spec in Hm as [(i & _ & Hcancel)|Hmark]; [by rewrite go_on in Hcancel| |done].
  destruct (sweep_phase_exact (S n) marked r k) as (all & r' & k' & Hrun & Hall & -> & Hk'); [done| |].
  { destruct Hlim as [?|[??]]; [by left|by right]. }
  pose proof (cold_list_law k) as Hlaw. rewrite Hall in Hlaw. simpl in Hlaw.
  destruct (collect_all_spec (contents k) (unmarked marked all) (set_scanned (length all) r))
    as (Hn & Hb & Hi & _ & Hs).
  { simpl. rewrite Hr2. lia. }
  eexists _, k', (unmarked marked all). split; [exact Hrun|]. split_and!.
  - apply NoDup_filter. rewrite Hlaw. apply NoDup_elements.
  - intros c. unfold unmarked. rewrite list_elem_of_filter, Hmark, Hlaw, elem_of_elements, elem_of_dom.
    tauto.
  - rewrite Hn. simpl. by rewrite Hr1.
  - rewrite Hb. simpl. by rewrite Hr2.
  - rewrite Hs. simpl. rewrite Hlaw. by rewrite <- size_dom.
  - rewrite Hi. done.
  - intros c. rewrite Hk'. destruct (dry_run config); simpl; [done|].
    rewrite lookup_without. case_decide; case_bool_decide; done.
Qed.
End sweep.
End facts.

(** ** Pins that survive *)
Section survival.
Context `{CidCrate} `{!CidLaws} `{!HashIter bytes}.
Implicit Types (c : Cid) (m : PinManager).

Lemma pins_canonical_insert m c i s :
  pins_canonical m → pins_canonical (mkPinManager (<[Cid_to_bytes c := i]> (pins m)) s).
Proof. intros Hm k j. simpl. intros [[<- _]|[_ Hk]]%lookup_insert_Some; [by eexists|by eapply Hm]. Qed.

Lemma pin_with_type_canonical now c t nm m : pins_canonical m → pins_canonical (pin_with_type now c t nm m).
Proof.
  intros Hm. unfold pin_with_type. destruct (pins m !! _); [destruct (_ && _)|];
    by apply pins_canonical_insert.
Qed.

Lemma pin_links_canonical now root links seen n tp m :
  pins_canonical m → pins_canonical (pin_links now root links seen n tp m).2.
Proof.
  revert seen n tp m. induction links as [|c links IH]; intros seen n tp m Hm; simpl; [done|].
  case_decide; [by apply IH|]. apply IH. unfold pin_indirect.
  destruct (pins m !! _); by apply pins_canonical_insert.
Qed.

Lemma pin_recursive_canonical resolver fuel now root m :
  pins_canonical m → pins_canonical (pin_recursive resolver fuel now root m).2.
Proof.
  intros Hm. unfold pin_recursive, st_bind, modifies.
  apply (pin_with_type_canonical now root Recursive None) in Hm. revert Hm.
  generalize (pin_with_type now root Recursive None m), [root], ({[root]} : gset Cid), 1%nat. clear m.
  induction fuel as [|fuel IH]; intros m tp seen n Hm; simpl; (destruct (last tp) as [c|]; [|done]); [done|].
  unfold st_bind, lift. destruct (resolver c) as [links| | |]; try done.
  pose proof (pin_links_canonical now root links seen n (removelast tp) m Hm) as Hl.
  destruct (pin_links _ _ _ _ _ _ _) as [[[seen' n'] tp'] m']. by apply IH.
Qed.

(** A recursive pin protects its whole graph from the collector.  On a finite graph of blocks
    whose links the resolver knows, cyclic or not, after a recursive pin of a root every run of the
    collector, whatever its configuration, its resolver, its interruptions and the failures of the
    backend, leaves every block reachable from the root as it was. *)
Theorem recursive_pin_survives_gc {K : Type} `{!ColdStore K} `{!ColdLaws K}
  resolver resolver' (G : gmap Cid (list Cid)) config run fuel fuel' now root m (k : K)
  (Hres : ∀ c l, G !! c = Some l → resolver c = Ok l)
  (Hclosed : ∀ c c', edge G c c' → c' ∈ dom G)
  (Hroot : root ∈ dom G)
  (Hfuel : (size (dom G) ≤ fuel)%nat)
  (Hok : counts_ok m) (Hcan : pins_canonical m)
  (Hroom : ∀ c, rtc (edge G) root c → refs m c < 2 ^ 32 - 1) :
  ∃ n m', pin_recursive resolver fuel now root m = (Ok n, m')
    ∧ ∀ c, rtc (edge G) root c →
        contents (gc_collect resolver' config run fuel' m' k).2 !! c = contents k !! c.
Proof.
  destruct (pin_recursive_spec resolver G Hres Hclosed fuel now root m)
    as (R & m' & Hpin & HR & Hok' & Hrefs); [done..|].
  exists (size R), m'. split; [done|]. intros c Hc.
  pose proof (pin_recursive_canonical resolver fuel now root m Hcan) as Hcan'. rewrite Hpin in Hcan'.
  destruct (gc_collect resolver' config run fuel' m' k) as [o k'] eqn:Hrun.
  destruct (gc_collect_safe _ _ _ _ _ _ _ _ Hcan' Hrun) as (_ & Hkeep & _).
  assert (is_pinned m' c = true) as [i Hi]%bool_decide_eq_true; [|by eapply Hkeep].
  rewrite refs_pinned, Hrefs by done. unfold one. rewrite decide_True by by apply HR.
  pose proof (refs_range m c Hok). apply bool_decide_eq_true. lia.
Qed.
End survival.

(** ** The orphan collector *)
Section orphan.
Context `{CidCrate} {K : Type} `{!ColdStore K} `{!ColdLaws K} `{!Reliable K}.
Context (to_string : Cid → string) (config : OrphanGcConfig) (pinned_cids extra_pinned : gset string).
Implicit Types (k : K) (c : Cid).

Definition orphan_pinned c : Prop := to_string c ∈ pinned_cids ∪ extra_pinned.
#[local] Instance orphan_pinned_dec c : Decision (orphan_pinned c).
Proof. unfold orphan_pinned. apply _. Defined.
Definition orphans (cids : list Cid) : list Cid := filter (λ c, ¬ orphan_pinned c) cids.

Lemma orphan_size_exact c k r :
  ∃ r1, orphan_size config c k r = Ok r1
    ∧ examined r1 = examined r ∧ collected r1 = collected r ∧ o_errors r1 = o_errors r
    ∧ freed_bytes r1 = (freed_bytes r + length (default [] (contents k !! c)))%nat.
Proof.
  unfold orphan_size. rewrite cold_get_ok. destruct (contents k !! c); eexists; split_and!; done || (simpl; lia).
Qed.

Lemma orphan_loop_exact cids r k : NoDup cids →
  ∃ r' k', orphan_loop to_string config pinned_cids extra_pinned cids r k = (Ok r', k')
    ∧ examined r' = (examined r + length cids)%nat
    ∧ collected r' = (collected r + length (orphans cids))%nat
    ∧ freed_bytes r' = (freed_bytes r + stored_size (contents k) (orphans cids))%nat
    ∧ o_errors r' = o_errors r
    ∧ contents k' = if o_dry_run config then contents k else without (orphans cids) (contents k).
Proof.
  revert r k. induction cids as [|c cids IH]; intros r k Hnd; simpl.
  { exists r, k. unfold orphans, stored_size. simpl. rewrite !Nat.add_0_r. split_and!; try done.
    destruct (o_dry_run config); [done|]. apply map_eq. intros c.
    by rewrite lookup_without, decide_False by set_solver. }
  apply NoDup_cons in Hnd as [Hc Hnd]. unfold orphans in *. rewrite filter_cons.
  destruct (decide (_ ∈ pinned_cids ∨ _)) as [Hp|Hp].
  { rewrite decide_False by (unfold orphan_pinned; rewrite elem_of_union; tauto).
    destruct (IH (mkOrphanResult (S (examined r)) (collected r) (freed_bytes r) (o_errors r)) k Hnd)
      as (r' & k' & Hrun & He & Hn & Hf & Her & Hk'). exists r', k'. simpl in *.
    split_and!; try done; lia. }
  rewrite decide_True by (unfold orphan_pinned; rewrite elem_of_union; tauto).
  unfold st_bind, reads.
  destruct (orphan_size_exact c k (mkOrphanResult (S (examined r)) (collected r) (freed_bytes r) (o_errors r)))
    as (r1 & -> & He & Hn & Her & Hf). simpl in He, Hn, Her, Hf.
  destruct (o_dry_run config) eqn:Hdry.
  - destruct (IH (orphan_collected r1) k Hnd) as (r' & k' & Hrun & He' & Hn' & Hf' & Her' & Hk').
    exists r', k'. unfold stored_size in *. simpl in *.
    split_and!; try done; try lia. congruence.
  - pose proof (cold_delete_law c k) as Hd. pose proof (cold_delete_ok c k) as Hok.
    destruct (cold_delete c k) as [o k1]. simpl in Hok. subst o. simpl in Hd.
    destruct (IH (orphan_collected r1) k1 Hnd) as (r' & k' & Hrun & He' & Hn' & Hf' & Her' & Hk').
    rewrite delete_without in Hd. rewrite Hd, without_app in Hk'.
    rewrite Hd, (stored_size_ext _ (contents k)) in Hf'.
    2:{ intros x Hx. rewrite lookup_without, decide_False; [done|].
        intros ->%list_elem_of_singleton. by apply list_elem_of_filter in Hx as [_ ?]. }
    exists r', k'. unfold stored_size in *. simpl in *. split_and!; try done; try lia. congruence.
Qed.

(** One pass of the orphan collector on a backend that does not fail looks only at the first
    [batch_size] CIDs the store lists: it deletes those of them whose string is in neither pin set,
    counts them and their bytes, and touches no other block.  So when the first batch is pinned, a
    pass examines it and changes nothing, however many orphans the store holds after it. *)
Theorem orphan_gc_first_batch k :
  ∃ all r k', cold_list k = Ok all
    ∧ orphan_collect to_string config pinned_cids extra_pinned k = (Ok r, k')
    ∧ let found := orphans (take (o_batch_size config) all) in
      examined r = Nat.min (o_batch_size config) (size (contents k))
      ∧ collected r = length found
      ∧ freed_bytes r = stored_size (contents k) found
      ∧ (∀ c, contents k' !! c
              = if negb (o_dry_run config) && bool_decide (c ∈ found) then None else contents k !! c)
      ∧ (Forall orphan_pinned (take (o_batch_size config) all) → contents k' = contents k).
Proof.
  unfold orphan_collect, st_bind, reads. destruct (cold_list_ok k) as [all Hall].
  pose proof (cold_list_law k) as Hlaw. rewrite Hall in *. simpl in Hlaw.
  destruct (orphan_loop_exact (take (o_batch_size config) all) (mkOrphanResult 0 0 0 []) k)
    as (r & k' & Hrun & He & Hn & Hf & _ & Hk').
  { eapply sublist_NoDup; [|apply sublist_take]. rewrite Hlaw. apply NoDup_elements. }
  exists all, r, k'. split_and!; [done..| | | | |].
  - rewrite He. simpl. rewrite length_take, Hlaw. by rewrite <- size_dom.
  - by rewrite Hn.
  - by rewrite Hf.
  - intros c. rewrite Hk'. destruct (o_dry_run config); simpl; [done|].
    rewrite lookup_without. case_decide; case_bool_decide; done.
  - intros Hall'. rewrite Hk'. destruct (o_dry_run config); [done|].
    replace (orphans (take (o_batch_size config) all)) with ([] : list Cid).
    + apply map_eq. intros c. by rewrite lookup_without, decide_False by set_solver.
    + symmetry. unfold orphans. clear -Hall'. induction Hall' as [|c l Hc _ IH]; [done|].
      rewrite filter_cons_False by tauto. exact IH.
Qed.
End orphan.

(** ** Witnesses: two blocks that link to each other and a stray one *)
Import Reference.
#[local] Existing Instance default_iter.

Definition g_store : MemoryBlockStore :=
  mkMemoryBlockStore (list_to_map ((λ n, (p_cid n, [n])) <$> [1; 2; 3])).
Definition g_run : Run := mkRun (λ _, false) (λ _, 0).
Definition g_keys : gset bytes := list_to_set (Cid_to_bytes <$> [p_cid 1; p_cid 2]).

Lemma p_manager_pins : pins p_manager = {[Cid_to_bytes (p_cid 2) := PinInfo_new 5 Direct]}.
Proof. unfold p_manager, pin, pin_with_type. simpl pins. by rewrite lookup_empty. Qed.

Lemma p_cid_ne : p_cid 1 ≠ p_cid 2.
Proof. intros E%(f_equal Cid_to_bytes). vm_compute in E. discriminate E. Qed.

Lemma p_manager_canonical : pins_canonical p_manager.
Proof. intros k i. rewrite p_manager_pins. intros [<- _]%lookup_singleton_Some. by eexists. Qed.

Lemma p_resolver_links c :
  fails_or (p_resolver c) (λ l, ∀ c', c' ∈ l → Cid_to_bytes c' ∈ g_keys).
Proof.
  unfold p_resolver. destruct (p_graph !! c) as [l|] eqn:Hl; simpl; [|done].
  intros c' Hc'. unfold g_keys. rewrite elem_of_list_to_set. apply list_elem_of_fmap_2. unfold p_graph in Hl.
  apply lookup_insert_Some in Hl as [[_ <-]|[_ [_ <-]%lookup_singleton_Some]]; set_solver.
Qed.

Lemma storage_gc_safe_witness :
  contents (gc_collect p_resolver GcConfig_default g_run 9 p_manager g_store).2 !! p_cid 1
  = contents g_store !! p_cid 1.
Proof.
  destruct (gc_collect p_resolver GcConfig_default g_run 9 p_manager g_store) as [o k'] eqn:Hrun.
  apply (storage_gc_safe p_resolver GcConfig_default g_run 9 p_manager g_store o k' p_manager_canonical Hrun);
    [intros i Hi; exact Hi|left].
  apply (protected_link p_resolver p_manager (p_cid 2) [p_cid 1; p_cid 2]).
  - eapply protected_pin. rewrite p_manager_pins. apply lookup_singleton_eq.
  - intros i. rewrite p_manager_pins, lookup_singleton_eq. by intros [= <-].
  - unfold p_resolver, p_graph. rewrite lookup_insert_ne by exact p_cid_ne. by rewrite lookup_singleton_eq.
  - left.
Defined.

Lemma storage_gc_exact_witness :
  ∃ r k' garbage,
    gc_collect p_resolver (with_max_blocks 1 GcConfig_default) g_run 9 p_manager g_store = (Ok r, k')
    ∧ blocks_collected r = length garbage
    ∧ ∀ c, contents k' !! c = if bool_decide (c ∈ garbage) then None else contents g_store !! c.
Proof.
  destruct (storage_gc_exact p_resolver (with_max_blocks 1 GcConfig_default) g_run 9 p_manager g_store g_keys)
    as (r & k' & garbage & Hrun & _ & _ & Hn & _ & _ & _ & Hk').
  - exact p_manager_canonical.
  - rewrite p_manager_pins, dom_singleton_L. unfold g_keys. set_solver.
  - exact p_resolver_links.
  - apply Nat.leb_le. vm_compute. reflexivity.
  - intros i. reflexivity.
  - right. split; reflexivity.
  - exists r, k', garbage. split; [exact Hrun|split; [exact Hn|exact Hk']].
Defined.

Lemma recursive_pin_survives_gc_witness :
  ∃ n m', pin_recursive p_resolver 8 0 (p_cid 1) p_manager = (Ok n, m')
    ∧ contents (gc_collect p_resolver GcConfig_default g_run 0 m' g_store).2 !! p_cid 2
      = contents g_store !! p_cid 2.
Proof.
  destruct (recursive_pin_survives_gc p_resolver p_resolver p_graph GcConfig_default g_run 8 0 0 (p_cid 1)
              p_manager g_store) as (n & m' & Hpin & Hkeep).
  - intros c l Hl. unfold p_resolver. rewrite Hl. reflexivity.
  - exact p_graph_closed.
  - apply elem_of_dom_2 with [p_cid 2]. apply lookup_insert_eq.
  - apply Nat.leb_le. vm_compute. reflexivity.
  - apply p_manager_refs.
  - exact p_manager_canonical.
  - intros c _. apply p_manager_refs.
  - exists n, m'. split; [exact Hpin|]. apply Hkeep. apply rtc_once. exists [p_cid 2]. split; [apply lookup_insert_eq|left].
Defined.

Lemma orphan_gc_first_batch_witness :
  ∃ r k', orphan_collect (λ c, bytes_string (Cid_to_bytes c)) (mkOrphanConfig false 0 2) ∅ ∅ g_store = (Ok r, k')
    ∧ examined r = Nat.min 2 (size (contents g_store)).
Proof.
  destruct (orphan_gc_first_batch (λ c, bytes_string (Cid_to_bytes c)) (mkOrphanConfig false 0 2) ∅ ∅ g_store)
    as (all & r & k' & _ & Hrun & He & _).
  exists r, k'. split; [exact Hrun|exact He].
Defined.

(** The stray block is collected, the two others are kept: [1] and [1] byte. *)
Example g_counts :
  match gc_collect p_resolver GcConfig_default g_run 9 p_manager g_store with
  | (Ok r, k') => (blocks_collected r, bytes_freed r, blocks_marked r, size (mb_blocks k'))
  | _ => (0%nat, 0, 0%nat, 0%nat)
  end = (1%nat, 1, 2%nat, 2%nat).
Proof. vm_compute. reflexivity. Qed.

(** The flag is set when the mark phase looks at it and cleared (by [reset_cancel], or by another
    [collect]) before the next check: the sweep then works with incomplete marks, and a block that
    the pinned one links to is deleted. *)
Definition cleared_run : Run := mkRun (λ n, (n =? 0)%nat) (λ _, 0).
Example cleared_flag_loses_block :
  let k' := (gc_collect p_resolver GcConfig_default cleared_run 9 p_manager g_store).2 in
  match p_resolver (p_cid 2) with Ok l => bool_decide (p_cid 1 ∈ l) | _ => false end = true
  ∧ bool_decide (is_Some (pins p_manager !! Cid_to_bytes (p_cid 2))) = true
  ∧ bool_decide (is_Some (mb_blocks g_store !! p_cid 1)) = true ∧ bool_decide (is_Some (mb_blocks k' !! p_cid 1)) = false.
Proof. split_and!; vm_compute; reflexivity. Qed.

(** A chain of three blocks, pinned recursively at its root. *)
Definition chain_graph : gmap Cid (list Cid) :=
  {[p_cid 1 := [p_cid 2]; p_cid 2 := [p_cid 3]; p_cid 3 := []]}.
Definition chain_resolver (c : Cid) : outcome Error (list Cid) := ok_or (chain_graph !! c) CidError.
Definition chain_pins : PinManager := (pin_recursive chain_resolver 8 0 (p_cid 1) PinManager_new).2.
Definition survivors (m : PinManager) (k : MemoryBlockStore) : list bool :=
  (λ n, bool_decide (is_Some (mb_blocks (gc_collect chain_resolver GcConfig_default g_run 9 m k).2 !! p_cid n)))
    <$> [1; 2; 3].

(** A recursive pin protects the descendants of its root only as long as each of them keeps its
    own indirect pin: after [unpin] of the last block of a chain, the collector deletes it, although
    the chain is still pinned recursively at its root, because the mark phase does not go through the
    indirectly pinned block in the middle.  Without the [unpin] all three blocks survive. *)
Theorem unpinned_descendant_collected :
  survivors chain_pins g_store = [true; true; true]
  ∧ survivors (unpin (p_cid 3) chain_pins).2 g_store = [true; true; false]
  ∧ (pin_type <$> get_pin_info (unpin (p_cid 3) chain_pins).2 (p_cid 1)) = Some Recursive.
Proof. split_and!; vm_compute; reflexivity. Qed.
