(* ===== verification/F32.v ===== *)
(** * Single-precision arithmetic on bit patterns

    The operations of [f32] round to nearest, ties to even: they are the Standard Library's
    [SpecFloat] at precision 24 on the bit patterns of [Ieee].  The bits of a NaN result, which the
    language leaves open, are those of the quiet NaN. *)

From Stdlib Require Import ZArith Lia List.
From Stdlib Require Import SpecFloat.
From stdpp Require Import base tactics numbers list.
From S2P Require Import Prelude Ieee.

#[local] Open Scope Z_scope.

Definition f32_nan : Z := pack 8 23 0 255 (2 ^ 22).
Definition f32_one : Z := pack 8 23 0 127 0.
Definition f32_neg_one : Z := pack 8 23 1 127 0.
Definition f32_neg_zero : Z := pack 8 23 1 0 0.

Definition of_bits (b : Z) : spec_float :=
  let s := Z.odd (sign_of 8 23 b) in let e := exp_of 8 23 b in let f := frac_of 23 b in
  if e =? 255 then if f =? 0 then S754_infinity s else S754_nan
  else if e =? 0 then if f =? 0 then S754_zero s else S754_finite s (Z.to_pos f) (-149)
  else S754_finite s (Z.to_pos (2 ^ 23 + f)) (e - 150).

(** The results of [SpecFloat] fit the format, so the wrap-around never applies. *)
Definition to_bits (x : spec_float) : Z :=
  let sg (s : bool) : Z := if s then 1 else 0 in
  as_u32
    match x with
    | S754_zero s => pack 8 23 (sg s) 0 0
    | S754_infinity s => pack 8 23 (sg s) 255 0
    | S754_nan => f32_nan
    | S754_finite s m e =>
      if Zpos m <? 2 ^ 23 then pack 8 23 (sg s) 0 (Zpos m)
      else pack 8 23 (sg s) (e + 150) (Zpos m - 2 ^ 23)
    end.

Lemma to_bits_range x : 0 <= to_bits x < 2 ^ 32.
Proof. apply Z.mod_pos_bound. lia. Qed.

Definition f32_op2 (op : spec_float → spec_float → spec_float) (x y : Z) : Z :=
  to_bits (op (of_bits x) (of_bits y)).
Definition f32_add : Z → Z → Z := f32_op2 (SFadd 24 128).
Definition f32_mul : Z → Z → Z := f32_op2 (SFmul 24 128).
Definition f32_div : Z → Z → Z := f32_op2 (SFdiv 24 128).
Definition f32_sqrt (x : Z) : Z := to_bits (SFsqrt 24 128 (of_bits x)).
Definition f32_ltb (x y : Z) : bool := SFltb (of_bits x) (of_bits y).

(** [Iterator::sum], which starts from [-0.0]. *)
Definition f32_sum (l : list Z) : Z := foldl f32_add f32_neg_zero l.

(** The integer [total_cmp] compares: a total order on all bit patterns. *)
Definition total_key (b : Z) : Z := if b <? 2 ^ 31 then b else -1 - (b - 2 ^ 31).

Lemma total_key_inj a b : 0 <= a < 2 ^ 32 → 0 <= b < 2 ^ 32 → total_key a = total_key b → a = b.
Proof.
  intros Ha Hb. unfold total_key. destruct (Z.ltb_spec a (2 ^ 31)), (Z.ltb_spec b (2 ^ 31)); lia.
Qed.

(** Reading a pattern and writing it back loses only the payload of a NaN. *)
Lemma to_bits_of_bits b : 0 <= b < 2 ^ 32 → of_bits b ≠ S754_nan → to_bits (of_bits b) = b.
Proof.
  intros Hb Hnan. transitivity (as_u32 b); [|by apply as_u32_small]. unfold to_bits. f_equal.
  revert Hnan. rewrite <- (pack_fields 8 23 b) at 3 by lia. unfold of_bits.
  pose proof (exp_of_range 8 23 b ltac:(lia)) as He. pose proof (frac_of_range 23 b ltac:(lia)) as Hf.
  assert (sign_of 8 23 b = 0 ∨ sign_of 8 23 b = 1) as Hs.
  { unfold sign_of. rewrite Z.div_div by lia. change (2 ^ 23 * 2 ^ 8) with (2 ^ 31).
    assert (0 <= b / 2 ^ 31 < 2); [split; [apply Z.div_pos; lia|apply Z.div_lt_upper_bound; lia]|lia]. }
  set (s := sign_of 8 23 b) in *. set (e := exp_of 8 23 b) in *. set (f := frac_of 23 b) in *.
  clearbody s e f.
  assert ((if Z.odd s then 1 else 0) = s) as Hsg by (destruct Hs as [-> | ->]; done).
  destruct (Z.eqb_spec e 255) as [->|He1]; [|destruct (Z.eqb_spec e 0) as [->|He2]].
  - destruct (Z.eqb_spec f 0) as [->|]; [|done]. intros _. simpl. by rewrite Hsg.
  - destruct (Z.eqb_spec f 0) as [->|]; intros _; simpl; rewrite Hsg; [done|].
    rewrite Z2Pos.id by lia. destruct (Z.ltb_spec f (2 ^ 23)); [done|lia].
  - intros _. simpl. rewrite Hsg, Z2Pos.id by lia. destruct (Z.ltb_spec (2 ^ 23 + f) (2 ^ 23)); [lia|].
    f_equal; lia.
Qed.

(** 1 + 1, 1 / 3, the square root of 2, and the sum of tenths. *)
Example f32_examples :
  f32_add f32_one f32_one = 0x40000000 ∧ f32_div f32_one 0x40400000 = 0x3eaaaaab
  ∧ f32_sqrt 0x40000000 = 0x3fb504f3 ∧ f32_sum (replicate 10 0x3dcccccd) = 0x3f800001.
Proof. vm_compute. done. Qed.
