(* ===== verification/Vector.v ===== *)
(** * The vector index: [crates/ipfrs-knowledge/src/vector.rs]

    [embed] hashes the character trigrams of a text into a vector of [f32]s, [VectorIndex] maps
    CIDs to vectors and is stored as a block.  An [f32] is its bit pattern ([F32]).  Trimming and
    lower-casing follow the Unicode tables of the standard library, which are a parameter
    ([Unicode]).  [index_graph] is in [Graph]. *)

From Stdlib Require Import ZArith Lia List.
From stdpp Require Import base tactics numbers list gmap sets strings.
From S2P Require Import Prelude Collections Ieee F32 Cid Ipld Store Hamt KNode.

#[local] Open Scope Z_scope.

(** ** Text *)
Class Unicode : Type := { str_trim : string → string; to_lowercase : string → string }.

(** ** Embeddings *)
Definition DEFAULT_DIM : Z := 256.
Abbreviation Embedding := (list Z).

(** [windows(3)]. *)
Fixpoint windows3 (l : list Z) : list (list Z) :=
  match l with
  | a :: (b :: c :: _) as l' => [a; b; c] :: windows3 l'
  | _ => []
  end.

Definition fnv1a (w : list Z) : Z :=
  foldl (λ h c, as_u64 (Z.lxor h c * 0x1000000001b3)) 0xcbf29ce484222325 w.

(** One trigram: [h % dim] panics when [dim] is zero. *)
Definition add_window (dim : Z) (v : Embedding) (w : list Z) : outcome KError Embedding :=
  let h := fnv1a w in
  if dim =? 0 then Panic else
  let idx := Z.to_nat (h mod dim) in
  let sign := if Z.land (Z.shiftr h 63) 1 =? 1 then f32_neg_one else f32_one in
  match v !! idx with
  | Some x => Ok (<[idx := f32_add x sign]> v)
  | None => Panic
  end.

Fixpoint add_windows (dim : Z) (v : Embedding) (ws : list (list Z)) : outcome KError Embedding :=
  match ws with
  | [] => Ok v
  | w :: ws' => let! v := add_window dim v w in add_windows dim v ws'
  end.

Definition magnitude (v : Embedding) : Z := f32_sqrt (f32_sum (map (λ x, f32_mul x x) v)).

Section embed.
Context `{!Unicode}.
Definition embed (text : string) (dim : Z) : outcome KError Embedding :=
  let! _ := map_err KCore (alloc dim 4) in
  let v := replicate (Z.to_nat dim) 0 in
  let normalized := to_lowercase (str_trim text) in
  let chars := [0x20] ++ chars (string_bytes normalized) ++ [0x20] in
  let! v := add_windows dim v (windows3 chars) in
  let mag := magnitude v in
  Ok (if f32_ltb 0 mag then map (λ x, f32_div x mag) v else v).
End embed.

Definition cosine (a b : Embedding) : Z := f32_sum (zip_with f32_mul a b).

(** ** The index *)
Section index.
Context `{CidCrate}.

Record VectorIndex : Type := mkVectorIndex { dim : Z; vi_entries : list (Cid * Embedding) }.

Definition VectorIndex_new (dim : Z) : VectorIndex := mkVectorIndex dim [].
Definition vi_len (ix : VectorIndex) : nat := length (vi_entries ix).
Definition vi_is_empty (ix : VectorIndex) : bool := bool_decide (vi_entries ix = []).

(** The length check of [add] is a debug assertion, absent from the release profile. *)
Definition vi_add (target : Cid) (emb : Embedding) (ix : VectorIndex) : VectorIndex :=
  mkVectorIndex (dim ix) (vi_entries ix ++ [(target, emb)]).
Definition vi_remove (target : Cid) (ix : VectorIndex) : VectorIndex :=
  mkVectorIndex (dim ix) (filter (λ p, p.1 ≠ target) (vi_entries ix)).
Definition upsert (target : Cid) (emb : Embedding) (ix : VectorIndex) : VectorIndex :=
  vi_add target emb (vi_remove target ix).

(** A stable sort, best score first. *)
Definition better_score (p q : Cid * Z) : bool := total_key q.2 <? total_key p.2.
Definition sort_scored (l : list (Cid * Z)) : list (Cid * Z) := sort_by better_score l.

Definition search (query : Embedding) (k : nat) (ix : VectorIndex) : list (Cid * Z) :=
  take k (sort_scored (map (λ '(c, e), (c, cosine query e)) (vi_entries ix))).

(** ** Persistence *)
Definition f32_le_bytes (b : Z) : bytes := le_bytes 4 b.
Definition f32_from_le_bytes (l : bytes) : Z := of_le_bytes l.

Definition entry_ipld (p : Cid * Embedding) : ipld :=
  IMap (bt_of_list [("c"%string, link p.1); ("v"%string, IBytes (concat (map f32_le_bytes p.2)))]).
Definition vi_to_ipld (ix : VectorIndex) : ipld :=
  IMap (bt_of_list
    [("@type", IString "vindex"); ("dim", IInteger (dim ix)); ("entries", IList (map entry_ipld (vi_entries ix)))])%string.

Definition vi_encode (ix : VectorIndex) : outcome KError (Cid * bytes) :=
  let! bytes := map_err KCore (to_dag_cbor (vi_to_ipld ix)) in
  let! cid := map_err KCore (CidBuilder.build_dag_cbor CidBuilder.new bytes) in
  Ok (cid, bytes).

Definition vi_store `{!BlockStore T} (ix : VectorIndex) : stateful T KError Cid :=
  do! (cid, bytes) := lift (vi_encode ix) in
  do! _ := modifies (put cid bytes) in
  lift (Ok cid).

(** [chunks_exact(4)]. *)
Fixpoint f32s (l : bytes) : list Z :=
  match l with
  | a :: b :: c :: d :: l' => f32_from_le_bytes [a; b; c; d] :: f32s l'
  | _ => []
  end.

Definition decode_entry (dim : Z) (e : ipld) : outcome KError (Cid * Embedding) :=
  let! em := ok_or (Ipld.as_map e) KDecode in
  let! cid := ok_or (v ← bt_get "c" em; as_link v) KDecode in
  let! bytes := match bt_get "v" em with Some (IBytes b) => Ok b | _ => Err KDecode end in
  let emb := f32s bytes in
  if zlen emb =? dim then Ok (cid, emb) else Err KDecode.

Definition vi_decode (b : bytes) : outcome KError VectorIndex :=
  let! i := map_err KCore (from_dag_cbor b) in
  let! m := ok_or (Ipld.as_map i) KDecode in
  let! dim :=
    match bt_get "dim" m with
    | Some (IInteger n) => if (1 <=? n) && (n <=? 65536) then Ok n else Err KDecode
    | _ => Err KDecode
    end in
  let! l := match bt_get "entries" m with Some (IList l) => Ok l | _ => Err KDecode end in
  let! entries := try_map (decode_entry dim) l in
  Ok (mkVectorIndex dim entries).

(** ** The text of nodes *)
Definition node_text (n : KnowledgeNode) : option string :=
  match n with
  | Entity _ _ name aliases attrs _ =>
    let t := foldl (λ t a, t ++ " " ++ a)%string name aliases in
    Some (foldl (λ t v, t ++ " " ++ v)%string t attrs.*2)
  | Concept name definition _ _ => Some (name ++ " " ++ definition)%string
  | Observation _ statement _ _ => Some statement
  | Hypothesis_ claim _ _ _ _ => Some claim
  | Relation _ predicate _ _ _ => Some predicate
  | Evidence _ _ _ _ => None
  end.

(** [Err] of the decoder moves on to the second attempt, and a panic does not. *)
Definition block_text (b : bytes) : outcome KError (option string) :=
  match decode b with
  | Ok node => Ok (node_text node)
  | Err _ =>
    match from_dag_cbor b with
    | Ok (IString s) => Ok (Some s)
    | Ok _ | Err _ => Ok None
    | Panic => Panic
    | OutOfFuel => OutOfFuel
    end
  | Panic => Panic
  | OutOfFuel => OutOfFuel
  end.

Section text.
Context `{!Unicode}.
Definition add_text (target : Cid) (text : string) (ix : VectorIndex) : outcome KError VectorIndex :=
  let! e := embed text (dim ix) in Ok (vi_add target e ix).
Definition search_text (query : string) (k : nat) (ix : VectorIndex) : outcome KError (list (Cid * Z)) :=
  let! q := embed query (dim ix) in Ok (search q k ix).
End text.
End index.
