(* ===== verification/VectorFacts.v ===== *)
(** * The vector index is a map whose search is exact and whose block can be read back *)

From Stdlib Require Import ZArith Lia List Sorted.
From stdpp Require Import base tactics numbers list gmap sets strings sorting.
From S2P Require Import Prelude Collections Ieee F32 Cid CidFacts Ipld IpldFacts Store Hamt HamtFacts KNode KNodeFacts Vector.

#[local] Open Scope Z_scope.

(** ** Embeddings *)
Definition f32s_ok (v : Embedding) : Prop := Forall (λ x, 0 <= x < 2 ^ 32) v.

Lemma add_window_ok dim v w :
  1 <= dim → zlen v = dim → f32s_ok v → ∃ v', add_window dim v w = Ok v' ∧ zlen v' = dim ∧ f32s_ok v'.
Proof.
  intros Hd Hv Hok. unfold add_window. rewrite (proj2 (Z.eqb_neq dim 0)) by lia.
  set (idx := Z.to_nat (fnv1a w mod dim)).
  pose proof (Z.mod_pos_bound (fnv1a w) dim).
  destruct (lookup_lt_is_Some_2 v idx) as [x Hx]; [unfold idx, zlen in *; lia|]. rewrite Hx.
  eexists. split; [done|]. split; [unfold zlen in *; by rewrite length_insert|].
  apply Forall_insert; [done|]. apply to_bits_range.
Qed.

Lemma add_windows_ok dim v ws :
  1 <= dim → zlen v = dim → f32s_ok v → ∃ v', add_windows dim v ws = Ok v' ∧ zlen v' = dim ∧ f32s_ok v'.
Proof.
  intros Hd. revert v. induction ws as [|w ws IH]; intros v Hv Hok; simpl; [eauto|].
  destruct (add_window_ok dim v w) as (v' & -> & Hv' & Hok'); [done..|]. simpl. by apply IH.
Qed.

Section embed.
Context `{!Unicode}.

(** With a sensible dimension a text has an embedding, of that dimension. *)
Lemma embed_ok text dim : 1 <= dim <= 65536 →
  ∃ e, embed text dim = Ok e ∧ zlen e = dim ∧ f32s_ok e.
Proof.
  intros Hd. unfold embed, alloc, isize_max.
  destruct (Z.ltb_spec (2 ^ 63 - 1) (dim * 4)); [lia|]. cbn [map_err outcome_bind].
  edestruct (add_windows_ok dim (replicate (Z.to_nat dim) 0)) as (v & -> & Hv & Hok).
  - lia.
  - unfold zlen. rewrite length_replicate. lia.
  - apply Forall_replicate. lia.
  - cbn [outcome_bind]. eexists. split; [done|].
    destruct (f32_ltb 0 (magnitude v)); [|done]. split; [unfold zlen in *; by rewrite length_fmap|].
    apply Forall_fmap, Forall_forall. intros x _. apply to_bits_range.
Qed.
End embed.

Section index.
Context `{CidCrate} `{!CidLaws}.
Implicit Types (ix : VectorIndex) (c : Cid) (e : Embedding).

(** ** The index as a map *)
Definition vi_keys ix : list Cid := (vi_entries ix).*1.

Lemma vi_remove_keys c ix : vi_keys (vi_remove c ix) = filter (λ c', c' ≠ c) (vi_keys ix).
Proof.
  unfold vi_keys, vi_remove. simpl. induction (vi_entries ix) as [|[c' e'] l IH]; [done|].
  rewrite fmap_cons, !filter_cons, <- IH. simpl. by case_decide.
Qed.

(** [upsert] keeps at most one vector per CID, the last one. *)
Lemma upsert_spec c e ix : NoDup (vi_keys ix) →
  NoDup (vi_keys (upsert c e ix)) ∧ dim (upsert c e ix) = dim ix ∧
  ∀ p, p ∈ vi_entries (upsert c e ix) ↔ p = (c, e) ∨ p.1 ≠ c ∧ p ∈ vi_entries ix.
Proof.
  intros Hnd. split_and!; [|done|].
  - assert (vi_keys (upsert c e ix) = vi_keys (vi_remove c ix) ++ [c])
      as -> by (unfold vi_keys, upsert, vi_add; simpl; by rewrite fmap_app).
    rewrite vi_remove_keys. apply NoDup_app. split_and!.
    + by apply NoDup_filter.
    + intros x [Hx _]%list_elem_of_filter. simpl. by intros ->%list_elem_of_singleton.
    + apply NoDup_singleton.
  - intros p. unfold upsert, vi_add, vi_remove. simpl.
    rewrite elem_of_app, list_elem_of_filter, list_elem_of_singleton. tauto.
Qed.

(** ** Search *)
Definition better (p q : Cid * Z) : Prop := total_key q.2 <= total_key p.2.

#[local] Instance better_trans : Transitive better.
Proof. intros p q r. unfold better. lia. Qed.

Lemma sort_scored_spec l : sort_scored l ≡ₚ l ∧ StronglySorted better (sort_scored l).
Proof.
  apply (sort_by_spec _ better); intros p q; unfold better_score, better.
  - intros ?%Z.ltb_lt. lia.
  - intros ?%Z.ltb_ge. lia.
Qed.

(** C33. Search is exact: it returns [k] of the entries with their similarity to the query, or all
    of them when there are fewer, best first, and no entry left out is better than one returned.
    "Better" is the total order on [f32]s, so this holds whatever the vectors contain, NaNs
    included. *)
Theorem search_exact query k ix :
  let scored := map (λ '(c, e), (c, cosine query e)) (vi_entries ix) in
  let found := search query k ix in
  ∃ rest, found ++ rest ≡ₚ scored
    ∧ length found = Nat.min k (length scored)
    ∧ StronglySorted better found
    ∧ ∀ p q, p ∈ found → q ∈ rest → better p q.
Proof.
  intros scored found. destruct (sort_scored_spec scored) as [Hp Hs].
  exists (drop k (sort_scored scored)). unfold found, search. fold scored. split_and!.
  - by rewrite take_drop.
  - by rewrite length_take, Hp.
  - rewrite <- (take_drop k (sort_scored scored)) in Hs. by eapply StronglySorted_app_1_l.
  - intros p q Hpi Hqi. rewrite <- (take_drop k (sort_scored scored)) in Hs.
    by eapply StronglySorted_app_1_elem_of.
Qed.

(** ** The block of an index *)
Definition wf_index ix : Prop :=
  1 <= dim ix <= 65536 ∧ fits (vi_entries ix)
  ∧ Forall (λ p, zlen p.2 = dim ix ∧ f32s_ok p.2) (vi_entries ix).

Lemma f32_le_roundtrip x r : 0 <= x < 2 ^ 32 → f32s (f32_le_bytes x ++ r) = x :: f32s r.
Proof.
  intros Hx. pose proof (of_le_le_bytes 4 x ltac:(simpl; lia)) as Hb.
  pose proof (length_le_bytes 4 x) as Hl. unfold f32_le_bytes.
  destruct (le_bytes 4 x) as [|a [|b [|c [|d []]]]]; try discriminate Hl.
  simpl. f_equal. exact Hb.
Qed.

Lemma f32s_roundtrip v : f32s_ok v → f32s (concat (map f32_le_bytes v)) = v.
Proof. induction 1 as [|x v Hx _ IH]; [done|]. cbn [map concat]. by rewrite f32_le_roundtrip, IH. Qed.

Lemma length_f32_bytes v : zlen (concat (map f32_le_bytes v)) = 4 * zlen v.
Proof.
  unfold zlen. induction v as [|x v IH]; [done|]. cbn [map concat]. rewrite length_app.
  assert (length (f32_le_bytes x) = 4%nat) as Hx
    by apply length_le_bytes.
  rewrite Hx. simpl length. lia.
Qed.

Lemma f32_bytes_wf v : zlen v <= 65536 → wf_ipld (IBytes (concat (map f32_le_bytes v))).
Proof. intros Hv. simpl. rewrite length_f32_bytes. unfold isize_max. lia. Qed.

Lemma entry_wf p d : 1 <= d <= 65536 → zlen p.2 = d → wf_ipld (entry_ipld p).
Proof.
  intros Hd Hp. unfold entry_ipld. apply fields_wf; [done|repeat constructor|].
  repeat (apply Forall_cons_2; [split; cbn [fst snd]|]); try apply Forall_nil_2;
    try (by apply str_okb_ok); [apply link_wf|apply f32_bytes_wf; lia].
Qed.

Lemma vi_wf ix : wf_index ix → wf_ipld (vi_to_ipld ix).
Proof.
  intros (Hd & Hfit & Hall). unfold vi_to_ipld.
  apply fields_wf; [done|repeat constructor|].
  repeat (apply Forall_cons_2; [split; cbn [fst snd]|]); try apply Forall_nil_2;
    try (by apply str_okb_ok).
  - apply integer_wf. lia.
  - assert (zlen (map entry_ipld (vi_entries ix)) = zlen (vi_entries ix)) as Hl
      by (unfold zlen; by rewrite length_map).
    simpl. rewrite Hl. split_and!; [done|by apply fits_len|].
    apply foldr_and_Forall, Forall_map. eapply Forall_impl; [exact Hall|]. intros p [Hp _].
    by eapply entry_wf.
Qed.

Lemma decode_entry_ok p d : zlen p.2 = d → f32s_ok p.2 → decode_entry d (entry_ipld p) = Ok p.
Proof.
  intros Hp Hok. unfold decode_entry, entry_ipld. simpl. rewrite f32s_roundtrip by done.
  rewrite (proj2 (Z.eqb_eq _ _)) by done. by destruct p.
Qed.

Definition vi_block ix : bytes := cbor (vi_to_ipld ix).

Lemma vi_encode_ok ix : wf_index ix → vi_encode ix = Ok (block_cid (vi_block ix), vi_block ix).
Proof.
  intros Hix. unfold vi_encode. rewrite to_dag_cbor_cbor by by apply vi_wf.
  unfold map_err, outcome_bind. by rewrite build_dag_cbor_new.
Qed.

Lemma vi_decode_block ix : wf_index ix → vi_decode (vi_block ix) = Ok ix.
Proof.
  intros Hix. unfold vi_decode. pose proof (from_dag_cbor_cbor (vi_to_ipld ix) [] (vi_wf ix Hix)) as Hd.
  rewrite app_nil_r in Hd. fold (vi_block ix) in Hd. rewrite Hd. destruct Hix as (Hdim & _ & Hall).
  unfold vi_to_ipld. simpl.
  rewrite (proj2 (Z.leb_le 1 _)), (proj2 (Z.leb_le _ 65536)) by lia. simpl.
  change (map entry_ipld (vi_entries ix)) with (entry_ipld <$> vi_entries ix).
  rewrite try_map_fmap; [by destruct ix|].
  eapply Forall_impl; [exact Hall|]. intros p [Hp Hok]. by apply decode_entry_ok.
Qed.

(** An index with a sensible dimension survives its block: encoding succeeds, and decoding the
    block gives back the dimension and every entry, in order and bit for bit.  Decoding refuses
    every dimension outside 1 to 65536, whatever else the block holds. *)
Theorem vindex_roundtrip ix (Hwf : wf_index ix) :
  (∃ b, vi_encode ix = Ok (Cid_new_v1 0x71 (digest Sha2_256 b), b) ∧ vi_decode b = Ok ix)
  ∧ ∀ b ix', vi_decode b = Ok ix' → 1 <= dim ix' <= 65536.
Proof.
  split; [exists (vi_block ix); split; [by apply vi_encode_ok|by apply vi_decode_block]|].
  intros b ix' Hb. unfold vi_decode in Hb.
  apply outcome_bind_Ok in Hb as (i & _ & Hb). apply outcome_bind_Ok in Hb as (m & _ & Hb).
  apply outcome_bind_Ok in Hb as (d & Hd & Hb). apply outcome_bind_Ok in Hb as (l & _ & Hb).
  apply outcome_bind_Ok in Hb as (en & _ & [= <-]). simpl.
  destruct (bt_get "dim" m) as [[]|]; try discriminate Hd.
  match type of Hd with context [if ?b then _ else _] => destruct b eqn:E; [|discriminate Hd] end.
  injection Hd as <-. apply andb_true_iff in E as [?%Z.leb_le ?%Z.leb_le]. lia.
Qed.
End index.

(** ** Witness *)
Import Reference.

Lemma vindex_roundtrip_witness :
  let ix := upsert demo_cid [f32_one; f32_neg_one] (VectorIndex_new 2) in
  (∃ b, vi_encode ix = Ok (Cid_new_v1 0x71 (digest Sha2_256 b), b) ∧ vi_decode b = Ok ix)
  ∧ ∀ b ix', vi_decode b = Ok ix' → 1 <= dim ix' <= 65536.
Proof.
  intros ix. apply (vindex_roundtrip ix). split; [simpl; lia|]. split.
  - unfold fits. apply Z.leb_le. reflexivity.
  - apply Forall_singleton. split; [reflexivity|]. by repeat constructor.
Defined.
