(* ===== verification/Graph.v ===== *)
(** * The knowledge graph: [crates/ipfrs-knowledge/src/graph.rs]

    [KnowledgeGraph] holds a store, the roots of two tries (entities by identity, and the list of
    relations of each subject), the previous head and the vector index.  Its methods are stateful
    computations on that record: what they changed before an error stays changed.  [index_graph] is
    the one of [vector.rs].  The SHA-256 of the [sha2] crate is a parameter ([Sha256]); the bridge
    to the [petgraph] crate is left out. *)

From Stdlib Require Import ZArith Lia List.
From stdpp Require Import base tactics numbers list gmap sets strings.
From S2P Require Import Prelude Collections Cid Ipld Store Hamt KNode Vector.

#[local] Open Scope Z_scope.

Class Sha256 : Type := { sha256 : bytes → bytes }.
Class Sha256Laws `{Sha256} : Prop := {
  sha256_length : ∀ d, length (sha256 d) = 32%nat;
  sha256_bytes : ∀ d, Forall (λ b, 0 <= b < 256) (sha256 d);
}.

(** [EntityId::of]. *)
Definition EntityId_of `{!Sha256} `{!Unicode} (kind name : string) : EntityId :=
  sha256 (string_bytes kind ++ [0] ++ string_bytes (to_lowercase (str_trim name))).

Record EntitySpec : Type := mkEntitySpec {
  es_kind : string;
  es_name : string;
  es_aliases : list string;
  es_attrs : list (string * string);
}.

Section graph.
Context `{CidCrate} `{!Sha256} `{!Unicode}.

Record KnowledgeGraph (T : Type) : Type := mkGraph {
  store : T;
  index : Cid;
  edges : Cid;
  prev : option Cid;
  vindex : VectorIndex;
}.
#[global] Arguments mkGraph {T} _ _ _ _ _.
#[global] Arguments store {T} _.
#[global] Arguments index {T} _.
#[global] Arguments edges {T} _.
#[global] Arguments prev {T} _.
#[global] Arguments vindex {T} _.

Section methods.
Context {T : Type} `{!BlockStore T}.
Implicit Types g : KnowledgeGraph T.

(** A computation on [self.store], and assignments to fields. *)
Definition on_store {A} (m : stateful T KError A) : stateful (KnowledgeGraph T) KError A :=
  λ g, let '(r, s) := m (store g) in (r, mkGraph s (index g) (edges g) (prev g) (vindex g)).
Definition set_index (c : Cid) g := mkGraph (store g) c (edges g) (prev g) (vindex g).
Definition set_edges (c : Cid) g := mkGraph (store g) (index g) c (prev g) (vindex g).
Definition set_prev (c : Cid) g := mkGraph (store g) (index g) (edges g) (Some c) (vindex g).
Definition set_vindex (ix : VectorIndex) g := mkGraph (store g) (index g) (edges g) (prev g) ix.

(** ** Creating and opening *)
Definition KnowledgeGraph_new (s : T) : outcome KError (KnowledgeGraph T) :=
  let '(r, s) := (do! index := empty in do! edges := empty in lift (Ok (index, edges))) s in
  let! (index, edges) := r in
  Ok (mkGraph s index edges None (VectorIndex_new DEFAULT_DIM)).

Definition head_link (m : list (string * ipld)) (k : string) : outcome KError Cid :=
  ok_or (v ← bt_get k m; as_link v) KDecode.

Definition open (s : T) (head : Cid) : outcome KError (KnowledgeGraph T) :=
  let! bytes := ok_or (bs_get s head) KNotFound in
  let! i := map_err KCore (from_dag_cbor bytes) in
  let! m := ok_or (Ipld.as_map i) KDecode in
  let! index := head_link m "index" in
  let! edges := head_link m "edges" in
  let! vindex :=
    match v ← bt_get "vindex" m; as_link v with
    | Some vc => let! vb := ok_or (bs_get s vc) KNotFound in vi_decode vb
    | None => Ok (VectorIndex_new DEFAULT_DIM)
    end in
  Ok (mkGraph s index edges (Some head) vindex).

(** ** Nodes *)
Definition put_node (node : KnowledgeNode) : stateful T KError Cid :=
  do! (cid, bytes) := lift (encode node) in
  do! _ := modifies (put cid bytes) in
  lift (Ok cid).
Definition get_node (s : T) (cid : Cid) : outcome KError KnowledgeNode :=
  let! bytes := ok_or (bs_get s cid) KNotFound in decode bytes.

(** ** Entities *)
Definition entity_cid g (id : EntityId) : outcome KError (option Cid) := get (store g) (index g) id.
Definition get_entity g (id : EntityId) : outcome KError (option KnowledgeNode) :=
  let! c := entity_cid g id in
  match c with
  | Some cid => let! n := get_node (store g) cid in Ok (Some n)
  | None => Ok None
  end.

(** Embed a text and put its vector under a CID. *)
Definition upsert_text (cid : Cid) (text : string) : stateful (KnowledgeGraph T) KError unit :=
  do! e := reads (λ g, embed text (dim (vindex g))) in
  modifies (λ g, set_vindex (upsert cid e (vindex g)) g).

Definition entity_node (id : EntityId) (spec : EntitySpec) : KnowledgeNode :=
  Entity id (es_kind spec) (es_name spec) (es_aliases spec) (es_attrs spec) [].

Definition add_entity (spec : EntitySpec) : stateful (KnowledgeGraph T) KError EntityId :=
  let id := EntityId_of (es_kind spec) (es_name spec) in
  do! previous := reads (λ g, entity_cid g id) in
  let node := entity_node id spec in
  do! cid := on_store (put_node node) in
  do! root := reads (λ g, Ok (index g)) in
  do! root := on_store (insert root id cid) in
  do! _ := modifies (set_index root) in
  do! _ :=
    modifies (λ g,
      match previous with Some old => set_vindex (vi_remove old (vindex g)) g | None => g end) in
  do! _ :=
    match node_text node with
    | Some text => upsert_text cid text
    | None => lift (Ok tt)
    end in
  lift (Ok id).

(** ** Relations *)
Definition relation_cids g (id : EntityId) : outcome KError (list Cid) :=
  let! list_cid := get (store g) (edges g) id in
  match list_cid with
  | None => Ok []
  | Some list_cid =>
    let! bytes := ok_or (bs_get (store g) list_cid) KNotFound in
    let! i := map_err KCore (from_dag_cbor bytes) in
    match i with IList l => Ok (omap as_link l) | _ => Err KDecode end
  end.

Definition relations_of g (id : EntityId) : outcome KError (list (Cid * KnowledgeNode)) :=
  let! cids := relation_cids g id in
  try_map (λ c, let! n := get_node (store g) c in Ok (c, n)) cids.

(** The text of the source of an evidence node, if the CID names one. *)
Definition evidence_text (s : T) (ev : Cid) : outcome KError (option string) :=
  match get_node s ev with
  | Ok (Evidence source _ _ _) =>
    match bs_get s source with Some b => block_text b | None => Ok None end
  | Ok _ | Err _ => Ok None
  | Panic => Panic
  | OutOfFuel => OutOfFuel
  end.

Fixpoint embed_evidence (evidence : list Cid) : stateful (KnowledgeGraph T) KError unit :=
  match evidence with
  | [] => lift (Ok tt)
  | ev :: evidence' =>
    do! text := reads (λ g, evidence_text (store g) ev) in
    do! _ := match text with Some text => upsert_text ev text | None => lift (Ok tt) end in
    embed_evidence evidence'
  end.

(** A block of an [Ipld] value under its DAG-CBOR CID. *)
Definition put_ipld (i : ipld) : stateful T KError Cid :=
  do! bytes := lift (map_err KCore (to_dag_cbor i)) in
  do! cid := lift (map_err KCore (CidBuilder.build_dag_cbor CidBuilder.new bytes)) in
  do! _ := modifies (put cid bytes) in
  lift (Ok cid).

Definition add_relation (subject : EntityId) (predicate : string) (object : EntityId) (weight : Z)
    (evidence : list Cid) : stateful (KnowledgeGraph T) KError Cid :=
  do! subj_cid := reads (λ g, let! c := entity_cid g subject in ok_or c KGraph) in
  do! obj_cid := reads (λ g, let! c := entity_cid g object in ok_or c KGraph) in
  do! _ := embed_evidence evidence in
  do! rel_cid := on_store (put_node (Relation subj_cid predicate obj_cid evidence weight)) in
  do! l := reads (λ g, relation_cids g subject) in
  do! list_cid := on_store (put_ipld (links (l ++ [rel_cid]))) in
  do! root := reads (λ g, Ok (edges g)) in
  do! root := on_store (insert root subject list_cid) in
  do! _ := modifies (set_edges root) in
  lift (Ok rel_cid).

(** ** Queries and commits *)
Definition graph_search g (query : string) (k : nat) : outcome KError (list (Cid * Z)) :=
  search_text query k (vindex g).
Definition entity_ids (fuel : nat) g : outcome KError (list EntityId) :=
  let! l := entries fuel (store g) (index g) in Ok l.*1.

Definition head_ipld g (vcid : Cid) : ipld :=
  let m := bt_insert "@type" (IString "KnowledgeRoot") [] in
  let m := bt_insert "version" (IInteger 1) m in
  let m := bt_insert "index" (link (index g)) m in
  let m := bt_insert "edges" (link (edges g)) m in
  let m := bt_insert "vindex" (link vcid) m in
  IMap (insert_opt "prev" (link <$> prev g) m).

Definition commit : stateful (KnowledgeGraph T) KError Cid :=
  do! ix := reads (λ g, Ok (vindex g)) in
  do! vcid := on_store (vi_store ix) in
  do! head := reads (λ g, Ok (head_ipld g vcid)) in
  do! cid := on_store (put_ipld head) in
  do! _ := modifies (set_prev cid) in
  lift (Ok cid).

(** ** Indexing a graph from scratch: [index_graph] of [vector.rs] *)
Fixpoint index_evidence g (evidence : list Cid) (ix : VectorIndex) (seen_ev : gset Cid) :
    outcome KError (VectorIndex * gset Cid) :=
  match evidence with
  | [] => Ok (ix, seen_ev)
  | ev :: evidence' =>
    if decide (ev ∈ seen_ev) then index_evidence g evidence' ix seen_ev else
    let! text := evidence_text (store g) ev in
    let! ix := match text with Some text => add_text ev text ix | None => Ok ix end in
    index_evidence g evidence' ix ({[ev]} ∪ seen_ev)
  end.

Fixpoint index_relations g (rels : list (Cid * KnowledgeNode)) (ix : VectorIndex) (seen_ev : gset Cid) :
    outcome KError (VectorIndex * gset Cid) :=
  match rels with
  | [] => Ok (ix, seen_ev)
  | (_, rel) :: rels' =>
    let! (ix, seen_ev) :=
      match rel with
      | Relation _ _ _ evidence _ => index_evidence g evidence ix seen_ev
      | _ => Ok (ix, seen_ev)
      end in
    index_relations g rels' ix seen_ev
  end.

(** [expect] of [entity_cid] panics when there is none. *)
Definition index_entity g (id : EntityId) (ix : VectorIndex) : outcome KError VectorIndex :=
  let! n := get_entity g id in
  match n with
  | Some node =>
    match node_text node with
    | Some text =>
      let! c := entity_cid g id in
      match c with Some cid => add_text cid text ix | None => Panic end
    | None => Ok ix
    end
  | None => Ok ix
  end.

Fixpoint index_entities g (ids : list EntityId) (ix : VectorIndex) (seen_ev : gset Cid) :
    outcome KError VectorIndex :=
  match ids with
  | [] => Ok ix
  | id :: ids' =>
    let! ix := index_entity g id ix in
    let! rels := relations_of g id in
    let! (ix, seen_ev) := index_relations g rels ix seen_ev in
    index_entities g ids' ix seen_ev
  end.

Definition index_graph (fuel : nat) g (d : Z) : outcome KError VectorIndex :=
  let! ids := entity_ids fuel g in index_entities g ids (VectorIndex_new d) ∅.
End methods.
End graph.
