(* ===== verification/GraphFacts.v ===== *)
(** * The knowledge graph is a map of entities and a map of relation lists, versioned by its heads

    [graph_ok g E R] says that the graph [g] stands for the entities [E] and the relations [R] of
    each subject.  The operations are followed on an audited store ([Store]): on every run without
    a hash collision they do to [E] and [R] what they promise, and a committed head can be opened on
    any later store. *)

From Stdlib Require Import ZArith Lia List.
From stdpp Require Import base tactics numbers list gmap sets strings.
From S2P Require Import Prelude Collections F32 Cid CidFacts Ipld IpldFacts Store Hamt HamtFacts KNode KNodeFacts Vector VectorFacts Graph.

#[local] Open Scope Z_scope.

(** ** Code that answers: it neither panics nor runs out of fuel *)
Definition answers {E A} (o : outcome E A) : Prop :=
  match o with Ok _ | Err _ => True | Panic | OutOfFuel => False end.

Lemma answers_bind {E A B} (f : A → outcome E B) (o : outcome E A) :
  answers o → (∀ a, answers (f a)) → answers (outcome_bind f o).
Proof. intros Ho Hf. destruct o; simpl; auto. Qed.
Lemma answers_ok_or {E A} (o : option A) (e : E) : answers (ok_or o e).
Proof. by destruct o. Qed.
Lemma answers_try_map {E A B} (f : A → outcome E B) l : (∀ a, answers (f a)) → answers (try_map f l).
Proof.
  intros Hf. induction l as [|a l IH]; simpl; [done|]. apply answers_bind; [apply Hf|intros b].
  by apply answers_bind.
Qed.

Create HintDb answers.
#[export] Hint Resolve answers_bind answers_ok_or answers_try_map : answers.
#[export] Hint Extern 1 (answers (Ok _)) => exact I : answers.
#[export] Hint Extern 1 (answers (Err _)) => exact I : answers.

Section decode.
Context `{CidCrate} `{!CidLaws}.

Lemma answers_field (m : list (string * ipld)) k : answers (field m k).
Proof. unfold field. auto with answers. Qed.
Lemma answers_accessors (m : list (string * ipld)) k :
  answers (gstr m k) ∧ answers (gint m k) ∧ answers (gfloat m k) ∧ answers (gbytes m k)
  ∧ answers (glink m k) ∧ answers (glinks m k) ∧ answers (gstrlist m k) ∧ answers (gstrmap m k).
Proof.
  unfold gstr, gint, gfloat, gbytes, glink, glinks, gstrlist, gstrmap.
  split_and!; (apply answers_bind; [apply answers_field|intros i]); auto with answers;
    destruct i; auto with answers.
  - apply answers_try_map. intros []; auto with answers.
  - apply answers_bind; [|auto with answers]. apply answers_try_map. intros [? []]; auto with answers.
Qed.
Lemma answers_gspan (m : list (string * ipld)) : answers (gspan m).
Proof.
  unfold gspan. destruct (bt_get _ m) as [[]|]; auto with answers.
  destruct l as [|x [|y []]]; auto with answers.
  apply answers_bind; [destruct x; auto with answers|intros].
  apply answers_bind; [destruct y; auto with answers|auto with answers].
Qed.

Lemma answers_from_ipld (i : ipld) : answers (from_ipld i).
Proof.
  unfold from_ipld. apply answers_bind; [by destruct i|intros m].
  pose proof (λ k, answers_accessors m k) as Ha. pose proof (answers_gspan m).
  assert (∀ k, answers (gstr m k)) by apply Ha. assert (∀ k, answers (gint m k)) by apply Ha.
  assert (∀ k, answers (gfloat m k)) by apply Ha. assert (∀ k, answers (gbytes m k)) by apply Ha.
  assert (∀ k, answers (glink m k)) by apply Ha. assert (∀ k, answers (glinks m k)) by apply Ha.
  assert (∀ k, answers (gstrlist m k)) by apply Ha. assert (∀ k, answers (gstrmap m k)) by apply Ha.
  clear Ha. apply answers_bind; [done|intros ty].
  repeat match goal with |- answers (if ?b then _ else _) => destruct b end;
    repeat (apply answers_bind; [by repeat case_decide|intros]); done.
Qed.

Lemma answers_decode (b : bytes) : from_dag_cbor b ≠ Panic → answers (decode b).
Proof.
  intros Hb. unfold decode. apply answers_bind; [|intros; apply answers_from_ipld].
  pose proof (from_dag_cbor_answers b). by destruct (from_dag_cbor b).
Qed.

Lemma block_text_ok (b : bytes) : from_dag_cbor b ≠ Panic → ∃ t, block_text b = Ok t.
Proof.
  intros Hb. pose proof (answers_decode b Hb). unfold block_text. destruct (decode b); try done; [eauto|].
  pose proof (from_dag_cbor_answers b). destruct (from_dag_cbor b) as [[]| | |]; eauto; done.
Qed.

(** ** The blocks of nodes and of relation lists *)
Definition ncid (n : KnowledgeNode) : Cid := block_cid (node_block n).
Definition in_store (B : gmap Cid bytes) (n : KnowledgeNode) : Prop :=
  wf_node n ∧ B !! ncid n = Some (node_block n).
Definition list_block (l : list Cid) : bytes := cbor (links l).
Definition lcid (l : list KnowledgeNode) : Cid := block_cid (list_block (ncid <$> l)).

Lemma in_store_mono B B' n : B ⊆ B' → in_store B n → in_store B' n.
Proof. intros HB [Hn Hb]. split; [done|]. by eapply lookup_weaken. Qed.

Lemma ncid_inj B n n' : in_store B n → in_store B n' → ncid n = ncid n' → n = n'.
Proof.
  intros [Hn Hb] [Hn' Hb'] E. rewrite E, Hb' in Hb. injection Hb as Hb.
  pose proof (decode_node n Hn) as Hd. rewrite <- Hb, decode_node in Hd by done. congruence.
Qed.

Lemma fits_fmap {A B} (f : A → B) l : fits (f <$> l) ↔ fits l.
Proof. unfold fits. by rewrite zlen_fmap. Qed.

Lemma from_dag_cbor_list l : fits l → from_dag_cbor (list_block l) = Ok (links l).
Proof.
  intros Hl. pose proof (from_dag_cbor_cbor (links l) [] (links_wf l Hl)) as Hd.
  by rewrite app_nil_r in Hd.
Qed.

Lemma omap_links (l : list Cid) : omap as_link (link <$> l) = l.
Proof. induction l as [|c l IH]; [done|]. cbn. f_equal. exact IH. Qed.

Section get.
Context {T : Type} `{!BlockStore T} `{!BlockStoreLaws T}.

Lemma get_node_ok (s : T) n : in_store (blocks s) n → get_node s (ncid n) = Ok n.
Proof. intros [Hn Hb]. unfold get_node. rewrite bs_get_blocks, Hb. simpl. by apply decode_node. Qed.

Lemma hamt_rep_get (s : T) (root : Cid) (m : gmap EntityId Cid) (key : EntityId) :
  key_ok key → hamt_rep (blocks s) root m → get s root key = Ok (m !! key).
Proof. intros Hk (t & -> & Hst & Hok & Hm). by rewrite get_trie, (hamt_rep_lookup t m key). Qed.

Lemma evidence_text_ok (s : T) ev : decodable (blocks s) → ∃ t, evidence_text s ev = Ok t.
Proof.
  intros Hdec. unfold evidence_text, get_node. rewrite bs_get_blocks.
  destruct (blocks s !! ev) as [b|] eqn:Hb; simpl; [|eauto].
  pose proof (answers_decode b (Hdec ev b Hb)). destruct (decode b) as [[]| | |]; eauto; try done.
  rewrite bs_get_blocks. destruct (blocks s !! source) as [b'|] eqn:Hb'; [|eauto].
  apply block_text_ok. by eapply Hdec.
Qed.

(** Text is found only under the CID of an evidence node. *)
Lemma evidence_text_not_entity (s : T) ev t n :
  evidence_text s ev = Ok (Some t) → in_store (blocks s) n →
  (∃ id kind name aliases attrs obs, n = Entity id kind name aliases attrs obs) → ev ≠ ncid n.
Proof.
  intros Ht Hn (id & kind & name & aliases & attrs & obs & ->) ->. unfold evidence_text in Ht.
  by rewrite get_node_ok in Ht.
Qed.
End get.
End decode.

(** ** Runs of methods on an audited store *)
Section runs.
Context `{CidCrate} `{!CidLaws} {T : Type} `{!BlockStore T} `{!BlockStoreLaws T}.
Abbreviation graph := (KnowledgeGraph (Audited T)).
Implicit Types (g : graph) (B : gmap Cid bytes).

Definition ggrows {A} (m : stateful graph KError A) : Prop := ∀ g, grows (store g) (store (m g).2).

(** A run of [m] from [g] without a clash returns [Ok], and [Q] holds at the end. *)
Definition gyields {A} (m : stateful graph KError A) g (Q : A → graph → Prop) : Prop :=
  clash (store (m g).2) = false → ∃ a g', m g = (Ok a, g') ∧ Q a g'.

Lemma ggrows_bind {A A'} (m : stateful graph KError A) (f : A → stateful graph KError A') :
  ggrows m → (∀ a, ggrows (f a)) → ggrows (st_bind f m).
Proof.
  intros Hm Hf g. specialize (Hm g). unfold st_bind.
  destruct (m g) as [[a| | |] g1]; simpl in *; try done. etrans; [done|apply Hf].
Qed.
Lemma ggrows_lift {A} (o : outcome KError A) : ggrows (lift o).
Proof. by intros g. Qed.
Lemma ggrows_reads {A} (f : graph → outcome KError A) : ggrows (reads f).
Proof. by intros g. Qed.
Lemma ggrows_modifies (f : graph → graph) : (∀ g, store (f g) = store g) → ggrows (modifies f).
Proof. intros Hf g. simpl. by rewrite Hf. Qed.
Lemma ggrows_on_store {A} (m : stateful (Audited T) KError A) : growing m → ggrows (on_store m).
Proof. intros Hm g. specialize (Hm (store g)). unfold on_store. by destruct (m (store g)). Qed.

Lemma gyields_bind {A A'} (m : stateful graph KError A) (f : A → stateful graph KError A') g Q1 Q :
  ggrows m → (∀ a, ggrows (f a)) → gyields m g Q1 →
  (∀ a g1, blocks (store g) ⊆ blocks (store g1) → Q1 a g1 → gyields (f a) g1 Q) →
  gyields (st_bind f m) g Q.
Proof.
  intros Hgm Hgf Hm Hf Hc. specialize (Hgm g). unfold gyields, st_bind in *.
  destruct (m g) as [o g1] eqn:Hmg. simpl in *.
  assert (clash (store g1) = false) as Hc1.
  { destruct o as [a| | |]; simpl in *; try done. by eapply grows_start; [apply Hgf|]. }
  destruct (Hm Hc1) as (a & g' & [= -> ->] & HQ). apply Hf; [by apply Hgm|done|done].
Qed.
Lemma gyields_lift {A} (a : A) g (Q : A → graph → Prop) : Q a g → gyields (lift (Ok a)) g Q.
Proof. intros HQ _. by exists a, g. Qed.
Lemma gyields_reads {A} (f : graph → outcome KError A) a g (Q : A → graph → Prop) :
  f g = Ok a → Q a g → gyields (reads f) g Q.
Proof. intros Hf HQ _. exists a, g. unfold reads. by rewrite Hf. Qed.
Lemma gyields_modifies (f : graph → graph) g (Q : unit → graph → Prop) :
  Q tt (f g) → gyields (modifies f) g Q.
Proof. intros HQ _. by exists tt, (f g). Qed.
Lemma gyields_on_store {A} (m : stateful (Audited T) KError A) g Q (Q' : A → graph → Prop) :
  yields m (blocks (store g)) Q →
  (∀ a s', Q a (blocks s') → Q' a (mkGraph s' (index g) (edges g) (prev g) (vindex g))) →
  gyields (on_store m) g Q'.
Proof.
  intros Hm HQ Hc. unfold on_store in *. specialize (Hm (store g) ltac:(done)).
  destruct (m (store g)) as [o s']. simpl in *. destruct (Hm Hc) as (a & -> & Ha). eauto.
Qed.

(** ** Erasing the instrumentation *)
Definition gstrip g : KnowledgeGraph T :=
  mkGraph (audited (store g)) (index g) (edges g) (prev g) (vindex g).
Definition gstart (g : KnowledgeGraph T) : graph :=
  mkGraph (start (store g)) (index g) (edges g) (prev g) (vindex g).
Definition gerases {A} (m : stateful (KnowledgeGraph T) KError A) (m' : stateful graph KError A) : Prop :=
  ∀ g, m (gstrip g) = ((m' g).1, gstrip (m' g).2).

Lemma gerases_bind {A A'} (m : stateful _ KError A) m' (f : A → stateful _ KError A') f' :
  gerases m m' → (∀ a, gerases (f a) (f' a)) → gerases (st_bind f m) (st_bind f' m').
Proof.
  intros Hm Hf g. unfold st_bind. rewrite (Hm g). destruct (m' g) as [[a| | |] g1]; simpl; try done.
  apply Hf.
Qed.
Lemma gerases_lift {A} (o : outcome KError A) : gerases (lift o) (lift o).
Proof. done. Qed.
Lemma gerases_reads {A} (f : _ → outcome KError A) f' : (∀ g, f (gstrip g) = f' g) → gerases (reads f) (reads f').
Proof. intros Hf g. unfold reads. by rewrite Hf. Qed.
Lemma gerases_modifies f f' : (∀ g, f (gstrip g) = gstrip (f' g)) → gerases (modifies f) (modifies f').
Proof. intros Hf g. unfold modifies. by rewrite Hf. Qed.
Lemma gerases_on_store {A} (m : stateful T KError A) m' : erases m m' → gerases (on_store m) (on_store m').
Proof.
  intros Hm g. unfold on_store. simpl. rewrite (Hm (store g)). by destruct (m' (store g)).
Qed.

(** A property of runs on an audited store, back on the store itself. *)
Lemma gyields_erase {A} m m' (g : KnowledgeGraph T) (Q : A → graph → Prop) :
  gerases m m' → ggrows m' → clash (store (m' (gstart g)).2) = false → gyields m' (gstart g) Q →
  ∃ a g', m g = (Ok a, gstrip g') ∧ Q a g' ∧ blocks (store g) ⊆ blocks (store g').
Proof.
  intros He Hg Hc Hm. specialize (He (gstart g)). destruct (Hg (gstart g)) as [_ Hb].
  specialize (Hb Hc). destruct (Hm Hc) as (a & g' & Hrun & HQ).
  rewrite Hrun in He, Hb. exists a, g'. by destruct g.
Qed.
End runs.

Create HintDb ggrowing.
#[export] Hint Resolve ggrows_bind ggrows_lift ggrows_reads ggrows_on_store : ggrowing.
#[export] Hint Extern 1 (ggrows (modifies _)) => (apply ggrows_modifies; intros; by repeat case_match) : ggrowing.
Create HintDb gerasure.
#[export] Hint Resolve gerases_bind gerases_lift : gerasure.
#[export] Hint Extern 1 (gerases (on_store _) (on_store _)) => apply gerases_on_store : gerasure.
#[export] Hint Extern 1 (gerases (reads _) (reads _)) => (apply gerases_reads; reflexivity) : gerasure.
#[export] Hint Extern 1 (gerases (modifies _) (modifies _)) =>
  (apply gerases_modifies; intros; by repeat case_match) : gerasure.

(** ** The methods *)
Section methods.
Context `{CidCrate} `{!CidLaws} `{!Sha256} `{!Sha256Laws} `{!Unicode}.
Context {T : Type} `{!BlockStore T} `{!BlockStoreLaws T}.
Implicit Types (s : T) (B : gmap Cid bytes) (n : KnowledgeNode) (E : gmap EntityId KnowledgeNode)
  (R : gmap EntityId (list KnowledgeNode)).

(** *** They only add blocks, and the instrumentation can be erased *)
Hint Extern 2 (growing (match ?x with _ => _ end)) => destruct x : growing.
Hint Extern 2 (ggrows (match ?x with _ => _ end)) => destruct x : ggrowing.
Hint Extern 2 (erases (match ?x with _ => _ end) _) => destruct x : erasure.
Hint Extern 2 (gerases (match ?x with _ => _ end) _) => destruct x : gerasure.
Lemma growing_put_node n : growing (put_node (T := Audited T) n).
Proof. unfold put_node. auto with growing. Qed.
Lemma growing_put_ipld (i : ipld) : growing (put_ipld (T := Audited T) i).
Proof. unfold put_ipld. auto 8 with growing. Qed.
Lemma growing_vi_store ix : growing (vi_store (T := Audited T) ix).
Proof. unfold vi_store. auto with growing. Qed.
Hint Resolve growing_put_node growing_put_ipld growing_vi_store growing_insert : ggrowing.

Lemma ggrows_upsert_text c t : ggrows (upsert_text (T := Audited T) c t).
Proof. unfold upsert_text. auto with ggrowing. Qed.
Hint Resolve ggrows_upsert_text : ggrowing.
Lemma ggrows_embed_evidence l : ggrows (embed_evidence (T := Audited T) l).
Proof.
  induction l as [|ev l IH]; simpl; [auto with ggrowing|].
  apply ggrows_bind; [auto with ggrowing|intros []]; auto with ggrowing.
Qed.
Hint Resolve ggrows_embed_evidence : ggrowing.
Lemma ggrows_add_entity spec : ggrows (add_entity (T := Audited T) spec).
Proof. unfold add_entity. auto 20 with ggrowing. Qed.
Lemma ggrows_add_relation a p b w l : ggrows (add_relation (T := Audited T) a p b w l).
Proof. unfold add_relation. auto 20 with ggrowing. Qed.
Lemma ggrows_commit : ggrows (commit (T := Audited T)).
Proof. unfold commit. auto 20 with ggrowing. Qed.

Lemma get_audited (s : Audited T) (root : Cid) (key : EntityId) : get (audited s) root key = get s root key.
Proof.
  unfold get. generalize (S MAX_DEPTH), root, 0%nat. intros fuel.
  induction fuel as [|fuel IH]; intros cur depth; cbn [get_loop]; [done|].
  rewrite load_audited. destruct (MAX_DEPTH <=? depth)%nat; [reflexivity|].
  destruct (load cur s) as [slots| | |]; simpl; try done.
  destruct (nibble key depth) as [nib| | |]; simpl; try done.
  destruct (slot_at slots nib) as [[]| | |]; simpl; done || apply IH.
Qed.
Lemma entity_cid_strip (g : KnowledgeGraph (Audited T)) id : entity_cid (gstrip g) id = entity_cid g id.
Proof. apply get_audited. Qed.
Lemma relation_cids_strip (g : KnowledgeGraph (Audited T)) id : relation_cids (gstrip g) id = relation_cids g id.
Proof. unfold relation_cids. simpl. by rewrite get_audited. Qed.
Hint Extern 0 (gerases (reads _) (reads _)) =>
  (apply gerases_reads; intros; by rewrite ?entity_cid_strip, ?relation_cids_strip) : gerasure.

Lemma erases_put_node n : erases (T := T) (put_node n) (put_node n).
Proof. unfold put_node. auto with erasure. Qed.
Lemma erases_put_ipld (i : ipld) : erases (T := T) (put_ipld i) (put_ipld i).
Proof. unfold put_ipld. auto 8 with erasure. Qed.
Lemma erases_vi_store ix : erases (T := T) (vi_store ix) (vi_store ix).
Proof. unfold vi_store. auto with erasure. Qed.
Hint Resolve erases_put_node erases_put_ipld erases_vi_store erases_insert : gerasure.
Lemma gerases_upsert_text c t : gerases (T := T) (upsert_text c t) (upsert_text c t).
Proof. unfold upsert_text. auto with gerasure. Qed.
Hint Resolve gerases_upsert_text : gerasure.
Lemma gerases_embed_evidence l : gerases (T := T) (embed_evidence l) (embed_evidence l).
Proof.
  induction l as [|ev l IH]; simpl; [auto with gerasure|].
  apply gerases_bind; [auto with gerasure|intros []]; auto with gerasure.
Qed.
Hint Resolve gerases_embed_evidence : gerasure.
Lemma gerases_add_entity spec : gerases (T := T) (add_entity spec) (add_entity spec).
Proof. unfold add_entity. auto 20 with gerasure. Qed.
Lemma gerases_add_relation a p b w l : gerases (T := T) (add_relation a p b w l) (add_relation a p b w l).
Proof. unfold add_relation. auto 20 with gerasure. Qed.
Lemma gerases_commit : gerases (T := T) commit commit.
Proof. unfold commit. auto 20 with gerasure. Qed.

(** *** Single steps *)
Lemma yields_put_node n B : wf_node n →
  yields (put_node (T := Audited T) n) B (λ c B', c = ncid n ∧ in_store B' n).
Proof.
  intros Hn. unfold put_node. rewrite encode_ok by done. rewrite st_bind_lift.
  eapply (yields_bind _ _ _ (λ _ B', B' !! ncid n = Some (node_block n))).
  - apply growing_put.
  - intros. apply growing_lift.
  - by apply yields_put.
  - intros _ B1 _ Hb. apply yields_lift. intros B' HB'. split; [done|]. split; [done|].
    by eapply lookup_weaken.
Qed.

Lemma yields_put_ipld (i : ipld) B : wf_ipld i →
  yields (put_ipld (T := Audited T) i) B (λ c B', c = block_cid (cbor i) ∧ B' !! c = Some (cbor i)).
Proof.
  intros Hi. unfold put_ipld. rewrite to_dag_cbor_cbor by done. cbn [map_err]. rewrite st_bind_lift.
  rewrite build_dag_cbor_new. cbn [map_err]. rewrite st_bind_lift. fold (block_cid (cbor i)).
  eapply (yields_bind _ _ _ (λ _ B', B' !! block_cid (cbor i) = Some (cbor i))).
  - apply growing_put.
  - intros. apply growing_lift.
  - by apply yields_put.
  - intros _ B1 _ Hb. apply yields_lift. intros B' HB'. split; [done|]. by eapply lookup_weaken.
Qed.

Lemma yields_vi_store ix B : wf_index ix →
  yields (vi_store (T := Audited T) ix) B
    (λ c B', c = block_cid (vi_block ix) ∧ B' !! c = Some (vi_block ix)).
Proof.
  intros Hix. unfold vi_store. rewrite vi_encode_ok by done. rewrite st_bind_lift.
  eapply (yields_bind _ _ _ (λ _ B', B' !! block_cid (vi_block ix) = Some (vi_block ix))).
  - apply growing_put.
  - intros. apply growing_lift.
  - by apply yields_put.
  - intros _ B1 _ Hb. apply yields_lift. intros B' HB'. split; [done|]. by eapply lookup_weaken.
Qed.

(** ** What a graph stands for *)
Definition is_entity (id : EntityId) n : Prop :=
  ∃ kind name aliases attrs obs, n = Entity id kind name aliases attrs obs.

Definition graph_rep B (index edges : Cid) (E : gmap EntityId KnowledgeNode)
    (R : gmap EntityId (list KnowledgeNode)) : Prop :=
  hamt_rep B index (ncid <$> E)
  ∧ hamt_rep B edges (lcid <$> R)
  ∧ (∀ id n, E !! id = Some n → in_store B n ∧ is_entity id n)
  ∧ (∀ id l, R !! id = Some l → fits l ∧ Forall (in_store B) l
       ∧ B !! lcid l = Some (list_block (ncid <$> l))).

(** The vector index: one vector per CID, all of its dimension, and every entity whose text has an
    embedding is found under its current CID. *)
Definition index_ok (ix : VectorIndex) (E : gmap EntityId KnowledgeNode) : Prop :=
  1 <= dim ix <= 65536 ∧ NoDup (vi_keys ix)
  ∧ Forall (λ p, zlen p.2 = dim ix ∧ f32s_ok p.2) (vi_entries ix)
  ∧ ∀ id n t e, E !! id = Some n → node_text n = Some t → embed t (dim ix) = Ok e →
      (ncid n, e) ∈ vi_entries ix.

Definition graph_ok {U} `{!BlockStore U} `{!BlockStoreLaws U} (g : KnowledgeGraph U) E R : Prop :=
  graph_rep (blocks (store g)) (index g) (edges g) E R ∧ index_ok (vindex g) E.

Lemma graph_rep_mono B B' (i e : Cid) E R : B ⊆ B' → graph_rep B i e E R → graph_rep B' i e E R.
Proof.
  intros HB (Hi & He & HE & HR). split_and!; [by eapply hamt_rep_mono..| |].
  - intros id n Hn. destruct (HE id n Hn) as [Hs ?]. split; [by eapply in_store_mono|done].
  - intros id l Hl. destruct (HR id l Hl) as (Hf & Hs & Hb). split_and!; [done| |by eapply lookup_weaken].
    eapply Forall_impl; [exact Hs|]. intros n. by apply in_store_mono.
Qed.

(** Distinct entities have distinct CIDs. *)
Lemma ncid_entities B E (id id' : EntityId) n n' :
  (∀ id n, E !! id = Some n → in_store B n ∧ is_entity id n) →
  E !! id = Some n → E !! id' = Some n' → ncid n = ncid n' → id = id'.
Proof.
  intros HE Hn Hn' Heq. destruct (HE _ _ Hn) as [Hs He], (HE _ _ Hn') as [Hs' He'].
  pose proof (ncid_inj _ _ _ Hs Hs' Heq) as ->.
  destruct He as (?&?&?&?&?&->), He' as (?&?&?&?&?&He'). congruence.
Qed.

(** A vector put under a CID that names no entity keeps the index right. *)
Lemma index_ok_upsert (ix : VectorIndex) E (c : Cid) (e : list Z) :
  index_ok ix E → zlen e = dim ix → f32s_ok e → (∀ id n, E !! id = Some n → c ≠ ncid n) →
  index_ok (upsert c e ix) E.
Proof.
  intros (Hd & Hnd & Hall & HE) He Hok Hc. destruct (upsert_spec c e ix Hnd) as (Hnd' & Hd' & Hin).
  unfold index_ok. rewrite Hd'. split_and!; [lia|lia|done| |].
  - apply Forall_forall. intros p [->|[_ Hp]]%Hin; [done|]. by apply (proj1 (Forall_forall _ _) Hall).
  - intros id n t e' Hn Ht He'. apply Hin. right. split; [|by eapply HE].
    simpl. intros Heq. by apply (Hc id n Hn).
Qed.

(** Evicting the vector of one entity. *)
Lemma index_ok_evict B (ix : VectorIndex) E (id : EntityId) n :
  (∀ id n, E !! id = Some n → in_store B n ∧ is_entity id n) → E !! id = Some n →
  index_ok ix E → index_ok (vi_remove (ncid n) ix) (delete id E).
Proof.
  intros HEs Hid (Hd & Hnd & Hall & HE). unfold index_ok. rewrite vi_remove_keys. split_and!.
  1, 2: apply Hd.
  - by apply NoDup_filter.
  - apply Forall_forall. intros p [_ Hp]%list_elem_of_filter. by apply (proj1 (Forall_forall _ _) Hall).
  - intros id' n' t e [Hne Hn']%lookup_delete_Some Ht He. apply list_elem_of_filter. split; [|by eapply HE].
    simpl. intros Heq. apply Hne. symmetry. by eapply (ncid_entities B E id' id n' n).
Qed.

Lemma index_ok_insert (ix : VectorIndex) E (id : EntityId) n t e :
  index_ok ix (delete id E) → node_text n = Some t → embed t (dim ix) = Ok e →
  (∀ id' n', delete id E !! id' = Some n' → ncid n ≠ ncid n') →
  index_ok (upsert (ncid n) e ix) (<[id := n]> E).
Proof.
  intros Hix Ht He Hne. destruct (embed_ok t (dim ix)) as (e0 & He0 & Hl & Hok); [apply Hix|].
  assert (e0 = e) as -> by congruence.
  destruct (upsert_spec (ncid n) e ix) as (_ & _ & Hin); [apply Hix|].
  destruct (index_ok_upsert ix _ (ncid n) e Hix Hl Hok Hne) as (Hd & Hnd & Hall & HE).
  split_and!; [apply Hd|apply Hd|done|done|].
  intros id' n' t' e' [[<- <-]|[Hid Hn']]%lookup_insert_Some Ht' He'.
  - apply Hin. left. simpl in He'. congruence.
  - eapply HE; [by rewrite lookup_delete_ne|done|done].
Qed.

(** *** Reading *)
Section reading.
Context {U : Type} `{!BlockStore U} `{!BlockStoreLaws U}.

Lemma entity_cid_ok (g : KnowledgeGraph U) E R (id : EntityId) :
  key_ok id → graph_ok g E R → entity_cid g id = Ok (ncid <$> E !! id).
Proof.
  intros Hk [(Hi & _) _]. unfold entity_cid. by rewrite (hamt_rep_get _ _ _ _ Hk Hi), lookup_fmap.
Qed.

Lemma relation_cids_ok (g : KnowledgeGraph U) E R (id : EntityId) :
  key_ok id → graph_ok g E R → relation_cids g id = Ok (ncid <$> default [] (R !! id)).
Proof.
  intros Hk [(_ & He & _ & HR) _]. unfold relation_cids.
  rewrite (hamt_rep_get _ _ _ _ Hk He), lookup_fmap. cbn [outcome_bind].
  destruct (R !! id) as [l|] eqn:Hl; [|done]. destruct (HR id l Hl) as (Hf & _ & Hb).
  simpl. rewrite bs_get_blocks, Hb. simpl. rewrite from_dag_cbor_list by by apply fits_fmap.
  simpl. by rewrite omap_links.
Qed.

Lemma get_entity_ok (g : KnowledgeGraph U) E R (id : EntityId) :
  key_ok id → graph_ok g E R → get_entity g id = Ok (E !! id).
Proof.
  intros Hk Hg. unfold get_entity. rewrite (entity_cid_ok g E R id Hk Hg).
  destruct Hg as [(_ & _ & HE & _) _].
  destruct (E !! id) as [n|] eqn:Hn; simpl; [|done]. by rewrite get_node_ok by apply (HE id n Hn).
Qed.

Lemma relations_of_ok (g : KnowledgeGraph U) E R (id : EntityId) :
  key_ok id → graph_ok g E R →
  relations_of g id = Ok ((λ n, (ncid n, n)) <$> default [] (R !! id)).
Proof.
  intros Hk Hg. unfold relations_of. rewrite (relation_cids_ok g E R id Hk Hg). cbn [outcome_bind].
  destruct Hg as [(_ & _ & _ & HR) _]. apply try_map_Ok, Forall2_fmap, Forall_Forall2_diag.
  destruct (R !! id) as [l|] eqn:Hl; simpl; [|constructor]. destruct (HR id l Hl) as (_ & Hs & _).
  eapply Forall_impl; [exact Hs|]. intros n Hn. by rewrite get_node_ok.
Qed.
End reading.

(** *** Adding an entity *)
Implicit Types (g : KnowledgeGraph (Audited T)).

(** Only the store changed. *)
Definition same_fields {U} (g g' : KnowledgeGraph U) : Prop :=
  index g' = index g ∧ edges g' = edges g ∧ prev g' = prev g ∧ vindex g' = vindex g.

Lemma gyields_store {A} (m : stateful (Audited T) KError A) g Q :
  yields m (blocks (store g)) Q →
  gyields (on_store m) g (λ a g', Q a (blocks (store g')) ∧ same_fields g g').
Proof. intros Hm. eapply gyields_on_store; [exact Hm|]. by intros. Qed.

Lemma EntityId_ok kind name : key_ok (EntityId_of kind name).
Proof. split; [apply sha256_length|apply sha256_bytes]. Qed.

Lemma graph_rep_insert B (i i' e : Cid) E R (id : EntityId) n :
  graph_rep B i e E R → in_store B n → is_entity id n →
  hamt_rep B i' (<[id := ncid n]> (ncid <$> E)) → graph_rep B i' e (<[id := n]> E) R.
Proof.
  intros (_ & He & HE & HR) Hn Hid Hi'. split_and!; [by rewrite fmap_insert|done| |done].
  intros id' n' [[<- <-]|[_ Hn']]%lookup_insert_Some; [done|by apply HE].
Qed.

(** The vectors after an entity was replaced. *)
Definition reindexed (ix : VectorIndex) (previous : option Cid) n : VectorIndex → Prop :=
  λ ix', ∃ t e, node_text n = Some t ∧ embed t (dim ix) = Ok e ∧
    ix' = upsert (ncid n) e (match previous with Some old => vi_remove old ix | None => ix end).

(** The vectors are the earlier ones without those under the replaced and the new CID, and the new one. *)
Lemma reindexed_spec (ix ix' : VectorIndex) previous n : NoDup (vi_keys ix) → reindexed ix previous n ix' →
  dim ix' = dim ix ∧ ∃ t e, node_text n = Some t ∧ embed t (dim ix) = Ok e ∧
    ∀ c v, (c, v) ∈ vi_entries ix' ↔
      c = ncid n ∧ v = e ∨ c ≠ ncid n ∧ previous ≠ Some c ∧ (c, v) ∈ vi_entries ix.
Proof.
  intros Hnd (t & e & Ht & He & ->). set (ix1 := match previous with Some old => vi_remove old ix | None => ix end).
  assert (dim ix1 = dim ix ∧ NoDup (vi_keys ix1) ∧
    ∀ c v, (c, v) ∈ vi_entries ix1 ↔ previous ≠ Some c ∧ (c, v) ∈ vi_entries ix) as (Hd & Hnd1 & Hin1).
  { unfold ix1. destruct previous as [old|]; [|by split_and!; [..|naive_solver]]. split_and!; [done| |].
    - rewrite vi_remove_keys. by apply NoDup_filter.
    - intros c v. unfold vi_remove. simpl. rewrite list_elem_of_filter. simpl. naive_solver. }
  destruct (upsert_spec (ncid n) e ix1 Hnd1) as (_ & Hd1 & Hin). split; [by rewrite Hd1|].
  exists t, e. split_and!; [done..|]. intros c v. rewrite Hin, Hin1. simpl. naive_solver.
Qed.

Lemma reindexed_ok B (ix ix' : VectorIndex) E (id : EntityId) n :
  (∀ id n, E !! id = Some n → in_store B n ∧ is_entity id n) → in_store B n → is_entity id n →
  index_ok ix E → reindexed ix (ncid <$> E !! id) n ix' → index_ok ix' (<[id := n]> E).
Proof.
  intros HE Hn Hid Hix (t & e & Ht & He & ->).
  assert (∀ id' n', delete id E !! id' = Some n' → ncid n ≠ ncid n') as Hne.
  { intros id' n' [Hd Hn']%lookup_delete_Some Heq. destruct (HE _ _ Hn') as [Hs He'].
    pose proof (ncid_inj _ _ _ Hn Hs Heq) as <-. 
    destruct Hid as (?&?&?&?&?&->), He' as (?&?&?&?&?&He'). congruence. }
  destruct (E !! id) as [old|] eqn:Hold; simpl.
  - apply (index_ok_insert _ _ _ _ t); [by eapply index_ok_evict|done..].
  - apply (index_ok_insert _ _ _ _ t); [by rewrite delete_id|done..].
Qed.

Lemma gyields_upsert_text g (c : Cid) t Q : 1 <= dim (vindex g) <= 65536 →
  (∀ e, embed t (dim (vindex g)) = Ok e → Q tt (set_vindex (upsert c e (vindex g)) g)) →
  gyields (upsert_text c t) g Q.
Proof.
  intros Hd HQ. destruct (embed_ok t (dim (vindex g)) Hd) as (e & He & _). unfold upsert_text.
  eapply (gyields_bind _ _ _ (λ a g1, a = e ∧ g1 = g)).
  - auto with ggrowing.
  - auto with ggrowing.
  - by eapply gyields_reads.
  - intros a g1 _ [-> ->]. apply gyields_modifies. by apply HQ.
Qed.

Lemma is_entity_node (id : EntityId) spec : is_entity id (entity_node id spec).
Proof. unfold entity_node, is_entity. eauto 8. Qed.

Lemma gyields_read {A} (f : KnowledgeGraph (Audited T) → outcome KError A) a g :
  f g = Ok a → gyields (reads f) g (λ a' g', a' = a ∧ g' = g).
Proof. intros Hf. by eapply gyields_reads. Qed.

Lemma gyields_modify (f : KnowledgeGraph (Audited T) → KnowledgeGraph (Audited T)) g :
  gyields (modifies f) g (λ _ g', g' = f g).
Proof. by apply gyields_modifies. Qed.

Ltac gstep tac := eapply gyields_bind; [auto with ggrowing|auto 20 with ggrowing|tac|].

Lemma gyields_add_entity g E R spec :
  let id := EntityId_of (es_kind spec) (es_name spec) in let n := entity_node id spec in
  graph_ok g E R → wf_node n →
  gyields (add_entity spec) g (λ id' g', id' = id ∧ graph_ok g' (<[id := n]> E) R
    ∧ edges g' = edges g ∧ prev g' = prev g ∧ reindexed (vindex g) (ncid <$> E !! id) n (vindex g')).
Proof.
  intros id n Hg Hwf. pose proof (EntityId_ok (es_kind spec) (es_name spec)) as Hk. fold id in Hk.
  pose proof (is_entity_node id spec) as Hid. fold n in Hid. unfold add_entity. fold id. fold n.
  gstep ltac:(eapply gyields_read, entity_cid_ok; done).
  intros prv ? _ [-> ->]. destruct Hg as [Hrep Hix].
  gstep ltac:(by apply gyields_store, yields_put_node).
  intros c g1 HB1 [[-> Hs] (Hi1 & He1 & Hp1 & Hv1)]. apply (graph_rep_mono _ _ _ _ _ _ HB1) in Hrep.
  gstep ltac:(by apply gyields_read).
  intros r ? _ [-> ->].
  gstep ltac:(apply gyields_store, yields_insert_root; [done|rewrite Hi1; apply Hrep]).
  intros r g2 HB2 [Hr (_ & He2 & Hp2 & Hv2)]. apply (graph_rep_mono _ _ _ _ _ _ HB2) in Hrep.
  apply (in_store_mono _ _ _ HB2) in Hs.
  assert (graph_rep (blocks (store g2)) r (edges g2) (<[id := n]> E) R) as Hrep2.
  { rewrite He2, He1. by eapply graph_rep_insert. }
  rewrite <- Hv1, <- Hv2 in *. rewrite <- He1, <- He2, <- Hp1, <- Hp2. clear - Hix Hrep Hrep2 Hs Hid H0 H2.
  gstep ltac:(apply gyields_modify). intros _ ? _ ->.
  gstep ltac:(apply gyields_modify). intros _ ? _ ->.
  destruct (node_text n) as [text|] eqn:Htext; [|discriminate Htext].
  gstep ltac:(apply (gyields_upsert_text _ _ _ (λ _ g',
    store g' = store g2 ∧ index g' = r ∧ edges g' = edges g2 ∧ prev g' = prev g2
    ∧ reindexed (vindex g2) (ncid <$> E !! id) n (vindex g')))).
  - destruct (E !! id); apply Hix.
  - intros e. destruct (E !! id); simpl; intros He; (split_and!; [done..|]); exists text, e; done.
  - intros _ g' _ (Hst & Hi & He & Hp & Hre). apply gyields_lift. unfold graph_ok. rewrite Hst, Hi, He, Hp.
    split_and!; [done|done| |done..].
    eapply reindexed_ok; [apply Hrep|done..].
Qed.

(** *** Adding a relation *)

(** Only the vectors changed. *)
Definition same_graph g g' : Prop :=
  store g' = store g ∧ index g' = index g ∧ edges g' = edges g ∧ prev g' = prev g.

Lemma gyields_embed_one ev t g E R :
  graph_ok g E R → evidence_text (store g) ev = Ok t →
  gyields (match t with Some text => upsert_text ev text | None => lift (Ok ()) end) g
    (λ _ g', graph_ok g' E R ∧ same_graph g g').
Proof.
  intros [Hrep Hix] Ht. destruct t as [text|]; [|by apply gyields_lift].
  destruct (embed_ok text (dim (vindex g))) as (e0 & He0 & Hl & Hok); [apply Hix|].
  apply gyields_upsert_text; [apply Hix|]. intros e He. assert (e0 = e) as -> by congruence.
  split; [|done]. split; [done|]. apply index_ok_upsert; [done..|]. intros id n Hn.
  destruct Hrep as (_ & _ & HE & _). destruct (HE id n Hn) as [Hs (?&?&?&?&?&->)].
  apply (evidence_text_not_entity (store g) ev text); [done|done|eauto 8].
Qed.

Lemma gyields_embed_evidence evidence g E R :
  graph_ok g E R → decodable (blocks (store g)) →
  gyields (embed_evidence evidence) g (λ _ g', graph_ok g' E R ∧ same_graph g g').
Proof.
  intros Hg Hdec. induction evidence as [|ev evidence IH] in g, Hg, Hdec |- *; simpl.
  { by apply gyields_lift. }
  destruct (evidence_text_ok (store g) ev Hdec) as [t Ht].
  assert (∀ e, ggrows (embed_evidence (T := Audited T) e)) by exact ggrows_embed_evidence.
  gstep ltac:(by apply gyields_read). intros ? ? _ [-> ->].
  gstep ltac:(by apply gyields_embed_one). intros _ g1 _ [Hg1 (Hst & Hi & He & Hp)].
  intros Hc. destruct (IH g1) as (a & g' & Hrun & Hg' & Hst' & Hi' & He' & Hp'); [done|by rewrite Hst|done|].
  exists a, g'. split; [done|]. split; [done|]. unfold same_graph. by rewrite <- Hst, <- Hi, <- He, <- Hp.
Qed.

Lemma gyields_add_relation g E R subject predicate object weight evidence (s o : KnowledgeNode) :
  let r := Relation (ncid s) predicate (ncid o) evidence weight in
  let l := default [] (R !! subject) ++ [r] in
  graph_ok g E R → decodable (blocks (store g)) → key_ok subject → key_ok object →
  E !! subject = Some s → E !! object = Some o → wf_node r → fits l →
  gyields (add_relation subject predicate object weight evidence) g (λ c g', c = ncid r
    ∧ graph_ok g' E (<[subject := l]> R) ∧ index g' = index g ∧ prev g' = prev g).
Proof.
  intros r l Hg Hdec Hks Hko Hs Ho Hwf Hl. unfold add_relation.
  gstep ltac:(apply (gyields_read _ (ncid s)); rewrite (entity_cid_ok g E R subject) by done; by rewrite Hs).
  intros ? ? _ [-> ->].
  gstep ltac:(apply (gyields_read _ (ncid o)); rewrite (entity_cid_ok g E R object) by done; by rewrite Ho).
  intros ? ? _ [-> ->].
  gstep ltac:(by apply gyields_embed_evidence). intros _ g0 _ [Hg0 (Hst0 & Hi0 & He0 & Hp0)].
  rewrite <- Hi0, <- Hp0. clear Hst0 Hi0 Hp0 He0 Hg Hdec. clear g. rename g0 into g, Hg0 into Hg.
  gstep ltac:(by apply gyields_store, yields_put_node). fold r.
  intros c g1 HB1 [[-> Hr] (Hi1 & He1 & Hp1 & Hv1)].
  assert (graph_ok g1 E R) as Hg1.
  { unfold graph_ok. rewrite Hi1, He1, Hv1. destruct Hg. split; [by eapply graph_rep_mono|done]. }
  rewrite <- Hi1, <- Hp1. clear - Hg1 Hr Hks Hl H0.
  gstep ltac:(by apply gyields_read, relation_cids_ok with (E := E) (R := R)). intros ? ? _ [-> ->].
  assert ((ncid <$> default [] (R !! subject)) ++ [ncid r] = ncid <$> l) as -> by (unfold l; by rewrite fmap_app).
  gstep ltac:(apply gyields_store, yields_put_ipld, links_wf; by apply fits_fmap).
  intros lc g2 HB2 [[-> Hlb] (Hi2 & He2 & Hp2 & Hv2)].
  gstep ltac:(by apply gyields_read). intros ? ? _ [-> ->].
  assert (hamt_rep (blocks (store g2)) (edges g2) (lcid <$> R)) as He.
  { rewrite He2. eapply hamt_rep_mono; [exact HB2|]. apply Hg1. }
  gstep ltac:(by apply gyields_store, yields_insert_root).
  intros r' g3 HB3 [Hr' (Hi3 & He3 & Hp3 & Hv3)].
  gstep ltac:(apply gyields_modify). intros _ ? _ ->. apply gyields_lift.
  split_and!; [done| |simpl; by rewrite Hi3|simpl; by rewrite Hp3].
  split; simpl; [|rewrite Hv3, Hv2; apply Hg1].
  pose proof (graph_rep_mono _ _ _ _ _ _ (transitivity HB2 HB3) (proj1 Hg1)) as (Hi' & _ & HE & HR).
  rewrite Hi3, Hi2. split_and!; [done|by rewrite fmap_insert|done|].
  intros id l' [[<- <-]|[_ Hl']]%lookup_insert_Some; [|exact (HR id l' Hl')].
  split_and!; [done| |by eapply lookup_weaken].
  apply Forall_app. split; [|apply Forall_singleton; eapply in_store_mono; [|exact Hr]; by etrans].
  destruct (R !! subject) as [l0|] eqn:Hl0; [by apply (HR subject)|constructor].
Qed.

Lemma add_relation_missing {U} `{!BlockStore U} `{!BlockStoreLaws U} (g : KnowledgeGraph U) E R
    subject predicate object weight evidence :
  graph_ok g E R → key_ok subject → key_ok object → E !! subject = None ∨ E !! object = None →
  add_relation subject predicate object weight evidence g = (Err KGraph, g).
Proof.
  intros Hg Hks Hko Hno. unfold add_relation, st_bind, reads.
  rewrite (entity_cid_ok g E R subject), (entity_cid_ok g E R object) by done. cbn [outcome_bind].
  destruct (E !! subject) as [s|], (E !! object) as [o|]; simpl; try done. by destruct Hno.
Qed.

(** *** Committing and opening *)
Definition head_of {U} (g : KnowledgeGraph U) : ipld := head_ipld g (block_cid (vi_block (vindex g))).
Definition hcid {U} (g : KnowledgeGraph U) : Cid := block_cid (cbor (head_of g)).

Lemma head_wf {U} (g : KnowledgeGraph U) : wf_ipld (head_of g).
Proof.
  unfold head_of, head_ipld. destruct (prev g) as [p|]; simpl insert_opt; simpl bt_insert.
  all: apply fields_wf; [done|repeat constructor|].
  all: repeat (apply Forall_cons_2; [split; cbn [fst snd]|]); try apply Forall_nil_2;
    try (by apply str_okb_ok); try apply link_wf.
  all: first [apply string_wf; by apply str_okb_ok|by apply integer_wf].
Qed.

Lemma open_head {U} `{!BlockStore U} `{!BlockStoreLaws U} {U'} (g : KnowledgeGraph U') (s : U) :
  wf_index (vindex g) → blocks s !! hcid g = Some (cbor (head_of g)) →
  blocks s !! block_cid (vi_block (vindex g)) = Some (vi_block (vindex g)) →
  open s (hcid g) = Ok (mkGraph s (index g) (edges g) (Some (hcid g)) (vindex g)).
Proof.
  intros Hix Hh Hv. unfold open. rewrite bs_get_blocks, Hh. cbn [ok_or outcome_bind].
  pose proof (from_dag_cbor_cbor (head_of g) [] (head_wf g)) as Hd. rewrite app_nil_r in Hd.
  rewrite Hd. cbn [map_err outcome_bind].
  set (vc := block_cid (vi_block (vindex g))) in *.
  assert (∃ m, head_of g = IMap m ∧ bt_get "index" m = Some (link (index g))
    ∧ bt_get "edges" m = Some (link (edges g)) ∧ bt_get "vindex" m = Some (link vc))
    as (m & -> & Hi & He & Hvc).
  { unfold head_of, head_ipld. fold vc. destruct (prev g); eexists; split_and!; reflexivity. }
  cbn [Ipld.as_map ok_or outcome_bind]. unfold head_link. rewrite Hi, He, Hvc.
  cbn [mbind option_bind as_link link ok_or outcome_bind]. rewrite bs_get_blocks, Hv. cbn [ok_or outcome_bind].
  by rewrite vi_decode_block.
Qed.

Lemma gyields_commit g E R :
  graph_ok g E R → fits (vi_entries (vindex g)) →
  gyields commit g (λ h g', h = hcid g ∧ graph_ok g' E R ∧ wf_index (vindex g)
    ∧ g' = mkGraph (store g') (index g) (edges g) (Some h) (vindex g)
    ∧ blocks (store g') !! hcid g = Some (cbor (head_of g))
    ∧ blocks (store g') !! block_cid (vi_block (vindex g)) = Some (vi_block (vindex g))).
Proof.
  intros [Hrep Hix] Hfit. assert (wf_index (vindex g)) as Hwf by (destruct Hix as (? & _ & ? & _); done).
  unfold commit.
  gstep ltac:(by apply gyields_read). intros ? ? _ [-> ->].
  gstep ltac:(by apply gyields_store, yields_vi_store).
  intros vc g1 HB1 [[-> Hv] (Hi1 & He1 & Hp1 & Hv1)].
  gstep ltac:(by apply gyields_read). intros ? ? _ [-> ->].
  assert (head_ipld g1 (block_cid (vi_block (vindex g))) = head_of g) as ->
    by (unfold head_of, head_ipld; by rewrite Hi1, He1, Hp1).
  gstep ltac:(by apply gyields_store, yields_put_ipld, head_wf).
  intros hc g2 HB2 [[-> Hh] (Hi2 & He2 & Hp2 & Hv2)].
  gstep ltac:(apply gyields_modify). intros _ ? _ ->. apply gyields_lift. simpl.
  split_and!; [done| |done|unfold set_prev; by rewrite Hi2, He2, Hv2, Hi1, He1, Hv1|done|by eapply lookup_weaken].
  split; simpl; [|by rewrite Hv2, Hv1]. rewrite Hi2, He2, Hi1, He1.
  eapply graph_rep_mono; [|exact Hrep]. by etrans.
Qed.

(** *** A new graph *)
Definition fresh_tries {U} `{!BlockStore U} : stateful U KError (Cid * Cid) :=
  do! index := empty in do! edges := empty in lift (Ok (index, edges)).

Lemma yields_fresh_tries B : yields (fresh_tries (U := Audited T)) B
  (λ p B', hamt_rep B' p.1 ∅ ∧ hamt_rep B' p.2 ∅).
Proof.
  assert (growing (empty (T := Audited T))) as Hg by apply growing_node_to_cid.
  eapply yields_bind; [exact Hg|auto with growing|apply yields_empty|]. intros i B1 HB1 Hi.
  eapply yields_bind; [exact Hg|auto with growing|apply yields_empty|]. intros e B2 HB2 He.
  apply yields_lift. intros B3 HB3. split; [|by eapply hamt_rep_mono].
  eapply hamt_rep_mono; [|exact Hi]. by etrans.
Qed.

Lemma new_ok (s : T) : clash (fresh_tries (start s)).2 = false →
  ∃ g : KnowledgeGraph T, KnowledgeGraph_new s = Ok g ∧ graph_ok g ∅ ∅ ∧ prev g = None.
Proof.
  intros Hc. assert (erases (T := T) fresh_tries fresh_tries) as He.
  { unfold fresh_tries, empty. auto using erases_node_to_cid with erasure. }
  destruct (yields_fresh_tries (blocks s) (start s)) as ([i e] & Hr & Hi & He'); [done|done|].
  specialize (He (start s)). rewrite Hr in He. simpl in He. unfold KnowledgeGraph_new.
  change (do! index := empty in do! edges := empty in lift (Ok (index, edges)))
    with (fresh_tries (U := T)).
  rewrite He. cbn [outcome_bind]. eexists. split; [done|]. split; [|done].
  split; [by split_and!; rewrite ?fmap_empty|].
  split_and!; simpl; try done. apply NoDup_nil_2.
Qed.

End methods.

(** ** The graph against its specification *)
Section properties.
Context `{CidCrate} `{!CidLaws} `{!Sha256} `{!Sha256Laws} `{!Unicode}.
Context {T : Type} `{!BlockStore T} `{!BlockStoreLaws T}.
Implicit Types (E : gmap EntityId KnowledgeNode) (R : gmap EntityId (list KnowledgeNode)).
Abbreviation graph := (KnowledgeGraph T).

(** What every operation leaves intact: all that was readable from the store. *)
Definition keeps_versions (g g' : graph) : Prop :=
  ∀ i e E0 R0, graph_rep (blocks (store g)) i e E0 R0 → graph_rep (blocks (store g')) i e E0 R0.

(** C8. Adding an entity does to the graph what it does to the map of entities: the identity is
    bound to the new node, whatever it was bound to before; relations, their order and the
    previous head are unchanged; the index then holds the vector of the new node's text under the new
    CID, no vector under the CID of the replaced node (unless it is the same), and otherwise exactly
    the vectors it held before, so every entity is found in it under its current CID; and every older
    version of the graph stays readable.  This holds on every run that meets no hash collision. *)
Theorem graph_add_entity (g : graph) E R (spec : EntitySpec)
  (Hg : graph_ok g E R) (Hwf : wf_node (entity_node (EntityId_of (es_kind spec) (es_name spec)) spec))
  (Hclash : clash (store (add_entity spec (gstart g)).2) = false) :
  let id := EntityId_of (es_kind spec) (es_name spec) in
  ∃ g', add_entity spec g = (Ok id, g')
    ∧ graph_ok g' (<[id := entity_node id spec]> E) R
    ∧ edges g' = edges g ∧ prev g' = prev g ∧ keeps_versions g g'
    ∧ dim (vindex g') = dim (vindex g)
    ∧ ∃ t e, node_text (entity_node id spec) = Some t ∧ embed t (dim (vindex g)) = Ok e ∧
        ∀ c v, (c, v) ∈ vi_entries (vindex g') ↔
          c = ncid (entity_node id spec) ∧ v = e
          ∨ c ≠ ncid (entity_node id spec) ∧ ncid <$> E !! id ≠ Some c ∧ (c, v) ∈ vi_entries (vindex g).
Proof.
  intros id. destruct (gyields_erase _ _ g _ (gerases_add_entity spec) (ggrows_add_entity spec) Hclash
    (gyields_add_entity (gstart g) E R spec Hg Hwf)) as (a & g' & Hrun & (-> & Hok & He & Hp & Hre) & Hb).
  apply reindexed_spec in Hre as [Hd Hix]; [|apply Hg].
  exists (gstrip g'). split_and!; [done..| |done|done]. intros i e E0 R0. by apply graph_rep_mono.
Qed.

(** Adding a relation appends it to the list of its subject, and changes no entity and no other
    list; when the subject or the object is not in the graph, the error is reported before anything
    is written.  Evidence is embedded on the way, and never disturbs the vector of an entity.  It is
    enough that the blocks of the store decode without a panic. *)
Theorem graph_add_relation (g : graph) E R subject predicate object weight evidence
  (Hg : graph_ok g E R) (Hdec : decodable (blocks (store g)))
  (Hks : key_ok subject) (Hko : key_ok object) :
  (E !! subject = None ∨ E !! object = None →
     add_relation subject predicate object weight evidence g = (Err KGraph, g))
  ∧ ∀ s o, E !! subject = Some s → E !! object = Some o →
      let r := Relation (ncid s) predicate (ncid o) evidence weight in
      let l := default [] (R !! subject) ++ [r] in
      wf_node r → fits l →
      clash (store (add_relation subject predicate object weight evidence (gstart g)).2) = false →
      ∃ g', add_relation subject predicate object weight evidence g = (Ok (ncid r), g')
        ∧ graph_ok g' E (<[subject := l]> R) ∧ prev g' = prev g ∧ keeps_versions g g'.
Proof.
  split; [by apply (add_relation_missing g E R)|].
  intros s o Hs Ho r l Hwf Hl Hc.
  destruct (gyields_erase _ _ g _ (gerases_add_relation _ _ _ _ _) (ggrows_add_relation _ _ _ _ _) Hc
    (gyields_add_relation (gstart g) E R subject predicate object weight evidence s o Hg Hdec Hks Hko
       Hs Ho Hwf Hl)) as (a & g' & Hrun & (-> & Hok & Hi & Hp) & Hb).
  exists (gstrip g'). split_and!; [done..|]. intros i e E0 R0. by apply graph_rep_mono.
Qed.

(** Reading a graph returns what it stands for: an entity by its identity or nothing, the
    relations of a subject in the order they were added, each with its CID, and, with enough fuel,
    every identity exactly once. *)
Theorem graph_queries (g : graph) E R (id : EntityId) (Hg : graph_ok g E R) (Hk : key_ok id) :
  get_entity g id = Ok (E !! id)
  ∧ relations_of g id = Ok ((λ n, (ncid n, n)) <$> default [] (R !! id))
  ∧ ∃ n ids, ids ≡ₚ elements (dom E) ∧ ∀ fuel, (n ≤ fuel)%nat → entity_ids fuel g = Ok ids.
Proof.
  split; [by eapply get_entity_ok|]. split; [by eapply relations_of_ok|].
  destruct Hg as [(Hi & _) _]. destruct (hamt_rep_entries _ _ _ Hi) as (n & out & Hout & Hrun).
  exists n, out.*1. split; [|intros fuel Hf; unfold entity_ids; by rewrite Hrun].
  rewrite Hout, <- (dom_fmap_L ncid E). apply NoDup_Permutation; [apply NoDup_fst_map_to_list|apply NoDup_elements|].
  intros k. rewrite list_elem_of_fmap, elem_of_elements, elem_of_dom. split.
  - intros ([k' v] & -> & Hkv%elem_of_map_to_list). by exists v.
  - intros [v Hv]. exists (k, v). by rewrite elem_of_map_to_list.
Qed.

(** C9. A commit can be opened: it returns the CID of a head that records both tries, the vector
    index and the previous head, leaves the graph as it was, and on any later store, whatever was
    added to it, opening that CID gives back the same tries and the same vectors, bit for bit, with the
    head as the new previous one. *)
Theorem graph_commit_open (g : graph) E R
  (Hg : graph_ok g E R) (Hfit : fits (vi_entries (vindex g)))
  (Hclash : clash (store (commit (gstart g)).2) = false) :
  ∃ h g', commit g = (Ok h, g') ∧ graph_ok g' E R ∧ prev g' = Some h ∧ keeps_versions g g'
    ∧ ∀ s : T, blocks (store g') ⊆ blocks s →
        ∃ g2, open s h = Ok g2 ∧ graph_ok g2 E R ∧ vindex g2 = vindex g ∧ prev g2 = Some h.
Proof.
  destruct (gyields_erase _ _ g _ gerases_commit ggrows_commit Hclash (gyields_commit (gstart g) E R Hg Hfit))
    as (h & g' & Hrun & (-> & Hok & Hwf & Heq & Hh & Hv) & Hb).
  exists (hcid (gstart g)), (gstrip g'). split_and!; [done|done|by rewrite Heq| |].
  - intros i e E0 R0. by apply graph_rep_mono.
  - intros s Hs. eexists. split.
    + apply (open_head (gstart g)); [done|by eapply lookup_weaken..].
    + split; [|done]. destruct Hok as [Hrep Hix]. rewrite Heq in Hrep, Hix.
      split; [|done]. by eapply graph_rep_mono.
Qed.
End properties.

(** ** Witnesses: two entities and a relation between them *)
Import Reference.

#[local] Instance demo_sha256 : Sha256 := {| sha256 d := be_bytes 4 (poly_hash d) ++ replicate 28 7 |}.
#[local] Instance demo_sha256_laws : Sha256Laws.
Proof.
  split; intros d; cbn [sha256 demo_sha256].
  - by rewrite length_app, length_be_bytes.
  - apply Forall_app. split; [apply be_bytes_range|by repeat constructor].
Qed.
#[local] Instance demo_unicode : Unicode := {| str_trim s := s; to_lowercase s := s |}.

Definition demo_ada : EntitySpec := mkEntitySpec "person" "Ada" ["Countess"%string] [].
Definition demo_engine : EntitySpec := mkEntitySpec "machine" "Engine" [] [("maker", "Babbage")]%string.
Definition demo_g0 : KnowledgeGraph MemStore :=
  match KnowledgeGraph_new MemStore_new with
  | Ok g => g
  | _ => mkGraph MemStore_new demo_cid demo_cid None (VectorIndex_new 1)
  end.

Lemma demo_g0_ok : graph_ok demo_g0 ∅ ∅.
Proof.
  destruct (new_ok MemStore_new) as (g & Hg & Hok & _); [vm_compute; reflexivity|].
  unfold demo_g0. by rewrite Hg.
Qed.


(** A further entity on a graph that is right. *)
Lemma add_entity_run (g : KnowledgeGraph MemStore) E R spec :
  let id := EntityId_of (es_kind spec) (es_name spec) in
  graph_ok g E R → wf_node (entity_node id spec) →
  clash (store (add_entity spec (gstart g)).2) = false →
  graph_ok (add_entity spec g).2 (<[id := entity_node id spec]> E) R.
Proof.
  intros id Hg Hwf Hc.
  destruct (gyields_erase _ _ g _ (gerases_add_entity spec) (ggrows_add_entity spec) Hc
    (gyields_add_entity (gstart g) E R spec Hg Hwf)) as (a & g' & Hrun & (_ & Hok & _) & _).
  by rewrite Hrun.
Qed.

Definition demo_ada_id : EntityId := EntityId_of "person" "Ada".
Definition demo_engine_id : EntityId := EntityId_of "machine" "Engine".
Definition demo_ada_node : KnowledgeNode := entity_node demo_ada_id demo_ada.
Definition demo_engine_node : KnowledgeNode := entity_node demo_engine_id demo_engine.
Definition demo_g1 : KnowledgeGraph MemStore := (add_entity demo_ada demo_g0).2.
Definition demo_g2 : KnowledgeGraph MemStore := (add_entity demo_engine demo_g1).2.
Definition demo_E : gmap EntityId KnowledgeNode :=
  <[demo_engine_id := demo_engine_node]> (<[demo_ada_id := demo_ada_node]> ∅).

Lemma demo_entity_wf id spec : length id = 32%nat → str_ok (es_kind spec) → str_ok (es_name spec) →
  Forall str_ok (es_aliases spec) → bt_sorted (es_attrs spec) →
  Forall (λ p, str_ok p.1 ∧ str_ok p.2) (es_attrs spec) →
  zlen (es_aliases spec) <= 10 → zlen (es_attrs spec) <= 10 → wf_node (entity_node id spec).
Proof.
  intros. pose proof ipld_size_bound. simpl. unfold fits, isize_max in *. split_and!; try done; try nia.
Qed.

Lemma demo_ada_key : key_ok demo_ada_id.
Proof. apply (EntityId_ok "person" "Ada"). Qed.
Lemma demo_engine_key : key_ok demo_engine_id.
Proof. apply (EntityId_ok "machine" "Engine"). Qed.

Ltac wf_demo := apply demo_entity_wf; simpl; try (by apply str_okb_ok); try done;
  repeat constructor; by apply str_okb_ok.
Lemma demo_ada_wf : wf_node demo_ada_node.
Proof. wf_demo. Qed.
Lemma demo_engine_wf : wf_node demo_engine_node.
Proof. wf_demo. Qed.

Lemma demo_g1_ok : graph_ok demo_g1 (<[demo_ada_id := demo_ada_node]> ∅) ∅.
Proof. apply (add_entity_run demo_g0 ∅ ∅ demo_ada demo_g0_ok demo_ada_wf). vm_compute. reflexivity. Qed.
Lemma demo_g2_ok : graph_ok demo_g2 demo_E ∅.
Proof. apply (add_entity_run demo_g1 _ ∅ demo_engine demo_g1_ok demo_engine_wf). vm_compute. reflexivity. Qed.

Lemma graph_add_entity_witness :
  ∃ g', add_entity demo_engine demo_g1 = (Ok demo_engine_id, g')
    ∧ graph_ok g' demo_E ∅
    ∧ edges g' = edges demo_g1 ∧ prev g' = prev demo_g1 ∧ keeps_versions demo_g1 g'.
Proof.
  destruct (graph_add_entity demo_g1 _ ∅ demo_engine demo_g1_ok demo_engine_wf) as (g' & Hrun & Hok & He & Hp & Hv & _);
    [vm_compute; reflexivity|].
  exists g'. split; [exact Hrun|]. split; [exact Hok|]. split; [exact He|]. split; [exact Hp|exact Hv].
Defined.

Lemma graph_queries_witness :
  get_entity demo_g2 demo_ada_id = Ok (demo_E !! demo_ada_id)
  ∧ relations_of demo_g2 demo_ada_id
    = Ok ((λ n, (ncid n, n)) <$> default [] ((∅ : gmap EntityId (list KnowledgeNode)) !! demo_ada_id))
  ∧ ∃ n ids, ids ≡ₚ elements (dom demo_E) ∧ ∀ fuel, (n ≤ fuel)%nat → entity_ids fuel demo_g2 = Ok ids.
Proof. exact (graph_queries demo_g2 demo_E ∅ demo_ada_id demo_g2_ok demo_ada_key). Defined.

(** Deciding that the blocks of a store decode without a panic. *)
Definition no_panic (b : bytes) : bool := match from_dag_cbor b with Panic => false | _ => true end.
Lemma decodable_dec (B : gmap Cid bytes) :
  forallb (λ p, no_panic p.2) (map_to_list B) = true → decodable B.
Proof.
  intros HB c b Hb Hp. rewrite forallb_forall in HB.
  specialize (HB (c, b)). simpl in HB. unfold no_panic in HB. rewrite Hp in HB. discriminate HB.
  by apply list_elem_of_In, elem_of_map_to_list.
Qed.

Lemma demo_g2_decodable : decodable (blocks (store demo_g2)).
Proof. apply decodable_dec. vm_compute. reflexivity. Qed.

Definition demo_relation : KnowledgeNode :=
  Relation (ncid demo_ada_node) "designed" (ncid demo_engine_node) [demo_cid] 0x3f733333.

Lemma demo_relation_wf : wf_node demo_relation.
Proof.
  unfold demo_relation, wf_node, fits. split_and!; try (by apply str_okb_ok); try (apply Z.leb_le; reflexivity).
  - apply Z.ltb_lt. reflexivity.
  - split; [split; [apply Z.leb_le|apply Z.ltb_lt]; reflexivity|]. intros [He _]. vm_compute in He. discriminate He.
Qed.

Lemma graph_add_relation_witness :
  (demo_E !! demo_ada_id = None ∨ demo_E !! demo_engine_id = None →
     add_relation demo_ada_id "designed" demo_engine_id 0x3f733333 [demo_cid] demo_g2 = (Err KGraph, demo_g2))
  ∧ ∃ g', add_relation demo_ada_id "designed" demo_engine_id 0x3f733333 [demo_cid] demo_g2
          = (Ok (ncid demo_relation), g')
        ∧ graph_ok g' demo_E (<[demo_ada_id := [demo_relation]]> ∅) ∧ prev g' = prev demo_g2
        ∧ keeps_versions demo_g2 g'.
Proof.
  destruct (graph_add_relation demo_g2 demo_E ∅ demo_ada_id "designed" demo_engine_id 0x3f733333 [demo_cid]
    demo_g2_ok demo_g2_decodable demo_ada_key demo_engine_key) as [Hno Hyes]. split; [exact Hno|].
  apply (Hyes demo_ada_node demo_engine_node).
  - unfold demo_E. rewrite lookup_insert_ne; [apply lookup_insert_eq|]. by vm_compute.
  - unfold demo_E. apply lookup_insert_eq.
  - exact demo_relation_wf.
  - rewrite lookup_empty. simpl. unfold fits. apply Z.leb_le. reflexivity.
  - vm_compute. reflexivity.
Defined.

Lemma graph_commit_open_witness :
  ∃ h g', commit demo_g2 = (Ok h, g') ∧ graph_ok g' demo_E ∅ ∧ prev g' = Some h ∧ keeps_versions demo_g2 g'
    ∧ ∀ s : MemStore, blocks (store g') ⊆ blocks s →
        ∃ g2, open s h = Ok g2 ∧ graph_ok g2 demo_E ∅ ∧ vindex g2 = vindex demo_g2 ∧ prev g2 = Some h.
Proof.
  apply (graph_commit_open demo_g2 demo_E ∅ demo_g2_ok).
  - unfold fits. apply Z.leb_le. vm_compute. reflexivity.
  - vm_compute. reflexivity.
Defined.
