(* ===== verification/MerkleBatch.v ===== *)
(** * Merkle batch proofs: [crates/ipfrs-core/src/merkle_batch.rs]

    [MerkleBatchProver] builds a binary tree over the FNV-1a hashes of its leaves, padded with zeros
    to a power of two, proves the membership of a batch of leaves with the hashes of the siblings it
    lacks, and verifies such a proof.  Indices and levels are [nat] (a [Vec<u64>] holds fewer than
    [2 ^ 60] leaves, so none of them wraps), hashes are 64-bit [Z]s.  A [BTreeSet] of positions is a
    finite set iterated in ascending order ([ascending]), a [HashMap] a finite map iterated in an
    unknown order ([HashIter]). *)

From Stdlib Require Import ZArith Lia List Sorted.
From stdpp Require Import base tactics numbers list gmap sets sorting.
From S2P Require Import Prelude Collections.

#[local] Open Scope Z_scope.

(** The text of the reason of [InvalidProof] is left out. *)
Inductive MerkleError : Type :=
| EmptyTree
| LeafIndexOutOfBounds (index tree_size : nat)
| InvalidProof
| DuplicateLeaf (index : nat).

Inductive MerkleNode : Type :=
| MLeaf (index : nat) (hash : Z)
| MInternal (left right hash : Z).
Definition node_hash (n : MerkleNode) : Z :=
  match n with MLeaf _ hash => hash | MInternal _ _ hash => hash end.

Record BatchProof : Type := mkBatchProof {
  leaf_indices : list nat;
  sibling_hashes : list (nat * Z);
  proof_root : Z;
}.
Definition proof_size (p : BatchProof) : nat := length (sibling_hashes p).

(** ** Hashes *)
Definition FNV_OFFSET : Z := 14695981039346656037.
Definition FNV_PRIME : Z := 1099511628211.
Definition fnv1a (data : bytes) : Z :=
  foldl (λ hash byte, as_u64 (Z.lxor hash byte * FNV_PRIME)) FNV_OFFSET data.
Definition leaf_hash (data : bytes) : Z := fnv1a data.
Definition combine (left right : Z) : Z := fnv1a (le_bytes 8 left ++ le_bytes 8 right).

(** ** The tree *)
Record MerkleBatchProver : Type := mkProver { leaves : list Z }.

Definition MerkleBatchProver_new (data : list bytes) : outcome MerkleError MerkleBatchProver :=
  match data with [] => Err EmptyTree | _ => Ok (mkProver (map leaf_hash data)) end.

(** [while p < n { p <<= 1 }]. *)
Fixpoint double_until (fuel : nat) (p n : nat) : outcome MerkleError nat :=
  if (p <? n)%nat then
    match fuel with O => OutOfFuel | S fuel => double_until fuel (2 * p) n end
  else Ok p.
Definition next_power_of_two (n : nat) : outcome MerkleError nat :=
  if (n <=? 1)%nat then Ok 1%nat else double_until n 1 n.
Definition tree_size (m : MerkleBatchProver) : outcome MerkleError nat :=
  next_power_of_two (length (leaves m)).

(** The leaf level, padded with zeros to [size]. *)
Definition leaf_level (leaves : list Z) (size : nat) : list Z :=
  map (λ i, nth i leaves 0) (seq 0 size).

(** [level.chunks(2)]: [pair[1]] panics on an odd chunk. *)
Fixpoint parents (level : list Z) : outcome MerkleError (list Z) :=
  match level with
  | [] => Ok []
  | [_] => Panic
  | a :: b :: level' => let! l := parents level' in Ok (combine a b :: l)
  end.

Fixpoint root_loop (fuel : nat) (level : list Z) : outcome MerkleError Z :=
  match level with
  | [] => Panic
  | [x] => Ok x
  | _ =>
    match fuel with
    | O => OutOfFuel
    | S fuel => let! level := parents level in root_loop fuel level
    end
  end.
Definition root (m : MerkleBatchProver) : outcome MerkleError Z :=
  let! size := tree_size m in root_loop size (leaf_level (leaves m) size).

Fixpoint tree_loop (fuel : nat) (level : list Z) : outcome MerkleError (list (list Z)) :=
  if (1 <? length level)%nat then
    match fuel with
    | O => OutOfFuel
    | S fuel =>
      let! next := parents level in
      let! tree := tree_loop fuel next in
      Ok (level :: tree)
    end
  else Ok [level].
Definition build_tree (leaves : list Z) (size : nat) : outcome MerkleError (list (list Z)) :=
  tree_loop size (leaf_level leaves size).

(** ** Proving *)
Definition ascending (s : gset nat) : list nat := merge_sort (≤)%nat (elements s).

Definition sibling (pos : nat) : nat := if Nat.even pos then (pos + 1)%nat else (pos - 1)%nat.

Fixpoint check_bounds (n : nat) (sorted : list nat) : outcome MerkleError unit :=
  match sorted with
  | [] => Ok tt
  | idx :: sorted' =>
    if (n <=? idx)%nat then Err (LeafIndexOutOfBounds idx n) else check_bounds n sorted'
  end.
Fixpoint check_duplicates (sorted : list nat) : outcome MerkleError unit :=
  match sorted with
  | a :: (b :: _) as sorted' => if (a =? b)%nat then Err (DuplicateLeaf a) else check_duplicates sorted'
  | _ => Ok tt
  end.

(** One level: the siblings that are not covered themselves, without repeating a pair. *)
Fixpoint prove_positions (level : nat) (level_nodes : list Z) (covered : gset nat) (positions : list nat)
    (next_covered : gset nat) (sibling_hashes : list (nat * Z)) : gset nat * list (nat * Z) :=
  match positions with
  | [] => (next_covered, sibling_hashes)
  | pos :: positions' =>
    let sib := sibling pos in
    let parent := (pos / 2)%nat in
    let next_covered := {[parent]} ∪ next_covered in
    let sibling_hashes :=
      if decide (sib ∈ covered) then sibling_hashes
      else
        let entry := (level, nth sib level_nodes 0) in
        if decide (entry ∈ sibling_hashes) then sibling_hashes else sibling_hashes ++ [entry] in
    prove_positions level level_nodes covered positions' next_covered sibling_hashes
  end.

Fixpoint prove_levels (level : nat) (tree : list (list Z)) (covered : gset nat)
    (sibling_hashes : list (nat * Z)) : list (nat * Z) :=
  match tree with
  | [] => sibling_hashes
  | level_nodes :: tree' =>
    let '(covered, sibling_hashes) :=
      prove_positions level level_nodes covered (ascending covered) ∅ sibling_hashes in
    prove_levels (S level) tree' covered sibling_hashes
  end.

Definition prove_batch (m : MerkleBatchProver) (indices : list nat) : outcome MerkleError BatchProof :=
  let n := length (leaves m) in
  let sorted := merge_sort (≤)%nat indices in
  let! _ := check_bounds n sorted in
  let! _ := check_duplicates sorted in
  let! size := tree_size m in
  let! tree := build_tree (leaves m) size in
  let height := (length tree - 1)%nat in
  let covered := list_to_set sorted in
  let sibling_hashes := prove_levels 0 (take height tree) covered [] in
  let! r := root m in
  Ok (mkBatchProof sorted sibling_hashes r).

(** ** Verifying *)
Fixpoint pos_trailing_zeros (p : positive) : nat :=
  match p with xO p' => S (pos_trailing_zeros p') | _ => O end.
Definition trailing_zeros (n : nat) : nat :=
  match N.of_nat n with N0 => 64%nat | Npos p => pos_trailing_zeros p end.

Abbreviation Known := (gmap (nat * nat) Z).

Fixpoint insert_leaves (leaf_indices : list nat) (data_items : list bytes) (known : Known) : Known :=
  match leaf_indices, data_items with
  | leaf_idx :: leaf_indices', item :: data_items' =>
    insert_leaves leaf_indices' data_items' (<[(0%nat, leaf_idx) := leaf_hash item]> known)
  | _, _ => known
  end.

Fixpoint pull_positions (level : nat) (covered : gset nat) (positions : list nat)
    (next_covered : gset nat) (iter : list (nat * Z)) (known : Known) :
    outcome MerkleError (gset nat * list (nat * Z) * Known) :=
  match positions with
  | [] => Ok (next_covered, iter, known)
  | pos :: positions' =>
    let sib := sibling pos in
    let parent := (pos / 2)%nat in
    let next_covered := {[parent]} ∪ next_covered in
    if decide (sib ∈ covered) then pull_positions level covered positions' next_covered iter known
    else
      match iter with
      | (_, sib_hash) :: iter' =>
        pull_positions level covered positions' next_covered iter' (<[(level, sib) := sib_hash]> known)
      | [] => Err InvalidProof
      end
  end.

Fixpoint pull_levels (levels : nat) (level : nat) (covered : gset nat) (iter : list (nat * Z))
    (known : Known) : outcome MerkleError Known :=
  match levels with
  | O => Ok known
  | S levels' =>
    let! (covered, iter, known) := pull_positions level covered (ascending covered) ∅ iter known in
    pull_levels levels' (S level) covered iter known
  end.

Section verify.
Context `{!HashIter nat} `{!HashIter (nat * nat)}.

(** The known hashes of one level overwrite the computed ones. *)
Definition add_known (level : nat) (known : Known) (current : gmap nat Z) : gmap nat Z :=
  foldl (λ m '((lvl, pos), hash), if (lvl =? level)%nat then <[pos := hash]> m else m) current
    (hash_iter known).

Fixpoint dedup (l : list nat) : list nat :=
  match l with
  | a :: (b :: _) as l' => if (a =? b)%nat then dedup l' else a :: dedup l'
  | _ => l
  end.

Fixpoint parents_of (positions : list nat) (current : gmap nat Z) (next : gmap nat Z)
    (processed : gset nat) : gmap nat Z :=
  match positions with
  | [] => next
  | pos :: positions' =>
    let parent := (pos / 2)%nat in
    if decide (parent ∈ processed) then parents_of positions' current next processed
    else
      match current !! (parent * 2)%nat, current !! (parent * 2 + 1)%nat with
      | Some left_h, Some right_h =>
        parents_of positions' current (<[parent := combine left_h right_h]> next) ({[parent]} ∪ processed)
      | _, _ => parents_of positions' current next processed
      end
  end.

Fixpoint propagate (levels : nat) (level : nat) (known : Known) (current : gmap nat Z) : gmap nat Z :=
  match levels with
  | O => current
  | S levels' =>
    let current := add_known level known current in
    let positions := dedup (merge_sort (≤)%nat (hash_iter current).*1) in
    propagate levels' (S level) known (parents_of positions current ∅ ∅)
  end.

Definition verify_batch (m : MerkleBatchProver) (proof : BatchProof) (data_items : list bytes) :
    outcome MerkleError bool :=
  if negb (length data_items =? length (leaf_indices proof))%nat then Err InvalidProof else
  let! size := tree_size m in
  let height := trailing_zeros size in
  let known := insert_leaves (leaf_indices proof) data_items ∅ in
  let covered := list_to_set (leaf_indices proof) in
  let! known := pull_levels height 0 covered (sibling_hashes proof) known in
  let current := propagate height 0 known (add_known 0 known ∅) in
  match current !! 0%nat with
  | Some reconstructed_root => Ok (reconstructed_root =? proof_root proof)
  | None => Err InvalidProof
  end.
End verify.
