(* ===== verification/MerkleBatchFacts.v ===== *)
(** * Merkle batch proofs: what a proof proves, and when an honest one is accepted

    [H leaves k p] is the hash of the tree at level [k], position [p].  Both the prover and the
    verifier walk the same positions ([needed_pos]); the verifier recomputes the hashes of the covered
    positions level by level ([V]). *)

From Stdlib Require Import ZArith Lia List Sorted.
From stdpp Require Import base tactics numbers list gmap sets sorting.
From S2P Require Import Prelude Collections MerkleBatch.

(** ** The tree *)
Lemma nth_map_seq {A} (f : nat → A) (d : A) n i : i < n → nth i (map f (seq 0 n)) d = f i.
Proof.
  intros Hi. rewrite nth_indep with (d' := f 0) by (rewrite length_map, length_seq; lia).
  by rewrite map_nth, seq_nth.
Qed.

Definition up (level : list Z) : list Z :=
  map (λ i, combine (nth (2 * i) level 0%Z) (nth (2 * i + 1) level 0%Z)) (seq 0 (length level / 2)).
Definition level_at (L : list Z) (k : nat) : list Z := Nat.iter k up L.
Definition H (L : list Z) (k p : nat) : Z := nth p (level_at L k) 0%Z.

Lemma length_up L n : length L = 2 * n → length (up L) = n.
Proof. intros Hl. unfold up. rewrite length_map, length_seq, Hl, Nat.mul_comm. apply Nat.div_mul. lia. Qed.

Lemma nth_up L n i : length L = 2 * n → i < n →
  nth i (up L) 0%Z = combine (nth (2 * i) L 0%Z) (nth (2 * i + 1) L 0%Z).
Proof.
  intros Hl Hi. unfold up. rewrite Hl, Nat.mul_comm, Nat.div_mul by lia.
  by rewrite nth_map_seq.
Qed.

Lemma up_cons a b L : Nat.Even (length L) → up (a :: b :: L) = combine a b :: up L.
Proof.
  intros [n Hn]. unfold up. cbn [length]. rewrite Hn.
  replace (S (S (2 * n))) with (S n * 2) by lia. rewrite Nat.div_mul by lia.
  rewrite Nat.mul_comm, Nat.div_mul by lia. cbn [seq map]. f_equal.
  rewrite <- seq_shift, map_map. apply map_ext. intros i.
  by replace (2 * S i) with (S (S (2 * i))) by lia.
Qed.

Lemma parents_ok L n : length L = 2 * n → parents L = Ok (up L).
Proof.
  revert L. induction n as [|n IH]; intros L Hl.
  { destruct L; [done|simpl in Hl; lia]. }
  destruct L as [|a [|b L]]; simpl in Hl; try lia. cbn [parents].
  rewrite IH by lia. cbn [outcome_bind]. rewrite up_cons; [done|]. exists n. lia.
Qed.

Lemma length_level_at L h k : length L = 2 ^ h → k ≤ h → length (level_at L k) = 2 ^ (h - k).
Proof.
  intros Hl Hk. induction k as [|k IH]; [by rewrite Nat.sub_0_r|].
  change (level_at L (S k)) with (up (level_at L k)). apply length_up. rewrite IH by lia.
  replace (h - k) with (S (h - S k)) by lia. done.
Qed.

Lemma H_up L h k q : length L = 2 ^ h → k < h → q < 2 ^ (h - S k) →
  H L (S k) q = combine (H L k (2 * q)) (H L k (2 * q + 1)).
Proof.
  intros Hl Hk Hq. unfold H at 1. change (level_at L (S k)) with (up (level_at L k)).
  apply (nth_up _ (2 ^ (h - S k))); [|done]. rewrite (length_level_at L h) by (done || lia).
  replace (h - k) with (S (h - S k)) by lia. done.
Qed.

Lemma level_at_S L k : level_at (up L) k = level_at L (S k).
Proof. unfold level_at. by rewrite Nat.iter_succ_r. Qed.

Lemma pow_ge h : h < 2 ^ h.
Proof. apply Nat.pow_gt_lin_r. lia. Qed.

Lemma root_loop_ok fuel h L : length L = 2 ^ h → h ≤ fuel → root_loop fuel L = Ok (H L h 0).
Proof.
  revert fuel L. induction h as [|h IH]; intros fuel L Hl Hf.
  { destruct L as [|x []]; simpl in Hl; try lia. by destruct fuel. }
  pose proof (pow_ge h). destruct fuel as [|fuel]; [lia|].
  assert (root_loop (S fuel) L = let! level := parents L in root_loop fuel level) as ->.
  { destruct L as [|x [|y L']]; [simpl in Hl; lia..|done]. }
  rewrite (parents_ok L (2 ^ h)) by (rewrite Hl; done). cbn [outcome_bind].
  rewrite IH; [|by apply length_up|lia]. unfold H. by rewrite level_at_S.
Qed.

Lemma tree_loop_ok fuel h L : length L = 2 ^ h → h ≤ fuel →
  tree_loop fuel L = Ok (map (level_at L) (seq 0 (S h))).
Proof.
  revert fuel L. induction h as [|h IH]; intros fuel L Hl Hf.
  { destruct fuel; cbn [tree_loop]; by rewrite Hl. }
  pose proof (pow_ge h). destruct fuel as [|fuel]; [lia|]. cbn [tree_loop]. rewrite Hl.
  rewrite (proj2 (Nat.ltb_lt _ _)) by (simpl; lia).
  rewrite (parents_ok L (2 ^ h)) by (rewrite Hl; done). cbn [outcome_bind].
  rewrite IH; [|by apply length_up|lia]. cbn [outcome_bind]. f_equal.
  change (seq 0 (S (S h))) with (0 :: seq 1 (S h)). rewrite map_cons. f_equal.
  rewrite <- (seq_shift (S h) 0), map_map. apply map_ext. apply level_at_S.
Qed.

Lemma double_until_ok fuel k n : n ≤ 2 ^ k + fuel → ∃ h, double_until fuel (2 ^ k) n = Ok (2 ^ h) ∧ n ≤ 2 ^ h.
Proof.
  revert k. induction fuel as [|fuel IH]; intros k Hn; cbn [double_until];
    (destruct (Nat.ltb_spec (2 ^ k) n); [|eauto]); [lia|].
  change (2 * 2 ^ k) with (2 ^ S k). apply IH. pose proof (pow_ge k). simpl. lia.
Qed.

Lemma tree_size_ok m : ∃ h, tree_size m = Ok (2 ^ h) ∧ length (leaves m) ≤ 2 ^ h.
Proof.
  unfold tree_size, next_power_of_two. destruct (Nat.leb_spec (length (leaves m)) 1); [by exists 0|].
  apply (double_until_ok _ 0). simpl. lia.
Qed.

Lemma trailing_zeros_pow h : trailing_zeros (2 ^ h) = h.
Proof.
  unfold trailing_zeros. rewrite Nat2N.inj_pow. change (N.of_nat 2) with 2%N.
  induction h as [|h IH]; [done|]. rewrite Nat2N.inj_succ, N.pow_succ_r'.
  pose proof (N.pow_nonzero 2 (N.of_nat h)). destruct (2 ^ N.of_nat h)%N as [|p]; [lia|]. simpl. by f_equal.
Qed.

Lemma length_leaf_level L size : length (leaf_level L size) = size.
Proof. unfold leaf_level. by rewrite length_map, length_seq. Qed.
Lemma nth_leaf_level L size i : length L ≤ size → nth i (leaf_level L size) 0%Z = nth i L 0%Z.
Proof.
  intros Hl. unfold leaf_level. destruct (decide (i < size)).
  - by rewrite nth_map_seq.
  - rewrite !nth_overflow; [done|lia|rewrite length_map, length_seq; lia].
Qed.

(** ** Positions *)
Lemma elem_of_ascending s p : p ∈ ascending s ↔ p ∈ s.
Proof. unfold ascending. by rewrite merge_sort_Permutation, elem_of_elements. Qed.
Lemma NoDup_ascending s : NoDup (ascending s).
Proof. unfold ascending. rewrite merge_sort_Permutation. apply NoDup_elements. Qed.

Lemma half_even k : 2 * k / 2 = k.
Proof. rewrite Nat.mul_comm. by apply Nat.div_mul. Qed.
Lemma half_odd k : (2 * k + 1) / 2 = k.
Proof. rewrite Nat.add_comm, Nat.mul_comm. by rewrite Nat.div_add. Qed.

Lemma sibling_spec p : ∃ k, p / 2 = k ∧
  (p = 2 * k ∧ sibling p = 2 * k + 1 ∨ p = 2 * k + 1 ∧ sibling p = 2 * k).
Proof.
  destruct (Nat.Even_Odd_dec p) as [[k ->]|[k ->]]; exists k; unfold sibling.
  - rewrite half_even, Nat.even_even. lia.
  - rewrite half_odd, Nat.even_odd. lia.
Qed.

Lemma sibling_inj p q : sibling p = sibling q → p = q.
Proof.
  destruct (sibling_spec p) as (k & _ & Hp), (sibling_spec q) as (k' & _ & Hq). lia.
Qed.

(** The positions whose hash the verifier lacks, in the order both sides visit them. *)
Definition needed (C : gset nat) (ps : list nat) : list nat := filter (.∉ C) (sibling <$> ps).
Definition up_set (C : gset nat) : gset nat := set_map (λ p, p / 2) C.
Fixpoint needed_pos (n level : nat) (C : gset nat) : list (nat * nat) :=
  match n with
  | O => []
  | S n' => (pair level <$> needed C (ascending C)) ++ needed_pos n' (S level) (up_set C)
  end.

Lemma needed_cons C p ps :
  needed C (p :: ps) = if decide (sibling p ∈ C) then needed C ps else sibling p :: needed C ps.
Proof.
  unfold needed. rewrite fmap_cons, filter_cons. destruct (decide (sibling p ∈ C)).
  - by rewrite decide_False by auto.
  - by rewrite decide_True.
Qed.

Lemma elem_of_needed C s : s ∈ needed C (ascending C) ↔ s ∉ C ∧ ∃ p, p ∈ C ∧ s = sibling p.
Proof.
  unfold needed. rewrite list_elem_of_filter, list_elem_of_fmap. setoid_rewrite elem_of_ascending.
  naive_solver.
Qed.

Lemma NoDup_needed C : NoDup (needed C (ascending C)).
Proof.
  apply NoDup_filter, NoDup_fmap_2; [|apply NoDup_ascending]. intros p q. apply sibling_inj.
Qed.

Definition covered_at (C : gset nat) (l : nat) : gset nat := Nat.iter l up_set C.

Lemma elem_of_needed_pos n level C l s :
  (l, s) ∈ needed_pos n level C ↔ level ≤ l < level + n ∧
    s ∈ needed (covered_at C (l - level)) (ascending (covered_at C (l - level))).
Proof.
  revert level C. induction n as [|n IH]; intros level C; cbn [needed_pos].
  { split; [by intros ?%not_elem_of_nil|lia]. }
  rewrite elem_of_app, IH. split.
  - intros [(s' & [= -> ->] & Hs)%list_elem_of_fmap|[Hl Hs]].
    + split; [lia|]. by rewrite Nat.sub_diag.
    + split; [lia|]. replace (l - level) with (S (l - S level)) by lia.
      unfold covered_at in *. by rewrite Nat.iter_succ_r.
  - intros [Hl Hs]. destruct (decide (l = level)) as [->|Hne].
    + left. rewrite Nat.sub_diag in Hs. by apply list_elem_of_fmap_2.
    + right. split; [lia|]. replace (l - level) with (S (l - S level)) in Hs by lia.
      unfold covered_at in *. by rewrite Nat.iter_succ_r in Hs.
Qed.

Lemma NoDup_needed_pos n level C : NoDup (needed_pos n level C).
Proof.
  revert level C. induction n as [|n IH]; intros level C; cbn [needed_pos]; [constructor|].
  apply NoDup_app. split_and!; [|intros [l s] (? & [= -> ->] & _)%list_elem_of_fmap|apply IH].
  - apply NoDup_fmap_2; [by intros ?? [= ->]|apply NoDup_needed].
  - intros [Hl _]%elem_of_needed_pos. lia.
Qed.

Lemma up_set_ascending C : list_to_set ((λ p, p / 2) <$> ascending C) = up_set C.
Proof.
  apply set_eq. intros q. unfold up_set. rewrite elem_of_list_to_set, list_elem_of_fmap, elem_of_map.
  setoid_rewrite elem_of_ascending. done.
Qed.

(** ** The prover *)
Definition push (sibs : list (nat * Z)) (e : nat * Z) : list (nat * Z) :=
  if decide (e ∈ sibs) then sibs else sibs ++ [e].

Lemma prove_positions_spec level nodes C ps next sibs :
  prove_positions level nodes C ps next sibs =
    (list_to_set ((λ p, p / 2) <$> ps) ∪ next,
     foldl push sibs ((λ s, (level, nth s nodes 0%Z)) <$> needed C ps)).
Proof.
  revert next sibs. induction ps as [|p ps IH]; intros next sibs.
  { cbn. f_equal. set_solver. }
  cbn [prove_positions]. rewrite IH, needed_cons. f_equal; [set_solver|].
  destruct (decide (sibling p ∈ C)); [done|]. by cbn.
Qed.

Fixpoint entries_at (level : nat) (tree : list (list Z)) (C : gset nat) : list (nat * Z) :=
  match tree with
  | [] => []
  | nodes :: tree' =>
    ((λ s, (level, nth s nodes 0%Z)) <$> needed C (ascending C)) ++ entries_at (S level) tree' (up_set C)
  end.

Lemma prove_levels_spec level tree C sibs :
  prove_levels level tree C sibs = foldl push sibs (entries_at level tree C).
Proof.
  revert level C sibs. induction tree as [|nodes tree IH]; intros level C sibs; [done|].
  cbn [prove_levels entries_at]. rewrite prove_positions_spec, up_set_ascending, union_empty_r_L.
  by rewrite IH, foldl_app.
Qed.

(** The entries are the hashes of the needed positions. *)
Definition entry (L : list Z) (lp : nat * nat) : nat * Z := (lp.1, H L lp.1 lp.2).

Lemma entries_at_spec L n level C :
  entries_at level (map (level_at L) (seq level n)) C = entry L <$> needed_pos n level C.
Proof.
  revert level C. induction n as [|n IH]; intros level C; [done|].
  cbn [seq map entries_at needed_pos]. rewrite IH, fmap_app, <- list_fmap_compose. done.
Qed.

Lemma foldl_push_NoDup sibs l : NoDup (sibs ++ l) → foldl push sibs l = sibs ++ l.
Proof.
  revert sibs. induction l as [|e l IH]; intros sibs Hnd; cbn; [by rewrite app_nil_r|].
  unfold push at 2. rewrite decide_False.
  - rewrite IH; rewrite <- app_assoc; done.
  - apply NoDup_app in Hnd as (_ & Hd & _). intros He. apply (Hd e He). left.
Qed.

Lemma foldl_push_length sibs l : length (foldl push sibs l) ≤ length sibs + length l
  ∧ (length (foldl push sibs l) = length sibs + length l → NoDup sibs → NoDup (sibs ++ l)).
Proof.
  revert sibs. induction l as [|e l IH]; intros sibs; cbn.
  { rewrite app_nil_r. split; [lia|done]. }
  destruct (IH (push sibs e)) as [Hle Hnd]. unfold push in *. destruct (decide (e ∈ sibs)) as [He|He].
  - split; [lia|]. intros Heq. lia.
  - rewrite length_app in *. simpl in *. split; [lia|]. intros Heq Hs. rewrite <- app_assoc in Hnd.
    apply Hnd; [lia|]. apply NoDup_app. split_and!; [done|by intros x Hx ->%list_elem_of_singleton|apply NoDup_singleton].
Qed.

(** ** The verifier *)
Definition ins (K : Known) (kv : nat * nat * Z) : Known := <[kv.1 := kv.2]> K.

Lemma pull_positions_spec level C ps next iter K :
  pull_positions level C ps next iter K =
    if length (needed C ps) <=? length iter then
      Ok (list_to_set ((λ p, p / 2) <$> ps) ∪ next, drop (length (needed C ps)) iter,
          foldl ins K (zip (pair level <$> needed C ps) iter.*2))
    else Err InvalidProof.
Proof.
  revert next iter K. induction ps as [|p ps IH]; intros next iter K.
  { cbn. do 3 f_equal. set_solver. }
  cbn [pull_positions]. rewrite needed_cons. destruct (decide (sibling p ∈ C)) as [Hs|Hs].
  - rewrite IH. destruct (_ <=? _); [|done]. do 3 f_equal. set_solver.
  - destruct iter as [|[l' v] iter]; [done|]. rewrite IH. cbn. destruct (_ <=? _); [|done].
    do 3 f_equal. set_solver.
Qed.

Lemma zip_app_l {A B} (l1 l2 : list A) (k : list B) :
  zip (l1 ++ l2) k = zip l1 k ++ zip l2 (drop (length l1) k).
Proof.
  revert k. induction l1 as [|a l1 IH]; intros k; [done|]. destruct k as [|b k]; cbn.
  - by destruct l2.
  - by rewrite IH.
Qed.

Lemma pull_levels_spec n level C iter K :
  pull_levels n level C iter K =
    if length (needed_pos n level C) <=? length iter then Ok (foldl ins K (zip (needed_pos n level C) iter.*2))
    else Err InvalidProof.
Proof.
  revert level C iter K. induction n as [|n IH]; intros level C iter K; [done|].
  cbn [pull_levels needed_pos]. rewrite pull_positions_spec, length_app, length_fmap.
  set (a := length (needed C (ascending C))). set (b := length (needed_pos n (S level) (up_set C))).
  destruct (Nat.leb_spec a (length iter)) as [Ha|Ha].
  - cbn [outcome_bind]. rewrite up_set_ascending, union_empty_r_L, IH, length_drop.
    rewrite zip_app_l, length_fmap, foldl_app, fmap_drop. fold a b.
    by replace (b <=? length iter - a) with (a + b <=? length iter)
      by (destruct (Nat.leb_spec (a + b) (length iter)), (Nat.leb_spec b (length iter - a)); done || lia).
  - destruct (Nat.leb_spec (a + b) (length iter)); [lia|done].
Qed.

Lemma foldl_ins_lookup K kvs k : NoDup kvs.*1 →
  (∀ v, (k, v) ∈ kvs → foldl ins K kvs !! k = Some v) ∧ (k ∉ kvs.*1 → foldl ins K kvs !! k = K !! k).
Proof.
  revert K. induction kvs as [|[k' v'] kvs IH]; intros K Hnd.
  { split; [by intros ? ?%not_elem_of_nil|done]. }
  rewrite fmap_cons in *. cbn [foldl fst].
  apply NoDup_cons in Hnd as [Hk' Hnd]. destruct (IH (ins K (k', v')) Hnd) as [Hin Hout]. split.
  - intros v [[= -> ->]|Hv]%elem_of_cons; [|by apply Hin]. rewrite Hout by done. apply lookup_insert_eq.
  - intros [Hne Hk]%not_elem_of_cons. rewrite Hout by done. unfold ins. by rewrite lookup_insert_ne.
Qed.

Lemma insert_leaves_lookup idxs items K i : NoDup idxs →
  (∀ j item, idxs !! j = Some i → items !! j = Some item → insert_leaves idxs items K !! (0, i) = Some (leaf_hash item))
  ∧ (i ∉ idxs → insert_leaves idxs items K !! (0, i) = K !! (0, i))
  ∧ ∀ l p, l ≠ 0 → insert_leaves idxs items K !! (l, p) = K !! (l, p).
Proof.
  revert items K. induction idxs as [|i' idxs IH]; intros items K Hnd; cbn [insert_leaves].
  { split_and!; [|done|done]. intros j item Hj. done. }
  apply NoDup_cons in Hnd as [Hi' Hnd]. destruct items as [|it items].
  { split_and!; [|done|done]. intros j item _ Hj. done. }
  destruct (IH items (<[(0, i') := leaf_hash it]> K) Hnd) as (Hin & Hout & Hother). split_and!.
  - intros [|j] item; cbn; [|apply Hin]. intros [= ->] [= ->]. rewrite Hout by done. apply lookup_insert_eq.
  - intros [Hne Hi]%not_elem_of_cons. rewrite Hout by done. rewrite lookup_insert_ne; [done|congruence].
  - intros l p Hl. rewrite Hother by done. rewrite lookup_insert_ne; [done|congruence].
Qed.

Lemma NoDup_last_index {A} (l : list A) j i : NoDup l → l !! j = Some i → i ∉ drop (S j) l.
Proof.
  intros Hnd Hj Hin. apply list_elem_of_lookup in Hin as [k Hk]. rewrite lookup_drop in Hk.
  pose proof (NoDup_lookup _ _ _ _ Hnd Hj Hk). lia.
Qed.

(** Whatever the indices are, the last item given for an index stays. *)
Lemma insert_leaves_last idxs items K j i item :
  idxs !! j = Some i → i ∉ drop (S j) idxs → items !! j = Some item →
  insert_leaves idxs items K !! (0, i) = Some (leaf_hash item).
Proof.
  revert items K j. induction idxs as [|i' idxs IH]; intros items K j Hi Hlast Hit; [done|].
  destruct items as [|it items]; [done|]. cbn [insert_leaves]. destruct j as [|j]; [|by apply (IH _ _ j)].
  injection Hi as ->. injection Hit as ->. cbn [drop] in Hlast. revert items K Hlast. clear.
  induction idxs as [|i' idxs IH]; intros items K Hlast; [apply lookup_insert_eq|].
  apply not_elem_of_cons in Hlast as [Hne Hlast]. destruct items as [|it items]; [apply lookup_insert_eq|].
  cbn [insert_leaves]. rewrite insert_insert_ne by congruence. by apply IH.
Qed.
Lemma insert_leaves_other idxs items K l p : l ≠ 0 → insert_leaves idxs items K !! (l, p) = K !! (l, p).
Proof.
  intros Hl. revert items K. induction idxs as [|i idxs IH]; intros [|it items] K; cbn [insert_leaves]; [done..|].
  rewrite IH. by rewrite lookup_insert_ne by congruence.
Qed.

Section iter.
Context `{!HashIter nat} `{!HashIter (nat * nat)}.
Implicit Types (K : Known) (cur : gmap nat Z).

Definition pair_hash cur (q : nat) : option Z :=
  match cur !! (2 * q), cur !! (2 * q + 1) with Some a, Some b => Some (combine a b) | _, _ => None end.

Lemma add_known_lookup level K cur p :
  add_known level K cur !! p = match K !! (level, p) with Some v => Some v | None => cur !! p end.
Proof.
  unfold add_known. assert (∀ l cur, NoDup l.*1 →
    foldl (λ m '((lvl, pos), hash), if (lvl =? level)%nat then <[pos := hash]> m else m) cur l !! p
    = match (list_to_map l : Known) !! (level, p) with Some v => Some v | None => cur !! p end) as Hgen.
  { clear. induction l as [|[[lvl pos] v] l IH]; intros cur Hnd; [done|]. apply NoDup_cons in Hnd as [Hk Hnd].
    cbn. rewrite IH by done. destruct (Nat.eqb_spec lvl level) as [->|Hne].
    - destruct (decide (pos = p)) as [->|Hp].
      + rewrite !lookup_insert_eq. by rewrite (not_elem_of_list_to_map_1 _ _ Hk).
      + rewrite !lookup_insert_ne by congruence. done.
    - rewrite lookup_insert_ne by congruence. done. }
  rewrite Hgen by apply NoDup_hash_iter_keys. do 2 f_equal.
  by rewrite (list_to_map_proper (hash_iter K) (map_to_list K)), list_to_map_to_list;
    [|apply NoDup_hash_iter_keys|apply hash_iter_perm].
Qed.

Lemma elem_of_merkle_dedup l p : p ∈ dedup l ↔ p ∈ l.
Proof.
  induction l as [|a l IH]; [done|]. cbn [dedup]. destruct l as [|b l]; [done|].
  destruct (Nat.eqb_spec a b) as [->|]; [|by rewrite !(elem_of_cons _ _ a), IH].
  rewrite IH. rewrite !elem_of_cons. tauto.
Qed.

Lemma parents_of_lookup ps cur next processed q :
  (∀ q, q ∈ processed → next !! q = pair_hash cur q ∧ is_Some (pair_hash cur q)) →
  (∀ q, q ∉ processed → next !! q = None) →
  parents_of ps cur next processed !! q =
    if decide (q ∈ processed ∨ q ∈ (λ p, p / 2) <$> ps) then pair_hash cur q else None.
Proof.
  revert next processed. induction ps as [|p ps IH]; intros next processed Hin Hout.
  { cbn. destruct (decide _) as [[Hq|Hq%not_elem_of_nil]|Hq]; [by apply Hin|done|apply Hout; tauto]. }
  cbn [parents_of]. destruct (decide (p / 2 ∈ processed)) as [Hp|Hp].
  { rewrite IH by done. apply decide_ext. rewrite fmap_cons, elem_of_cons. naive_solver. }
  destruct (pair_hash cur (p / 2)) as [h|] eqn:Hh.
  - assert (parents_of (p :: ps) cur next processed
      = parents_of ps cur (<[p / 2 := h]> next) ({[p / 2]} ∪ processed)) as Heq.
    { cbn [parents_of]. rewrite decide_False by done. unfold pair_hash in Hh.
      rewrite !(Nat.mul_comm (p / 2)). repeat case_match; by simplify_eq. }
    cbn [parents_of] in Heq. rewrite decide_False in Heq by done. rewrite Heq, IH.
    + apply decide_ext. rewrite fmap_cons, elem_of_cons. set_solver.
    + intros q' [->%elem_of_singleton|Hq']%elem_of_union; [by rewrite lookup_insert_eq, Hh|].
      rewrite lookup_insert_ne by set_solver. by apply Hin.
    + intros q' [Hne Hq']%not_elem_of_union. rewrite lookup_insert_ne by set_solver. by apply Hout.
  - assert (match cur !! (p / 2 * 2), cur !! (p / 2 * 2 + 1) with
      | Some left_h, Some right_h => parents_of ps cur (<[p / 2 := combine left_h right_h]> next) ({[p / 2]} ∪ processed)
      | _, _ => parents_of ps cur next processed end = parents_of ps cur next processed) as ->.
    { unfold pair_hash in Hh. rewrite !(Nat.mul_comm (p / 2)). repeat case_match; by simplify_eq. }
    rewrite IH by done. rewrite fmap_cons. destruct (decide (q = p / 2)) as [->|Hne].
    + rewrite Hh. by repeat case_decide.
    + apply decide_ext. rewrite elem_of_cons. tauto.
Qed.

(** One level of the recomputation. *)
Lemma next_level_lookup cur q :
  parents_of (dedup (merge_sort (≤)%nat (hash_iter cur).*1)) cur ∅ ∅ !! q = pair_hash cur q.
Proof.
  rewrite parents_of_lookup; [|set_solver|by intros; rewrite lookup_empty].
  case_decide as Hq; [done|]. unfold pair_hash. destruct (cur !! (2 * q)) as [a|] eqn:Ha; [|done].
  destruct Hq. right. apply list_elem_of_fmap. exists (2 * q). rewrite half_even. split; [done|].
  rewrite elem_of_merkle_dedup, merge_sort_Permutation. apply list_elem_of_fmap. exists (2 * q, a).
  by rewrite elem_of_hash_iter.
Qed.

(** ** The recomputation, level by level

    [W l] is what the verifier has computed for level [l], [V l] that and the hashes it was given. *)
Definition next_level (level : nat) K cur : gmap nat Z :=
  let cur := add_known level K cur in
  parents_of (dedup (merge_sort (≤)%nat (hash_iter cur).*1)) cur ∅ ∅.

Lemma propagate_S n level K cur :
  propagate (S n) level K cur = next_level (level + n) K (propagate n level K cur).
Proof.
  revert level cur. induction n as [|n IH]; intros level cur; [by rewrite Nat.add_0_r|].
  change (propagate (S (S n)) level K cur) with (propagate (S n) (S level) K (next_level level K cur)).
  rewrite IH. by replace (S level + n) with (level + S n) by lia.
Qed.

Definition W K (l : nat) : gmap nat Z := propagate l 0 K (add_known 0 K ∅).
Definition V K (l : nat) : gmap nat Z := add_known l K (W K l).

Lemma W_0 K p : W K 0 !! p = K !! (0, p).
Proof. unfold W. cbn [propagate]. rewrite add_known_lookup, lookup_empty. by destruct (K !! (0, p)). Qed.
Lemma W_S K l q : W K (S l) !! q = pair_hash (V K l) q.
Proof. unfold W. rewrite propagate_S. apply next_level_lookup. Qed.
Lemma V_lookup K l p : V K l !! p = match K !! (l, p) with Some v => Some v | None => W K l !! p end.
Proof. apply add_known_lookup. Qed.

(** ** The covered positions *)
Lemma covered_parent C l p : p ∈ covered_at C l → p / 2 ∈ covered_at C (S l).
Proof. intros Hp. change (covered_at C (S l)) with (up_set (covered_at C l)). apply elem_of_map. eauto. Qed.
Lemma covered_child C l q : q ∈ covered_at C (S l) → ∃ p, p ∈ covered_at C l ∧ p / 2 = q.
Proof.
  change (covered_at C (S l)) with (up_set (covered_at C l)). intros (p & -> & Hp)%elem_of_map. eauto.
Qed.
Lemma covered_bound C h l p : (∀ i, i ∈ C → i < 2 ^ h) → l ≤ h → p ∈ covered_at C l → p < 2 ^ (h - l).
Proof.
  intros HC. revert p. induction l as [|l IH]; intros p Hl Hp; [rewrite Nat.sub_0_r; auto|].
  apply covered_child in Hp as (p' & Hp' & <-). apply Nat.Div0.div_lt_upper_bound.
  specialize (IH p' ltac:(lia) Hp'). replace (h - l) with (S (h - S l)) in IH by lia. done.
Qed.
Lemma covered_nonempty C l : C ≠ ∅ → ∃ p, p ∈ covered_at C l.
Proof.
  intros [i Hi]%set_choose_L. induction l as [|l [p Hp]]; [by exists i|]. exists (p / 2). by apply covered_parent.
Qed.
Lemma covered_root C h : C ≠ ∅ → (∀ i, i ∈ C → i < 2 ^ h) → 0 ∈ covered_at C h.
Proof.
  intros HC Hb. destruct (covered_nonempty C h HC) as [p Hp].
  pose proof (covered_bound C h h p Hb ltac:(lia) Hp) as Hlt. rewrite Nat.sub_diag in Hlt. simpl in Hlt.
  by replace 0 with p by lia.
Qed.

(** Both children of a covered position, when one of them and its sibling are known. *)
Lemma pair_hash_child cur p a b : cur !! p = Some a → cur !! sibling p = Some b →
  pair_hash cur (p / 2) = Some (if Nat.even p then combine a b else combine b a).
Proof.
  destruct (sibling_spec p) as (k & -> & [[-> ->]|[-> ->]]); unfold pair_hash; intros -> ->.
  - by rewrite Nat.even_even.
  - by rewrite Nat.even_odd.
Qed.

(** With the right hashes for everything that is needed, the right hashes are recomputed. *)
Lemma W_complete K L C h :
  length L = 2 ^ h → (∀ i, i ∈ C → i < 2 ^ h) →
  (∀ l p v, l < h → K !! (l, p) = Some v → v = H L l p) →
  (∀ l p, l < h → p ∈ covered_at C l → sibling p ∉ covered_at C l → is_Some (K !! (l, sibling p))) →
  (∀ p, p ∈ C → K !! (0, p) = Some (H L 0 p)) →
  ∀ l p, l ≤ h → p ∈ covered_at C l → W K l !! p = Some (H L l p).
Proof.
  intros HL HC Hval Hsib Hleaf. induction l as [|l IH]; intros q Hl Hq.
  { rewrite W_0. by apply Hleaf. }
  pose proof (covered_bound C h (S l) q HC Hl Hq) as Hlt.
  apply covered_child in Hq as (p & Hp & <-).
  assert (∀ p', p' ∈ covered_at C l → V K l !! p' = Some (H L l p')) as HV.
  { intros p' Hp'. rewrite V_lookup. destruct (K !! (l, p')) as [v|] eqn:Hv; [|by apply IH; [lia|]].
    by rewrite (Hval _ _ _ ltac:(exact Hl) Hv). }
  assert (V K l !! sibling p = Some (H L l (sibling p))) as Hs.
  { destruct (decide (sibling p ∈ covered_at C l)) as [Hc|Hc]; [by apply HV|].
    destruct (Hsib l p ltac:(lia) Hp Hc) as [v Hv]. rewrite V_lookup, Hv.
    by rewrite (Hval _ _ _ ltac:(exact Hl) Hv). }
  rewrite W_S, (pair_hash_child _ _ _ _ (HV p Hp) Hs), (H_up L h) by done || lia.
  destruct (sibling_spec p) as (k & -> & [[-> ->]|[-> ->]]).
  - by rewrite Nat.even_even.
  - by rewrite Nat.even_odd.
Qed.

(** Two pairs of hashes that combine to the same hash, at one place of the tree. *)
Definition collision_at K (L : list Z) (l q : nat) : Prop :=
  ∃ a b, V K l !! (2 * q) = Some a ∧ V K l !! (2 * q + 1) = Some b
    ∧ (a, b) ≠ (H L l (2 * q), H L l (2 * q + 1))
    ∧ combine a b = combine (H L l (2 * q)) (H L l (2 * q + 1)).

(** Without such a collision, the right root was computed from the right hashes. *)
Lemma W_sound K L C h :
  length L = 2 ^ h →
  (∀ l p, 0 < l < h → p ∈ covered_at C l → K !! (l, p) = None) →
  W K h !! 0 = Some (H L h 0) →
  (∀ l q, l < h → q < 2 ^ (h - S l) → ¬ collision_at K L l q) →
  ∀ k l, l + k = h → ∀ p, p ∈ covered_at C l → p < 2 ^ (h - l) → W K l !! p = Some (H L l p).
Proof.
  intros HL Hnone Hroot Hcol. induction k as [|k IH]; intros l Hl p Hp Hlp.
  { assert (l = h) as -> by lia. rewrite Nat.sub_diag in Hlp. simpl in Hlp. by replace p with 0 by lia. }
  assert (p / 2 < 2 ^ (h - S l)) as Hlt.
  { apply Nat.Div0.div_lt_upper_bound. replace (h - l) with (S (h - S l)) in Hlp by lia. exact Hlp. }
  pose proof (covered_parent _ _ _ Hp) as Hq. pose proof (IH (S l) ltac:(lia) _ Hq Hlt) as HW. rewrite W_S in HW.
  rewrite (H_up L h) in HW by done || lia. unfold pair_hash in HW.
  destruct (V K l !! (2 * (p / 2))) as [a|] eqn:Ha; [|done].
  destruct (V K l !! (2 * (p / 2) + 1)) as [b|] eqn:Hb; [|done]. apply (inj Some) in HW.
  destruct (decide ((a, b) = (H L l (2 * (p / 2)), H L l (2 * (p / 2) + 1)))) as [Hab|Hab].
  2: { exfalso. apply (Hcol l (p / 2)); [lia|done|]. by exists a, b. }
  apply pair_eq in Hab as [-> ->].
  assert (V K l !! p = Some (H L l p)) as HV.
  { destruct (sibling_spec p) as (j & Hj & [[-> _]|[-> _]]); rewrite Hj in Ha, Hb; done. }
  rewrite V_lookup in HV. destruct (decide (l = 0)) as [->|Hne].
  - rewrite W_0 in *. by destruct (K !! (0, p)).
  - rewrite Hnone in HV; [done|lia|done].
Qed.
End iter.

(** ** Proving and verifying *)
Lemma check_bounds_ok n l : Forall (λ i, i < n) l → check_bounds n l = Ok tt.
Proof. induction 1 as [|i l Hi _ IH]; cbn [check_bounds]; [done|]. by rewrite (proj2 (Nat.leb_gt _ _)). Qed.
Lemma check_duplicates_ok l : NoDup l → check_duplicates l = Ok tt.
Proof.
  induction 1 as [|i l Hi _ IH]; [done|]. cbn [check_duplicates]. destruct l as [|j l]; [done|].
  destruct (Nat.eqb_spec i j) as [->|]; [|done]. destruct Hi. left.
Qed.

Section properties.
Context `{!HashIter nat} `{!HashIter (nat * nat)}.

(** What the verifier knows after reading a proof for a tree of height [h]. *)
Definition given (h : nat) (proof : BatchProof) (items : list bytes) : Known :=
  foldl ins (insert_leaves (leaf_indices proof) items ∅)
    (zip (needed_pos h 0 (list_to_set (leaf_indices proof))) (sibling_hashes proof).*2).

Lemma verify_batch_spec m h proof items :
  tree_size m = Ok (2 ^ h) → length items = length (leaf_indices proof) →
  verify_batch m proof items =
    if length (needed_pos h 0 (list_to_set (leaf_indices proof))) <=? length (sibling_hashes proof) then
      match W (given h proof items) h !! 0 with
      | Some r => Ok (r =? proof_root proof)%Z
      | None => Err InvalidProof
      end
    else Err InvalidProof.
Proof.
  intros Hh Hl. unfold verify_batch. rewrite Hl, Nat.eqb_refl, Hh. cbn [negb outcome_bind].
  rewrite trailing_zeros_pow, pull_levels_spec. by destruct (_ <=? _).
Qed.

Lemma zip_keys {A B} (l : list A) (k : list B) : ∃ n, (zip l k).*1 = take n l.
Proof.
  revert k. induction l as [|a l IH]; intros k; [by exists 0|]. destruct k as [|b k]; [by exists 0|].
  destruct (IH k) as [n Hn]. exists (S n). cbn. by f_equal.
Qed.

Lemma given_other h proof items l p :
  (l, p) ∉ needed_pos h 0 (list_to_set (leaf_indices proof)) →
  given h proof items !! (l, p) = insert_leaves (leaf_indices proof) items ∅ !! (l, p).
Proof.
  intros Hn. unfold given.
  destruct (zip_keys (needed_pos h 0 (list_to_set (leaf_indices proof))) (sibling_hashes proof).*2) as [n Hz].
  apply foldl_ins_lookup; rewrite Hz.
  - eapply sublist_NoDup; [apply NoDup_needed_pos|apply sublist_take].
  - intros Hin. apply Hn. apply list_elem_of_lookup in Hin as [i Hi].
    apply lookup_take_Some in Hi as [Hi _]. by eapply list_elem_of_lookup_2.
Qed.

(** The leaves of the batch. *)
Lemma given_leaf h proof items j i item :
  leaf_indices proof !! j = Some i → i ∉ drop (S j) (leaf_indices proof) → items !! j = Some item →
  given h proof items !! (0, i) = Some (leaf_hash item).
Proof.
  intros Hi Hlast Hit. rewrite given_other; [by eapply insert_leaves_last|].
  intros [_ [Hno _]%elem_of_needed]%elem_of_needed_pos. apply Hno. cbn.
  apply elem_of_list_to_set. by eapply list_elem_of_lookup_2.
Qed.

Lemma given_covered h proof items l p : 0 < l →
  p ∈ covered_at (list_to_set (leaf_indices proof)) l → given h proof items !! (l, p) = None.
Proof.
  intros Hl Hp. rewrite given_other.
  - rewrite insert_leaves_other by lia. apply lookup_empty.
  - intros [_ [Hno _]%elem_of_needed]%elem_of_needed_pos. by rewrite Nat.sub_0_r in Hno.
Qed.

(** The collisions are decidable. *)
Definition collisionb (K : Known) (L : list Z) (l q : nat) : bool :=
  match V K l !! (2 * q), V K l !! (2 * q + 1) with
  | Some a, Some b =>
    bool_decide ((a, b) ≠ (H L l (2 * q), H L l (2 * q + 1)))
    && (combine a b =? combine (H L l (2 * q)) (H L l (2 * q + 1)))%Z
  | _, _ => false
  end.
Lemma collisionb_spec K L l q : collisionb K L l q = true ↔ collision_at K L l q.
Proof.
  unfold collisionb, collision_at. split.
  - destruct (V K l !! (2 * q)) as [a|], (V K l !! (2 * q + 1)) as [b|]; try done.
    intros [Hne%bool_decide_eq_true Heq%Z.eqb_eq]%andb_true_iff. by exists a, b.
  - intros (a & b & -> & -> & Hne & Heq). apply andb_true_iff. split; [by apply bool_decide_eq_true|by apply Z.eqb_eq].
Qed.

Lemma find_collision K L h :
  (∃ l q, l < h ∧ q < 2 ^ (h - S l) ∧ collision_at K L l q)
  ∨ ∀ l q, l < h → q < 2 ^ (h - S l) → ¬ collision_at K L l q.
Proof.
  destruct (existsb (λ l, existsb (collisionb K L l) (seq 0 (2 ^ (h - S l)))) (seq 0 h)) eqn:E.
  - left. apply existsb_exists in E as (l & Hl%in_seq & (q & Hq%in_seq & Hc%collisionb_spec)%existsb_exists).
    exists l, q. split_and!; [lia|lia|done].
  - right. intros l q Hl Hq Hc%collisionb_spec. apply not_true_iff_false in E. apply E.
    apply existsb_exists. exists l. split; [apply in_seq; lia|]. apply existsb_exists. exists q.
    split; [apply in_seq; lia|done].
Qed.

(** Without a collision, an item of an accepted proof hashes to the leaf at its index. *)
Lemma accepted_leaf m h proof items j i item :
  tree_size m = Ok (2 ^ h) → length (leaves m) ≤ 2 ^ h → root m = Ok (proof_root proof) →
  length items = length (leaf_indices proof) → verify_batch m proof items = Ok true →
  (∀ l q, l < h → q < 2 ^ (h - S l) → ¬ collision_at (given h proof items) (leaf_level (leaves m) (2 ^ h)) l q) →
  leaf_indices proof !! j = Some i → i ∉ drop (S j) (leaf_indices proof) → items !! j = Some item → i < 2 ^ h →
  leaf_hash item = nth i (leaves m) 0%Z.
Proof.
  intros Hh Hle Hroot Hlen Hv Hno Hi Hlast Hit Hlt. set (L := leaf_level (leaves m) (2 ^ h)) in *.
  assert (length L = 2 ^ h) as HL by apply length_leaf_level. rewrite (verify_batch_spec m h) in Hv by done.
  destruct (_ <=? _); [|done]. destruct (W (given h proof items) h !! 0) as [r|] eqn:HW; [|done].
  injection Hv as ->%Z.eqb_eq. unfold root in Hroot. rewrite Hh in Hroot. cbn [outcome_bind] in Hroot.
  pose proof (pow_ge h). rewrite (root_loop_ok _ h) in Hroot by (done || lia). fold L in Hroot.
  injection Hroot as Hroot. rewrite <- Hroot in HW.
  assert (i ∈ (list_to_set (leaf_indices proof) : gset nat)) as HiC by (apply elem_of_list_to_set; by eapply list_elem_of_lookup_2).
  pose proof (W_sound _ L _ h HL ltac:(intros; apply given_covered; [lia|done]) HW Hno h 0 ltac:(lia) i HiC
    ltac:(by rewrite Nat.sub_0_r)) as Hw.
  rewrite W_0, (given_leaf h proof items j i item) in Hw by done. injection Hw as ->. unfold H, L. cbn. by apply nth_leaf_level.
Qed.

(** What an honest proof is, and what the verifier makes of it. *)
Lemma prove_batch_spec m h indices :
  tree_size m = Ok (2 ^ h) → NoDup indices → Forall (λ i, i < length (leaves m)) indices →
  let L := leaf_level (leaves m) (2 ^ h) in let sorted := merge_sort (≤)%nat indices in
  prove_batch m indices = Ok (mkBatchProof sorted
    (foldl push [] (entry L <$> needed_pos h 0 (list_to_set sorted))) (H L h 0)).
Proof.
  intros Hh Hnd Hlt L sorted. pose proof (merge_sort_Permutation (≤)%nat indices) as Hp. fold sorted in Hp.
  pose proof (pow_ge h) as Hge. assert (length L = 2 ^ h) as HL by apply length_leaf_level.
  unfold prove_batch. fold sorted. rewrite check_bounds_ok by by rewrite Hp.
  rewrite check_duplicates_ok by by rewrite Hp.
  unfold root, build_tree. rewrite Hh. cbn [outcome_bind]. fold L.
  rewrite (tree_loop_ok _ h) by (done || lia). rewrite (root_loop_ok _ h) by (done || lia).
  cbn [outcome_bind]. do 2 f_equal. rewrite length_map, length_seq.
  replace (S h - 1) with h by lia. rewrite firstn_map, take_seq, Nat.min_l by lia.
  by rewrite prove_levels_spec, entries_at_spec.
Qed.

Lemma given_honest m h data indices : tree_size m = Ok (2 ^ h) → leaves m = leaf_hash <$> data →
  length data ≤ 2 ^ h → NoDup indices → Forall (λ i, i < length data) indices →
  let L := leaf_level (leaves m) (2 ^ h) in let C := list_to_set indices in
  let K := given h (mkBatchProof indices (entry L <$> needed_pos h 0 C) (H L h 0)) ((λ i, nth i data []) <$> indices) in
  (∀ p, p ∈ C → K !! (0, p) = Some (H L 0 p)) ∧
  (∀ l p, (l, p) ∈ needed_pos h 0 C → K !! (l, p) = Some (H L l p)) ∧
  (∀ l p v, K !! (l, p) = Some v → v = H L l p).
Proof.
  intros Hh Hm Hd Hnd Hlt L C K.
  assert (∀ p, p ∈ C → K !! (0, p) = Some (H L 0 p)) as Hleaf.
  { intros p [j Hj]%elem_of_list_to_set%list_elem_of_lookup. unfold K.
    rewrite (given_leaf _ _ _ j p (nth p data [])) by (done || by apply NoDup_last_index || by rewrite list_lookup_fmap, Hj).
    f_equal. change (H L 0 p) with (nth p L 0%Z). unfold L. rewrite nth_leaf_level, Hm by (by rewrite Hm, length_fmap).
    rewrite Forall_lookup in Hlt. specialize (Hlt j p Hj).
    rewrite (nth_indep _ 0%Z (leaf_hash [])) by (by rewrite length_fmap). symmetry. apply map_nth. }
  assert (∀ l p, (l, p) ∈ needed_pos h 0 C → K !! (l, p) = Some (H L l p)) as Hneed.
  { intros l p Hlp. unfold K, given. apply foldl_ins_lookup.
    - cbn [sibling_hashes leaf_indices]. fold C.
      destruct (zip_keys (needed_pos h 0 C) (entry L <$> needed_pos h 0 C).*2) as [n ->].
      eapply sublist_NoDup; [apply NoDup_needed_pos|apply sublist_take].
    - cbn [sibling_hashes leaf_indices]. apply list_elem_of_lookup in Hlp as [i Hi].
      apply list_elem_of_lookup. exists i. fold C. by rewrite lookup_zip_with, Hi, !list_lookup_fmap, Hi. }
  split_and!; [done|done|]. intros l p v Hv.
  destruct (decide ((l, p) ∈ needed_pos h 0 C)) as [Hin|Hin]; [by rewrite Hneed in Hv; simplify_eq|].
  destruct (decide (l = 0)) as [->|Hl].
  - destruct (decide (p ∈ C)) as [Hp|Hp]; [by rewrite Hleaf in Hv; simplify_eq|].
    unfold K in Hv. rewrite given_other in Hv by done. cbn [leaf_indices] in Hv.
    destruct (insert_leaves_lookup indices ((λ i, nth i data []) <$> indices) ∅ p Hnd) as (_ & Hno & _).
    rewrite Hno, lookup_empty in Hv; [done|]. by intros Hin'%(elem_of_list_to_set (C := gset nat)).
  - unfold K in Hv. rewrite given_other in Hv by done. cbn [leaf_indices] in Hv.
    destruct (insert_leaves_lookup indices ((λ i, nth i data []) <$> indices) ∅ p Hnd) as (_ & _ & Hno).
    by rewrite Hno, lookup_empty in Hv.
Qed.

(** C13. Completeness, exactly: proving a batch of leaves of a tree succeeds for every list of
    distinct indices within bounds, and the proof of a non-empty batch is accepted for the data of
    those leaves if and only if the hashes it needs are pairwise distinct at every level.  When two
    siblings of one level have equal hashes, the prover sends their hash once, and the verifier
    runs out of hashes and reports an invalid proof. *)
Theorem merkle_batch_complete data indices
  (Hdata : data ≠ []) (Hne : indices ≠ []) (Hnd : NoDup indices)
  (Hlt : Forall (λ i, i < length data) indices) :
  ∃ m h proof, MerkleBatchProver_new data = Ok m ∧ tree_size m = Ok (2 ^ h)
    ∧ prove_batch m indices = Ok proof
    ∧ leaf_indices proof = merge_sort (≤)%nat indices
    ∧ root m = Ok (proof_root proof)
    ∧ let items := (λ i, nth i data []) <$> leaf_indices proof in
      let hashes := entry (leaf_level (leaves m) (2 ^ h)) <$> needed_pos h 0 (list_to_set (leaf_indices proof)) in
      verify_batch m proof items = if decide (NoDup hashes) then Ok true else Err InvalidProof.
Proof.
  set (m := mkProver (leaf_hash <$> data)). destruct (tree_size_ok m) as (h & Hh & Hle).
  assert (leaves m = leaf_hash <$> data) as Hm by done. rewrite Hm, length_fmap in Hle.
  set (L := leaf_level (leaves m) (2 ^ h)). set (sorted := merge_sort (≤)%nat indices).
  pose proof (merge_sort_Permutation (≤)%nat indices : sorted ≡ₚ indices) as Hp.
  pose proof (pow_ge h). assert (length L = 2 ^ h) as HL by apply length_leaf_level.
  eexists m, h, _. split; [by destruct data|]. split; [done|].
  split; [apply prove_batch_spec; [done|done|by rewrite Hm, length_fmap]|]. split; [done|].
  split; [unfold root; rewrite Hh; cbn [outcome_bind]; apply root_loop_ok; [done|lia]|].
  intros items hashes. cbn [leaf_indices] in items, hashes. fold sorted L in items, hashes. fold sorted L. fold hashes.
  rewrite (verify_batch_spec m h); [|done|by unfold items; rewrite length_fmap].
  cbn [leaf_indices sibling_hashes proof_root]. set (C := list_to_set sorted : gset nat) in *.
  assert (length hashes = length (needed_pos h 0 C)) as Hlen by (unfold hashes; by rewrite length_fmap).
  case_decide as Hdis.
  - rewrite (foldl_push_NoDup [] hashes) by done. cbn [app]. rewrite Hlen, Nat.leb_refl.
    assert (NoDup sorted) as Hnd' by by rewrite Hp.
    assert (Forall (λ i, i < length data) sorted) as Hlt' by by rewrite Hp.
    destruct (given_honest m h data sorted Hh Hm Hle Hnd' Hlt') as (Hleaf & Hneed & Hval).
    assert (∀ i, i ∈ C → i < 2 ^ h) as HC.
    { intros i Hi%elem_of_list_to_set. rewrite Hp in Hi. rewrite Forall_forall in Hlt. specialize (Hlt i Hi). lia. }
    rewrite (W_complete _ L C h HL HC); [by rewrite Z.eqb_refl|by intros; eapply Hval| |done|lia|].
    + intros l p Hl Hpc Hs. eexists. apply Hneed, elem_of_needed_pos. rewrite Nat.sub_0_r.
      split; [lia|]. apply elem_of_needed. eauto.
    + apply covered_root; [|done]. intros HC0. destruct indices as [|i indices]; [done|].
      assert (i ∈ C) as Hi by (apply elem_of_list_to_set; rewrite Hp; left). rewrite HC0 in Hi. set_solver.
  - destruct (foldl_push_length [] hashes) as [Hl1 Hl2]. destruct (Nat.leb_spec (length (needed_pos h 0 C)) (length (foldl push [] hashes))) as [Hl|Hl]; [|done].
    destruct Hdis. apply Hl2; [|constructor]. cbn in *. lia.
Qed.

(** C11. Soundness of every accepted proof, whatever its indices: when the verifier of the tree over
    [data] accepts a proof whose root is the root of the tree, there are as many items as indices, and
    the last item given for each index is the data of that leaf, or another with the same leaf hash
    (an item given for a place of the padding hashes to zero); or else at some place of the tree two
    different pairs of hashes were combined to the same hash, the pair the verifier had there and the
    pair of the tree.  Nothing is claimed of an item whose index occurs again later or lies outside
    the padded tree: the verifier does not look at those. *)
Theorem merkle_batch_sound data m proof items
  (Hm : MerkleBatchProver_new data = Ok m)
  (Hroot : root m = Ok (proof_root proof))
  (Hv : verify_batch m proof items = Ok true) :
  length items = length (leaf_indices proof) ∧
  ((∀ j i item, leaf_indices proof !! j = Some i → i ∉ drop (S j) (leaf_indices proof) → items !! j = Some item →
      match data !! i with
      | Some d => item = d ∨ item ≠ d ∧ leaf_hash item = leaf_hash d
      | None => ∀ size, tree_size m = Ok size → i < size → leaf_hash item = 0%Z
      end)
   ∨ ∃ h l q, tree_size m = Ok (2 ^ h) ∧ l < h ∧ q < 2 ^ (h - S l)
      ∧ collision_at (given h proof items) (leaf_level (leaves m) (2 ^ h)) l q).
Proof.
  destruct (tree_size_ok m) as (h & Hh & Hle).
  assert (leaves m = leaf_hash <$> data) as Hlv by (destruct data; [done|by injection Hm as <-]).
  assert (length items = length (leaf_indices proof)) as Hlen.
  { unfold verify_batch in Hv. destruct (Nat.eqb_spec (length items) (length (leaf_indices proof))); [done|].
    cbn in Hv. done. }
  split; [done|].
  destruct (find_collision (given h proof items) (leaf_level (leaves m) (2 ^ h)) h) as [(l & q & Hl & Hq & Hc)|Hno];
    [right; by exists h, l, q|left].
  intros j i item Hi Hlast Hit.
  assert (i < 2 ^ h → leaf_hash item = nth i (leaves m) 0%Z) as Hleaf by by eapply accepted_leaf.
  destruct (data !! i) as [d|] eqn:Hd.
  - destruct (decide (item = d)) as [|Hne]; [by left|right]. split; [done|].
    rewrite Hleaf, Hlv by (apply lookup_lt_Some in Hd; rewrite Hlv, length_fmap in Hle; lia).
    rewrite nth_lookup, list_lookup_fmap. by rewrite Hd.
  - intros size Hs Hlt. rewrite Hh in Hs. injection Hs as <-. rewrite Hleaf, Hlv by done.
    rewrite nth_lookup, list_lookup_fmap. by rewrite Hd.
Qed.
End properties.

(** ** Witnesses *)
#[local] Instance demo_nat_iter : HashIter nat := default_iter nat.
#[local] Instance demo_pair_iter : HashIter (nat * nat) := default_iter (nat * nat).
Definition demo_data : list bytes := [[1]; [2]; [3]; [4]; [5]]%Z.

Lemma merkle_batch_complete_witness :
  ∃ m h proof, MerkleBatchProver_new demo_data = Ok m ∧ tree_size m = Ok (2 ^ h)
    ∧ prove_batch m [4; 1] = Ok proof
    ∧ leaf_indices proof = merge_sort (≤)%nat [4; 1]
    ∧ root m = Ok (proof_root proof)
    ∧ let items := (λ i, nth i demo_data []) <$> leaf_indices proof in
      let hashes := entry (leaf_level (leaves m) (2 ^ h)) <$> needed_pos h 0 (list_to_set (leaf_indices proof)) in
      verify_batch m proof items = if decide (NoDup hashes) then Ok true else Err InvalidProof.
Proof.
  apply (merkle_batch_complete demo_data [4; 1]); [done|done| |].
  - apply NoDup_cons. split; [|apply NoDup_singleton]. by intros ?%list_elem_of_singleton.
  - repeat constructor; simpl; lia.
Defined.

(** Both outcomes occur: a batch whose proof is accepted, and one whose proof is not, because
    the siblings of both its leaves hold the same data. *)
Definition run_batch (data : list bytes) (indices : list nat) : outcome MerkleError bool :=
  let! m := MerkleBatchProver_new data in
  let! proof := prove_batch m indices in
  verify_batch m proof ((λ i, nth i data []) <$> leaf_indices proof).
Example honest_proofs :
  run_batch demo_data [4; 1] = Ok true ∧ run_batch [[1]; [9]; [2]; [9]]%Z [0; 2] = Err InvalidProof.
Proof. split; vm_compute; reflexivity. Qed.

Definition demo_prover : MerkleBatchProver := mkProver (leaf_hash <$> demo_data).
Definition demo_proof : BatchProof :=
  match prove_batch demo_prover [4; 1] with Ok p => p | _ => mkBatchProof [] [] 0%Z end.

Lemma merkle_batch_sound_witness : length [[2]; [5]]%Z = length (leaf_indices demo_proof) ∧
  ((∀ j i item, leaf_indices demo_proof !! j = Some i → i ∉ drop (S j) (leaf_indices demo_proof) →
      [[2]; [5]]%Z !! j = Some item →
      match demo_data !! i with
      | Some d => item = d ∨ item ≠ d ∧ leaf_hash item = leaf_hash d
      | None => ∀ size, tree_size demo_prover = Ok size → i < size → leaf_hash item = 0%Z
      end)
   ∨ ∃ h l q, tree_size demo_prover = Ok (2 ^ h) ∧ l < h ∧ q < 2 ^ (h - S l)
      ∧ collision_at (given h demo_proof [[2]; [5]]%Z) (leaf_level (leaves demo_prover) (2 ^ h)) l q).
Proof. apply (merkle_batch_sound demo_data demo_prover demo_proof [[2]; [5]]%Z); vm_compute; reflexivity. Defined.

(** What the theorem leaves out is accepted: in a tree of five leaves a proof of leaf 1 is accepted
    together with any item claimed to be leaf 20, with any hashes for the siblings of that position, and
    with any item claimed to be leaf 1 before the right one. *)
Example out_of_range_accepted :
  match prove_batch demo_prover [1] with
  | Ok (mkBatchProof _ [s0; s1; s2] r) =>
    verify_batch demo_prover (mkBatchProof [1; 20] [s0; (0, 0%Z); s1; (1, 0%Z); s2; (2, 0%Z)] r) [[2]; [99]]%Z = Ok true
    ∧ verify_batch demo_prover (mkBatchProof [1; 1] [s0; s1; s2] r) [[99]; [2]]%Z = Ok true
  | _ => False
  end.
Proof. split; vm_compute; reflexivity. Qed.
