(* ===== verification/Erasure.v ===== *)
(** * Erasure coding: [crates/ipfrs-transport/src/erasure.rs]

    [SimpleErasureEncoder] pads a block, cuts it into data shards of equal size and adds parity
    shards, each the XOR of the data shards times a weight; [ErasureManager] adds a cache of
    metadata.  Counts and sizes are [usize]s, so [Z]; the sums and products wrap as in a release
    build.  Encodings of the metadata by [serde] are left out. *)

From Stdlib Require Import ZArith Lia List Sorted.
From stdpp Require Import base tactics numbers list gmap sets strings sorting.
From S2P Require Import Prelude Collections Cid Ipld.

#[local] Open Scope Z_scope.

(** [ErasureError], less the messages. *)
Inductive ErasureError : Type :=
| InvalidParams
| InsufficientShards (have need : Z)
| ShardSizeMismatch (expected got : Z)
| InvalidShardIndex (index : Z)
| EncodingFailed
| DecodingFailed.

Record ErasureConfig : Type := mkErasureConfig { data_shards : Z; parity_shards : Z }.

Definition ErasureConfig_new (data_shards parity_shards : Z) : outcome ErasureError ErasureConfig :=
  if data_shards =? 0 then Err InvalidParams
  else if parity_shards =? 0 then Err InvalidParams
  else if 256 <? as_u64 (data_shards + parity_shards) then Err InvalidParams
  else Ok (mkErasureConfig data_shards parity_shards).

Definition total_shards (c : ErasureConfig) : Z := as_u64 (data_shards c + parity_shards c).
Definition min_shards_for_recovery (c : ErasureConfig) : Z := data_shards c.
Definition max_failures (c : ErasureConfig) : Z := parity_shards c.

Record Shard : Type := mkShard { shard_index : Z; shard_data : bytes; is_parity : bool }.
Definition shard_size (s : Shard) : Z := zlen (shard_data s).

(** ** The encoder *)
(** [data.len().div_ceil(n)] panics on zero. *)
Definition div_ceil (a n : Z) : outcome ErasureError Z :=
  if n =? 0 then Panic else Ok (if a mod n =? 0 then a / n else a / n + 1).

(** [Vec::resize(size, 0)] truncates, or extends and panics on a capacity overflow. *)
Definition resize (l : bytes) (size : Z) : outcome ErasureError bytes :=
  if size <=? zlen l then Ok (take (Z.to_nat size) l)
  else if isize_max <? size then Panic
  else Ok (l ++ replicate (Z.to_nat (size - zlen l)) 0).

Definition slice (l : bytes) (start stop : Z) : outcome ErasureError bytes :=
  if (start <=? stop) && (stop <=? zlen l) then Ok (take (Z.to_nat (stop - start)) (drop (Z.to_nat start) l))
  else Panic.

Fixpoint data_loop (n : nat) (i size : Z) (padded : bytes) : outcome ErasureError (list Shard) :=
  match n with
  | O => Ok []
  | S n' =>
    let start := as_u64 (i * size) in
    let! d := slice padded start (as_u64 (start + size)) in
    let! l := data_loop n' (i + 1) size padded in
    Ok (mkShard i d false :: l)
  end.

(** [parity_data[j] ^= byte.wrapping_mul(weight)] for every byte of a shard. *)
Fixpoint xor_into (parity data : bytes) (weight : Z) : outcome ErasureError bytes :=
  match data with
  | [] => Ok parity
  | byte :: data' =>
    match parity with
    | [] => Panic
    | p :: parity' =>
      let! l := xor_into parity' data' weight in
      Ok (Z.lxor p ((byte * weight) mod 256) :: l)
    end
  end.

Fixpoint parity_of (shards : list Shard) (i p : Z) (parity : bytes) : outcome ErasureError bytes :=
  match shards with
  | [] => Ok parity
  | s :: shards' =>
    let weight := (i + p + 1) mod 256 in
    let! parity := xor_into parity (shard_data s) weight in
    parity_of shards' (i + 1) p parity
  end.

Fixpoint parity_loop (n : nat) (p : Z) (c : ErasureConfig) (size : Z) (shards : list Shard) :
    outcome ErasureError (list Shard) :=
  match n with
  | O => Ok shards
  | S n' =>
    let! parity := parity_of (take (Z.to_nat (data_shards c)) shards) 0 p (replicate (Z.to_nat size) 0) in
    parity_loop n' (p + 1) c size (shards ++ [mkShard (as_u64 (data_shards c + p)) parity true])
  end.

Definition encode (c : ErasureConfig) (data : bytes) : outcome ErasureError (list Shard) :=
  let! size := div_ceil (zlen data) (data_shards c) in
  let padded_size := as_u64 (size * data_shards c) in
  let! padded := resize data padded_size in
  let! shards := data_loop (Z.to_nat (data_shards c)) 0 size padded in
  parity_loop (Z.to_nat (parity_shards c)) 0 c size shards.

(** ** The decoder *)
Fixpoint check_sizes (expected : Z) (shards : list Shard) : outcome ErasureError unit :=
  match shards with
  | [] => Ok tt
  | s :: shards' =>
    if negb (shard_size s =? expected) then Err (ShardSizeMismatch expected (shard_size s))
    else check_sizes expected shards'
  end.

Definition sort_by_index (l : list Shard) : list Shard :=
  sort_by (λ s t, shard_index s <? shard_index t) l.

Definition decode (c : ErasureConfig) (shards : list Shard) (original_size : Z) : outcome ErasureError bytes :=
  if zlen shards <? data_shards c then Err (InsufficientShards (zlen shards) (data_shards c)) else
  let! _ := match shards with [] => Ok tt | s :: _ => check_sizes (shard_size s) shards end in
  let ds := filter (λ s, is_parity s = false) shards in
  let ps := filter (λ s, is_parity s = true) shards in
  if zlen ds =? data_shards c then
    match ds with
    | [] => Panic
    | _ => Ok (take (Z.to_nat original_size) (concat (map shard_data (sort_by_index ds))))
    end
  else if zlen ds + zlen ps <? data_shards c then
    Err (InsufficientShards (zlen ds + zlen ps) (data_shards c))
  else if zlen ds + zlen ps =? data_shards c then Err DecodingFailed
  else Ok [].

(** ** The manager *)
Section manager.
Context `{CidCrate}.

Record ErasureMetadata : Type := mkErasureMetadata {
  original_cid : Cid;
  original_size : Z;
  meta_config : ErasureConfig;
  meta_shard_size : Z;
  shard_cids : list Cid;
}.
Definition meta_total_shards (m : ErasureMetadata) : Z := total_shards (meta_config m).
Definition meta_can_recover (m : ErasureMetadata) (available_shards : Z) : bool :=
  min_shards_for_recovery (meta_config m) <=? available_shards.

Record ErasureManager : Type := mkErasureManager {
  encoder : ErasureConfig;
  metadata_cache : gmap Cid ErasureMetadata;
}.
Definition ErasureManager_new (c : ErasureConfig) : ErasureManager := mkErasureManager c ∅.
Definition encode_block (_ : Cid) (data : bytes) (m : ErasureManager) : outcome ErasureError (list Shard) :=
  encode (encoder m) data.
Definition decode_shards (m : ErasureManager) (shards : list Shard) (original_size : Z) :
    outcome ErasureError bytes :=
  decode (encoder m) shards original_size.
Definition store_metadata (md : ErasureMetadata) (m : ErasureManager) : ErasureManager :=
  mkErasureManager (encoder m) (<[original_cid md := md]> (metadata_cache m)).
Definition get_metadata (m : ErasureManager) (cid : Cid) : option ErasureMetadata := metadata_cache m !! cid.
Definition can_recover (m : ErasureManager) (cid : Cid) (available_shards : Z) : bool :=
  match get_metadata m cid with
  | Some md => meta_can_recover md available_shards
  | None => false
  end.
End manager.
