(* ===== verification/ErasureFacts.v ===== *)
(** * Erasure coding: what can be decoded

    A block is given back from its data shards, in whatever order and with whatever parity shards
    they arrive.  Without one of the data shards nothing is ever recovered. *)

From Stdlib Require Import ZArith Lia List Sorted.
From stdpp Require Import base tactics numbers list gmap sets strings sorting.
From S2P Require Import Prelude Collections Cid Ipld Erasure.

#[local] Open Scope Z_scope.

Definition config_ok (c : ErasureConfig) : Prop :=
  0 < data_shards c ∧ 0 < parity_shards c ∧ data_shards c + parity_shards c <= 256.

Lemma div_ceil_ok a n : 0 <= a → 0 < n → ∃ q, div_ceil a n = Ok q ∧ 0 <= q ∧ a <= q * n < a + n.
Proof.
  intros Ha Hn. unfold div_ceil. rewrite (proj2 (Z.eqb_neq n 0)) by lia. eexists. split; [done|].
  pose proof (Z.div_mod a n ltac:(lia)). pose proof (Z.mod_pos_bound a n Hn).
  pose proof (Z.div_pos a n Ha Hn). destruct (Z.eqb_spec (a mod n) 0); split; nia.
Qed.

Lemma resize_ok (l : bytes) size : zlen l <= size <= isize_max →
  resize l size = Ok (l ++ replicate (Z.to_nat (size - zlen l)) 0).
Proof.
  intros Hl. unfold resize. destruct (Z.leb_spec size (zlen l)).
  - replace (size - zlen l) with 0 by lia. rewrite app_nil_r. f_equal. apply take_ge. unfold zlen in *. lia.
  - destruct (Z.ltb_spec isize_max size); [lia|done].
Qed.

(** ** Data shards *)
Definition is_data (s : Shard) : Prop := is_parity s = false.
Definition sized (size : Z) (s : Shard) : Prop := shard_size s = size.

Definition indices (n : nat) (i : Z) : list Z := (λ k, i + Z.of_nat k) <$> seq 0 n.

Lemma indices_S n i : indices (S n) i = i :: indices n (i + 1).
Proof.
  unfold indices. cbn [seq fmap list_fmap]. f_equal; [lia|]. rewrite <- fmap_S_seq, <- list_fmap_compose.
  apply list_fmap_ext. intros ? k _. simpl. lia.
Qed.

Lemma data_loop_ok n i size padded :
  0 <= i → 0 <= size → (i + Z.of_nat n) * size <= zlen padded → zlen padded <= isize_max →
  ∃ l, data_loop n i size padded = Ok l ∧ shard_index <$> l = indices n i
    ∧ Forall (λ s, is_data s ∧ sized size s) l
    ∧ concat (map shard_data l) = take (n * Z.to_nat size) (drop (Z.to_nat (i * size)) padded).
Proof.
  revert i. induction n as [|n IH]; intros i Hi Hs Hlen Hmax; cbn [data_loop].
  { exists []. split_and!; try done. }
  unfold isize_max in *. rewrite !as_u64_small by nia.
  unfold slice. rewrite (proj2 (Z.leb_le (i * size) _)), (proj2 (Z.leb_le _ (zlen padded))) by nia.
  cbn [andb outcome_bind]. destruct (IH (i + 1)) as (l & -> & Hidx & Hall & Hcat); [lia..|nia|lia|].
  cbn [outcome_bind]. eexists. split; [done|]. rewrite indices_S, fmap_cons, Hidx.
  replace (i * size + size - i * size) with size by lia. split; [done|]. split.
  - constructor; [|done]. split; [done|]. unfold sized, shard_size, zlen in *. cbn [shard_data].
    rewrite length_take, length_drop. nia.
  - cbn [map concat shard_data]. rewrite Hcat.
    replace (Z.to_nat ((i + 1) * size)) with (Z.to_nat (i * size) + Z.to_nat size)%nat by nia.
    by rewrite <- drop_drop, take_take_drop.
Qed.

(** ** Parity shards *)
Lemma xor_into_ok parity data w : length data = length parity →
  ∃ l, xor_into parity data w = Ok l ∧ length l = length parity.
Proof.
  revert data. induction parity as [|p parity IH]; intros [|b data] Hl; try done; [by exists []|].
  cbn [xor_into]. destruct (IH data) as (l & -> & Hl'); [by injection Hl|]. cbn [outcome_bind].
  eexists. split; [done|]. simpl. by f_equal.
Qed.

Lemma parity_of_ok size shards i p parity :
  Forall (sized size) shards → zlen parity = size →
  ∃ l, parity_of shards i p parity = Ok l ∧ zlen l = size.
Proof.
  intros Hall. revert i parity. induction Hall as [|s shards Hs _ IH]; intros i parity Hp; cbn [parity_of].
  { by exists parity. }
  destruct (xor_into_ok parity (shard_data s) ((i + p + 1) mod 256)) as (l & -> & Hl).
  { unfold sized, shard_size, zlen in *. lia. }
  cbn [outcome_bind]. apply IH. unfold zlen in *. lia.
Qed.

Lemma parity_loop_ok n p c size ds ps :
  0 <= size → zlen ds = data_shards c → Forall (sized size) ds →
  ∃ qs, parity_loop n p c size (ds ++ ps) = Ok (ds ++ ps ++ qs) ∧ length qs = n
    ∧ Forall (λ s, is_parity s = true ∧ sized size s) qs.
Proof.
  intros Hs Hd Hall. revert p ps. induction n as [|n IH]; intros p ps; cbn [parity_loop].
  { exists []. by rewrite app_nil_r. }
  rewrite take_app_length' by (unfold zlen in Hd; lia).
  destruct (parity_of_ok size ds 0 p (replicate (Z.to_nat size) 0) Hall) as (l & -> & Hl).
  { unfold zlen. rewrite length_replicate. lia. }
  cbn [outcome_bind]. rewrite <- app_assoc.
  destruct (IH (p + 1) (ps ++ [mkShard (as_u64 (data_shards c + p)) l true])) as (qs & -> & Hn & Hqs).
  eexists (_ :: qs). rewrite <- app_assoc. split; [done|]. simpl. split; [by rewrite Hn|]. constructor; [|done]. done.
Qed.

(** ** Encoding *)
Lemma erasure_encode_ok c (data : bytes) : config_ok c → zlen data + 256 <= isize_max →
  ∃ size ds ps, encode c data = Ok (ds ++ ps) ∧ 0 <= size
    ∧ shard_index <$> ds = indices (Z.to_nat (data_shards c)) 0
    ∧ Forall (λ s, is_data s ∧ sized size s) ds
    ∧ length ps = Z.to_nat (parity_shards c)
    ∧ Forall (λ s, is_parity s = true ∧ sized size s) ps
    ∧ take (Z.to_nat (zlen data)) (concat (map shard_data ds)) = data.
Proof.
  intros (Hd & Hp & Hmax) Hlen. pose proof (Zle_0_nat (length data) : 0 <= zlen data) as Hpos.
  destruct (div_ceil_ok (zlen data) (data_shards c) Hpos Hd) as (size & Hsz & Hs0 & Hs).
  unfold encode. rewrite Hsz. cbn [outcome_bind]. unfold isize_max in Hlen.
  rewrite as_u64_small by lia. rewrite resize_ok by (unfold isize_max; lia). cbn [outcome_bind].
  set (padded := data ++ replicate (Z.to_nat (size * data_shards c - zlen data)) 0).
  assert (zlen padded = size * data_shards c) as Hpl.
  { unfold padded. rewrite zlen_app. unfold zlen at 2. rewrite length_replicate. lia. }
  destruct (data_loop_ok (Z.to_nat (data_shards c)) 0 size padded) as (ds & -> & Hidx & Hall & Hcat);
    [lia|lia|lia|unfold isize_max; lia|].
  cbn [outcome_bind].
  assert (zlen ds = data_shards c) as Hdl.
  { apply (f_equal length) in Hidx. unfold indices in Hidx. rewrite !length_fmap, length_seq in Hidx. unfold zlen. lia. }
  destruct (parity_loop_ok (Z.to_nat (parity_shards c)) 0 c size ds []) as (ps & Hps & Hn & Hpall).
  { done. } { done. } { eapply Forall_impl; [exact Hall|]. by intros s []. }
  rewrite app_nil_r in Hps. cbn [app] in Hps.
  exists size, ds, ps. split_and!; [done..|]. rewrite Hcat. cbn [Z.mul Z.to_nat]. rewrite drop_0.
  rewrite (take_ge padded) by (unfold zlen in Hpl; nia). unfold padded.
  rewrite take_app_le by (unfold zlen; lia). apply take_ge. unfold zlen. lia.
Qed.

(** ** Decoding *)
Lemma check_sizes_ok size l : Forall (sized size) l → check_sizes size l = Ok tt.
Proof.
  induction 1 as [|s l Hs _ IH]; cbn [check_sizes]; [done|]. unfold sized in Hs.
  by rewrite Hs, Z.eqb_refl.
Qed.

Definition index_le (s t : Shard) : Prop := shard_index s <= shard_index t.
#[local] Instance index_le_trans : Transitive index_le.
Proof. intros s t u. unfold index_le. lia. Qed.

Lemma sort_by_index_spec l : sort_by_index l ≡ₚ l ∧ StronglySorted index_le (sort_by_index l).
Proof.
  apply (sort_by_spec _ index_le); intros s t; unfold index_le.
  - intros ?%Z.ltb_lt. lia.
  - intros ?%Z.ltb_ge. lia.
Qed.

Lemma indices_sorted n i : StronglySorted Z.lt (indices n i).
Proof.
  revert i. induction n as [|n IH]; intros i; [constructor|]. rewrite indices_S. constructor; [apply IH|].
  apply Forall_fmap, Forall_forall. intros k _. simpl. lia.
Qed.

Lemma sorted_by_index n i ds : shard_index <$> ds = indices n i → StronglySorted index_le ds
  ∧ ∀ s t, s ∈ ds → t ∈ ds → shard_index s = shard_index t → s = t.
Proof.
  revert i. induction ds as [|s ds IH] in n |- *; intros i Hi.
  { split; [constructor|]. by intros ? ? ?%not_elem_of_nil. }
  destruct n as [|n]; [done|]. rewrite indices_S in Hi. injection Hi as Hs Hi.
  destruct (IH n (i + 1) Hi) as [Hsort Hinj].
  assert (∀ t, t ∈ ds → shard_index s < shard_index t) as Hlt.
  { intros t Ht. assert (shard_index t ∈ indices n (i + 1)) as Hin by (rewrite <- Hi; by apply list_elem_of_fmap_2).
    unfold indices in Hin. apply list_elem_of_fmap in Hin as (k & -> & _). lia. }
  split.
  - constructor; [done|]. apply Forall_forall. intros t Ht. unfold index_le. specialize (Hlt t Ht). lia.
  - intros t u [->|Ht]%elem_of_cons [->|Hu]%elem_of_cons Heq; [done| | |by apply Hinj].
    + specialize (Hlt u Hu). lia.
    + specialize (Hlt t Ht). lia.
Qed.

Lemma sort_received n ds l : shard_index <$> ds = indices n 0 → l ≡ₚ ds → sort_by_index l = ds.
Proof.
  intros Hi Hl. destruct (sorted_by_index n 0 ds Hi) as [Hs Hinj]. destruct (sort_by_index_spec l) as [Hp Hs'].
  apply (StronglySorted_unique_strong index_le); [|done|done|by rewrite Hp].
  intros s t Hs1 Ht1 Hle1 Hle2. apply Hinj; [|done|unfold index_le in *; lia]. by rewrite <- Hl, <- Hp.
Qed.

Lemma filter_submseteq {A} (P : A → Prop) `{!∀ x, Decision (P x)} l k :
  l ⊆+ k → filter P l ⊆+ filter P k.
Proof.
  induction 1 as [|x l k _ IH|x y l|x l k _ IH|l k m _ IH1 _ IH2]; rewrite ?filter_cons.
  - constructor.
  - case_decide; [by constructor|done].
  - repeat case_decide; try done. constructor.
  - case_decide; [by constructor|done].
  - by etrans.
Qed.

(** The data and the parity shards among received shards. *)
Lemma filter_data ds ps : Forall is_data ds → Forall (λ s, is_parity s = true) ps →
  filter (λ s, is_parity s = false) (ds ++ ps) = ds ∧ filter (λ s, is_parity s = true) (ds ++ ps) = ps.
Proof.
  intros Hd Hp. rewrite !filter_app. split.
  - rewrite (proj1 (filter_is _ ds) Hd). rewrite (proj2 (filter_is _ ps)); [by rewrite app_nil_r|].
    eapply Forall_impl; [exact Hp|]. intros s ->. done.
  - rewrite (proj1 (filter_is _ ps) Hp). rewrite (proj2 (filter_is _ ds)); [done|].
    eapply Forall_impl; [exact Hd|]. intros s ->. done.
Qed.

Lemma length_filter_split l :
  (length (filter (λ s, is_parity s = false) l) + length (filter (λ s, is_parity s = true) l))%nat = length l.
Proof.
  induction l as [|s l IH]; [done|]. rewrite !filter_cons. simpl.
  destruct (is_parity s); repeat case_decide; simpl; try done; lia.
Qed.

(** What a received set of shards is checked for first. *)
Lemma decode_sizes c received size n :
  data_shards c <= zlen received → Forall (sized size) received →
  decode c received n =
    let ds := filter (λ s, is_parity s = false) received in
    if zlen ds =? data_shards c then
      match ds with [] => Panic | _ => Ok (take (Z.to_nat n) (concat (map shard_data (sort_by_index ds)))) end
    else if zlen received =? data_shards c then Err DecodingFailed else Ok [].
Proof.
  intros Hlen Hall. unfold decode. destruct (Z.ltb_spec (zlen received) (data_shards c)); [lia|].
  assert (match received with [] => Ok () | s :: _ => check_sizes (shard_size s) received end = Ok ()) as ->.
  { destruct received as [|s l]; [done|]. pose proof (Forall_inv Hall) as Hs. unfold sized in Hs.
    rewrite Hs. by apply check_sizes_ok. }
  cbn [outcome_bind]. pose proof (length_filter_split received) as Hsplit.
  replace (zlen (filter (λ s, is_parity s = false) received) + zlen (filter (λ s, is_parity s = true) received))
    with (zlen received) by (unfold zlen; lia).
  cbv zeta. destruct (zlen (filter _ received) =? data_shards c); [done|].
  destruct (Z.ltb_spec (zlen received) (data_shards c)); [lia|done].
Qed.

(** C38. A block comes back from its data shards: encoding with a usable configuration yields the
    announced numbers of data and parity shards, and decoding any collection of the data shards, in
    any order and mixed with any of the parity shards, gives the block back, padding removed. *)
Theorem erasure_roundtrip c (data : bytes) (Hc : config_ok c) (Hdata : zlen data + 256 <= isize_max) :
  ∃ ds ps, encode c data = Ok (ds ++ ps) ∧ zlen ds = data_shards c ∧ zlen ps = parity_shards c
    ∧ Forall is_data ds ∧ Forall (λ s, is_parity s = true) ps
    ∧ ∀ received qs, received ≡ₚ ds ++ qs → (∀ q, q ∈ qs → q ∈ ps) →
        decode c received (zlen data) = Ok data.
Proof.
  destruct (erasure_encode_ok c data Hc Hdata) as (size & ds & ps & Henc & Hs & Hidx & Hds & Hnp & Hps & Hcat).
  destruct Hc as (Hd & Hp & Hmax).
  assert (zlen ds = data_shards c) as Hnd.
  { apply (f_equal length) in Hidx. unfold indices in Hidx. rewrite !length_fmap, length_seq in Hidx. unfold zlen. lia. }
  apply Forall_and in Hds as [Hda Hsd]. apply Forall_and in Hps as [Hpa Hsp].
  exists ds, ps. split_and!; try done; [unfold zlen; lia|]. intros received qs Hrec Hqs.
  assert (Forall (λ s, is_parity s = true) qs ∧ Forall (sized size) qs) as [Hqa Hsq].
  { rewrite !Forall_forall in *. split; intros q Hq; auto. }
  rewrite (decode_sizes c received size); cycle 1.
  { unfold zlen in *. rewrite Hrec, length_app. lia. }
  { rewrite Hrec. by apply Forall_app. }
  assert (filter (λ s, is_parity s = false) received ≡ₚ ds) as Hf.
  { rewrite Hrec. by rewrite (proj1 (filter_data ds qs Hda Hqa)). }
  cbv zeta. assert (zlen (filter (λ s, is_parity s = false) received) = data_shards c) as Hfl.
  { rewrite <- Hnd. unfold zlen. by rewrite Hf. }
  rewrite (proj2 (Z.eqb_eq _ _) Hfl). rewrite (sort_received _ ds _ Hidx Hf), Hcat.
  destruct (filter _ received); [|done]. unfold zlen in Hfl. simpl in Hfl. lia.
Qed.

(** Parity shards never recover anything.  When one of the data shards of a block is missing,
    decoding what is left of its shards fails with [InsufficientShards] if they are fewer than the
    data shards, with [DecodingFailed] if they are as many, and if they are more it reports success with
    an empty block. *)
Theorem erasure_no_recovery c (data : bytes) (Hc : config_ok c) (Hdata : zlen data + 256 <= isize_max) :
  ∃ ds ps, encode c data = Ok (ds ++ ps) ∧ zlen ds = data_shards c
    ∧ ∀ received lost, received ⊆+ ds ++ ps → lost ∈ ds → lost ∉ received →
        decode c received (zlen data) =
          if zlen received <? data_shards c then Err (InsufficientShards (zlen received) (data_shards c))
          else if zlen received =? data_shards c then Err DecodingFailed
          else Ok [].
Proof.
  destruct (erasure_encode_ok c data Hc Hdata) as (size & ds & ps & Henc & Hs & Hidx & Hds & Hnp & Hps & Hcat).
  assert (zlen ds = data_shards c) as Hnd.
  { apply (f_equal length) in Hidx. unfold indices in Hidx. rewrite !length_fmap, length_seq in Hidx. unfold zlen.
    destruct Hc. lia. }
  apply Forall_and in Hds as [Hda Hsd]. apply Forall_and in Hps as [Hpa Hsp].
  exists ds, ps. split_and!; [done..|]. intros received lost Hrec Hlost Hno.
  destruct (Z.ltb_spec (zlen received) (data_shards c)) as [Hlt|Hge].
  { unfold decode. by rewrite (proj2 (Z.ltb_lt _ _)). }
  assert (Forall (sized size) received) as Hsz.
  { apply Forall_forall. intros s Hin. pose proof (elem_of_submseteq _ _ _ Hin Hrec) as Hin'.
    rewrite !Forall_forall in *. apply elem_of_app in Hin' as [?|?]; auto. }
  rewrite (decode_sizes c received size) by done. cbv zeta.
  destruct (Z.eqb_spec (zlen (filter (λ s, is_parity s = false) received)) (data_shards c)) as [Hall|]; [|done].
  destruct Hno. assert (filter (λ s, is_parity s = false) received ≡ₚ ds) as Hperm.
  { apply submseteq_length_Permutation.
    - rewrite <- (proj1 (filter_data ds ps Hda Hpa)). by apply filter_submseteq.
    - unfold zlen in *. lia. }
  rewrite <- Hperm in Hlost. by apply list_elem_of_filter in Hlost as [_ ?].
Qed.

(** ** Witnesses *)
Definition demo_config : ErasureConfig := mkErasureConfig 3 2.
Lemma demo_config_ok : config_ok demo_config.
Proof. unfold config_ok, demo_config. simpl. lia. Qed.

Lemma erasure_roundtrip_witness :
  ∃ ds ps, encode demo_config [1; 2; 3; 4; 5; 6; 7] = Ok (ds ++ ps) ∧ zlen ds = 3 ∧ zlen ps = 2
    ∧ Forall is_data ds ∧ Forall (λ s, is_parity s = true) ps
    ∧ ∀ received qs, received ≡ₚ ds ++ qs → (∀ q, q ∈ qs → q ∈ ps) →
        decode demo_config received 7 = Ok [1; 2; 3; 4; 5; 6; 7].
Proof. apply (erasure_roundtrip demo_config [1; 2; 3; 4; 5; 6; 7] demo_config_ok). apply Z.leb_le. reflexivity. Defined.

Lemma erasure_no_recovery_witness :
  ∃ ds ps, encode demo_config [1; 2; 3; 4; 5; 6; 7] = Ok (ds ++ ps) ∧ zlen ds = 3
    ∧ ∀ received lost, received ⊆+ ds ++ ps → lost ∈ ds → lost ∉ received →
        decode demo_config received 7 =
          if zlen received <? 3 then Err (InsufficientShards (zlen received) 3)
          else if zlen received =? 3 then Err DecodingFailed
          else Ok [].
Proof. apply (erasure_no_recovery demo_config [1; 2; 3; 4; 5; 6; 7] demo_config_ok). apply Z.leb_le. reflexivity. Defined.

(** Two data shards and both parity shards of a block of three: success, and nothing. The check of
    the total wraps in a release build, so an absurd configuration passes it. *)
Example lost_shard :
  (let! l := encode demo_config [1; 2; 3; 4; 5; 6; 7] in decode demo_config (drop 1 l) 7) = Ok []
  ∧ ErasureConfig_new (2 ^ 64 - 1) 1 = Ok (mkErasureConfig (2 ^ 64 - 1) 1).
Proof. split; vm_compute; reflexivity. Qed.
