(* ===== verification/Wal.v ===== *)
(** * The write-ahead log: [crates/ipfrs-storage/src/write_ahead_log.rs]

    [WalWriteAheadLog] appends entries, standalone or of transactions, to a segment of bytes, each
    framed by its lengths and closed by a checksum; [recover] scans the bytes left after a crash, and
    [replay] passes on what was committed.  The clock is an argument of the operations that read it.
    [u64] counters wrap as in a release build.  Transactions are found by their key, so the order of
    the hash map never matters. *)

From Stdlib Require Import ZArith Lia List.
From stdpp Require Import base tactics numbers list gmap sets.
From S2P Require Import Prelude Ipld.

#[local] Open Scope Z_scope.

Definition fnv1a_64 (data : bytes) : Z :=
  foldl (λ h b, as_u64 (Z.lxor h b * 1099511628211)) 14695981039346656037 data.

(** [b"WALX"]. *)
Definition WAL_MAGIC : bytes := [0x57; 0x41; 0x4C; 0x58].
Definition MIN_ENTRY_BYTES : Z := 45.

Inductive WalError : Type :=
| ChecksumMismatch (entry_seq expected got : Z)
| CorruptedEntry (seq : Z)
| TransactionNotFound (tx : Z)
| EntryTooLarge (size : Z)
| SegmentFull
| InvalidMagic.

Inductive WalOpType : Type := Put | Delete | Begin | Commit | Rollback | Checkpoint.
#[export] Instance WalOpType_eq_dec : EqDecision WalOpType.
Proof. solve_decision. Defined.

Definition op_u8 (op : WalOpType) : Z :=
  match op with Put => 1 | Delete => 2 | Begin => 3 | Commit => 4 | Rollback => 5 | Checkpoint => 6 end.
Definition op_from_u8 (v : Z) : option WalOpType :=
  match v with
  | 1 => Some Put | 2 => Some Delete | 3 => Some Begin
  | 4 => Some Commit | 5 => Some Rollback | 6 => Some Checkpoint
  | _ => None
  end.

Record WalEntry : Type := mkWalEntry {
  seq_num : Z;
  tx_id : Z;
  op_type : WalOpType;
  key : bytes;
  value : bytes;
  timestamp : Z;
  checksum : Z;
}.

(** ** The wire format *)

(** What the checksum covers. *)
Definition entry_body (e : WalEntry) : bytes :=
  WAL_MAGIC ++ le_bytes 8 (seq_num e) ++ le_bytes 8 (tx_id e) ++ [op_u8 (op_type e)]
  ++ le_bytes 4 (as_u32 (zlen (key e))) ++ key e
  ++ le_bytes 4 (as_u32 (zlen (value e))) ++ value e
  ++ le_bytes 8 (timestamp e).
Definition encode (e : WalEntry) : bytes := entry_body e ++ le_bytes 8 (fnv1a_64 (entry_body e)).

(** [buf[a..b]], and the integer there. *)
Definition range (a b : Z) (buf : bytes) : bytes := take (Z.to_nat (b - a)) (drop (Z.to_nat a) buf).
Definition int_at (a b : Z) (buf : bytes) : Z := of_le_bytes (range a b buf).

Definition decode_buf (buf : bytes) : outcome WalError (WalEntry * Z) :=
  if zlen buf <? MIN_ENTRY_BYTES then Err (CorruptedEntry 0)
  else if negb (bool_decide (take 4 buf = WAL_MAGIC)) then Err InvalidMagic
  else
    let seq_num := int_at 4 12 buf in
    let tx_id := int_at 12 20 buf in
    let! op_type := ok_or (op_from_u8 (nth 20 buf 0)) (CorruptedEntry seq_num) in
    let key_len := int_at 21 25 buf in
    let key_end := 25 + key_len in
    if zlen buf <? key_end + 4 then Err (CorruptedEntry seq_num)
    else
      let key := range 25 key_end buf in
      let value_len := int_at key_end (key_end + 4) buf in
      let value_start := key_end + 4 in
      let value_end := value_start + value_len in
      let ts_end := value_end + 8 in
      let cs_end := ts_end + 8 in
      if zlen buf <? cs_end then Err (CorruptedEntry seq_num)
      else
        let value := range value_start value_end buf in
        let timestamp := int_at value_end ts_end buf in
        let stored_checksum := int_at ts_end cs_end buf in
        let computed := fnv1a_64 (take (Z.to_nat ts_end) buf) in
        if negb (computed =? stored_checksum) then Err (ChecksumMismatch seq_num stored_checksum computed)
        else Ok (mkWalEntry seq_num tx_id op_type key value timestamp stored_checksum, cs_end).

(** [&data[offset..]] panics beyond the end. *)
Definition decode (data : bytes) (offset : nat) : outcome WalError (WalEntry * Z) :=
  if (length data <? offset)%nat then Panic else decode_buf (drop offset data).

(** ** The log *)
Inductive TxState : Type := Active | Committed | RolledBack.
#[export] Instance TxState_eq_dec : EqDecision TxState.
Proof. solve_decision. Defined.

Record Transaction : Type := mkTransaction { t_id : Z; t_entries : list WalEntry; t_state : TxState }.
Definition Transaction_new (tx_id : Z) : Transaction := mkTransaction tx_id [] Active.

Record WalConfig : Type := mkWalConfig {
  max_segment_size : Z;
  sync_on_write : bool;
  max_entries_per_segment : Z;
  checkpoint_interval : Z;
}.
Definition WalConfig_default : WalConfig := mkWalConfig (64 * 1024 * 1024) false 100000 10000.

Record WalStats : Type := mkWalStats {
  total_entries : Z;
  total_bytes : Z;
  active_transactions : nat;
  segments_count : nat;
  st_checkpoint_seq : Z;
}.

Record WalWriteAheadLog : Type := mkWal {
  segment : bytes;
  entries : list WalEntry;
  transactions : gmap Z Transaction;
  next_seq : Z;
  next_tx_id : Z;
  config : WalConfig;
  wal_stats : WalStats;
  last_checkpoint_seq : Z;
  writes_since_checkpoint : Z;
}.

Definition Wal_new (c : WalConfig) : WalWriteAheadLog :=
  mkWal [] [] ∅ 1 1 c (mkWalStats 0 0 0 1 0) 0 0.

Section log.
Implicit Types w : WalWriteAheadLog.
Abbreviation wal A := (stateful WalWriteAheadLog WalError A).

Definition set_counters (seq tx : Z) w : WalWriteAheadLog :=
  mkWal (segment w) (entries w) (transactions w) seq tx (config w) (wal_stats w)
    (last_checkpoint_seq w) (writes_since_checkpoint w).
Definition alloc_seq : wal Z := λ w, (Ok (next_seq w), set_counters (as_u64 (next_seq w + 1)) (next_tx_id w) w).
Definition alloc_tx_id : wal Z := λ w, (Ok (next_tx_id w), set_counters (next_seq w) (as_u64 (next_tx_id w + 1)) w).

Definition push_entry (e : WalEntry) w : WalWriteAheadLog :=
  let s := wal_stats w in
  mkWal (segment w ++ encode e) (entries w ++ [e]) (transactions w) (next_seq w) (next_tx_id w) (config w)
    (mkWalStats (as_u64 (total_entries s + 1)) (as_u64 (total_bytes s + zlen (encode e)))
       (active_transactions s) (segments_count s) (st_checkpoint_seq s))
    (last_checkpoint_seq w) (writes_since_checkpoint w).

Definition append_entry (e : WalEntry) : wal Z := λ w,
  let c := config w in
  if (0 <? max_segment_size c) && (max_segment_size c <? zlen (segment w) + zlen (encode e)) then (Err SegmentFull, w)
  else if (0 <? max_entries_per_segment c) && (max_entries_per_segment c <=? zlen (entries w)) then (Err SegmentFull, w)
  else (Ok (seq_num e), push_entry e w).

(** The transactions that are active, and the [retain] of [checkpoint]. *)
Definition is_active (t : Transaction) : bool := bool_decide (t_state t = Active).
Definition active_count w : nat := length (filter (λ p, is_active p.2) (map_to_list (transactions w))).
Definition active_tx_ids w : gset Z :=
  list_to_set ((λ p, t_id p.2) <$> filter (λ p, is_active p.2) (map_to_list (transactions w))).

Definition rebuild (l : list WalEntry) : bytes := concat (map encode l).

Definition set_entries (l : list WalEntry) w : WalWriteAheadLog :=
  mkWal (rebuild l) l (transactions w) (next_seq w) (next_tx_id w) (config w) (wal_stats w)
    (last_checkpoint_seq w) (writes_since_checkpoint w).

Definition checkpoint (now : Z) : wal Z :=
  do! seq := alloc_seq in
  do! _ := append_entry (mkWalEntry seq 0 Checkpoint [] [] now 0) in
  do! _ := modifies (λ w,
    let truncate_before := last_checkpoint_seq w in
    let w := set_entries (filter (λ e, truncate_before < seq_num e ∨ tx_id e ∈ active_tx_ids w) (entries w)) w in
    let s := wal_stats w in
    mkWal (segment w) (entries w) (transactions w) (next_seq w) (next_tx_id w) (config w)
      (mkWalStats (total_entries s) (total_bytes s) (active_transactions s) (segments_count s) seq) seq 0) in
  lift (Ok seq).

Definition count_write w : WalWriteAheadLog :=
  mkWal (segment w) (entries w) (transactions w) (next_seq w) (next_tx_id w) (config w) (wal_stats w)
    (last_checkpoint_seq w) (writes_since_checkpoint w + 1).

(** [now] is read for the entry, [now'] for a checkpoint. *)
Definition write (now now' : Z) (key value : bytes) (op : WalOpType) : wal Z :=
  do! seq := alloc_seq in
  do! seq := append_entry (mkWalEntry seq 0 op key value now 0) in
  do! _ := modifies count_write in
  do! due := reads (λ w, Ok ((0 <? checkpoint_interval (config w))
                            && (checkpoint_interval (config w) <=? writes_since_checkpoint w))) in
  do! _ := if due : bool then checkpoint now' else lift (Ok 0) in
  lift (Ok seq).

Definition set_transactions (m : gmap Z Transaction) w : WalWriteAheadLog :=
  mkWal (segment w) (entries w) m (next_seq w) (next_tx_id w) (config w) (wal_stats w)
    (last_checkpoint_seq w) (writes_since_checkpoint w).
Definition recount w : WalWriteAheadLog :=
  let s := wal_stats w in
  mkWal (segment w) (entries w) (transactions w) (next_seq w) (next_tx_id w) (config w)
    (mkWalStats (total_entries s) (total_bytes s) (active_count w) (segments_count s) (st_checkpoint_seq s))
    (last_checkpoint_seq w) (writes_since_checkpoint w).

(** [let _ = self.append_entry(entry)]. *)
Definition ignore {A} (m : wal A) : wal unit :=
  λ w, match m w with
       | (Ok _, w) | (Err _, w) => (Ok tt, w)
       | (Panic, w) => (Panic, w)
       | (OutOfFuel, w) => (OutOfFuel, w)
       end.

Definition begin_transaction (now : Z) : wal Z :=
  do! tx := alloc_tx_id in
  do! seq := alloc_seq in
  do! _ := ignore (append_entry (mkWalEntry seq tx Begin [] [] now 0)) in
  do! _ := modifies (λ w, recount (set_transactions (<[tx := Transaction_new tx]> (transactions w)) w)) in
  lift (Ok tx).

(** The check of an active transaction that three operations begin with. *)
Definition check_active (tx : Z) : wal unit :=
  do! t := reads (λ w, ok_or (transactions w !! tx) (TransactionNotFound tx)) in
  if is_active t then lift (Ok tt) else lift (Err (TransactionNotFound tx)).

Definition push_tx_entry (e : WalEntry) (t : Transaction) : Transaction :=
  mkTransaction (t_id t) (t_entries t ++ [e]) (t_state t).
Definition set_state (s : TxState) (t : Transaction) : Transaction := mkTransaction (t_id t) (t_entries t) s.

Definition write_tx (now tx : Z) (key value : bytes) (op : WalOpType) : wal Z :=
  do! _ := check_active tx in
  do! seq := alloc_seq in
  let entry := mkWalEntry seq tx op key value now 0 in
  do! seq := append_entry entry in
  do! _ := modifies (λ w, set_transactions (alter (push_tx_entry entry) tx (transactions w)) w) in
  lift (Ok seq).

(** [commit_transaction] and [rollback_transaction] differ in the marker and the state. *)
Definition end_transaction (op : WalOpType) (state : TxState) (now tx : Z) : wal unit :=
  do! _ := check_active tx in
  do! seq := alloc_seq in
  do! _ := append_entry (mkWalEntry seq tx op [] [] now 0) in
  modifies (λ w, recount (set_transactions (alter (set_state state) tx (transactions w)) w)).
Definition commit_transaction : Z → Z → wal unit := end_transaction Commit Committed.
Definition rollback_transaction : Z → Z → wal unit := end_transaction Rollback RolledBack.

Definition export_segment w : bytes := segment w.
Definition stats w : WalStats :=
  let s := wal_stats w in
  mkWalStats (total_entries s) (total_bytes s) (active_transactions s) 1 (last_checkpoint_seq w).
Definition entry_count w : nat := length (entries w).

Definition truncate_before (seq : Z) w : nat * WalWriteAheadLog :=
  let retained := filter (λ e, seq <= seq_num e) (entries w) in
  let removed := (length (entries w) - length retained)%nat in
  (removed, if (0 <? removed)%nat then set_entries retained w else w).
End log.

(** ** Recovery *)
Record RecoveryResult : Type := mkRecovery {
  entries_recovered : nat;
  transactions_recovered : nat;
  entries_replayed : nat;
  partial_tx_discarded : nat;
  last_seq_num : Z;
}.

(** The scan of [recover] from [pos] on. *)
Fixpoint scan_loop (fuel : nat) (data : bytes) (pos : nat) (all : list WalEntry) : outcome WalError (list WalEntry) :=
  if (pos <? length data)%nat then
    match fuel with
    | O => OutOfFuel
    | S fuel =>
      if (pos + 4 <=? length data)%nat && negb (bool_decide (take 4 (drop pos data) = WAL_MAGIC))
      then scan_loop fuel data (pos + 1) all
      else
        match decode data pos with
        | Ok (entry, consumed) => scan_loop fuel data (pos + Z.to_nat consumed) (all ++ [entry])
        | Err _ => Ok all
        | Panic => Panic
        | OutOfFuel => OutOfFuel
        end
    end
  else Ok all.
Definition scan (data : bytes) : outcome WalError (list WalEntry) := scan_loop (length data) data 0 [].

Definition is_data (e : WalEntry) : bool := bool_decide (op_type e = Put ∨ op_type e = Delete).
Definition tx_ids_with (P : WalEntry → bool) (l : list WalEntry) : gset Z :=
  list_to_set (tx_id <$> filter (λ e, P e ∧ tx_id e ≠ 0) l).
Definition committed_ids : list WalEntry → gset Z := tx_ids_with (λ e, bool_decide (op_type e = Commit)).
Definition rolled_back_ids : list WalEntry → gset Z := tx_ids_with (λ e, bool_decide (op_type e = Rollback)).
Definition seen_ids : list WalEntry → gset Z := tx_ids_with (λ _, true).

Definition replayable (committed : gset Z) (e : WalEntry) : Prop :=
  is_data e ∧ (tx_id e = 0 ∨ tx_id e ∈ committed).
#[export] Instance replayable_dec committed e : Decision (replayable committed e).
Proof. unfold replayable. apply _. Defined.

Definition recover (data : bytes) : outcome WalError RecoveryResult :=
  let! all := scan data in
  let committed := committed_ids all in
  let partial := seen_ids all ∖ committed ∖ rolled_back_ids all in
  Ok (mkRecovery (length all) (size (seen_ids all)) (length (filter (replayable committed) all))
    (length (filter (λ e, tx_id e ≠ 0 ∧ tx_id e ∈ partial) all))
    (foldl Z.max 0 (seq_num <$> all))).

(** [replay] calls its handler on these entries, in this order, and returns their number. *)
Definition replay (l : list WalEntry) : list WalEntry := filter (replayable (committed_ids l)) l.
Definition replay_with {S} (handler : WalEntry → S → S) (l : list WalEntry) (s : S) : nat * S :=
  (length (replay l), foldl (λ s e, handler e s) s (replay l)).
