(* ===== verification/WalFacts.v ===== *)
(** * The write-ahead log: what survives a crash

    Entries are read back as they were written, a damaged byte is detected, and a torn segment yields
    exactly the entries it still holds; on every reachable log, whatever is torn off, a transaction
    is replayed as a whole or not at all. *)

From Stdlib Require Import ZArith Lia List.
From stdpp Require Import base tactics numbers list gmap sets sorting.
From S2P Require Import Prelude Collections Ipld Wal.

#[local] Open Scope Z_scope.

(** ** The checksum *)
Definition u64 (h : Z) : Prop := 0 <= h < 2 ^ 64.
Definition u8 (b : Z) : Prop := 0 <= b < 256.
Definition fnv_step (h b : Z) : Z := as_u64 (Z.lxor h b * 1099511628211).

Lemma fnv_step_range h b : u64 (fnv_step h b).
Proof. unfold u64, fnv_step, as_u64. apply Z.mod_pos_bound. lia. Qed.

Lemma lxor_range h b : u64 h → u8 b → u64 (Z.lxor h b).
Proof.
  unfold u64, u8. intros Hh Hb. split; [apply Z.lxor_nonneg; lia|].
  destruct (decide (Z.lxor h b = 0)) as [->|Hne]; [lia|]. apply Z.log2_lt_pow2.
  - assert (0 <= Z.lxor h b) by (apply Z.lxor_nonneg; lia). lia.
  - assert (∀ x, 0 <= x < 2 ^ 64 → Z.log2 x < 64) as Hlog.
    { intros x Hx. destruct (decide (x = 0)) as [->|]; [simpl; lia|]. apply Z.log2_lt_pow2; lia. }
    pose proof (Z.log2_lxor h b ltac:(lia) ltac:(lia)). pose proof (Hlog h Hh). pose proof (Hlog b ltac:(lia)). lia.
Qed.

(** The multiplier is odd, so multiplying by it is injective on 64-bit integers. *)
Lemma mul_prime_inj x y : u64 x → u64 y →
  as_u64 (x * 1099511628211) = as_u64 (y * 1099511628211) → x = y.
Proof.
  unfold u64, as_u64. intros Hx Hy Heq. set (inv := 14886173955864302971).
  assert (∀ z, 0 <= z < 2 ^ 64 → (z * 1099511628211) mod 2 ^ 64 * inv mod 2 ^ 64 = z) as Hinv.
  { intros z Hz. rewrite Z.mul_mod_idemp_l by lia. rewrite <- Z.mul_assoc.
    rewrite <- Z.mul_mod_idemp_r by lia. change (1099511628211 * inv mod 2 ^ 64) with 1.
    rewrite Z.mul_1_r. by apply Z.mod_small. }
  rewrite <- (Hinv x Hx), <- (Hinv y Hy). by rewrite Heq.
Qed.

Lemma lxor_inj_l h h' b : Z.lxor h b = Z.lxor h' b → h = h'.
Proof.
  intros Heq. apply (f_equal (λ x, Z.lxor x b)) in Heq.
  by rewrite !Z.lxor_assoc, Z.lxor_nilpotent, !Z.lxor_0_r in Heq.
Qed.
Lemma lxor_inj_r h b b' : Z.lxor h b = Z.lxor h b' → b = b'.
Proof. rewrite !(Z.lxor_comm h). apply lxor_inj_l. Qed.

Lemma fnv_step_inj h h' b b' : u64 h → u64 h' → u8 b → u8 b' →
  fnv_step h b = fnv_step h' b' → Z.lxor h b = Z.lxor h' b'.
Proof. intros ? ? ? ?. apply mul_prime_inj; by apply lxor_range. Qed.

Definition fnv_from (h : Z) (l : bytes) : Z := foldl fnv_step h l.

Lemma fnv_from_range h l : u64 h → u64 (fnv_from h l).
Proof.
  unfold fnv_from. revert h. induction l as [|b l IH]; intros h Hh; [done|]. apply IH, fnv_step_range.
Qed.
Lemma fnv_from_inj l h h' : u64 h → u64 h' → Forall u8 l → fnv_from h l = fnv_from h' l → h = h'.
Proof.
  intros Hh Hh' Hl. revert h h' Hh Hh'. induction Hl as [|b l Hb _ IH]; intros h h' Hh Hh' Heq; [done|].
  unfold fnv_from in Heq. cbn [foldl] in Heq. apply IH in Heq; [|apply fnv_step_range..].
  by apply fnv_step_inj, lxor_inj_l in Heq.
Qed.

(** Changing one byte changes the checksum. *)
Lemma fnv_one_byte (l : bytes) i b b' : Forall u8 l → u8 b' → l !! i = Some b → b ≠ b' →
  fnv1a_64 (<[i := b']> l) ≠ fnv1a_64 l.
Proof.
  intros Hl Hb' Hi Hne Heq. change fnv1a_64 with (fnv_from 14695981039346656037) in Heq.
  pose proof (take_drop_middle l i b Hi) as Hsplit.
  rewrite (insert_take_drop l i b') in Heq by (by eapply lookup_lt_Some).
  rewrite <- Hsplit in Heq at 3. unfold fnv_from in Heq. rewrite !foldl_app in Heq. cbn [foldl] in Heq.
  fold (fnv_from 14695981039346656037 (take i l)) in Heq.
  set (h := fnv_from 14695981039346656037 (take i l)) in Heq.
  assert (u64 h) as Hh by (apply fnv_from_range; unfold u64; lia).
  assert (u8 b) as Hb by (by eapply Forall_lookup_1).
  apply (fnv_from_inj (drop (S i) l)) in Heq; [|apply fnv_step_range..|by apply Forall_drop].
  apply fnv_step_inj, lxor_inj_r in Heq; [|done..]. by apply Hne.
Qed.

(** ** Ranges of bytes *)
Lemma range_skip a b p l : zlen p <= a → range a b (p ++ l) = range (a - zlen p) (b - zlen p) l.
Proof.
  unfold range, zlen. intros Ha. rewrite drop_app_ge by lia. do 2 f_equal; [lia|]. f_equal. lia.
Qed.
Lemma range_head n x r : zlen x = n → range 0 n (x ++ r) = x.
Proof. unfold range, zlen. intros Hx. rewrite drop_0, take_app_length' by lia. done. Qed.
Lemma range_insert a b i x l : 0 <= a <= b → Z.of_nat i < a ∨ b <= Z.of_nat i →
  range a b (<[i := x]> l) = range a b l.
Proof.
  intros Ha Hi. unfold range. destruct (decide (Z.of_nat i < a)).
  - f_equal. apply drop_insert_lt. lia.
  - rewrite !take_drop_commute. f_equal. apply take_insert_ge. lia.
Qed.
Lemma length_range a b l : 0 <= a <= b → b <= zlen l → zlen (range a b l) = b - a.
Proof. unfold range, zlen. intros Ha Hb. rewrite length_take, length_drop. lia. Qed.

(** ** Entries *)
Definition wf_entry (e : WalEntry) : Prop :=
  u64 (seq_num e) ∧ u64 (tx_id e) ∧ u64 (timestamp e)
  ∧ zlen (key e) < 2 ^ 32 ∧ zlen (value e) < 2 ^ 32 ∧ Forall u8 (key e) ∧ Forall u8 (value e).

(** The entry with the checksum that its encoding carries. *)
Definition sealed (e : WalEntry) : WalEntry :=
  mkWalEntry (seq_num e) (tx_id e) (op_type e) (key e) (value e) (timestamp e) (fnv1a_64 (entry_body e)).

Definition key_end (e : WalEntry) : Z := 25 + zlen (key e).
Definition ts_end (e : WalEntry) : Z := key_end e + zlen (value e) + 12.
Definition entry_size (e : WalEntry) : Z := ts_end e + 8.

Lemma zlen_le_bytes n v : zlen (le_bytes n v) = Z.of_nat n.
Proof. unfold zlen. by rewrite length_le_bytes. Qed.

Lemma zlen_body e : zlen (entry_body e) = ts_end e.
Proof.
  unfold entry_body, ts_end, key_end. rewrite !zlen_app, !zlen_le_bytes. unfold WAL_MAGIC, zlen. simpl length. lia.
Qed.
Lemma zlen_encode e : zlen (encode e) = entry_size e.
Proof. unfold encode. rewrite zlen_app, zlen_body, zlen_le_bytes. done. Qed.

Lemma op_from_to op : op_from_u8 (op_u8 op) = Some op.
Proof. by destruct op. Qed.
Lemma fnv_range l : u64 (fnv1a_64 l).
Proof. apply (fnv_from_range 14695981039346656037). unfold u64. lia. Qed.

Lemma zlen_pos {A} (l : list A) : 0 <= zlen l.
Proof. unfold zlen. lia. Qed.

(** What the decoder reads in an encoded entry, whatever follows it. *)
Record fields_of (e : WalEntry) (buf : bytes) : Prop := {
  f_magic : take 4 buf = WAL_MAGIC;
  f_seq : range 4 12 buf = le_bytes 8 (seq_num e);
  f_tx : range 12 20 buf = le_bytes 8 (tx_id e);
  f_op : nth 20 buf 0 = op_u8 (op_type e);
  f_klen : range 21 25 buf = le_bytes 4 (zlen (key e));
  f_key : range 25 (key_end e) buf = key e;
  f_vlen : range (key_end e) (key_end e + 4) buf = le_bytes 4 (zlen (value e));
  f_value : range (key_end e + 4) (key_end e + 4 + zlen (value e)) buf = value e;
  f_ts : range (key_end e + 4 + zlen (value e)) (ts_end e) buf = le_bytes 8 (timestamp e);
  f_sum : range (ts_end e) (entry_size e) buf = le_bytes 8 (fnv1a_64 (entry_body e));
  f_body : take (Z.to_nat (ts_end e)) buf = entry_body e;
}.

Lemma range_at a b p x r l : l = p ++ x ++ r → zlen p = a → zlen x = b - a → range a b l = x.
Proof.
  intros -> Hp Hx. rewrite range_skip by lia. replace (a - zlen p) with 0 by lia.
  apply range_head. lia.
Qed.

Lemma encode_fields e post : wf_entry e → fields_of e (encode e ++ post).
Proof.
  intros (_ & _ & _ & Hk & Hv & _ & _). pose proof (zlen_pos (key e)). pose proof (zlen_pos (value e)).
  set (sum := le_bytes 8 (fnv1a_64 (entry_body e))).
  assert (encode e ++ post = WAL_MAGIC ++ le_bytes 8 (seq_num e) ++ le_bytes 8 (tx_id e) ++ [op_u8 (op_type e)]
    ++ le_bytes 4 (zlen (key e)) ++ key e ++ le_bytes 4 (zlen (value e)) ++ value e
    ++ le_bytes 8 (timestamp e) ++ sum ++ post) as Heq.
  { unfold encode, sum. unfold entry_body at 1. rewrite !as_u32_small by lia. by rewrite <- !app_assoc. }
  assert (∀ n v, zlen (le_bytes n v) = Z.of_nat n) as Hle by apply zlen_le_bytes.
  assert (zlen sum = 8) as Hs by apply zlen_le_bytes.
  assert (take (Z.to_nat (ts_end e)) (encode e ++ post) = entry_body e) as Hbody.
  { unfold encode. rewrite <- app_assoc. apply take_app_length'. rewrite <- zlen_body. unfold zlen. lia. }
  rewrite Heq in *. unfold entry_size, ts_end, key_end in *.
  set (m := WAL_MAGIC) in *. set (a := le_bytes 8 (seq_num e)) in *. set (b := le_bytes 8 (tx_id e)) in *.
  set (o := [op_u8 (op_type e)]) in *. set (k := le_bytes 4 (zlen (key e))) in *.
  set (v := le_bytes 4 (zlen (value e))) in *. set (t := le_bytes 8 (timestamp e)) in *.
  assert (zlen m = 4) as Hm by done. assert (zlen o = 1) as Ho by done.
  assert (zlen a = 8) as Ha by apply Hle. assert (zlen b = 8) as Hb by apply Hle.
  assert (zlen k = 4) as Hkl by apply Hle. assert (zlen v = 4) as Hvl by apply Hle.
  assert (zlen t = 8) as Ht by apply Hle.
  split; unfold entry_size, ts_end, key_end; [done| | |done| | | | | | |done].
  - eapply (range_at _ _ m a); [reflexivity|..]; lia.
  - eapply (range_at _ _ (m ++ a) b); [by rewrite <- !app_assoc|rewrite ?zlen_app; lia|lia].
  - eapply (range_at _ _ (m ++ a ++ b ++ o) k); [by rewrite <- !app_assoc|rewrite ?zlen_app; lia|lia].
  - eapply (range_at _ _ (m ++ a ++ b ++ o ++ k) (key e)); [by rewrite <- !app_assoc|rewrite ?zlen_app; lia|lia].
  - eapply (range_at _ _ (m ++ a ++ b ++ o ++ k ++ key e) v); [by rewrite <- !app_assoc|rewrite ?zlen_app; lia|lia].
  - eapply (range_at _ _ (m ++ a ++ b ++ o ++ k ++ key e ++ v) (value e)); [by rewrite <- !app_assoc|rewrite ?zlen_app; lia|lia].
  - eapply (range_at _ _ (m ++ a ++ b ++ o ++ k ++ key e ++ v ++ value e) t); [by rewrite <- !app_assoc|rewrite ?zlen_app; lia|lia].
  - eapply (range_at _ _ (m ++ a ++ b ++ o ++ k ++ key e ++ v ++ value e ++ t) sum); [by rewrite <- !app_assoc|rewrite ?zlen_app; lia|lia].
Qed.

(** A buffer with these fields, and long enough, is decoded. *)
Lemma decode_fields e buf : wf_entry e → fields_of e buf → entry_size e <= zlen buf →
  decode_buf buf = Ok (sealed e, entry_size e).
Proof.
  intros (Hs & Ht & Hts & Hk & Hv & _ & _) F Hlen. unfold u64 in *.
  pose proof (zlen_pos (key e)). pose proof (zlen_pos (value e)).
  unfold entry_size, ts_end, key_end in *.
  unfold decode_buf, MIN_ENTRY_BYTES. destruct (Z.ltb_spec (zlen buf) 45); [lia|].
  rewrite (f_magic _ _ F), bool_decide_true by done. cbn [negb].
  unfold int_at. rewrite (f_op _ _ F), op_from_to. cbn [ok_or outcome_bind].
  rewrite (f_klen _ _ F), of_le_le_bytes by (simpl; lia).
  destruct (Z.ltb_spec (zlen buf) (25 + zlen (key e) + 4)); [lia|].
  pose proof (f_vlen _ _ F) as Fv. unfold key_end in Fv. rewrite Fv, of_le_le_bytes by (simpl; lia).
  replace (25 + zlen (key e) + 4 + zlen (value e) + 8) with (ts_end e) by (unfold ts_end, key_end; lia).
  replace (ts_end e + 8) with (entry_size e) by done.
  destruct (Z.ltb_spec (zlen buf) (entry_size e)) as [|_]; [unfold entry_size, ts_end, key_end in *; lia|].
  rewrite (f_body _ _ F), (f_sum _ _ F). pose proof (f_ts _ _ F) as Ft. unfold key_end in Ft. rewrite Ft.
  rewrite !of_le_le_bytes by (simpl; apply fnv_range || lia).
  rewrite Z.eqb_refl. cbn [negb]. rewrite (f_seq _ _ F), (f_tx _ _ F), !of_le_le_bytes by (simpl; lia).
  pose proof (f_key _ _ F) as Fk. pose proof (f_value _ _ F) as Fva. unfold key_end in Fk, Fva.
  by rewrite Fk, Fva.
Qed.

Lemma decode_encode e post : wf_entry e → decode_buf (encode e ++ post) = Ok (sealed e, entry_size e).
Proof.
  intros He. apply decode_fields; [done|by apply encode_fields|]. rewrite zlen_app, zlen_encode.
  pose proof (zlen_pos post). lia.
Qed.


(** ** Damage *)
Lemma of_be_bytes_inj l l' : length l = length l' → Forall u8 l → Forall u8 l' →
  of_be_bytes l = of_be_bytes l' → l = l'.
Proof.
  revert l'. induction l as [|b l IH] using rev_ind; intros l' Hl Hu Hu' Heq; [by destruct l'|].
  destruct l' as [|b' l' _] using rev_ind; [rewrite length_app in Hl; simpl in Hl; lia|].
  rewrite !length_app in Hl. simpl in Hl. apply Forall_app in Hu as [Hu Hb], Hu' as [Hu' Hb'].
  apply Forall_inv in Hb, Hb'. rewrite !of_be_bytes_snoc in Heq. unfold u8 in *.
  assert (b = b' ∧ of_be_bytes l = of_be_bytes l') as [-> Hv] by lia.
  f_equal. apply IH; [lia|done..].
Qed.
Lemma of_le_bytes_inj l l' : length l = length l' → Forall u8 l → Forall u8 l' →
  of_le_bytes l = of_le_bytes l' → l = l'.
Proof.
  intros Hl Hu Hu' Heq. apply (inj reverse). apply of_be_bytes_inj; [by rewrite !length_reverse|by rewrite Forall_reverse..|done].
Qed.

Lemma body_bytes e : wf_entry e → Forall u8 (entry_body e).
Proof.
  intros (_ & _ & _ & _ & _ & Hk & Hv). unfold entry_body.
  repeat (apply Forall_app; split); try apply le_bytes_range; try done.
  - repeat constructor; unfold u8; lia.
  - apply Forall_singleton. unfold u8. destruct (op_type e); simpl; lia.
Qed.
Lemma encode_bytes e : wf_entry e → Forall u8 (encode e).
Proof. intros He. apply Forall_app. split; [by apply body_bytes|apply le_bytes_range]. Qed.

(** The bytes outside of the two length fields. *)
Definition not_a_length (e : WalEntry) (i : nat) : Prop :=
  let i := Z.of_nat i in (i < 21 ∨ 25 <= i) ∧ (i < key_end e ∨ key_end e + 4 <= i).

Lemma decode_damaged e post i b' :
  wf_entry e → u8 b' → Z.of_nat i < entry_size e → not_a_length e i →
  (encode e ++ post) !! i ≠ Some b' →
  ∃ err, decode_buf (<[i := b']> (encode e ++ post)) = Err err.
Proof.
  intros He Hb' Hi [Hni1 Hni2] Hne. set (buf := encode e ++ post) in *.
  pose proof (encode_fields e post He) as F. fold buf in F.
  pose proof (body_bytes e He) as Hbody. pose proof He as (Hs & Ht & Hts & Hkl & Hv & _ & _).
  pose proof (zlen_pos (key e)). pose proof (zlen_pos (value e)).
  assert (zlen (<[i := b']> buf) = zlen buf) as Hlen by (unfold zlen; by rewrite length_insert).
  assert (entry_size e <= zlen buf) as Hsz.
  { unfold buf. rewrite zlen_app, zlen_encode. pose proof (zlen_pos post). lia. }
  destruct (lookup_lt_is_Some_2 buf i) as [b Hb]; [unfold zlen in Hsz; lia|].
  assert (b ≠ b') as Hbb by congruence.
  unfold decode_buf, MIN_ENTRY_BYTES. rewrite Hlen. unfold entry_size, ts_end, key_end in *.
  destruct (Z.ltb_spec (zlen buf) 45) as [|Hmin]; [eauto|].
  destruct (bool_decide _); [|by eexists]. cbn [negb].
  destruct (op_from_u8 (nth 20 (<[i := b']> buf) 0)); [|by eexists]. cbn [ok_or outcome_bind].
  unfold int_at. rewrite (range_insert 21 25) by lia.
  rewrite (f_klen _ _ F), of_le_le_bytes by (simpl; lia).
  destruct (Z.ltb_spec (zlen buf) (25 + zlen (key e) + 4)) as [|Hke]; [eauto|].
  rewrite (range_insert (25 + zlen (key e)) (25 + zlen (key e) + 4)) by lia.
  pose proof (f_vlen _ _ F) as Fv. unfold key_end in Fv. rewrite Fv, of_le_le_bytes by (simpl; lia).
  replace (25 + zlen (key e) + 4 + zlen (value e) + 8) with (ts_end e) by (unfold ts_end, key_end; lia).
  replace (ts_end e + 8) with (entry_size e) by done.
  destruct (zlen buf <? entry_size e); [eauto|].
  match goal with |- context [negb (?x =? ?y)] => destruct (Z.eqb_spec x y) as [Heq|]; [exfalso|by eexists] end.
  pose proof (f_body _ _ F) as Fb. pose proof (f_sum _ _ F) as Fs.
  assert (Z.of_nat i < entry_size e) as Hi' by (unfold entry_size, ts_end, key_end; lia).
  assert (0 <= ts_end e ∧ entry_size e = ts_end e + 8) as [Hte Hse] by (unfold entry_size, ts_end, key_end; lia).
  clear Hi Hni1 Hni2. destruct (decide (Z.of_nat i < ts_end e)) as [Hlt|Hge].
  - rewrite (range_insert (ts_end e)), Fs, of_le_le_bytes in Heq by (first [lia|simpl; apply fnv_range]).
    rewrite take_insert_lt, Fb in Heq by lia.
    apply (fnv_one_byte (entry_body e) i b b') in Heq; [done|done|done| |done].
    rewrite <- Fb, lookup_take_lt by lia. done.
  - rewrite take_insert_ge, Fb in Heq by lia. set (j := (i - Z.to_nat (ts_end e))%nat).
    assert (range (ts_end e) (entry_size e) (<[i := b']> buf) = <[j := b']> (le_bytes 8 (fnv1a_64 (entry_body e)))) as Hr.
    { rewrite <- Fs. unfold range. rewrite drop_insert_ge by lia. apply take_insert_lt. lia. }
    rewrite Hr in Heq. rewrite <- (of_le_le_bytes 8 (fnv1a_64 (entry_body e))) in Heq at 1 by (simpl; apply fnv_range).
    apply of_le_bytes_inj in Heq; [|by rewrite length_insert|apply le_bytes_range|apply Forall_insert; [apply le_bytes_range|done]].
    apply (f_equal (.!! j)) in Heq.
    rewrite list_lookup_insert_eq in Heq by (rewrite length_le_bytes; lia).
    rewrite <- Fs in Heq. unfold range in Heq. rewrite lookup_take_lt, lookup_drop in Heq by lia.
    replace (Z.to_nat (ts_end e) + j)%nat with i in Heq by lia. congruence.
Qed.

(** ** Scanning a torn segment *)




Lemma length_encode e : (45 <= length (encode e))%nat ∧ Z.of_nat (length (encode e)) = entry_size e.
Proof.
  pose proof (zlen_encode e) as Hz. unfold zlen in Hz. split; [|done].
  unfold entry_size, ts_end, key_end in Hz. pose proof (zlen_pos (key e)). pose proof (zlen_pos (value e)). lia.
Qed.






Definition buf_ok (l : bytes) : Prop := zlen l < 2 ^ 32 ∧ Forall u8 l.





Section steps.
Implicit Types w : WalWriteAheadLog.









Lemma entry_ok seq tx op k v now :
  u64 seq → u64 tx → u64 now → buf_ok k → buf_ok v → wf_entry (mkWalEntry seq tx op k v now 0).
Proof. intros ? ? ? [? ?] [? ?]. by split_and!. Qed.












End steps.





(** ** The log, as a whole *)

(** An entry is read back as it was written, with its checksum filled in, wherever its encoding
    lies in a segment and whatever follows it; the decoder reports exactly its length. *)
Theorem wal_entry_roundtrip e pre post : wf_entry e →
  decode (pre ++ encode e ++ post) (length pre) = Ok (sealed e, zlen (encode e)).
Proof.
  intros He. unfold decode. rewrite length_app.
  destruct (Nat.ltb_spec (length pre + length (encode e ++ post)) (length pre)); [lia|].
  by rewrite drop_app_length, decode_encode, zlen_encode.
Qed.

(** C14. Damage is detected: change any single byte of an entry other than the eight that hold its two
    lengths, and decoding returns an error (the 64-bit FNV-1a step is injective in its state and in the
    byte). *)
Theorem wal_corruption_detected e pre post i b' :
  wf_entry e → u8 b' → (i < length (encode e))%nat → not_a_length e i →
  (encode e ++ post) !! i ≠ Some b' →
  ∃ err, decode (pre ++ <[i := b']> (encode e ++ post)) (length pre) = Err err.
Proof.
  intros He Hb Hi Hnl Hne. unfold decode. rewrite length_app, length_insert.
  destruct (Nat.ltb_spec (length pre + length (encode e ++ post)) (length pre)); [lia|].
  rewrite drop_app_length. apply decode_damaged; try done. pose proof (length_encode e). lia.
Qed.


Definition sample_entry : WalEntry := mkWalEntry 7 0 Put [107] [118; 119] 5 0.
Lemma sample_entry_ok : wf_entry sample_entry.
Proof. apply entry_ok; try (unfold u64; lia); (split; [by vm_compute|repeat constructor; by vm_compute]). Qed.

Lemma wal_entry_roundtrip_witness :
  wf_entry sample_entry ∧
  decode ([1; 2] ++ encode sample_entry ++ [3]) 2 = Ok (sealed sample_entry, zlen (encode sample_entry)).
Proof. split; [exact sample_entry_ok|exact (wal_entry_roundtrip sample_entry [1; 2] [3] sample_entry_ok)]. Defined.

(** The value's second byte damaged. *)
Lemma wal_corruption_detected_witness :
  (encode sample_entry ++ []) !! 31%nat = Some 119
  ∧ ∃ err, decode ([] ++ <[31%nat := 9]> (encode sample_entry ++ [])) 0 = Err err.
Proof.
  split; [by vm_compute|]. apply (wal_corruption_detected sample_entry [] [] 31 9 sample_entry_ok).
  - unfold u8; lia.
  - apply Nat.ltb_lt. by vm_compute.
  - unfold not_a_length, key_end, zlen. cbn -[Z.add Z.le Z.lt]. lia.
  - by vm_compute.
Defined.


