(* ===== verification/Peers.v ===== *)
(** * Peers: [crates/ipfrs-transport/src/peer_manager.rs]

    Scores, selection and bans of the peers a node exchanges blocks with, and the circuit breaker of
    a connection.  Instants and durations are nanoseconds, scores [f64]s.  A method takes the clock
    once; [select_peers] reads it at every comparison of scores, here once per peer.
    [ConcurrentPeerManager] takes a lock around each call of the same methods, and the circuit
    breaker holds the lock of its state during a whole method, so their behaviours are the sequences
    of these operations.  [RetryPolicy] is left out: its delay is drawn at random. *)

From Stdlib Require Import ZArith Lia List.
From stdpp Require Import base tactics numbers list gmap sets strings.
From S2P Require Import Prelude Collections F64 Cid.

#[local] Open Scope Z_scope.

Record PeerScoringConfig : Type := mkScoring {
  latency_weight : f64;
  bandwidth_weight : f64;
  reliability_weight : f64;
  ewma_alpha : f64;
  inactivity_decay : f64;
  min_score : f64;
  max_failures : Z;
}.
Definition PeerScoringConfig_default : PeerScoringConfig :=
  mkScoring (f64_lit 3 10) (f64_lit 4 10) (f64_lit 3 10) (f64_lit 3 10) (f64_lit 1 100) (f64_lit 1 10) 10.

(** ** Metrics *)
Record PeerMetrics : Type := mkPeerMetrics {
  latency_ms : f64;
  bandwidth_bps : f64;
  reliability : f64;
  requests_sent : Z;
  requests_completed : Z;
  requests_failed : Z;
  bytes_sent : Z;
  bytes_recv : Z;
  last_update : Z;
  last_success : option Z;
  consecutive_failures : Z;
}.
Definition PeerMetrics_default (now : Z) : PeerMetrics :=
  mkPeerMetrics (f64_of_int 100) (f64_of_int 1000000) f64_one 0 0 0 0 0 now None 0.

(** [alpha * x + (1.0 - alpha) * old]. *)
Definition ewma (alpha x old : f64) : f64 := f64_add (f64_mul alpha x) (f64_mul (f64_sub f64_one alpha) old).

Definition update_latency (now : Z) (latency alpha : f64) (m : PeerMetrics) : PeerMetrics :=
  mkPeerMetrics (ewma alpha latency (latency_ms m)) (bandwidth_bps m) (reliability m) (requests_sent m)
    (requests_completed m) (requests_failed m) (bytes_sent m) (bytes_recv m) now (last_success m) (consecutive_failures m).
Definition update_bandwidth (now bytes duration : Z) (alpha : f64) (m : PeerMetrics) : PeerMetrics :=
  let bandwidth :=
    if f64_ltb f64_zero (as_secs_f64 duration)
    then ewma alpha (f64_div (f64_of_int bytes) (as_secs_f64 duration)) (bandwidth_bps m)
    else bandwidth_bps m in
  mkPeerMetrics (latency_ms m) bandwidth (reliability m) (requests_sent m)
    (requests_completed m) (requests_failed m) (bytes_sent m) (bytes_recv m) now (last_success m) (consecutive_failures m).

Definition metrics_success (now bytes latency : Z) (alpha : f64) (m : PeerMetrics) : PeerMetrics :=
  let completed := as_u64 (requests_completed m + 1) in
  let total := as_u64 (completed + requests_failed m) in
  let reliability := if 0 <? total then f64_div (f64_of_int completed) (f64_of_int total) else reliability m in
  let m := mkPeerMetrics (latency_ms m) (bandwidth_bps m) reliability (requests_sent m) completed
             (requests_failed m) (bytes_sent m) (as_u64 (bytes_recv m + bytes)) now (Some now) 0 in
  let m := update_latency now (f64_mul (as_secs_f64 latency) (f64_of_int 1000)) alpha m in
  update_bandwidth now bytes latency alpha m.

Definition metrics_failure (now : Z) (alpha : f64) (m : PeerMetrics) : PeerMetrics :=
  let failed := as_u64 (requests_failed m + 1) in
  let total := as_u64 (requests_completed m + failed) in
  let reliability := if 0 <? total then ewma alpha f64_zero (reliability m) else reliability m in
  mkPeerMetrics (latency_ms m) (bandwidth_bps m) reliability (requests_sent m) (requests_completed m)
    failed (bytes_sent m) (bytes_recv m) now (last_success m) (as_u32 (consecutive_failures m + 1)).

(** [Instant::elapsed] saturates at zero. *)
Definition elapsed (now t : Z) : Z := Z.max 0 (now - t).

Definition score (now : Z) (config : PeerScoringConfig) (m : PeerMetrics) : f64 :=
  let latency_score := f64_min (f64_div (f64_of_int 10) (f64_max (latency_ms m) f64_one)) f64_one in
  let bandwidth_score := f64_min (f64_div (bandwidth_bps m) (f64_of_int 10000000)) f64_one in
  let reliability_score := reliability m in
  let time_since_update := as_secs_f64 (elapsed now (last_update m)) in
  let decay := f64_max (f64_sub f64_one (f64_mul (inactivity_decay config) time_since_update)) (f64_lit 1 10) in
  let score :=
    f64_mul (f64_add (f64_add (f64_mul (latency_weight config) latency_score)
                              (f64_mul (bandwidth_weight config) bandwidth_score))
                     (f64_mul (reliability_weight config) reliability_score)) decay in
  f64_clamp score f64_zero f64_one.

Definition debt_ratio (m : PeerMetrics) : f64 :=
  if bytes_sent m =? 0 then f64_infinity else f64_div (f64_of_int (bytes_recv m)) (f64_of_int (bytes_sent m)).

(** ** Bans *)
Inductive BlacklistReason : Type := RepeatedFailures | LowScore | InvalidData | ProtocolViolation | Manual.
Record BlacklistEntry : Type := mkBlacklistEntry {
  blacklisted_at : Z;
  reason : BlacklistReason;
  expires_at : option Z;
}.
Inductive SelectionStrategy : Type :=
| FastestFirst | HighestBandwidth | BestScore | RoundRobin | Random | LeastLoaded.

Section peers.
Context `{CidCrate} `{!HashIter string}.

Record PeerState : Type := mkPeerState {
  p_id : string;
  p_metrics : PeerMetrics;
  has_cids : gset Cid;
  doesnt_have_cids : gset Cid;
  active_requests : Z;
  max_concurrent : Z;
  connected : bool;
}.
Definition PeerState_new (now : Z) (id : string) : PeerState :=
  mkPeerState id (PeerMetrics_default now) ∅ ∅ 0 16 true.
Definition can_accept_request (p : PeerState) : bool := connected p && (active_requests p <? max_concurrent p).
Definition might_have (cid : Cid) (p : PeerState) : bool := bool_decide (cid ∉ doesnt_have_cids p).
Definition has (cid : Cid) (p : PeerState) : bool := bool_decide (cid ∈ has_cids p).

Definition set_metrics (m : PeerMetrics) (active : Z) (p : PeerState) : PeerState :=
  mkPeerState (p_id p) m (has_cids p) (doesnt_have_cids p) active (max_concurrent p) (connected p).
Definition set_cids (h d : gset Cid) (p : PeerState) : PeerState :=
  mkPeerState (p_id p) (p_metrics p) h d (active_requests p) (max_concurrent p) (connected p).

Record PeerManager : Type := mkPeerManager {
  peers : gmap string PeerState;
  blacklist : gmap string BlacklistEntry;
  config : PeerScoringConfig;
  round_robin_idx : Z;
}.
Definition PeerManager_new (config : PeerScoringConfig) : PeerManager := mkPeerManager ∅ ∅ config 0.
Definition PeerManager_with_defaults : PeerManager := PeerManager_new PeerScoringConfig_default.

Implicit Types m : PeerManager.
Definition set_peers (ps : gmap string PeerState) m : PeerManager :=
  mkPeerManager ps (blacklist m) (config m) (round_robin_idx m).
Definition set_blacklist (b : gmap string BlacklistEntry) m : PeerManager :=
  mkPeerManager (peers m) b (config m) (round_robin_idx m).

Definition is_blacklisted (now : Z) (id : string) m : bool :=
  match blacklist m !! id with
  | Some entry => match expires_at entry with Some expires => negb (expires <=? now) | None => true end
  | None => false
  end.

Definition add_peer (now : Z) (id : string) m : PeerManager :=
  if is_blacklisted now id m then m
  else match peers m !! id with
       | Some _ => m
       | None => set_peers (<[id := PeerState_new now id]> (peers m)) m
       end.
Definition remove_peer (id : string) m : PeerManager := set_peers (delete id (peers m)) m.
Definition get_peer (id : string) m : option PeerState := peers m !! id.

(** [saturating_sub] on a [u32]. *)
Definition release (p : PeerState) : Z := Z.max 0 (active_requests p - 1).

Definition record_success (now : Z) (id : string) (bytes latency : Z) m : PeerManager :=
  set_peers (alter (λ p, set_metrics (metrics_success now bytes latency (ewma_alpha (config m)) (p_metrics p)) (release p) p)
    id (peers m)) m.

Definition blacklist_peer (now : Z) (id : string) (why : BlacklistReason) (duration : option Z) m : PeerManager :=
  remove_peer id
    (set_blacklist (<[id := mkBlacklistEntry now why ((λ d, now + d) <$> duration)]> (blacklist m)) m).
Definition unblacklist_peer (id : string) m : PeerManager := set_blacklist (delete id (blacklist m)) m.

Definition record_failure (now : Z) (id : string) m : PeerManager :=
  match peers m !! id with
  | None => m
  | Some p =>
    let p := set_metrics (metrics_failure now (ewma_alpha (config m)) (p_metrics p)) (release p) p in
    let m := set_peers (<[id := p]> (peers m)) m in
    if max_failures (config m) <=? consecutive_failures (p_metrics p)
    then blacklist_peer now id RepeatedFailures (Some (secs 3600)) m
    else if f64_ltb (score now (config m) (p_metrics p)) (min_score (config m))
    then blacklist_peer now id LowScore (Some (secs 1800)) m
    else m
  end.

Definition record_has (id : string) (cid : Cid) m : PeerManager :=
  set_peers (alter (λ p, set_cids ({[cid]} ∪ has_cids p) (doesnt_have_cids p ∖ {[cid]}) p) id (peers m)) m.
Definition record_doesnt_have (id : string) (cid : Cid) m : PeerManager :=
  set_peers (alter (λ p, set_cids (has_cids p ∖ {[cid]}) ({[cid]} ∪ doesnt_have_cids p) p) id (peers m)) m.

Definition count_sent (x : PeerMetrics) : PeerMetrics :=
  mkPeerMetrics (latency_ms x) (bandwidth_bps x) (reliability x) (as_u64 (requests_sent x + 1)) (requests_completed x)
    (requests_failed x) (bytes_sent x) (bytes_recv x) (last_update x) (last_success x) (consecutive_failures x).
Definition mark_request_sent (id : string) m : PeerManager :=
  set_peers (alter (λ p, set_metrics (count_sent (p_metrics p)) (as_u32 (active_requests p + 1)) p) id (peers m)) m.

Definition set_connected (id : string) (c : bool) m : PeerManager :=
  set_peers (alter (λ p, mkPeerState (p_id p) (p_metrics p) (has_cids p) (doesnt_have_cids p) (active_requests p)
    (max_concurrent p) c) id (peers m)) m.

Definition cleanup_blacklist (now : Z) m : PeerManager :=
  set_blacklist (filter (λ p, match expires_at p.2 with None => true | Some exp => now <? exp end = true) (blacklist m)) m.

(** ** Selection *)
Definition ids (l : list PeerState) : list string := p_id <$> l.

Definition faster (p q : PeerState) : bool := cmp_less (latency_ms (p_metrics p)) (latency_ms (p_metrics q)).
Definition wider (p q : PeerState) : bool := cmp_less (bandwidth_bps (p_metrics q)) (bandwidth_bps (p_metrics p)).
Definition better (clock : string → Z) (c : PeerScoringConfig) (p q : PeerState) : bool :=
  cmp_less (score (clock (p_id q)) c (p_metrics q)) (score (clock (p_id p)) c (p_metrics p)).
Definition less_loaded (p q : PeerState) : bool := active_requests p <? active_requests q.

Definition best (before : PeerState → PeerState → bool) (count : nat) (l : list PeerState) : list string :=
  ids (take count (sort_by before l)).

Definition round_robin (idx : Z) (count : nat) (peer_ids : list string) : list string :=
  let len := length peer_ids in
  (λ i, nth (Z.to_nat (as_u64 (idx + Z.of_nat i) mod Z.of_nat len)) peer_ids ""%string) <$> seq 0 (Nat.min count len).

Definition swap (i j : nat) (l : list string) : list string :=
  match l !! i, l !! j with
  | Some a, Some b => <[i := b]> (<[j := a]> l)
  | _, _ => l
  end.
(** The indices [i], [i - 1], ..., 1; [now] is the system time as a [usize]. *)
Fixpoint shuffle (now : Z) (i : nat) (l : list string) : list string :=
  match i with
  | O => l
  | S i' => shuffle now i' (swap i (Z.to_nat (as_u64 (now + Z.of_nat i) mod (Z.of_nat i + 1))) l)
  end.

Definition values m : list PeerState := (hash_iter (peers m)).*2.
Definition available (cid : Cid) m : list PeerState :=
  filter (λ p, can_accept_request p && might_have cid p) (values m).

Definition select_peers (now system : Z) (clock : string → Z) (cid : Cid) (count : nat)
    (strategy : SelectionStrategy) m : list string * PeerManager :=
  let m := cleanup_blacklist now m in
  let l := available cid m in
  match l with
  | [] => ([], m)
  | _ =>
    match strategy with
    | FastestFirst => (best faster count l, m)
    | HighestBandwidth => (best wider count l, m)
    | BestScore => (best (better clock (config m)) count l, m)
    | RoundRobin =>
      let len := Z.of_nat (length l) in
      (round_robin (round_robin_idx m) count (ids l),
       mkPeerManager (peers m) (blacklist m) (config m)
         (as_u64 (round_robin_idx m + Z.of_nat count) mod Z.max len 1))
    | Random => (take count (shuffle system (length l - 1) (ids l)), m)
    | LeastLoaded => (best less_loaded count l, m)
    end
  end.

Definition select_providers (now : Z) (clock : string → Z) (cid : Cid) (count : nat) m : list string * PeerManager :=
  let m := cleanup_blacklist now m in
  let providers := filter (λ p, can_accept_request p && has cid p) (values m) in
  (best (better clock (config m)) count providers, m).

(** ** Queries *)
Definition peer_ids m : list string := (hash_iter (peers m)).*1.
Definition connected_count m : nat := length (filter connected (values m)).
Definition blacklisted_count m : nat := size (blacklist m).
Definition get_scores (clock : string → Z) m : gmap string f64 :=
  map_imap (λ id p, Some (score (clock id) (config m) (p_metrics p))) (peers m).

(** [max_by] keeps the last of the greatest. *)
Definition best_peer (clock : string → Z) m : option string :=
  p_id <$> foldl (λ acc p,
    match acc with
    | None => Some p
    | Some a => if better clock (config m) a p then Some a else Some p
    end) None (filter connected (values m)).

Record PeerManagerStats : Type := mkPeerStats {
  total_peers : nat;
  connected_peers : nat;
  blacklisted_peers : nat;
  avg_score : f64;
  avg_latency_ms : f64;
  total_requests : Z;
  total_completed : Z;
  total_failed : Z;
}.
Definition sum_u64 (f : PeerMetrics → Z) m : Z := foldl (λ s p, as_u64 (s + f (p_metrics p))) 0 (values m).
Definition average_of (f : PeerState → f64) m : f64 :=
  let n := size (peers m) in
  if (0 <? n)%nat then f64_div (f64_sum (f <$> values m)) (f64_of n) else f64_zero.
Definition manager_stats (clock : string → Z) m : PeerManagerStats :=
  mkPeerStats (size (peers m)) (connected_count m) (size (blacklist m))
    (average_of (λ p, score (clock (p_id p)) (config m) (p_metrics p)) m)
    (average_of (λ p, latency_ms (p_metrics p)) m)
    (sum_u64 requests_sent m) (sum_u64 requests_completed m) (sum_u64 requests_failed m).
End peers.
