(* ===== verification/PeersFacts.v ===== *)
(** * Peers: who is selected

    On every history a selected peer is known, connected, has a free slot, is not banned and was not
    heard to lack the block; ranked strategies select the best; repeated failures end in a ban. *)

From Stdlib Require Import ZArith Lia List.
From stdpp Require Import base tactics numbers list gmap sets strings sorting.
From S2P Require Import Prelude Collections F64 Cid Peers.

#[local] Open Scope Z_scope.

(** ** Scores *)
Lemma score_bounds now c m : is_nan (score now c m) = false →
  f64_le f64_zero (score now c m) ∧ f64_le (score now c m) f64_one.
Proof.
  unfold score. match goal with |- context [f64_clamp ?x _ _] => set (s := x) end. intros Hnan.
  apply f64_clamp_bounds; [by vm_compute..|]. destruct s; try done.
Qed.

Section facts.
Context `{CidCrate} `{!HashIter string}.
Implicit Types (m : PeerManager) (p q : PeerState) (l : list PeerState).

(** ** Taking some of the available peers *)
Definition picks (count : nat) l (r : list string) : Prop :=
  r ⊆+ ids l ∧ length r = Nat.min count (length l).

Lemma best_picks before count l : picks count l (best before count l).
Proof.
  unfold picks, best, ids. split.
  - rewrite fmap_take. etrans; [apply submseteq_take|]. apply Permutation_submseteq. by rewrite sort_by_perm.
  - rewrite length_fmap, length_take. f_equal. apply Permutation_length, sort_by_perm.
Qed.

Lemma swap_perm i j (r : list string) : swap i j r ≡ₚ r.
Proof.
  unfold swap. destruct (r !! i) eqn:Hi; [|done]. destruct (r !! j) eqn:Hj; [|done]. by apply Permutation_insert_swap.
Qed.
Lemma shuffle_perm t i (r : list string) : shuffle t i r ≡ₚ r.
Proof. revert r. induction i as [|i IH]; intros r; cbn [shuffle]; [done|]. by rewrite IH, swap_perm. Qed.

Lemma shuffle_picks t i count l : picks count l (take count (shuffle t i (ids l))).
Proof.
  split.
  - etrans; [apply submseteq_take|]. apply Permutation_submseteq, shuffle_perm.
  - rewrite length_take. f_equal. rewrite (Permutation_length (shuffle_perm t i (ids l))). apply length_fmap.
Qed.

Lemma round_robin_picks idx count l : NoDup (ids l) → 0 <= idx < 2 ^ 62 → Z.of_nat (length l) < 2 ^ 62 →
  picks count l (round_robin idx count (ids l)).
Proof.
  intros Hnd Hidx Hlen. unfold picks, round_robin. rewrite length_fmap, length_seq. unfold ids. rewrite length_fmap.
  split; [|done]. set (len := length l) in *. set (ks := seq 0 (Nat.min count len)).
  set (pos := λ i : nat, Z.to_nat (as_u64 (idx + Z.of_nat i) mod Z.of_nat len)).
  assert (∀ i, i ∈ ks → as_u64 (idx + Z.of_nat i) = idx + Z.of_nat i ∧ Z.of_nat i < Z.of_nat len) as Hks.
  { intros i [_ Hi]%elem_of_seq. unfold as_u64. rewrite Z.mod_small by lia. lia. }
  assert (∀ i, i ∈ ks → (pos i < len)%nat) as Hpos.
  { intros i Hi. destruct (Hks i Hi) as [_ ?]. unfold pos.
    pose proof (Z.mod_pos_bound (as_u64 (idx + Z.of_nat i)) (Z.of_nat len) ltac:(lia)). lia. }
  assert (NoDup (pos <$> ks)) as Hndp.
  { apply NoDup_alt. intros a b k Ha Hb. rewrite !list_lookup_fmap_Some in Ha, Hb.
    destruct Ha as (i & -> & Hi), Hb as (j & Heq & Hj).
    pose proof (Hks i (list_elem_of_lookup_2 _ _ _ Hi)) as [Hui Hli]. pose proof (Hks j (list_elem_of_lookup_2 _ _ _ Hj)) as [Huj Hlj].
    apply lookup_seq in Hi as [-> _], Hj as [-> _]. unfold pos in Heq. rewrite Hui, Huj in Heq. simpl in *.
    assert ((idx + Z.of_nat a) mod Z.of_nat len = (idx + Z.of_nat b) mod Z.of_nat len) as Hmod.
    { pose proof (Z.mod_pos_bound (idx + Z.of_nat a) (Z.of_nat len) ltac:(lia)).
      pose proof (Z.mod_pos_bound (idx + Z.of_nat b) (Z.of_nat len) ltac:(lia)). lia. }
    pose proof (Z.div_mod (idx + Z.of_nat a) (Z.of_nat len) ltac:(lia)) as Hda.
    pose proof (Z.div_mod (idx + Z.of_nat b) (Z.of_nat len) ltac:(lia)) as Hdb. rewrite Hmod in Hda.
    set (qa := (idx + Z.of_nat a) / _) in *. set (qb := (idx + Z.of_nat b) / _) in *.
    assert (Z.of_nat len * (qa - qb) = Z.of_nat a - Z.of_nat b) as Hq by lia.
    assert (qa - qb = 0) as Hz by nia. rewrite Hz in Hq. lia. }
  change (((λ k, nth k (p_id <$> l) ""%string) ∘ pos) <$> ks ⊆+ p_id <$> l). rewrite list_fmap_compose.
  assert (∀ k, k ∈ pos <$> ks → (k < length (p_id <$> l))%nat) as Hin.
  { intros k (i & -> & Hi)%list_elem_of_fmap. rewrite length_fmap. by apply Hpos. }
  apply NoDup_submseteq.
  - apply NoDup_fmap_2_strong; [|done]. intros a b Ha Hb Heq. apply NoDup_ListNoDup in Hnd.
    destruct (NoDup_nth (ids l) ""%string) as [Hinj _]. apply (Hinj Hnd); [by apply Hin..|done].
  - intros x (k & -> & Hk)%list_elem_of_fmap. apply list_elem_of_In, nth_In, Hin, Hk.
Qed.

(** ** The invariant

    [n] bounds the number of peers added so far. *)
Record pm_ok (n now : Z) m : Prop := {
  pm_ids : ∀ id p, peers m !! id = Some p → p_id p = id;
  pm_disjoint : ∀ id p, peers m !! id = Some p → has_cids p ## doesnt_have_cids p;
  pm_unbanned : ∀ id p, peers m !! id = Some p → is_blacklisted now id m = false;
  pm_active : ∀ id p, peers m !! id = Some p →
    0 <= active_requests p < 2 ^ 32 ∧ 0 <= consecutive_failures (p_metrics p) < Z.max 1 (max_failures (config m));
  pm_size : Z.of_nat (size (peers m)) <= n;
  pm_idx : 0 <= round_robin_idx m < Z.max n 1;
}.

Definition peer_ok m (id : string) p : Prop :=
  p_id p = id ∧ has_cids p ## doesnt_have_cids p
  ∧ 0 <= active_requests p < 2 ^ 32 ∧ 0 <= consecutive_failures (p_metrics p) < Z.max 1 (max_failures (config m)).

Lemma new_pm_ok now c : pm_ok 0 now (PeerManager_new c).
Proof. split; simpl; try (intros id p; by rewrite lookup_empty); [by rewrite map_size_empty|lia]. Qed.

Lemma is_blacklisted_later now now' id m : now <= now' → is_blacklisted now id m = false → is_blacklisted now' id m = false.
Proof.
  unfold is_blacklisted. destruct (blacklist m !! id) as [[? ? [e|]]|]; simpl; try done. intros Hle.
  rewrite !negb_false_iff, !Z.leb_le. lia.
Qed.
Lemma pm_later n n' now now' m : n <= n' → now <= now' → pm_ok n now m → pm_ok n' now' m.
Proof.
  intros Hn Hle [H1 H2 H3 H4 H5 H6]. split; try done; [|lia..]. intros id p Hp.
  by eapply is_blacklisted_later, H3.
Qed.

(** Changing a peer that is there. *)
Lemma pm_alter n now m id (f : PeerState → PeerState) :
  (∀ p, peer_ok m id p → peer_ok m id (f p)) → pm_ok n now m → pm_ok n now (set_peers (alter f id (peers m)) m).
Proof.
  intros Hf [H1 H2 H3 H4 H5 H6].
  assert (∀ id' p', alter f id (peers m) !! id' = Some p' → peer_ok m id' p' ∧ is_Some (peers m !! id')) as Hp.
  { intros id' p'. rewrite lookup_alter_Some. intros [(-> & p & Hp & ->)|[_ Hp]].
    - split; [|by rewrite Hp]. apply Hf. split_and!; eauto; by eapply H4.
    - split; [|by rewrite Hp]. split_and!; eauto; by eapply H4. }
  split; simpl; try done.
  - by intros id' p' [(? & _) _]%Hp.
  - by intros id' p' [(_ & ? & _) _]%Hp.
  - intros id' p' [_ [p Hp']]%Hp. by apply (H3 id' p).
  - by intros id' p' [(_ & _ & ?) _]%Hp.
  - by rewrite <- size_dom, dom_alter_L, size_dom.
Qed.

Lemma pm_blacklist n now m id why d : pm_ok n now m → pm_ok n now (blacklist_peer now id why d m).
Proof.
  intros [H1 H2 H3 H4 H5 H6]. split; simpl; try (intros id' p; rewrite lookup_delete_Some; intros [Hne Hp]); eauto.
  - unfold is_blacklisted. simpl. rewrite lookup_insert_ne by done. by apply (H3 id' p).
  - rewrite map_size_delete. destruct (_ !! _); simpl; lia.
Qed.

Lemma pm_add n now m id : pm_ok n now m → pm_ok (n + 1) now (add_peer now id m).
Proof.
  intros Hm. unfold add_peer. destruct (is_blacklisted now id m) eqn:Hb; [by eapply pm_later; [| |exact Hm]; lia|].
  destruct (peers m !! id) eqn:Hid; [by eapply pm_later; [| |exact Hm]; lia|].
  destruct Hm as [H1 H2 H3 H4 H5 H6].
  split; simpl; try (intros id' p; rewrite lookup_insert_Some; intros [[<- <-]|[_ Hp]]); eauto; simpl.
  - set_solver.
  - lia.
  - rewrite map_size_insert, Hid. simpl. lia.
  - lia.
Qed.

Lemma pm_remove n now m id : pm_ok n now m → pm_ok n now (remove_peer id m).
Proof.
  intros [H1 H2 H3 H4 H5 H6]. split; simpl; try (intros id' p; rewrite lookup_delete_Some; intros [Hne Hp]); eauto.
  rewrite map_size_delete. destruct (_ !! _); simpl; lia.
Qed.

Lemma blacklist_subset now m b : (∀ id e, b !! id = Some e → blacklist m !! id = Some e) →
  ∀ id, is_blacklisted now id m = false → is_blacklisted now id (set_blacklist b m) = false.
Proof.
  intros Hb id. unfold is_blacklisted. simpl. destruct (b !! id) as [e|] eqn:He; [|done]. by rewrite (Hb id e).
Qed.
Lemma pm_fewer_bans n now m b : (∀ id e, b !! id = Some e → blacklist m !! id = Some e) →
  pm_ok n now m → pm_ok n now (set_blacklist b m).
Proof. intros Hb [H1 H2 H3 H4 H5 H6]. split; try done. intros id p Hp. by eapply blacklist_subset, H3. Qed.

Lemma pm_cleanup n now m : pm_ok n now m → pm_ok n now (cleanup_blacklist now m).
Proof. apply pm_fewer_bans. intros id e [? _]%map_lookup_filter_Some. done. Qed.

Lemma release_range m id p : peer_ok m id p → 0 <= release p < 2 ^ 32.
Proof. intros (_ & _ & ?). unfold release. lia. Qed.

(** What a failure does to a peer: it is counted, and then the peer is banned or stays. *)
Definition failed (now : Z) m p : PeerState :=
  set_metrics (metrics_failure now (ewma_alpha (config m)) (p_metrics p)) (release p) p.
Lemma record_failure_cases now id m p : peers m !! id = Some p →
  let m' := set_peers (<[id := failed now m p]> (peers m)) m in
  (∃ why d, record_failure now id m = blacklist_peer now id why d m')
  ∨ record_failure now id m = m' ∧ consecutive_failures (p_metrics (failed now m p)) < max_failures (config m).
Proof.
  intros Hp m'. unfold record_failure. rewrite Hp. fold (failed now m p). cbv zeta. fold m'.
  destruct (Z.leb_spec (max_failures (config m')) (consecutive_failures (p_metrics (failed now m p)))) as [|Hlt]; [eauto|].
  destruct (f64_ltb _ _); eauto.
Qed.

Lemma pm_failure n now m id : pm_ok n now m → pm_ok n now (record_failure now id m).
Proof.
  intros Hm. destruct (peers m !! id) as [p|] eqn:Hp; [|unfold record_failure; by rewrite Hp].
  destruct (record_failure_cases now id m p Hp) as [(why & d & ->)|[-> Hlt]].
  { pose proof (pm_blacklist n now m id why d Hm) as Hb.
    unfold blacklist_peer, remove_peer, set_peers, set_blacklist in *. simpl in *. by rewrite delete_insert_eq. }
  assert (<[id := failed now m p]> (peers m) = alter (λ _, failed now m p) id (peers m)) as ->.
  { apply map_eq. intros k. destruct (decide (k = id)) as [->|];
      [by rewrite lookup_insert_eq, lookup_alter_eq, Hp|by rewrite lookup_insert_ne, lookup_alter_ne]. }
  apply pm_alter; [|done]. intros _ _. destruct Hm as [H1 H2 H3 H4 _ _].
  assert (peer_ok m id p) as Hok by (split_and!; eauto; by eapply H4).
  pose proof (release_range m id p Hok). destruct Hok as (? & ? & _ & ?). unfold peer_ok. simpl in *.
  pose proof (Z.mod_pos_bound (consecutive_failures (p_metrics p) + 1) (2 ^ 32)). unfold as_u32 in *. split_and!; try done; lia.
Qed.

(** ** Histories *)
Inductive peer_op : Type :=
| PAdd (id : string)
| PRemove (id : string)
| PSuccess (id : string) (bytes latency : Z)
| PFailure (id : string)
| PHave (id : string) (cid : Cid)
| PDontHave (id : string) (cid : Cid)
| PSent (id : string)
| PConnected (id : string) (c : bool)
| PBlacklist (id : string) (why : BlacklistReason) (duration : option Z)
| PUnblacklist (id : string)
| PCleanup
| PSelect (system : Z) (clock : string → Z) (cid : Cid) (count : nat) (strategy : SelectionStrategy)
| PProviders (clock : string → Z) (cid : Cid) (count : nat).

Definition exec (now : Z) (o : peer_op) m : PeerManager :=
  match o with
  | PAdd id => add_peer now id m
  | PRemove id => remove_peer id m
  | PSuccess id bytes latency => record_success now id bytes latency m
  | PFailure id => record_failure now id m
  | PHave id cid => record_has id cid m
  | PDontHave id cid => record_doesnt_have id cid m
  | PSent id => mark_request_sent id m
  | PConnected id c => set_connected id c m
  | PBlacklist id why d => blacklist_peer now id why d m
  | PUnblacklist id => unblacklist_peer id m
  | PCleanup => cleanup_blacklist now m
  | PSelect system clock cid count strategy => (select_peers now system clock cid count strategy m).2
  | PProviders clock cid count => (select_providers now clock cid count m).2
  end.

(** The states reached by operations at times that never decrease; [n] operations so far, the last at
    [now]. *)
Inductive history (c : PeerScoringConfig) : nat → Z → PeerManager → Prop :=
| h_new now : history c 0 now (PeerManager_new c)
| h_step n now now' o m : history c n now m → now <= now' → history c (S n) now' (exec now' o m).

Lemma length_values m : length (values m) = size (peers m).
Proof. unfold values. by rewrite length_fmap, length_hash_iter. Qed.
Lemma length_available cid m : (length (available cid m) <= size (peers m))%nat.
Proof. unfold available. rewrite <- length_values. apply length_filter. Qed.

Lemma pm_exec_ok n now o m : pm_ok n now m → 0 <= n → pm_ok (n + 1) now (exec now o m).
Proof.
  intros Hm Hn. assert (∀ m', pm_ok n now m' → pm_ok (n + 1) now m') as Hmore by (intros; eapply pm_later; [| |done]; lia).
  destruct o as [id|id|id bytes latency|id|id cid|id cid|id|id b|id why d|id| |system clock cid count strategy|clock cid count];
    simpl; [by apply pm_add|apply Hmore..].
  - by apply pm_remove.
  - apply pm_alter; [|done]. intros p Hp. pose proof (release_range m id p Hp). destruct Hp as (? & ? & ?). unfold peer_ok. simpl. split_and!; try done; lia.
  - by apply pm_failure.
  - apply pm_alter; [|done]. intros p (? & ? & ?). split_and!; simpl; [done|set_solver|lia..].
  - apply pm_alter; [|done]. intros p (? & ? & ?). split_and!; simpl; [done|set_solver|lia..].
  - apply pm_alter; [|done]. intros p (? & ? & ?). split_and!; simpl; [done..| | |lia|lia]; apply Z.mod_pos_bound; lia.
  - apply pm_alter; [|done]. intros p (? & ? & ?). unfold peer_ok. simpl. tauto.
  - by apply pm_blacklist.
  - apply pm_fewer_bans; [|done]. intros id' e. rewrite lookup_delete_Some. tauto.
  - by apply pm_cleanup.
  - unfold select_peers. pose proof (pm_cleanup n now m Hm) as Hc. set (m1 := cleanup_blacklist now m) in *.
    pose proof (length_available cid m1). destruct (available cid m1) as [|p l] eqn:Hl; [done|].
    destruct strategy; try done. destruct Hc as [H1 H2 H3 H4 H5 H6]. split; try done. cbn [snd round_robin_idx].
    set (len := Z.of_nat (length (p :: l))). assert (1 <= len <= n) by (unfold len; simpl length in *; lia).
    pose proof (Z.mod_pos_bound (as_u64 (round_robin_idx m1 + Z.of_nat count)) (Z.max len 1) ltac:(lia)). lia.
  - by apply pm_cleanup.
Qed.

Lemma pm_history_ok c n now m : history c n now m → pm_ok (Z.of_nat n) now m.
Proof.
  induction 1 as [now|n now now' o m _ IH Hle]; [apply new_pm_ok|].
  rewrite Nat2Z.inj_succ. apply pm_exec_ok; [|lia]. by eapply pm_later; [| |exact IH].
Qed.

Lemma pm_exec_config now o m : config (exec now o m) = config m.
Proof.
  destruct o as [id|id|id bytes latency|id|id cid|id cid|id|id b|id why d|id| |system clock cid count strategy|clock cid count];
    simpl; try done.
  - unfold add_peer. destruct (is_blacklisted now id m); [done|]. by destruct (peers m !! id).
  - destruct (peers m !! id) as [p|] eqn:Hp; [|unfold record_failure; by rewrite Hp].
    by destruct (record_failure_cases now id m p Hp) as [(why & d & ->)|[-> _]].
  - unfold select_peers. destruct (available cid _); [done|]. by destruct strategy.
Qed.
Lemma pm_history_config c n now m : history c n now m → config m = c.
Proof. induction 1 as [|n now now' o m _ IH _]; [done|]. by rewrite pm_exec_config. Qed.

(** ** Selection *)
Lemma values_peers n now m p : pm_ok n now m → p ∈ values m → peers m !! p_id p = Some p.
Proof.
  intros Hm ([k q] & -> & Hq%elem_of_hash_iter)%list_elem_of_fmap. simpl. by rewrite (pm_ids _ _ _ Hm k q Hq).
Qed.
Lemma NoDup_ids n now m (P : PeerState → Prop) `{!∀ p, Decision (P p)} : pm_ok n now m → NoDup (ids (filter P (values m))).
Proof.
  intros Hm. assert (∀ l, NoDup l → (∀ p, p ∈ l → peers m !! p_id p = Some p) → NoDup (ids l)) as Hids.
  { intros l Hl Hin. unfold ids. apply NoDup_fmap_2_strong; [|done]. intros p q Hp%Hin Hq%Hin Heq.
    rewrite Heq in Hp. congruence. }
  apply Hids.
  - apply NoDup_filter. unfold values. pose proof (NoDup_hash_iter_keys (peers m)) as Hk.
    apply NoDup_fmap_2_strong.
    + intros [k p] [k' p'] Hp%elem_of_hash_iter Hp'%elem_of_hash_iter. simpl. intros <-. f_equal.
      by rewrite <- (pm_ids _ _ _ Hm k p Hp), <- (pm_ids _ _ _ Hm k' p Hp').
    + by eapply NoDup_fmap_1.
  - intros p [_ Hp]%list_elem_of_filter. by eapply values_peers.
Qed.

Lemma select_picks n now system clock cid count strategy m : pm_ok n now m → n < 2 ^ 62 →
  picks count (available cid m) (select_peers now system clock cid count strategy m).1.
Proof.
  intros Hm Hn. unfold select_peers. change (available cid (cleanup_blacklist now m)) with (available cid m).
  pose proof (length_available cid m) as Hlen. pose proof (NoDup_ids n now m (λ p, can_accept_request p && might_have cid p) Hm) as Hnd.
  fold (available cid m) in Hnd. destruct Hm as [_ _ _ _ H5 H6].
  destruct (available cid m) as [|p l] eqn:Hl; [split; [constructor|by rewrite Nat.min_0_r]|]. rewrite <- Hl in *.
  destruct strategy; try apply best_picks.
  - apply round_robin_picks; [done|simpl; lia|lia].
  - apply shuffle_picks.
Qed.

Lemma picks_spec n now m (P : PeerState → bool) count r : pm_ok n now m → picks count (filter (λ p, P p) (values m)) r →
  NoDup r ∧ length r = Nat.min count (length (filter (λ p, P p) (values m)))
  ∧ ∀ id, id ∈ r → ∃ p, peers m !! id = Some p ∧ P p ∧ is_blacklisted now id m = false.
Proof.
  intros Hm [Hsub Hlen]. split; [|split; [done|]].
  - pose proof (NoDup_ids n now m (λ p, P p) Hm) as Hnd. apply submseteq_Permutation in Hsub as [k Hk].
    rewrite Hk in Hnd. by apply NoDup_app in Hnd as (? & _ & _).
  - intros id Hid. eapply elem_of_submseteq in Hid; [|exact Hsub].
    apply list_elem_of_fmap in Hid as (p & -> & [HP Hp]%list_elem_of_filter).
    exists p. pose proof (values_peers _ _ _ _ Hm Hp) as Hpp. split_and!; [done|done|]. by eapply pm_unbanned.
Qed.

(** Ranking by a key that is nowhere NaN: no one left out beats anyone taken. *)
Section ranking.
Context (key : PeerState → f64).
Definition safe_key p : f64 := if is_nan (key p) then f64_zero else key p.
Definition ranked p q : Prop := f64_le (safe_key q) (safe_key p).

Lemma safe_key_nan p : is_nan (safe_key p) = false.
Proof. unfold safe_key. by destruct (is_nan (key p)) eqn:?. Qed.
#[local] Instance ranked_trans : Transitive ranked.
Proof. intros p q r Hpq Hqr. unfold ranked in *. eapply f64_le_trans; try apply safe_key_nan; done. Qed.

Lemma best_ranked count l p q : (∀ p, p ∈ l → is_nan (key p) = false) → NoDup (ids l) →
  p ∈ l → q ∈ l → p_id p ∈ best (λ p q, cmp_less (key q) (key p)) count l →
  p_id q ∉ best (λ p q, cmp_less (key q) (key p)) count l → f64_le (key q) (key p).
Proof.
  intros Hnan Hnd Hp Hq. unfold best.
  rewrite (sort_by_ext _ (λ p q, f64_ltb (safe_key q) (safe_key p))).
  2: { intros x y Hx Hy. rewrite cmp_less_ltb. unfold safe_key. by rewrite !Hnan. }
  destruct (sort_by_spec (λ p q, f64_ltb (safe_key q) (safe_key p)) ranked) with (l := l) as [Hperm Hs];
    [intros x y Hlt; apply f64_ltb_le; [apply safe_key_nan..|done]|done|].
  set (s := sort_by _ l) in *. intros (p' & Heq & Hp')%list_elem_of_fmap Hnq.
  assert (p ∈ take count s) as Hpt.
  { assert (p' ∈ l) as Hp'l by (rewrite <- Hperm; by eapply elem_of_take_drop_l || (rewrite <- (take_drop count s); apply elem_of_app; by left)).
    assert (∀ x y, x ∈ l → y ∈ l → p_id x = p_id y → x = y) as Hinj.
    { intros x y [i Hi]%list_elem_of_lookup [j Hj]%list_elem_of_lookup Hxy. rewrite NoDup_alt in Hnd.
      assert (i = j) as <-; [|congruence]. apply (Hnd i j (p_id x)); unfold ids; rewrite list_lookup_fmap; [by rewrite Hi|by rewrite Hj, Hxy]. }
    by rewrite (Hinj p p'). }
  assert (q ∈ drop count s) as Hqd.
  { assert (q ∈ take count s ++ drop count s) as [Ht|]%elem_of_app by (rewrite take_drop; by rewrite Hperm); [|done].
    destruct Hnq. apply list_elem_of_fmap. by exists q. }
  rewrite <- (take_drop count s) in Hs. apply StronglySorted_app in Hs as (Hcross & _ & _).
  specialize (Hcross p q Hpt Hqd). unfold ranked, safe_key in Hcross. by rewrite !Hnan in Hcross.
Qed.
End ranking.

(** ** Repeated failures *)
Lemma record_failure_none now id m : peers m !! id = None → record_failure now id m = m.
Proof. unfold record_failure. by intros ->. Qed.

Lemma record_failure_step now id m p : peers m !! id = Some p →
  0 <= consecutive_failures (p_metrics p) < 2 ^ 32 - 1 →
  let m' := record_failure now id m in
  config m' = config m ∧
  (peers m' !! id = None ∨ ∃ p', peers m' !! id = Some p'
     ∧ consecutive_failures (p_metrics p') = consecutive_failures (p_metrics p) + 1
     ∧ consecutive_failures (p_metrics p') < max_failures (config m)).
Proof.
  intros Hp Hc m'. unfold m'. destruct (record_failure_cases now id m p Hp) as [(why & d & ->)|[-> Hlt]]; (split; [done|]).
  - left. simpl. apply lookup_delete_eq.
  - right. simpl. rewrite lookup_insert_eq. eexists. split; [done|]. split; [|done]. simpl.
    unfold as_u32. apply Z.mod_small. lia.
Qed.

Lemma failures_none id times m : peers m !! id = None →
  peers (foldl (λ m now, record_failure now id m) m times) !! id = None.
Proof.
  revert m. induction times as [|t ts IH]; intros m Hm; simpl; [done|]. apply IH. by rewrite record_failure_none.
Qed.
Lemma failures_ban id times m p : max_failures (config m) < 2 ^ 32 → peers m !! id = Some p →
  0 <= consecutive_failures (p_metrics p) < Z.max 1 (max_failures (config m)) →
  max_failures (config m) <= consecutive_failures (p_metrics p) + Z.of_nat (length times) → times ≠ [] →
  peers (foldl (λ m now, record_failure now id m) m times) !! id = None.
Proof.
  intros Hmax. revert m p Hmax. induction times as [|now times IH]; intros m p Hmax Hp Hc Hlen Hne; [done|]. simpl.
  destruct (record_failure_step now id m p Hp) as [Hcfg Hstep]; [lia|]. simpl length in Hlen.
  destruct Hstep as [Hgone|(p' & Hp' & Heq & Hlt)]; [by apply failures_none|].
  destruct times as [|t ts]; [simpl in Hlen; lia|]. apply (IH _ p'); rewrite ?Hcfg; try done; lia.
Qed.
End facts.

(** ** Properties *)
Section properties.
Context `{CidCrate} `{!HashIter string}.

(** Whatever has happened to the manager and whichever the strategy, the peers selected for a block
    are distinct and as many as asked for or available, and each of them is known, connected, below
    its limit of requests, not known to lack the block, and not banned. *)
Theorem selected_peers_fit c n now m system clock cid count strategy :
  history c n now m → Z.of_nat n < 2 ^ 62 →
  let r := (select_peers now system clock cid count strategy m).1 in
  NoDup r ∧ length r = Nat.min count (length (available cid m))
  ∧ ∀ id, id ∈ r → ∃ p, peers m !! id = Some p ∧ can_accept_request p = true ∧ cid ∉ doesnt_have_cids p
      ∧ is_blacklisted now id m = false.
Proof.
  intros Hh Hn r. pose proof (pm_history_ok c n now m Hh) as Hm.
  destruct (picks_spec _ now m (λ p, can_accept_request p && might_have cid p) count r Hm) as (Hnd & Hlen & Hin).
  { by apply (select_picks (Z.of_nat n)). }
  split; [done|]. split; [done|]. intros id Hid. destruct (Hin id Hid) as (p & Hp & HP & Hb).
  apply Is_true_true, andb_true_iff in HP as [Hacc Hmight]. apply bool_decide_eq_true in Hmight. eauto.
Qed.

(** Providers: the peers selected announced the block, fit as above, and are the best by score: unless
    some score is NaN, no provider left out has a higher score than one selected. *)
Theorem providers_best c n now m clock cid count :
  history c n now m →
  (∀ id p, peers m !! id = Some p → is_nan (score (clock id) (config m) (p_metrics p)) = false) →
  let r := (select_providers now clock cid count m).1 in
  let provider id p := peers m !! id = Some p ∧ can_accept_request p = true ∧ cid ∈ has_cids p in
  NoDup r ∧ (∀ id, id ∈ r → ∃ p, provider id p ∧ is_blacklisted now id m = false)
  ∧ ∀ id id' p p', id ∈ r → id' ∉ r → provider id p → provider id' p' →
      f64_le (score (clock id') (config m) (p_metrics p')) (score (clock id) (config m) (p_metrics p)).
Proof.
  intros Hh Hnan r provider. pose proof (pm_history_ok c n now m Hh) as Hm.
  set (P := λ p, can_accept_request p && has cid p).
  assert (r = best (better clock (config m)) count (filter (λ p, P p) (values m))) as Hr by done.
  destruct (picks_spec _ now m P count r Hm) as (Hnd & _ & Hin); [rewrite Hr; apply best_picks|].
  assert (∀ p, P p ↔ can_accept_request p = true ∧ cid ∈ has_cids p) as HP.
  { intros p. unfold P, has. by rewrite Is_true_true, andb_true_iff, bool_decide_eq_true. }
  split; [done|]. split.
  { intros id Hid. destruct (Hin id Hid) as (p & Hp & Hpp%HP & Hb). exists p. by split. }
  intros id id' p p' Hid Hid' (Hp & HPp) (Hp' & HPp').
  assert (∀ id p, provider id p → p ∈ filter (λ p, P p) (values m) ∧ p_id p = id) as Hmem.
  { intros i q (Hq & HPq). split; [|by eapply pm_ids]. apply list_elem_of_filter. split; [by apply HP|].
    apply list_elem_of_fmap. exists (i, q). split; [done|]. by apply elem_of_hash_iter. }
  destruct (Hmem id p) as [Hpin Hpid]; [done|]. destruct (Hmem id' p') as [Hpin' Hpid']; [done|].
  rewrite <- Hpid, <- Hpid' in *. rewrite Hr in Hid, Hid'.
  eapply (best_ranked (λ p, score (clock (p_id p)) (config m) (p_metrics p))); [|by eapply NoDup_ids|exact Hpin|exact Hpin'|exact Hid|exact Hid'].
  intros q [_ Hq]%list_elem_of_filter. apply Hnan. by eapply values_peers.
Qed.

(** C40. A peer that keeps failing is banned: after as many failures in a row as the configuration
    allows, and at least one, it is no longer among the peers. *)
Theorem failing_peer_banned c n now m id times :
  history c n now m → max_failures c < 2 ^ 32 → max_failures c <= Z.of_nat (length times) → times ≠ [] →
  peers (foldl (λ m now, record_failure now id m) m times) !! id = None.
Proof.
  intros Hh Hmax Hlen Hne. pose proof (pm_history_ok c n now m Hh) as Hm.
  pose proof (pm_history_config c n now m Hh) as Hc.
  destruct (peers m !! id) as [p|] eqn:Hp.
  - destruct (pm_active _ _ _ Hm id p Hp) as [_ Hf]. rewrite Hc in Hf. eapply failures_ban; rewrite ?Hc; try done. lia.
  - by apply failures_none.
Qed.
End properties.

(** ** Two peers, one of which has the block *)
Import Reference.
#[local] Existing Instance default_iter.
Definition a_cid : Cid := new_v1 RAW (poly_digest Sha2_256 [7]).
Definition sample_ops : list peer_op := [PAdd "a"; PAdd "b"; PHave "a" a_cid; PSent "a"; PFailure "b"].
Definition sample_manager : PeerManager :=
  foldl (λ m o, exec 5 o m) PeerManager_with_defaults sample_ops.
Lemma sample_history : history PeerScoringConfig_default 5 5 sample_manager.
Proof. repeat (eapply h_step; [|reflexivity]). apply (h_new _ 5). Qed.

Lemma selected_peers_fit_witness :
  let r := (select_peers 5 0 (λ _, 5) a_cid 1 LeastLoaded sample_manager).1 in
  r = ["b"%string] ∧ NoDup r ∧ length r = Nat.min 1 (length (available a_cid sample_manager))
  ∧ ∀ id, id ∈ r → ∃ p, peers sample_manager !! id = Some p ∧ can_accept_request p = true ∧ a_cid ∉ doesnt_have_cids p
      ∧ is_blacklisted 5 id sample_manager = false.
Proof.
  split; [by vm_compute|].
  apply (selected_peers_fit PeerScoringConfig_default 5 5 sample_manager _ _ _ _ LeastLoaded sample_history). by vm_compute.
Defined.

Lemma sample_scores id p : peers sample_manager !! id = Some p →
  is_nan (score 5 (config sample_manager) (p_metrics p)) = false.
Proof.
  assert (forallb (λ q, negb (is_nan (score 5 (config sample_manager) (p_metrics q.2)))) (map_to_list (peers sample_manager)) = true) as Hall
    by by vm_compute.
  intros Hp%elem_of_map_to_list. rewrite forallb_forall in Hall. apply list_elem_of_In, Hall in Hp. by apply negb_true_iff in Hp.
Qed.
Lemma providers_best_witness :
  let r := (select_providers 5 (λ _, 5) a_cid 3 sample_manager).1 in
  r = ["a"%string] ∧
  (let provider id p := peers sample_manager !! id = Some p ∧ can_accept_request p = true ∧ a_cid ∈ has_cids p in
   NoDup r ∧ (∀ id, id ∈ r → ∃ p, provider id p ∧ is_blacklisted 5 id sample_manager = false)
   ∧ ∀ id id' p p', id ∈ r → id' ∉ r → provider id p → provider id' p' →
      f64_le (score 5 (config sample_manager) (p_metrics p')) (score 5 (config sample_manager) (p_metrics p))).
Proof.
  split; [by vm_compute|].
  apply (providers_best PeerScoringConfig_default 5 5 sample_manager (λ _, 5) a_cid 3 sample_history). exact sample_scores.
Defined.

(** The tenth failure in a row bans the peer. *)
Lemma failing_peer_banned_witness :
  (λ p, consecutive_failures (p_metrics p)) <$> peers sample_manager !! "b"%string = Some 1
  ∧ peers (foldl (λ m now, record_failure now "b" m) sample_manager [6; 7; 8; 9; 10; 11; 12; 13; 14; 15]) !! "b"%string = None.
Proof.
  split; [by vm_compute|].
  by apply (failing_peer_banned PeerScoringConfig_default 5 5 sample_manager "b" _ sample_history); vm_compute.
Defined.
