(* ===== verification/PeerBreaker.v ===== *)
(** * The circuit breaker of a peer connection: [crates/ipfrs-transport/src/peer_manager.rs]

    The breaker opens when enough failures fall into a sliding window, rejects requests until a
    timeout, then lets them through on probation.  Every method but [reset] holds the lock of the
    state from start to end, so a behaviour is a sequence of these operations; [now] is the clock.
    Counters are [u32]s that wrap as in a release build. *)

From Stdlib Require Import ZArith Lia List.
From stdpp Require Import base tactics numbers list sorting.
From S2P Require Import Prelude.

#[local] Open Scope Z_scope.

Inductive CircuitState : Type := Closed | Open | HalfOpen.
#[export] Instance CircuitState_eq_dec : EqDecision CircuitState.
Proof. solve_decision. Defined.

Record CircuitBreakerConfig : Type := mkBreakerConfig {
  failure_threshold : Z;
  timeout : Z;
  success_threshold : Z;
  window_duration : Z;
}.
Definition CircuitBreakerConfig_default : CircuitBreakerConfig := mkBreakerConfig 5 (secs 30) 2 (secs 60).

Record CircuitBreaker : Type := mkBreaker {
  cb_config : CircuitBreakerConfig;
  state : CircuitState;
  failure_count : Z;
  success_count : Z;
  last_failure_time : option Z;
  opened_at : option Z;
  failure_timestamps : list Z;
}.
Definition CircuitBreaker_new (c : CircuitBreakerConfig) : CircuitBreaker := mkBreaker c Closed 0 0 None None [].

Definition elapsed_since (now t : Z) : Z := Z.max 0 (now - t).

Definition is_request_allowed (now : Z) (b : CircuitBreaker) : bool * CircuitBreaker :=
  match state b with
  | Closed => (true, b)
  | Open =>
    match opened_at b with
    | Some opened_time =>
      if timeout (cb_config b) <=? elapsed_since now opened_time
      then (true, mkBreaker (cb_config b) HalfOpen (failure_count b) 0 (last_failure_time b) (opened_at b) (failure_timestamps b))
      else (false, b)
    | None => (false, b)
    end
  | HalfOpen => (true, b)
  end.

Definition record_success (b : CircuitBreaker) : CircuitBreaker :=
  match state b with
  | Closed => mkBreaker (cb_config b) Closed 0 (success_count b) (last_failure_time b) (opened_at b) []
  | HalfOpen =>
    let success_count := as_u32 (success_count b + 1) in
    if success_threshold (cb_config b) <=? success_count
    then mkBreaker (cb_config b) Closed 0 0 (last_failure_time b) (opened_at b) []
    else mkBreaker (cb_config b) HalfOpen (failure_count b) success_count (last_failure_time b) (opened_at b) (failure_timestamps b)
  | Open => b
  end.

(** [while let Some(&oldest) = timestamps.front()]. *)
Fixpoint drop_old (now window : Z) (stamps : list Z) : list Z :=
  match stamps with
  | [] => []
  | oldest :: stamps' => if window <? elapsed_since now oldest then drop_old now window stamps' else stamps
  end.

Definition record_failure (now : Z) (b : CircuitBreaker) : CircuitBreaker :=
  let stamps := drop_old now (window_duration (cb_config b)) (failure_timestamps b ++ [now]) in
  match state b with
  | Closed =>
    let failure_count := as_u32 (failure_count b + 1) in
    if failure_threshold (cb_config b) <=? as_u32 (Z.of_nat (length stamps))
    then mkBreaker (cb_config b) Open failure_count (success_count b) (Some now) (Some now) stamps
    else mkBreaker (cb_config b) Closed failure_count (success_count b) (Some now) (opened_at b) stamps
  | HalfOpen => mkBreaker (cb_config b) Open (failure_count b) 0 (Some now) (Some now) stamps
  | Open => mkBreaker (cb_config b) Open (failure_count b) (success_count b) (Some now) (opened_at b) stamps
  end.

Definition reset (b : CircuitBreaker) : CircuitBreaker := CircuitBreaker_new (cb_config b).

Record CircuitBreakerStats : Type := mkBreakerStats {
  cs_state : CircuitState;
  cs_failure_count : Z;
  cs_success_count : Z;
  window_failures : Z;
}.
Definition stats (b : CircuitBreaker) : CircuitBreakerStats :=
  mkBreakerStats (state b) (failure_count b) (success_count b) (as_u32 (Z.of_nat (length (failure_timestamps b)))).

(** ** Histories *)
Inductive breaker_op : Type := BAllow | BSuccess | BFailure.
Definition exec (now : Z) (o : breaker_op) (b : CircuitBreaker) : CircuitBreaker :=
  match o with
  | BAllow => (is_request_allowed now b).2
  | BSuccess => record_success b
  | BFailure => record_failure now b
  end.
Inductive history (c : CircuitBreakerConfig) : nat → Z → CircuitBreaker → Prop :=
| h_new now : history c 0 now (CircuitBreaker_new c)
| h_step n now now' o b : history c n now b → now <= now' → history c (S n) now' (exec now' o b).

(** ** The invariant *)
Record cb_ok (c : CircuitBreakerConfig) (n : nat) (now : Z) (b : CircuitBreaker) : Prop := {
  cb_cfg : cb_config b = c;
  cb_sorted : StronglySorted Z.le (failure_timestamps b);
  cb_past : Forall (λ t, t <= now) (failure_timestamps b);
  cb_len : (length (failure_timestamps b) <= n)%nat;
  cb_below : state b = Closed → Z.of_nat (length (failure_timestamps b)) < Z.max 1 (failure_threshold c);
  cb_opened : state b ≠ Closed → is_Some (opened_at b);
  cb_opened_past : ∀ t, opened_at b = Some t → t <= now;
  cb_probation : state b = HalfOpen → 0 <= success_count b < Z.max 1 (success_threshold c);
}.

Lemma drop_old_filter now w l : 0 <= w → StronglySorted Z.le l → Forall (λ t, t <= now) l →
  drop_old now w l = filter (λ t, now - w <= t) l.
Proof.
  intros Hw. induction 1 as [|t l Hl IH Ht]; intros Hpast; [done|]. apply Forall_cons in Hpast as [Htn Hpast].
  simpl. rewrite filter_cons. unfold elapsed_since. destruct (Z.ltb_spec w (Z.max 0 (now - t))).
  - rewrite decide_False by lia. by apply IH.
  - rewrite decide_True by lia. f_equal. symmetry. clear IH Hl.
    induction Ht as [|u l Hu _ IH]; [done|]. rewrite filter_cons, decide_True by lia. f_equal. apply IH.
    by apply Forall_cons in Hpast as [_ ?].
Qed.

Lemma new_cb_ok c now : cb_ok c 0 now (CircuitBreaker_new c).
Proof. split; simpl; try done; try constructor; lia. Qed.

Lemma cb_later c n now now' b : now <= now' → cb_ok c n now b → cb_ok c n now' b.
Proof.
  intros Hle [H1 H2 H3 H4 H5 H6 H7 H8]. split; try done.
  - eapply Forall_impl; [exact H3|]. simpl. lia.
  - intros t Ht. apply H7 in Ht. lia.
Qed.

Lemma StronglySorted_filter (P : Z → Prop) `{!∀ x, Decision (P x)} l : StronglySorted Z.le l → StronglySorted Z.le (filter P l).
Proof.
  induction 1 as [|x l Hl IH Hx]; [constructor|]. rewrite filter_cons. case_decide; [|done]. constructor; [done|].
  rewrite Forall_forall in *. intros y [_ Hy]%list_elem_of_filter. auto.
Qed.

(** The stamps after a failure. *)
Lemma failure_stamps c n now b : 0 <= window_duration c → cb_ok c n now b →
  let l := filter (λ t, now - window_duration c <= t) (failure_timestamps b ++ [now]) in
  failure_timestamps (record_failure now b) = l ∧ StronglySorted Z.le l ∧ Forall (λ t, t <= now) l
  ∧ (1 <= length l <= S n)%nat.
Proof.
  intros Hw [H1 H2 H3 H4 _ _ _ _] l.
  assert (StronglySorted Z.le (failure_timestamps b ++ [now])) as Hs.
  { apply StronglySorted_app_2; [|done|repeat constructor]. rewrite Forall_forall in H3.
    intros x y Hx ->%list_elem_of_singleton. by apply H3. }
  assert (Forall (λ t, t <= now) (failure_timestamps b ++ [now])) as Hp by (apply Forall_app; split; [done|]; by repeat constructor).
  split; [|split_and!].
  - unfold record_failure. rewrite H1, drop_old_filter by done. fold l. destruct (state b); try done. by destruct (_ <=? _).
  - by apply StronglySorted_filter.
  - apply Forall_forall. intros x [_ Hx]%list_elem_of_filter. rewrite Forall_forall in Hp. auto.
  - unfold l. rewrite filter_app, length_app. change (filter _ [now]) with (filter (λ t, now - window_duration c <= t) [now]).
    rewrite filter_cons, decide_True by lia. simpl. lia.
  - etrans; [apply length_filter|]. rewrite length_app. simpl. lia.
Qed.

Lemma cb_exec_ok c n now o b : 0 <= window_duration c → Z.of_nat n < 2 ^ 32 - 1 → cb_ok c n now b → cb_ok c (S n) now (exec now o b).
Proof.
  intros Hw Hn Hb. assert (cb_ok c (S n) now b) as Hs.
  { destruct Hb as [H1 H2 H3 H4 H5 H6 H7 H8]. split; [done..|lia| | | |]; assumption. }
  destruct o; simpl.
  - unfold is_request_allowed.
    destruct (state b) eqn:Hst; [exact Hs|..|exact Hs].
    destruct (opened_at b) as [t|] eqn:Ho; [|exact Hs]. destruct (_ <=? _); [|exact Hs].
    destruct Hs as [H1 H2 H3 H4 H5 H6 H7 H8]. split; simpl; rewrite ?Ho; try done; [|lia].
    intros t0 Ht0. apply H7. by rewrite Ho.
  - unfold record_success. destruct Hb as [H1 H2 H3 H4 H5 H6 H7 H8]. destruct (state b) eqn:Hst.
    + split; simpl; try done; try constructor; lia.
    + exact Hs.
    + destruct (Z.leb_spec (success_threshold (cb_config b)) (as_u32 (success_count b + 1))) as [|Hlt].
      * split; simpl; try done; try constructor; lia.
      * split; simpl; try done; [lia|]. intros _. rewrite H1 in Hlt. specialize (H8 ltac:(done)).
        pose proof (Z.mod_pos_bound (success_count b + 1) (2 ^ 32)). unfold as_u32 in *. lia.
  - destruct (failure_stamps c n now b Hw Hb) as (Hl & Hsl & Hp & Hlen). destruct Hb as [H1 H2 H3 H4 H5 H6 H7 H8].
    split; rewrite ?Hl; try done; try lia.
    + unfold record_failure. destruct (state b); try done. by destruct (_ <=? _).
    + unfold record_failure in *. destruct (state b); try done. destruct (Z.leb_spec (failure_threshold (cb_config b))
        (as_u32 (Z.of_nat (length (drop_old now (window_duration (cb_config b)) (failure_timestamps b ++ [now])))))) as [|Hlt]; [done|].
      intros _. simpl in Hl. rewrite Hl, H1 in Hlt. unfold as_u32 in Hlt. rewrite Z.mod_small in Hlt by lia. lia.
    + unfold record_failure. destruct (state b) eqn:Hst; [|intros _; by apply H6|by eexists].
      destruct (_ <=? _); [by eexists|done].
    + unfold record_failure. destruct (state b) eqn:Hst; simpl; [|apply H7|by intros t [= <-]].
      destruct (_ <=? _); simpl; [by intros t [= <-]|apply H7].
    + unfold record_failure. destruct (state b) eqn:Hst; try done. by destruct (_ <=? _).
Qed.

Lemma cb_history_ok c n now b : 0 <= window_duration c → Z.of_nat n < 2 ^ 32 → history c n now b → cb_ok c n now b.
Proof.
  intros Hw Hn Hh. revert Hn. induction Hh as [now|n now now' o b _ IH Hle]; intros Hn; [apply new_cb_ok|].
  apply cb_exec_ok; [done|lia|]. eapply cb_later; [done|]. apply IH. lia.
Qed.

(** ** Properties *)

(** The breaker of a connection does what it says.  After any history: a closed breaker opens at a
    failure exactly when the failures it remembers, this one included, within the window are as many as
    the threshold; an open one rejects requests until the timeout has passed since it opened and
    then lets them through on probation; on probation one failure reopens it, and the
    successes needed, one at least, close it. *)
Theorem peer_breaker_window c n now b :
  history c n now b → 0 <= window_duration c → Z.of_nat n < 2 ^ 32 - 1 → success_threshold c < 2 ^ 32 →
  match state b with
  | Closed =>
    let recent := filter (λ t, now - window_duration c <= t) (failure_timestamps b ++ [now]) in
    (is_request_allowed now b).1 = true
    ∧ (state (record_failure now b) = Open ↔ failure_threshold c <= Z.of_nat (length recent))
  | Open => ∃ t, opened_at b = Some t ∧ t <= now ∧
    ((is_request_allowed now b).1 = true ↔ timeout c <= now - t)
    ∧ state (is_request_allowed now b).2 = (if (is_request_allowed now b).1 then HalfOpen else Open)
  | HalfOpen => (is_request_allowed now b).1 = true ∧ state (record_failure now b) = Open
    ∧ ∀ k, (Z.of_nat k < Z.max 1 (success_threshold c) - success_count b → state (Nat.iter k record_success b) = HalfOpen)
         ∧ (Z.of_nat k = Z.max 1 (success_threshold c) - success_count b → state (Nat.iter k record_success b) = Closed)
  end.
Proof.
  intros Hh Hw Hn Hst. assert (cb_ok c n now b) as Hb by (apply cb_history_ok; (done || lia)).
  destruct (failure_stamps c n now b Hw Hb) as (Hl & _ & _ & Hlen). destruct Hb as [H1 H2 H3 H4 H5 H6 H7 H8].
  destruct (state b) eqn:Hs.
  - split; [unfold is_request_allowed; by rewrite Hs|]. cbn zeta in Hl. unfold record_failure in *. rewrite Hs in *.
    rewrite H1 in *. set (l := drop_old _ _ _) in *. destruct (Z.leb_spec (failure_threshold c) (as_u32 (Z.of_nat (length l)))) as [Hle|Hlt];
      simpl in Hl; rewrite Hl in *; unfold as_u32 in *; rewrite Z.mod_small in * by lia; simpl; split; (done || lia).
  - destruct (H6 ltac:(done)) as [t Ht]. exists t. split; [done|]. split; [by apply H7|].
    unfold is_request_allowed. rewrite Hs, Ht, H1. unfold elapsed_since. specialize (H7 t Ht).
    destruct (Z.leb_spec (timeout c) (Z.max 0 (now - t))); simpl; rewrite ?Hs; split; (done || lia || (split; (done || lia))).
  - split; [unfold is_request_allowed; by rewrite Hs|]. split; [unfold record_failure; by rewrite Hs|].
    assert (∀ k, Z.of_nat k < Z.max 1 (success_threshold c) - success_count b →
      let b' := Nat.iter k record_success b in
      state b' = HalfOpen ∧ cb_config b' = c ∧ success_count b' = success_count b + Z.of_nat k) as Hiter.
    { specialize (H8 ltac:(done)). induction k as [|k IH]; intros Hk; [simpl; split_and!; [done|done|lia]|].
      destruct IH as (Hs' & Hc' & Hn'); [lia|]. simpl. set (b' := Nat.iter k _ b) in *. unfold record_success. rewrite Hs', Hc', Hn'.
      unfold as_u32. rewrite Z.mod_small by lia. destruct (Z.leb_spec (success_threshold c) (success_count b + Z.of_nat k + 1)); [lia|].
      simpl. split_and!; [done|done|lia]. }
    intros k. split; [by intros Hk; apply Hiter|]. intros Hk. specialize (H8 ltac:(done)). destruct k as [|k]; [lia|].
    destruct (Hiter k) as (Hs' & Hc' & Hn'); [lia|]. simpl. set (b' := Nat.iter k _ b) in *. unfold record_success.
    rewrite Hs', Hc', Hn'. unfold as_u32. rewrite Z.mod_small by lia.
    destruct (Z.leb_spec (success_threshold c) (success_count b + Z.of_nat k + 1)); [done|lia].
Qed.

(** Two failures at a threshold of two. *)
Definition small_config : CircuitBreakerConfig := mkBreakerConfig 2 (secs 30) 1 (secs 60).
Definition twice_failed : CircuitBreaker :=
  exec 10 BFailure (exec 5 BFailure (CircuitBreaker_new small_config)).
Lemma twice_failed_history : history small_config 2 10 twice_failed.
Proof. unfold twice_failed. apply (h_step _ _ 5); [|lia]. apply (h_step _ _ 5); [apply h_new|lia]. Qed.
Lemma twice_failed_open : state twice_failed = Open.
Proof. by vm_compute. Qed.
Lemma peer_breaker_window_witness : ∃ t, opened_at twice_failed = Some t ∧ t <= 10 ∧
  ((is_request_allowed 10 twice_failed).1 = true ↔ timeout small_config <= 10 - t)
  ∧ state (is_request_allowed 10 twice_failed).2 = (if (is_request_allowed 10 twice_failed).1 then HalfOpen else Open).
Proof.
  pose proof (peer_breaker_window small_config 2 10 twice_failed twice_failed_history) as Hp.
  rewrite twice_failed_open in Hp. apply Hp; by vm_compute.
Defined.
