(* ===== verification/Bitswap.v ===== *)
(** * Block exchange: [crates/ipfrs-transport/src/bitswap.rs] and [messages.rs]

    [BitswapExchange] ties the want list, the peer manager and the local store together.  Each of the
    three is behind its own lock or [Arc]; the operations are sequences of their calls.  The clock
    is an argument.  Messages are data; their wire format is that of the [oxicode] crate. *)

From Stdlib Require Import ZArith Lia List.
From stdpp Require Import base tactics numbers list gmap sets strings.
From S2P Require Import Prelude Collections F64 Cid Block ColdStore WantList Peers.

#[local] Open Scope Z_scope.

Section messages.
Context `{CidCrate}.

Record MessageWantEntry : Type := mkMessageWant {
  mw_cid : Cid;
  mw_priority : Z;
  mw_send_dont_have : bool;
  mw_cancel : bool;
}.
Definition MessageWantEntry_new (cid : Cid) : MessageWantEntry := mkMessageWant cid 0 false false.
Definition MessageWantEntry_with_priority (cid : Cid) (priority : Z) : MessageWantEntry :=
  mkMessageWant cid priority false false.
Definition MessageWantEntry_cancel (cid : Cid) : MessageWantEntry := mkMessageWant cid 0 false true.

Inductive Message : Type :=
| MWantList (entries : list MessageWantEntry) (full : bool)
| MBlock (cid : Cid) (data : bytes)
| MHave (cid : Cid)
| MDontHave (cid : Cid)
| MCancel (cid : Cid).
Definition Message_want_list (entries : list MessageWantEntry) (full : bool) : Message := MWantList entries full.
Definition Message_block (cid : Cid) (data : bytes) : Message := MBlock cid data.
Definition Message_have (cid : Cid) : Message := MHave cid.
Definition Message_dont_have (cid : Cid) : Message := MDontHave cid.
Definition Message_cancel (cid : Cid) : Message := MCancel cid.
End messages.

Record BitswapConfig : Type := mkBitswapConfig {
  bc_want_list : WantListConfig;
  peer_scoring : PeerScoringConfig;
  max_peers_per_request : nat;
  selection_strategy : SelectionStrategy;
  auto_cleanup : bool;
  cleanup_interval : Z;
}.
Definition BitswapConfig_default : BitswapConfig :=
  mkBitswapConfig WantListConfig_default PeerScoringConfig_default 3 BestScore true (secs 10).

Section exchange.
Context `{CidCrate} `{!HashIter string} `{!HashIter Cid} `{!BinaryHeap HeapEntry he_le}.
Context {K : Type} `{!ColdStore K}.

Record BitswapExchange : Type := mkExchange {
  store : K;
  want_list : WantList;
  peer_manager : PeerManager;
  pending_requests : gmap Cid (list string * Z);
  bs_config : BitswapConfig;
}.
Implicit Types x : BitswapExchange.

Definition BitswapExchange_new (s : K) (c : BitswapConfig) : BitswapExchange :=
  mkExchange s (WantList_new (bc_want_list c)) (PeerManager_new (peer_scoring c)) ∅ c.
Definition BitswapExchange_with_defaults (s : K) : BitswapExchange := BitswapExchange_new s BitswapConfig_default.

Definition set_want_list (w : WantList) x : BitswapExchange :=
  mkExchange (store x) w (peer_manager x) (pending_requests x) (bs_config x).
Definition set_peer_manager (m : PeerManager) x : BitswapExchange :=
  mkExchange (store x) (want_list x) m (pending_requests x) (bs_config x).
Definition set_pending (p : gmap Cid (list string * Z)) x : BitswapExchange :=
  mkExchange (store x) (want_list x) (peer_manager x) p (bs_config x).
Definition set_store (s : K) x : BitswapExchange :=
  mkExchange s (want_list x) (peer_manager x) (pending_requests x) (bs_config x).

(** [created] and [now] are the two readings of [add_simple]. *)
Definition want (created now : Z) (cid : Cid) (priority : Z) : stateful BitswapExchange Error unit := λ x,
  let '(added, w) := add_simple created now cid priority (want_list x) in
  let x := set_want_list w x in
  if added : bool then (Ok tt, x)
  else if WantList.contains (want_list x) cid
  then (Ok tt, set_want_list (WantList.update_priority cid priority (want_list x)).2 x)
  else (Err Internal, x).

Definition want_with_entry (now : Z) (entry : WantEntry) : stateful BitswapExchange Error unit := λ x,
  let '(added, w) := WantList.add now entry (want_list x) in
  if added : bool then (Ok tt, set_want_list w x)
  else (Err Internal, set_want_list w x).

Definition cancel_want (cid : Cid) x : BitswapExchange :=
  let x := set_want_list (WantList.remove cid (want_list x)).2 x in
  set_pending (delete cid (pending_requests x)) x.

Definition is_wanted (cid : Cid) x : bool := WantList.contains (want_list x) cid.

(** [None] is the lack of fuel of [pop], which does not happen. *)
Definition next_want x : option (option Cid * BitswapExchange) :=
  match WantList.pop (want_list x) with
  | Some (e, w) => Some (we_cid <$> e, set_want_list w x)
  | None => None
  end.

Definition get_want_list x : list MessageWantEntry := MessageWantEntry_new <$> WantList.cids (want_list x).
Definition get_wanted_cids x : list Cid := WantList.cids (want_list x).
Definition bs_update_priority (cid : Cid) (priority : Z) x : bool * BitswapExchange :=
  let '(ok, w) := WantList.update_priority cid priority (want_list x) in (ok, set_want_list w x).
Definition bs_boost_deadline_priorities (now : Z) (clock : Cid → Z) x : BitswapExchange :=
  set_want_list (WantList.boost_deadline_priorities now clock (want_list x)) x.

Definition bs_add_peer (now : Z) (id : string) x : BitswapExchange := set_peer_manager (add_peer now id (peer_manager x)) x.
Definition bs_remove_peer (id : string) x : BitswapExchange := set_peer_manager (remove_peer id (peer_manager x)) x.

(** The clocks of the two selections. *)
Definition select_peers_for_request (now system : Z) (clock : string → Z) (cid : Cid) x : list string * BitswapExchange :=
  let '(providers, m) := select_providers now clock cid (max_peers_per_request (bs_config x)) (peer_manager x) in
  let x := set_peer_manager m x in
  match providers with
  | _ :: _ => (providers, x)
  | [] =>
    let '(l, m) := select_peers now system clock cid (max_peers_per_request (bs_config x))
                     (selection_strategy (bs_config x)) (peer_manager x) in
    (l, set_peer_manager m x)
  end.

Definition receive_block (now : Z) (peer_id : string) (block : Block) : stateful BitswapExchange Error unit := λ x,
  let cid := b_cid block in
  let size := block_size block in
  let latency := (λ p, elapsed now p.2) <$> pending_requests x !! cid in
  match cold_put cid (b_data block) (store x) with
  | (Ok _, s) =>
    let x := set_store s x in
    let m := record_success now peer_id size (default (millis 100) latency) (peer_manager x) in
    let x := set_peer_manager (record_has peer_id cid m) x in
    (Ok tt, cancel_want cid x)
  | (Err e, s) => (Err e, set_store s x)
  | (Panic, s) => (Panic, set_store s x)
  | (OutOfFuel, s) => (OutOfFuel, set_store s x)
  end.

Definition bs_record_failure (now : Z) (peer_id : string) (cid : Cid) x : BitswapExchange :=
  let x := set_peer_manager (record_failure now peer_id (peer_manager x)) x in
  set_want_list (WantList.mark_attempted now cid (want_list x)) x.
Definition record_have (peer_id : string) (cid : Cid) x : BitswapExchange :=
  set_peer_manager (record_has peer_id cid (peer_manager x)) x.
Definition record_dont_have (peer_id : string) (cid : Cid) x : BitswapExchange :=
  set_peer_manager (record_doesnt_have peer_id cid (peer_manager x)) x.

Definition send_block (cid : Cid) x : outcome Error (option Message) :=
  let! block := cold_get cid (store x) in
  match block with
  | None => Ok (Some (Message_dont_have cid))
  | Some data => Ok (Some (Message_block cid data))
  end.

Definition bs_mark_request_sent (now : Z) (cid : Cid) (ps : list string) x : BitswapExchange :=
  let x := set_peer_manager (foldl (λ m p, mark_request_sent p m) (peer_manager x) ps) x in
  set_pending (<[cid := (ps, now)]> (pending_requests x)) x.

Definition cleanup (clock : Cid → Z) x : BitswapExchange :=
  let '(expired, w) := WantList.cleanup_expired clock (want_list x) in
  let x := set_want_list w x in
  set_pending (foldl (λ p e, delete (we_cid e) p) (pending_requests x) expired) x.

Definition get_peer_scores (clock : string → Z) x : gmap string f64 := get_scores clock (peer_manager x).
Definition is_peer_blacklisted (now : Z) (id : string) x : bool := is_blacklisted now id (peer_manager x).

Record BitswapStats : Type := mkBitswapStats {
  want_list_size : nat;
  bs_pending : nat;
  num_peers : nat;
  bs_connected_peers : nat;
  bs_blacklisted_peers : nat;
  total_bytes_sent : Z;
  total_bytes_recv : Z;
  bs_total_requests : Z;
  completed_requests : Z;
  failed_requests : Z;
  avg_peer_score : f64;
  bs_avg_latency_ms : f64;
}.
Definition bs_stats (clock : string → Z) x : BitswapStats :=
  let s := manager_stats clock (peer_manager x) in
  mkBitswapStats (WantList.len (want_list x)) (size (pending_requests x)) (total_peers s) (connected_peers s)
    (blacklisted_peers s) 0 0 (total_requests s) (total_completed s) (total_failed s) (avg_score s) (avg_latency_ms s).
End exchange.
Arguments BitswapExchange {_} K.
