(* ===== verification/BitswapFacts.v ===== *)
(** * Block exchange: the want list, the peers and the store together

    On every history of an exchange the invariants of its components hold; a received block reaches
    the store, its want and its request go, and its sender is credited; a failing store changes
    nothing; clean-up removes exactly the expired wants and their requests. *)

From Stdlib Require Import ZArith Lia List.
From stdpp Require Import base tactics numbers list gmap sets strings relations.
From S2P Require Import Prelude Collections F64 Cid Block ColdStore WantList WantListFacts Peers PeersFacts Bitswap.

#[local] Open Scope Z_scope.

(** ** Removing a batch of wants *)
Section batches.
Context `{CidCrate} `{!HashIter Cid} `{!BinaryHeap HeapEntry he_le}.

Lemma remove_batch_get l (w : WantList) c :
  WantList.get (remove_batch l w).2 c = if decide (c ∈ l) then None else WantList.get w c.
Proof.
  revert w. induction l as [|c' l IH]; intros w; cbn [remove_batch].
  { by rewrite decide_False by apply not_elem_of_nil. }
  destruct (remove c' w) as [o w1] eqn:Hr. specialize (IH w1). destruct (remove_batch l w1) as [r w2]. simpl in *.
  rewrite IH. unfold remove in Hr. injection Hr as _ <-. unfold WantList.get. simpl.
  destruct (decide (c ∈ l)) as [Hc|Hc]; [by rewrite decide_True by (by right)|].
  destruct (decide (c = c')) as [->|Hne]; [rewrite lookup_delete_eq, decide_True by left; done|].
  rewrite lookup_delete_ne by done. rewrite decide_False; [done|]. by rewrite elem_of_cons; intros [|].
Qed.

Lemma remove_batch_cids l (w : WantList) : wl_named w → NoDup l → (∀ c, c ∈ l → is_Some (entries w !! c)) →
  we_cid <$> (remove_batch l w).1 = l.
Proof.
  revert w. induction l as [|c l IH]; intros w Hinv Hnd Hin; cbn [remove_batch]; [done|].
  apply NoDup_cons in Hnd as [Hc Hnd]. destruct (Hin c) as [[e v] He]; [by left|].
  pose proof (Hinv _ _ _ He) as Hec.
  pose proof (remove_batch_named [c] w Hinv) as Hinv1. cbn [remove_batch] in Hinv1. destruct (remove c w) as [o w1] eqn:Hr.
  unfold remove, WantList.get in Hr. rewrite He in Hr. injection Hr as <- <-.
  specialize (IH _ Hinv1 Hnd). destruct (remove_batch l _) as [r w2]. cbn [fst] in *. rewrite fmap_cons, Hec. f_equal.
  apply IH. intros c' Hc'. simpl. rewrite lookup_delete_ne by (by intros ->). apply Hin. by right.
Qed.

Definition expired_at (clock : Cid → Z) (w : WantList) (c : Cid) : bool :=
  match WantList.get w c with Some e => is_expired (clock c) e | None => false end.

Lemma expired_keys clock (w : WantList) c :
  c ∈ (filter (λ p, is_expired (clock p.1) p.2.1 = true) (hash_iter (entries w))).*1 ↔ expired_at clock w c = true.
Proof.
  unfold expired_at, WantList.get. rewrite list_elem_of_fmap. split.
  - intros ([c' [e v]] & -> & [Hx Hp%elem_of_hash_iter]%list_elem_of_filter). simpl in *. by rewrite Hp.
  - destruct (entries w !! c) as [[e v]|] eqn:He; simpl; [|done]. intros Hx. exists (c, (e, v)). split; [done|].
    apply list_elem_of_filter. split; [done|]. by apply elem_of_hash_iter.
Qed.

Lemma NoDup_fst_filter {A B} (P : A * B → Prop) `{!∀ x, Decision (P x)} (l : list (A * B)) :
  NoDup l.*1 → NoDup (filter P l).*1.
Proof.
  induction l as [|p l IH]; [done|]. rewrite fmap_cons, NoDup_cons. intros [Hp Hl]. rewrite filter_cons.
  case_decide; [|auto]. rewrite fmap_cons, NoDup_cons. split; [|auto].
  intros (q & Heq & [_ Hq]%list_elem_of_filter)%list_elem_of_fmap. apply Hp. rewrite Heq. by apply list_elem_of_fmap_2.
Qed.

Lemma cleanup_expired_spec clock (w : WantList) : wl_named w →
  (∀ c, c ∈ we_cid <$> (cleanup_expired clock w).1 ↔ expired_at clock w c = true) ∧
  ∀ c, WantList.get (cleanup_expired clock w).2 c = if expired_at clock w c then None else WantList.get w c.
Proof.
  intros Hinv. unfold cleanup_expired. split; intros c.
  - rewrite remove_batch_cids; [apply expired_keys|done| |].
    + apply NoDup_fst_filter, NoDup_hash_iter_keys.
    + intros c'. rewrite expired_keys. unfold expired_at, WantList.get. by destruct (entries w !! c') as [[]|]; eauto.
  - rewrite remove_batch_get. pose proof (expired_keys clock w c) as Hk.
    destruct (expired_at clock w c); [by rewrite decide_True by (by apply Hk)|].
    rewrite decide_False; [done|]. by intros ?%Hk.
Qed.
End batches.

Lemma delete_all_lookup `{CidCrate} {A} (f : A → Cid) {B} (l : list A) (m : gmap Cid B) c :
  foldl (λ p e, delete (f e) p) m l !! c = if decide (c ∈ f <$> l) then None else m !! c.
Proof.
  revert m. induction l as [|a l IH]; intros m; [by rewrite decide_False by apply not_elem_of_nil|].
  cbn [foldl]. rewrite IH. change (f <$> a :: l) with (f a :: (f <$> l)). destruct (decide (c ∈ f <$> l)) as [Hc|Hc]; [by rewrite decide_True by (by right)|].
  destruct (decide (c = f a)) as [->|Hne]; [rewrite lookup_delete_eq, decide_True by left; done|].
  rewrite lookup_delete_ne by done. rewrite decide_False; [done|]. by rewrite elem_of_cons; intros [|].
Qed.

(** ** Histories of an exchange *)
Section histories.
Context `{CidCrate} `{!HashIter string} `{!HashIter Cid} `{!BinaryHeap HeapEntry he_le}.
Context {K : Type} `{!ColdStore K}.
Implicit Types x : BitswapExchange K.

Inductive bs_op : Type :=
| OWant (created : Z) (cid : Cid) (priority : Z)
| OWantEntry (entry : WantEntry)
| OCancel (cid : Cid)
| ONext
| OPriority (cid : Cid) (priority : Z)
| OBoost (clock : Cid → Z)
| OAddPeer (id : string)
| ORemovePeer (id : string)
| OSelect (system : Z) (clock : string → Z) (cid : Cid)
| OReceive (id : string) (block : Block)
| OFailure (id : string) (cid : Cid)
| OHave (id : string) (cid : Cid)
| ODontHave (id : string) (cid : Cid)
| OSent (cid : Cid) (ps : list string)
| OCleanup (clock : Cid → Z).

Definition bs_exec (now : Z) (o : bs_op) x : BitswapExchange K :=
  match o with
  | OWant created cid priority => (want created now cid priority x).2
  | OWantEntry entry => (want_with_entry now entry x).2
  | OCancel cid => cancel_want cid x
  | ONext => match next_want x with Some (_, x') => x' | None => x end
  | OPriority cid priority => (bs_update_priority cid priority x).2
  | OBoost clock => bs_boost_deadline_priorities now clock x
  | OAddPeer id => bs_add_peer now id x
  | ORemovePeer id => bs_remove_peer id x
  | OSelect system clock cid => (select_peers_for_request now system clock cid x).2
  | OReceive id block => (receive_block now id block x).2
  | OFailure id cid => bs_record_failure now id cid x
  | OHave id cid => record_have id cid x
  | ODontHave id cid => record_dont_have id cid x
  | OSent cid ps => bs_mark_request_sent now cid ps x
  | OCleanup clock => cleanup clock x
  end.

(** How many operations of the peer manager an operation makes, at most. *)
Definition bs_weight (o : bs_op) : nat := match o with OSent _ ps => length ps | _ => 2 end.

(** States reached from a new exchange at times that never decrease. *)
Inductive bs_run (s : K) (c : BitswapConfig) : nat → Z → BitswapExchange K → Prop :=
| r_new now : bs_run s c 0 now (BitswapExchange_new s c)
| r_step n now now' o x : bs_run s c n now x → now <= now' → bs_run s c (bs_weight o + n) now' (bs_exec now' o x).

(** The want list of an exchange is one a program can build. *)
Definition wl_reaches : WantList → WantList → Prop := rtc (λ w w', ∃ k, wl_step k w w').
Lemma wl_reaches_once k w w' : wl_step k w w' → wl_reaches w w'.
Proof. intros Hs. apply rtc_once. by exists k. Qed.
Lemma wl_reaches_named w w' : wl_reaches w w' → wl_named w → wl_named w'.
Proof. induction 1 as [|w1 w2 w3 [k Hs] _ IH]; [done|]. intros Hw. apply IH. by eapply wl_step_named. Qed.
Lemma bs_exec_wants now o x : wl_reaches (want_list x) (want_list (bs_exec now o x)).
Proof.
  destruct o as [created cid priority|entry|cid| |cid priority|clock|id|id|system clock cid|id block|id cid|id cid|id cid|cid ps|clock];
    simpl; try apply rtc_refl.
  - unfold want, add_simple. set (e := WantEntry_new _ _ _ _).
    pose proof (step_add now e (want_list x)) as Hs. destruct (add now e (want_list x)) as [[|] w]; simpl in *; [by eapply wl_reaches_once|].
    destruct (WantList.contains w cid); simpl; [|by eapply wl_reaches_once]. eapply rtc_l; [by eexists|]. eapply wl_reaches_once, step_update.
  - unfold want_with_entry. pose proof (step_add now entry (want_list x)) as Hs.
    destruct (add now entry (want_list x)) as [[|] w]; by eapply wl_reaches_once.
  - eapply wl_reaches_once, step_remove.
  - unfold next_want. destruct (pop (want_list x)) as [[e w]|] eqn:Hp; [|apply rtc_refl]. by eapply wl_reaches_once, step_pop.
  - unfold bs_update_priority. pose proof (step_update cid priority (want_list x)) as Hs.
    destruct (update_priority cid priority (want_list x)). by eapply wl_reaches_once.
  - eapply wl_reaches_once, step_boost.
  - unfold select_peers_for_request. destruct (select_providers _ _ _ _ _) as [[|p l] m]; [|done]. by destruct (select_peers _ _ _ _ _ _ _).
  - unfold receive_block. destruct (cold_put _ _ _) as [[] s]; try done. eapply wl_reaches_once, step_remove.
  - eapply wl_reaches_once, step_get_mut. done.
  - unfold cleanup. pose proof (step_cleanup clock (want_list x)) as Hs. destruct (cleanup_expired clock (want_list x)). by eapply wl_reaches_once.
Qed.

Lemma pm_exec_many now (ops : list peer_op) n m : pm_ok n now m → 0 <= n →
  pm_ok (Z.of_nat (length ops) + n) now (foldl (λ m o, exec now o m) m ops).
Proof.
  revert n m. induction ops as [|o ops IH]; intros n m Hm Hn; simpl; [done|].
  eapply pm_later; [| |apply (IH (n + 1)); [by apply pm_exec_ok|]]; lia.
Qed.

(** What an operation does to the peers is a sequence of operations of the peer manager. *)
Lemma bs_exec_peers now o x : ∃ ops, (length ops <= bs_weight o)%nat ∧
  peer_manager (bs_exec now o x) = foldl (λ m o, exec now o m) (peer_manager x) ops.
Proof.
  destruct o as [created cid priority|entry|cid| |cid priority|clock|id|id|system clock cid|id block|id cid|id cid|id cid|cid ps|clock];
    try (exists []; split; [simpl; lia|done]).
  - exists []. split; [simpl; lia|]. simpl. unfold want, add_simple. destruct (add _ _ _) as [[|] w]; [done|]. by destruct (WantList.contains _ _).
  - exists []. split; [simpl; lia|]. simpl. unfold want_with_entry. by destruct (add _ _ _) as [[|] w].
  - exists []. split; [simpl; lia|]. simpl. unfold next_want. by destruct (pop _) as [[]|].
  - exists []. split; [simpl; lia|]. simpl. unfold bs_update_priority. by destruct (update_priority _ _ _).
  - exists [PAdd id]. split; [simpl; lia|done].
  - exists [PRemove id]. split; [simpl; lia|done].
  - simpl. unfold select_peers_for_request. set (k := max_peers_per_request (bs_config x)).
    destruct (select_providers now clock cid k (peer_manager x)) as [[|p l] m] eqn:Hm.
    + exists [PProviders clock cid k; PSelect system clock cid k (selection_strategy (bs_config x))].
      split; [simpl; lia|]. cbn [foldl exec]. rewrite Hm. cbn [snd].
      change (bs_config (set_peer_manager m x)) with (bs_config x). fold k. cbn [peer_manager set_peer_manager].
      by destruct (select_peers _ _ _ _ _ _ m).
    + exists [PProviders clock cid k]. split; [simpl; lia|]. cbn [foldl exec]. by rewrite Hm.
  - simpl. unfold receive_block. destruct (cold_put _ _ _) as [[] s]; try (exists []; split; [simpl; lia|done]).
    eexists [PSuccess id _ _; PHave id _]. split; [simpl; lia|done].
  - exists [PFailure id]. split; [simpl; lia|done].
  - exists [PHave id cid]. split; [simpl; lia|done].
  - exists [PDontHave id cid]. split; [simpl; lia|done].
  - exists (PSent <$> ps). split; [by rewrite length_fmap|]. simpl. generalize (peer_manager x).
    induction ps as [|p ps IH]; intros m; [done|]. apply IH.
  - exists []. split; [simpl; lia|]. simpl. unfold cleanup. by destruct (cleanup_expired _ _).
Qed.

Lemma bs_run_ok s c n now x : bs_run s c n now x →
  wl_named (want_list x) ∧ pm_ok (Z.of_nat n) now (peer_manager x).
Proof.
  induction 1 as [now|n now now' o x _ [Hw Hm] Hle]; [split; [intros c0 e v; simpl; by intros ?%lookup_empty_Some|apply new_pm_ok]|]. split.
  - eapply wl_reaches_named; [apply bs_exec_wants|done].
  - destruct (bs_exec_peers now' o x) as (ops & Hlen & ->).
    eapply pm_later; [| |apply pm_exec_many; [by eapply (pm_later _ (Z.of_nat n) now now')|lia]]; lia.
Qed.
End histories.

(** ** What one operation does to the store *)
Section store.
Context `{CidCrate} `{!HashIter string} `{!HashIter Cid} `{!BinaryHeap HeapEntry he_le}.
Context {K : Type} `{!ColdStore K} `{!ColdLaws K}.
Implicit Types x : BitswapExchange K.

Definition held x : gmap Cid bytes := contents (store x).

Lemma bs_exec_held now o x :
  held (bs_exec now o x) = held x ∨
  ∃ id b, o = OReceive id b ∧ held (bs_exec now o x) = <[b_cid b := b_data b]> (held x).
Proof.
  destruct o as [created cid priority|entry|cid| |cid priority|clock|id|id|system clock cid|id block|id cid|id cid|id cid|cid ps|clock];
    simpl; auto.
  - left. unfold want, add_simple. destruct (add _ _ _) as [[|] w]; [done|]. by destruct (WantList.contains _ _).
  - left. unfold want_with_entry. by destruct (add _ _ _) as [[|] w].
  - left. unfold next_want. by destruct (pop _) as [[]|].
  - left. unfold bs_update_priority. by destruct (update_priority _ _ _).
  - left. unfold select_peers_for_request. destruct (select_providers _ _ _ _ _) as [[|p l] m]; [|done]. by destruct (select_peers _ _ _ _ _ _ _).
  - unfold receive_block. pose proof (cold_put_law (b_cid block) (b_data block) (store x)) as Hput.
    destruct (cold_put _ _ _) as [[] s]; simpl in *; try done; [right|by left]. exists id, block. done.
  - left. unfold cleanup. by destruct (cleanup_expired _ _).
Qed.

Definition bs_execs (l : list (Z * bs_op)) x : BitswapExchange K := foldl (λ x p, bs_exec p.1 p.2 x) x l.
(** The bytes that the last operation of [l] to receive a block named [c] received, [data] if none did. *)
Definition received (c : Cid) (o : bs_op) (data : bytes) : bytes :=
  match o with OReceive _ b => if decide (b_cid b = c) then b_data b else data | _ => data end.
Definition last_received (c : Cid) (data : bytes) (l : list (Z * bs_op)) : bytes :=
  foldl (λ data p, received c p.2 data) data l.

Lemma bs_exec_received `{!Reliable K} now o x c data :
  held x !! c = Some data → held (bs_exec now o x) !! c = Some (received c o data).
Proof.
  intros Hx. assert (∀ id b, o = OReceive id b → held (bs_exec now o x) = <[b_cid b := b_data b]> (held x)) as Hrec.
  { intros id b ->. simpl. unfold receive_block.
    pose proof (cold_put_ok (b_cid b) (b_data b) (store x)) as Hok. pose proof (cold_put_law (b_cid b) (b_data b) (store x)) as Hput.
    destruct (cold_put _ _ _) as [r s]. simpl in Hok. subst r. exact Hput. }
  destruct (bs_exec_held now o x) as [Heq|(id & b & -> & Heq)].
  - destruct o; try (by rewrite Heq). rewrite (Hrec _ _ eq_refl). simpl. case_decide as Hc; [subst; apply lookup_insert_eq|by rewrite lookup_insert_ne].
  - rewrite Heq. simpl. case_decide as Hc; [subst; apply lookup_insert_eq|by rewrite lookup_insert_ne].
Qed.
Lemma bs_execs_received `{!Reliable K} l x c data :
  held x !! c = Some data → held (bs_execs l x) !! c = Some (last_received c data l).
Proof.
  unfold bs_execs, last_received. revert x data. induction l as [|[now o] l IH]; intros x data Hx; [done|].
  simpl. apply IH. by apply bs_exec_received.
Qed.
End store.

(** ** Properties *)
Section properties.
Context `{CidCrate} `{!HashIter string} `{!HashIter Cid} `{!BinaryHeap HeapEntry he_le}.
Context {K : Type} `{!ColdStore K}.
Implicit Types x : BitswapExchange K.

(** A block that arrives: when the store takes it, the store has it, its want and its request are gone
    and all others are as they were, and its sender, if it is a known peer, counts as having it, with no
    failures in a row and one request less; the other peers are as they were.  When the store
    fails, the exchange is as it was. *)
Theorem bitswap_receive_exact `{!ColdLaws K} now id b x :
  let '(r, x') := receive_block now id b x in
  let c := b_cid b in
  match r with
  | Ok _ =>
    held x' = <[c := b_data b]> (held x)
    ∧ is_wanted c x' = false ∧ pending_requests x' !! c = None
    ∧ (∀ c', c' ≠ c → WantList.get (want_list x') c' = WantList.get (want_list x) c'
                     ∧ pending_requests x' !! c' = pending_requests x !! c')
    ∧ (∀ id', id' ≠ id → peers (peer_manager x') !! id' = peers (peer_manager x) !! id')
    ∧ match peers (peer_manager x) !! id with
      | None => peers (peer_manager x') !! id = None
      | Some p => ∃ p', peers (peer_manager x') !! id = Some p' ∧ p_id p' = p_id p
          ∧ has_cids p' = {[c]} ∪ has_cids p ∧ doesnt_have_cids p' = doesnt_have_cids p ∖ {[c]}
          ∧ consecutive_failures (p_metrics p') = 0 ∧ active_requests p' = Z.max 0 (active_requests p - 1)
      end
  | Err _ => held x' = held x ∧ want_list x' = want_list x ∧ peer_manager x' = peer_manager x
             ∧ pending_requests x' = pending_requests x
  | _ => False
  end.
Proof.
  unfold receive_block. pose proof (cold_put_law (b_cid b) (b_data b) (store x)) as Hput.
  destruct (cold_put _ _ _) as [[] s]; simpl in Hput; try done. cbv zeta. split_and!.
  - done.
  - unfold is_wanted, WantList.contains. simpl. rewrite lookup_delete_eq. by apply bool_decide_eq_false_2; intros [? ?].
  - simpl. by rewrite lookup_delete_eq.
  - intros c' Hc'. unfold WantList.get. simpl. by rewrite !lookup_delete_ne by done.
  - intros id' Hid'. simpl. by rewrite !lookup_alter_ne by done.
  - simpl. destruct (peers (peer_manager x) !! id) as [p|] eqn:Hp; [|by rewrite !lookup_alter_eq, Hp].
    eexists. rewrite !lookup_alter_eq, Hp. by split_and!.
Qed.

(** C37. What an exchange answers to a request is the block if it has it and that it does not have it
    otherwise.  Another exchange, on a store that does not fail, that receives the block in the
    answer no longer wants it, and whatever operations follow it answers requests for it with the bytes
    of the last block it received under that CID: with the same bytes if it received none other.  (What
    it receives is not checked against the CID, so a later block with other bytes replaces it.) *)
Theorem bitswap_transfer {K1 : Type} `{!ColdStore K1} `{!ColdLaws K1} `{!ColdLaws K} `{!Reliable K}
    now id c (x : BitswapExchange K1) (y : BitswapExchange K) :
  match send_block c x with
  | Ok (Some (MBlock c' data)) =>
    c' = c ∧ held x !! c = Some data ∧
    ∃ y', receive_block now id (from_parts c data) y = (Ok tt, y') ∧ is_wanted c y' = false
      ∧ ∀ l, send_block c (bs_execs l y') = Ok (Some (MBlock c (last_received c data l)))
  | Ok (Some (MDontHave c')) => c' = c ∧ held x !! c = None
  | Err _ => True
  | _ => False
  end.
Proof.
  unfold send_block at 1. pose proof (cold_get_law c (store x)) as Hget.
  destruct (cold_get c (store x)) as [[data|]| | |] eqn:Hg; simpl in Hget; try done. cbn [outcome_bind].
  split; [done|]. split; [done|]. unfold receive_block. cbn [from_parts b_cid b_data].
  pose proof (cold_put_ok c data (store y)) as Hok. pose proof (cold_put_law c data (store y)) as Hput.
  destruct (cold_put c data (store y)) as [r s]. simpl in Hok. subst r. simpl in Hput.
  eexists. split; [done|]. split.
  { unfold is_wanted, WantList.contains. simpl. rewrite lookup_delete_eq. by apply bool_decide_eq_false_2; intros [? ?]. }
  intros l. unfold send_block. rewrite cold_get_ok.
  change (contents (store (bs_execs l ?y))) with (held (bs_execs l y)).
  rewrite (bs_execs_received l _ c data); [done|]. unfold held. simpl. by rewrite Hput, lookup_insert_eq.
Qed.

(** Clean-up, on every history: exactly the wants past their time go, with their requests; the other
    wants and requests stay as they were. *)
Theorem bitswap_cleanup_exact s cfg n now x clock c (Hrun : bs_run s cfg n now x) :
  let x' := cleanup clock x in
  let gone := expired_at clock (want_list x) c in
  WantList.get (want_list x') c = (if gone then None else WantList.get (want_list x) c)
  ∧ pending_requests x' !! c = (if gone then None else pending_requests x !! c).
Proof.
  apply bs_run_ok in Hrun as [Hw _].
  destruct (cleanup_expired_spec clock (want_list x) Hw) as [Hcids Hget]. unfold cleanup.
  destruct (cleanup_expired clock (want_list x)) as [expired w]. simpl in *. split; [by rewrite Hget|].
  rewrite delete_all_lookup. specialize (Hcids c). destruct (expired_at clock (want_list x) c).
  - by rewrite decide_True by (by apply Hcids).
  - rewrite decide_False; [done|]. by intros ?%Hcids.
Qed.

(** Whom a request goes to, on every history: distinct peers, no more than the configuration
    allows, each of them connected, below its limit of requests, not banned and not known to lack
    the block; and when some peer that fits announced the block, only such peers. *)
Theorem bitswap_request_fit s cfg n now x system clock c (Hrun : bs_run s cfg n now x) (Hn : Z.of_nat n < 2 ^ 62) :
  let r := (select_peers_for_request now system clock c x).1 in
  let m := peer_manager x in
  NoDup r ∧ (length r <= max_peers_per_request (bs_config x))%nat
  ∧ (∀ id, id ∈ r → ∃ p, peers m !! id = Some p ∧ can_accept_request p = true ∧ c ∉ doesnt_have_cids p
       ∧ is_blacklisted now id m = false)
  ∧ ((∃ id p, peers m !! id = Some p ∧ can_accept_request p = true ∧ c ∈ has_cids p) →
     (0 < max_peers_per_request (bs_config x))%nat →
     r ≠ [] ∧ ∀ id, id ∈ r → ∃ p, peers m !! id = Some p ∧ c ∈ has_cids p).
Proof.
  apply bs_run_ok in Hrun as [_ Hm]. unfold select_peers_for_request.
  set (k := max_peers_per_request (bs_config x)). set (m := peer_manager x) in *.
  set (P := λ p, can_accept_request p && has c p).
  destruct (picks_spec _ now m P k (select_providers now clock c k m).1 Hm) as (Hnd & Hlen & Hin); [apply best_picks|].
  destruct (select_providers now clock c k m) as [[|q l] m'] eqn:Hsel; cbn [fst] in *.
  - change (bs_config (set_peer_manager m' x)) with (bs_config x). fold k. cbn [peer_manager set_peer_manager].
    unfold select_providers in Hsel. injection Hsel as _ <-.
    pose proof (pm_cleanup _ _ _ Hm) as Hm'. set (m1 := cleanup_blacklist now m) in *.
    destruct (select_peers now system clock c k (selection_strategy (bs_config x)) m1) as [r m2] eqn:Hr. cbn [fst].
    destruct (picks_spec _ now m1 (λ p, can_accept_request p && might_have c p) k r Hm') as (Hnd' & Hlen' & Hin').
    { pose proof (select_picks _ now system clock c k (selection_strategy (bs_config x)) m1 Hm' Hn) as Hp. by rewrite Hr in Hp. }
    split; [done|]. split; [rewrite Hlen'; lia|]. split.
    + intros id Hid. destruct (Hin' id Hid) as (p & Hp & HP & _). exists p. split; [done|].
      apply Is_true_true, andb_true_iff in HP as [? ?%bool_decide_eq_true]. split_and!; try done. by eapply pm_unbanned.
    + intros (id & p & Hp & Hacc & Hc) Hk. exfalso. destruct (filter (λ p, P p) (values m)) as [|a f] eqn:Hf; [|simpl in Hlen; lia].
      assert (p ∈ filter (λ p, P p) (values m)) as Hpf; [|by rewrite Hf in Hpf; apply elem_of_nil in Hpf].
      apply list_elem_of_filter. split; [|apply list_elem_of_fmap; exists (id, p); split; [done|by apply elem_of_hash_iter]].
      unfold P, has. rewrite Hacc, bool_decide_eq_true_2; done.
  - split; [done|]. split; [rewrite Hlen; lia|].
    assert (∀ id, id ∈ q :: l → ∃ p, peers m !! id = Some p ∧ can_accept_request p = true ∧ c ∈ has_cids p ∧ is_blacklisted now id m = false) as Hall.
    { intros id Hid. destruct (Hin id Hid) as (p & Hp & HP & Hb). exists p.
      apply Is_true_true, andb_true_iff in HP as [? ?%bool_decide_eq_true]. done. }
    split; [|split; [done|]]; intros id Hid; destruct (Hall id Hid) as (p & Hp & Hacc & Hc & Hb); exists p; split_and!; try done.
    pose proof (pm_disjoint _ _ _ Hm id p Hp). set_solver.
Qed.
End properties.

(** ** Two exchanges with stores in memory *)
Import Reference.
#[local] Existing Instance he_heap.
#[local] Existing Instance default_iter.

Definition bs_cid : Cid := new_v1 RAW (poly_digest Sha2_256 [1; 2; 3]).
Definition bs_late : Cid := new_v1 RAW (poly_digest Sha2_256 [9]).
Definition bs_start : BitswapExchange MemoryBlockStore := BitswapExchange_with_defaults MemoryBlockStore_new.
(** One block wanted at 1 and one at 20 seconds; peer "a" announced the first and peer "b" lacks it. *)
Definition bs_ops : list (Z * bs_op) :=
  [(1, OAddPeer "a"); (1, OAddPeer "b"); (1, OWant 1 bs_cid 10); (1, OSent bs_cid ["a"%string]);
   (2, OHave "a" bs_cid); (2, ODontHave "b" bs_cid); (secs 20, OWant (secs 20) bs_late 5)].
Definition bs_sample : BitswapExchange MemoryBlockStore := bs_execs bs_ops bs_start.
Lemma bs_sample_run : bs_run MemoryBlockStore_new BitswapConfig_default 13 (secs 20) bs_sample.
Proof.
  apply (r_step _ _ 11 2 (secs 20) (OWant (secs 20) bs_late 5)); [|done].
  apply (r_step _ _ 9 2 2 (ODontHave "b" bs_cid)); [|done].
  apply (r_step _ _ 7 1 2 (OHave "a" bs_cid)); [|done].
  apply (r_step _ _ 6 1 1 (OSent bs_cid ["a"%string])); [|done].
  apply (r_step _ _ 4 1 1 (OWant 1 bs_cid 10)); [|done].
  apply (r_step _ _ 2 1 1 (OAddPeer "b")); [|done].
  apply (r_step _ _ 0 1 1 (OAddPeer "a")); [|done]. apply r_new.
Qed.

(** At 31 seconds the first want is past its time and the second is not. *)
Lemma bitswap_cleanup_exact_witness :
  expired_at (λ _, secs 31) (want_list bs_sample) bs_cid = true
  ∧ expired_at (λ _, secs 31) (want_list bs_sample) bs_late = false
  ∧ (WantList.get (want_list (cleanup (λ _, secs 31) bs_sample)) bs_cid
      = (if expired_at (λ _, secs 31) (want_list bs_sample) bs_cid then None else WantList.get (want_list bs_sample) bs_cid)
     ∧ pending_requests (cleanup (λ _, secs 31) bs_sample) !! bs_cid
      = (if expired_at (λ _, secs 31) (want_list bs_sample) bs_cid then None else pending_requests bs_sample !! bs_cid)).
Proof.
  split; [by vm_compute|]. split; [by vm_compute|].
  apply (bitswap_cleanup_exact MemoryBlockStore_new BitswapConfig_default 13 (secs 20) bs_sample (λ _, secs 31) bs_cid bs_sample_run).
Defined.

Lemma bitswap_request_fit_witness :
  let r := (select_peers_for_request (secs 20) 0 (λ _, secs 20) bs_cid bs_sample).1 in
  let m := peer_manager bs_sample in
  r = ["a"%string] ∧
  (NoDup r ∧ (length r <= max_peers_per_request (bs_config bs_sample))%nat
   ∧ (∀ id, id ∈ r → ∃ p, peers m !! id = Some p ∧ can_accept_request p = true ∧ bs_cid ∉ doesnt_have_cids p
       ∧ is_blacklisted (secs 20) id m = false)
   ∧ ((∃ id p, peers m !! id = Some p ∧ can_accept_request p = true ∧ bs_cid ∈ has_cids p) →
     (0 < max_peers_per_request (bs_config bs_sample))%nat →
     r ≠ [] ∧ ∀ id, id ∈ r → ∃ p, peers m !! id = Some p ∧ bs_cid ∈ has_cids p)).
Proof.
  split; [by vm_compute|].
  apply (bitswap_request_fit MemoryBlockStore_new BitswapConfig_default 13 (secs 20) bs_sample 0 (λ _, secs 20) bs_cid bs_sample_run).
  by vm_compute.
Defined.

(** "b" gets the block from an exchange that has it. *)
Definition bs_server : BitswapExchange MemoryBlockStore := bs_exec 0 (OReceive "x" (mkBlock bs_cid [1; 2; 3])) bs_start.
Lemma bitswap_transfer_witness :
  send_block bs_cid bs_server = Ok (Some (MBlock bs_cid [1; 2; 3])) ∧ is_wanted bs_cid bs_sample = true ∧
  ∃ y', receive_block (secs 21) "a" (from_parts bs_cid [1; 2; 3]) bs_sample = (Ok tt, y') ∧ is_wanted bs_cid y' = false
    ∧ ∀ l, send_block bs_cid (bs_execs l y') = Ok (Some (MBlock bs_cid (last_received bs_cid [1; 2; 3] l))).
Proof.
  split; [reflexivity|]. split; [reflexivity|].
  pose proof (bitswap_transfer (secs 21) "a" bs_cid bs_server bs_sample) as Ht. by destruct Ht as (_ & _ & Ht).
Defined.
