(* ===== verification/Eventual.v ===== *)
(** * Eventual consistency: [crates/ipfrs-storage/src/eventual_consistency.rs]

    Version vectors, the resolution of conflicts between versions of a block, and the store that
    keeps a version per CID in front of a backend.  The versions are in a [DashMap]: [get] returns a
    reference that locks the shard of its key while it lives, and the methods that change the map
    wait for that lock.  [guard] is the key of such a reference, and [Deadlock] the outcome of
    waiting for a lock that the method itself holds; keys that share the shard, which depends on
    the hash, would wait too.  The system time, in milliseconds, is an argument. *)

From Stdlib Require Import ZArith Lia List.
From stdpp Require Import base tactics numbers list gmap sets strings.
From S2P Require Import Prelude Collections Cid Block ColdStore.

#[local] Open Scope Z_scope.

Inductive ConsistencyLevel : Type := Strong | Eventual | Quorum (read_quorum write_quorum : nat) | One.
Definition ConsistencyLevel_default : ConsistencyLevel := Eventual.

(** ** Version vectors *)
Record VersionVector : Type := mkVersionVector { versions : gmap Z Z }.
#[global] Instance VersionVector_eq_dec : EqDecision VersionVector.
Proof. solve_decision. Defined.

Definition VersionVector_new : VersionVector := mkVersionVector ∅.
Definition get (v : VersionVector) (node_id : Z) : Z := default 0 (versions v !! node_id).
Definition increment (node_id : Z) (v : VersionVector) : VersionVector :=
  mkVersionVector (<[node_id := as_u64 (get v node_id + 1)]> (versions v)).

(** The loop over the entries of [self]: [None] is the early return of [false]. *)
Fixpoint no_greater (other : VersionVector) (l : list (Z * Z)) (strictly_less : bool) : option bool :=
  match l with
  | [] => Some strictly_less
  | (node_id, version) :: l' =>
    let other_version := get other node_id in
    if other_version <? version then None
    else no_greater other l' (strictly_less || (version <? other_version))
  end.

Section order.
Context `{!HashIter Z}.

Definition happens_before (self other : VersionVector) : bool :=
  match no_greater other (hash_iter (versions self)) false with
  | None => false
  | Some strictly_less =>
    foldl (λ s '(node_id, version), s || (bool_decide (versions self !! node_id = None) && (0 <? version)))
      strictly_less (hash_iter (versions other))
  end.

Definition is_concurrent (self other : VersionVector) : bool :=
  negb (happens_before self other) && negb (happens_before other self) && bool_decide (self ≠ other).

Definition merge (other self : VersionVector) : VersionVector :=
  foldl (λ v '(node_id, version), mkVersionVector (<[node_id := Z.max (get v node_id) version]> (versions v)))
    self (hash_iter (versions other)).
End order.

(** ** Versioned values *)
Record VersionedValue : Type := mkVersionedValue {
  vv_data : bytes;
  vv_version : VersionVector;
  vv_timestamp : Z;
  vv_writer : Z;
}.
Definition VersionedValue_new (now : Z) (data : bytes) (node_id : Z) : VersionedValue :=
  mkVersionedValue data (increment node_id VersionVector_new) (as_u64 now) node_id.
Definition is_newer_than (x y : VersionedValue) : bool :=
  if decide (vv_timestamp x ≠ vv_timestamp y) then vv_timestamp y <? vv_timestamp x
  else vv_writer y <? vv_writer x.

Inductive ConflictResolution : Type := LastWriteWins | KeepAll | VectorClock.
Definition ConflictResolution_default : ConflictResolution := LastWriteWins.

Section store.
Context `{!HashIter Z}.

Definition newer (v1 v2 : VersionedValue) : VersionedValue := if is_newer_than v1 v2 then v1 else v2.
Definition resolve_conflict (resolution : ConflictResolution) (v1 v2 : VersionedValue) : VersionedValue :=
  match resolution with
  | LastWriteWins => newer v1 v2
  | VectorClock =>
    if happens_before (vv_version v1) (vv_version v2) then v2
    else if happens_before (vv_version v2) (vv_version v1) then v1
    else newer v1 v2
  | KeepAll => newer v1 v2
  end.

Context `{CidCrate} {K : Type} `{!ColdStore K}.

Record EventualStore : Type := mkEventualStore {
  ev_inner : K;
  consistency_level : ConsistencyLevel;
  conflict_resolution : ConflictResolution;
  ev_node_id : Z;
  ev_versions : gmap Cid VersionedValue;
  guard : option Cid;
}.
Implicit Types s : EventualStore.
Definition EventualStore_new (inner : K) (level : ConsistencyLevel) (resolution : ConflictResolution) (node_id : Z) :
    EventualStore := mkEventualStore inner level resolution node_id ∅ None.

Inductive Stop : Type := Fails (e : Error) | Deadlock.

Definition set_inner (k : K) s : EventualStore :=
  mkEventualStore k (consistency_level s) (conflict_resolution s) (ev_node_id s) (ev_versions s) (guard s).
Definition set_versions (m : gmap Cid VersionedValue) s : EventualStore :=
  mkEventualStore (ev_inner s) (consistency_level s) (conflict_resolution s) (ev_node_id s) m (guard s).
Definition set_guard (g : option Cid) s : EventualStore :=
  mkEventualStore (ev_inner s) (consistency_level s) (conflict_resolution s) (ev_node_id s) (ev_versions s) g.
Definition set_consistency_level (level : ConsistencyLevel) s : EventualStore :=
  mkEventualStore (ev_inner s) level (conflict_resolution s) (ev_node_id s) (ev_versions s) (guard s).

(** [DashMap::insert] and [DashMap::remove]. *)
Definition dash_write (cid : Cid) (f : gmap Cid VersionedValue → gmap Cid VersionedValue) : stateful EventualStore Stop unit :=
  λ s, if decide (guard s = Some cid) then (Err Deadlock, s) else (Ok tt, set_versions (f (ev_versions s)) s).
Definition dash_insert (cid : Cid) (v : VersionedValue) := dash_write cid (<[cid := v]>).
Definition dash_remove (cid : Cid) := dash_write cid (delete cid).

(** A call of the backend. *)
Definition on_inner {A} (f : stateful K Error A) : stateful EventualStore Stop A :=
  λ s, let '(r, k) := f (ev_inner s) in (map_err Fails r, set_inner k s).
Definition store_data (data : bytes) : stateful EventualStore Stop unit :=
  do! block := lift (map_err Fails (Block_new data)) in
  on_inner (cold_put (b_cid block) (b_data block)).

(** The reference [existing] lives until the end of its branch. *)
Definition put_versioned (cid : Cid) (value : VersionedValue) : stateful EventualStore Stop unit := λ s,
  match ev_versions s !! cid with
  | Some existing =>
    (do! _ := modifies (set_guard (Some cid)) in
     let resolved := resolve_conflict (conflict_resolution s) existing value in
     do! _ := dash_insert cid resolved in
     do! _ := store_data (vv_data resolved) in
     modifies (set_guard None)) s
  | None =>
    (do! _ := dash_insert cid value in
     store_data (vv_data value)) s
  end.

(** Both levels of consistency do the same. *)
Definition get_local (now : Z) (cid : Cid) : stateful EventualStore Stop (option VersionedValue) := λ s,
  match ev_versions s !! cid with
  | Some value => (Ok (Some value), s)
  | None =>
    (do! block := on_inner (λ k, (cold_get cid k, k)) in
     match block with
     | Some data =>
       let value := VersionedValue_new now data (ev_node_id s) in
       do! _ := dash_insert cid value in lift (Ok (Some value))
     | None => lift (Ok None)
     end) s
  end.
Definition get_versioned (now : Z) (cid : Cid) : stateful EventualStore Stop (option VersionedValue) := λ s,
  match consistency_level s with
  | Eventual | One => get_local now cid s
  | Strong | Quorum _ _ => get_local now cid s
  end.

Definition get_version (cid : Cid) s : option VersionVector := vv_version <$> ev_versions s !! cid.

(** ** The backend interface *)
Definition ev_get (now : Z) (cid : Cid) : stateful EventualStore Stop (option Block) :=
  do! versioned := get_versioned now cid in
  match versioned with
  | Some v => do! block := lift (map_err Fails (Block_new (vv_data v))) in lift (Ok (Some block))
  | None => lift (Ok None)
  end.
Definition ev_put (now : Z) (block : Block) : stateful EventualStore Stop unit := λ s,
  put_versioned (b_cid block) (VersionedValue_new now (b_data block) (ev_node_id s)) s.
Definition ev_has (cid : Cid) : stateful EventualStore Stop bool := λ s,
  match ev_versions s !! cid with
  | Some _ => (Ok true, s)
  | None => on_inner (λ k, (cold_has cid k, k)) s
  end.
Definition ev_delete (cid : Cid) : stateful EventualStore Stop unit :=
  do! _ := dash_remove cid in on_inner (cold_delete cid).
Definition ev_list_cids s : outcome Error (list Cid) := cold_list (ev_inner s).
Definition ev_len s : nat := cold_len (ev_inner s).

(** [clock]: the time at each element of the batch. *)
Fixpoint ev_get_many (clock : Cid → Z) (cids : list Cid) : stateful EventualStore Stop (list (option Block)) :=
  match cids with
  | [] => lift (Ok [])
  | cid :: cids' =>
    do! b := ev_get (clock cid) cid in do! bs := ev_get_many clock cids' in lift (Ok (b :: bs))
  end.
Fixpoint ev_put_many (clock : Block → Z) (blocks : list Block) : stateful EventualStore Stop unit :=
  match blocks with
  | [] => lift (Ok tt)
  | b :: blocks' => do! _ := ev_put (clock b) b in ev_put_many clock blocks'
  end.
Fixpoint ev_has_many (cids : list Cid) : stateful EventualStore Stop (list bool) :=
  match cids with
  | [] => lift (Ok [])
  | cid :: cids' => do! b := ev_has cid in do! bs := ev_has_many cids' in lift (Ok (b :: bs))
  end.
Fixpoint ev_delete_many (cids : list Cid) : stateful EventualStore Stop unit :=
  match cids with
  | [] => lift (Ok tt)
  | cid :: cids' => do! _ := ev_delete cid in ev_delete_many cids'
  end.

Record EventualStoreStats : Type := mkEventualStats {
  total_versioned_entries : nat;
  st_level : ConsistencyLevel;
  st_resolution : ConflictResolution;
}.
Definition ev_stats s : EventualStoreStats :=
  mkEventualStats (size (ev_versions s)) (consistency_level s) (conflict_resolution s).
End store.
Arguments EventualStore {_} K.
