(* ===== verification/EventualFacts.v ===== *)
(** * Eventual consistency: causality, convergence, and writes that block

    Version vectors are ordered pointwise; the code's comparison is the strict part of that order and
    its merge the least upper bound.  Resolution by timestamps converges, resolution by version
    vectors need not; and the store blocks on the second write of a block. *)

From Stdlib Require Import ZArith Lia List.
From stdpp Require Import base tactics numbers list gmap sets strings.
From S2P Require Import Prelude Collections Cid Block ColdStore Eventual.

#[local] Open Scope Z_scope.

(** ** The order of version vectors *)
#[export] Instance vv_le : SqSubsetEq VersionVector := λ a b, ∀ n, get a n <= get b n.
#[export] Instance vv_equiv : Equiv VersionVector := λ a b, ∀ n, get a n = get b n.

#[export] Instance vv_le_preorder : PreOrder (⊑@{VersionVector}).
Proof. split; [by intros a n|]. intros a b c Hab Hbc n. etrans; [apply Hab|apply Hbc]. Qed.
#[export] Instance vv_equivalence : Equivalence (≡@{VersionVector}).
Proof.
  split; [by intros a n|by intros a b Hab n; symmetry|]. intros a b c Hab Hbc n. etrans; [apply Hab|apply Hbc].
Qed.
#[export] Instance vv_le_proper : Proper ((≡) ==> (≡) ==> (↔)) (⊑@{VersionVector}).
Proof. intros a a' Ha b b' Hb. split; intros Hle n; specialize (Hle n); specialize (Ha n); specialize (Hb n); lia. Qed.
Lemma vv_le_antisymm (a b : VersionVector) : a ⊑ b → b ⊑ a → a ≡ b.
Proof. intros Hab Hba n. specialize (Hab n). specialize (Hba n). lia. Qed.

(** Causally before. *)
Definition vv_lt (a b : VersionVector) : Prop := a ⊑ b ∧ ¬ b ⊑ a.

(** Every entry counts something. *)
Definition vv_pos (v : VersionVector) : Prop := ∀ n x, versions v !! n = Some x → 0 < x.
Lemma get_nonneg v n : vv_pos v → 0 <= get v n.
Proof. intros Hv. unfold get. destruct (versions v !! n) as [x|] eqn:Hx; simpl; [|done]. apply Hv in Hx. lia. Qed.
Lemma get_Some v n x : versions v !! n = Some x → get v n = x.
Proof. unfold get. by intros ->. Qed.
Lemma get_insert m k x n : get (mkVersionVector (<[k := x]> m)) n = if decide (k = n) then x else get (mkVersionVector m) n.
Proof. unfold get. simpl. destruct (decide (k = n)) as [->|]; [by rewrite lookup_insert_eq|by rewrite lookup_insert_ne]. Qed.
Lemma get_increment_ne v k n : n ≠ k → get (increment k v) n = get v n.
Proof. intros Hne. unfold increment. rewrite get_insert, decide_False by done. by destruct v. Qed.
Lemma get_pos v n : vv_pos v → 0 < get v n ↔ is_Some (versions v !! n).
Proof.
  intros Hv. unfold get. destruct (versions v !! n) as [x|] eqn:Hx; simpl; [apply Hv in Hx; split; [eauto|done]|].
  split; [lia|by intros [? ?]].
Qed.
Lemma vv_pos_equiv a b : vv_pos a → vv_pos b → a ≡ b → a = b.
Proof.
  intros Ha Hb Heq. destruct a as [va], b as [vb]. f_equal. apply map_eq. intros n. specialize (Heq n). unfold get in Heq. simpl in Heq.
  specialize (Ha n). specialize (Hb n). simpl in *. destruct (va !! n) as [x|], (vb !! n) as [y|]; simpl in Heq; subst; try done.
  - by specialize (Ha 0 eq_refl).
  - by specialize (Hb 0 eq_refl).
Qed.

Lemma vv_le_entries v w (l : list (Z * Z)) : vv_pos w → (∀ n x, (n, x) ∈ l ↔ versions v !! n = Some x) →
  (∀ p, p ∈ l → p.2 <= get w p.1) ↔ v ⊑ w.
Proof.
  intros Hw Hl. split.
  - intros Hp n. destruct (versions v !! n) as [x|] eqn:Hx.
    + rewrite (get_Some v n x Hx). by apply (Hp (n, x)), Hl.
    + unfold get at 1. rewrite Hx. by apply get_nonneg.
  - intros Hle [n x] Hx%Hl. simpl. rewrite <- (get_Some v n x Hx). apply Hle.
Qed.

Lemma no_greater_spec other l s :
  match no_greater other l s with
  | None => ∃ p, p ∈ l ∧ get other p.1 < p.2
  | Some s' => (∀ p, p ∈ l → p.2 <= get other p.1) ∧ (s' = true ↔ s = true ∨ ∃ p, p ∈ l ∧ p.2 < get other p.1)
  end.
Proof.
  revert s. induction l as [|[n x] l IH]; intros s; cbn [no_greater].
  { split; [by intros p ?%elem_of_nil|]. split; [by left|]. by intros [|(p & ?%elem_of_nil & _)]. }
  destruct (Z.ltb_spec (get other n) x) as [Hlt|Hle]; [exists (n, x); split; [left|done]|].
  specialize (IH (s || (x <? get other n))). destruct (no_greater other l _) as [s'|].
  - destruct IH as [IHle IH]. split; [by intros p [->|Hp]%elem_of_cons; [|apply IHle]|].
    rewrite IH, orb_true_iff, Z.ltb_lt. setoid_rewrite elem_of_cons. split.
    + intros [[|]|(p & ? & ?)]; [by left|right; exists (n, x); auto|right; exists p; auto].
    + intros [|(p & [->|] & ?)]; [by left; left|by left; right|right; eauto].
  - destruct IH as (p & ? & ?). exists p. split; [by right|done].
Qed.

Section order.
Context `{!HashIter Z}.

Lemma new_nodes (a : VersionVector) (l : list (Z * Z)) s :
  foldl (λ s '(n, x), s || (bool_decide (versions a !! n = None) && (0 <? x))) s l = true
  ↔ s = true ∨ ∃ n x, (n, x) ∈ l ∧ versions a !! n = None ∧ 0 < x.
Proof.
  revert s. induction l as [|[n x] l IH]; intros s; simpl.
  { split; [by left|]. by intros [|(? & ? & ?%elem_of_nil & _)]. }
  rewrite IH, orb_true_iff, andb_true_iff, bool_decide_eq_true, Z.ltb_lt. setoid_rewrite elem_of_cons. split.
  - intros [[|[? ?]]|(n' & x' & ? & ?)]; [by left|right; exists n, x; auto|right; exists n', x'; auto].
  - intros [|(n' & x' & [[= -> ->]|] & ? & ?)]; [by left; left|left; right; auto|right; eauto 6].
Qed.

Lemma happens_before_lt a b : vv_pos a → vv_pos b → happens_before a b = true ↔ vv_lt a b.
Proof.
  intros Ha Hb. unfold happens_before. pose proof (no_greater_spec b (hash_iter (versions a)) false) as Hn.
  pose proof (vv_le_entries a b (hash_iter (versions a)) Hb (λ n x, elem_of_hash_iter _ n x)) as Hle.
  destruct (no_greater b _ false) as [s|].
  - destruct Hn as [Hall Hs]. apply Hle in Hall. rewrite new_nodes, Hs. unfold vv_lt. split.
    + intros Hx. split; [done|]. destruct Hx as [[?|([n x] & Hin%elem_of_hash_iter & Hlt)]|(n & x & Hin%elem_of_hash_iter & Hno & Hlt)]; [done|..];
        intros Hba; specialize (Hba n); simpl in *.
      * rewrite (get_Some a n x Hin) in Hba. lia.
      * rewrite (get_Some b n x Hin) in Hba. unfold get in Hba. rewrite Hno in Hba. simpl in Hba. lia.
    + intros [_ Hba]. destruct (decide (Exists (λ p, get a p.1 < p.2) (hash_iter (versions b)))) as [Hex|Hno].
      * apply Exists_exists in Hex as ([n x] & Hin & Hlt). apply elem_of_hash_iter in Hin as Hbn. simpl in Hlt.
        destruct (versions a !! n) as [y|] eqn:Hy.
        -- left. right. exists (n, y). split; [by apply elem_of_hash_iter|]. simpl.
           rewrite (get_Some b n x Hbn). by rewrite (get_Some a n y Hy) in Hlt.
        -- right. exists n, x. split_and!; [done|done|]. by apply Hb in Hbn.
      * destruct Hba. apply (vv_le_entries b a (hash_iter (versions b)) Ha (λ n x, elem_of_hash_iter _ n x)).
        intros p Hp. apply Z.nlt_ge. intros Hlt. apply Hno, Exists_exists. eauto.
  - split; [done|]. intros [Hab _]. destruct Hn as ([n x] & Hin%elem_of_hash_iter & Hlt). simpl in Hlt.
    specialize (Hab n). rewrite (get_Some a n x Hin) in Hab. lia.
Qed.

(** ** Merging *)
Lemma merge_get a b n : vv_pos a → vv_pos b → get (merge b a) n = Z.max (get a n) (get b n).
Proof.
  intros Ha Hb. unfold merge. assert (∀ l v, NoDup l.*1 → (∀ k x, (k, x) ∈ l → 0 < x) → (0 <= get v n) →
    get (foldl (λ v '(k, x), mkVersionVector (<[k := Z.max (get v k) x]> (versions v))) v l) n
    = Z.max (get v n) (get (mkVersionVector (list_to_map l)) n)) as Hfold.
  { induction l as [|[k x] l IH]; intros v Hnd Hpos Hv; simpl.
    - unfold get at 3. simpl. by rewrite Z.max_l.
    - apply NoDup_cons in Hnd as [Hk Hnd]. assert (0 < x) as Hx by (apply (Hpos k); left).
      rewrite IH; [|done|by intros k' x' ?; apply (Hpos k'); right|].
      + change (list_to_map ((k, x) :: l)) with (<[k := x]> (list_to_map l : gmap Z Z)). rewrite !get_insert. destruct v as [m]. simpl.
        destruct (decide (k = n)) as [->|Hne]; [|done].
        assert (get (mkVersionVector (list_to_map l)) n = 0) as ->; [|lia].
        unfold get. simpl. by rewrite (not_elem_of_list_to_map_1 l n).
      + rewrite get_insert. destruct v as [m]. simpl. destruct (decide (k = n)) as [->|]; [lia|done]. }
  rewrite Hfold; [|apply NoDup_hash_iter_keys|intros k x ?%elem_of_hash_iter; eauto|by apply get_nonneg].
  rewrite (list_to_map_proper (hash_iter (versions b)) (map_to_list (versions b)));
    [|apply NoDup_hash_iter_keys|apply hash_iter_perm].
  rewrite list_to_map_to_list. by destruct b.
Qed.
End order.

(** ** Vectors a program can build *)
Section grown.
Context `{!HashIter Z}.

(** [n] bounds the number of increments behind a vector. *)
Inductive grown : nat → VersionVector → Prop :=
| g_new : grown 0 VersionVector_new
| g_increment n v node : grown n v → grown (S n) (increment node v)
| g_merge n m v w : grown n v → grown m w → grown (n + m) (merge w v).

Lemma increment_get v node n : 0 <= get v node < 2 ^ 64 - 1 →
  get (increment node v) n = if decide (node = n) then get v n + 1 else get v n.
Proof.
  intros Hv. unfold increment. rewrite get_insert. destruct v as [m]. simpl. destruct (decide (node = n)) as [->|]; [|done].
  unfold as_u64. by rewrite Z.mod_small by lia.
Qed.

Lemma pos_by_get v : (∀ n, 0 <= get v n) → (∀ n, is_Some (versions v !! n) → get v n ≠ 0) → vv_pos v.
Proof. intros Hge Hne n x Hx. specialize (Hge n). specialize (Hne n (mk_is_Some _ _ Hx)). rewrite (get_Some v n x Hx) in *. lia. Qed.

Lemma foldl_insert_dom {A} (f : VersionVector → A → Z * Z) (l : list A) v n :
  is_Some (versions (foldl (λ v a, mkVersionVector (<[(f v a).1 := (f v a).2]> (versions v))) v l) !! n) →
  is_Some (versions v !! n) ∨ ∃ a v', a ∈ l ∧ (f v' a).1 = n.
Proof.
  revert v. induction l as [|a l IH]; intros v Hs; simpl in *; [by left|].
  apply IH in Hs as [Hs|(a' & v' & ? & ?)]; [|right; exists a', v'; split; [by right|done]].
  simpl in Hs. destruct (decide ((f v a).1 = n)) as [Heq|Hne]; [right; exists a, v; split; [by left|done]|].
  rewrite lookup_insert_ne in Hs by done. by left.
Qed.

Lemma merge_dom a b n : is_Some (versions (merge b a) !! n) → is_Some (versions a !! n) ∨ is_Some (versions b !! n).
Proof.
  unfold merge. intros Hs.
  assert (foldl (λ v '(k, x), mkVersionVector (<[k := Z.max (get v k) x]> (versions v))) a (hash_iter (versions b))
    = foldl (λ v p, mkVersionVector (<[((λ v p, (p.1, Z.max (get v p.1) p.2)) v p).1 := ((λ v p, (p.1, Z.max (get v p.1) p.2)) v p).2]> (versions v))) a (hash_iter (versions b))) as Heq.
  { clear Hs. generalize a. induction (hash_iter (versions b)) as [|[k x] l IH]; intros v; simpl; [done|apply IH]. }
  rewrite Heq in Hs. apply (foldl_insert_dom (λ v p, (p.1, Z.max (get v p.1) p.2))) in Hs as [|([k x] & v' & Hin%elem_of_hash_iter & <-)]; [by left|]. simpl. right. eauto.
Qed.

Lemma merge_pos a b : vv_pos a → vv_pos b → vv_pos (merge b a).
Proof.
  intros Ha Hb. apply pos_by_get.
  - intros n. rewrite merge_get by done. pose proof (get_nonneg a n Ha). lia.
  - intros n Hn%merge_dom. rewrite merge_get by done. pose proof (get_nonneg a n Ha). pose proof (get_nonneg b n Hb).
    destruct Hn as [Hn|Hn]; apply get_pos in Hn; try done; lia.
Qed.

Lemma grown_ok n v : grown n v → Z.of_nat n < 2 ^ 64 → vv_pos v ∧ ∀ k, get v k <= Z.of_nat n.
Proof.
  induction 1 as [|n v node _ IH|n m v w _ IHv _ IHw]; intros Hn.
  - split; [intros n x Hx; simpl in Hx; by rewrite lookup_empty in Hx|]. intros k. unfold get. simpl. rewrite lookup_empty. done.
  - destruct IH as [Hpos Hle]; [lia|]. pose proof (get_nonneg v node Hpos) as Hge. specialize (Hle node) as Hlen.
    assert (∀ k, get (increment node v) k = if decide (node = k) then get v k + 1 else get v k) as Hget.
    { intros k. apply increment_get. lia. }
    split; [|intros k; rewrite Hget; specialize (Hle k); destruct (decide _); lia].
    intros k x Hx. apply get_Some in Hx as Hg. rewrite Hget in Hg. pose proof (get_nonneg v k Hpos) as Hk.
    destruct (decide (node = k)) as [->|Hne]; [lia|].
    unfold increment in Hx. simpl in Hx. rewrite lookup_insert_ne in Hx by done. by eapply Hpos.
  - destruct IHv as [Hv Hlv]; [lia|]. destruct IHw as [Hw Hlw]; [lia|]. split; [by apply merge_pos|].
    intros k. rewrite merge_get by done. specialize (Hlv k). specialize (Hlw k). lia.
Qed.

(** C23. Version vectors, as programs build them with fewer than 2^64 increments, are ordered by causality:
    [happens_before] is the strict part of the pointwise order and [is_concurrent] says that two
    vectors are incomparable; [merge] gives the least upper bound, and an increment a later vector. *)
Theorem version_vectors_causal n m a b node : grown n a → grown m b → Z.of_nat (S n + m) < 2 ^ 64 →
  (happens_before a b = true ↔ a ⊑ b ∧ ¬ b ⊑ a)
  ∧ (is_concurrent a b = true ↔ ¬ a ⊑ b ∧ ¬ b ⊑ a)
  ∧ (∀ c, merge b a ⊑ c ↔ a ⊑ c ∧ b ⊑ c)
  ∧ happens_before a (increment node a) = true.
Proof.
  intros Ga Gb Hn. destruct (grown_ok n a Ga) as [Ha _]; [lia|]. destruct (grown_ok m b Gb) as [Hb _]; [lia|].
  destruct (grown_ok (S n) (increment node a) (g_increment n a node Ga)) as [Hi _]; [lia|].
  destruct (grown_ok n a Ga) as [_ Hle]; [lia|]. split_and!.
  - by apply happens_before_lt.
  - unfold is_concurrent. rewrite !andb_true_iff, !negb_true_iff, bool_decide_eq_true, <- !not_true_iff_false, !happens_before_lt by done.
    unfold vv_lt. split; [|intros [? ?]; split_and!; [tauto..|intros ->; done]].
    intros [[Hab Hba] Hne]. assert (¬ (a ⊑ b ∧ b ⊑ a)) as Hboth; [|tauto].
    intros [? ?]. by apply Hne, vv_pos_equiv, vv_le_antisymm.
  - intros c. split; [intros Hc; split; intros k; specialize (Hc k); rewrite merge_get in Hc by done; lia|].
    intros [Hac Hbc] k. specialize (Hac k). specialize (Hbc k). rewrite merge_get by done. lia.
  - assert (∀ k, get (increment node a) k = if decide (node = k) then get a k + 1 else get a k) as Hget.
    { intros k. apply increment_get. pose proof (get_nonneg a node Ha). specialize (Hle node). lia. }
    apply happens_before_lt; [done|done|]. split.
    + intros k. rewrite Hget. destruct (decide _); lia.
    + intros Hback. specialize (Hback node). rewrite Hget, decide_True in Hback by done. lia.
Qed.
End grown.

(** ** Resolution *)
Definition stamp (v : VersionedValue) : Z * Z := (vv_timestamp v, vv_writer v).
Definition stamp_le (x y : VersionedValue) : Prop :=
  vv_timestamp x < vv_timestamp y ∨ vv_timestamp x = vv_timestamp y ∧ vv_writer x <= vv_writer y.
Lemma is_newer_spec x y : if is_newer_than x y then stamp_le y x ∧ ¬ stamp_le x y else stamp_le x y.
Proof.
  unfold is_newer_than, stamp_le. destruct (decide (vv_timestamp x ≠ vv_timestamp y)).
  - destruct (Z.ltb_spec (vv_timestamp y) (vv_timestamp x)); lia.
  - destruct (Z.ltb_spec (vv_writer y) (vv_writer x)); lia.
Qed.
#[export] Instance stamp_le_trans : Transitive stamp_le.
Proof. intros x y z. unfold stamp_le. lia. Qed.
Lemma stamp_le_antisymm x y : stamp_le x y → stamp_le y x → stamp x = stamp y.
Proof. unfold stamp_le, stamp. intros. f_equal; lia. Qed.

Lemma newest_spec (l : list VersionedValue) x : let r := foldl newer x l in r ∈ x :: l ∧ ∀ y, y ∈ x :: l → stamp_le y r.
Proof.
  revert x. induction l as [|y l IH]; intros x; simpl.
  { split; [by left|]. intros z ->%list_elem_of_singleton. unfold stamp_le. lia. }
  destruct (IH (newer x y)) as [Hin Hle]. unfold newer in *. pose proof (is_newer_spec x y) as Hn.
  set (z := if is_newer_than x y then x else y) in *.
  assert (stamp_le x z ∧ stamp_le y z) as [Hx Hy].
  { unfold z. destruct (is_newer_than x y); [|split; [done|unfold stamp_le; lia]]. split; [unfold stamp_le; lia|tauto]. }
  split.
  - apply elem_of_cons in Hin as [Hr|Hin]; [|by do 2 right]. rewrite Hr. unfold z. destruct (is_newer_than x y); [left|right; left].
  - intros w [->|[->|Hw]%elem_of_cons]%elem_of_cons; [etrans; [exact Hx|]|etrans; [exact Hy|]|]; apply Hle; by (left || right).
Qed.

Section resolution.
Context `{!HashIter Z}.

(** Last-write-wins converges: replicas that receive the same writes, no two of which share both timestamp
    and writer, end with the same one of them whatever the order in which they arrive. *)
Theorem last_write_wins_converges x l y k : x :: l ≡ₚ y :: k → NoDup (stamp <$> x :: l) →
  let r := foldl (resolve_conflict LastWriteWins) x l in
  foldl (resolve_conflict LastWriteWins) y k = r ∧ r ∈ x :: l ∧ ∀ z, z ∈ x :: l → z ≠ r → is_newer_than r z = true.
Proof.
  intros Hp Hnd r. change (resolve_conflict LastWriteWins) with newer in *.
  destruct (newest_spec l x) as [Hin Hle]. destruct (newest_spec k y) as [Hin' Hle']. fold r in Hin, Hle.
  assert (∀ a b, a ∈ x :: l → b ∈ x :: l → stamp a = stamp b → a = b) as Hinj.
  { intros a b [i Hi]%list_elem_of_lookup [j Hj]%list_elem_of_lookup Hab. rewrite NoDup_alt in Hnd.
    assert (i = j) as ->; [|congruence]. eapply (Hnd i j (stamp a)); rewrite list_lookup_fmap; [by rewrite Hi|by rewrite Hj, Hab]. }
  rewrite <- Hp in Hin'. split_and!; [|done|].
  - apply Hinj; [done..|]. apply stamp_le_antisymm; [by apply Hle|]. apply Hle'. by rewrite <- Hp.
  - intros z Hz Hne. pose proof (is_newer_spec r z) as Hn. destruct (is_newer_than r z); [done|].
    destruct Hne. apply Hinj; [done..|]. apply stamp_le_antisymm; [by apply Hle|done].
Qed.

(** Resolution by version vectors never keeps a version that the other one has seen, and yet does not
    converge: three writes, in two orders, leave two replicas with different versions of a block.
    One write has seen another with a later timestamp, and the third is concurrent to both. *)
Theorem vector_clock_diverges :
  (∀ n m v1 v2, grown n (vv_version v1) → grown m (vv_version v2) → Z.of_nat (n + m) < 2 ^ 64 →
     let r := vv_version (resolve_conflict VectorClock v1 v2) in ¬ vv_lt r (vv_version v1) ∧ ¬ vv_lt r (vv_version v2)) ∧
  ∃ x y z, (∀ v, v ∈ [x; y; z] → ∃ n, grown n (vv_version v)) ∧ NoDup (stamp <$> [x; y; z])
    ∧ foldl (resolve_conflict VectorClock) x [y; z] ≠ foldl (resolve_conflict VectorClock) x [z; y].
Proof.
  assert (∀ v1 v2, vv_pos (vv_version v1) → vv_pos (vv_version v2) →
    resolve_conflict VectorClock v1 v2 = v2 ∧ ¬ vv_lt (vv_version v2) (vv_version v1)
    ∨ resolve_conflict VectorClock v1 v2 = v1 ∧ ¬ vv_lt (vv_version v1) (vv_version v2)) as Hcases.
  { intros v1 v2 H1 H2. unfold resolve_conflict, newer.
    pose proof (happens_before_lt _ _ H1 H2) as H12. pose proof (happens_before_lt _ _ H2 H1) as H21.
    destruct (happens_before (vv_version v1) (vv_version v2)).
    - left. split; [done|]. intros [_ Hn]. by destruct (proj1 H12 eq_refl).
    - destruct (happens_before (vv_version v2) (vv_version v1)); [right; split; [done|]; intros Hlt; by apply H12 in Hlt|].
      destruct (is_newer_than v1 v2); [right|left]; (split; [done|]); intros Hlt; [by apply H12 in Hlt|by apply H21 in Hlt]. }
  split.
  - intros n m v1 v2 G1 G2 Hn. destruct (grown_ok _ _ G1) as [P1 _]; [lia|]. destruct (grown_ok _ _ G2) as [P2 _]; [lia|].
    destruct (Hcases v1 v2 P1 P2) as [[-> Hn2]|[-> Hn1]]; split; try done; intros [? ?]; done.
  - set (a := increment 1 VersionVector_new). set (b := increment 1 a). set (c := increment 2 VersionVector_new).
    assert (grown 1 a) as Ga by repeat constructor. assert (grown 2 b) as Gb by repeat constructor. assert (grown 1 c) as Gc by repeat constructor.
    destruct (grown_ok _ _ Ga) as [Pa _]; [done|]. destruct (grown_ok _ _ Gb) as [Pb _]; [done|]. destruct (grown_ok _ _ Gc) as [Pc _]; [done|].
    assert (vv_lt a b) as Hab.
    { split; [intros n; destruct (decide (n = 1)) as [->|Hne]; [by vm_compute|]|intros Hba; by specialize (Hba 1)].
      unfold b. by rewrite get_increment_ne. }
    assert (∀ v, v = a ∨ v = b → ¬ vv_lt v c ∧ ¬ vv_lt c v) as Hc.
    { intros v Hv. split; intros [Hle _]; [specialize (Hle 1)|specialize (Hle 2)]; by destruct Hv; subst v. }
    assert (∀ v w, vv_pos v → vv_pos w → ¬ vv_lt v w → happens_before v w = false) as Hno.
    { intros v w Hv Hw Hvw. apply not_true_iff_false. by rewrite happens_before_lt. }
    exists (mkVersionedValue [1] a 30 1), (mkVersionedValue [2] b 10 1), (mkVersionedValue [3] c 20 2). split_and!.
    + intros v [->|[->|[->|[]%elem_of_nil]%elem_of_cons]%elem_of_cons]%elem_of_cons; eauto.
    + apply (bool_decide_unpack (NoDup [(30, 1); (10, 1); (20, 2)])). by vm_compute.
    + simpl. rewrite (proj2 (happens_before_lt a b Pa Pb) Hab). simpl.
      assert (happens_before b a = false) as Hba by (apply Hno; [done..|]; intros [? ?]; by destruct Hab).
      rewrite !(Hno b c), !(Hno c b), !(Hno a c), !(Hno c a) by (done || apply Hc; auto). simpl.
      unfold newer, is_newer_than. simpl. by rewrite (proj2 (happens_before_lt a b Pa Pb) Hab).
Qed.
End resolution.

(** ** The store *)
Section store.
Context `{!HashIter Z} `{CidCrate} {K : Type} `{!ColdStore K} `{!ColdLaws K} `{!Reliable K}.
Implicit Types s : EventualStore K.

Lemma guarded_insert c v s : guard s = Some c → dash_insert c v s = (Err Deadlock, s).
Proof. intros Hg. unfold dash_insert, dash_write. by rewrite decide_True. Qed.

Lemma put_again c v s e : ev_versions s !! c = Some e → put_versioned c v s = (Err Deadlock, set_guard (Some c) s).
Proof.
  intros He. unfold put_versioned. rewrite He. unfold st_bind at 1, modifies. unfold st_bind at 1.
  by rewrite guarded_insert.
Qed.

(** The store takes the first write of a block, under the name its bytes have as a raw block, and
    answers reads with the block of that name; it never takes a second one: a second write of the
    CID, whatever its bytes, waits for a lock it holds itself, before the backend is called, and
    from then on so do all writes and deletions of the CID. *)
Theorem eventual_put_once now s b b' :
  guard s = None → ev_versions s !! b_cid b = None → Block_new (b_data b) = Ok b' →
  ∃ s1, ev_put now b s = (Ok tt, s1)
    ∧ contents (ev_inner s1) = <[b_cid b' := b_data b]> (contents (ev_inner s))
    ∧ (∀ now', ev_get now' (b_cid b) s1 = (Ok (Some b'), s1))
    ∧ ∀ now2 b2, b_cid b2 = b_cid b → ∃ s2, ev_put now2 b2 s1 = (Err Deadlock, s2) ∧ ev_inner s2 = ev_inner s1
        ∧ (∀ now3 b3, b_cid b3 = b_cid b → (ev_put now3 b3 s2).1 = Err Deadlock)
        ∧ (ev_delete (b_cid b) s2).1 = Err Deadlock.
Proof.
  intros Hg Hv Hb. assert (b_data b' = b_data b) as Hdata.
  { unfold Block_new in Hb. inv_outcome. by subst b'. }
  set (v := VersionedValue_new now (b_data b) (ev_node_id s)).
  pose proof (cold_put_ok (b_cid b') (b_data b') (ev_inner s)) as Hok. pose proof (cold_put_law (b_cid b') (b_data b') (ev_inner s)) as Hput.
  destruct (cold_put (b_cid b') (b_data b') (ev_inner s)) as [r k] eqn:Hk. simpl in Hok. subst r. simpl in Hput.
  set (s1 := set_inner k (set_versions (<[b_cid b := v]> (ev_versions s)) s)).
  assert (ev_versions s1 !! b_cid b = Some v) as Hs1 by (simpl; by rewrite lookup_insert_eq).
  exists s1. split_and!.
  - unfold ev_put, put_versioned. fold v. rewrite Hv. unfold st_bind at 1, dash_insert, dash_write.
    rewrite decide_False by by rewrite Hg. unfold store_data. simpl vv_data. rewrite Hb. simpl.
    unfold st_bind, lift, on_inner. simpl. by rewrite Hk.
  - simpl. by rewrite Hput, Hdata.
  - intros now'. unfold ev_get, get_versioned. unfold st_bind at 1.
    assert (get_local now' (b_cid b) s1 = (Ok (Some v), s1)) as -> by (unfold get_local; by rewrite Hs1).
    assert (map_err Fails (Block_new (vv_data v)) = Ok b') as Hbv by (simpl; by rewrite Hb).
    destruct (consistency_level s1); unfold st_bind, lift; by rewrite Hbv.
  - intros now2 b2 H2. exists (set_guard (Some (b_cid b)) s1). split_and!; try done.
    + unfold ev_put. rewrite H2. by apply (put_again _ _ _ v).
    + intros now3 b3 H3. unfold ev_put. rewrite H3. by rewrite (put_again _ _ _ v).
    + unfold ev_delete, st_bind, dash_remove, dash_write. by rewrite decide_True.
Qed.
End store.

(** ** Witnesses *)
Import Reference.
#[local] Existing Instance default_iter.

Definition vec_a : VersionVector := increment 1 VersionVector_new.
Definition vec_b : VersionVector := increment 2 (increment 2 VersionVector_new).
Lemma version_vectors_causal_witness :
  is_concurrent vec_a vec_b = true ∧
  (happens_before vec_a vec_b = true ↔ vec_a ⊑ vec_b ∧ ¬ vec_b ⊑ vec_a)
  ∧ (is_concurrent vec_a vec_b = true ↔ ¬ vec_a ⊑ vec_b ∧ ¬ vec_b ⊑ vec_a)
  ∧ (∀ c, merge vec_b vec_a ⊑ c ↔ vec_a ⊑ c ∧ vec_b ⊑ c)
  ∧ happens_before vec_a (increment 1 vec_a) = true.
Proof.
  split; [by vm_compute|]. apply (version_vectors_causal 1 2 vec_a vec_b 1); [by repeat constructor..|by vm_compute].
Defined.

Definition write_at (now node byte : Z) : VersionedValue := VersionedValue_new now [byte] node.
Lemma last_write_wins_converges_witness :
  let ws := [write_at 5 1 10; write_at 7 2 20; write_at 7 1 30] in
  let r := foldl (resolve_conflict LastWriteWins) (write_at 5 1 10) [write_at 7 2 20; write_at 7 1 30] in
  vv_data r = [20] ∧
  (foldl (resolve_conflict LastWriteWins) (write_at 7 1 30) [write_at 5 1 10; write_at 7 2 20] = r
   ∧ r ∈ ws ∧ ∀ z, z ∈ ws → z ≠ r → is_newer_than r z = true).
Proof.
  split; [by vm_compute|]. apply last_write_wins_converges.
  - by rewrite (Permutation_app_comm [write_at 5 1 10; write_at 7 2 20] [write_at 7 1 30]).
  - apply (bool_decide_unpack (NoDup [(5, 1); (7, 2); (7, 1)])). by vm_compute.
Defined.

Definition ev_block : Block := mkBlock (new_v1 RAW (poly_digest Sha2_256 [1; 2])) [1; 2].
Definition ev_fresh : EventualStore MemoryBlockStore := EventualStore_new MemoryBlockStore_new Strong LastWriteWins 7.
Lemma eventual_put_once_witness :
  ∃ s1, ev_put 100 ev_block ev_fresh = (Ok tt, s1)
    ∧ contents (ev_inner s1) = <[b_cid ev_block := b_data ev_block]> (contents (ev_inner ev_fresh))
    ∧ (∀ now', ev_get now' (b_cid ev_block) s1 = (Ok (Some ev_block), s1))
    ∧ ∀ now2 b2, b_cid b2 = b_cid ev_block → ∃ s2, ev_put now2 b2 s1 = (Err Deadlock, s2) ∧ ev_inner s2 = ev_inner s1
        ∧ (∀ now3 b3, b_cid b3 = b_cid ev_block → (ev_put now3 b3 s2).1 = Err Deadlock)
        ∧ (ev_delete (b_cid ev_block) s2).1 = Err Deadlock.
Proof. apply (eventual_put_once 100 ev_fresh ev_block ev_block); reflexivity. Defined.
