(* ===== verification/BlockCache.v ===== *)
(** * The block cache: [crates/ipfrs-core/src/block_cache.rs]

    Blocks in memory up to a total size and a number, evicted by the index of their last access in
    [lru_list].  The cache is behind one lock that each method holds throughout, so its behaviours
    are the sequences of these operations.  Sizes and counters are [u64]s, indices [usize]s. *)

From Stdlib Require Import ZArith Lia List.
From stdpp Require Import base tactics numbers list gmap sets strings.
From S2P Require Import Prelude Collections F64 Cid Block.

#[local] Open Scope Z_scope.

Record CacheStats : Type := mkCacheStats { hits : Z; misses : Z; evictions : Z }.
Definition CacheStats_default : CacheStats := mkCacheStats 0 0 0.
Definition total_requests (s : CacheStats) : Z := as_u64 (hits s + misses s).
Definition hit_rate (s : CacheStats) : f64 :=
  let total := as_u64 (hits s + misses s) in
  if total =? 0 then f64_zero else f64_div (f64_of_int (hits s)) (f64_of_int total).
Definition miss_rate (s : CacheStats) : f64 :=
  let total := as_u64 (hits s + misses s) in
  if total =? 0 then f64_zero else f64_div (f64_of_int (misses s)) (f64_of_int total).

(** [Iterator::min_by_key]: the first of the least elements. *)
Definition min_by_key {A} (key : A → nat) (l : list A) : option A :=
  foldl (λ best x, match best with
                   | Some y => if (key x <? key y)%nat then Some x else best
                   | None => Some x
                   end) None l.

(** [iter().position(..)] and [Vec::remove] of the position found. *)
Fixpoint remove_first {A} `{!EqDecision A} (x : A) (l : list A) : list A :=
  match l with
  | [] => []
  | y :: l' => if decide (y = x) then l' else y :: remove_first x l'
  end.

Section cache.
Context `{CidCrate} `{!HashIter Cid}.

Record CacheEntry : Type := mkCacheEntry {
  ce_block : Block;
  ce_size : Z;
  last_access_index : nat;
}.
Record BlockCache : Type := mkBlockCache {
  cached : gmap Cid CacheEntry;
  lru_list : list Cid;
  max_size_bytes : Z;
  max_blocks : option nat;
  current_size : Z;
  stats : CacheStats;
}.
Implicit Types c : BlockCache.

Definition BlockCache_new (max_size_bytes : Z) (max_blocks : option nat) : BlockCache :=
  mkBlockCache ∅ [] max_size_bytes max_blocks 0 CacheStats_default.

Definition would_exceed_limits (additional_size : Z) c : bool :=
  let size_exceeded := max_size_bytes c <? as_u64 (current_size c + additional_size) in
  let count_exceeded := match max_blocks c with Some max => (max <=? size (cached c))%nat | None => false end in
  size_exceeded || count_exceeded.

(** Taking the entry [e] of [cid] out. *)
Definition take_out (cid : Cid) (e : CacheEntry) (st : CacheStats) c : BlockCache :=
  mkBlockCache (delete cid (cached c)) (remove_first cid (lru_list c)) (max_size_bytes c) (max_blocks c)
    (as_u64 (current_size c - ce_size e)) st.

Definition evict_lru c : BlockCache :=
  match lru_list c with
  | [] => c
  | _ =>
    match min_by_key (λ p, last_access_index p.2) (hash_iter (cached c)) with
    | Some (cid, e) => take_out cid e (mkCacheStats (hits (stats c)) (misses (stats c)) (as_u64 (evictions (stats c) + 1))) c
    | None => c
    end
  end.

Definition update_access (cid : Cid) c : BlockCache :=
  match cached c !! cid with
  | Some e =>
    mkBlockCache (<[cid := mkCacheEntry (ce_block e) (ce_size e) (length (lru_list c))]> (cached c))
      (lru_list c ++ [cid]) (max_size_bytes c) (max_blocks c) (current_size c) (stats c)
  | None => c
  end.

(** [while inner.would_exceed_limits(size) && !inner.blocks.is_empty()]; [None] is the lack of fuel. *)
Fixpoint make_room (fuel : nat) (size : Z) c : option BlockCache :=
  if would_exceed_limits size c && negb (bool_decide (cached c = ∅)) then
    match fuel with
    | O => None
    | S fuel' => make_room fuel' size (evict_lru c)
    end
  else Some c.

Definition insert (block : Block) c : option BlockCache :=
  let cid := b_cid block in
  let size := Z.of_nat (block_len block) in
  match cached c !! cid with
  | Some _ => Some (update_access cid c)
  | None =>
    match make_room (base.size (cached c)) size c with
    | None => None
    | Some c =>
      let access_index := length (lru_list c) in
      Some (mkBlockCache (<[cid := mkCacheEntry block size access_index]> (cached c)) (lru_list c ++ [cid])
              (max_size_bytes c) (max_blocks c) (as_u64 (current_size c + size)) (stats c))
    end
  end.

Definition with_stats (st : CacheStats) c : BlockCache :=
  mkBlockCache (cached c) (lru_list c) (max_size_bytes c) (max_blocks c) (current_size c) st.
Definition get (cid : Cid) c : option Block * BlockCache :=
  match cached c !! cid with
  | Some e =>
    let c := with_stats (mkCacheStats (as_u64 (hits (stats c) + 1)) (misses (stats c)) (evictions (stats c))) c in
    (Some (ce_block e), update_access cid c)
  | None => (None, with_stats (mkCacheStats (hits (stats c)) (as_u64 (misses (stats c) + 1)) (evictions (stats c))) c)
  end.

Definition contains (cid : Cid) c : bool := bool_decide (is_Some (cached c !! cid)).
Definition remove (cid : Cid) c : option Block * BlockCache :=
  match cached c !! cid with
  | Some e => (Some (ce_block e), take_out cid e (stats c) c)
  | None => (None, c)
  end.
Definition clear c : BlockCache := mkBlockCache ∅ [] (max_size_bytes c) (max_blocks c) 0 (stats c).
Definition len c : nat := size (cached c).
Definition is_empty c : bool := bool_decide (cached c = ∅).
End cache.
