(* ===== verification/BlockCacheFacts.v ===== *)
(** * The block cache: accounting, limits, and what is evicted

    On every history the sizes add up and the limits hold; an insertion evicts no more than it needs,
    in the order of the recorded indices.  That order is not the order of use. *)

From Stdlib Require Import ZArith Lia List.
From stdpp Require Import base tactics numbers list gmap sets strings fin_maps.
From S2P Require Import Prelude Collections F64 Cid Block BlockCache.

#[local] Open Scope Z_scope.

Lemma min_by_key_spec {A} (key : A → nat) (l : list A) :
  match min_by_key key l with
  | Some x => x ∈ l ∧ ∀ y, y ∈ l → (key x <= key y)%nat
  | None => l = []
  end.
Proof.
  unfold min_by_key. cut (∀ l best, match foldl (λ best x, match best with
      | Some y => if (key x <? key y)%nat then Some x else best | None => Some x end) best l with
    | Some x => (Some x = best ∨ x ∈ l) ∧ (∀ y, y ∈ l ∨ Some y = best → (key x <= key y)%nat)
    | None => best = None ∧ l = [] end).
  { intros Hcut. specialize (Hcut l None). destruct (foldl _ None l); [|tauto]. destruct Hcut as [[?|?] Hle]; [done|]. auto. }
  clear l. induction l as [|x l IH]; intros best; simpl.
  { destruct best as [b|]; [|done]. split; [by left|]. by intros y [?%elem_of_nil|[= ->]]. }
  specialize (IH match best with Some y => if (key x <? key y)%nat then Some x else best | None => Some x end).
  destruct (foldl _ _ l) as [r|]; [|destruct IH as [IH _]; destruct best; [destruct (_ <? _)%nat|]; done].
  destruct IH as [Hin Hle]. split.
  - destruct Hin as [Hr|Hin]; [|by do 2 right]. destruct best as [b|]; [destruct (Nat.ltb_spec (key x) (key b))|]; simplify_eq; auto; by right; left.
  - intros y Hy. destruct best as [b|].
    + destruct (Nat.ltb_spec (key x) (key b)).
      * assert (key r <= key x)%nat by (apply Hle; by right). destruct Hy as [[->|Hy]%elem_of_cons|[= ->]]; [lia|apply Hle; by left|lia].
      * assert (key r <= key b)%nat by (apply Hle; by right). destruct Hy as [[->|Hy]%elem_of_cons|[= ->]]; [lia|apply Hle; by left|lia].
    + destruct Hy as [[->|Hy]%elem_of_cons|?]; [apply Hle; by right|apply Hle; by left|done].
Qed.

Lemma elem_of_remove_first {A} `{!EqDecision A} (x y : A) l : y ≠ x → y ∈ remove_first x l ↔ y ∈ l.
Proof.
  intros Hne. induction l as [|z l IH]; simpl; [done|]. destruct (decide (z = x)) as [->|]; rewrite !elem_of_cons, ?IH; naive_solver.
Qed.

Section facts.
Context `{CidCrate} `{!HashIter Cid}.
Implicit Types (c : BlockCache) (m : gmap Cid CacheEntry) (e : CacheEntry).

(** ** Accounting *)
Definition total m : Z := map_fold (λ _ e n, ce_size e + n) 0 m.
Lemma total_insert m cid e : m !! cid = None → total (<[cid := e]> m) = ce_size e + total m.
Proof. intros Hm. unfold total. rewrite map_fold_insert_L; [done| |done]. intros. lia. Qed.
Lemma total_delete m cid e : m !! cid = Some e → total m = ce_size e + total (delete cid m).
Proof. intros Hm. rewrite <- (insert_delete_id m cid e Hm) at 1. apply total_insert, lookup_delete_eq. Qed.
Lemma total_update m cid e e' : m !! cid = Some e → ce_size e' = ce_size e → total (<[cid := e']> m) = total m.
Proof. intros Hm Hs. rewrite <- insert_delete_eq, total_insert by apply lookup_delete_eq. rewrite Hs. symmetry. by apply total_delete. Qed.

Definition entry_ok c (cid : Cid) e : Prop :=
  b_cid (ce_block e) = cid ∧ ce_size e = block_size (ce_block e) ∧ 0 <= ce_size e <= isize_max ∧ cid ∈ lru_list c.

(** What holds in the middle of an insertion too. *)
Record sound c : Prop := {
  s_entries : ∀ cid e, cached c !! cid = Some e → entry_ok c cid e;
  s_size : current_size c = total (cached c);
  s_total : total (cached c) <= isize_max;
  s_max : 0 <= max_size_bytes c <= isize_max;
}.
Definition within c : Prop :=
  (total (cached c) <= max_size_bytes c ∨ (size (cached c) <= 1)%nat)
  ∧ match max_blocks c with Some n => (size (cached c) <= Nat.max 1 n)%nat | None => True end.

Lemma total_nonneg m : (∀ cid e, m !! cid = Some e → 0 <= ce_size e) → 0 <= total m.
Proof.
  induction m as [|cid e m Hm IH] using map_ind; intros Hpos; [done|].
  rewrite total_insert by done. pose proof (Hpos cid e (lookup_insert_eq _ _ _)).
  assert (0 <= total m); [|lia]. apply IH. intros cid' e' He'. apply (Hpos cid' e'). rewrite lookup_insert_ne; [done|]. by intros ->; rewrite Hm in He'.
Qed.
Lemma sound_nonneg c : sound c → 0 <= total (cached c).
Proof. intros Hc. apply total_nonneg. intros cid e (_ & _ & ? & _)%(s_entries _ Hc). lia. Qed.

Lemma new_sound n mb : 0 <= n <= isize_max → sound (BlockCache_new n mb) ∧ within (BlockCache_new n mb).
Proof.
  intros Hn. assert (total ∅ = 0) as Hz by apply map_fold_empty. split; [split; simpl|]; rewrite ?Hz; try done.
  split; simpl; [left; rewrite Hz; lia|]. rewrite map_size_empty. destruct mb; lia.
Qed.

Lemma take_out_sound cid e st c : sound c → cached c !! cid = Some e →
  sound (take_out cid e st c) ∧ total (cached c) = ce_size e + total (cached (take_out cid e st c)).
Proof.
  intros Hc He. pose proof (total_delete (cached c) cid e He) as Ht. split; [|done].
  destruct (s_entries _ Hc cid e He) as (_ & _ & Hs & _). pose proof (sound_nonneg c Hc) as Hnn. destruct Hc as [H1 H2 H3 H4].
  assert (0 <= total (delete cid (cached c))).
  { apply total_nonneg. intros cid' e' [_ He']%lookup_delete_Some. destruct (H1 cid' e' He') as (_ & _ & ? & _). lia. }
  split; simpl; try done; [|unfold isize_max, as_u64 in *; rewrite Z.mod_small; lia|lia].
  intros cid' e' [Hne He']%lookup_delete_Some. destruct (H1 cid' e' He') as (? & ? & ? & ?). split_and!; try done; try lia.
  by apply elem_of_remove_first.
Qed.
Lemma take_out_within cid e st c : sound c → cached c !! cid = Some e → within c → within (take_out cid e st c).
Proof.
  intros Hc He [Ht Hn]. destruct (take_out_sound cid e st c Hc He) as [_ Hd]. destruct (s_entries _ Hc cid e He) as (_ & _ & Hs & _).
  unfold within in *. simpl in *. rewrite map_size_delete, He. simpl. split; [destruct Ht; [left|right]; lia|]. destruct (max_blocks c); lia.
Qed.

Lemma update_access_sound cid c : sound c → sound (update_access cid c)
  ∧ total (cached (update_access cid c)) = total (cached c) ∧ size (cached (update_access cid c)) = size (cached c).
Proof.
  intros Hc. unfold update_access. destruct (cached c !! cid) as [e|] eqn:He; [|done].
  assert (total (<[cid := mkCacheEntry (ce_block e) (ce_size e) (length (lru_list c))]> (cached c)) = total (cached c)) as Ht
    by by apply (total_update _ _ e).
  destruct Hc as [H1 H2 H3 H4]. split_and!; [|done|simpl; apply map_size_insert_Some; eauto].
  split; simpl; rewrite ?Ht; try done. intros cid' e'. rewrite lookup_insert_Some. intros [[<- <-]|[_ He']].
  - destruct (H1 _ _ He) as (? & ? & ? & ?). split_and!; simpl; try done; try lia. apply elem_of_app. auto.
  - destruct (H1 _ _ He') as (? & ? & ? & ?). split_and!; simpl; try done; try lia. apply elem_of_app. auto.
Qed.

(** ** Eviction *)
Lemma evict_lru_spec c : sound c → cached c ≠ ∅ →
  ∃ cid e st, evict_lru c = take_out cid e st c ∧ cached c !! cid = Some e
    ∧ ∀ cid' e', cached c !! cid' = Some e' → (last_access_index e <= last_access_index e')%nat.
Proof.
  intros Hc Hne. unfold evict_lru. apply map_choose in Hne as (cid0 & e0 & He0).
  destruct (s_entries _ Hc _ _ He0) as (_ & _ & _ & Hin). destruct (lru_list c) as [|x l]; [by apply elem_of_nil in Hin|].
  pose proof (min_by_key_spec (λ p : Cid * CacheEntry, last_access_index p.2) (hash_iter (cached c))) as Hm.
  destruct (min_by_key _ _) as [[cid e]|].
  - destruct Hm as [Hin' Hle]. exists cid, e. eexists. split; [done|]. split; [by apply elem_of_hash_iter|].
    intros cid' e' He'. by apply (Hle (cid', e')), elem_of_hash_iter.
  - apply elem_of_hash_iter in He0. rewrite Hm in He0. by apply elem_of_nil in He0.
Qed.

Lemma would_exceed_spec n c : sound c → 0 <= n <= isize_max →
  would_exceed_limits n c = true ↔
    max_size_bytes c < total (cached c) + n ∨ ∃ k, max_blocks c = Some k ∧ (k <= size (cached c))%nat.
Proof.
  intros Hc Hn. pose proof (sound_nonneg c Hc). destruct Hc as [_ Hs Ht _]. unfold would_exceed_limits. rewrite Hs.
  unfold as_u64, isize_max in *. rewrite Z.mod_small, orb_true_iff, Z.ltb_lt by lia. f_equiv.
  destruct (max_blocks c) as [k|]; [rewrite Nat.leb_le|]; naive_solver.
Qed.

(** What the loop that makes room keeps: the entries of [m] but those with the least indices, and no
    fewer than needed. *)
Record room (n max : Z) (mb : option nat) m kept : Prop := {
  rm_subset : kept ⊆ m;
  rm_order : ∀ cid e cid' e', m !! cid = Some e → kept !! cid = None → kept !! cid' = Some e' →
    (last_access_index e <= last_access_index e')%nat;
  rm_fits : kept = ∅ ∨ (total kept + n <= max ∧ ∀ k, mb = Some k → (size kept < k)%nat);
  rm_least : kept = m ∨ ∃ cid e, m !! cid = Some e ∧ kept !! cid = None
    ∧ (max < total kept + ce_size e + n ∨ ∃ k, mb = Some k ∧ (k <= S (size kept))%nat);
}.

Lemma room_none n c : sound c → 0 <= n <= isize_max → would_exceed_limits n c = false →
  room n (max_size_bytes c) (max_blocks c) (cached c) (cached c).
Proof.
  intros Hc Hn Hex. split; try done; [intros ? ? ? ?; congruence| |by left]. right.
  split; [|intros k Hk]; [apply Z.nlt_ge|apply Nat.nle_gt]; intros Hx; apply not_true_iff_false in Hex; apply Hex, would_exceed_spec; eauto.
Qed.

Lemma make_room_spec fuel n c : sound c → 0 <= n <= isize_max → (size (cached c) <= fuel)%nat →
  ∃ c', make_room fuel n c = Some c' ∧ sound c' ∧ max_size_bytes c' = max_size_bytes c ∧ max_blocks c' = max_blocks c
    ∧ room n (max_size_bytes c) (max_blocks c) (cached c) (cached c').
Proof.
  intros Hc Hn. revert c Hc. induction fuel as [|fuel IH]; intros c Hc Hfuel; cbn [make_room];
    pose proof (would_exceed_spec n c Hc Hn) as Hw; destruct (would_exceed_limits n c) eqn:Hex; cbn [andb].
  1, 3: destruct (decide (cached c = ∅)) as [He|He];
    [rewrite bool_decide_eq_true_2 by done; exists c; split_and!; try done; split; try done; [|by left|by left];
     intros ? ? ? ?; congruence|].
  - exfalso. apply He, map_size_empty_inv. lia.
  - rewrite bool_decide_eq_false_2 by done. cbn [negb].
    destruct (evict_lru_spec c Hc He) as (cid & e & st & -> & Hcid & Hmin).
    destruct (take_out_sound cid e st c Hc Hcid) as [Hc1 Ht1]. set (c1 := take_out cid e st c) in *.
    destruct (IH c1 Hc1) as (c' & Hrun & Hc' & Hmax & Hmb & Hroom).
    { unfold c1. simpl. rewrite map_size_delete, Hcid. simpl. lia. }
    assert (size (cached c) = S (size (cached c1))) as Hsz.
    { unfold c1. simpl. rewrite map_size_delete, Hcid. simpl. assert (size (cached c) ≠ 0%nat) by (by apply (map_size_ne_0_lookup_2 _ cid); eauto). lia. }
    exists c'. split_and!; try done. destruct Hroom as [R1 R2 R3 R4]. change (cached c1) with (delete cid (cached c)) in *.
    assert (cached c' !! cid = None) as Hgone.
    { destruct (cached c' !! cid) as [e'|] eqn:He'; [|done]. eapply lookup_weaken in He'; [|exact R1]. by rewrite lookup_delete_eq in He'. }
    split.
    + etrans; [exact R1|apply delete_subseteq].
    + intros cid1 e1 cid2 e2 H1 H2 H3. destruct (decide (cid1 = cid)) as [->|Hne].
      * rewrite Hcid in H1. injection H1 as <-. apply (Hmin cid2 e2). eapply lookup_weaken in H3; [|exact R1]. by apply lookup_delete_Some in H3 as [_ ?].
      * apply (R2 cid1 e1 cid2 e2); [|done|done]. by rewrite lookup_delete_ne.
    + done.
    + right. destruct R4 as [Heq|(cid1 & e1 & H1 & H2 & H3)].
      * exists cid, e. split_and!; [done|done|]. rewrite Heq. destruct (proj1 Hw eq_refl) as [Hlt|(k & Hk & Hle)]; [left; lia|].
        right. exists k. split; [done|]. lia.
      * exists cid1, e1. split_and!; try done. by apply lookup_delete_Some in H1 as [_ ?].
  - exists c. split_and!; try done. by apply room_none.
  - exists c. split_and!; try done. by apply room_none.
Qed.

(** ** Insertion *)
Lemma insert_fresh b c : sound c → within c → cached c !! b_cid b = None → block_size b <= isize_max →
  ∃ c' kept, insert b c = Some c' ∧ sound c' ∧ within c' ∧ max_size_bytes c' = max_size_bytes c ∧ max_blocks c' = max_blocks c
    ∧ (∃ i, cached c' = <[b_cid b := mkCacheEntry b (block_size b) i]> kept) ∧ kept !! b_cid b = None
    ∧ room (block_size b) (max_size_bytes c) (max_blocks c) (cached c) kept.
Proof.
  intros Hc Hw Hb Hs. assert (0 <= block_size b <= isize_max) as Hn by (unfold block_size in *; lia).
  unfold insert. rewrite Hb. change (Z.of_nat (block_len b)) with (block_size b).
  destruct (make_room_spec (size (cached c)) (block_size b) c Hc Hn) as (c1 & -> & Hc1 & Hmax & Hmb & Hroom); [done|].
  pose proof (sound_nonneg c1 Hc1) as Hnn. destruct Hc1 as [E1 S1 T1 M1]. rewrite Hmax, Hmb in *.
  assert (cached c1 !! b_cid b = None) as Hgone.
  { destruct (cached c1 !! b_cid b) eqn:He; [|done]. eapply lookup_weaken in He; [|apply Hroom]. congruence. }
  assert (total (cached c1) + block_size b <= isize_max) as Hle.
  { destruct (rm_fits _ _ _ _ _ Hroom) as [He|[Hf _]]; [|lia]. rewrite He. unfold total. rewrite map_fold_empty. lia. }
  eexists _, (cached c1). split; [done|]. split_and!; simpl; try done; [| |eauto].
  - split; simpl; rewrite ?total_insert by done; simpl; try lia.
    + intros cid e. rewrite lookup_insert_Some. intros [[<- <-]|[_ He]].
      * split_and!; simpl; try done; try lia. apply elem_of_app. right. by left.
      * destruct (E1 _ _ He) as (? & ? & ? & ?). split_and!; try done; try lia. apply elem_of_app. by left.
    + rewrite S1. unfold as_u64, isize_max in *. rewrite Z.mod_small; lia.
  - unfold within. simpl. rewrite total_insert, map_size_insert, Hgone by done. simpl. split.
    + destruct (rm_fits _ _ _ _ _ Hroom) as [He|[Hf _]]; [right|left; lia]. rewrite He, map_size_empty. lia.
    + destruct (max_blocks c) as [k|]; [|done].
      destruct (rm_fits _ _ _ _ _ Hroom) as [He|[_ Hf]]; [rewrite He, map_size_empty; lia|]. specialize (Hf k eq_refl). lia.
Qed.

(** ** Histories *)
Inductive cache_op : Type :=
| CInsert (b : Block)
| CGet (cid : Cid)
| CRemove (cid : Cid)
| CClear.
(** A block fits in memory. *)
Definition op_ok (o : cache_op) : Prop := match o with CInsert b => block_size b <= isize_max | _ => True end.

Definition exec (o : cache_op) c : option BlockCache :=
  match o with
  | CInsert b => insert b c
  | CGet cid => Some (BlockCache.get cid c).2
  | CRemove cid => Some (BlockCache.remove cid c).2
  | CClear => Some (BlockCache.clear c)
  end.
Definition runs (ops : list cache_op) c : option BlockCache := foldl (λ o op, o ≫= exec op) (Some c) ops.

Lemma with_stats_same st c : (sound c → sound (with_stats st c)) ∧ (within c → within (with_stats st c)).
Proof. split; [intros [? ? ? ?]; by split|done]. Qed.

(** One step: the invariants stay, and what is cached after it was cached before or is inserted. *)
Lemma cache_exec_ok o c : sound c → within c → op_ok o →
  ∃ c', exec o c = Some c' ∧ sound c' ∧ within c' ∧ max_size_bytes c' = max_size_bytes c ∧ max_blocks c' = max_blocks c
    ∧ ∀ cid e, cached c' !! cid = Some e → (∃ e0, cached c !! cid = Some e0 ∧ ce_block e0 = ce_block e) ∨ o = CInsert (ce_block e).
Proof.
  intros Hc Hw Ho.
  assert (∀ cid, let c' := update_access cid c in sound c' ∧ within c' ∧ max_size_bytes c' = max_size_bytes c ∧ max_blocks c' = max_blocks c
    ∧ ∀ cid' e, cached c' !! cid' = Some e → ∃ e0, cached c !! cid' = Some e0 ∧ ce_block e0 = ce_block e) as Hup.
  { intros cid c'. destruct (update_access_sound cid c Hc) as (Hs & Ht & Hsz). fold c' in Hs, Ht, Hsz.
    assert (max_size_bytes c' = max_size_bytes c ∧ max_blocks c' = max_blocks c) as [Hmax Hmb]
      by (unfold c', update_access; by destruct (cached c !! cid)).
    split_and!; try done; [by unfold within; rewrite Ht, Hsz, Hmax, Hmb|]. unfold c', update_access.
    destruct (cached c !! cid) as [e|] eqn:He; [|by eauto]. intros cid' e'. simpl.
    rewrite lookup_insert_Some. intros [[<- <-]|[_ He']]; eauto. }
  destruct o as [b|cid|cid|]; simpl in *.
  - destruct (cached c !! b_cid b) as [e|] eqn:He.
    + exists (update_access (b_cid b) c). unfold insert. rewrite He. destruct (Hup (b_cid b)) as (? & ? & ? & ? & Hin).
      split_and!; try done. intros cid' e' He'. left. by eapply Hin.
    + destruct (insert_fresh b c Hc Hw He Ho) as (c' & kept & Hrun & Hc' & Hw' & Hmax & Hmb & [i Heq] & _ & Hroom).
      exists c'. split_and!; try done. intros cid' e'. rewrite Heq, lookup_insert_Some. intros [[<- <-]|[_ He']]; [by right|].
      left. exists e'. split; [|done]. eapply lookup_weaken; [exact He'|apply Hroom].
  - eexists. split; [done|]. unfold BlockCache.get. destruct (cached c !! cid) as [e|] eqn:He; simpl.
    + match goal with |- context [with_stats ?st c] => set (st0 := st) end.
      assert (update_access cid (with_stats st0 c) = with_stats st0 (update_access cid c)) as ->.
      { unfold update_access. simpl. by rewrite He. }
      destruct (Hup cid) as (Hs & Hw' & ? & ? & Hin). split_and!; try done; [by apply (proj1 (with_stats_same _ _))|]. eauto.
    + split_and!; try done; [by apply (proj1 (with_stats_same _ _))|]. eauto.
  - eexists. split; [done|]. unfold BlockCache.remove. destruct (cached c !! cid) as [e|] eqn:He; simpl.
    + destruct (take_out_sound cid e (stats c) c Hc He) as [Hs _]. split_and!; try done; [by apply take_out_within|].
      intros cid' e' [_ He']%lookup_delete_Some. eauto.
    + split_and!; try done. eauto.
  - eexists. split; [done|]. pose proof (new_sound (max_size_bytes c) (max_blocks c) (s_max _ Hc)) as [Hs Hw']. unfold BlockCache.clear.
    destruct Hs. split_and!; try done; by split.
Qed.

Lemma runs_snoc ops o c : runs (ops ++ [o]) c = runs ops c ≫= exec o.
Proof. unfold runs. by rewrite foldl_app. Qed.

Lemma runs_ok n mb ops : 0 <= n <= isize_max → Forall op_ok ops →
  ∃ c, runs ops (BlockCache_new n mb) = Some c ∧ sound c ∧ within c ∧ max_size_bytes c = n ∧ max_blocks c = mb
    ∧ ∀ cid e, cached c !! cid = Some e → CInsert (ce_block e) ∈ ops.
Proof.
  intros Hn. induction ops as [|o ops IH] using rev_ind; intros Hok.
  - destruct (new_sound n mb Hn). eexists. split; [done|]. by split_and!.
  - apply Forall_app in Hok as [Hok [Ho _]%Forall_cons]. destruct (IH Hok) as (c & Hrun & Hc & Hw & Hmax & Hmb & Hin).
    destruct (cache_exec_ok o c Hc Hw Ho) as (c' & Hex & Hc' & Hw' & Hmax' & Hmb' & Hin').
    exists c'. rewrite runs_snoc, Hrun. simpl. split_and!; try done; try congruence.
    intros cid e He. apply elem_of_app. destruct (Hin' cid e He) as [(e0 & He0 & <-)| ->]; [left; by eapply Hin|right; by left].
Qed.
End facts.

(** ** Properties *)
Section properties.
Context `{CidCrate} `{!HashIter Cid}.
Implicit Types c : BlockCache.

(** C25. On every history of a cache each operation returns, the recorded size is the sum of the sizes of the
    blocks held, the limits hold except for a single block that is larger than the cache, and a
    block returned for a CID has that CID and was inserted. *)
Theorem cache_invariant n mb ops : 0 <= n <= isize_max → Forall op_ok ops →
  ∃ c, runs ops (BlockCache_new n mb) = Some c
    ∧ current_size c = map_fold (λ _ e s, block_size (ce_block e) + s) 0 (cached c)
    ∧ (current_size c <= n ∨ (len c <= 1)%nat) ∧ (∀ k, mb = Some k → (len c <= Nat.max 1 k)%nat)
    ∧ ∀ cid b, (BlockCache.get cid c).1 = Some b → b_cid b = cid ∧ CInsert b ∈ ops.
Proof.
  intros Hn Hok. destruct (runs_ok n mb ops Hn Hok) as (c & Hrun & Hc & [Ht Hk] & Hmax & Hmb & Hin). exists c.
  rewrite Hmax, Hmb, (s_size _ Hc) in *. split_and!; try done.
  - unfold total. assert (∀ cid e, cached c !! cid = Some e → ce_size e = block_size (ce_block e)) as Hsz
      by (intros cid e He; by destruct (s_entries _ Hc cid e He) as (_ & ? & _)).
    revert Hsz. generalize (cached c). induction g as [|cid e m Hm IH] using map_ind; intros Hsz; [by rewrite !map_fold_empty|].
    rewrite !map_fold_insert_L by (done || (intros; lia)). rewrite (Hsz cid e) by apply lookup_insert_eq. f_equal. apply IH.
    intros cid' e' He'. apply (Hsz cid' e'). rewrite lookup_insert_ne; [done|]. by intros ->; rewrite Hm in He'.
  - by intros k ->.
  - intros cid b. unfold BlockCache.get. destruct (cached c !! cid) as [e|] eqn:He; [|done]. intros [= <-].
    split; [by destruct (s_entries _ Hc cid e He)|by eapply Hin].
Qed.

(** Inserting a block that is not held, on every history: the block is held afterwards and the others
    held are those before less the evicted ones; these were recorded as accessed before all that
    stay, as few as the limits allow, and none when there is room. *)
Theorem cache_insert_exact n mb ops b : 0 <= n <= isize_max → Forall op_ok (ops ++ [CInsert b]) →
  ∃ c c' kept, runs ops (BlockCache_new n mb) = Some c ∧ insert b c = Some c' ∧
    (cached c !! b_cid b = None →
     (BlockCache.get (b_cid b) c').1 = Some b ∧ (∀ cid, cid ≠ b_cid b → cached c' !! cid = kept !! cid)
     ∧ kept ⊆ cached c
     ∧ (∀ cid e cid' e', cached c !! cid = Some e → kept !! cid = None → kept !! cid' = Some e' →
          (last_access_index e <= last_access_index e')%nat)
     ∧ (kept = ∅ ∨ (total kept + block_size b <= n ∧ ∀ k, mb = Some k → (size kept < k)%nat))
     ∧ (kept = cached c ∨ ∃ cid e, cached c !! cid = Some e ∧ kept !! cid = None
          ∧ (n < total kept + ce_size e + block_size b ∨ ∃ k, mb = Some k ∧ (k <= S (size kept))%nat))).
Proof.
  intros Hn [Hok [Ho _]%Forall_cons]%Forall_app. destruct (runs_ok n mb ops Hn Hok) as (c & Hrun & Hc & Hw & Hmax & Hmb & _).
  exists c. destruct (cache_exec_ok (CInsert b) c Hc Hw Ho) as (c' & Hex & _). simpl in Hex. exists c'.
  destruct (cached c !! b_cid b) as [e|] eqn:He; [by exists ∅|].
  destruct (insert_fresh b c Hc Hw He Ho) as (c'' & kept & Hi & _ & _ & _ & _ & [i Heq] & _ & [R1 R2 R3 R4]).
  rewrite Hi in Hex. injection Hex as ->. exists kept. rewrite Hmax, Hmb in *. split_and!; try done. intros _. split_and!; try done.
  - unfold BlockCache.get. by rewrite Heq, lookup_insert_eq.
  - intros cid Hne. by rewrite Heq, lookup_insert_ne.
Qed.
End properties.

(** ** The order of eviction is not the order of use *)
Section departures.
Import Reference.
Context `{!HashIter Cid}.

(** A block named by [n], of [size] bytes. *)
Definition blk (n : Z) (size : nat) : Block := mkBlock (new_v1 RAW (poly_digest Sha2_256 [n])) (replicate size 0).
Definition uses : list cache_op :=
  [CInsert (blk 1 1); CInsert (blk 2 1); CInsert (blk 3 1); CRemove (b_cid (blk 1 1)); CRemove (b_cid (blk 2 1)); CInsert (blk 4 1)].

(** A cache after [uses]: block 4 was inserted last, and has a lower index than block 3. *)
Definition used : BlockCache :=
  mkBlockCache (<[b_cid (blk 4 1) := mkCacheEntry (blk 4 1) 1 1]> {[b_cid (blk 3 1) := mkCacheEntry (blk 3 1) 1 2]})
    [b_cid (blk 3 1); b_cid (blk 4 1)] 10 None 2 CacheStats_default.
Lemma runs_uses : runs uses (BlockCache_new 10 None) = Some used.
Proof. reflexivity. Qed.

Lemma get_hit cid c e : cached c !! cid = Some e → ∃ st, (BlockCache.get cid c).2 =
  mkBlockCache (<[cid := mkCacheEntry (ce_block e) (ce_size e) (length (lru_list c))]> (cached c))
    (lru_list c ++ [cid]) (max_size_bytes c) (max_blocks c) (current_size c) st.
Proof.
  intros He. unfold BlockCache.get. rewrite He. cbn [snd]. unfold update_access.
  change (cached (with_stats ?st c)) with (cached c). rewrite He. by eexists.
Qed.

Lemma hits_grow k c cid : is_Some (cached c !! cid) →
  let c' := Nat.iter k (λ c, (BlockCache.get cid c).2) c in
  length (lru_list c') = (k + length (lru_list c))%nat ∧ size (cached c') = size (cached c) ∧ is_Some (cached c' !! cid).
Proof.
  intros Hc. induction k as [|k IH]; [done|]. cbv zeta in *. rewrite Nat.iter_succ.
  set (c1 := Nat.iter k _ c) in *. destruct IH as (IH & Hs & [e He]).
  destruct (get_hit cid c1 e He) as [st ->]. cbn [lru_list cached].
  rewrite length_app, IH, map_size_insert_Some, lookup_insert_eq by eauto. simpl. split_and!; [lia|done|eauto].
Qed.

(** Of two entries of one byte, room for nine out of ten is made by evicting the one with the lower index. *)
Lemma keeps_older k3 k4 e3 e4 kept : k3 ≠ k4 → ce_size e3 = 1 → ce_size e4 = 1 →
  (last_access_index e4 < last_access_index e3)%nat → room 9 10 None (<[k4 := e4]> {[k3 := e3]}) kept →
  is_Some (kept !! k3) ∧ kept !! k4 = None.
Proof.
  intros H34 S3 S4 Hidx [R1 R2 R3 R4]. set (m := <[k4 := e4]> {[k3 := e3]}) in *.
  assert (m !! k3 = Some e3) as M3 by (unfold m; by rewrite lookup_insert_ne, lookup_singleton_eq by done).
  assert (m !! k4 = Some e4) as M4 by (unfold m; by rewrite lookup_insert_eq).
  assert (total m = 2) as Ht.
  { unfold m. rewrite total_insert by by apply lookup_singleton_ne.
    rewrite <- insert_empty, total_insert by apply lookup_empty. unfold total. rewrite map_fold_empty. lia. }
  assert (∀ cid e, m !! cid = Some e → (cid = k4 ∧ e = e4) ∨ (cid = k3 ∧ e = e3)) as Hsub.
  { intros cid e. unfold m. rewrite lookup_insert_Some, lookup_singleton_Some. naive_solver. }
  clearbody m. assert (kept !! k4 = None) as H4.
  { destruct (kept !! k4) as [e|] eqn:He; [|done]. exfalso.
    assert (e = e4) as -> by (eapply lookup_weaken in He; [|exact R1]; congruence).
    destruct (kept !! k3) as [e'|] eqn:He'; [|specialize (R2 k3 e3 k4 e4 M3 He' He); lia].
    assert (kept = m) as ->.
    { apply map_eq. intros cid. destruct (m !! cid) as [x|] eqn:Hx.
      - destruct (Hsub cid x Hx) as [[-> ->]|[-> ->]]; [done|]. eapply lookup_weaken in He' as Hw; [|exact R1]. congruence.
      - destruct (kept !! cid) eqn:Hk; [|done]. eapply lookup_weaken in Hk; [|exact R1]. congruence. }
    destruct R3 as [->|[R3 _]]; [by rewrite lookup_empty in He|lia]. }
  split; [|done]. destruct (kept !! k3) as [e'|] eqn:He'; [eauto|]. exfalso.
  assert (kept = ∅) as ->.
  { apply map_empty. intros cid. destruct (kept !! cid) as [x|] eqn:Hx; [|done].
    eapply lookup_weaken in Hx as Hm; [|exact R1]. destruct (Hsub cid x Hm) as [[-> _]|[-> _]]; congruence. }
  destruct R4 as [<-|(cid & e & He & _ & R4)]; [by rewrite lookup_empty in M3|].
  assert (ce_size e = 1) as Hs by (by destruct (Hsub cid e He) as [[_ ->]|[_ ->]]).
  unfold total in R4. rewrite map_fold_empty in R4. destruct R4 as [R4|(? & ? & _)]; [lia|done].
Qed.

(** Eviction does not follow the order of use.  Whatever the order in which the map is iterated, a cache
    that holds two blocks and needs the room of one evicts the one inserted last and keeps the one
    not used since before; and the list of accesses of a cache that holds a block grows with every
    hit, without bound. *)
Theorem cache_evicts_newest :
  ∃ c, runs uses (BlockCache_new 10 None) = Some c ∧
    (∃ c', insert (blk 5 9) c = Some c' ∧ contains (b_cid (blk 3 1)) c' = true ∧ contains (b_cid (blk 4 1)) c' = false)
    ∧ ∀ k, ∃ c', runs (uses ++ replicate k (CGet (b_cid (blk 4 1)))) (BlockCache_new 10 None) = Some c'
        ∧ len c' = 2%nat ∧ length (lru_list c') = (k + 2)%nat.
Proof.
  assert (b_cid (blk 3 1) ≠ b_cid (blk 4 1)) as H34 by (apply (bool_decide_unpack (_ ≠ _)); by vm_compute).
  assert (cached used !! b_cid (blk 5 9) = None) as H5 by reflexivity.
  exists used. split; [apply runs_uses|]. split.
  - destruct (runs_ok 10 None uses) as (c0 & Hrun & Hc & Hw & _); [by vm_compute|by repeat constructor|].
    rewrite runs_uses in Hrun. injection Hrun as <-.
    destruct (insert_fresh (blk 5 9) used Hc Hw H5) as (c' & kept & Hi & _ & _ & _ & _ & [i Heq] & Hk5 & [R1 R2 R3 R4]); [by vm_compute|].
    exists c'. split; [done|]. unfold contains. rewrite Heq.
    assert (b_cid (blk 5 9) ≠ b_cid (blk 3 1)) as H53 by (apply (bool_decide_unpack (_ ≠ _)); by vm_compute).
    assert (b_cid (blk 5 9) ≠ b_cid (blk 4 1)) as H54 by (apply (bool_decide_unpack (_ ≠ _)); by vm_compute).
    rewrite !lookup_insert_ne by done.
    destruct (keeps_older (b_cid (blk 3 1)) (b_cid (blk 4 1)) (mkCacheEntry (blk 3 1) 1 2) (mkCacheEntry (blk 4 1) 1 1) kept) as [H3 H4];
      [done|done|done|simpl; lia|by split|].
    rewrite H4. split; [by apply bool_decide_eq_true_2|]. by apply bool_decide_eq_false_2; intros [? ?].
  - intros k. assert (is_Some (cached used !! b_cid (blk 4 1))) as H4 by (simpl; rewrite lookup_insert_eq; eauto).
    destruct (hits_grow k used (b_cid (blk 4 1)) H4) as (Hl & Hs & _).
    exists (Nat.iter k (λ c, (BlockCache.get (b_cid (blk 4 1)) c).2) used). split_and!.
    + unfold runs. rewrite foldl_app. fold (runs uses (BlockCache_new 10 None)). rewrite runs_uses. clear Hl Hs.
      induction k as [|k IH]; [done|]. replace (S k) with (k + 1)%nat by lia. rewrite replicate_add, foldl_app, IH. simpl.
      by rewrite Nat.add_1_r.
    + unfold len. rewrite Hs. simpl. rewrite map_size_insert, lookup_singleton_ne by done. by rewrite map_size_singleton.
    + by rewrite Hl.
Qed.
End departures.

(** ** Witnesses *)
Import Reference.
#[local] Existing Instance default_iter.

Lemma cache_invariant_witness :
  ∃ c, runs (uses ++ [CInsert (blk 5 9)]) (BlockCache_new 10 None) = Some c
    ∧ current_size c = map_fold (λ _ e s, block_size (ce_block e) + s) 0 (cached c)
    ∧ (current_size c <= 10 ∨ (len c <= 1)%nat) ∧ (∀ k, None = Some k → (len c <= Nat.max 1 k)%nat)
    ∧ ∀ cid b, (BlockCache.get cid c).1 = Some b → b_cid b = cid ∧ CInsert b ∈ uses ++ [CInsert (blk 5 9)].
Proof. apply cache_invariant; [by vm_compute|]. repeat constructor; by vm_compute. Defined.

Lemma cache_insert_exact_witness :
  ∃ c c' kept, runs uses (BlockCache_new 10 None) = Some c ∧ insert (blk 5 9) c = Some c' ∧
    (cached c !! b_cid (blk 5 9) = None →
     (BlockCache.get (b_cid (blk 5 9)) c').1 = Some (blk 5 9) ∧ (∀ cid, cid ≠ b_cid (blk 5 9) → cached c' !! cid = kept !! cid)
     ∧ kept ⊆ cached c
     ∧ (∀ cid e cid' e', cached c !! cid = Some e → kept !! cid = None → kept !! cid' = Some e' →
          (last_access_index e <= last_access_index e')%nat)
     ∧ (kept = ∅ ∨ (total kept + block_size (blk 5 9) <= 10 ∧ ∀ k, None = Some k → (size kept < k)%nat))
     ∧ (kept = cached c ∨ ∃ cid e, cached c !! cid = Some e ∧ kept !! cid = None
          ∧ (10 < total kept + ce_size e + block_size (blk 5 9) ∨ ∃ k, None = Some k ∧ (k <= S (size kept))%nat))).
Proof. apply (cache_insert_exact 10 None uses (blk 5 9)); [by vm_compute|]. repeat constructor; by vm_compute. Defined.
