(* ===== verification/FixpointEngine.v ===== *)
(** * Fixpoints of rules: [FixpointEngine] of [crates/ipfrs-tensorlogic/src/recursive_reasoning.rs]

    The engine adds the facts that rules derive from the facts there are, until nothing changes or its
    limit of iterations is reached.  Rule bodies are solved against facts and, backwards, against
    rules.  Fuel bounds the depth of recursion, as in [Reasoning]; the names of predicates, a
    [HashSet], are iterated in the order of [HashIter]. *)

From Stdlib Require Import ZArith Lia List.
From stdpp Require Import base tactics numbers list gmap sets strings pretty.
From S2P Require Import Prelude Collections Cid Ir Reasoning Recursive.

Section fixpoint_engine.
Context `{CidCrate} `{!HashIter string}.

(** The derived equality of terms compares the hints of references too. *)
#[global] Instance TermRef_eq_dec : EqDecision TermRef.
Proof. solve_decision. Defined.
#[global] Instance Term_eq_dec : EqDecision Term.
Proof.
  unfold EqDecision, Decision. fix IH 1. intros t u.
  destruct t as [v|c|f l|r], u as [v'|c'|f' l'|r']; try (right; congruence).
  - destruct (decide (v = v')); [left|right]; congruence.
  - destruct (decide (c = c')); [left|right]; congruence.
  - destruct (decide (f = f')); [|right; congruence].
    assert ({l = l'} + {l ≠ l'}) as [|]; [|left; congruence|right; congruence].
    clear -IH. revert l'. induction l as [|a l IHl]; intros [|a' l']; [by left|by right|by right|].
    destruct (IH a a'); [|right; congruence]. destruct (IHl l'); [left|right]; congruence.
  - destruct (decide (r = r')); [left|right]; congruence.
Defined.
#[global] Instance Predicate_eq_dec : EqDecision Predicate.
Proof. solve_decision. Defined.

Record FixpointEngine : Type := mkFixpointEngine { max_iterations : nat }.
Definition FixpointEngine_new : FixpointEngine := mkFixpointEngine 100.
Definition FixpointEngine_with_max_iterations (n : nat) : FixpointEngine := mkFixpointEngine n.

(** Only the arguments themselves are looked at, not the terms inside them. *)
Definition has_variables (pred : Predicate) : bool := existsb is_var (args pred).

(** [format!("{}__fp{}", v, suffix)]. *)
Definition fp_var (suffix : nat) (v : string) : string := v +:+ "__fp" +:+ pretty suffix.
Definition rename_rule_fixpoint (rule : Rule) (suffix : nat) : Rule :=
  let s : Substitution := list_to_map (map (λ v, (v, Var (fp_var suffix v))) (rule_variables rule)) in
  mkRule (apply_subst_predicate (head rule) s) (map (λ p, apply_subst_predicate p s) (body rule)).

Section solve.
Context (e : FixpointEngine) (fuel_unify : nat) (kb : KnowledgeBase).
Notation Solutions := (list Substitution).

(** The two loops of [solve_body]; [solve] is the recursive call at the next depth. *)
Fixpoint body_facts (solve : list Predicate → Substitution → outcome Error Solutions) (goal : Predicate)
    (rest : list Predicate) (subst : Substitution) (facts : list Predicate) (all_solutions : Solutions) :
    outcome Error Solutions :=
  match facts with
  | [] => Ok all_solutions
  | fact :: facts' =>
    let! r := unify_predicates fuel_unify goal fact subst in
    match r with
    | Some new_subst =>
      let! tail_solutions := solve rest new_subst in
      body_facts solve goal rest subst facts' (all_solutions ++ tail_solutions)
    | None => body_facts solve goal rest subst facts' all_solutions
    end
  end.
Fixpoint body_rules (solve : list Predicate → Substitution → outcome Error Solutions) (goal : Predicate)
    (rest : list Predicate) (subst : Substitution) (depth : nat) (rules : list Rule) (all_solutions : Solutions) :
    outcome Error Solutions :=
  match rules with
  | [] => Ok all_solutions
  | rule :: rules' =>
    let suffix := depth * 1000 + length all_solutions in
    let renamed := rename_rule_fixpoint rule suffix in
    let! r := unify_predicates fuel_unify goal (head renamed) subst in
    match r with
    | Some new_subst =>
      let! tail_solutions := solve (body renamed ++ rest) new_subst in
      body_rules solve goal rest subst depth rules' (all_solutions ++ tail_solutions)
    | None => body_rules solve goal rest subst depth rules' all_solutions
    end
  end.

Fixpoint solve_body (fuel : nat) (goals : list Predicate) (subst : Substitution) (depth : nat) :
    outcome Error Solutions :=
  if max_iterations e <? depth then Ok [] else
  match goals with
  | [] => Ok [subst]
  | goal :: rest =>
    match fuel with
    | O => OutOfFuel
    | S fuel' =>
      let current_goal := apply_subst_predicate goal subst in
      let solve goals subst := solve_body fuel' goals subst (S depth) in
      let! all_solutions := body_facts solve current_goal rest subst (get_predicates (name current_goal) kb) [] in
      body_rules solve current_goal rest subst depth (get_rules (name current_goal) kb) all_solutions
    end
  end.

Definition derive_facts_from_rule (fuel : nat) (rule : Rule) : outcome Error (list Predicate) :=
  let! body_solutions := solve_body fuel (body rule) ∅ 0 in
  Ok (filter (λ p, has_variables p = false) (map (apply_subst_predicate (head rule)) body_solutions)).

(** One pass over the rules of each predicate, with [new_facts] and [changed]. *)
Definition keep_new (derived : list Predicate) (acc : list Predicate * bool) : list Predicate * bool :=
  foldl (λ '(new_facts, changed) fact,
    if decide (fact ∈ facts kb) then (new_facts, changed) else (new_facts ++ [fact], true)) acc derived.
Fixpoint derive_rules (fuel : nat) (rules : list Rule) (acc : list Predicate * bool) :
    outcome Error (list Predicate * bool) :=
  match rules with
  | [] => Ok acc
  | rule :: rules' => let! derived := derive_facts_from_rule fuel rule in derive_rules fuel rules' (keep_new derived acc)
  end.
Fixpoint derive_names (fuel : nat) (names : list string) (acc : list Predicate * bool) :
    outcome Error (list Predicate * bool) :=
  match names with
  | [] => Ok acc
  | n :: names' => let! acc := derive_rules fuel (get_rules n kb) acc in derive_names fuel names' acc
  end.
End solve.

(** [n]: the iterations left. *)
Fixpoint fixpoint_loop (e : FixpointEngine) (fuel_unify fuel n : nat) (kb : KnowledgeBase) : outcome Error KnowledgeBase :=
  match n with
  | O => Ok kb
  | S n' =>
    let predicate_names := set_iter (list_to_set (map (λ r, name (head r)) (rules kb))) in
    let! (new_facts, changed) := derive_names e fuel_unify kb fuel predicate_names ([], false) in
    let kb := foldl (λ kb fact, add_fact fact kb) kb new_facts in
    if negb changed then Ok kb else fixpoint_loop e fuel_unify fuel n' kb
  end.
Definition compute_fixpoint (e : FixpointEngine) (fuel_unify fuel : nat) (kb : KnowledgeBase) : outcome Error KnowledgeBase :=
  fixpoint_loop e fuel_unify fuel (max_iterations e) kb.
End fixpoint_engine.
