(* ===== verification/FixpointFacts.v ===== *)
(** * Fixpoints of rules: complete on Datalog programs, and not sound

    On programs without function symbols, with ground facts and rules that bind the variables of
    their heads, the engine finds every fact with a derivation up to its limit of iterations.  It
    also finds facts without one. *)

From Stdlib Require Import ZArith Lia List.
From stdpp Require Import base tactics numbers list gmap sets strings pretty.
From S2P Require Import Prelude Collections Cid Ir Reasoning UnifyFacts ReasoningFacts ReasoningLimits Recursive RecursiveFacts FixpointEngine.

Section facts.
Context `{CidCrate}.
Implicit Types (t u : Term) (s th : Substitution) (p q g : Predicate) (r : Rule) (kb : KnowledgeBase).

(** ** Terms without function symbols *)
Definition flat t : bool := match t with Fun _ _ => false | _ => true end.
Definition flat_pred p : bool := forallb flat (args p).
Definition flat_range s : Prop := ∀ v t, s !! v = Some t → flat t = true.

Lemma flat_pred_In p : flat_pred p = true ↔ ∀ t, t ∈ args p → flat t = true.
Proof. unfold flat_pred. rewrite forallb_forall. by setoid_rewrite list_elem_of_In. Qed.
Lemma flat_apply t s : flat t = true → flat_range s → flat (apply_subst_term t s) = true.
Proof. intros Ht Hs. destruct t; try done. simpl. destruct (s !! v) eqn:Hv; [by eapply Hs|done]. Qed.
Lemma flat_apply_pred p s : flat_pred p = true → flat_range s → flat_pred (apply_subst_predicate p s) = true.
Proof.
  rewrite !flat_pred_In. intros Hp Hs t (u & <- & Hu)%elem_of_list_map. apply flat_apply; auto.
Qed.
Lemma flat_range_empty : flat_range ∅.
Proof. intros v t. by rewrite lookup_empty. Qed.
Lemma flat_range_insert v t s : flat t = true → flat_range s → flat_range (<[v := t]> s).
Proof. intros Ht Hs w u. rewrite lookup_insert_Some. intros [[_ <-]|[_ ?]]; [done|by eapply Hs]. Qed.

(** A flat term that is no variable is ground. *)
Lemma flat_ground t : flat t = true → is_var t = false → is_ground t = true.
Proof. by destruct t. Qed.
Lemma ground_no_variables p : flat_pred p = true → has_variables p = false ↔ pred_is_ground p = true.
Proof.
  rewrite flat_pred_In. intros Hp. unfold has_variables, pred_is_ground. rewrite forallb_ground, <- not_true_iff_false, existsb_exists. split.
  - intros Hno t Ht. apply flat_ground; [auto|]. apply not_true_iff_false. intros Hv. apply Hno. exists t. by rewrite <- list_elem_of_In.
  - intros Hg (t & Ht%list_elem_of_In & Hv). specialize (Hg t Ht). by destruct t.
Qed.

(** ** Unification of flat terms answers *)
Lemma unify_flat fu t u s : flat t = true → flat u = true → flat_range s →
  ∃ res, unify (S fu) t u s = Ok res ∧ ∀ s', res = Some s' → flat_range s'.
Proof.
  intros Ht Hu Hs. simpl. pose proof (flat_apply t s Ht Hs) as Ft. pose proof (flat_apply u s Hu Hs) as Fu.
  assert (∀ v w, flat w = true → ∀ s', bind_var v w s = Some s' → flat_range s') as Hbind.
  { intros v w Hw s'. unfold bind_var. destruct w; repeat case_match; intros; simplify_eq; try done; by apply flat_range_insert. }
  destruct (apply_subst_term t s), (apply_subst_term u s); try done; repeat case_decide;
    (eexists; split; [reflexivity|]; intros s' Heq; try discriminate).
  all: first [injection Heq as <-; first [exact Hs | by apply flat_range_insert] | by refine (Hbind _ _ _ s' Heq)].
Qed.
Lemma unify_args_flat fu l1 l2 s : forallb flat l1 = true → forallb flat l2 = true → flat_range s →
  ∃ res, unify_args (unify (S fu)) l1 l2 s = Ok res ∧ ∀ s', res = Some s' → flat_range s'.
Proof.
  revert l2 s. induction l1 as [|t l1 IH]; intros [|u l2] s H1 H2 Hs; cbn [unify_args]; try (eexists; split; [done|]; by intros s' [= <-]).
  simpl in H1, H2. apply andb_true_iff in H1 as [Ht H1], H2 as [Hu H2].
  destruct (unify_flat fu t u s Ht Hu Hs) as ([s1|] & -> & Hs1); cbn [outcome_bind].
  - apply IH; [done|done|by apply Hs1].
  - eexists. split; [done|]. done.
Qed.
Lemma unify_predicates_flat fu p q s : flat_pred p = true → flat_pred q = true → flat_range s →
  ∃ res, unify_predicates (S fu) p q s = Ok res ∧ ∀ s', res = Some s' → flat_range s'.
Proof.
  intros Hp Hq Hs. unfold unify_predicates. case_decide; [by apply unify_args_flat|]. eexists. split; [done|]. done.
Qed.

(** ** Datalog programs *)
Record datalog kb : Prop := {
  dl_facts : ∀ f, f ∈ facts kb → flat_pred f = true ∧ pred_is_ground f = true;
  dl_rules : ∀ r b, r ∈ rules kb → b ∈ head r :: body r → flat_pred b = true;
  dl_safe : ∀ r v, r ∈ rules kb → v ∈ pred_vars (head r) → ∃ b, b ∈ body r ∧ v ∈ pred_vars b;
}.

Lemma rename_flat r n : (∀ b, b ∈ head r :: body r → flat_pred b = true) →
  ∀ b, b ∈ head (rename_rule_fixpoint r n) :: body (rename_rule_fixpoint r n) → flat_pred b = true.
Proof.
  intros Hr. unfold rename_rule_fixpoint. set (s := list_to_map _). simpl.
  assert (flat_range s) as Hs.
  { unfold s. generalize (rule_variables r). induction l as [|v l IH]; [apply flat_range_empty|].
    simpl. by apply flat_range_insert. }
  intros b [->|(b' & <- & Hb)%elem_of_list_map]%elem_of_cons; apply flat_apply_pred; try done; apply Hr; by (left || right).
Qed.

Section solve.
Context (e : FixpointEngine) (fu : nat) (kb : KnowledgeBase) (Hkb : datalog kb).
Notation flat_goals goals := (∀ b, b ∈ goals → flat_pred b = true).

(** ** Solving a body ends *)
Definition solves_flat (o : outcome Error (list Substitution)) : Prop := ∃ sols, o = Ok sols ∧ Forall flat_range sols.
Lemma body_facts_total solve goal rest s fs acc :
  (∀ s', flat_range s' → solves_flat (solve rest s')) → flat_pred goal = true → flat_range s →
  (∀ f, f ∈ fs → flat_pred f = true) → Forall flat_range acc → solves_flat (body_facts (S fu) solve goal rest s fs acc).
Proof.
  intros Hsolve Hg Hs. revert acc. induction fs as [|f fs IH]; intros acc Hfs Hacc; cbn [body_facts]; [by exists acc|].
  destruct (unify_predicates_flat fu goal f s) as ([s'|] & -> & Hs'); [done|apply Hfs; by left|done|..]; cbn [outcome_bind].
  - destruct (Hsolve s' (Hs' _ eq_refl)) as (tail & -> & Htail). apply IH; [|by apply Forall_app]. intros; apply Hfs; by right.
  - apply IH; [|done]. intros; apply Hfs; by right.
Qed.
Lemma body_rules_total solve goal rest s d rs acc :
  (∀ goals s', flat_goals goals → flat_range s' → solves_flat (solve goals s')) → flat_pred goal = true → flat_goals rest →
  flat_range s → (∀ r, r ∈ rs → r ∈ rules kb) → Forall flat_range acc →
  solves_flat (body_rules (S fu) solve goal rest s d rs acc).
Proof.
  intros Hsolve Hg Hrest Hs. revert acc. induction rs as [|r rs IH]; intros acc Hrs Hacc; cbn [body_rules]; [by exists acc|].
  pose proof (rename_flat r (d * 1000 + length acc) (λ b, dl_rules _ Hkb r b (Hrs r ltac:(by left)))) as Hren.
  destruct (unify_predicates_flat fu goal (head (rename_rule_fixpoint r (d * 1000 + length acc))) s) as ([s'|] & -> & Hs');
    [done|apply Hren; by left|done|..]; cbn [outcome_bind].
  - destruct (Hsolve (body (rename_rule_fixpoint r (d * 1000 + length acc)) ++ rest) s') as (tail & -> & Htail); [|by apply Hs'|].
    + intros b [Hb|Hb]%elem_of_app; [apply Hren; by right|by apply Hrest].
    + apply IH; [|by apply Forall_app]. intros; apply Hrs; by right.
  - apply IH; [|done]. intros; apply Hrs; by right.
Qed.
Lemma solve_body_total fuel goals s d : max_iterations e + 1 - d ≤ fuel → flat_goals goals → flat_range s →
  solves_flat (solve_body e (S fu) kb fuel goals s d).
Proof.
  assert (∀ s, flat_range s → solves_flat (Ok [s])) as Hone by (intros; eexists; split; [done|]; by repeat constructor).
  assert (solves_flat (Ok [])) as Hnone by (eexists; split; [done|constructor]).
  revert goals s d. induction fuel as [|fuel IH]; intros goals s d Hfuel Hg Hs; cbn [solve_body];
    destruct (Nat.ltb_spec (max_iterations e) d); try done; [lia|].
  destruct goals as [|goal rest]; [auto|]. cbv zeta. set (g := apply_subst_predicate goal s).
  assert (flat_pred g = true) as Hgf by (apply flat_apply_pred; [apply Hg; by left|done]).
  assert (∀ goals s', flat_goals goals → flat_range s' → solves_flat (solve_body e (S fu) kb fuel goals s' (S d))) as Hsolve
    by (intros; apply IH; [lia|done|done]).
  destruct (body_facts_total (λ goals s, solve_body e (S fu) kb fuel goals s (S d)) g rest s (get_predicates (name g) kb) []) as (sols & -> & Hsols);
    [intros; apply Hsolve; [intros; apply Hg; by right|done]|done|done|by intros f [Hf _]%get_predicates_spec; apply (dl_facts _ Hkb)|done|].
  cbn [outcome_bind]. apply body_rules_total; [done|done|intros; apply Hg; by right|done|by intros r [Hr _]%get_rules_spec|done].
Qed.

(** ** What is solved from the facts alone is among the solutions *)
Lemma body_rules_mono solve goal rest s d rs acc sols :
  body_rules (S fu) solve goal rest s d rs acc = Ok sols → acc ⊆ sols.
Proof.
  revert acc. induction rs as [|r rs IH]; intros acc; cbn [body_rules]; [by intros [= ->]|].
  intros (res & _ & Hrest)%outcome_bind_Ok. destruct res as [s'|]; [|by apply IH].
  apply outcome_bind_Ok in Hrest as (tail & _ & Hrest%IH). set_solver.
Qed.
Lemma body_facts_mono solve goal rest s fs acc sols :
  body_facts (S fu) solve goal rest s fs acc = Ok sols → acc ⊆ sols.
Proof.
  revert acc. induction fs as [|f fs IH]; intros acc; cbn [body_facts]; [by intros [= ->]|].
  intros (res & _ & Hrest)%outcome_bind_Ok. destruct res as [s'|]; [|by apply IH].
  apply outcome_bind_Ok in Hrest as (tail & _ & Hrest%IH). set_solver.
Qed.
Lemma body_facts_in solve goal rest s fs acc sols f s' tail :
  body_facts (S fu) solve goal rest s fs acc = Ok sols → f ∈ fs → unify_predicates (S fu) goal f s = Ok (Some s') →
  solve rest s' = Ok tail → tail ⊆ sols.
Proof.
  intros Hrun Hf Hun Htail. revert acc Hrun. induction fs as [|f' fs IH]; intros acc; cbn [body_facts]; [by apply elem_of_nil in Hf|].
  apply elem_of_cons in Hf as [<-|Hf].
  - rewrite Hun. cbn [outcome_bind]. rewrite Htail. cbn [outcome_bind]. intros Hr%body_facts_mono. set_solver.
  - intros (res & _ & Hrest)%outcome_bind_Ok. destruct res as [s2|]; [|by eapply IH].
    apply outcome_bind_Ok in Hrest as (tail2 & _ & Hrest). by eapply IH.
Qed.

Definition instance_of_fact th b : Prop := ∃ f, f ∈ facts kb ∧ strip_pred (apply_subst_predicate b th) = strip_pred f.

Lemma solve_body_complete fuel goals s d th sols :
  max_iterations e + 1 - d ≤ fuel → flat_goals goals → flat_range s → ground_range s → extends s th →
  d + length goals ≤ max_iterations e → (∀ b, b ∈ goals → instance_of_fact th b) →
  solve_body e (S fu) kb fuel goals s d = Ok sols →
  ∃ s', s' ∈ sols ∧ ground_range s' ∧ flat_range s' ∧ s ⊆ s' ∧ extends s' th
    ∧ ∀ b v, b ∈ goals → v ∈ pred_vars b → is_Some (s' !! v).
Proof.
  revert goals s d sols. induction fuel as [|fuel IH]; intros goals s d sols Hfuel Hg Hfl Hs Hext Hlen Hin; cbn [solve_body];
    destruct (Nat.ltb_spec (max_iterations e) d); try lia.
  destruct goals as [|goal rest].
  { intros [= <-]. exists s. split_and!; try done; [by left|]. by intros b v ?%elem_of_nil. }
  cbv zeta. set (g := apply_subst_predicate goal s). intros (fsols & Hfacts & Hrules)%outcome_bind_Ok.
  apply body_rules_mono in Hrules.
  destruct (Hin goal) as (f & Hf & Heq); [by left|]. destruct (dl_facts _ Hkb f Hf) as [Ffl Fgr].
  assert (name goal = name f) as Hname by (by apply (f_equal name) in Heq).
  destruct (unify_predicates_matches (S fu) g f s) as (res & Hun & Hm); [done|done| |done|].
  { apply args_depth_le. intros t Ht. rewrite flat_pred_In in Ffl. specialize (Ffl t Ht). destruct t; simpl; try lia. done. }
  apply (matches_apply (args goal)) in Hm; [|done]. apply strip_pred_matches in Heq; [|done].
  destruct res as [s1|]; [|by destruct (Hm th Hext)].
  destruct Hm as (Hg1 & Hsub & _ & He1 & Hleast). specialize (Hleast th Hext Heq).
  assert (flat_range s1) as Hfl1.
  { destruct (unify_predicates_flat fu g f s) as (res & Hun' & Hr); [apply flat_apply_pred; [apply Hg; by left|done]|done|done|].
    rewrite Hun in Hun'. injection Hun' as <-. by apply Hr. }
  destruct (solve_body_total fuel rest s1 (S d)) as (tail & Htail & _); [lia|intros; apply Hg; by right|done|].
  destruct (IH rest s1 (S d) tail) as (s' & Hs' & Hgr & Hfr & Hsub' & Hext' & Hvars);
    [lia|intros; apply Hg; by right|done|done|done|simpl in Hlen; lia|intros; apply Hin; by right|done|].
  assert (tail ⊆ fsols) as Htl.
  { eapply (body_facts_in (λ goals s, solve_body e (S fu) kb fuel goals s (S d))); [exact Hfacts| |exact Hun|exact Htail].
    by apply get_predicates_spec. }
  exists s'. split_and!; try done; [by apply Hrules, Htl|by etrans|].
  intros b v [->|Hb]%elem_of_cons Hv; [|by eapply Hvars].
  assert (is_Some (s1 !! v)) as [t Ht]; [|exists t; by eapply lookup_weaken].
  apply elem_of_args_vars in Hv as (t & Ht & Hv).
  assert (strip (apply_subst_term t s1) ∈ map strip (args f)) as (u & Hu & Huf)%elem_of_list_map.
  { rewrite <- He1. apply elem_of_list_map. by exists t. }
  assert (is_ground (apply_subst_term t s1) = true) as Hgt.
  { rewrite <- (strip_ground _ _ Hu). unfold pred_is_ground in Fgr. rewrite forallb_ground in Fgr. auto. }
  pose proof (proj1 (ground_apply_iff _ _) Hgt v Hv) as Hgv. simpl in Hgv. destruct (s1 !! v); [eauto|done].
Qed.

(** ** One rule *)
Lemma derive_total fuel r : max_iterations e + 1 ≤ fuel → r ∈ rules kb →
  ∃ ds, derive_facts_from_rule e (S fu) kb fuel r = Ok ds ∧ ∀ f, f ∈ ds → flat_pred f = true ∧ pred_is_ground f = true.
Proof.
  intros Hfuel Hr. unfold derive_facts_from_rule.
  destruct (solve_body_total fuel (body r) ∅ 0) as (sols & -> & Hsols); [lia| |apply flat_range_empty|].
  { intros b Hb. apply (dl_rules _ Hkb r); [done|by right]. }
  eexists. split; [done|]. intros f [Hno (s & <- & Hs)%elem_of_list_map]%list_elem_of_filter. rewrite Forall_forall in Hsols.
  assert (flat_pred (apply_subst_predicate (head r) s) = true) as Hff
    by (apply flat_apply_pred; [apply (dl_rules _ Hkb r); [done|by left]|by apply Hsols]).
  split; [done|]. by apply ground_no_variables.
Qed.

Lemma derive_complete fuel r th ds : max_iterations e + 1 ≤ fuel → r ∈ rules kb → length (body r) ≤ max_iterations e →
  (∀ b, b ∈ body r → instance_of_fact th b) → derive_facts_from_rule e (S fu) kb fuel r = Ok ds →
  ∃ f, f ∈ ds ∧ strip_pred f = strip_pred (apply_subst_predicate (head r) th).
Proof.
  intros Hfuel Hr Hlen Hin. unfold derive_facts_from_rule. intros (sols & Hsols & [= <-])%outcome_bind_Ok.
  destruct (solve_body_complete fuel (body r) ∅ 0 th sols) as (s' & Hs' & Hgr & Hfr & _ & Hext & Hvars); try done; try lia.
  - intros b Hb. apply (dl_rules _ Hkb r); [done|by right].
  - assert (∀ v, v ∈ pred_vars (head r) → is_Some (s' !! v)) as Hhead.
    { intros v (b & Hb & Hv)%(dl_safe _ Hkb r v Hr). by eapply Hvars. }
    exists (apply_subst_predicate (head r) s'). split.
    + apply list_elem_of_filter. split; [|apply elem_of_list_map; by exists s'].
      apply ground_no_variables; [apply flat_apply_pred; [apply (dl_rules _ Hkb r); [done|by left]|done]|].
      rewrite as_term_ground, as_term_apply. apply ground_apply_iff. intros v Hv.
      destruct (Hhead v Hv) as [t Ht]. simpl. rewrite Ht. by eapply Hgr.
    + apply as_term_strip. rewrite !as_term_apply. apply strip_apply_iff. intros v Hv.
      destruct (Hhead v Hv) as [t Ht]. destruct (Hext v t Ht) as (t' & Ht' & Heq). simpl. rewrite Ht, Ht'. by simpl.
Qed.

End solve.

(** ** One iteration *)
Section iteration.
Context `{!HashIter string} (e : FixpointEngine) (fu fuel : nat) (Hfuel : max_iterations e + 1 ≤ fuel).

Definition good p : Prop := flat_pred p = true ∧ pred_is_ground p = true.
(** [changed] says that there are new facts, which are ground. *)
Definition acc_ok (acc : list Predicate * bool) : Prop := (acc.2 = false → acc.1 = []) ∧ Forall good acc.1.

Lemma keep_new_spec kb ds acc : acc_ok acc → Forall good ds →
  let acc' := keep_new kb ds acc in
  acc_ok acc' ∧ acc.1 ⊆ acc'.1 ∧ (acc'.2 = false → acc.2 = false) ∧ ∀ f, f ∈ ds → f ∈ facts kb ∨ f ∈ acc'.1.
Proof.
  unfold keep_new. revert acc. induction ds as [|f ds IH]; intros [new changed] Hacc Hds; simpl.
  { split_and!; try done. by intros f ?%elem_of_nil. }
  apply Forall_cons in Hds as [Hf Hds]. destruct (decide (f ∈ facts kb)) as [Hin|Hnin].
  - destruct (IH (new, changed) Hacc Hds) as (? & ? & ? & Hall). split_and!; try done.
    intros f' [->|Hf']%elem_of_cons; [by left|by apply Hall].
  - destruct (IH (new ++ [f], true)) as (? & Hsub & Hch & Hall); [|done|].
    { split; [done|]. simpl. apply Forall_app. split; [apply Hacc|by apply Forall_singleton]. }
    simpl in *. split_and!; [done|set_solver|intros Hc; by specialize (Hch Hc)|].
    intros f' [->|Hf']%elem_of_cons; [right; apply Hsub; set_solver|by apply Hall].
Qed.

Lemma derive_rules_spec kb rs acc : datalog kb → (∀ r, r ∈ rs → r ∈ rules kb) → acc_ok acc →
  ∃ acc', derive_rules e (S fu) kb fuel rs acc = Ok acc' ∧ acc_ok acc' ∧ acc.1 ⊆ acc'.1 ∧ (acc'.2 = false → acc.2 = false)
    ∧ ∀ r ds f, r ∈ rs → derive_facts_from_rule e (S fu) kb fuel r = Ok ds → f ∈ ds → f ∈ facts kb ∨ f ∈ acc'.1.
Proof.
  intros Hkb. revert acc. induction rs as [|r rs IH]; intros acc Hrs Hacc; cbn [derive_rules].
  { exists acc. split_and!; try done. by intros r ds f ?%elem_of_nil. }
  destruct (derive_total e fu kb Hkb fuel r Hfuel) as (ds & Hds & Hgood); [apply Hrs; by left|]. rewrite Hds. cbn [outcome_bind].
  destruct (keep_new_spec kb ds acc Hacc) as (Hacc1 & Hsub1 & Hch1 & Hall1); [by apply Forall_forall|].
  destruct (IH (keep_new kb ds acc)) as (acc' & -> & Hacc' & Hsub' & Hch' & Hall'); [intros; apply Hrs; by right|done|].
  exists acc'. split_and!; [done|done|by etrans|auto|].
  intros r' ds' f [->|Hr']%elem_of_cons Hd Hf; [|by eapply Hall'].
  rewrite Hds in Hd. injection Hd as <-. destruct (Hall1 f Hf) as [|Hin]; [by left|right; by apply Hsub'].
Qed.

Lemma derive_names_spec kb ns acc : datalog kb → acc_ok acc →
  ∃ acc', derive_names e (S fu) kb fuel ns acc = Ok acc' ∧ acc_ok acc' ∧ acc.1 ⊆ acc'.1 ∧ (acc'.2 = false → acc.2 = false)
    ∧ ∀ r ds f, r ∈ rules kb → name (head r) ∈ ns → derive_facts_from_rule e (S fu) kb fuel r = Ok ds → f ∈ ds →
        f ∈ facts kb ∨ f ∈ acc'.1.
Proof.
  intros Hkb. revert acc. induction ns as [|n ns IH]; intros acc Hacc; cbn [derive_names].
  { exists acc. split_and!; try done. by intros r ds f _ ?%elem_of_nil. }
  destruct (derive_rules_spec kb (get_rules n kb) acc Hkb) as (acc1 & -> & Hacc1 & Hsub1 & Hch1 & Hall1);
    [by intros r [Hr _]%get_rules_spec|done|]. cbn [outcome_bind].
  destruct (IH acc1 Hacc1) as (acc' & -> & Hacc' & Hsub' & Hch' & Hall'). exists acc'. split_and!; [done|done|by etrans|auto|].
  intros r ds f Hr [Hn|Hn]%elem_of_cons Hd Hf; [|by eapply Hall'].
  destruct (Hall1 r ds f) as [|Hin]; [by apply get_rules_spec|done|done|by left|right; by apply Hsub'].
Qed.

Lemma add_facts_spec fs kb :
  let kb' := foldl (λ kb f, add_fact f kb) kb fs in facts kb' = facts kb ++ fs ∧ rules kb' = rules kb.
Proof.
  revert kb. induction fs as [|f fs IH]; intros kb; simpl; [by rewrite app_nil_r|].
  destruct (IH (add_fact f kb)) as [-> ->]. simpl. by rewrite <- app_assoc.
Qed.
Lemma datalog_more kb fs : datalog kb → Forall good fs → datalog (mkKB (facts kb ++ fs) (rules kb)).
Proof.
  intros [H1 H2 H3] Hfs. rewrite Forall_forall in Hfs. split; simpl; [|done|done].
  intros f [Hf|Hf]%elem_of_app; [by apply H1|by apply Hfs].
Qed.

(** ** The loop *)
Definition holds kb0 kb (n : nat) : Prop := ∀ g, derives kb0 n g → ∃ f, f ∈ facts kb ∧ strip_pred f = strip_pred g.
(** What one application of a rule to the facts gives is there. *)
Definition applied kb kb' : Prop := ∀ r th, r ∈ rules kb → (∀ b, b ∈ body r → instance_of_fact kb th b) →
  ∃ f, f ∈ facts kb' ∧ strip_pred f = strip_pred (apply_subst_predicate (head r) th).

Lemma holds_step kb0 kb kb' n : rules kb = rules kb0 → facts kb0 ⊆ facts kb' → applied kb kb' → holds kb0 kb n → holds kb0 kb' (S n).
Proof.
  intros Hr Hsub Happ Hh g Hd. inversion Hd as [m g' f Hf Heq|m g' r th Hin Heq Hb]; subst.
  - exists f. split; [by apply Hsub|done].
  - destruct (Happ r th) as (f & Hf & Hs); [by rewrite Hr| |exists f; split; [done|congruence]].
    intros b Hb'. destruct (Hh _ (Hb b Hb')) as (f & Hf & Hs). by exists f.
Qed.

Context (kb0 : KnowledgeBase) (Hlen : ∀ r, r ∈ rules kb0 → length (body r) ≤ max_iterations e).

Lemma fixpoint_loop_spec n kb h : datalog kb → rules kb = rules kb0 → facts kb0 ⊆ facts kb → holds kb0 kb h →
  ∃ kb', fixpoint_loop e (S fu) fuel n kb = Ok kb' ∧ datalog kb' ∧ rules kb' = rules kb0 ∧ facts kb ⊆ facts kb'
    ∧ holds kb0 kb' (n + h)
    ∧ (n ≠ 0 → ∀ r ds f, r ∈ rules kb → derive_facts_from_rule e (S fu) kb fuel r = Ok ds → f ∈ ds → f ∈ facts kb').
Proof.
  revert kb h. induction n as [|n IH]; intros kb h Hkb Hr Hsub Hh; cbn [fixpoint_loop].
  { exists kb. by split_and!. }
  cbv zeta. set (ns := set_iter _). destruct (derive_names_spec kb ns ([], false) Hkb) as ([new changed] & -> & [Hch Hgood] & _ & _ & Hall);
    [by split; [|constructor]|]. cbn [outcome_bind]. simpl in Hch, Hgood, Hall.
  assert (∀ r ds f, r ∈ rules kb → derive_facts_from_rule e (S fu) kb fuel r = Ok ds → f ∈ ds → f ∈ facts kb ∨ f ∈ new) as Hnew.
  { intros r ds f Hin. apply Hall; [done|]. unfold ns. rewrite elem_of_set_iter, elem_of_list_to_set, elem_of_list_map. eauto. }
  clear Hall. destruct (add_facts_spec new kb) as [Hf1 Hr1]. set (kb1 := foldl _ kb new) in *.
  assert (kb1 = mkKB (facts kb ++ new) (rules kb)) as Hkb1 by (destruct kb1; simpl in *; congruence).
  assert (datalog kb1) as Hdl1 by (rewrite Hkb1; by apply datalog_more).
  assert (∀ f, f ∈ facts kb ∨ f ∈ new → f ∈ facts kb1) as Hin1 by (intros f ?; rewrite Hf1; by apply elem_of_app).
  assert (applied kb kb1) as Happ.
  { intros r th Hin Hb. destruct (derive_total e fu kb Hkb fuel r Hfuel Hin) as (ds & Hds & _).
    destruct (derive_complete e fu kb Hkb fuel r th ds) as (f & Hf & Hs); [done|done|apply Hlen; by rewrite <- Hr|done|done|].
    exists f. split; [|done]. apply Hin1. by eapply Hnew. }
  assert (facts kb ⊆ facts kb1) as Hsub1 by (intros f ?; apply Hin1; by left).
  assert (∀ kb', facts kb1 ⊆ facts kb' → S n ≠ 0 → ∀ r ds f, r ∈ rules kb → derive_facts_from_rule e (S fu) kb fuel r = Ok ds →
    f ∈ ds → f ∈ facts kb') as Hfirst by (intros kb' Hs _ r ds f ? ? ?; apply Hs, Hin1; by eapply Hnew).
  destruct changed; cbn [negb].
  - destruct (IH kb1 (S h)) as (kb' & -> & Hdl' & Hr' & Hsub' & Hh' & _); [done|by rewrite Hr1|by etrans| |].
    { eapply holds_step; [exact Hr|by etrans|done|done]. }
    exists kb'. split_and!; try done; [by etrans|by rewrite Nat.add_succ_r in Hh'|by apply Hfirst].
  - specialize (Hch eq_refl). subst new. rewrite app_nil_r in Hkb1. assert (kb1 = kb) as Heq by (rewrite Hkb1; by destruct kb).
    exists kb1. split_and!; try done; [|by apply Hfirst]. rewrite Heq in *. clear -Hr Hsub Happ.
    intros g. assert (∀ k, holds kb0 kb k) as Hall; [|apply Hall]. induction k as [|k IHk]; [by intros g' Hd; inversion Hd|].
    by eapply holds_step.
Qed.
End iteration.
End facts.

(** ** Properties *)
Section properties.
Context `{CidCrate} `{!HashIter string}.

(** C24. On Datalog programs (ground facts, no function symbols, every variable of a head in its body) whose
    bodies are no longer than the limit of iterations, the engine ends; it keeps the facts and the rules,
    every fact of the result is ground, and every atom with a derivation of height at most the limit
    is there (up to the hints of references). *)
Theorem fixpoint_complete e fu fuel kb (Hkb : datalog kb) (Hlen : ∀ r, r ∈ rules kb → length (body r) ≤ max_iterations e)
  (Hfu : 1 ≤ fu) (Hfuel : max_iterations e + 1 ≤ fuel) :
  ∃ kb', compute_fixpoint e fu fuel kb = Ok kb' ∧ rules kb' = rules kb ∧ facts kb ⊆ facts kb'
    ∧ (∀ f, f ∈ facts kb' → pred_is_ground f = true)
    ∧ ∀ g, derives kb (max_iterations e) g → ∃ f, f ∈ facts kb' ∧ strip_pred f = strip_pred g.
Proof.
  destruct fu as [|fu]; [lia|].
  destruct (fixpoint_loop_spec e fu fuel Hfuel kb Hlen (max_iterations e) kb 0 Hkb) as (kb' & Hrun & Hdl & Hr & Hsub & Hh & _); [done|done| |].
  - intros g Hd. inversion Hd.
  - rewrite Nat.add_0_r in Hh. exists kb'. split_and!; try done. intros f Hf. by apply (dl_facts _ Hdl).
Qed.
End properties.

(** ** A fact without a derivation

    [s(a). r(b, c). q2(Z) :- s(Z). q(Y) :- q2(Y). p(W) :- q(X), r(X, W).] *)
#[local] Open Scope string_scope.
Section unsound.
Context `{CidCrate}.

Definition chain_rules : list Rule :=
  [mkRule (atom "q2" [Var "Z"]) [atom "s" [Var "Z"]];
   mkRule (atom "q" [Var "Y"]) [atom "q2" [Var "Y"]];
   mkRule (atom "p" [Var "W"]) [atom "q" [Var "X"]; atom "r" [Var "X"; Var "W"]]].
Definition chain_kb : KnowledgeBase := mkKB [atom "s" [con "a"]; atom "r" [con "b"; con "c"]] chain_rules.

Lemma chain_datalog : datalog chain_kb.
Proof.
  split.
  - intros f [->| ->%list_elem_of_singleton]%elem_of_cons; done.
  - intros r b [->|[->| ->%list_elem_of_singleton]%elem_of_cons]%elem_of_cons Hb;
      repeat (apply elem_of_cons in Hb as [->|Hb]; [done|]); by apply elem_of_nil in Hb.
  - intros r v Hr Hv. assert (forallb (λ r, bool_decide (pred_vars (head r) ⊆ ⋃ map pred_vars (body r))) chain_rules = true) as Hall by by vm_compute.
    rewrite forallb_forall in Hall. apply list_elem_of_In, Hall, bool_decide_eq_true in Hr.
    apply Hr, elem_of_union_list in Hv as (vs & (b & <- & Hb)%elem_of_list_map & Hv). eauto.
Qed.

(** A predicate with one unary rule that copies another, and no fact. *)
Lemma chain_copy n g m x t : (∀ f, f ∈ facts chain_kb → name f ≠ m) → derives chain_kb n g → strip_pred g = atom m [t] →
  (∀ r, r ∈ chain_rules → name (head r) = m → r = mkRule (atom m [Var x]) (body r)) →
  ∃ r th k, r ∈ chain_rules ∧ head r = atom m [Var x] ∧ strip (apply_subst_term (Var x) th) = t
    ∧ ∀ b, b ∈ body r → derives chain_kb k (apply_subst_predicate b th).
Proof.
  intros Hno Hd Hg Hr. destruct Hd as [n g f Hf Heq|n g r th Hin Heq Hb].
  - destruct (Hno f Hf). rewrite Hg in Heq. by apply (f_equal name) in Heq.
  - exists r, th, n. rewrite Hg in Heq. assert (name (head r) = m) as Hm by (by apply (f_equal name) in Heq).
    pose proof (f_equal head (Hr r Hin Hm)) as Hh. simpl in Hh. rewrite Hh in Heq. injection Heq as Heq.
    split_and!; [done|done|by symmetry|exact Hb].
Qed.

Lemma chain_facts f : f ∈ facts chain_kb → name f = "s" ∨ name f = "r".
Proof. intros [->|Hf]%elem_of_cons; [by left|apply list_elem_of_singleton in Hf as ->; by right]. Qed.
Lemma chain_heads r : r ∈ chain_rules → name (head r) = "q2" ∨ name (head r) = "q" ∨ name (head r) = "p".
Proof.
  intros [->|[->|Hr]%elem_of_cons]%elem_of_cons; [by left|by right; left|].
  apply list_elem_of_singleton in Hr as ->. by right; right.
Qed.

Lemma chain_s n g t : derives chain_kb n g → strip_pred g = atom "s" [t] → t = con "a".
Proof.
  intros Hd Hg. destruct Hd as [n g f Hf Heq|n g r th Hr Heq _]; rewrite Hg in Heq.
  - apply elem_of_cons in Hf as [->| ->%list_elem_of_singleton]; by injection Heq.
  - apply (f_equal name) in Heq. simpl in Heq. destruct (chain_heads r Hr) as [Hh|[Hh|Hh]]; by rewrite Hh in Heq.
Qed.
Lemma chain_r n g t u : derives chain_kb n g → strip_pred g = atom "r" [t; u] → t = con "b".
Proof.
  intros Hd Hg. destruct Hd as [n g f Hf Heq|n g r th Hr Heq _]; rewrite Hg in Heq.
  - apply elem_of_cons in Hf as [->| ->%list_elem_of_singleton]; by injection Heq.
  - apply (f_equal name) in Heq. simpl in Heq. destruct (chain_heads r Hr) as [Hh|[Hh|Hh]]; by rewrite Hh in Heq.
Qed.
Lemma chain_q2 n g t : derives chain_kb n g → strip_pred g = atom "q2" [t] → t = con "a".
Proof.
  intros Hd Hg. destruct (chain_copy n g "q2" "Z" t) as (r & th & k & Hr & Hh & Ht & Hb); [|done|done| |].
  - by intros f [-> | ->]%chain_facts.
  - intros r [->|[->| ->%list_elem_of_singleton]%elem_of_cons]%elem_of_cons Hn; done.
  - apply elem_of_cons in Hr as [->|[->| ->%list_elem_of_singleton]%elem_of_cons]; try done.
    rewrite <- Ht. eapply (chain_s k); [apply Hb; left|done].
Qed.
Lemma chain_q n g t : derives chain_kb n g → strip_pred g = atom "q" [t] → t = con "a".
Proof.
  intros Hd Hg. destruct (chain_copy n g "q" "Y" t) as (r & th & k & Hr & Hh & Ht & Hb); [|done|done| |].
  - by intros f [-> | ->]%chain_facts.
  - intros r [->|[->| ->%list_elem_of_singleton]%elem_of_cons]%elem_of_cons Hn; done.
  - apply elem_of_cons in Hr as [->|[->| ->%list_elem_of_singleton]%elem_of_cons]; try done.
    rewrite <- Ht. eapply (chain_q2 k); [apply Hb; left|done].
Qed.

(** The engine is not sound: through a chain of two rules the variable of a body goal is bound to a
    variable that is bound to another one, the value at the end is not seen, and the next goal
    binds it again.  Whatever the order of iteration, the fixpoint of a Datalog program contains an
    atom that has no derivation. *)
Theorem fixpoint_unsound `{!HashIter string} :
  datalog chain_kb ∧ (∀ n g t, strip_pred g = atom "p" [t] → ¬ derives chain_kb n g)
  ∧ ∃ kb', compute_fixpoint (FixpointEngine_with_max_iterations 10) 2 11 chain_kb = Ok kb' ∧ atom "p" [con "c"] ∈ facts kb'.
Proof.
  split; [exact chain_datalog|]. split.
  - intros n g t Hg Hd. destruct (chain_copy n g "p" "W" t) as (r & th & k & Hr & Hh & _ & Hb); [|done|done| |].
    + by intros f [-> | ->]%chain_facts.
    + intros r [->|[->| ->%list_elem_of_singleton]%elem_of_cons]%elem_of_cons Hn; done.
    + apply elem_of_cons in Hr as [->|[->| ->%list_elem_of_singleton]%elem_of_cons]; try done.
      pose proof (chain_q k _ _ (Hb (atom "q" [Var "X"]) ltac:(left)) eq_refl) as Hq.
      pose proof (chain_r k _ _ _ (Hb (atom "r" [Var "X"; Var "W"]) ltac:(right; left)) eq_refl) as Hr. discriminate (eq_trans (eq_sym Hq) Hr).
  - destruct (fixpoint_loop_spec (FixpointEngine_with_max_iterations 10) 1 11 ltac:(simpl; lia) chain_kb) with (n := 10) (kb := chain_kb) (h := 0)
      as (kb' & Hrun & _ & _ & _ & _ & Hall); [|exact chain_datalog|done|done|by intros g Hd; inversion Hd|].
    { intros r [->|[->| ->%list_elem_of_singleton]%elem_of_cons]%elem_of_cons; simpl; lia. }
    exists kb'. split; [exact Hrun|].
    apply (Hall ltac:(done) (mkRule (atom "p" [Var "W"]) [atom "q" [Var "X"]; atom "r" [Var "X"; Var "W"]]) [atom "p" [con "c"]]);
      [right; right; left|by vm_compute|left].
Qed.
End unsound.

(** ** Witness: ancestors *)
Import Reference.
#[local] Existing Instance default_iter.
Definition anc_rules : list Rule :=
  [mkRule (atom "anc" [Var "X"; Var "Y"]) [atom "par" [Var "X"; Var "Y"]];
   mkRule (atom "anc" [Var "X"; Var "Z"]) [atom "par" [Var "X"; Var "Y"]; atom "anc" [Var "Y"; Var "Z"]]].
Definition anc_kb : KnowledgeBase :=
  mkKB [atom "par" [con "a"; con "b"]; atom "par" [con "b"; con "c"]] anc_rules.

Lemma anc_datalog : datalog anc_kb.
Proof.
  split.
  - intros f [->| ->%list_elem_of_singleton]%elem_of_cons; done.
  - intros r b [->| ->%list_elem_of_singleton]%elem_of_cons Hb;
      repeat (apply elem_of_cons in Hb as [->|Hb]; [done|]); by apply elem_of_nil in Hb.
  - intros r v Hr Hv. assert (forallb (λ r, bool_decide (pred_vars (head r) ⊆ ⋃ map pred_vars (body r))) anc_rules = true) as Hall by by vm_compute.
    rewrite forallb_forall in Hall. apply list_elem_of_In, Hall, bool_decide_eq_true in Hr.
    apply Hr, elem_of_union_list in Hv as (vs & (b & <- & Hb)%elem_of_list_map & Hv). eauto.
Qed.

Lemma fixpoint_complete_witness :
  ∃ kb', compute_fixpoint (FixpointEngine_with_max_iterations 4) 1 5 anc_kb = Ok kb' ∧ rules kb' = rules anc_kb ∧ facts anc_kb ⊆ facts kb'
    ∧ (∀ f, f ∈ facts kb' → pred_is_ground f = true)
    ∧ ∀ g, derives anc_kb 4 g → ∃ f, f ∈ facts kb' ∧ strip_pred f = strip_pred g.
Proof.
  apply (fixpoint_complete (FixpointEngine_with_max_iterations 4)); [exact anc_datalog| |lia|simpl; lia].
  intros r [->| ->%list_elem_of_singleton]%elem_of_cons; simpl; lia.
Defined.
