(* ===== verification/Datalog.v ===== *)
(** * Datalog text: [crates/ipfrs-tensorlogic/src/datalog.rs] and the [Display] instances of [ir.rs]

    A parser is a [stateful] computation on the text and a byte position; errors keep the position
    reached.  Slicing the text inside a character panics.  The Unicode classes of [char] are the
    class [CharClasses], with what the parser relies on as [CharLaws]; the text of a CID is that of
    its crate. *)

From Stdlib Require Import ZArith Lia List Ascii.
From stdpp Require Import base tactics numbers list strings pretty.
From S2P Require Import Prelude Collections Cid Ir.
#[local] Open Scope string_scope.
#[local] Open Scope list_scope.
#[local] Open Scope Z_scope.

(** ** Characters *)
Class CharClasses : Type := {
  is_uppercase : Z → bool; is_lowercase : Z → bool; is_alphanumeric : Z → bool; is_whitespace : Z → bool }.
(** The classes of ASCII, and that white space is not alphanumeric. *)
Class CharLaws `{CharClasses} : Prop := {
  ascii_uppercase c : 0 <= c < 128 → is_uppercase c = in_range 0x41 0x5A c;
  ascii_lowercase c : 0 <= c < 128 → is_lowercase c = in_range 0x61 0x7A c;
  ascii_alphanumeric c : 0 <= c < 128 →
    is_alphanumeric c = in_range 0x30 0x39 c || in_range 0x41 0x5A c || in_range 0x61 0x7A c;
  ascii_whitespace c : 0 <= c < 128 → is_whitespace c = in_range 9 13 c || (c =? 32);
  whitespace_not_alphanumeric c : is_whitespace c = true → is_alphanumeric c = false;
}.
Definition is_ascii_digit (c : Z) : bool := in_range 0x30 0x39 c.
Definition ch (a : Ascii.ascii) : Z := Z.of_N (Ascii.N_of_ascii a).
Arguments ch a%_char.

(** [char::len_utf8], and the text of a character. *)
Definition len_utf8 (c : Z) : nat :=
  if c <? 0x80 then 1%nat else if c <? 0x800 then 2%nat else if c <? 0x10000 then 3%nat else 4%nat.
Definition utf8_encode (c : Z) : bytes :=
  match len_utf8 c with
  | 1%nat => [c]
  | 2%nat => [0xC0 + c / 64; 0x80 + c mod 64]
  | 3%nat => [0xE0 + c / 4096; 0x80 + c / 64 mod 64; 0x80 + c mod 64]
  | _ => [0xF0 + c / 262144; 0x80 + c / 4096 mod 64; 0x80 + c / 64 mod 64; 0x80 + c mod 64]
  end.
Definition quoted (c : Z) : string := "'" +:+ bytes_string (utf8_encode c) +:+ "'".

(** [str::is_char_boundary], and the slice [&s[a..b]]. *)
Definition is_char_boundary (l : bytes) (i : nat) : bool :=
  match i with
  | O => true
  | _ => match l !! i with Some b => negb (utf8_cont b) | None => Nat.eqb i (length l) end
  end.
Definition slice {E} (l : bytes) (a b : nat) : outcome E bytes :=
  if (a <=? b)%nat && is_char_boundary l a && is_char_boundary l b then Ok (take (b - a) (drop a l)) else Panic.

(** [str::parse::<i64>]. *)
Definition decimal (l : bytes) : Z := foldl (λ n d, n * 10 + (d - 48)) 0 l.
Definition parse_i64 (l : bytes) : option Z :=
  let digits l := match l with [] => false | _ => forallb is_ascii_digit l end in
  let '(sign, ds) := match l with
    | b :: l' => if b =? ch "-" then (-1, l') else if b =? ch "+" then (1, l') else (1, l)
    | [] => (1, l) end in
  let v := sign * decimal ds in
  if digits ds && in_range (- 2 ^ 63) (2 ^ 63 - 1) v then Some v else None.

(** ** Printing *)
Class CidText `{CidCrate} : Type := { cid_display : Cid → string }.

Section display.
Context `{CidText}.
Definition quote : string := String "034"%char "".
Definition display_constant (c : Constant) : string :=
  match c with
  | CString s => quote +:+ s +:+ quote
  | CInt i => pretty i
  | CBool b => if b then "true" else "false"
  | CFloat s => s
  end.
Fixpoint display_term (t : Term) : string :=
  match t with
  | Var v => "?" +:+ v
  | Const c => display_constant c
  | Fun name args => name +:+ "(" +:+ String.concat ", " (map display_term args) +:+ ")"
  | Ref r => "@" +:+ cid_display (ref_cid r)
  end.
Definition display_predicate (p : Predicate) : string :=
  name p +:+ "(" +:+ String.concat ", " (map display_term (args p)) +:+ ")".
Definition display_rule (r : Rule) : string :=
  display_predicate (head r)
  +:+ match body r with [] => "" | ps => " :- " +:+ String.concat ", " (map display_predicate ps) end +:+ ".".
End display.

(** ** Parsing *)
Record ParseError : Type := mkParseError { message : string; err_position : nat }.
Record DatalogParser : Type := mkParser { input : bytes; position : nat }.
Inductive Statement `{CidCrate} : Type :=
| SFact (p : Predicate)
| SRule (r : Rule)
| SQuery (p : Predicate).

Definition DatalogParser_new (s : string) : DatalogParser := mkParser (string_bytes s) 0.

Section parser.
Context `{CidCrate} `{CharClasses}.
Notation parser := (stateful DatalogParser ParseError).

Definition remaining (p : DatalogParser) : nat := length (input p) - position p.
Definition get_position : parser nat := reads (λ p, Ok (position p)).
Definition peek_char : parser (option Z) :=
  reads (λ p, let! s := slice (input p) (position p) (length (input p)) in Ok (hd_error (chars s))).
Definition peek_str (n : nat) : parser (option bytes) :=
  reads (λ p, if (position p + n <=? length (input p))%nat
              then let! s := slice (input p) (position p) (position p + n) in Ok (Some s) else Ok None).
Definition advance : parser unit :=
  do! c := peek_char in
  match c with Some c => modifies (λ p, mkParser (input p) (position p + len_utf8 c)) | None => lift (Ok tt) end.
Definition error {A} (msg : string) : parser A := reads (λ p, Err (mkParseError msg (position p))).

(** [while let Some(ch) = self.peek_char()] with [advance] while [f] holds. *)
Fixpoint advance_while (f : Z → bool) (n : nat) : parser unit :=
  match n with
  | O => lift OutOfFuel
  | S n' =>
    do! c := peek_char in
    match c with
    | Some c => if f c then do! _ := advance in advance_while f n' else lift (Ok tt)
    | None => lift (Ok tt)
    end
  end.
Definition taking_while (f : Z → bool) : parser unit := λ p, advance_while f (S (remaining p)) p.
Definition text_since (start : nat) : parser bytes := reads (λ p, slice (input p) start (position p)).

Fixpoint skip_comment (n : nat) : parser unit :=
  match n with
  | O => lift OutOfFuel
  | S n' =>
    do! c := peek_char in
    match c with
    | Some c => do! _ := advance in if c =? ch "010" then lift (Ok tt) else skip_comment n'
    | None => lift (Ok tt)
    end
  end.
Fixpoint skip_loop (n : nat) : parser unit :=
  match n with
  | O => lift OutOfFuel
  | S n' =>
    do! c := peek_char in
    match c with
    | Some c =>
      if is_whitespace c then do! _ := advance in skip_loop n'
      else if c =? ch "%" then do! _ := (λ p, skip_comment (S (remaining p)) p) in skip_loop n'
      else lift (Ok tt)
    | None => lift (Ok tt)
    end
  end.
Definition skip_whitespace : parser unit := λ p, skip_loop (S (remaining p)) p.

Definition expect_char (expected : Z) : parser unit :=
  do! _ := skip_whitespace in
  do! c := peek_char in
  match c with
  | None => error ("Expected " +:+ quoted expected +:+ " but found end of input")
  | Some c => if c =? expected then advance else error ("Expected " +:+ quoted expected +:+ " but found " +:+ quoted c)
  end.

Definition parse_identifier : parser string :=
  do! start := get_position in
  do! _ := taking_while (λ c, is_alphanumeric c || (c =? ch "_")) in
  do! now := get_position in
  if Nat.eqb now start then error "Expected identifier" else
  do! s := text_since start in lift (Ok (bytes_string s)).
Definition parse_string : parser string :=
  do! start := get_position in
  do! _ := taking_while (λ c, negb (c =? ch "034")) in
  do! s := text_since start in lift (Ok (bytes_string s)).
Definition parse_number : parser Z :=
  do! start := get_position in
  do! c := peek_char in
  do! _ := match c with Some c => if c =? ch "-" then advance else lift (Ok tt) | None => lift (Ok tt) end in
  do! _ := taking_while is_ascii_digit in
  do! s := text_since start in
  lift (ok_or (parse_i64 s) (mkParseError "Invalid number" start)).

(** The loop of the two comma-separated lists, over what reads one element. *)
Fixpoint list_loop {A} (item : parser A) (n : nat) (acc : list A) : parser (list A) :=
  match n with
  | O => lift OutOfFuel
  | S n' =>
    do! a := item in
    do! _ := skip_whitespace in
    do! c := peek_char in
    if decide (c = Some (ch ",")) then
      do! _ := advance in do! _ := skip_whitespace in list_loop item n' (acc ++ [a])
    else lift (Ok (acc ++ [a]))
  end.
Definition parse_term_list (parse_term : parser Term) (n : nat) : parser (list Term) :=
  do! c := peek_char in
  if decide (c = Some (ch ")")) then lift (Ok []) else list_loop parse_term n [].

Fixpoint parse_term (fuel : nat) : parser Term :=
  match fuel with
  | O => lift OutOfFuel
  | S fuel' =>
    do! _ := skip_whitespace in
    do! c := peek_char in
    match c with
    | None => error "Unexpected end of input"
    | Some c =>
      if (c =? ch "?") || is_uppercase c then
        do! _ := (if c =? ch "?" then advance else lift (Ok tt)) in
        do! name := parse_identifier in lift (Ok (Var name))
      else if c =? ch "034" then
        do! _ := advance in
        do! value := parse_string in
        do! _ := expect_char (ch "034") in lift (Ok (Const (CString value)))
      else if is_ascii_digit c || (c =? ch "-") then
        do! value := parse_number in lift (Ok (Const (CInt value)))
      else if is_lowercase c then
        do! name := parse_identifier in
        do! _ := skip_whitespace in
        do! c := peek_char in
        if decide (c = Some (ch "(")) then
          do! _ := advance in
          do! _ := skip_whitespace in
          do! args := parse_term_list (parse_term fuel') fuel' in
          do! _ := skip_whitespace in
          do! _ := expect_char (ch ")") in lift (Ok (Fun name args))
        else lift (Ok (Const (CString name)))
      else error ("Unexpected character: " +:+ quoted c)
    end
  end.

Definition parse_predicate (fuel : nat) : parser Predicate :=
  do! name := parse_identifier in
  do! _ := skip_whitespace in
  do! _ := expect_char (ch "(") in
  do! _ := skip_whitespace in
  do! args := parse_term_list (parse_term fuel) fuel in
  do! _ := skip_whitespace in
  do! _ := expect_char (ch ")") in
  lift (Ok (mkPredicate name args)).
Definition parse_predicate_list (fuel : nat) : parser (list Predicate) := list_loop (parse_predicate fuel) fuel [].

(** Every element and every level of nesting takes a byte of the text. *)
Definition parse_statement : parser Statement := λ p0,
  let fuel := S (length (input p0)) in
  (do! _ := skip_whitespace in
   do! c := peek_char in
   if decide (c = Some (ch "?")) then
     do! _ := advance in
     do! _ := expect_char (ch "-") in
     do! _ := skip_whitespace in
     do! predicate := parse_predicate fuel in
     do! _ := skip_whitespace in
     do! _ := expect_char (ch ".") in
     lift (Ok (SQuery predicate))
   else
     do! head := parse_predicate fuel in
     do! _ := skip_whitespace in
     do! c := peek_char in
     if decide (c = Some (ch ".")) then do! _ := advance in lift (Ok (SFact head)) else
     do! s := peek_str 2 in
     if decide (s = Some (string_bytes ":-")) then
       do! _ := advance in
       do! _ := advance in
       do! _ := skip_whitespace in
       do! body := parse_predicate_list fuel in
       do! _ := skip_whitespace in
       do! _ := expect_char (ch ".") in
       lift (Ok (SRule (mkRule head body)))
     else error "Expected '.' or ':-'") p0.

Definition expecting {A} (what : string) (pick : Statement → option A) (s : string) : outcome ParseError A :=
  let! st := (parse_statement (DatalogParser_new s)).1 in
  ok_or (pick st) (mkParseError ("Expected a " +:+ what) 0).
Definition parse_fact : string → outcome ParseError Predicate :=
  expecting "fact" (λ st, match st with SFact f => Some f | _ => None end).
Definition parse_rule : string → outcome ParseError Rule :=
  expecting "rule" (λ st, match st with SRule r => Some r | _ => None end).
Definition parse_query : string → outcome ParseError Predicate :=
  expecting "query" (λ st, match st with SQuery q => Some q | _ => None end).
End parser.

(** ASCII alone: the other characters belong to no class. *)
Module AsciiChars.
#[export] Instance ascii_classes : CharClasses := {|
  is_uppercase := in_range 0x41 0x5A;
  is_lowercase := in_range 0x61 0x7A;
  is_alphanumeric := λ c, in_range 0x30 0x39 c || in_range 0x41 0x5A c || in_range 0x61 0x7A c;
  is_whitespace := λ c, in_range 9 13 c || (c =? 32)%Z |}.
#[export] Instance ascii_laws : CharLaws.
Proof. split; try done. intros c. simpl. unfold in_range. lia. Qed.
End AsciiChars.
