(* ===== verification/DatalogFacts.v ===== *)
(** * Datalog text: what is printed is parsed back, and the parser answers

    The state of a parser is the text before its position and the text after it, at a character
    boundary ([at_]); the lemmas say how each operation moves the boundary. *)

From Stdlib Require Import ZArith Lia List Ascii.
From stdpp Require Import base tactics numbers list strings pretty.
From S2P Require Import Prelude Collections Cid Ir Datalog.
#[local] Open Scope string_scope.
#[local] Open Scope list_scope.
#[local] Open Scope Z_scope.

(** ** Characters of valid text *)
Notation valid l := (utf8_valid l = true).

(** [k] is the encoding of the character [c]. *)
Definition char_bytes (c : Z) (k : bytes) : Prop :=
  length k = len_utf8 c ∧ (∃ b k', k = b :: k' ∧ utf8_cont b = false)
  ∧ ∀ r, chars (k ++ r) = c :: chars r ∧ utf8_valid (k ++ r) = utf8_valid r.

Lemma char_bytes_1 b : b <? 0x80 = true → char_bytes b [b].
Proof.
  intros Hb. split; [by unfold len_utf8; rewrite Hb|]. split; [exists b, []; split; [done|unfold utf8_cont; lia]|].
  intros r. simpl. by rewrite Hb.
Qed.

Lemma utf8_uncons l : valid l → l ≠ [] → ∃ c k r, l = k ++ r ∧ char_bytes c k ∧ valid r.
Proof.
  destruct l as [|b0 r0]; [done|]. intros Hv _. simpl in Hv. destruct (b0 <? 0x80) eqn:H0.
  { exists b0, [b0], r0. split; [done|]. split; [by apply char_bytes_1|done]. }
  destruct r0 as [|b1 r1]; [done|]. destruct (in_range 0xC2 0xDF b0 && utf8_cont b1) eqn:H1.
  { exists ((b0 - 0xC0) * 64 + (b1 - 0x80)), [b0; b1], r1. split; [done|]. split; [|done].
    assert (b0 <? 0xE0 = true) as H2 by (unfold in_range in H1; lia).
    unfold in_range, utf8_cont in H1. split; [unfold len_utf8; simpl; repeat case_match; lia|].
    split; [exists b0, [b1]; split; [done|unfold utf8_cont; lia]|].
    intros r. simpl. by rewrite H0, H2; unfold in_range, utf8_cont; rewrite H1. }
  destruct r1 as [|b2 r2]; [done|].
  match type of Hv with (if ?c then _ else _) = _ => destruct c eqn:H2 end.
  { exists ((b0 - 0xE0) * 4096 + (b1 - 0x80) * 64 + (b2 - 0x80)), [b0; b1; b2], r2. split; [done|]. split; [|done].
    assert (b0 <? 0xE0 = false) as H3 by (unfold in_range in H2; lia).
    assert (b0 <? 0xF0 = true) as H4 by (unfold in_range in H2; lia).
    split; [unfold in_range, utf8_cont in H2; unfold len_utf8; simpl; repeat case_match; lia|].
    split; [exists b0, [b1; b2]; split; [done|unfold in_range in H2; unfold utf8_cont; lia]|].
    intros r. simpl. by rewrite H0, H1, H2, H3, H4. }
  destruct r2 as [|b3 r3]; [done|].
  match type of Hv with (if ?c then _ else _) = _ => destruct c eqn:H3 end; [|done].
  exists ((b0 - 0xF0) * 262144 + (b1 - 0x80) * 4096 + (b2 - 0x80) * 64 + (b3 - 0x80)), [b0; b1; b2; b3], r3.
  split; [done|]. split; [|done].
  assert (b0 <? 0xE0 = false) as H4 by (unfold in_range in H3; lia).
  assert (b0 <? 0xF0 = false) as H5 by (unfold in_range in H3; lia).
  split; [unfold in_range, utf8_cont in H3; unfold len_utf8; simpl; repeat case_match; lia|].
  split; [exists b0, [b1; b2; b3]; split; [done|unfold in_range in H3; unfold utf8_cont; lia]|].
  intros r. simpl. by rewrite H0, H1, H2, H3, H4, H5.
Qed.

Lemma char_bytes_length c k : char_bytes c k → (0 < length k)%nat.
Proof. intros (_ & (b & k' & -> & _) & _). simpl. lia. Qed.

Lemma valid_ind (P : bytes → Prop) : P [] →
  (∀ c k r, char_bytes c k → valid r → P r → P (k ++ r)) → ∀ l, valid l → P l.
Proof.
  intros Hnil Hstep l. remember (length l) as n eqn:Hn. revert l Hn.
  induction (lt_wf n) as [n _ IH]. intros l -> Hv. destruct (decide (l = [])) as [->|Hl]; [done|].
  destruct (utf8_uncons l Hv Hl) as (c & k & r & -> & Hk & Hr). pose proof (char_bytes_length c k Hk).
  apply (Hstep c); [done..|]. eapply (IH (length r)); [rewrite length_app; lia|done|done].
Qed.

Lemma valid_app l r : valid l → utf8_valid (l ++ r) = utf8_valid r.
Proof.
  revert l. refine (valid_ind _ _ _); [done|]. intros c k l Hk _ IH.
  destruct Hk as (_ & _ & Hk). by rewrite <- app_assoc, (proj2 (Hk _)).
Qed.
Lemma text_chars_app l r : valid l → chars (l ++ r) = chars l ++ chars r.
Proof.
  revert l. refine (valid_ind _ _ _); [done|]. intros c k l Hk _ IH.
  destruct Hk as (_ & _ & Hk). by rewrite <- app_assoc, !(proj1 (Hk _)), IH.
Qed.
Lemma chars_nil l : valid l → chars l = [] → l = [].
Proof.
  revert l. refine (valid_ind _ _ _); [done|]. intros c k l Hk _ IH.
  destruct Hk as (_ & _ & Hk). by rewrite (proj1 (Hk _)).
Qed.
(** The first character of a text, and what follows it. *)
Lemma chars_cons l c : valid l → hd_error (chars l) = Some c → ∃ k r, l = k ++ r ∧ char_bytes c k ∧ valid r.
Proof.
  intros Hl Hc. destruct (utf8_uncons l Hl) as (c' & k & r & -> & Hk & Hr); [by intros ->|].
  rewrite (proj1 (proj2 (proj2 Hk) r)) in Hc. simplify_eq/=. eauto 10.
Qed.
Lemma boundary_valid l r : valid r → is_char_boundary (l ++ r) (length l) = true.
Proof.
  intros Hr. unfold is_char_boundary. destruct (length l) as [|n] eqn:Hn; [done|]. rewrite <- Hn.
  destruct (decide (r = [])) as [->|Hne].
  - rewrite app_nil_r, (proj2 (lookup_ge_None _ _)); [apply Nat.eqb_refl|lia].
  - destruct (utf8_uncons r Hr Hne) as (c & k & r' & -> & (_ & (b & k' & -> & Hb) & _) & _).
    rewrite lookup_app_r, Nat.sub_diag by lia. simpl. by rewrite Hb.
Qed.
Lemma slice_mid {E} (a s r : bytes) : valid (s ++ r) → valid r → @slice E (a ++ s ++ r) (length a) (length (a ++ s)) = Ok s.
Proof.
  intros Hs Hr. unfold slice. rewrite (boundary_valid a) by done. pose proof (boundary_valid (a ++ s) r Hr) as Hb.
  rewrite <- app_assoc in Hb. rewrite Hb, (proj2 (Nat.leb_le _ _)) by (rewrite length_app; lia). simpl.
  rewrite length_app, drop_app_length, Nat.add_sub_swap, Nat.sub_diag by lia. simpl. by rewrite take_app_length.
Qed.

(** ** Text of strings *)
Lemma string_bytes_app (s t : string) : string_bytes (s +:+ t) = string_bytes s ++ string_bytes t.
Proof. induction s as [|a s IH]; [done|]. unfold string_bytes in *. simpl. f_equal. exact IH. Qed.
Lemma concat_cons sep (x y : string) l : String.concat sep (x :: y :: l) = x +:+ sep +:+ String.concat sep (y :: l).
Proof. done. Qed.

Section facts.
Context `{CidCrate} `{!CharClasses}.
Notation parser := (stateful DatalogParser ParseError).
Implicit Types (pre rest s r : bytes).

Lemma bind_ok {A B} (f : A → parser B) (m : parser A) st a st' : m st = (Ok a, st') → st_bind f m st = f a st'.
Proof. unfold st_bind. by intros ->. Qed.

(** ** The operations at a character boundary *)
Definition at_ pre rest : DatalogParser := mkParser (pre ++ rest) (length pre).

Lemma at_app pre s rest : mkParser (pre ++ s ++ rest) (length (pre ++ s)) = at_ (pre ++ s) rest.
Proof. unfold at_. by rewrite <- app_assoc. Qed.
Lemma remaining_at pre rest : remaining (at_ pre rest) = length rest.
Proof. unfold remaining, at_. simpl. rewrite length_app. lia. Qed.
Lemma get_position_at pre rest : get_position (at_ pre rest) = (Ok (length pre), at_ pre rest).
Proof. done. Qed.
Lemma peek_at pre rest : valid rest → peek_char (at_ pre rest) = (Ok (hd_error (chars rest)), at_ pre rest).
Proof.
  intros Hr. unfold peek_char, reads, at_. simpl.
  pose proof (@slice_mid ParseError pre rest []) as Hs. rewrite !app_nil_r in Hs.
  rewrite Hs by done. done.
Qed.
Lemma advance_at pre c k rest : char_bytes c k → valid rest → advance (at_ pre (k ++ rest)) = (Ok tt, at_ (pre ++ k) rest).
Proof.
  intros Hk Hr. assert (valid (k ++ rest)) as Hv by by rewrite (proj2 (proj2 (proj2 Hk) _)).
  unfold advance, st_bind. rewrite peek_at by done. rewrite (proj1 (proj2 (proj2 Hk) _)). simpl.
  unfold modifies. simpl. rewrite <- (proj1 Hk), <- length_app. by rewrite at_app.
Qed.
Lemma text_since_at pre s rest : valid (s ++ rest) → valid rest →
  text_since (length pre) (at_ (pre ++ s) rest) = (Ok s, at_ (pre ++ s) rest).
Proof. intros Hs Hr. unfold text_since, reads, at_. simpl. by rewrite <- app_assoc, slice_mid. Qed.

(** The next character, if there is one, does not satisfy [f]. *)
Definition stops (f : Z → bool) rest : Prop := ∀ c, hd_error (chars rest) = Some c → f c = false.

Lemma advance_while_at f n pre s rest : valid s → valid rest → forallb f (chars s) = true → stops f rest →
  (length s < n)%nat → advance_while f n (at_ pre (s ++ rest)) = (Ok tt, at_ (pre ++ s) rest).
Proof.
  intros Hs Hr. revert s Hs n pre. refine (valid_ind _ _ _); [|intros c k s Hk Hs IH]; intros n pre Hf Hstop Hn.
  - destruct n as [|n]; [simpl in Hn; lia|]. simpl. unfold st_bind. rewrite peek_at by done. rewrite app_nil_r.
    destruct (hd_error (chars rest)) as [c|] eqn:Hc; [|done]. by rewrite (Hstop c Hc).
  - destruct n as [|n]; [lia|]. rewrite (proj1 (proj2 (proj2 Hk) _)) in Hf. simpl in Hf. apply andb_true_iff in Hf as [Hc Hf].
    assert (valid (s ++ rest)) as Hv by by rewrite valid_app.
    rewrite <- app_assoc. cbn [advance_while]. unfold st_bind at 1. rewrite peek_at by by rewrite (proj2 (proj2 (proj2 Hk) _)).
    rewrite (proj1 (proj2 (proj2 Hk) _)). cbn [hd_error]. rewrite Hc. unfold st_bind. rewrite (advance_at _ c) by done.
    pose proof (char_bytes_length c k Hk). rewrite length_app in Hn. rewrite IH by (done || lia). by rewrite app_assoc.
Qed.
Lemma taking_while_at f pre s rest : valid s → valid rest → forallb f (chars s) = true → stops f rest →
  taking_while f (at_ pre (s ++ rest)) = (Ok tt, at_ (pre ++ s) rest).
Proof. intros. unfold taking_while. rewrite remaining_at. apply advance_while_at; try done. rewrite length_app. lia. Qed.

(** ** ASCII *)
Lemma advance_ascii pre b rest : b < 0x80 → valid rest → advance (at_ pre (b :: rest)) = (Ok tt, at_ (pre ++ [b]) rest).
Proof. intros Hb. apply (advance_at pre b [b]), char_bytes_1. lia. Qed.
Lemma valid_ascii b rest : b < 0x80 → utf8_valid (b :: rest) = utf8_valid rest.
Proof. intros Hb. simpl. by rewrite (proj2 (Z.ltb_lt _ _)). Qed.
Lemma next_ascii b rest : b < 0x80 → hd_error (chars (b :: rest)) = Some b.
Proof. intros Hb. simpl. by rewrite (proj2 (Z.ltb_lt _ _)). Qed.

(** Neither white space nor a comment comes next. *)
Definition no_skip rest : Prop := stops is_whitespace rest ∧ hd_error (chars rest) ≠ Some (ch "%").
Lemma skip_none pre rest : valid rest → no_skip rest → skip_whitespace (at_ pre rest) = (Ok tt, at_ pre rest).
Proof.
  intros Hr [Hw Hc]. unfold skip_whitespace. cbn [skip_loop]. unfold st_bind. rewrite peek_at by done.
  destruct (hd_error (chars rest)) as [c|] eqn:Hn; [|done]. rewrite (Hw c Hn).
  destruct (c =? ch "%") eqn:Hp; [|done]. apply Z.eqb_eq in Hp. congruence.
Qed.
Lemma skip_space pre b rest : 0 <= b < 128 → is_whitespace b = true → valid rest → no_skip rest →
  skip_whitespace (at_ pre (b :: rest)) = (Ok tt, at_ (pre ++ [b]) rest).
Proof.
  intros Hb Hw Hr Hn. unfold skip_whitespace. rewrite remaining_at. cbn [skip_loop length]. unfold st_bind.
  rewrite peek_at by by rewrite valid_ascii by lia. rewrite next_ascii, Hw, advance_ascii by (done || lia).
  pose proof (skip_none (pre ++ [b]) rest Hr Hn) as Hs. unfold skip_whitespace in Hs. by rewrite remaining_at in Hs.
Qed.

(** ** The parser answers

    [runs]: the position moves forward to a character boundary, the fuel suffices, a panic needs a
    character outside ASCII, and a [strict] computation that succeeds takes at least a byte. *)
Definition ascii (l : bytes) : Prop := Forall (λ b, b < 0x80) l.
Definition runs (strict : bool) {A} (m : parser A) pre rest : Prop :=
  ∃ s rest' (r : outcome ParseError A), rest = s ++ rest' ∧ valid rest' ∧ m (at_ pre rest) = (r, at_ (pre ++ s) rest') ∧ r ≠ OutOfFuel
  ∧ (r = Panic → ¬ ascii (pre ++ rest)) ∧ (∀ a, r = Ok a → strict = true → s ≠ []).

Lemma runs_bind {A B} b1 b2 b (m : parser A) (f : A → parser B) pre rest : b = b1 || b2 → runs b1 m pre rest →
  (∀ a s rest', rest = s ++ rest' → valid rest' → (b1 = true → s ≠ []) → runs b2 (f a) (pre ++ s) rest') →
  runs b (st_bind f m) pre rest.
Proof.
  intros -> (s & rest' & r & -> & Hv & Hm & Hf & Hp & Hs) Hk. unfold runs, st_bind. rewrite Hm.
  destruct r as [a|e| |]; [|by exists s, rest', (Err e); split_and!|exists s, rest', Panic; split_and!; auto; discriminate|done].
  destruct (Hk a s rest' eq_refl Hv) as (s2 & rest2 & r2 & -> & Hv2 & Hm2 & Hf2 & Hp2 & Hs2); [by apply (Hs a)|].
  exists (s ++ s2), rest2, r2. rewrite !app_assoc in *. split_and!; try done.
  intros a2 Ha Hb. intros [-> ->]%app_nil. apply orb_true_iff in Hb as [Hb|Hb]; [by apply (Hs a)|by apply (Hs2 a2)].
Qed.
Lemma runs_weaken {A} b (m : parser A) pre rest : runs b m pre rest → runs false m pre rest.
Proof. intros (s & rest' & r & ? & ? & ? & ? & ? & _). by exists s, rest', r. Qed.
Lemma runs_stay {A} (m : parser A) (r : outcome ParseError A) pre rest : valid rest → m (at_ pre rest) = (r, at_ pre rest) → r ≠ OutOfFuel → r ≠ Panic → runs false m pre rest.
Proof. intros Hv Hm Hf Hp. exists [], rest, r. rewrite app_nil_r. by split_and!. Qed.
Lemma runs_return {A} (a : A) pre rest : valid rest → runs false (lift (Ok a)) pre rest.
Proof. intros Hv. by apply (runs_stay _ (Ok a)). Qed.
Lemma runs_error {A} b msg pre rest : valid rest → runs b (@error A msg) pre rest.
Proof. intros Hv. exists [], rest, (Err (mkParseError msg (length pre))). rewrite app_nil_r. by split_and!. Qed.
Lemma runs_peek {B} b (f : option Z → parser B) pre rest : valid rest → runs b (f (hd_error (chars rest))) pre rest → runs b (st_bind f peek_char) pre rest.
Proof. intros Hv Hf. unfold runs. by rewrite (bind_ok _ _ _ _ _ (peek_at pre rest Hv)). Qed.
Lemma runs_advance c pre rest : valid rest → hd_error (chars rest) = Some c → runs true advance pre rest.
Proof.
  intros Hv Hc. destruct (chars_cons rest c Hv Hc) as (k & r & -> & Hk & Hr). exists k, r, (Ok tt). rewrite (advance_at pre c) by done.
  split_and!; try done. intros _ _ _ ->. apply char_bytes_length in Hk. simpl in Hk. lia.
Qed.
Lemma runs_advance_any pre rest : valid rest → runs false advance pre rest.
Proof.
  intros Hv. destruct (hd_error (chars rest)) as [c|] eqn:Hc; [by eapply runs_weaken, runs_advance|].
  apply (runs_stay _ (Ok tt)); [done| |done..]. unfold advance. rewrite (bind_ok _ _ _ _ _ (peek_at pre rest Hv)). by rewrite Hc.
Qed.
(** The next operation of a chain, when only the length of what is left matters. *)
Lemma runs_next {A B} b (m : parser A) (f : A → parser B) pre rest : runs false m pre rest →
  (∀ a s rest', valid rest' → (length rest' <= length rest)%nat → runs b (f a) (pre ++ s) rest') → runs b (st_bind f m) pre rest.
Proof.
  intros Hm Hf. eapply (runs_bind false b); [done|exact Hm|]. intros a s rest' -> Hv _. apply Hf; [done|]. rewrite length_app. lia.
Qed.
Lemma shorter {s rest rest' : bytes} : rest = s ++ rest' → s ≠ [] → (length rest' < length rest)%nat.
Proof. intros -> Hs. rewrite length_app. destruct s; [done|simpl; lia]. Qed.

Lemma runs_advance_while f n pre rest : valid rest → (length rest < n)%nat → runs false (advance_while f n) pre rest.
Proof.
  revert pre rest. induction n as [|n IH]; intros pre rest Hv Hn; [lia|]. cbn [advance_while]. apply runs_peek; [done|].
  destruct (hd_error (chars rest)) as [c|] eqn:Hc; [|by apply runs_return]. destruct (f c); [|by apply runs_return].
  eapply runs_weaken, (runs_bind true false); [done|by eapply runs_advance|]. intros _ s rest' Hr Hv' Hs.
  apply IH; [done|]. pose proof (shorter Hr (Hs eq_refl)). lia.
Qed.
Lemma runs_taking_while f pre rest : valid rest → runs false (taking_while f) pre rest.
Proof. intros Hv. unfold runs, taking_while. rewrite remaining_at. apply runs_advance_while; [done|lia]. Qed.
Lemma runs_skip_comment n pre rest : valid rest → (length rest < n)%nat → runs false (skip_comment n) pre rest.
Proof.
  revert pre rest. induction n as [|n IH]; intros pre rest Hv Hn; [lia|]. cbn [skip_comment]. apply runs_peek; [done|].
  destruct (hd_error (chars rest)) as [c|] eqn:Hc; [|by apply runs_return].
  eapply runs_weaken, (runs_bind true false); [done|by eapply runs_advance|]. intros _ s rest' Hr Hv' Hs.
  destruct (c =? ch "010"); [by apply runs_return|]. apply IH; [done|]. pose proof (shorter Hr (Hs eq_refl)). lia.
Qed.
Lemma runs_skip_loop n pre rest : valid rest → (length rest < n)%nat → runs false (skip_loop n) pre rest.
Proof.
  revert pre rest. induction n as [|n IH]; intros pre rest Hv Hn; [lia|]. cbn [skip_loop]. apply runs_peek; [done|].
  destruct (hd_error (chars rest)) as [c|] eqn:Hc; [|by apply runs_return].
  assert (∀ m : parser unit, runs true m pre rest → runs false (st_bind (λ _, skip_loop n) m) pre rest) as Hgo.
  { intros m Hm. eapply runs_weaken, (runs_bind true false); [done|exact Hm|]. intros _ s rest' Hr Hv' Hs.
    apply IH; [done|]. pose proof (shorter Hr (Hs eq_refl)). lia. }
  destruct (is_whitespace c); [apply Hgo; by eapply runs_advance|]. destruct (c =? ch "%"); [|by apply runs_return].
  apply Hgo. unfold runs. rewrite remaining_at. cbn [skip_comment]. apply runs_peek; [done|]. rewrite Hc.
  eapply (runs_bind true false); [done|by eapply runs_advance|]. intros _ s rest' Hr Hv' Hs.
  destruct (c =? ch "010"); [by apply runs_return|]. apply runs_skip_comment; [done|]. by apply (shorter Hr), Hs.
Qed.
Lemma runs_skip pre rest : valid rest → runs false skip_whitespace pre rest.
Proof. intros Hv. unfold runs, skip_whitespace. rewrite remaining_at. apply runs_skip_loop; [done|lia]. Qed.
Lemma runs_expect c pre rest : valid rest → runs true (expect_char c) pre rest.
Proof.
  intros Hv. unfold expect_char. eapply (runs_bind false true); [done|by apply runs_skip|]. intros _ s rest' _ Hv' _.
  apply runs_peek; [done|]. destruct (hd_error (chars rest')) as [c'|] eqn:Hc; [|by apply runs_error].
  destruct (c' =? c); [by eapply runs_advance|by apply runs_error].
Qed.

Lemma runs_expect_weak c pre rest : valid rest → runs false (expect_char c) pre rest.
Proof. intros Hv. eapply runs_weaken. by apply runs_expect. Qed.

(** The text since a position that was a boundary. *)
Lemma runs_text_since {B} b (f : bytes → parser B) pre s rest : valid (s ++ rest) → valid rest →
  (runs b (f s) (pre ++ s) rest) → runs b (st_bind f (text_since (length pre))) (pre ++ s) rest.
Proof. intros Hs Hr Hf. unfold runs. by rewrite (bind_ok _ _ _ _ _ (text_since_at pre s rest Hs Hr)). Qed.
Lemma runs_position {B} b (f : nat → parser B) pre rest : runs b (f (length pre)) pre rest → runs b (st_bind f get_position) pre rest.
Proof. done. Qed.
(** A loop followed by a check that fails when the loop took nothing. *)
Lemma runs_then {A} (m : parser unit) (f : unit → parser A) pre rest : runs false m pre rest →
  (∀ s rest', rest = s ++ rest' → valid rest' → runs (bool_decide (s = [])) (f tt) (pre ++ s) rest') → runs true (st_bind f m) pre rest.
Proof.
  intros (s & rest' & r & Hr & Hv & Hm & Hf & Hp & _) Hk. unfold runs. destruct r as [[]|e| |]; [| | |done].
  - rewrite (bind_ok _ _ _ _ _ Hm). destruct (Hk s rest' Hr Hv) as (s2 & rest2 & r2 & -> & Hv2 & Hm2 & Hf2 & Hp2 & Hs2).
    subst rest. exists (s ++ s2), rest2, r2. rewrite !app_assoc in *. split_and!; try done.
    intros a Ha _ [-> ->]%app_nil. by apply (Hs2 a).
  - unfold st_bind. rewrite Hm. by exists s, rest', (Err e); split_and!.
  - unfold st_bind. rewrite Hm. exists s, rest', Panic. split_and!; auto; discriminate.
Qed.
Lemma runs_identifier pre rest : valid rest → runs true parse_identifier pre rest.
Proof.
  intros Hv. unfold parse_identifier. apply runs_position. apply runs_then; [by apply runs_taking_while|].
  intros s rest' -> Hv'. apply runs_position. destruct (Nat.eqb _ _) eqn:Hl; [by apply runs_error|].
  rewrite bool_decide_false; [|intros ->; by rewrite app_nil_r, Nat.eqb_refl in Hl].
  apply runs_text_since; [done|done|]. by apply runs_return.
Qed.
Lemma runs_string pre rest : valid rest → runs false parse_string pre rest.
Proof.
  intros Hv. unfold parse_string. apply runs_position. eapply (runs_bind false false); [done|by apply runs_taking_while|].
  intros _ s rest' -> Hv' _. apply runs_text_since; [done|done|]. by apply runs_return.
Qed.
Lemma runs_number pre rest : valid rest → runs true parse_number pre rest.
Proof.
  intros Hv. unfold parse_number. apply runs_position. apply runs_peek; [done|]. apply runs_then.
  { destruct (hd_error (chars rest)) as [c|]; [destruct (c =? ch "-"); [by apply runs_advance_any|]|]; by apply runs_return. }
  intros s1 r1 -> Hv1. destruct (decide (s1 = [])) as [->|Hne].
  - rewrite bool_decide_true by done. apply runs_then; [by apply runs_taking_while|]. intros s2 r2 -> Hv2. rewrite !app_nil_r.
    apply runs_text_since; [done|done|]. destruct (decide (s2 = [])) as [->|Hne].
    + exists [], r2, (Err (mkParseError "Invalid number" (length pre))). rewrite !app_nil_r. by split_and!.
    + rewrite bool_decide_false by done. destruct (parse_i64 s2); [by apply runs_return|].
      apply (runs_stay _ (Err (mkParseError "Invalid number" (length pre)))); done.
  - rewrite bool_decide_false by done. eapply (runs_bind false false); [done|by apply runs_taking_while|].
    intros _ s2 r2 -> Hv2 _. rewrite <- app_assoc. apply runs_text_since; [by rewrite <- app_assoc|done|].
    destruct (parse_i64 (s1 ++ s2)); [by apply runs_return|]. apply (runs_stay _ (Err (mkParseError "Invalid number" (length pre)))); done.
Qed.

Lemma runs_list_loop {A} (item : parser A) k n acc pre rest :
  (∀ pre rest, valid rest → (length rest <= k)%nat → runs true item pre rest) →
  valid rest → (length rest <= k)%nat → (length rest < n)%nat → runs true (list_loop item n acc) pre rest.
Proof.
  intros Hitem. revert acc pre rest. induction n as [|n IH]; intros acc pre rest Hv Hk Hn; [lia|]. cbn [list_loop].
  eapply (runs_bind true false); [done|by apply Hitem|]. intros a s r1 Hr1 Hv1 Hs. pose proof (shorter Hr1 (Hs eq_refl)).
  apply runs_next; [by apply runs_skip|]. intros _ s2 r2 Hv2 Hr2.
  apply runs_peek; [done|]. case_decide; [|by apply runs_return].
  eapply runs_weaken, (runs_bind true false); [done|eapply runs_advance; [done|eassumption]|]. intros _ s3 r3 Hr3 Hv3 Hs3. pose proof (shorter Hr3 (Hs3 eq_refl)).
  apply runs_next; [by apply runs_skip|]. intros _ s4 r4 Hv4 Hr4.
  eapply runs_weaken, IH; [done|lia|lia].
Qed.
Lemma runs_term_list (item : parser Term) n pre rest :
  (∀ pre rest, valid rest → (length rest < n)%nat → runs true item pre rest) →
  valid rest → (length rest < n)%nat → runs false (parse_term_list item n) pre rest.
Proof.
  intros Hitem Hv Hn. unfold parse_term_list. apply runs_peek; [done|]. case_decide; [by apply runs_return|].
  eapply runs_weaken, (runs_list_loop _ (n - 1)); [|done|lia|lia]. intros. apply Hitem; [done|lia].
Qed.
Lemma runs_term fuel pre rest : valid rest → (length rest < fuel)%nat → runs true (parse_term fuel) pre rest.
Proof.
  revert pre rest. induction fuel as [|fuel IH]; intros pre rest Hv Hn; [lia|]. cbn [parse_term].
  apply runs_next; [by apply runs_skip|]. intros _ s0 r0 Hv0 Hr0.
  apply runs_peek; [done|]. destruct (hd_error (chars r0)) as [c|] eqn:Hc; [|by apply runs_error].
  destruct (_ || _).
  { apply runs_next; [destruct (c =? ch "?"); [by apply runs_advance_any|by apply runs_return]|]. intros _ s1 r1 Hv1 _.
    eapply (runs_bind true false); [done|by apply runs_identifier|]. intros. by apply runs_return. }
  destruct (c =? ch "034").
  { eapply (runs_bind true false); [done|by eapply runs_advance|]. intros _ s1 r1 _ Hv1 _.
    apply runs_next; [by apply runs_string|]. intros v s2 r2 Hv2 _.
    apply runs_next; [by apply runs_expect_weak|]. intros. by apply runs_return. }
  destruct (_ || _).
  { eapply (runs_bind true false); [done|by apply runs_number|]. intros. by apply runs_return. }
  destruct (is_lowercase c); [|by apply runs_error].
  eapply (runs_bind true false); [done|by apply runs_identifier|]. intros f s1 r1 Hr1 Hv1 Hs1. pose proof (shorter Hr1 (Hs1 eq_refl)).
  apply runs_next; [by apply runs_skip|]. intros _ s2 r2 Hv2 Hr2.
  apply runs_peek; [done|]. case_decide; [|by apply runs_return].
  apply runs_next; [by apply runs_advance_any|]. intros _ s3 r3 Hv3 Hr3.
  apply runs_next; [by apply runs_skip|]. intros _ s4 r4 Hv4 Hr4.
  apply runs_next.
  { apply runs_term_list; [exact IH|done|]. lia. }
  intros l s5 r5 Hv5 _. apply runs_next; [by apply runs_skip|]. intros _ s6 r6 Hv6 _.
  apply runs_next; [by apply runs_expect_weak|]. intros. by apply runs_return.
Qed.
Lemma runs_predicate fuel pre rest : valid rest → (length rest <= fuel)%nat → runs true (parse_predicate fuel) pre rest.
Proof.
  intros Hv Hn. unfold parse_predicate. eapply (runs_bind true false); [done|by apply runs_identifier|].
  intros f s1 r1 Hr1 Hv1 Hs1. pose proof (shorter Hr1 (Hs1 eq_refl)).
  apply runs_next; [by apply runs_skip|]. intros _ s2 r2 Hv2 Hr2.
  apply runs_next; [by apply runs_expect_weak|]. intros _ s3 r3 Hv3 Hr3.
  apply runs_next; [by apply runs_skip|]. intros _ s4 r4 Hv4 Hr4.
  apply runs_next.
  { apply runs_term_list; [intros; by apply runs_term|done|]. lia. }
  intros l s5 r5 Hv5 _. apply runs_next; [by apply runs_skip|]. intros _ s6 r6 Hv6 _.
  apply runs_next; [by apply runs_expect_weak|]. intros. by apply runs_return.
Qed.

Lemma ascii_boundary l i : ascii l → (i <= length l)%nat → is_char_boundary l i = true.
Proof.
  intros Hl Hi. unfold is_char_boundary. destruct i as [|i]; [done|]. destruct (l !! S i) as [b|] eqn:Hb.
  - unfold ascii in Hl. rewrite Forall_forall in Hl. specialize (Hl b (list_elem_of_lookup_2 _ _ _ Hb)). simpl in Hl. unfold utf8_cont. lia.
  - apply lookup_ge_None in Hb. apply Nat.eqb_eq. lia.
Qed.
(** Looking at a number of bytes is the only operation that can panic. *)
Lemma runs_peek_str {B} (f : option bytes → parser B) n pre rest : valid rest → (∀ o, runs false (f o) pre rest) →
  runs false (st_bind f (peek_str n)) pre rest.
Proof.
  intros Hv Hf. assert (peek_str n (at_ pre rest) = (Ok None, at_ pre rest) ∨ (∃ k, peek_str n (at_ pre rest) = (Ok (Some k), at_ pre rest))
    ∨ (peek_str n (at_ pre rest) = (Panic, at_ pre rest) ∧ ¬ ascii (pre ++ rest))) as [Hp|[[k Hp]|[Hp Ha]]].
  { unfold peek_str, reads. cbn [at_ input position]. destruct (_ <=? _)%nat eqn:Hn; [|by left]. apply Nat.leb_le in Hn. right.
    unfold slice. rewrite (proj2 (Nat.leb_le _ _)) by lia. rewrite (boundary_valid pre rest Hv). cbn [andb].
    destruct (is_char_boundary (pre ++ rest) (length pre + n)) eqn:Hb; [left; by eexists|]. right. split; [done|].
    intros Ha. rewrite ascii_boundary in Hb by done. done. }
  - unfold runs. rewrite (bind_ok _ _ _ _ _ Hp). apply Hf.
  - unfold runs. rewrite (bind_ok _ _ _ _ _ Hp). apply Hf.
  - exists [], rest, Panic. unfold st_bind. rewrite Hp, app_nil_r. by split_and!.
Qed.

Lemma runs_statement rest : valid rest → runs false parse_statement [] rest.
Proof.
  intros Hv. unfold runs, parse_statement. cbn [at_ input app]. set (fuel := S (length rest)).
  apply runs_next; [by apply runs_skip|]. intros _ s1 r1 Hv1 Hr1.
  apply runs_peek; [done|]. case_decide.
  - apply runs_next; [by apply runs_advance_any|]. intros _ s2 r2 Hv2 Hr2.
    apply runs_next; [by apply runs_expect_weak|]. intros _ s3 r3 Hv3 Hr3.
    apply runs_next; [by apply runs_skip|]. intros _ s4 r4 Hv4 Hr4.
    apply runs_next; [eapply runs_weaken, runs_predicate; [done|]|].
    { unfold fuel. lia. }
    intros q s5 r5 Hv5 _. apply runs_next; [by apply runs_skip|]. intros _ s6 r6 Hv6 _.
    apply runs_next; [by apply runs_expect_weak|]. intros. by apply runs_return.
  - apply runs_next; [eapply runs_weaken, runs_predicate; [done|unfold fuel; lia]|]. intros h s2 r2 Hv2 Hr2.
    apply runs_next; [by apply runs_skip|]. intros _ s3 r3 Hv3 Hr3.
    apply runs_peek; [done|]. case_decide.
    { apply runs_next; [by apply runs_advance_any|]. intros. by apply runs_return. }
    apply runs_peek_str; [done|]. intros o. case_decide; [|by apply runs_error].
    apply runs_next; [by apply runs_advance_any|]. intros _ s4 r4 Hv4 Hr4.
    apply runs_next; [by apply runs_advance_any|]. intros _ s5 r5 Hv5 Hr5.
    apply runs_next; [by apply runs_skip|]. intros _ s6 r6 Hv6 Hr6.
    apply runs_next; [eapply runs_weaken, (runs_list_loop _ (length rest)); [|done|lia|unfold fuel; lia]|].
    { intros. apply runs_predicate; [done|unfold fuel; lia]. }
    intros b s7 r7 Hv7 _. apply runs_next; [by apply runs_skip|]. intros _ s8 r8 Hv8 _.
    apply runs_next; [by apply runs_expect_weak|]. intros. by apply runs_return.
Qed.

Context `{!CharLaws}.

Lemma no_skip_ascii b rest : 0 <= b < 128 → in_range 9 13 b || (b =? 32) || (b =? ch "%") = false → no_skip (b :: rest).
Proof.
  intros Hb [Hw Hp%Z.eqb_neq]%orb_false_iff. unfold no_skip, stops. rewrite next_ascii by lia. split; [|congruence].
  intros c [= <-]. by rewrite ascii_whitespace.
Qed.
Lemma expect_at pre b rest : 0 <= b < 128 → in_range 9 13 b || (b =? 32) || (b =? ch "%") = false → valid rest →
  expect_char b (at_ pre (b :: rest)) = (Ok tt, at_ (pre ++ [b]) rest).
Proof.
  intros Hb Hn Hr. unfold expect_char, st_bind.
  rewrite skip_none; [|by rewrite valid_ascii by lia|by apply no_skip_ascii].
  rewrite peek_at by by rewrite valid_ascii by lia. rewrite next_ascii by lia. rewrite Z.eqb_refl.
  apply advance_ascii; [lia|done].
Qed.

(** ** Identifiers, strings, numbers *)
Definition ident_char (c : Z) : bool := is_alphanumeric c || (c =? ch "_").
Definition ident (v : string) : bool :=
  utf8_valid (string_bytes v) && forallb ident_char (chars (string_bytes v)) && bool_decide (string_bytes v ≠ []).

Lemma ident_spec v : ident v = true →
  valid (string_bytes v) ∧ forallb ident_char (chars (string_bytes v)) = true ∧ string_bytes v ≠ [].
Proof. intros [[? ?]%andb_true_iff ?%bool_decide_eq_true]%andb_true_iff. done. Qed.
Lemma ident_no_skip v rest : ident v = true → no_skip (string_bytes v ++ rest).
Proof.
  intros (Hv & Hf & Hne)%ident_spec. unfold no_skip, stops. rewrite text_chars_app by done.
  destruct (chars (string_bytes v)) as [|c cs] eqn:Hc; [by apply chars_nil in Hc|]. simpl in Hf |- *.
  apply andb_true_iff in Hf as [Hf _]. split.
  - intros c' [= <-]. apply not_true_iff_false. intros Hw. unfold ident_char in Hf. rewrite (whitespace_not_alphanumeric c Hw) in Hf.
    simpl in Hf. apply Z.eqb_eq in Hf as ->. by rewrite ascii_whitespace in Hw by done.
  - intros [= ->]. unfold ident_char in Hf. by rewrite ascii_alphanumeric in Hf by done.
Qed.
Lemma parse_identifier_at v pre rest : ident v = true → valid rest → stops ident_char rest →
  parse_identifier (at_ pre (string_bytes v ++ rest)) = (Ok v, at_ (pre ++ string_bytes v) rest).
Proof.
  intros (Hv & Hf & Hne)%ident_spec Hr Hs. unfold parse_identifier, get_position. unfold st_bind at 1. simpl.
  unfold st_bind at 1. rewrite taking_while_at by done. unfold st_bind at 1. rewrite get_position_at.
  destruct (Nat.eqb _ _) eqn:Hl.
  { apply Nat.eqb_eq in Hl. rewrite length_app in Hl. destruct (string_bytes v); [done|simpl in Hl; lia]. }
  unfold st_bind. rewrite text_since_at by (by rewrite ?valid_app). by rewrite bytes_string_bytes.
Qed.

Definition text (v : string) : bool :=
  utf8_valid (string_bytes v) && forallb (λ c, negb (c =? ch "034")) (chars (string_bytes v)).
Lemma parse_string_at v pre rest : text v = true → valid rest →
  parse_string (at_ pre (string_bytes v ++ ch "034" :: rest)) = (Ok v, at_ (pre ++ string_bytes v) (ch "034" :: rest)).
Proof.
  intros [Hv Hf]%andb_true_iff Hr. assert (valid (ch "034" :: rest)) as Hr' by by rewrite valid_ascii.
  unfold parse_string. unfold st_bind at 1. rewrite get_position_at.
  unfold st_bind at 1. rewrite taking_while_at; [|done..|by intros c [= <-]].
  unfold st_bind. rewrite text_since_at by (by rewrite ?valid_app). by rewrite bytes_string_bytes.
Qed.

(** A number prints as digits that read as it. *)
Definition digits (l : bytes) : bool := forallb is_ascii_digit l.
Lemma digit_char d (s : string) : (d < 10)%N →
  ∃ b, string_bytes (String (pretty_N_char d) s) = b :: string_bytes s ∧ is_ascii_digit b = true ∧ b - 48 = Z.of_N d.
Proof.
  intros Hd. unfold string_bytes. simpl. eexists. split; [done|].
  assert (d = 0 ∨ d = 1 ∨ d = 2 ∨ d = 3 ∨ d = 4 ∨ d = 5 ∨ d = 6 ∨ d = 7 ∨ d = 8 ∨ d = 9)%N as Hc by lia.
  by destruct Hc as [->|[->|[->|[->|[->|[->|[->|[->|[->| ->]]]]]]]]].
Qed.
Lemma pretty_N_go_bytes x (s : string) : ∃ l, string_bytes (pretty_N_go x s) = l ++ string_bytes s ∧ digits l = true
  ∧ decimal l = Z.of_N x ∧ ((0 < x)%N → l ≠ []).
Proof.
  revert s. induction (N.lt_wf_0 x) as [x _ IH]. intros s. destruct (decide (0 < x)%N) as [Hx|Hx].
  - rewrite pretty_N_go_step by done. destruct (IH (x `div` 10)%N ltac:(by apply N.div_lt) (String (pretty_N_char (x mod 10)) s)) as (l & -> & Hd & Hv & _).
    pose proof (N.mod_lt x 10 ltac:(done)) as Hm. pose proof (N.div_mod x 10 ltac:(done)) as Hdiv.
    destruct (digit_char (x mod 10) s Hm) as (b & -> & Hb & Hb').
    exists (l ++ [b]). rewrite <- app_assoc. split; [done|]. unfold digits in *. rewrite forallb_app, Hd. simpl. rewrite Hb.
    split; [done|]. split; [|by destruct l]. unfold decimal in *. rewrite foldl_app, Hv. simpl. lia.
  - exists []. assert (x = 0%N) as -> by lia. done.
Qed.
Lemma pretty_Z_bytes n : ∃ l, l ≠ [] ∧ digits l = true ∧ decimal l = Z.abs n
  ∧ string_bytes (pretty n) = (if n <? 0 then ch "-" :: l else l).
Proof.
  destruct n as [|q|q]; [by exists [48]|..].
  all: destruct (pretty_N_go_bytes (Npos q) "") as (l & Hl & Hd & Hv & Hne); change (string_bytes "") with (@nil Z) in Hl; rewrite app_nil_r in Hl;
    exists l; (split; [by apply Hne|]); (split; [done|]); (split; [done|]).
  - simpl. rewrite <- Hl. done.
  - change (string_bytes (pretty (Z.neg q))) with (ch "-" :: string_bytes (pretty_N_go (Npos q) "")). by rewrite Hl.
Qed.
Lemma digits_cons l : digits l = true → l ≠ [] → ∃ b l', l = b :: l' ∧ 0x30 <= b <= 0x39.
Proof. destruct l as [|b l']; [done|]. simpl. unfold is_ascii_digit, in_range. intros Hd _. exists b, l'. split; [done|]. lia. Qed.
Lemma parse_i64_pretty n : in_range (- 2 ^ 63) (2 ^ 63 - 1) n = true → parse_i64 (string_bytes (pretty n)) = Some n.
Proof.
  intros Hn. destruct (pretty_Z_bytes n) as (l & Hne & Hd & Hv & ->). destruct (digits_cons l Hd Hne) as (b & l' & -> & Hb).
  unfold parse_i64. destruct (n <? 0) eqn:Hs.
  - change (ch "-" =? ch "-") with true. cbv beta iota zeta. unfold digits in Hd. rewrite Hd, Hv. replace (-1 * Z.abs n) with n by lia. by rewrite Hn.
  - rewrite (proj2 (Z.eqb_neq b (ch "-"))) by (unfold ch; simpl; lia). rewrite (proj2 (Z.eqb_neq b (ch "+"))) by (unfold ch; simpl; lia).
    cbv beta iota zeta. unfold digits in Hd. rewrite Hd, Hv. replace (1 * Z.abs n) with n by lia. by rewrite Hn.
Qed.

Lemma digits_text l : digits l = true → valid l ∧ forallb is_ascii_digit (chars l) = true.
Proof.
  induction l as [|b l IH]; [done|]. simpl. intros [Hb Hl]%andb_true_iff. unfold is_ascii_digit, in_range in Hb.
  assert (b <? 0x80 = true) as -> by lia. destruct (IH Hl) as [Hv Hf]. split; [done|]. simpl. by rewrite Hf, andb_true_r.
Qed.
Lemma parse_number_at n pre rest : in_range (- 2 ^ 63) (2 ^ 63 - 1) n = true → valid rest → stops is_ascii_digit rest →
  parse_number (at_ pre (string_bytes (pretty n) ++ rest)) = (Ok n, at_ (pre ++ string_bytes (pretty n)) rest).
Proof.
  intros Hn Hr Hs. pose proof (parse_i64_pretty n Hn) as Hp. destruct (pretty_Z_bytes n) as (l & Hne & Hd & _ & Hl). rewrite Hl in *.
  destruct (digits_text l Hd) as [Hv Hf]. assert (valid (l ++ rest)) as Hv' by by rewrite valid_app.
  destruct (digits_cons l Hd Hne) as (b & l' & Hl' & Hb). unfold parse_number. unfold st_bind at 1. rewrite get_position_at.
  unfold st_bind at 1. destruct (n <? 0).
  - rewrite peek_at by done. cbn [app]. rewrite next_ascii, Z.eqb_refl by done. unfold st_bind at 1. rewrite advance_ascii by done.
    unfold st_bind at 1. rewrite taking_while_at by done. unfold st_bind.
    replace ((pre ++ [ch "-"]) ++ l) with (pre ++ ch "-" :: l) by by rewrite <- app_assoc.
    rewrite text_since_at by done.
    simpl. by rewrite Hp.
  - rewrite peek_at by done. rewrite Hl' at 1. cbn [app]. rewrite next_ascii by lia. rewrite (proj2 (Z.eqb_neq b (ch "-"))) by (unfold ch; simpl; lia).
    unfold st_bind at 1. cbn [lift]. unfold st_bind at 1. rewrite taking_while_at by done. unfold st_bind. rewrite text_since_at by done.
    simpl. by rewrite Hp.
Qed.

(** One operation of a chain, at a boundary. *)
Ltac op_peek := erewrite bind_ok by (by apply peek_at).
Ltac op_advance := erewrite bind_ok by (by apply advance_ascii).
Ltac op_skip := erewrite bind_ok by (apply skip_none; [done|by apply no_skip_ascii]).
Ltac op_space := erewrite bind_ok by (apply skip_space; [done|by rewrite ascii_whitespace|done|done]).
Ltac op_expect := erewrite bind_ok by (by apply expect_at).

(** ** Lists, terms, predicates *)
Notation txt := string_bytes.

(** Text that [item] reads as [x] up to a comma or the end [e] of the list. *)
Definition reads_back {A} (item : parser A) (s : string) (e : Z) (x : A) : Prop :=
  valid (txt s) ∧ (∀ r, no_skip (txt s ++ r)) ∧
  ∀ pre b r, b = ch "," ∨ b = e → valid r → item (at_ pre (txt s ++ b :: r)) = (Ok x, at_ (pre ++ txt s) (b :: r)).
Definition list_end (e : Z) : Prop :=
  0 <= e < 128 ∧ e ≠ ch "," ∧ in_range 9 13 e || (e =? 32) || (e =? ch "%") = false.

Lemma list_loop_at {A} (item : parser A) (show : A → string) e xs : list_end e → xs ≠ [] →
  (∀ x, x ∈ xs → reads_back item (show x) e x) →
  valid (txt (String.concat ", " (map show xs))) ∧ (∀ r, no_skip (txt (String.concat ", " (map show xs)) ++ r)) ∧
  ∀ n acc pre rest, (length xs <= n)%nat → valid rest →
    list_loop item n acc (at_ pre (txt (String.concat ", " (map show xs)) ++ e :: rest))
    = (Ok (acc ++ xs), at_ (pre ++ txt (String.concat ", " (map show xs))) (e :: rest)).
Proof.
  intros (He & Hcomma & Hskip) Hne Hitem. induction xs as [|x xs IH]; [done|]. clear Hne.
  destruct (Hitem x ltac:(left)) as (Hv & Hs & Hx). destruct xs as [|y xs].
  - simpl. split; [done|]. split; [done|]. intros n acc pre rest Hn Hr. destruct n as [|n]; [lia|]. cbn [list_loop].
    rewrite (bind_ok _ _ _ _ _ (Hx pre e rest ltac:(by right) Hr)).
    erewrite bind_ok by (apply skip_none; [by rewrite valid_ascii by lia|by apply no_skip_ascii]).
    erewrite bind_ok by (apply peek_at; by rewrite valid_ascii by lia). rewrite next_ascii by lia.
    rewrite decide_False by congruence. done.
  - cbn [map]. rewrite concat_cons, !string_bytes_app. change (txt ", ") with ([ch ","; 32]).
    destruct IH as (Hv' & Hs' & IH); [done|intros z Hz; apply Hitem; by right|].
    change (map show (y :: xs)) with (show y :: map show xs) in Hv', Hs', IH. set (more := txt (String.concat ", " (show y :: map show xs))) in *.
    assert (∀ r, valid r → valid (more ++ r)) as Hm by (intros r Hr; by rewrite valid_app).
    split; [by rewrite valid_app|]. split; [intros r; by rewrite <- app_assoc|].
    intros n acc pre rest Hn Hr. destruct n as [|n]; [simpl in Hn; lia|]. cbn [list_loop].
    assert (valid (e :: rest)) as Hr' by by rewrite valid_ascii by lia.
    rewrite <- !app_assoc. cbn [app]. rewrite (bind_ok _ _ _ _ _ (Hx pre (ch ",") (32 :: more ++ e :: rest) ltac:(by left) (Hm _ Hr'))).
    erewrite bind_ok by (apply skip_none; [exact (Hm _ Hr')|by apply no_skip_ascii]).
    erewrite bind_ok by (apply peek_at; exact (Hm _ Hr')). rewrite next_ascii by done. rewrite decide_True by done.
    erewrite bind_ok by (apply advance_ascii; [done|exact (Hm _ Hr')]).
    erewrite bind_ok by (apply skip_space; [done|by rewrite ascii_whitespace|exact (Hm _ Hr')|apply Hs']).
    rewrite IH by (done || simpl in *; lia). by rewrite <- !app_assoc.
Qed.

Definition fun_name (f : string) : bool :=
  ident f && match chars (txt f) with c :: _ => is_lowercase c && negb (is_uppercase c) | [] => false end.
(** The terms whose text is Datalog: identifiers for names, strings without quotes, no Booleans, floats
    or references. *)
Fixpoint printable (t : Term) : bool :=
  match t with
  | Var v => ident v
  | Const (CString s) => text s
  | Const (CInt n) => in_range (- 2 ^ 63) (2 ^ 63 - 1) n
  | Fun f args => fun_name f && forallb printable args
  | _ => false
  end.
Definition printable_predicate (p : Predicate) : bool := ident (name p) && forallb printable (args p).
Definition printable_rule (r : Rule) : bool := printable_predicate (head r) && forallb printable_predicate (body r).

Fixpoint tsize (t : Term) : nat :=
  match t with Fun _ args => S (sum_list_with tsize args) | _ => 1 end.
Lemma tsize_list args : (length args <= sum_list_with tsize args)%nat ∧ ∀ t, t ∈ args → (tsize t <= sum_list_with tsize args)%nat.
Proof.
  assert (∀ t, (1 <= tsize t)%nat) as Hpos by (intros []; simpl; lia).
  split; [|intros t Ht; by apply sum_list_with_in]. induction args as [|t args IH]; [done|]. simpl. specialize (Hpos t). lia.
Qed.

Lemma stops_ascii f b rest : b < 0x80 → f b = false → stops f (b :: rest).
Proof. intros Hb Hf c. rewrite next_ascii by done. by intros [= <-]. Qed.
Lemma ident_stops b rest : b = ch "," ∨ b = ch ")" ∨ b = ch "(" → stops ident_char (b :: rest).
Proof.
  intros Hb. apply stops_ascii; [destruct Hb as [->|[->| ->]]; done|].
  unfold ident_char. destruct Hb as [->|[->| ->]]; by rewrite ascii_alphanumeric by done.
Qed.

Lemma fun_name_first f r : fun_name f = true → ∃ c, hd_error (chars (txt f ++ r)) = Some c ∧ is_lowercase c = true ∧ is_uppercase c = false
  ∧ c ≠ ch "?" ∧ c ≠ ch "034" ∧ is_ascii_digit c || (c =? ch "-") = false ∧ is_whitespace c = false ∧ c ≠ ch "%" ∧ c ≠ ch ")".
Proof.
  intros [Hi Hf]%andb_true_iff. pose proof (ident_no_skip f r Hi) as [Hw Hp].
  destruct (ident_spec f Hi) as (Hv & _ & _). unfold stops in Hw. rewrite text_chars_app in * by done.
  destruct (chars (txt f)) as [|c cs]; [done|]. apply andb_true_iff in Hf as [Hl Hu%negb_true_iff]. exists c.
  assert (¬ (0 <= c < 0x61)) as Hc.
  { intros Hc. rewrite ascii_lowercase in Hl by lia. unfold in_range in Hl. lia. }
  split; [done|]. split; [done|]. split; [done|]. split; [intros ->; by apply Hc|].
  split; [intros ->; by apply Hc|]. split.
  { apply not_true_iff_false. unfold is_ascii_digit, in_range. change (ch "-") with 45. intros Hd. lia. }
  split; [by apply Hw|]. split; [by intros ->; apply Hp|]. intros ->. by apply Hc.
Qed.

Context `{!CidText}.

(** The first character of the text of a term. *)
Lemma display_term_first t r : printable t = true → ∃ c, hd_error (chars (txt (display_term t) ++ r)) = Some c
  ∧ is_whitespace c = false ∧ c ≠ ch "%" ∧ c ≠ ch ")".
Proof.
  destruct t as [v|[s|n|b|s]|f args|q]; try done; intros Hp; cbn [display_term display_constant].
  - exists (ch "?"). split; [done|]. by rewrite ascii_whitespace.
  - exists (ch "034"). split; [done|]. by rewrite ascii_whitespace.
  - destruct (pretty_Z_bytes n) as (l & Hne & Hd & _ & ->). destruct (digits_cons l Hd Hne) as (b & l' & -> & Hb). destruct (n <? 0).
    + exists (ch "-"). split; [done|]. by rewrite ascii_whitespace.
    + exists b. cbn [app]. rewrite next_ascii by lia. split; [done|]. change (ch "%") with 37. change (ch ")") with 41.
      rewrite ascii_whitespace by lia. unfold in_range. split; [|lia]. apply orb_false_iff. lia.
  - simpl in Hp. apply andb_true_iff in Hp as [Hf _]. rewrite string_bytes_app, <- app_assoc.
    destruct (fun_name_first f (txt ("(" +:+ String.concat ", " (map display_term args) +:+ ")") ++ r) Hf) as (c & Hc & _ & _ & _ & _ & _ & Hw & Hp & Hq).
    by exists c.
Qed.
Lemma first_no_skip rest c : hd_error (chars rest) = Some c → is_whitespace c = false → c ≠ ch "%" → no_skip rest.
Proof. intros Hc Hw Hp. split; [intros c' Hc'; congruence|congruence]. Qed.

Lemma parse_args_at (item : parser Term) args n pre rest : forallb printable args = true → (length args <= n)%nat → valid rest →
  (∀ t, t ∈ args → reads_back item (display_term t) (ch ")") t) →
  let l := txt (String.concat ", " (map display_term args)) in
  valid l ∧ no_skip (l ++ ch ")" :: rest) ∧ parse_term_list item n (at_ pre (l ++ ch ")" :: rest)) = (Ok args, at_ (pre ++ l) (ch ")" :: rest)).
Proof.
  intros Hp Hn Hr Hitem l. assert (valid (ch ")" :: rest)) as Hr' by done. unfold parse_term_list.
  destruct (decide (args = [])) as [->|Hne].
  - split; [done|]. split; [by apply no_skip_ascii|]. op_peek.
    rewrite app_nil_r. done.
  - destruct (list_loop_at item display_term (ch ")") args) as (Hv & Hs & Hl); [by split_and!|done|done|].
    fold l in Hv, Hs, Hl. split; [done|]. split; [done|]. erewrite bind_ok by (apply peek_at; by rewrite valid_app).
    rewrite decide_False; [by rewrite Hl|]. destruct args as [|t args]; [done|]. simpl in Hp. apply andb_true_iff in Hp as [Hp _].
    assert (∃ more, l = txt (display_term t) ++ more) as [more ->].
    { unfold l. destruct args as [|u args]; [by exists []; rewrite app_nil_r|]. cbn [map]. rewrite concat_cons, string_bytes_app. by eexists. }
    rewrite <- app_assoc. destruct (display_term_first t (more ++ ch ")" :: rest) Hp) as (c & -> & _ & _ & Hc). congruence.
Qed.

(** Each kind of term is read back; what is shared by the four cases. *)
Lemma list_end_valid b r : b = ch "," ∨ b = ch ")" → valid r → valid (b :: r).
Proof. by intros [->| ->]. Qed.
Lemma display_no_skip t r : printable t = true → no_skip (txt (display_term t) ++ r).
Proof. intros Hp. destruct (display_term_first t r Hp) as (c & Hc & Hw & Hpc & _). by eapply first_no_skip. Qed.

Lemma parse_var_at v fuel : ident v = true → reads_back (parse_term (S fuel)) (display_term (Var v)) (ch ")") (Var v).
Proof.
  intros Hp. pose proof (display_no_skip (Var v)) as Hns. destruct (ident_spec v Hp) as (Hv & _ & _). unfold reads_back.
  change (txt (display_term (Var v))) with (ch "?" :: txt v) in *. split; [done|]. split; [by auto|].
  intros pre b r Hbr Hr. pose proof (list_end_valid b r Hbr Hr) as Hb.
  assert (valid (txt v ++ b :: r)) as Hvr by by rewrite valid_app. cbn [parse_term].
  erewrite bind_ok by (apply skip_none; [done|by apply Hns]). op_peek. cbn [app].
  rewrite next_ascii by done. change (ch "?" =? ch "?") with true. cbn [orb].
  op_advance. erewrite bind_ok by (apply parse_identifier_at; [done|done|apply ident_stops; naive_solver]).
  unfold lift. by rewrite <- app_assoc.
Qed.

Lemma parse_str_at (s : string) fuel : text s = true → reads_back (parse_term (S fuel)) (display_term (Const (CString s))) (ch ")") (Const (CString s)).
Proof.
  intros Hp. pose proof (display_no_skip (Const (CString s))) as Hns. pose proof (proj1 (proj1 (andb_true_iff _ _) Hp)) as Hv. unfold reads_back.
  replace (txt (display_term (Const (CString s)))) with (ch "034" :: txt s ++ [ch "034"]) in * by (simpl; by rewrite !string_bytes_app).
  split; [rewrite valid_ascii by done; by rewrite valid_app|]. split; [by auto|].
  intros pre b r Hbr Hr. pose proof (list_end_valid b r Hbr Hr) as Hb. specialize (Hns (b :: r) Hp).
  assert (valid (txt s ++ ch "034" :: b :: r)) as Hvr by (rewrite valid_app by done; by rewrite valid_ascii).
  cbn [parse_term app] in *. rewrite <- app_assoc in *. cbn [app] in *.
  erewrite bind_ok by (apply skip_none; [by rewrite valid_ascii|done]). erewrite bind_ok by (apply peek_at; by rewrite valid_ascii).
  rewrite next_ascii by done. change (ch "034" =? ch "?") with false. rewrite ascii_uppercase by done. change (ch "034" =? ch "034") with true.
  change (in_range 65 90 (ch "034")) with false. cbn [orb].
  op_advance. erewrite bind_ok by (by apply parse_string_at).
  op_expect. unfold lift. by rewrite <- !app_assoc.
Qed.

(** The first character of a number. *)
Lemma pretty_first (n : Z) r : valid (txt (pretty n)) ∧ ∃ c, hd_error (chars (txt (pretty n) ++ r)) = Some c ∧ 0 <= c < 128
  ∧ (is_ascii_digit c || (c =? ch "-") = true) ∧ in_range 65 90 c = false ∧ c ≠ ch "?" ∧ c ≠ ch "034".
Proof.
  destruct (pretty_Z_bytes n) as (l & Hne & Hd & _ & ->). destruct (digits_cons l Hd Hne) as (d & l' & Hl' & Hrange).
  destruct (digits_text l Hd) as [Hv _]. split; [by destruct (n <? 0)|].
  rewrite Hl'. destruct (n <? 0); [exists (ch "-"); done|]. exists d. cbn [app]. rewrite next_ascii by lia.
  unfold is_ascii_digit, in_range. change (ch "-") with 45. change (ch "?") with 63. change (ch "034") with 34.
  split_and!; [done|lia|lia|lia|lia|lia|lia].
Qed.
Lemma parse_num_at n fuel : in_range (- 2 ^ 63) (2 ^ 63 - 1) n = true →
  reads_back (parse_term (S fuel)) (display_term (Const (CInt n))) (ch ")") (Const (CInt n)).
Proof.
  intros Hp. pose proof (display_no_skip (Const (CInt n))) as Hns. unfold reads_back.
  change (display_term (Const (CInt n))) with (pretty n : string) in *. split; [apply (pretty_first n [])|]. split; [by auto|].
  intros pre b r Hbr Hr. pose proof (list_end_valid b r Hbr Hr) as Hb.
  destruct (pretty_first n (b :: r)) as (Hv & c & Hc & Hrange & Hdig & Hup & Hq1 & Hq2).
  assert (valid (txt (pretty n) ++ b :: r)) as Hvr by by rewrite valid_app. cbn [parse_term].
  erewrite bind_ok by (apply skip_none; [done|by apply Hns]). op_peek.
  rewrite Hc, ascii_uppercase, Hup, Hdig by done. rewrite !(proj2 (Z.eqb_neq _ _)) by done. cbn [orb].
  erewrite bind_ok by (apply parse_number_at; [done..|]; destruct Hbr as [->| ->]; by apply stops_ascii). done.
Qed.

Lemma parse_fun_at f args fuel : fun_name f = true → forallb printable args = true → (length args <= fuel)%nat →
  (∀ t, t ∈ args → reads_back (parse_term fuel) (display_term t) (ch ")") t) →
  reads_back (parse_term (S fuel)) (display_term (Fun f args)) (ch ")") (Fun f args).
Proof.
  intros Hf Hargs Hlen Hitem. pose proof (display_no_skip (Fun f args)) as Hns. pose proof (parse_args_at (parse_term fuel) args fuel) as Ha.
  destruct (ident_spec f (proj1 (proj1 (andb_true_iff _ _) Hf))) as (Hv & _ & _). set (l := txt (String.concat ", " (map display_term args))) in *.
  assert (txt (display_term (Fun f args)) = txt f ++ ch "(" :: l ++ [ch ")"]) as E by (simpl; by rewrite !string_bytes_app).
  assert (printable (Fun f args) = true) as Hp by (simpl; by rewrite Hf). rewrite E in Hns. unfold reads_back. rewrite E.
  assert (valid l) as Hl by (by apply (Ha [] [])). split; [rewrite valid_app, valid_ascii by done; by rewrite valid_app|]. split; [by auto|].
  intros pre b r Hbr Hr. pose proof (list_end_valid b r Hbr Hr) as Hb. specialize (Hns (b :: r) Hp).
  rewrite <- app_assoc in Hns |- *. cbn [app] in *. rewrite <- app_assoc in Hns |- *. cbn [app] in *.
  assert (valid (l ++ ch ")" :: b :: r)) as Hvl by (by rewrite valid_app).
  assert (valid (txt f ++ ch "(" :: l ++ ch ")" :: b :: r)) as Hvr by (by rewrite valid_app). cbn [parse_term].
  erewrite bind_ok by (by apply skip_none). op_peek.
  destruct (fun_name_first f (ch "(" :: l ++ ch ")" :: b :: r) Hf) as (c & -> & Hlow & Hup & Hq1 & Hq2 & Hdig & _).
  rewrite Hup, Hdig, Hlow, !(proj2 (Z.eqb_neq _ _)) by done. cbn [orb].
  erewrite bind_ok by (apply parse_identifier_at; [by apply andb_true_iff in Hf as [? _]|done|apply ident_stops; naive_solver]).
  op_skip. op_peek.
  rewrite next_ascii, decide_True by done. op_advance.
  destruct (Ha ((pre ++ txt f) ++ [ch "("]) (b :: r) Hargs Hlen Hb Hitem) as (_ & Hnl & Hat).
  erewrite bind_ok by (by apply skip_none). erewrite bind_ok by exact Hat.
  op_skip.
  op_expect. unfold lift. f_equal. by rewrite <- !app_assoc.
Qed.

Lemma parse_term_at t : printable t = true → ∀ fuel, (tsize t <= fuel)%nat → reads_back (parse_term fuel) (display_term t) (ch ")") t.
Proof.
  induction t as [v|[s|n|b|s]|f args IH|q] using Term_ind'; intros Hp [|fuel] Hfuel; try (simpl in Hfuel; lia); try done.
  - by apply parse_var_at.
  - by apply parse_str_at.
  - by apply parse_num_at.
  - simpl in Hp, Hfuel. apply andb_true_iff in Hp as [Hf Hargs]. destruct (tsize_list args) as [Hlen Hsize]. rewrite Forall_forall in IH.
    apply parse_fun_at; [done|done|lia|]. intros t Ht. apply IH; [done| |specialize (Hsize t Ht); lia].
    rewrite forallb_forall in Hargs. by apply Hargs, list_elem_of_In.
Qed.

Definition psize (p : Predicate) : nat := sum_list_with tsize (args p).
Lemma parse_predicate_at p fuel pre rest : printable_predicate p = true → (psize p <= fuel)%nat → valid rest →
  parse_predicate fuel (at_ pre (txt (display_predicate p) ++ rest)) = (Ok p, at_ (pre ++ txt (display_predicate p)) rest)
  ∧ valid (txt (display_predicate p)).
Proof.
  destruct p as [f args]. intros [Hi Hargs]%andb_true_iff Hfuel Hr. unfold psize in Hfuel. simpl in Hfuel, Hi, Hargs.
  destruct (ident_spec f Hi) as (Hv & _ & _). destruct (tsize_list args) as [Hlen Hsize].
  assert (∀ t, t ∈ args → reads_back (parse_term fuel) (display_term t) (ch ")") t) as Hitem.
  { intros t Ht. apply parse_term_at; [|specialize (Hsize t Ht); lia]. rewrite forallb_forall in Hargs. by apply Hargs, list_elem_of_In. }
  pose proof (parse_args_at (parse_term fuel) args fuel) as Ha. unfold display_predicate. simpl name. simpl Ir.args.
  set (l := txt (String.concat ", " (map display_term args))) in *. rewrite !string_bytes_app. fold l. change (txt "(") with [ch "("]. change (txt ")") with [ch ")"].
  assert (valid l) as Hl by (apply (Ha [] []); [done|lia|done|done]). split; [|rewrite valid_app by done; cbn [app]; rewrite valid_ascii by done; by rewrite valid_app].
  rewrite <- !app_assoc. cbn [app]. assert (valid (l ++ ch ")" :: rest)) as Hvl by (by rewrite valid_app).
  assert (valid (txt f ++ ch "(" :: l ++ ch ")" :: rest)) as Hvr by (by rewrite valid_app). unfold parse_predicate.
  erewrite bind_ok by (apply parse_identifier_at; [done|done|apply ident_stops; naive_solver]).
  op_skip. op_expect.
  destruct (Ha ((pre ++ txt f) ++ [ch "("]) rest Hargs ltac:(lia) Hr Hitem) as (_ & Hnl & Hat).
  erewrite bind_ok by (by apply skip_none). erewrite bind_ok by exact Hat.
  op_skip.
  op_expect. unfold lift. f_equal. by rewrite <- !app_assoc.
Qed.
Lemma predicate_reads_back p fuel e : printable_predicate p = true → (psize p <= fuel)%nat → e < 0x80 →
  reads_back (parse_predicate fuel) (display_predicate p) e p.
Proof.
  intros Hp Hs He. split; [by eapply (parse_predicate_at p fuel [] [])|]. split.
  - intros r. unfold display_predicate. rewrite string_bytes_app, <- app_assoc. apply ident_no_skip. by apply andb_true_iff in Hp as [? _].
  - intros pre b r Hb Hr. apply parse_predicate_at; [done|done|]. destruct Hb as [->| ->]; by rewrite valid_ascii.
Qed.

(** ** The text is as long as the size *)
Lemma concat_size {A} (show : A → string) (size : A → nat) xs : (∀ x, x ∈ xs → (size x <= length (txt (show x)))%nat) →
  (sum_list_with size xs <= length (txt (String.concat ", " (map show xs))))%nat.
Proof.
  induction xs as [|x xs IH]; intros Hs; [simpl; lia|]. pose proof (Hs x ltac:(left)) as Hx. specialize (IH (λ y Hy, Hs y ltac:(by right))).
  destruct xs as [|y xs]; [simpl in *; lia|]. cbn [map]. rewrite concat_cons, !string_bytes_app, !length_app.
  cbn [map sum_list_with] in *. lia.
Qed.
Lemma tsize_text t : printable t = true → (tsize t <= length (txt (display_term t)))%nat.
Proof.
  induction t as [v|[s|n|b|s]|f args IH|q] using Term_ind'; intros Hp; try discriminate Hp.
  - simpl. lia.
  - cbn [display_term display_constant]. rewrite string_bytes_app, length_app. simpl. lia.
  - cbn [display_term display_constant]. destruct (pretty_Z_bytes n) as (l & Hne & _ & _ & ->). destruct l, (n <? 0); simpl; (done || lia).
  - simpl in Hp. apply andb_true_iff in Hp as [_ Hp]. rewrite forallb_forall in Hp. rewrite Forall_forall in IH.
    cbn [tsize display_term]. rewrite !string_bytes_app, !length_app. change (length (txt "(")) with 1%nat.
    enough (sum_list_with tsize args <= length (txt (String.concat ", " (map display_term args))))%nat by lia.
    apply concat_size. intros t Ht. apply IH; [done|]. by apply Hp, list_elem_of_In.
Qed.
Lemma psize_text p : printable_predicate p = true → (psize p < length (txt (display_predicate p)))%nat.
Proof.
  intros [_ Hp]%andb_true_iff. rewrite forallb_forall in Hp. unfold psize, display_predicate. rewrite !string_bytes_app, !length_app.
  change (length (txt "(")) with 1%nat. enough (sum_list_with tsize (args p) <= length (txt (String.concat ", " (map display_term (args p)))))%nat by lia.
  apply concat_size. intros t Ht. by apply tsize_text, Hp, list_elem_of_In.
Qed.

(** ** Statements *)
Lemma peek_str_at pre k rest : valid (k ++ rest) → valid rest → peek_str (length k) (at_ pre (k ++ rest)) = (Ok (Some k), at_ pre (k ++ rest)).
Proof.
  intros Hk Hr. unfold peek_str, reads, at_. cbn [input position]. rewrite (proj2 (Nat.leb_le _ _)) by (rewrite !length_app; lia).
  rewrite <- length_app. by rewrite slice_mid.
Qed.
Lemma no_skip_predicate p r : printable_predicate p = true → no_skip (txt (display_predicate p) ++ r).
Proof. intros [Hp _]%andb_true_iff. unfold display_predicate. rewrite string_bytes_app, <- app_assoc. by apply ident_no_skip. Qed.
Lemma predicate_not_query p r : printable_predicate p = true → hd_error (chars (txt (display_predicate p) ++ r)) ≠ Some (ch "?").
Proof.
  intros [Hp _]%andb_true_iff. unfold display_predicate. rewrite string_bytes_app, <- app_assoc.
  destruct (ident_spec (name p) Hp) as (Hv & Hf & Hne). rewrite text_chars_app by done.
  destruct (chars (txt (name p))) as [|c cs] eqn:Hc; [by apply chars_nil in Hc|]. simpl in Hf |- *. intros [= ->].
  unfold ident_char in Hf. by rewrite ascii_alphanumeric in Hf by done.
Qed.

Lemma parse_statement_query p tail : printable_predicate p = true → valid (txt tail) →
  parse_statement (DatalogParser_new ("?- " +:+ display_predicate p +:+ "." +:+ tail))
  = (Ok (SQuery p), at_ (txt ("?- " +:+ display_predicate p +:+ ".")) (txt tail)).
Proof.
  intros Hp Ht. unfold parse_statement, DatalogParser_new. rewrite !string_bytes_app.
  change (txt "?- ") with [ch "?"; ch "-"; 32]. change (txt ".") with [ch "."]. set (d := txt (display_predicate p)).
  set (fuel := S _). assert (psize p <= fuel)%nat as Hfuel.
  { unfold fuel. simpl. pose proof (psize_text p Hp). fold d in H3. rewrite length_app. lia. }
  pose proof (no_skip_predicate p ([ch "."] ++ txt tail) Hp) as Hns. fold d in Hns.
  destruct (parse_predicate_at p fuel ([ch "?"; ch "-"] ++ [32]) ([ch "."] ++ txt tail) Hp Hfuel ltac:(done)) as [Hat Hd]. fold d in Hat, Hd.
  assert (valid (d ++ [ch "."] ++ txt tail)) as Hv by by rewrite valid_app.
  change (mkParser _ 0) with (at_ [] (ch "?" :: ch "-" :: 32 :: d ++ [ch "."] ++ txt tail)).
  op_skip. op_peek.
  rewrite next_ascii, decide_True by done. op_advance.
  op_expect. op_space.
  erewrite bind_ok by exact Hat. op_skip.
  op_expect. unfold lift. by rewrite <- ?app_assoc.
Qed.

(** What a statement that is no query starts with. *)
Lemma parse_statement_head h rest : printable_predicate h = true → valid rest →
  let d := txt (display_predicate h) in let fuel := S (length (d ++ rest)) in
  valid d ∧ (skip_whitespace (at_ [] (d ++ rest)) = (Ok tt, at_ [] (d ++ rest)))
  ∧ (peek_char (at_ [] (d ++ rest)) = (Ok (hd_error (chars (d ++ rest))), at_ [] (d ++ rest)))
  ∧ hd_error (chars (d ++ rest)) ≠ Some (ch "?")
  ∧ parse_predicate fuel (at_ [] (d ++ rest)) = (Ok h, at_ d rest).
Proof.
  intros Hh Hr d fuel. destruct (parse_predicate_at h fuel [] rest Hh) as [Hat Hd]; [|done|].
  { unfold fuel. pose proof (psize_text h Hh) as Hl. fold d in Hl. rewrite length_app. lia. }
  fold d in Hat, Hd. assert (valid (d ++ rest)) as Hv by by rewrite valid_app.
  split; [done|]. split; [apply skip_none; [done|by apply no_skip_predicate]|]. split; [by apply peek_at|].
  split; [by apply predicate_not_query|done].
Qed.
Lemma parse_statement_fact h tail : printable_predicate h = true → valid (txt tail) →
  parse_statement (DatalogParser_new (display_predicate h +:+ "." +:+ tail))
  = (Ok (SFact h), at_ (txt (display_predicate h +:+ ".")) (txt tail)).
Proof.
  intros Hh Ht. destruct (parse_statement_head h (ch "." :: txt tail) Hh) as (Hd & Hskip & Hpeek & Hq & Hat); [done|].
  unfold parse_statement, DatalogParser_new. rewrite !string_bytes_app. change (txt ".") with [ch "."]. cbn [app].
  change (mkParser _ 0) with (at_ [] (txt (display_predicate h) ++ ch "." :: txt tail)). change (input (at_ [] ?l)) with l.
  erewrite bind_ok by exact Hskip. erewrite bind_ok by exact Hpeek. rewrite decide_False by done.
  erewrite bind_ok by exact Hat. op_skip.
  op_peek. rewrite next_ascii, decide_True by done. by op_advance.
Qed.

Lemma body_at b fuel pre rest : forallb printable_predicate b = true → b ≠ [] → valid rest →
  let l := txt (String.concat ", " (map display_predicate b)) in (length l <= fuel)%nat →
  valid l ∧ no_skip (l ++ ch "." :: rest)
  ∧ parse_predicate_list fuel (at_ pre (l ++ ch "." :: rest)) = (Ok b, at_ (pre ++ l) (ch "." :: rest)).
Proof.
  intros Hb Hne Hr l Hfuel. rewrite forallb_forall in Hb. setoid_rewrite <- list_elem_of_In in Hb.
  pose proof (concat_size display_predicate psize b) as Hsize. pose proof (concat_size display_predicate (λ _, 1%nat) b) as Hlen.
  fold l in Hsize, Hlen. assert (sum_list_with (λ _ : Predicate, 1%nat) b = length b) as E by (clear; induction b; simpl; lia). rewrite E in Hlen.
  destruct (list_loop_at (parse_predicate fuel) display_predicate (ch ".") b) as (Hv & Hs & Hat); [by split_and!|done| |].
  { intros p Hp. apply predicate_reads_back; [by apply Hb| |done]. pose proof (sum_list_with_in p psize b Hp).
    specialize (Hsize ltac:(intros q Hq; pose proof (psize_text q (Hb q Hq)); lia)). lia. }
  fold l in Hv, Hs, Hat. split; [done|]. split; [done|]. unfold parse_predicate_list. rewrite Hat; [done| |done].
  specialize (Hlen ltac:(intros q Hq; pose proof (psize_text q (Hb q Hq)); lia)). lia.
Qed.
Lemma parse_statement_rule (r : Rule) tail : printable_rule r = true → body r ≠ [] → valid (txt tail) →
  parse_statement (DatalogParser_new (display_rule r +:+ tail)) = (Ok (SRule r), at_ (txt (display_rule r)) (txt tail)).
Proof.
  destruct r as [h b]. intros [Hh Hb]%andb_true_iff Hne Ht. cbn [head body] in *.
  assert (display_rule (mkRule h b) = display_predicate h +:+ (" :- " +:+ String.concat ", " (map display_predicate b)) +:+ ".") as -> by by destruct b.
  set (d := txt (display_predicate h)). set (l := txt (String.concat ", " (map display_predicate b))).
  pose proof (body_at b) as Hbody. assert (valid l) as Hl by (by apply (Hbody (length l) [] [])).
  set (rest := 32 :: ch ":" :: ch "-" :: 32 :: l ++ ch "." :: txt tail). assert (valid (l ++ ch "." :: txt tail)) as Hlt by by rewrite valid_app.
  destruct (parse_statement_head h rest Hh Hlt) as (Hd & Hskip & Hpeek & Hq & Hat). fold d in Hd, Hskip, Hpeek, Hq, Hat.
  unfold parse_statement, DatalogParser_new. rewrite !string_bytes_app. fold d l. change (txt " :- ") with [32; ch ":"; ch "-"; 32]. change (txt ".") with [ch "."].
  replace ((d ++ ([32; ch ":"; ch "-"; 32] ++ l) ++ [ch "."]) ++ txt tail) with (d ++ rest) by (by rewrite <- !app_assoc).
  set (fuel := S (length (d ++ rest))) in *. change (mkParser (d ++ rest) 0) with (at_ [] (d ++ rest)). change (input (at_ [] (d ++ rest))) with (d ++ rest). fold fuel.
  destruct (Hbody fuel (((d ++ [32]) ++ [ch ":"; ch "-"]) ++ [32]) (txt tail) Hb Hne Ht) as (_ & Hns & Hls).
  { unfold fuel, rest. rewrite length_app. simpl. rewrite length_app. fold l. lia. }
  fold l in Hns, Hls. erewrite bind_ok by exact Hskip. erewrite bind_ok by exact Hpeek. rewrite decide_False by done. erewrite bind_ok by exact Hat.
  erewrite bind_ok by (apply skip_space; [done|by rewrite ascii_whitespace|done|by apply no_skip_ascii]).
  op_peek. rewrite next_ascii, decide_False by done.
  erewrite bind_ok by (by apply (peek_str_at _ [ch ":"; ch "-"])). rewrite decide_True by done.
  op_advance. op_advance. rewrite <- (app_assoc _ [ch ":"]). cbn [app].
  op_space.
  erewrite bind_ok by exact Hls. op_skip.
  op_expect. unfold lift. f_equal. by rewrite <- !app_assoc.
Qed.

(** C17. What [Display] prints is parsed back: a fact, a rule with a body and a query whose names are
    identifiers, whose function names start with a lower-case letter, whose strings have no quote and which have no
    Boolean, float or reference come back as they were, whatever valid text follows them. *)
Theorem datalog_roundtrip p (r : Rule) tail (Hp : printable_predicate p = true) (Hr : printable_rule r = true)
  (Hbody : body r ≠ []) (Ht : valid (txt tail)) :
  parse_fact (display_predicate p +:+ "." +:+ tail) = Ok p
  ∧ parse_rule (display_rule r +:+ tail) = Ok r
  ∧ parse_query ("?- " +:+ display_predicate p +:+ "." +:+ tail) = Ok p.
Proof.
  unfold parse_fact, parse_rule, parse_query, expecting.
  by rewrite parse_statement_fact, parse_statement_rule, parse_statement_query.
Qed.

(** A predicate, one more character, and then one of several bytes. *)
Definition euro : string := bytes_string [0xE2; 0x82; 0xAC].
Lemma parse_statement_panics : (parse_statement (DatalogParser_new ("p()x" +:+ euro))).1 = Panic.
Proof.
  assert (printable_predicate (mkPredicate "p" []) = true) as Hp.
  { unfold printable_predicate, ident. change (txt (name (mkPredicate "p" []))) with [ch "p"]. simpl. unfold ident_char. by rewrite ascii_alphanumeric. }
  set (rest := [ch "x"; 0xE2; 0x82; 0xAC]). destruct (parse_statement_head (mkPredicate "p" []) rest Hp) as (_ & Hskip & Hpeek & Hq & Hat); [done|].
  change (DatalogParser_new ("p()x" +:+ euro)) with (at_ [] (txt (display_predicate (mkPredicate "p" [])) ++ rest)).
  unfold parse_statement. change (input (at_ [] ?l)) with l.
  erewrite bind_ok by exact Hskip. erewrite bind_ok by exact Hpeek. rewrite decide_False by done. erewrite bind_ok by exact Hat.
  op_skip. by op_peek.
Qed.

(** C18. The parser answers on every text: it ends with a statement or an error at a character boundary of the
    text, and an ASCII text never panics it.  A text that is not ASCII can: the two bytes after a head are
    looked at as if they were two characters. *)
Theorem parse_statement_answers (s : string) (Hs : valid (txt s)) :
  (∃ s1 s2 (r : outcome ParseError Statement), txt s = s1 ++ s2 ∧ valid s2 ∧ parse_statement (DatalogParser_new s) = (r, mkParser (txt s) (length s1))
     ∧ r ≠ OutOfFuel ∧ (ascii (txt s) → r ≠ Panic))
  ∧ valid (txt ("p()x" +:+ euro)) ∧ (parse_statement (DatalogParser_new ("p()x" +:+ euro))).1 = Panic.
Proof.
  split; [|split; [done|apply parse_statement_panics]].
  destruct (runs_statement (txt s) Hs) as (s1 & s2 & r & Hr & Hv & Hm & Hf & Hp & _). exists s1, s2, r.
  split_and!; [done|done| |done|intros Ha ->; by apply Hp].
  change (DatalogParser_new s) with (at_ [] (txt s)). rewrite Hm. unfold at_. simpl. by rewrite Hr.
Qed.
End facts.

(** ** Witnesses *)
Import Cid.Reference Datalog.AsciiChars.
#[local] Instance no_cid_text : CidText := {| cid_display := λ _, "cid" |}.
Definition grand : Rule :=
  mkRule (mkPredicate "grandparent" [Var "X"; Var "Z"])
    [mkPredicate "parent" [Var "X"; Var "Y"]; mkPredicate "parent" [Var "Y"; Fun "f" [Const (CInt (-12)); Const (CString "a b"); Var "Z"]]].
Lemma datalog_roundtrip_witness :
  parse_fact (display_predicate (head grand) +:+ "." +:+ " % end") = Ok (head grand)
  ∧ parse_rule (display_rule grand +:+ " % end") = Ok grand
  ∧ parse_query ("?- " +:+ display_predicate (head grand) +:+ "." +:+ " % end") = Ok (head grand).
Proof. by apply (datalog_roundtrip (head grand) grand " % end"). Defined.

Lemma parse_statement_answers_witness :
  (∃ s1 s2 (r : outcome ParseError Statement), string_bytes "q(1" = s1 ++ s2 ∧ valid s2 ∧ parse_statement (DatalogParser_new "q(1") = (r, mkParser (string_bytes "q(1") (length s1))
     ∧ r ≠ OutOfFuel ∧ (ascii (string_bytes "q(1") → r ≠ Panic))
  ∧ valid (string_bytes ("p()x" +:+ euro)) ∧ (parse_statement (DatalogParser_new ("p()x" +:+ euro))).1 = Panic.
Proof. apply (parse_statement_answers "q(1"). reflexivity. Defined.
