(* ===== verification/Vcs.v ===== *)
(** * Version control of models: [crates/ipfrs-storage/src/vcs.rs]

    A repository is a block store with the name of the current branch, HEAD and the cached refs.
    The encoding of commits and refs is that of the [oxicode] crate, the class [CommitCodec].  Each
    call runs to its end before the next one; the clock is an argument of the calls that read it. *)

From Stdlib Require Import ZArith Lia List.
From stdpp Require Import base tactics numbers list gmap sets strings.
From S2P Require Import Prelude Collections Cid Block ColdStore.
#[local] Open Scope string_scope.
#[local] Open Scope list_scope.

Record Author : Type := mkAuthor { author_name : string; email : string }.
Inductive RefType : Type := Branch | Tag.
Inductive MergeStrategy : Type := FastForward | ThreeWay | Ours | Theirs.
#[global] Instance RefType_eq_dec : EqDecision RefType.
Proof. solve_decision. Defined.
#[global] Instance MergeStrategy_eq_dec : EqDecision MergeStrategy.
Proof. solve_decision. Defined.

Section data.
Context `{CidCrate}.

(** [commit_cid] is not part of the encoding. *)
Record Commit : Type := mkCommit {
  commit_cid : option Cid;
  parents : list Cid;
  root : Cid;
  message : string;
  author : Author;
  timestamp : Z;
  metadata : gmap string string;
}.
Definition set_cid (c : option Cid) (m : Commit) : Commit :=
  mkCommit c (parents m) (root m) (message m) (author m) (timestamp m) (metadata m).

Record Ref : Type := mkRef { ref_name : string; commit : Cid; ref_type : RefType }.
Definition Ref_branch (name : string) (c : Cid) : Ref := mkRef name c Branch.
Definition Ref_tag (name : string) (c : Cid) : Ref := mkRef name c Tag.

Inductive MergeResult : Type :=
| FastForwarded (target : Cid)
| MergeCommit (c : Cid)
| Conflicts (conflicts : list string).
End data.

(** [oxicode::serde]: what is encoded is decoded, less the CID that is skipped. *)
Class CommitCodec `{CidCrate} : Type := {
  encode_commit : Commit → option bytes;
  decode_commit : bytes → option Commit;
  encode_ref : Ref → option bytes;
  decode_ref : bytes → option Ref;
}.
Class CommitCodecLaws `{CommitCodec} : Prop := {
  encode_commit_skips c m : encode_commit (set_cid c m) = encode_commit m;
  decode_encode_commit m b : encode_commit m = Some b → decode_commit b = Some (set_cid None m);
  decode_encode_ref r b : encode_ref r = Some b → decode_ref b = Some r;
}.

Section vcs.
Context `{CommitCodec}.

(** ** [Commit] and [Ref] *)
Definition Commit_new (now : Z) (ps : list Cid) (r : Cid) (msg : string) (a : Author) (meta : gmap string string) : Commit :=
  mkCommit None ps r msg a now meta.
Definition commit_to_block (m : Commit) : outcome Error Block :=
  let! b := ok_or (encode_commit m) Serialization in Block_new b.
Definition finalize (m : Commit) : outcome Error (Commit * Cid) :=
  let! b := ok_or (encode_commit m) Serialization in
  let! block := Block_new b in
  Ok (set_cid (Some (b_cid block)) m, b_cid block).
Definition commit_from_block (b : Block) : outcome Error Commit :=
  let! m := ok_or (decode_commit (b_data b)) Serialization in Ok (set_cid (Some (b_cid b)) m).
Definition is_initial (m : Commit) : bool := bool_decide (parents m = []).
Definition the_cid (m : Commit) : outcome Error Cid := match commit_cid m with Some c => Ok c | None => Panic end.

Definition ref_to_block (r : Ref) : outcome Error Block :=
  let! b := ok_or (encode_ref r) Serialization in Block_new b.
Definition ref_from_block (b : Block) : outcome Error Ref := ok_or (decode_ref (b_data b)) Serialization.

(** ** [CommitBuilder] *)
Record CommitBuilder : Type := mkBuilder {
  b_parents : list Cid; b_root : option Cid; b_message : option string; b_author : option Author;
  b_metadata : gmap string string }.
Definition CommitBuilder_new : CommitBuilder := mkBuilder [] None None None ∅.
Definition with_parents (ps : list Cid) (x : CommitBuilder) : CommitBuilder :=
  mkBuilder ps (b_root x) (b_message x) (b_author x) (b_metadata x).
Definition with_root (r : Cid) (x : CommitBuilder) : CommitBuilder :=
  mkBuilder (b_parents x) (Some r) (b_message x) (b_author x) (b_metadata x).
Definition with_message (msg : string) (x : CommitBuilder) : CommitBuilder :=
  mkBuilder (b_parents x) (b_root x) (Some msg) (b_author x) (b_metadata x).
Definition with_author (a : Author) (x : CommitBuilder) : CommitBuilder :=
  mkBuilder (b_parents x) (b_root x) (b_message x) (Some a) (b_metadata x).
Definition with_metadata (key value : string) (x : CommitBuilder) : CommitBuilder :=
  mkBuilder (b_parents x) (b_root x) (b_message x) (b_author x) (<[key := value]> (b_metadata x)).
Definition CommitBuilder_build (now : Z) (x : CommitBuilder) : outcome Error Commit :=
  let! r := ok_or (b_root x) Storage in
  let! msg := ok_or (b_message x) Storage in
  let! a := ok_or (b_author x) Storage in
  Ok (Commit_new now (b_parents x) r msg a (b_metadata x)).

(** ** [VersionControl] *)
Context {K : Type} `{!ColdStore K}.
Record VersionControl : Type := mkVC {
  vc_store : K;
  current_branch : string;
  vc_head : option Cid;
  refs_cache : gmap string Cid;
}.
Notation vcs := (stateful VersionControl Error).
Definition VersionControl_new (k : K) : VersionControl := mkVC k "main" None ∅.
Definition list_refs `{!HashIter string} (v : VersionControl) : list (string * Cid) := hash_iter (refs_cache v).

Definition set_head (c : Cid) : vcs unit := modifies (λ v, mkVC (vc_store v) (current_branch v) (Some c) (refs_cache v)).
Definition set_branch (name : string) : vcs unit := modifies (λ v, mkVC (vc_store v) name (vc_head v) (refs_cache v)).
Definition cache_ref (name : string) (c : Cid) : vcs unit :=
  modifies (λ v, mkVC (vc_store v) (current_branch v) (vc_head v) (<[name := c]> (refs_cache v))).
Definition store_put (b : Block) : vcs unit :=
  λ v, let '(r, k) := cold_put (b_cid b) (b_data b) (vc_store v) in
       (r, mkVC k (current_branch v) (vc_head v) (refs_cache v)).
Definition load_commit (c : Cid) (k : K) : outcome Error Commit :=
  let! o := cold_get c k in
  let! b := ok_or o NotFound in
  commit_from_block (from_parts c b).

Definition update_ref (name : string) (c : Cid) (t : RefType) : vcs unit :=
  do! _ := cache_ref name c in
  do! ref_block := lift (ref_to_block (mkRef name c t)) in
  store_put ref_block.

(** The type of a ref is read off its name. *)
Definition has_infix (infix name : string) : bool := if String.index 0 infix name is Some _ then true else false.
Definition get_ref (name : string) (v : VersionControl) : outcome Error Ref :=
  match refs_cache v !! name with
  | Some c => Ok (mkRef name c (if String.prefix "refs/tags/" name || has_infix "/tags/" name then Tag else Branch))
  | None => Err NotFound
  end.

Definition commit_changes (now : Z) (r : Cid) (msg : string) (a : Author) (meta : gmap string string) : vcs Cid :=
  do! head := reads (λ v, Ok (vc_head v)) in
  let ps := match head with Some h => [h] | None => [] end in
  do! (m, cid) := lift (finalize (Commit_new now ps r msg a meta)) in
  do! block := lift (commit_to_block m) in
  do! _ := store_put block in
  do! _ := set_head cid in
  do! branch := reads (λ v, Ok (current_branch v)) in
  do! _ := update_ref branch cid Branch in
  lift (Ok cid).

Definition checkout (cid : Cid) : vcs Cid :=
  do! m := reads (λ v, load_commit cid (vc_store v)) in
  do! _ := set_head cid in
  lift (Ok (root m)).
Definition checkout_ref (name : string) : vcs Cid :=
  do! r := reads (get_ref name) in
  do! _ := (if decide (ref_type r = Branch) then set_branch name else lift (Ok tt)) in
  checkout (commit r).

Definition create_ref (t : RefType) (name : string) : vcs unit :=
  do! head := reads (λ v, ok_or (vc_head v) Storage) in
  update_ref name head t.
Definition create_branch : string → vcs unit := create_ref Branch.
Definition create_tag : string → vcs unit := create_ref Tag.

(** [limit] less the commits found bounds the loop. *)
Fixpoint log_loop (k : K) (n : nat) (current : option Cid) : outcome Error (list Commit) :=
  match n, current with
  | S n', Some cid =>
    let! m := load_commit cid k in
    let! rest := log_loop k n' (list.head (parents m)) in
    Ok (m :: rest)
  | _, _ => Ok []
  end.
Definition log (cid : Cid) (limit : nat) (v : VersionControl) : outcome Error (list Commit) :=
  log_loop (vc_store v) limit (Some cid).

(** ** Walks: [while let Some(cid) = queue.pop()], a unit of fuel each *)
Section walks.
Context (k : K).
Fixpoint ancestors_loop (fuel : nat) (ancestors1 : gset Cid) (queue : list Cid) : outcome Error (gset Cid) :=
  match last queue, fuel with
  | None, _ => Ok ancestors1
  | Some _, O => OutOfFuel
  | Some cid, S fuel' =>
    let queue := removelast queue in
    if decide (cid ∈ ancestors1) then ancestors_loop fuel' ancestors1 queue else
    let ancestors1 := {[cid]} ∪ ancestors1 in
    let! m := load_commit cid k in
    ancestors_loop fuel' ancestors1 (queue ++ parents m)
  end.
Fixpoint common_loop (fuel : nat) (ancestors1 visited : gset Cid) (queue : list Cid) : outcome Error (option Cid) :=
  match last queue, fuel with
  | None, _ => Ok None
  | Some _, O => OutOfFuel
  | Some cid, S fuel' =>
    let queue := removelast queue in
    if decide (cid ∈ visited) then common_loop fuel' ancestors1 visited queue else
    let visited := {[cid]} ∪ visited in
    if decide (cid ∈ ancestors1) then Ok (Some cid) else
    let! m := load_commit cid k in
    common_loop fuel' ancestors1 visited (queue ++ parents m)
  end.
Fixpoint descends_loop (fuel : nat) (ancestor : Cid) (visited : gset Cid) (queue : list Cid) : outcome Error bool :=
  match last queue, fuel with
  | None, _ => Ok false
  | Some _, O => OutOfFuel
  | Some cid, S fuel' =>
    let queue := removelast queue in
    if decide (cid ∈ visited) then descends_loop fuel' ancestor visited queue else
    let visited := {[cid]} ∪ visited in
    if decide (cid = ancestor) then Ok true else
    let! m := load_commit cid k in
    descends_loop fuel' ancestor visited (queue ++ parents m)
  end.
End walks.

Definition find_common_ancestor (fuel : nat) (commit1 commit2 : Cid) (v : VersionControl) : outcome Error (option Cid) :=
  let! ancestors1 := ancestors_loop (vc_store v) fuel ∅ [commit1] in
  common_loop (vc_store v) fuel ancestors1 ∅ [commit2].
Definition is_ancestor (fuel : nat) (ancestor descendant : Cid) (v : VersionControl) : outcome Error bool :=
  if decide (ancestor = descendant) then Ok true else descends_loop (vc_store v) fuel ancestor ∅ [descendant].

(** ** Merging *)
Definition merge (fuel : nat) (now : Z) (branch_cid : Cid) (msg : string) (a : Author) (strategy : MergeStrategy) : vcs MergeResult :=
  do! head_cid := reads (λ v, ok_or (vc_head v) Storage) in
  if decide (head_cid = branch_cid) then lift (Ok (FastForwarded head_cid)) else
  do! ahead := reads (is_ancestor fuel head_cid branch_cid) in
  if ahead : bool then
    do! _ := set_head branch_cid in
    do! branch := reads (λ v, Ok (current_branch v)) in
    do! _ := cache_ref branch branch_cid in
    lift (Ok (FastForwarded branch_cid))
  else if decide (strategy = FastForward) then lift (Err Storage) else
  do! head_commit := reads (λ v, load_commit head_cid (vc_store v)) in
  do! branch_commit := reads (λ v, load_commit branch_cid (vc_store v)) in
  let merge_root := match strategy with Ours => root head_commit | _ => root branch_commit end in
  do! (m, merge_cid) := lift (finalize (Commit_new now [head_cid; branch_cid] merge_root msg a ∅)) in
  do! block := lift (commit_to_block m) in
  do! _ := store_put block in
  do! _ := set_head merge_cid in
  do! branch := reads (λ v, Ok (current_branch v)) in
  do! _ := cache_ref branch merge_cid in
  lift (Ok (MergeCommit merge_cid)).
Definition merge_branch (fuel : nat) (now : Z) (name msg : string) (a : Author) (strategy : MergeStrategy) : vcs MergeResult :=
  do! r := reads (get_ref name) in
  merge fuel now (commit r) msg a strategy.
End vcs.
#[global] Arguments VersionControl {_} K : rename.
