(* ===== verification/VcsFacts.v ===== *)
(** * Version control: histories stay complete, walks and merges are exact, refs move

    [commit_at] reads a commit from the contents of a store, [anc] is the reflexive and transitive closure of
    its parents, and a history is [complete] when all of it can be read. *)

From Stdlib Require Import ZArith Lia List.
From stdpp Require Import base tactics numbers list gmap sets strings fin_maps relations.
From S2P Require Import Prelude Collections Cid Block ColdStore Vcs.
Import ColdStore.Watched.
#[local] Open Scope list_scope.

Section facts.
Context `{CommitCodec} `{!CommitCodecLaws}.
Implicit Types (B : gmap Cid bytes) (c d a : Cid) (m : Commit).

(** ** Histories *)
Definition commit_at B c : option Commit := B !! c ≫= decode_commit.
Definition parents_at B c : list Cid := match commit_at B c with Some m => parents m | None => [] end.
Definition parent B c p : Prop := p ∈ parents_at B c.
Definition anc B : Cid → Cid → Prop := rtc (parent B).
Definition complete B d : Prop := ∀ a, anc B d a → is_Some (commit_at B a).

Lemma commit_at_mono B B' c m : B ⊆ B' → commit_at B c = Some m → commit_at B' c = Some m.
Proof. unfold commit_at. intros Hs (b & Hb & Hm)%bind_Some. rewrite (lookup_weaken _ _ _ _ Hb Hs). done. Qed.
Lemma complete_parent B d p : complete B d → parent B d p → complete B p.
Proof. intros Hd Hp a Ha. apply Hd. by eapply rtc_l. Qed.
Lemma complete_anc B d a : complete B d → anc B d a → complete B a.
Proof. intros Hd Ha a' Ha'. apply Hd. by etrans. Qed.
Lemma parents_mono B B' d : B ⊆ B' → complete B d → parents_at B' d = parents_at B d.
Proof.
  intros Hs Hd. destruct (Hd d) as [m Hm]; [apply rtc_refl|]. unfold parents_at. by rewrite Hm, (commit_at_mono _ _ _ _ Hs Hm).
Qed.
Lemma anc_mono B B' d a : B ⊆ B' → complete B d → anc B' d a ↔ anc B d a.
Proof.
  intros Hs Hd. split.
  - intros Ha. induction Ha as [d|d p a Hp _ IH]; [apply rtc_refl|].
    unfold parent in Hp. rewrite (parents_mono B B' d) in Hp by done. eapply rtc_l; [exact Hp|]. apply IH. by eapply complete_parent.
  - intros Ha. induction Ha as [d|d p a Hp _ IH]; [apply rtc_refl|].
    eapply rtc_l; [unfold parent; by rewrite (parents_mono B B' d)|]. apply IH. by eapply complete_parent.
Qed.
Lemma complete_mono B B' d : B ⊆ B' → complete B d → complete B' d.
Proof.
  intros Hs Hd a Ha. apply (anc_mono B B' d a Hs Hd) in Ha. destruct (Hd a Ha) as [m Hm]. exists m. by eapply commit_at_mono.
Qed.
(** A commit with complete parents. *)
Lemma complete_commit B c m : commit_at B c = Some m → (∀ p, p ∈ parents m → complete B p) → complete B c.
Proof.
  intros Hm Hp a Ha. inversion Ha as [|? p ? Hcp Hpa]; subst; [by eexists|].
  unfold parent, parents_at in Hcp. rewrite Hm in Hcp. by apply (Hp p).
Qed.

(** A history that is complete but for what lies behind the commits [F]. *)
Definition behind B (F : list Cid) a : Prop := ∃ f, f ∈ F ∧ anc B f a.
Definition partly B (F : list Cid) d : Prop := ∀ a, anc B d a → is_Some (commit_at B a) ∨ behind B F a.
Lemma partly_nil B d : partly B [] d ↔ complete B d.
Proof. split; intros Hd a Ha; [|left; by apply Hd]. by destruct (Hd a Ha) as [|(f & ?%elem_of_nil & _)]. Qed.
Lemma partly_complete B F d : (∀ f, f ∈ F → complete B f) → partly B F d → complete B d.
Proof. intros HF Hd a Ha. destruct (Hd a Ha) as [|(f & Hf & Hfa)]; [done|by apply (HF f Hf)]. Qed.
Lemma partly_anc B F d a : partly B F d → anc B d a → partly B F a.
Proof. intros Hd Ha a' Ha'. apply Hd. by etrans. Qed.
Lemma partly_behind B F f : f ∈ F → partly B F f.
Proof. intros Hf a Ha. right. by exists f. Qed.
Lemma partly_commit B F c m : commit_at B c = Some m → (∀ p, p ∈ parents m → partly B F p) → partly B F c.
Proof.
  intros Hm Hp a Ha. inversion Ha as [|? p ? Hcp Hpa]; subst; [left; by eexists|].
  unfold parent, parents_at in Hcp. rewrite Hm in Hcp. by apply (Hp p).
Qed.
Lemma anc_incl B B' c a : B ⊆ B' → anc B c a → anc B' c a.
Proof.
  intros Hs Ha. induction Ha as [|c p a Hp _ IH]; [apply rtc_refl|]. eapply rtc_l; [|exact IH]. unfold parent, parents_at in *.
  destruct (commit_at B c) as [m|] eqn:Hm; [|by apply elem_of_nil in Hp]. by rewrite (commit_at_mono _ _ _ _ Hs Hm).
Qed.
(** In a larger store only what lies behind commits that were missing is new. *)
Lemma anc_grown B B' c a : B ⊆ B' → anc B' c a → anc B c a ∨ ∃ x, anc B c x ∧ commit_at B x = None ∧ anc B' x a.
Proof.
  intros Hs Ha. induction Ha as [c|c p a Hp Hpa IH]; [left; apply rtc_refl|].
  destruct (commit_at B c) as [m|] eqn:Hm; [|right; exists c; split_and!; [apply rtc_refl|done|by eapply rtc_l]].
  assert (parent B c p) as Hp' by (unfold parent, parents_at in *; by rewrite (commit_at_mono _ _ _ _ Hs Hm) in Hp; rewrite Hm).
  destruct IH as [IH|(x & Hx & Hn & Hxa)]; [left; by eapply rtc_l|right]. exists x. split_and!; [by eapply rtc_l|done..].
Qed.
Lemma partly_mono B B' F d : B ⊆ B' → partly B F d → partly B' F d.
Proof.
  intros Hs Hd a Ha. destruct (anc_grown B B' d a Hs Ha) as [Hda|(x & Hx & Hn & Hxa)].
  - destruct (Hd a Hda) as [[m Hm]|(f & Hf & Hfa)]; [left; exists m; by eapply commit_at_mono|right].
    exists f. split; [done|by eapply anc_incl].
  - destruct (Hd x Hx) as [[m Hm]|(f & Hf & Hfx)]; [congruence|right]. exists f. split; [done|].
    etrans; [by eapply anc_incl|done].
Qed.

(** ** Reading commits *)
Section reading.
Context {K : Type} `{!ColdStore K} `{!ColdLaws K}.
Lemma load_commit_Ok (k : K) c m : load_commit c k = Ok m → ∃ m', commit_at (contents k) c = Some m' ∧ m = set_cid (Some c) m'.
Proof.
  unfold load_commit, commit_at. intros (o & Hg & Hl)%outcome_bind_Ok. apply outcome_bind_Ok in Hl as (b & ->%ok_or_Ok & Hl).
  apply outcome_bind_Ok in Hl as (m' & Hm%ok_or_Ok & [= <-]). pose proof (cold_get_law c k) as Hlaw. rewrite Hg in Hlaw. simpl in Hlaw.
  rewrite <- Hlaw. simpl. eauto.
Qed.
Definition answered {A} (o : outcome Error A) : Prop := o ≠ Panic ∧ o ≠ OutOfFuel.
Lemma load_commit_answers (k : K) c : answered (load_commit c k).
Proof.
  unfold load_commit, answered. pose proof (cold_get_law c k) as Hg. destruct (cold_get c k) as [[b|]|e| |]; try done. simpl.
  unfold commit_from_block. simpl. by destruct (decode_commit b).
Qed.
Lemma load_commit_at `{!Reliable K} (k : K) c m : commit_at (contents k) c = Some m → load_commit c k = Ok (set_cid (Some c) m).
Proof.
  unfold commit_at, load_commit. intros (b & Hb & Hm)%bind_Some. rewrite cold_get_ok, Hb. simpl. unfold commit_from_block. simpl. by rewrite Hm.
Qed.

(** ** Walks *)
Fixpoint walk (k : K) (stop : Cid → bool) (fuel : nat) (seen : gset Cid) (queue : list Cid) : outcome Error (gset Cid * option Cid) :=
  match last queue, fuel with
  | None, _ => Ok (seen, None)
  | Some _, O => OutOfFuel
  | Some cid, S fuel' =>
    let queue := removelast queue in
    if decide (cid ∈ seen) then walk k stop fuel' seen queue else
    if stop cid then Ok ({[cid]} ∪ seen, Some cid) else
    let! m := load_commit cid k in
    walk k stop fuel' ({[cid]} ∪ seen) (queue ++ parents m)
  end.
(** The loops of the code are walks that differ in where they stop. *)
Ltac walk_eq :=
  match goal with |- ∀ fuel, _ =>
    let IH := fresh in let c := fresh "cid" in
    intros fuel; induction fuel as [|fuel IH]; intros seen queue; simpl; destruct (last queue) as [c|]; try done;
    destruct (decide (c ∈ seen)); [apply IH|]; simpl;
    repeat (case_decide; [by rewrite bool_decide_true by done|rewrite bool_decide_false by done]);
    match goal with |- context [load_commit c ?k] => destruct (load_commit c k); simpl; try done; apply IH end
  end.
Lemma ancestors_walk (k : K) : ∀ fuel seen queue, ancestors_loop k fuel seen queue = let! r := walk k (λ _, false) fuel seen queue in Ok r.1.
Proof. walk_eq. Qed.
Lemma common_walk (k : K) A : ∀ fuel seen queue,
  common_loop k fuel A seen queue = let! r := walk k (λ c, bool_decide (c ∈ A)) fuel seen queue in Ok r.2.
Proof. walk_eq. Qed.
Lemma descends_walk (k : K) a : ∀ fuel seen queue,
  descends_loop k fuel a seen queue = let! r := walk k (λ c, bool_decide (c = a)) fuel seen queue in Ok (match r.2 with Some _ => true | None => false end).
Proof. walk_eq. Qed.

(** Everything seen or queued comes from [d], and what the commits seen come from is seen or queued. *)
Definition walk_inv B (stop : Cid → bool) d (seen : gset Cid) (queue : list Cid) : Prop :=
  (∀ c, c ∈ seen → anc B d c ∧ stop c = false ∧ ∀ p, parent B c p → p ∈ seen ∨ p ∈ queue)
  ∧ (∀ c, c ∈ queue → anc B d c) ∧ (d ∈ seen ∨ d ∈ queue).
Lemma walk_done B stop d seen : walk_inv B stop d seen [] → (∀ c, c ∈ seen ↔ anc B d c) ∧ ∀ c, anc B d c → stop c = false.
Proof.
  intros (Hs & _ & Hin). assert (∀ c, anc B d c → c ∈ seen) as Hall.
  { refine (rtc_ind_r (λ c, c ∈ seen) d _ _); [set_solver|]. intros c p _ Hp Hc.
    destruct (Hs c Hc) as (_ & _ & Hc'). by destruct (Hc' p Hp) as [|?%elem_of_nil]. }
  split; [intros c; split; [intros Hc; by apply Hs|by apply Hall]|intros c Hc%Hall; by apply Hs].
Qed.
Definition pushed (b : bytes) : nat := match decode_commit b with Some m => length (parents m) | None => 0 end.

Lemma walk_spec `{!Reliable K} k stop d fuel seen queue : complete (contents k) d → walk_inv (contents k) stop d seen queue →
  length queue + todo pushed (contents k) seen ≤ fuel →
  ∃ seen' o, walk k stop fuel seen queue = Ok (seen', o)
    ∧ match o with
      | Some c => anc (contents k) d c ∧ stop c = true
      | None => (∀ c, c ∈ seen' ↔ anc (contents k) d c) ∧ ∀ c, anc (contents k) d c → stop c = false
      end.
Proof.
  intros Hd. revert seen queue. induction fuel as [|fuel IH]; intros seen queue Hinv Hfuel;
    destruct (frontier_cases queue) as [->|(c & f & -> & Hlast & Hrl)].
  1,3: exists seen, None; split; [done|by apply walk_done].
  { rewrite length_app in Hfuel. simpl in Hfuel. lia. }
  simpl. rewrite Hlast, Hrl. rewrite length_app in Hfuel. simpl in Hfuel. destruct Hinv as (Hs & Hq & Hin).
  destruct (decide (c ∈ seen)) as [Hc|Hc].
  { apply IH; [|lia]. split_and!; [|set_solver|set_solver]. intros c' Hc'. destruct (Hs c' Hc') as (? & ? & Hp). split_and!; try done.
    intros p Hcp. destruct (Hp p Hcp) as [|Hpq]; [by left|]. set_solver. }
  assert (anc (contents k) d c) as Hdc by (apply Hq; set_solver). destruct (stop c) eqn:Hstop; [by eexists _, (Some c)|].
  destruct (Hd c Hdc) as [m Hm]. rewrite (load_commit_at k c m Hm). cbn [outcome_bind set_cid parents].
  assert (parents_at (contents k) c = parents m) as Hpar by (unfold parents_at; by rewrite Hm).
  apply IH.
  - split_and!.
    + intros c' [->%elem_of_singleton|Hc']%elem_of_union.
      * split_and!; [done..|]. intros p Hp. right. apply elem_of_app. right. unfold parent in Hp. by rewrite Hpar in Hp.
      * destruct (Hs c' Hc') as (? & ? & Hp). split_and!; try done. intros p Hcp. destruct (Hp p Hcp) as [|Hpq]; set_solver.
    + intros c' [?|Hc']%elem_of_app; [apply Hq; set_solver|]. eapply rtc_r; [exact Hdc|]. unfold parent. by rewrite Hpar.
    + set_solver.
  - unfold commit_at in Hm. apply bind_Some in Hm as (b & Hb & Hm). pose proof (todo_visit pushed _ seen c b Hb Hc) as Ht.
    unfold pushed at 2 in Ht. rewrite Hm in Ht. rewrite length_app. lia.
Qed.
Definition history_fuel (k : K) : nat := S (todo pushed (contents k) ∅).
Lemma walk_from `{!Reliable K} k stop d fuel : complete (contents k) d → history_fuel k ≤ fuel →
  ∃ seen' o, walk k stop fuel ∅ [d] = Ok (seen', o)
    ∧ match o with
      | Some c => anc (contents k) d c ∧ stop c = true
      | None => (∀ c, c ∈ seen' ↔ anc (contents k) d c) ∧ ∀ c, anc (contents k) d c → stop c = false
      end.
Proof.
  intros Hd Hf. apply walk_spec; [done| |done]. split_and!; [set_solver| |set_solver].
  intros c ->%list_elem_of_singleton. apply rtc_refl.
Qed.

(** The log follows first parents, up to its limit. *)
Inductive lineage B : Cid → list Cid → Prop :=
| lineage_root c m : commit_at B c = Some m → parents m = [] → lineage B c [c]
| lineage_parent c m p ps l : commit_at B c = Some m → parents m = p :: ps → lineage B p l → lineage B c (c :: l).
Lemma log_exact `{!Reliable K} c l n (v : VersionControl K) : lineage (contents (vc_store v)) c l →
  ∃ ms, log c n v = Ok ms ∧ map commit_cid ms = map Some (take n l).
Proof.
  unfold log. intros Hl. revert n. induction Hl as [c m Hm Hp|c m p ps l Hm Hp _ IH]; intros [|n]; try (by exists []);
    simpl; rewrite (load_commit_at _ c m Hm); simpl; rewrite Hp; simpl.
  - exists [set_cid (Some c) m]. by destruct n.
  - destruct (IH n) as (ms & -> & Hms). exists (set_cid (Some c) m :: ms). split; [done|]. simpl. by rewrite Hms.
Qed.

(** C22. On complete histories the two walks end and are exact: [is_ancestor] says whether the commit is
    reached by parents, and [find_common_ancestor] returns a common ancestor when there is one. *)
Theorem vcs_walks_exact `{!Reliable K} fuel c d (v : VersionControl K)
  (Hc : complete (contents (vc_store v)) c) (Hd : complete (contents (vc_store v)) d) (Hf : history_fuel (vc_store v) ≤ fuel) :
  (∃ b, is_ancestor fuel c d v = Ok b ∧ (b = true ↔ anc (contents (vc_store v)) d c))
  ∧ ∃ o, find_common_ancestor fuel c d v = Ok o
    ∧ match o with
      | Some a => anc (contents (vc_store v)) c a ∧ anc (contents (vc_store v)) d a
      | None => ∀ a, anc (contents (vc_store v)) c a → ¬ anc (contents (vc_store v)) d a
      end.
Proof.
  split.
  - unfold is_ancestor. destruct (decide (c = d)) as [->|Hne]; [exists true; split; [done|]; split; [intros _; apply rtc_refl|done]|].
    rewrite descends_walk. destruct (walk_from (vc_store v) (λ a, bool_decide (a = c)) d fuel Hd Hf) as (seen & o & -> & Ho).
    simpl. eexists. split; [done|]. destruct o as [a|].
    + destruct Ho as [Ha ->%bool_decide_eq_true]. done.
    + destruct Ho as [_ Hno]. split; [done|]. intros Ha%Hno. by apply bool_decide_eq_false in Ha.
  - unfold find_common_ancestor. rewrite ancestors_walk. destruct (walk_from (vc_store v) (λ _, false) c fuel Hc Hf) as (seen & o & -> & Ho).
    simpl. destruct o as [a|]; [by destruct Ho|]. destruct Ho as [Hseen _]. rewrite common_walk.
    destruct (walk_from (vc_store v) (λ a, bool_decide (a ∈ seen)) d fuel Hd Hf) as (seen' & o & -> & Ho). simpl. exists o. split; [done|].
    destruct o as [a|].
    + destruct Ho as [Ha Hs%bool_decide_eq_true]. split; [by apply Hseen|done].
    + destruct Ho as [_ Hno]. intros a Ha%Hseen Hda%Hno. by apply bool_decide_eq_false in Hda.
Qed.
End reading.

(** ** Changes of a watched repository *)
Section changes.
Context {K : Type} `{!ColdStore K} `{!ColdLaws K}.
Implicit Types v : VersionControl (Watched K).
Notation held v := (contents (vc_store v)).
Notation clean v := (clashed (vc_store v) = false).

Definition vgrows v v' : Prop :=
  (clashed (vc_store v) = true → clashed (vc_store v') = true) ∧ (clean v' → held v ⊆ held v').
#[local] Instance vgrows_preorder : PreOrder vgrows.
Proof.
  split; [by split|]. intros v1 v2 v3 [Hc1 Hb1] [Hc2 Hb2]. split; [auto|].
  intros Hc. etrans; [apply Hb1 | by apply Hb2]. destruct (clashed (vc_store v2)) eqn:E; [|done]. by rewrite Hc2 in Hc.
Qed.
Lemma vgrows_clean v v' : vgrows v v' → clean v' → clean v.
Proof. intros [Hc _] Hf. destruct (clashed (vc_store v)); [|done]. by rewrite Hc in Hf. Qed.

Lemma store_put_spec b v r v' : store_put b v = (r, v') →
  vgrows v v' ∧ vc_head v' = vc_head v ∧ current_branch v' = current_branch v ∧ refs_cache v' = refs_cache v
  ∧ (r = Ok tt → held v' !! b_cid b = Some (b_data b)).
Proof.
  unfold store_put. simpl. intros Hp. pose proof (cold_put_law (b_cid b) (b_data b) (watched (vc_store v))) as Hlaw.
  destruct (cold_put (b_cid b) (b_data b) (watched (vc_store v))) as [o k]. injection Hp as <- <-. simpl.
  split_and!; [|done..|].
  - split; simpl; [by intros ->|]. intros [_ Hc]%orb_false_iff. unfold replaces in Hc.
    destruct o as [[]|e| |]; simpl in Hlaw; try done; rewrite Hlaw; [|done].
    destruct (contents (watched (vc_store v)) !! b_cid b) as [d|] eqn:Hb; [|by apply insert_subseteq].
    apply bool_decide_eq_false, dec_stable in Hc as ->. by rewrite insert_id.
  - intros ->. simpl in Hlaw. rewrite Hlaw. apply lookup_insert_eq.
Qed.

Lemma Block_new_data b blk : Block_new b = Ok blk → b_data blk = b.
Proof. unfold Block_new. intros (? & _ & Hb)%outcome_bind_Ok. by apply outcome_bind_Ok in Hb as (? & _ & [= <-]). Qed.

Lemma Block_new_answers b : answered (Block_new b).
Proof.
  unfold Block_new, validate_size, CidBuilder.build, answered. repeat (case_match; simpl; try done); unfold ok_or; repeat (case_match; simpl; try done).
Qed.
Lemma store_put_answers b v : answered (store_put b v).1.
Proof.
  unfold store_put, answered. simpl. pose proof (cold_put_law (b_cid b) (b_data b) (watched (vc_store v))) as Hlaw.
  destruct (cold_put (b_cid b) (b_data b) (watched (vc_store v))) as [[] k]; done.
Qed.

(** What [commit] and [merge] share: a new commit is stored and becomes HEAD. *)
Definition save (m : Commit) : stateful (VersionControl (Watched K)) Error Cid :=
  do! (m', cid) := lift (finalize m) in
  do! block := lift (commit_to_block m') in
  do! _ := store_put block in
  do! _ := set_head cid in
  lift (Ok cid).
Lemma save_spec m v r v' : commit_cid m = None → save m v = (r, v') →
  vgrows v v' ∧ current_branch v' = current_branch v ∧ refs_cache v' = refs_cache v
  ∧ ((∃ cid, r = Ok cid ∧ vc_head v' = Some cid ∧ commit_at (held v') cid = Some m) ∨ (vc_head v' = vc_head v ∧ ∀ c, r ≠ Ok c)).
Proof.
  intros Hnone. unfold save, finalize, commit_to_block, lift. unfold st_bind at 1.
  destruct (encode_commit m) as [b|] eqn:Hb; simpl; [|intros [= <- <-]; split_and!; [done..|by right]].
  destruct (Block_new b) as [blk|e| |] eqn:Hblk; simpl; try (intros [= <- <-]; split_and!; [done..|by right]).
  unfold st_bind at 1. rewrite encode_commit_skips, Hb. simpl. rewrite Hblk. unfold st_bind at 1.
  destruct (store_put blk v) as [o v1] eqn:Hput. destruct (store_put_spec blk v o v1 Hput) as (Hg & Hh & Hcb & Hr & Hd).
  destruct o as [[]|e| |]; try (intros [= <- <-]; split_and!; [done..|by right]).
  unfold set_head, modifies. cbn. intros [= <- <-]. split_and!; [exact Hg|done|done|]. left. exists (b_cid blk). split_and!; [done..|].
  unfold commit_at. simpl in Hd |- *. rewrite (Hd eq_refl), (Block_new_data b blk Hblk). simpl. rewrite (decode_encode_commit m b Hb).
  destruct m. simpl in *. by subst.
Qed.

Lemma save_answers m v : answered (save m v).1.
Proof.
  unfold save, finalize, commit_to_block, lift. unfold st_bind at 1. destruct (encode_commit m) as [b|] eqn:Hb; [|done]. simpl.
  pose proof (Block_new_answers b) as Hblk. destruct (Block_new b) as [blk|e| |] eqn:Hn; simpl; try done; try by destruct Hblk.
  unfold st_bind at 1. rewrite encode_commit_skips, Hb. simpl. rewrite Hn. unfold st_bind at 1.
  pose proof (store_put_answers blk v) as Hp. by destruct (store_put blk v) as [[[]|e| |]?]; [| |destruct Hp..].
Qed.
Lemma commit_changes_eq now rt msg au meta v :
  commit_changes now rt msg au meta v =
  (do! cid := save (Commit_new now (match vc_head v with Some h => [h] | None => [] end) rt msg au meta) in
   do! branch := reads (λ v, Ok (current_branch v)) in
   do! _ := update_ref branch cid Branch in lift (Ok cid)) v.
Proof.
  unfold commit_changes, save, st_bind, reads, lift. cbv beta iota.
  destruct (finalize _) as [[m cid]|e| |]; try done. destruct (commit_to_block m) as [blk|e| |]; try done.
  destruct (store_put blk v) as [[]?]; done.
Qed.
Lemma update_ref_spec n c t v r v' : update_ref n c t v = (r, v') →
  vgrows v v' ∧ vc_head v' = vc_head v ∧ current_branch v' = current_branch v ∧ refs_cache v' = <[n := c]> (refs_cache v).
Proof.
  unfold update_ref, cache_ref, modifies, lift. unfold st_bind at 1. cbn. unfold st_bind.
  destruct (ref_to_block _) as [blk|e| |]; try (intros [= <- <-]; done).
  intros (Hg & Hh & Hc & Hr & _)%store_put_spec. simpl in *. split_and!; done.
Qed.

(** A commit: nothing but the store changes, or the new commit is HEAD and where the branch points. *)
Lemma commit_cases now rt msg au meta v r v' : commit_changes now rt msg au meta v = (r, v') →
  vgrows v v' ∧ current_branch v' = current_branch v
  ∧ ((vc_head v' = vc_head v ∧ refs_cache v' = refs_cache v ∧ ∀ c, r ≠ Ok c)
     ∨ ∃ cid, (clean v' → commit_at (held v') cid = Some (Commit_new now (match vc_head v with Some h => [h] | None => [] end) rt msg au meta))
         ∧ vc_head v' = Some cid ∧ refs_cache v' = <[current_branch v := cid]> (refs_cache v) ∧ ∀ c, r = Ok c → c = cid).
Proof.
  rewrite commit_changes_eq. set (m := Commit_new _ _ _ _ _ _). unfold st_bind at 1.
  destruct (save m v) as [o v1] eqn:Hsave. destruct (save_spec m v o v1 eq_refl Hsave) as (Hg1 & Hb1 & Hr1 & Hcase).
  destruct Hcase as [(cid & -> & Hh1 & Hat)|[Hh1 Hno]].
  - unfold st_bind at 1. cbn [reads]. unfold st_bind.
    destruct (update_ref (current_branch v1) cid Branch v1) as [o v2] eqn:Hup. destruct (update_ref_spec _ _ _ _ _ _ Hup) as (Hg2 & Hh2 & Hb2 & Hr2).
    intros Heq. assert (v' = v2) as -> by (by destruct o; injection Heq). split_and!; [by etrans|congruence|].
    right. exists cid. split_and!; [|congruence|congruence|].
    + intros Hc. eapply commit_at_mono; [by apply Hg2|done].
    + intros c ->. by destruct o as [[]| | |]; injection Heq.
  - intros Heq. assert (v' = v1 ∧ ∀ c, r ≠ Ok c) as [-> Hr] by (destruct o as [c|e| |]; [by destruct (Hno c)|by injection Heq as <- <-..]).
    split_and!; [done..|by left].
Qed.

(** A merge: no change, a fast-forward, or a commit with both parents. *)
Definition merge_root (s : MergeStrategy) (ours theirs : Commit) : Cid := match s with Ours => root ours | _ => root theirs end.
Lemma merge_cases fuel now b msg au s h v r v' : vc_head v = Some h → merge fuel now b msg au s v = (r, v') →
  vgrows v v' ∧ current_branch v' = current_branch v
  ∧ ((vc_head v' = vc_head v ∧ refs_cache v' = refs_cache v ∧ (answered (is_ancestor fuel h b v) → answered r)
        ∧ (∀ x, r = Ok x → h = b ∧ x = FastForwarded h) ∧ (h = b → r = Ok (FastForwarded h)))
     ∨ (h ≠ b ∧ is_ancestor fuel h b v = Ok true ∧ r = Ok (FastForwarded b)
        ∧ v' = mkVC (vc_store v) (current_branch v) (Some b) (<[current_branch v := b]> (refs_cache v)))
     ∨ (h ≠ b ∧ is_ancestor fuel h b v = Ok false ∧ s ≠ FastForward ∧ ∃ hm bm cid,
          commit_at (held v) h = Some hm ∧ commit_at (held v) b = Some bm ∧ r = Ok (MergeCommit cid)
          ∧ vc_head v' = Some cid ∧ refs_cache v' = <[current_branch v := cid]> (refs_cache v)
          ∧ commit_at (held v') cid = Some (Commit_new now [h; b] (merge_root s hm bm) msg au ∅))).
Proof.
  intros Hh. unfold merge. unfold st_bind at 1. cbn [reads]. rewrite Hh. cbn [ok_or].
  destruct (decide (h = b)) as [->|Hne]; [intros [= <- <-]; split_and!; [done..|]; left; split_and!; try done; by intros x [= <-]|].
  unfold st_bind at 1. cbn [reads]. destruct (is_ancestor fuel h b v) as [[]|e| |] eqn:Hanc;
    try (intros [= <- <-]; split_and!; [done..|]; left; split_and!; try done; by intros []).
  { cbn. intros [= <- <-]. split_and!; [done..|]. right. by left. }
  destruct (decide (s = FastForward)) as [->|Hs]; [intros [= <- <-]; split_and!; [done..|by left; split_and!]|].
  pose proof (load_commit_answers (vc_store v) h) as [Hp1 Hp2]. pose proof (load_commit_answers (vc_store v) b) as [Hp3 Hp4].
  unfold st_bind at 1. cbn [reads]. destruct (load_commit h (vc_store v)) as [hm|e| |] eqn:Hhm; try (by destruct Hp1); try (by destruct Hp2); try (intros [= <- <-]; split_and!; [done..|by left; split_and!]).
  unfold st_bind at 1. cbn [reads]. destruct (load_commit b (vc_store v)) as [bm|e| |] eqn:Hbm; try (by destruct Hp3); try (by destruct Hp4); try (intros [= <- <-]; split_and!; [done..|by left; split_and!]).
  apply load_commit_Ok in Hhm as (hm' & Hhm & ->), Hbm as (bm' & Hbm & ->).
  set (m := Commit_new now [h; b] (merge_root s hm' bm') msg au ∅). intros Heq.
  assert ((do! cid := save m in do! branch := reads (λ v, Ok (current_branch v)) in
           do! _ := cache_ref branch cid in lift (Ok (MergeCommit cid))) v = (r, v')) as Hsave.
  { rewrite <- Heq. clear Heq. assert (match s with Ours => root (set_cid (Some h) hm') | _ => root (set_cid (Some b) bm') end = merge_root s hm' bm') as -> by by destruct s.
    fold m. unfold save, st_bind, reads, lift. cbv beta iota.
    destruct (finalize m) as [[m' cid]|e| |]; try done. destruct (commit_to_block m') as [blk|e| |]; try done.
    destruct (store_put blk v) as [[]?]; done. }
  clear Heq. unfold st_bind at 1 in Hsave. pose proof (save_answers m v) as Ha. destruct (save m v) as [o v1] eqn:Hm.
  destruct (save_spec m v o v1 eq_refl Hm) as (Hg1 & Hb1 & Hr1 & [(cid & -> & Hh1 & Hat)|[Hh1 Hno]]).
  - cbn in Hsave. injection Hsave as <- <-. split_and!; [done..|]. right. right. split_and!; [done..|].
    exists hm', bm', cid. rewrite Hb1, Hr1. split_and!; done.
  - assert (v' = v1 ∧ ∀ x, r ≠ Ok x) as [-> Hr] by (destruct o as [c|e| |]; [by destruct (Hno c)|by injection Hsave as <- <-..]).
    assert (answered r) as Har by (destruct o as [c|e| |]; [by destruct (Hno c)|by injection Hsave as <-|by destruct Ha..]).
    split_and!; [done..|]. left. split_and!; [congruence|done|done|intros x Hx; by destruct (Hr x)|done].
Qed.

(** ** Every history stays complete *)
Definition points v c : Prop := vc_head v = Some c ∨ ∃ n, refs_cache v !! n = Some c.
Definition known v c : Prop := ∃ t, points v t ∧ anc (held v) t c.
Definition histories v : Prop := ∀ c, points v c → complete (held v) c.

Section foreign.
(** Commits that may be checked out or merged although no history of the repository holds them. *)
Context (F : list Cid).
(** The calls, whatever they return, and blocks put into the store. *)
Inductive vcs_step : VersionControl (Watched K) → VersionControl (Watched K) → Prop :=
| step_commit now rt msg au meta v r v' : commit_changes now rt msg au meta v = (r, v') → vcs_step v v'
| step_checkout c v r v' : known v c ∨ c ∈ F → checkout c v = (r, v') → vcs_step v v'
| step_checkout_ref n v r v' : checkout_ref n v = (r, v') → vcs_step v v'
| step_create_ref t n v r v' : create_ref t n v = (r, v') → vcs_step v v'
| step_merge fuel now c msg au s v r v' : known v c ∨ c ∈ F → merge fuel now c msg au s v = (r, v') → vcs_step v v'
| step_merge_branch fuel now n msg au s v r v' : merge_branch fuel now n msg au s v = (r, v') → vcs_step v v'
| step_put b v r v' : store_put b v = (r, v') → vcs_step v v'.

Definition tracked v : Prop := ∀ c, points v c → partly (held v) F c.
Definition keeps v v' : Prop := vgrows v v' ∧ (clean v' → tracked v → tracked v').

Lemma known_partly v c : tracked v → known v c ∨ c ∈ F → partly (held v) F c.
Proof. intros Hv [(t & Ht & Ha)|Hc]; [|by apply partly_behind]. eapply partly_anc; [by apply Hv|done]. Qed.
(** The new pointers are old ones or have complete tracked. *)
Lemma keeps_points v v' : vgrows v v' → (clean v' → tracked v → ∀ c, points v' c → points v c ∨ partly (held v') F c) → keeps v v'.
Proof.
  intros Hg Hp. split; [done|]. intros Hc Hv c Hpc. destruct (Hp Hc Hv c Hpc) as [Hold|]; [|done].
  eapply partly_mono; [by apply Hg|by apply Hv].
Qed.
Lemma points_new v v' c : points v' c → refs_cache v' = refs_cache v ∨ (∃ n x, refs_cache v' = <[n := x]> (refs_cache v) ∧ vc_head v' = Some x) →
  vc_head v' = Some c ∨ points v c.
Proof.
  intros [Hh|[n Hn]] Hr; [by left|]. destruct Hr as [Hr|(n' & x & Hr & Hx)]; rewrite Hr in Hn; [right; right; by exists n|].
  apply lookup_insert_Some in Hn as [[_ <-]|[_ Hn]]; [by left|right; right; by exists n].
Qed.

Lemma keeps_commit now rt msg au meta v r v' : commit_changes now rt msg au meta v = (r, v') → keeps v v'.
Proof.
  intros (Hg & _ & [(Hh & Hr & _)|(cid & Hat & Hh & Hr & _)])%commit_cases; apply keeps_points; try done; intros Hc Hv c Hp.
  - left. destruct (points_new v v' c Hp) as [Hx|]; [by left|left; congruence|done].
  - destruct (points_new v v' c Hp) as [Hx|]; [right; by eexists _, _| |by left]. rewrite Hh in Hx. injection Hx as <-.
    right. eapply partly_commit; [by apply Hat|]. simpl. intros p Hpar.
    destruct (vc_head v) as [h|] eqn:Hhv; [|by apply elem_of_nil in Hpar]. apply list_elem_of_singleton in Hpar as ->.
    eapply partly_mono; [by apply Hg|]. apply Hv. by left.
Qed.
Lemma keeps_checkout c v r v' : (tracked v → partly (held v) F c) → checkout c v = (r, v') → keeps v v'.
Proof.
  intros Hk. unfold checkout. unfold st_bind at 1. cbn [reads]. destruct (load_commit c (vc_store v)) as [m|e| |]; try (intros [= <- <-]; by split).
  cbn. intros [= <- <-]. apply keeps_points; [done|]. intros _ Hv c' [[= <-]|Hr]; [right; by apply Hk|left; by right].
Qed.
Lemma keeps_checkout_ref n v r v' : checkout_ref n v = (r, v') → keeps v v'.
Proof.
  unfold checkout_ref. unfold st_bind at 1. cbn [reads]. unfold get_ref. destruct (refs_cache v !! n) as [c|] eqn:Hn; [|intros [= <- <-]; by split].
  cbn [commit ref_type]. unfold st_bind. set (v1 := if decide _ then _ else _).
  assert (∃ v1', v1 v = (Ok tt, v1') ∧ vc_store v1' = vc_store v ∧ vc_head v1' = vc_head v ∧ refs_cache v1' = refs_cache v) as (v1' & -> & Hs & Hh & Hr).
  { unfold v1. destruct (decide _); eexists; by split_and!. }
  intros Hc. assert (tracked v → tracked v1') as Hv1.
  { intros Hv x Hx. unfold points in Hx. rewrite Hh, Hr in Hx. rewrite Hs. by apply Hv. }
  destruct (keeps_checkout c v1' r v') as [Hg Hk]; [|done|].
  { intros Hv. apply Hv. right. exists n. by rewrite Hr. }
  split; [unfold vgrows in *; by rewrite Hs in Hg|auto].
Qed.
Lemma keeps_create_ref t n v r v' : create_ref t n v = (r, v') → keeps v v'.
Proof.
  unfold create_ref. unfold st_bind at 1. cbn [reads]. destruct (vc_head v) as [h|] eqn:Hh; [|intros [= <- <-]; by split]. cbn [ok_or].
  intros (Hg & Hh' & _ & Hr)%update_ref_spec. apply keeps_points; [done|]. intros _ Hv c Hp. left.
  destruct (points_new v v' c Hp) as [Hx|]; [right; exists n, h; by rewrite Hr, Hh', Hh|left; congruence|done].
Qed.
Lemma keeps_merge fuel now b msg au s v r v' : (tracked v → partly (held v) F b) → merge fuel now b msg au s v = (r, v') → keeps v v'.
Proof.
  intros Hb Hm. destruct (vc_head v) as [h|] eqn:Hh; [|unfold merge, st_bind in Hm; cbn in Hm; rewrite Hh in Hm; injection Hm as <- <-; by split].
  destruct (merge_cases _ _ _ _ _ _ _ _ _ _ Hh Hm) as (Hg & _ & [(Hh' & Hr & _ & _)|[(_ & _ & _ & ->)|(_ & _ & _ & hm & bm & cid & _ & _ & _ & Hh' & Hr & Hat)]]);
    apply keeps_points; try done; intros Hc Hv c Hp.
  - left. destruct (points_new v v' c Hp) as [Hx|]; [by left|left; congruence|done].
  - destruct (points_new v _ c Hp) as [Hx|]; [right; by eexists _, _| |by left]. simpl in Hx. injection Hx as <-. right. by apply Hb.
  - destruct (points_new v v' c Hp) as [Hx|]; [right; by eexists _, _| |by left]. rewrite Hh' in Hx. injection Hx as <-.
    right. eapply partly_commit; [exact Hat|]. simpl. intros p Hpar. eapply partly_mono; [by apply Hg|].
    apply elem_of_cons in Hpar as [-> | ->%list_elem_of_singleton]; [apply Hv; by left|by apply Hb].
Qed.
Lemma vcs_step_keeps v v' : vcs_step v v' → keeps v v'.
Proof.
  destruct 1.
  - by eapply keeps_commit.
  - eapply keeps_checkout; [|done]. intros Hv. by apply known_partly.
  - by eapply keeps_checkout_ref.
  - by eapply keeps_create_ref.
  - eapply keeps_merge; [|done]. intros Hv. by apply known_partly.
  - unfold merge_branch, st_bind in *. cbn [reads] in *. unfold get_ref in *. destruct (refs_cache v !! n) as [c|] eqn:Hn; [|simplify_eq; by split].
    simpl in *. eapply keeps_merge; [|done]. intros Hv. apply Hv. right. by exists n.
  - destruct (store_put_spec _ _ _ _ ltac:(eassumption)) as (Hg & Hh & _ & Hr & _). apply keeps_points; [done|].
    intros _ _ c Hp. left. destruct (points_new v v' c Hp) as [Hx|]; [by left|left; congruence|done].
Qed.

Lemma reachable_tracked k v : rtc vcs_step (VersionControl_new (watch k false)) v → clean v → tracked v.
Proof.
  revert v. refine (rtc_ind_r (λ v, clean v → tracked v) _ _ _).
  - intros _ c [Hh|[n Hn]]; [done|]. simpl in Hn. by rewrite lookup_empty in Hn.
  - intros v v' _ Hs%vcs_step_keeps IH Hc. apply Hs; [done|]. apply IH. by eapply vgrows_clean; [apply Hs|].
Qed.

End foreign.

Lemma reachable_histories k v : rtc (vcs_step []) (VersionControl_new (watch k false)) v → clean v → histories v.
Proof. intros Hrun Hc p Hp. apply partly_nil. by eapply reachable_tracked. Qed.

(** C19. Whatever the calls do and return, on every run that does not replace a block by different
    bytes, every commit in the history of HEAD and of every ref can be read, except for those behind a
    commit of [F]: the list of the commits that were checked out or merged by their CID while no history
    of the repository held them ([checkout] and [merge] look only at the commit itself, not at its
    parents).  So without such commits ([F] empty), or when their own histories are in the store, all
    histories can be read to their end, and with a backend that does not fail, walks over known commits
    answer. *)
Theorem vcs_history_complete F k v (Hrun : rtc (vcs_step F) (VersionControl_new (watch k false)) v) (Hc : clean v) :
  (∀ c, known v c → is_Some (commit_at (held v) c) ∨ ∃ f, f ∈ F ∧ anc (held v) f c)
  ∧ ((∀ f, f ∈ F → complete (held v) f) →
      (∀ c, known v c → is_Some (commit_at (held v) c))
      ∧ (Reliable K → ∀ fuel c d, known v c → known v d → history_fuel (vc_store v) ≤ fuel → ∃ b, is_ancestor fuel c d v = Ok b)).
Proof.
  assert (∀ c, known v c → partly (held v) F c) as Hv.
  { intros c Hk. eapply known_partly; [by eapply reachable_tracked|by left]. }
  split; [intros c Hk; apply (Hv c Hk), rtc_refl|]. intros HF.
  assert (∀ c, known v c → complete (held v) c) as Hall by (intros c Hk; by eapply partly_complete, Hv).
  split; [intros c Hk; by apply (Hall c Hk), rtc_refl|].
  intros HR fuel c d Hkc Hkd Hf. unfold is_ancestor.
  destruct (decide (c = d)); [by exists true|]. rewrite descends_walk.
  destruct (walk_from (vc_store v) (λ a, bool_decide (a = c)) d fuel (Hall d Hkd) Hf) as (seen & o & -> & _). by eexists.
Qed.

(** C20. A merge keeps both histories: when it succeeds HEAD and the current branch have both HEAD and the
    merged commit as ancestors.  It fast-forwards exactly when HEAD is an ancestor of the merged commit, and otherwise
    makes a commit with both parents and one of the two roots; when it fails, HEAD and the refs stay. *)
Theorem merge_exact `{!Reliable K} fuel now b msg au s h v r v' (Hh : vc_head v = Some h) (Hv : histories v)
  (Hb : complete (held v) b) (Hf : history_fuel (vc_store v) ≤ fuel) (Hm : merge fuel now b msg au s v = (r, v')) (Hc : clean v') :
  match r with
  | Ok x => ∃ h', vc_head v' = Some h' ∧ anc (held v') h' h ∧ anc (held v') h' b
      ∧ (h = b ∨ refs_cache v' = <[current_branch v := h']> (refs_cache v))
      ∧ if x is FastForwarded _ then h' = b ∧ anc (held v) b h
        else ¬ anc (held v) b h ∧ s ≠ FastForward ∧ ∃ hm bm, commit_at (held v) h = Some hm ∧ commit_at (held v) b = Some bm
               ∧ x = MergeCommit h' ∧ commit_at (held v') h' = Some (Commit_new now [h; b] (merge_root s hm bm) msg au ∅)
  | Err _ => vc_head v' = Some h ∧ refs_cache v' = refs_cache v
  | _ => False
  end.
Proof.
  assert (complete (held v) h) as Hch by (apply Hv; by left). pose proof (Hv h ltac:(by left)) as Hcomp.
  assert (∃ x, is_ancestor fuel h b v = Ok x ∧ (x = true ↔ anc (held v) b h)) as (x & Hx & Hanc).
  { unfold is_ancestor. destruct (decide (h = b)) as [->|Hne]; [exists true; split; [done|]; split; [intros _; apply rtc_refl|done]|].
    rewrite descends_walk. destruct (walk_from (vc_store v) (λ a, bool_decide (a = h)) b fuel Hb Hf) as (seen & o & -> & Ho). simpl.
    eexists. split; [done|]. destruct o as [a|]; [by destruct Ho as [Ha ->%bool_decide_eq_true]|].
    destruct Ho as [_ Hno]. split; [done|]. intros Ha%Hno. by apply bool_decide_eq_false in Ha. }
  destruct (merge_cases _ _ _ _ _ _ _ _ _ _ Hh Hm) as (Hg & _ & [(Hh' & Hr & Ha & Hok & Heq)|[(Hne & Hi & -> & ->)|(Hne & Hi & Hs & hm & bm & cid & Hhm & Hbm & -> & Hh' & Hr & Hat)]]).
  - rewrite Hh in Hh'. destruct r as [y|e| |]; [|done|by destruct Ha; rewrite ?Hx..].
    destruct (Hok y eq_refl) as [-> ->]. exists b. split_and!; [done|apply rtc_refl|apply rtc_refl|by left|done|apply rtc_refl].
  - rewrite Hx in Hi. injection Hi as ->. assert (anc (held v) b h) as Hbh by by apply Hanc. exists b. simpl.
    split_and!; [done|done|apply rtc_refl|by right|done|done].
  - rewrite Hx in Hi. injection Hi as ->. exists cid. 
    assert (∀ p, p ∈ [h; b] → anc (held v') cid p) as Hpar.
    { intros p Hp. eapply rtc_l; [|apply rtc_refl]. unfold parent, parents_at. by rewrite Hat. }
    split_and!; [done|apply Hpar; by left|apply Hpar; by right; left|by right|intros Hbh%Hanc; done|done|eauto 10].
Qed.

(** ** Refs move *)
Definition tag_name (n : string) : bool := String.prefix "refs/tags/" n || has_infix "/tags/" n.

(** A tag whose name does not look like one is no tag: checking it out makes it the current branch,
    and the next commit moves it.  Checking a commit out does not leave the current branch: the
    next commit moves the branch to a child of that commit, wherever the branch was. *)
Theorem vcs_refs_move n h v v1 v2 v3 rt now rt' msg au meta c (Hn : tag_name n = false) (Hh : vc_head v = Some h)
  (Htag : create_tag n v = (Ok tt, v1)) (Hout : checkout_ref n v1 = (Ok rt, v2))
  (Hcommitted : commit_changes now rt' msg au meta v2 = (Ok c, v3)) :
  (refs_cache v1 !! n = Some h ∧ current_branch v3 = n ∧ refs_cache v3 !! n = Some c ∧ (clean v3 → parents_at (held v3) c = [h]))
  ∧ ∀ d (w w1 w2 : VersionControl (Watched K)) rd now' rd' msg' au' meta' c', checkout d w = (Ok rd, w1) → commit_changes now' rd' msg' au' meta' w1 = (Ok c', w2) →
      current_branch w2 = current_branch w ∧ refs_cache w2 !! current_branch w = Some c' ∧ (clean w2 → parents_at (held w2) c' = [d]).
Proof.
  assert (∀ now rt msg au meta v v' c, commit_changes now rt msg au meta v = (Ok c, v') → current_branch v' = current_branch v
    ∧ refs_cache v' !! current_branch v = Some c ∧ ∀ d, vc_head v = Some d → clean v' → parents_at (held v') c = [d]) as Hcommit.
  { intros ???????? (_ & Hb & [(_ & _ & Hno)|(cid & Hat & _ & Hr & Hc)])%commit_cases; [by destruct (Hno _ eq_refl)|].
    rewrite (Hc _ eq_refl), Hr, lookup_insert_eq. split_and!; [done..|]. intros d Hd Hcl. unfold parents_at. by rewrite Hat, Hd. }
  assert (∀ d (w w1 : VersionControl (Watched K)) rd, checkout d w = (Ok rd, w1) → vc_head w1 = Some d ∧ current_branch w1 = current_branch w) as Hcheckout.
  { intros d w w1 rd. unfold checkout. unfold st_bind at 1. cbn [reads]. destruct (load_commit _ _); try done. cbn. by intros [= <- <-]. }
  split.
  - unfold create_tag, create_ref in Htag. unfold st_bind at 1 in Htag. cbn [reads] in Htag. rewrite Hh in Htag. cbn [ok_or] in Htag.
    apply update_ref_spec in Htag as (_ & _ & _ & Hr1).
    assert (vc_head v2 = Some h ∧ current_branch v2 = n) as [Hh2 Hb2].
    { unfold checkout_ref in Hout. unfold st_bind at 1 in Hout. cbn [reads] in Hout. unfold get_ref in Hout. rewrite Hr1, lookup_insert_eq in Hout.
      unfold tag_name in Hn. rewrite Hn in Hout. cbn [commit ref_type] in Hout. rewrite decide_True in Hout by done.
      unfold set_branch, modifies in Hout. unfold st_bind at 1 in Hout. by apply Hcheckout in Hout as [? ?]. }
    destruct (Hcommit _ _ _ _ _ _ _ _ Hcommitted) as (Hb3 & Hr3 & Hp3). rewrite Hb2 in *. rewrite Hr1, lookup_insert_eq. split_and!; auto.
  - intros d w w1 w2 rd now' rd' msg' au' meta' c' (Hh1 & Hb1)%Hcheckout (Hb2 & Hr2 & Hp2)%Hcommit. rewrite Hb1 in *. split_and!; auto.
Qed.
End changes.
End facts.

(** ** Witnesses: a codec by the enumeration of the data *)
Module Demo.
Import Cid.Reference.
Fixpoint bits (p : positive) : bytes := match p with xH => [1] | xO p => 2 :: bits p | xI p => 3 :: bits p end%Z.
Fixpoint of_bits (l : bytes) : option positive :=
  match l with
  | [] => None
  | b :: l' =>
    if (b =? 1)%Z then match l' with [] => Some xH | _ => None end
    else p ← of_bits l'; if (b =? 2)%Z then Some (xO p) else if (b =? 3)%Z then Some (xI p) else None
  end.
Lemma of_bits_bits p : of_bits (bits p) = Some p.
Proof. induction p as [p IH|p IH|]; simpl; rewrite ?IH; done. Qed.

Definition plain : Type := (list Cid * Cid) * (string * (string * string)) * (Z * gmap string string).
Definition to_plain (m : Commit) : plain :=
  ((parents m, root m), (message m, (author_name (author m), email (author m))), (timestamp m, metadata m)).
Definition of_plain (p : plain) : Commit :=
  let '((ps, r), (msg, (n, e)), (t, meta)) := p in mkCommit None ps r msg (mkAuthor n e) t meta.
Definition ref_plain (r : Ref) : Cid * string * bool := (commit r, ref_name r, bool_decide (ref_type r = Tag)).
Definition plain_ref (p : Cid * string * bool) : Ref := mkRef p.1.2 p.1.1 (if p.2 then Tag else Branch).
#[export] Instance codec : CommitCodec := {|
  encode_commit m := Some (bits (encode (to_plain m)));
  decode_commit b := p ← of_bits b; x ← decode p; Some (of_plain x);
  encode_ref r := Some (bits (encode (ref_plain r)));
  decode_ref b := p ← of_bits b; x ← decode p; Some (plain_ref x) |}.
#[export] Instance codec_laws : CommitCodecLaws.
Proof.
  split.
  - done.
  - intros [c ps r msg [n e] t meta] b [= <-]. simpl. rewrite of_bits_bits. cbn [mbind option_bind]. by rewrite decode_encode.
  - intros [n c t] b [= <-]. simpl. rewrite of_bits_bits. cbn [mbind option_bind]. rewrite decode_encode. by destruct t.
Qed.
Definition au : Author := mkAuthor "a" "e".
Definition cid0 : Cid := Cid_new_v1 0x55 (digest Sha2_256 [7%Z]).
Definition v0 : VersionControl (Watched MemoryBlockStore) := VersionControl_new (watch MemoryBlockStore_new false).
(** Two branches with a commit each after a shared one, and a tag. *)
Definition v1 := (commit_changes 1 cid0 "m" au ∅ v0).2.
Definition v2 := (create_ref Branch "dev" v1).2.
Definition v3 := (commit_changes 2 cid0 "n" au ∅ v2).2.
Definition v4 := (checkout_ref "dev" v3).2.
Definition v5 := (commit_changes 3 cid0 "o" au ∅ v4).2.
Definition t1 := (create_tag "v1.0" v1).2.
Definition t2 := (checkout_ref "v1.0" t1).2.

Definition is_ok {A} (o : outcome Error A) : bool := match o with Ok _ => true | _ => false end.
Lemma ok_pair {A S} (p : outcome Error A * S) : is_ok p.1 = true → ∃ a, p = (Ok a, p.2).
Proof. destruct p as [[a|e| |] x]; try done. by exists a. Qed.
Lemma is_Some_true {A} (o : option A) : (if o then true else false) = true → ∃ a, o = Some a.
Proof. destruct o; [eauto|done]. Qed.

Definition path := rtc (vcs_step []) v0.
Lemma path_step v v' : path v → vcs_step [] v v' → path v'.
Proof. apply rtc_r. Qed.
Lemma path_v1 : path v1.
Proof. unfold v1. exact (path_step v0 _ (rtc_refl _ _) (step_commit [] 1 cid0 "m" au ∅ v0 _ _ (surjective_pairing _))). Qed.
Lemma path_v2 : path v2.
Proof. unfold v2. exact (path_step v1 _ path_v1 (step_create_ref [] Branch "dev" v1 _ _ (surjective_pairing _))). Qed.
Lemma path_v3 : path v3.
Proof. unfold v3. exact (path_step v2 _ path_v2 (step_commit [] 2 cid0 "n" au ∅ v2 _ _ (surjective_pairing _))). Qed.
Lemma path_v4 : path v4.
Proof. unfold v4. exact (path_step v3 _ path_v3 (step_checkout_ref [] "dev" v3 _ _ (surjective_pairing _))). Qed.
Lemma path_v5 : path v5.
Proof. unfold v5. exact (path_step v4 _ path_v4 (step_commit [] 3 cid0 "o" au ∅ v4 _ _ (surjective_pairing _))). Qed.
Lemma path_histories v : path v → clashed (vc_store v) = false → histories v.
Proof. apply reachable_histories. Qed.
End Demo.
Import Cid.Reference Demo.

Lemma vcs_walks_exact_witness : ∃ h b, vc_head v5 = Some h ∧ refs_cache v5 !! "main" = Some b
  ∧ (∃ x, is_ancestor (history_fuel (vc_store v5)) h b v5 = Ok x ∧ (x = true ↔ anc (contents (vc_store v5)) b h))
  ∧ ∃ o, find_common_ancestor (history_fuel (vc_store v5)) h b v5 = Ok o
    ∧ match o with
      | Some a => anc (contents (vc_store v5)) h a ∧ anc (contents (vc_store v5)) b a
      | None => ∀ a, anc (contents (vc_store v5)) h a → ¬ anc (contents (vc_store v5)) b a
      end.
Proof.
  destruct (is_Some_true (vc_head v5)) as [h Hh]; [by vm_compute|]. destruct (is_Some_true (refs_cache v5 !! "main")) as [b Hb]; [by vm_compute|].
  pose proof (path_histories v5 path_v5 ltac:(by vm_compute)) as Hv. exists h, b. split; [done|]. split; [done|].
  apply (vcs_walks_exact (history_fuel (vc_store v5)) h b v5); [apply Hv; by left|apply Hv; right; by exists "main"|lia].
Defined.

Lemma vcs_history_complete_witness : ∃ h, vc_head v5 = Some h ∧ is_Some (commit_at (contents (vc_store v5)) h).
Proof.
  destruct (is_Some_true (vc_head v5)) as [h Hh]; [by vm_compute|]. exists h. split; [done|].
  apply (proj2 (vcs_history_complete [] MemoryBlockStore_new v5 path_v5 ltac:(by vm_compute)) (λ f Hf, False_ind _ (proj1 (elem_of_nil f) Hf))).
  exists h. split; [by left|apply rtc_refl].
Defined.

(** A commit whose parent is not in the store is put there and checked out: the walks from HEAD fail. *)
Definition foreign : Commit := Commit_new 1 [cid0] cid0 "f" au ∅.
Example foreign_checkout :
  match commit_to_block foreign with
  | Ok b =>
    let v := (checkout (b_cid b) (store_put b v5).2) in
    is_ok v.1 = true ∧ is_ok (find_common_ancestor 100 (b_cid b) (b_cid b) v.2) = false
    ∧ is_ok (merge 100 4 cid0 "p" au ThreeWay v.2).1 = false
  | _ => False
  end.
Proof. vm_compute. repeat split. Qed.

Lemma merge_exact_witness : ∃ h b x, vc_head v5 = Some h ∧ refs_cache v5 !! "main" = Some b
  ∧ (merge (history_fuel (vc_store v5)) 4 b "p" au ThreeWay v5).1 = Ok x
  ∧ let v' := (merge (history_fuel (vc_store v5)) 4 b "p" au ThreeWay v5).2 in
    ∃ h', vc_head v' = Some h' ∧ anc (contents (vc_store v')) h' h ∧ anc (contents (vc_store v')) h' b.
Proof.
  destruct (is_Some_true (vc_head v5)) as [h Hh]; [by vm_compute|]. destruct (is_Some_true (refs_cache v5 !! "main")) as [b Hb]; [by vm_compute|].
  pose proof (path_histories v5 path_v5 ltac:(by vm_compute)) as Hv.
  assert (∀ b', refs_cache v5 !! "main" = Some b' → let m := merge (history_fuel (vc_store v5)) 4 b' "p" au ThreeWay v5 in
    is_ok m.1 = true ∧ clashed (vc_store m.2) = false) as Hrun.
  { assert (match refs_cache v5 !! "main" with
            | Some b' => let m := merge (history_fuel (vc_store v5)) 4 b' "p" au ThreeWay v5 in is_ok m.1 && negb (clashed (vc_store m.2))
            | None => false end = true) as Hall by by vm_compute.
    intros b' Hb'. rewrite Hb' in Hall. destruct (andb_prop _ _ Hall) as [Hok Hc]. split; [exact Hok|exact (proj1 (negb_true_iff _) Hc)]. }
  destruct (Hrun b Hb) as [Hok Hc]. destruct (ok_pair _ Hok) as [x Hx]. exists h, b, x. split; [exact Hh|]. split; [exact Hb|]. split; [rewrite Hx; reflexivity|].
  pose proof (merge_exact (history_fuel (vc_store v5)) 4 b "p" au ThreeWay h v5 (Ok x) _ Hh Hv
    ltac:(apply Hv; right; by exists "main") ltac:(lia) Hx Hc) as (h' & Hh' & Ha & Hab & _). exists h'. split; [exact Hh'|]. split; [exact Ha|exact Hab].
Defined.

Lemma vcs_refs_move_witness : ∃ h c (v' : VersionControl (Watched MemoryBlockStore)), vc_head v1 = Some h ∧ refs_cache t1 !! "v1.0" = Some h
  ∧ refs_cache v' !! "v1.0" = Some c ∧ (clashed (vc_store v') = false → parents_at (contents (vc_store v')) c = [h]).
Proof.
  destruct (is_Some_true (vc_head v1)) as [h Hh]; [by vm_compute|].
  destruct (ok_pair (create_tag "v1.0" v1)) as [[] H1]; [by vm_compute|]. destruct (ok_pair (checkout_ref "v1.0" t1)) as [rt H2]; [by vm_compute|].
  destruct (ok_pair (commit_changes 2 cid0 "n" au ∅ t2)) as [c H3]; [by vm_compute|].
  destruct (vcs_refs_move "v1.0" h v1 t1 t2 _ rt 2 cid0 "n" au ∅ c eq_refl Hh H1 H2 H3) as [(Hr1 & _ & Hr3 & Hp) _].
  exists h, c, (commit_changes 2 cid0 "n" au ∅ t2).2. split; [exact Hh|]. split; [exact Hr1|]. split; [exact Hr3|exact Hp].
Defined.
