(* ===== verification/TxLog.v ===== *)
(** * The transaction log: [crates/ipfrs-storage/src/transaction_log.rs]

    Committed transactions are a queue, oldest first, active ones a hash map; times are given by
    the caller.  Identifiers and counters are [u64]s that wrap around, as in a release build. *)

From Stdlib Require Import ZArith Lia List.
From stdpp Require Import base tactics numbers list gmap sets strings.
From S2P Require Import Prelude Collections F64.
#[local] Open Scope Z_scope.

Inductive TxError : Type := TransactionNotFound (id : Z) | TransactionNotActive (id : Z) | TransactionAlreadyEnded (id : Z).
Inductive TxOperation : Type :=
| Put (key : string) (value : bytes) (prev_value : option bytes)
| Delete (key : string) (prev_value : bytes)
| BatchPut (entries : list (string * bytes)).
Definition key_count (op : TxOperation) : nat := match op with BatchPut entries => length entries | _ => 1 end.

Inductive TransactionStatus : Type := Active | Committed | RolledBack | Aborted.
#[global] Instance TransactionStatus_eq_dec : EqDecision TransactionStatus.
Proof. solve_decision. Defined.

Record Transaction : Type := mkTransaction {
  tx_id : Z;
  operations : list TxOperation;
  status : TransactionStatus;
  started_at : Z;
  ended_at : option Z;
}.
Definition Transaction_new (id started_at : Z) : Transaction := mkTransaction id [] Active started_at None.
Definition is_active (t : Transaction) : bool := bool_decide (status t = Active).
Definition operation_count (t : Transaction) : nat := length (operations t).
Definition finish (s : TransactionStatus) (now : Z) (t : Transaction) : Transaction :=
  mkTransaction (tx_id t) (operations t) s (started_at t) (Some now).

Record TxStats : Type := mkTxStats {
  st_active_count : nat; st_committed_count : Z; st_rolled_back_count : Z; st_total_operations : Z; st_avg_ops_per_tx : f64 }.

Record StorageTransactionLog : Type := mkLog {
  transactions : list Transaction;
  active : gmap Z Transaction;
  next_id : Z;
  max_committed : nat;
  committed_count : Z;
  rolled_back_count : Z;
}.
Definition StorageTransactionLog_new (max : nat) : StorageTransactionLog := mkLog [] ∅ 1 max 0 0.
Definition set_active (a : gmap Z Transaction) (l : StorageTransactionLog) : StorageTransactionLog :=
  mkLog (transactions l) a (next_id l) (max_committed l) (committed_count l) (rolled_back_count l).

Notation tx_log := (stateful StorageTransactionLog TxError).

Definition begin (now : Z) (l : StorageTransactionLog) : Z * StorageTransactionLog :=
  let id := next_id l in
  (id, mkLog (transactions l) (<[id := Transaction_new id now]> (active l)) (as_u64 (id + 1)) (max_committed l)
         (committed_count l) (rolled_back_count l)).

Definition append (id : Z) (op : TxOperation) : tx_log unit := λ l,
  match active l !! id with
  | None => (Err (TransactionNotFound id), l)
  | Some t =>
    if negb (is_active t) then (Err (TransactionNotActive id), l) else
    (Ok tt, set_active (<[id := mkTransaction (tx_id t) (operations t ++ [op]) (status t) (started_at t) (ended_at t)]> (active l)) l)
  end.

(** The start of [commit], [rollback] and [abort]: the transaction is taken out, and put back when it is not active. *)
Definition take_active (id : Z) : tx_log Transaction := λ l,
  match active l !! id with
  | None => (Err (TransactionNotFound id), l)
  | Some t =>
    let l := set_active (delete id (active l)) l in
    if negb (is_active t) then (Err (TransactionAlreadyEnded id), set_active (<[id := t]> (active l)) l) else (Ok t, l)
  end.

Definition retain (t : Transaction) (l : StorageTransactionLog) : StorageTransactionLog :=
  let evicted := if (0 <? max_committed l)%nat && (max_committed l <=? length (transactions l))%nat
                 then tail (transactions l) else transactions l in
  let kept := if (0 <? max_committed l)%nat then evicted ++ [t] else evicted in
  mkLog kept (active l) (next_id l) (max_committed l) (as_u64 (committed_count l + 1)) (rolled_back_count l).
Definition commit (id now : Z) : tx_log unit :=
  do! t := take_active id in
  do! _ := modifies (retain (finish Committed now t)) in lift (Ok tt).

Definition rollback (id now : Z) : tx_log (list TxOperation) :=
  do! t := take_active id in
  do! _ := modifies (λ l, mkLog (transactions l) (active l) (next_id l) (max_committed l) (committed_count l) (as_u64 (rolled_back_count l + 1))) in
  lift (Ok (rev (operations (finish RolledBack now t)))).
Definition abort (id now : Z) : tx_log unit :=
  do! _ := take_active id in lift (Ok tt).

(** ** Queries *)
Definition replay_committed (since_id : Z) (l : StorageTransactionLog) : list Transaction :=
  filter (λ t, since_id < tx_id t) (transactions l).
Definition get_transaction (id : Z) (l : StorageTransactionLog) : option Transaction :=
  match active l !! id with
  | Some t => Some t
  | None => list.head (filter (λ t, tx_id t = id) (transactions l))
  end.
Definition active_transactions `{!HashIter Z} (l : StorageTransactionLog) : list Transaction :=
  sort_by (λ t u, tx_id t <? tx_id u) (map snd (hash_iter (active l))).
Definition active_count (l : StorageTransactionLog) : nat := size (active l).
Definition committed_retained (l : StorageTransactionLog) : nat := length (transactions l).
Definition total_operations (l : StorageTransactionLog) : Z :=
  foldl (λ n t, as_u64 (n + Z.of_nat (operation_count t))) 0 (transactions l).
Definition stats (l : StorageTransactionLog) : TxStats :=
  mkTxStats (active_count l) (committed_count l) (rolled_back_count l) (total_operations l)
    (if (length (transactions l) =? 0)%nat then f64_zero
     else f64_div (f64_of_int (total_operations l)) (f64_of (length (transactions l)))).
Definition drain_committed (l : StorageTransactionLog) : list Transaction * StorageTransactionLog :=
  (transactions l, mkLog [] (active l) (next_id l) (max_committed l) (committed_count l) (rolled_back_count l)).
