(* ===== verification/TxLogFacts.v ===== *)
(** * The transaction log refines a journal

    The journal keeps the open transactions by identifier and the list of commits since the last
    drain; it has no bound, no status and one error.  The log answers every sequence of calls as
    the journal does, replaying the last commits it retains, in the order of the commits. *)

From Stdlib Require Import ZArith Lia List.
From stdpp Require Import base tactics numbers list gmap sets strings.
From S2P Require Import Prelude Collections F64 TxLog.
#[local] Open Scope Z_scope.

(** ** The journal *)
Record Journal : Type := mkJournal {
  j_open : gmap Z (Z * list TxOperation);
  j_done : list Transaction;
  j_next : Z;
  j_commits : Z;
  j_rollbacks : Z;
}.
Definition Journal_new : Journal := mkJournal ∅ [] 1 0 0.

(** The calls on the log and what they reply. *)
Inductive call : Type :=
| CBegin (now : Z) | CAppend (id : Z) (op : TxOperation) | CCommit (id now : Z) | CRollback (id now : Z) | CAbort (id now : Z)
| CReplay (since : Z) | CGet (id : Z) | CDrain | CCounts.
Inductive reply : Type :=
| RId (id : Z) | RDone (r : outcome TxError unit) | RUndo (r : outcome TxError (list TxOperation))
| RReplay (l : list Transaction) | RGet (t : option Transaction) | RCounts (open committed rolled_back : Z).

Definition exec (c : call) (l : StorageTransactionLog) : reply * StorageTransactionLog :=
  match c with
  | CBegin now => let '(id, l) := begin now l in (RId id, l)
  | CAppend id op => let '(r, l) := append id op l in (RDone r, l)
  | CCommit id now => let '(r, l) := commit id now l in (RDone r, l)
  | CRollback id now => let '(r, l) := rollback id now l in (RUndo r, l)
  | CAbort id now => let '(r, l) := abort id now l in (RDone r, l)
  | CReplay since => (RReplay (replay_committed since l), l)
  | CGet id => (RGet (get_transaction id l), l)
  | CDrain => let '(ts, l) := drain_committed l in (RReplay ts, l)
  | CCounts => (RCounts (Z.of_nat (active_count l)) (committed_count l) (rolled_back_count l), l)
  end.

(** The last [max] elements. *)
Definition lastn {A} (max : nat) (l : list A) : list A := drop (length l - max) l.
Definition opened (id : Z) (o : Z * list TxOperation) : Transaction := mkTransaction id o.2 Active o.1 None.
Definition closed (id now : Z) (o : Z * list TxOperation) : Transaction := mkTransaction id o.2 Committed o.1 (Some now).

Definition journal (max : nat) (c : call) (j : Journal) : reply * Journal :=
  let missing {A} id (k : Z * list TxOperation → A) (no : outcome TxError unit → A) : A :=
    match j_open j !! id with Some o => k o | None => no (Err (TransactionNotFound id)) end in
  let without id := delete id (j_open j) in
  match c with
  | CBegin now => (RId (j_next j), mkJournal (<[j_next j := (now, [])]> (j_open j)) (j_done j) (as_u64 (j_next j + 1)) (j_commits j) (j_rollbacks j))
  | CAppend id op =>
    missing id (λ o, (RDone (Ok tt), mkJournal (<[id := (o.1, o.2 ++ [op])]> (j_open j)) (j_done j) (j_next j) (j_commits j) (j_rollbacks j)))
      (λ e, (RDone e, j))
  | CCommit id now =>
    missing id (λ o, (RDone (Ok tt), mkJournal (without id) (j_done j ++ [closed id now o]) (j_next j) (as_u64 (j_commits j + 1)) (j_rollbacks j)))
      (λ e, (RDone e, j))
  | CRollback id _ =>
    match j_open j !! id with
    | Some o => (RUndo (Ok (rev o.2)), mkJournal (without id) (j_done j) (j_next j) (j_commits j) (as_u64 (j_rollbacks j + 1)))
    | None => (RUndo (Err (TransactionNotFound id)), j)
    end
  | CAbort id _ =>
    missing id (λ o, (RDone (Ok tt), mkJournal (without id) (j_done j) (j_next j) (j_commits j) (j_rollbacks j))) (λ e, (RDone e, j))
  | CReplay since => (RReplay (filter (λ t, since < tx_id t) (lastn max (j_done j))), j)
  | CGet id =>
    (RGet (match j_open j !! id with Some o => Some (opened id o) | None => list.head (filter (λ t, tx_id t = id) (lastn max (j_done j))) end), j)
  | CDrain => (RReplay (lastn max (j_done j)), mkJournal (j_open j) [] (j_next j) (j_commits j) (j_rollbacks j))
  | CCounts => (RCounts (Z.of_nat (size (j_open j))) (j_commits j) (j_rollbacks j), j)
  end.

Fixpoint run {S} (f : call → S → reply * S) (cs : list call) (s : S) : list reply * S :=
  match cs with
  | [] => ([], s)
  | c :: cs' => let '(r, s) := f c s in let '(rs, s) := run f cs' s in (r :: rs, s)
  end.

(** ** The refinement *)
Definition refines (max : nat) (l : StorageTransactionLog) (j : Journal) : Prop :=
  max_committed l = max ∧ next_id l = j_next j ∧ committed_count l = j_commits j ∧ rolled_back_count l = j_rollbacks j
  ∧ active l = map_imap (λ id o, Some (opened id o)) (j_open j) ∧ transactions l = lastn max (j_done j).

Lemma lastn_snoc {A} max (l : list A) x :
  (if (0 <? max)%nat then (if (0 <? max)%nat && (max <=? length (lastn max l))%nat then tail (lastn max l) else lastn max l) ++ [x]
   else if (0 <? max)%nat && (max <=? length (lastn max l))%nat then tail (lastn max l) else lastn max l) = lastn max (l ++ [x]).
Proof.
  unfold lastn. rewrite length_drop, length_app. simpl. destruct (Nat.ltb_spec 0 max) as [Hm|Hm]; simpl.
  - destruct (Nat.leb_spec max (length l - (length l - max))) as [Hl|Hl].
    + rewrite drop_app_le by lia. f_equal. change (tail ?k) with (drop 1 k). rewrite drop_drop. f_equal. lia.
    + rewrite !(proj2 (Nat.sub_0_le _ _)) by lia. by rewrite !drop_0.
  - rewrite !drop_ge; [done|rewrite length_app; simpl; lia|lia].
Qed.

Lemma refines_active max l j id : refines max l j → active l !! id = opened id <$> j_open j !! id.
Proof. intros (_ & _ & _ & _ & -> & _). rewrite map_lookup_imap. by destruct (j_open j !! id). Qed.
Lemma imap_insert_opened m id o : map_imap (λ id o, Some (opened id o)) (<[id := o]> m) = <[id := opened id o]> (map_imap (λ id o, Some (opened id o)) m).
Proof. by apply map_imap_insert_Some. Qed.
Lemma imap_delete_opened m id : map_imap (λ id o, Some (opened id o)) (delete id m) = delete id (map_imap (λ id o, Some (opened id o)) m).
Proof. by rewrite map_imap_delete. Qed.

Lemma take_active_spec max l j id : refines max l j →
  take_active id l = match j_open j !! id with
                     | Some o => (Ok (opened id o), set_active (delete id (active l)) l)
                     | None => (Err (TransactionNotFound id), l)
                     end.
Proof. intros Hr. unfold take_active. rewrite (refines_active max l j id Hr). by destruct (j_open j !! id). Qed.

Lemma exec_refines max l j c : refines max l j →
  (exec c l).1 = (journal max c j).1 ∧ refines max (exec c l).2 (journal max c j).2.
Proof.
  intros Hr. pose proof Hr as (Hm & Hn & Hc & Hrb & Ha & Ht). destruct c as [now|id op|id now|id now|id now|since|id| |]; simpl.
  - rewrite Hn. split; [done|]. unfold refines. simpl. rewrite imap_insert_opened, <- Ha. by split_and!.
  - unfold append. rewrite (refines_active max l j id Hr). destruct (j_open j !! id) as [o|] eqn:Ho; simpl; [|done].
    split; [done|]. unfold refines. simpl. rewrite imap_insert_opened, <- Ha. by split_and!.
  - unfold commit, st_bind. rewrite (take_active_spec max l j id Hr). destruct (j_open j !! id) as [o|] eqn:Ho; simpl; [|done].
    split; [done|]. unfold refines. simpl. rewrite imap_delete_opened, <- Ha, Hc, Hm, Ht. split_and!; try done. apply lastn_snoc.
  - unfold rollback, st_bind. rewrite (take_active_spec max l j id Hr). destruct (j_open j !! id) as [o|] eqn:Ho; simpl; [|done].
    split; [done|]. unfold refines. simpl. rewrite imap_delete_opened, <- Ha, Hrb. by split_and!.
  - unfold abort, st_bind. rewrite (take_active_spec max l j id Hr). destruct (j_open j !! id) as [o|] eqn:Ho; simpl; [|done].
    split; [done|]. unfold refines. simpl. rewrite imap_delete_opened, <- Ha. by split_and!.
  - unfold replay_committed. by rewrite Ht.
  - unfold get_transaction. rewrite (refines_active max l j id Hr), Ht. by destruct (j_open j !! id).
  - rewrite Ht. split; [done|]. unfold refines. simpl. by split_and!.
  - unfold active_count. split; [|done]. rewrite Hc, Hrb, Ha. do 2 f_equal.
    rewrite <- !size_dom. f_equal. apply set_eq. intros id. rewrite !elem_of_dom, map_lookup_imap.
    destruct (j_open j !! id); simpl; split; intros [? ?]; eauto; done.
Qed.

Lemma refines_new max : refines max (StorageTransactionLog_new max) Journal_new.
Proof. unfold refines. simpl. split_and!; try done. Qed.
Lemma run_refines max cs l j : refines max l j →
  (run exec cs l).1 = (run (journal max) cs j).1 ∧ refines max (run exec cs l).2 (run (journal max) cs j).2.
Proof.
  revert l j. induction cs as [|c cs IH]; intros l j Hr; [done|]. simpl. destruct (exec_refines max l j c Hr) as [Hrep Hr'].
  destruct (exec c l) as [r l'], (journal max c j) as [r' j']. simpl in *. subst r'. specialize (IH l' j' Hr').
  destruct (run exec cs l') as [rs l''], (run (journal max) cs j') as [rs' j'']. simpl in *. destruct IH as [-> ?]. done.
Qed.

(** C21. Every sequence of calls gets from the log the replies of the journal: a commit publishes exactly the
    operations appended, in order, a rollback returns them reversed and an abort drops them; replay
    returns, of the last [max] commits, those above the identifier; and the only error is that a transaction
    is not open. *)
Theorem tx_log_refines max cs : (run exec cs (StorageTransactionLog_new max)).1 = (run (journal max) cs Journal_new).1.
Proof. by apply run_refines, refines_new. Qed.

Definition unseen (r : reply) : Prop :=
  match r with
  | RDone (Err (TransactionNotActive _)) | RDone (Err (TransactionAlreadyEnded _))
  | RUndo (Err (TransactionNotActive _)) | RUndo (Err (TransactionAlreadyEnded _)) => False
  | _ => True
  end.
Lemma journal_unseen max cs j : Forall unseen (run (journal max) cs j).1.
Proof.
  revert j. induction cs as [|c cs IH]; intros j; simpl; [constructor|]. specialize (IH (journal max c j).2).
  assert (unseen (journal max c j).1) as Hc by (destruct c; simpl; try destruct (_ !! _); done).
  destruct (journal max c j) as [r j']. simpl in *. destruct (run (journal max) cs j'). by constructor.
Qed.

(** No reply says that a transaction is not active or has ended: the calls on one that has ended do not
    find it.  And replay is in the order of the commits, not of the identifiers: the one after the greatest
    identifier seen misses a transaction committed later with a smaller one. *)
Theorem tx_log_errors_and_order max cs :
  Forall unseen (run exec cs (StorageTransactionLog_new max)).1
  ∧ let l := (run exec [CBegin 0; CBegin 0; CCommit 2 1; CCommit 1 2] (StorageTransactionLog_new 10)).2 in
    map tx_id (replay_committed 0 l) = [2; 1] ∧ replay_committed 2 l = [].
Proof.
  split; [|done]. rewrite (proj1 (run_refines max cs _ _ (refines_new max))). apply journal_unseen.
Qed.
