(* ===== verification/Manifest.v ===== *)
(** * Manifests of multi-file additions: [crates/ipfrs-core/src/manifest.rs]

    Hashes are the hexadecimal text of 64-bit FNV-1a; sums and products of [u64]s wrap around, as in
    a release build.  The creation time is an argument. *)

From Stdlib Require Import ZArith Lia List.
From stdpp Require Import base tactics numbers list gmap sets strings.
From S2P Require Import Prelude Collections.
#[local] Open Scope Z_scope.

(** ** FNV-1a *)
Definition FNV_OFFSET_BASIS_64 : Z := 14695981039346656037.
Definition FNV_PRIME_64 : Z := 1099511628211.
Definition fnv1a_64 (data : bytes) : Z :=
  foldl (λ hash byte, as_u64 (Z.lxor hash byte * FNV_PRIME_64)) FNV_OFFSET_BASIS_64 data.

(** [format!("{:016x}", n)] of a [u64]. *)
Definition hex_digit (d : Z) : Z := if d <? 10 then 48 + d else 87 + d.
Definition hex16 (n : Z) : bytes := map (λ i, hex_digit (Z.land (Z.shiftr n (4 * Z.of_nat i)) 15)) (rev (seq 0 16)).
Definition fnv1a_hex (data : bytes) : string := bytes_string (hex16 (fnv1a_64 data)).
Definition combine_hashes (left right : string) : string := fnv1a_hex (string_bytes left ++ string_bytes right).

(** ** [MerkleTree] *)
Record MerkleTree : Type := mkMerkleTree { leaves : list string; nodes : list string }.

(** The hashes of the level above: an odd last node is combined with itself. *)
Fixpoint next_level (level : list string) : list string :=
  match level with
  | [] => []
  | [x] => [combine_hashes x x]
  | x :: y :: level' => combine_hashes x y :: next_level level'
  end.
(** [while current_level.len() > 1]; [n], the number of leaves, bounds the number of levels. *)
Fixpoint build_levels (n : nat) (current_level all_nodes : list string) : list string :=
  match n with
  | O => all_nodes
  | S n' =>
    if (1 <? length current_level)%nat then
      let next := next_level current_level in build_levels n' next (all_nodes ++ next)
    else all_nodes
  end.
Definition build (cids : list string) : MerkleTree :=
  match cids with
  | [] => mkMerkleTree [] []
  | _ =>
    let leaf_hashes := map (λ c, fnv1a_hex (string_bytes c)) cids in
    mkMerkleTree cids (build_levels (length cids) leaf_hashes leaf_hashes)
  end.
Definition root (t : MerkleTree) : option string := last (nodes t).

Definition sibling_index (current_index level_size : nat) : nat :=
  if Nat.even current_index then Nat.min (current_index + 1) (level_size - 1) else (current_index - 1)%nat.
(** [while level_size > 1]; indexing out of range panics. *)
Fixpoint proof_loop (n : nat) (ns : list string) (current_index level_size level_start : nat) : outcome unit (list string) :=
  match n with
  | O => Ok []
  | S n' =>
    if (1 <? level_size)%nat then
      match ns !! (level_start + sibling_index current_index level_size)%nat with
      | Some h =>
        let! rest := proof_loop n' ns (Nat.div2 current_index) (Nat.div2 (S level_size)) (level_start + level_size) in
        Ok (h :: rest)
      | None => Panic
      end
    else Ok []
  end.
Definition proof_for (index : nat) (t : MerkleTree) : outcome unit (option (list string)) :=
  let n := length (leaves t) in
  if (n =? 0)%nat || (n <=? index)%nat then Ok None else
  let! proof := proof_loop n (nodes t) index n 0 in Ok (Some proof).

Fixpoint verify_loop (current_hash : string) (current_index : nat) (proof : list string) : string :=
  match proof with
  | [] => current_hash
  | sibling :: proof' =>
    verify_loop (if Nat.even current_index then combine_hashes current_hash sibling else combine_hashes sibling current_hash)
      (Nat.div2 current_index) proof'
  end.
Definition verify_proof (leaf : string) (index : nat) (proof : list string) (root : string) : bool :=
  bool_decide (verify_loop (fnv1a_hex (string_bytes leaf)) index proof = root).

(** ** [ContentManifest] *)
Record ManifestEntry : Type := mkEntry { path : string; cid : string; size_bytes : Z; chunk_index : Z; is_final_chunk : bool }.
#[global] Instance ManifestEntry_eq_dec : EqDecision ManifestEntry.
Proof. solve_decision. Defined.
Record ContentManifest : Type := mkManifest {
  manifest_id : string; entries : list ManifestEntry; root_cid : string; total_size_bytes : Z; created_at_ms : Z }.

Definition str_lt (s t : string) : bool := bool_decide (String.compare s t = Lt).
(** [a] is moved in front of [b]: by path, then by chunk. *)
Definition entry_before (a b : ManifestEntry) : bool :=
  match String.compare (path a) (path b) with
  | Lt => true
  | Eq => chunk_index a <? chunk_index b
  | Gt => false
  end.
Definition ContentManifest_new (now : Z) (es : list ManifestEntry) : ContentManifest :=
  let es := sort_by entry_before es in
  let sorted_cids := sort_by str_lt (map cid es) in
  mkManifest (fnv1a_hex (string_bytes (String.concat "" sorted_cids))) es (default ""%string (root (build (map cid es))))
    (foldl (λ n e, as_u64 (n + size_bytes e)) 0 es) now.

Definition get_entries_for_path (p : string) (m : ContentManifest) : list ManifestEntry := filter (λ e, path e = p) (entries m).
Definition total_chunks_for_path (p : string) (m : ContentManifest) : nat := length (get_entries_for_path p m).
Definition is_complete_for_path (p : string) (m : ContentManifest) : bool :=
  let path_entries := filter (λ e, path e = p) (entries m) in
  if bool_decide (path_entries = []) then false else
  match filter (λ e, is_final_chunk e = true) path_entries with
  | [final] =>
    let max_index := chunk_index final in
    if negb (Z.of_nat (length path_entries) =? max_index + 1) then false else
    let indices : gset Z := list_to_set (map chunk_index path_entries) in
    forallb (λ i, bool_decide (Z.of_nat i ∈ indices)) (seq 0 (Z.to_nat (max_index + 1)))
  | _ => false
  end.
Definition entry_count (m : ContentManifest) : nat := length (entries m).
(** The keys of an ordered set. *)
Definition paths (m : ContentManifest) : list string := map fst (bt_of_list (map (λ e, (path e, tt)) (entries m))).

(** ** [ManifestDiff] *)
Record ManifestDiff : Type := mkDiff { added : list ManifestEntry; removed : list ManifestEntry }.
Definition by_cid (m : ContentManifest) : list (string * ManifestEntry) := bt_of_list (map (λ e, (cid e, e)) (entries m)).
Definition diff (old new : ContentManifest) : ManifestDiff :=
  let missing_in (b : list (string * ManifestEntry)) := filter (λ p : string * ManifestEntry, bt_get p.1 b = None) in
  mkDiff (map snd (missing_in (by_cid old) (by_cid new))) (map snd (missing_in (by_cid new) (by_cid old))).
Definition diff_is_empty (d : ManifestDiff) : bool := bool_decide (added d = []) && bool_decide (removed d = []).
