(* ===== verification/ManifestFacts.v ===== *)
(** * Theorems about manifests

    The proofs a tree hands out verify and determine the leaf; a manifest does not depend on the
    order of its entries as long as no chunk is listed twice; completeness of a path. *)

From Stdlib Require Import ZArith Lia List Sorted.
From stdpp Require Import base tactics numbers list gmap sets strings sorting.
From S2P Require Import Prelude Collections Manifest.
#[local] Open Scope Z_scope.

(** ** The text of a hash *)
Lemma fnv1a_64_range data : 0 ≤ fnv1a_64 data < 2 ^ 64.
Proof.
  unfold fnv1a_64. assert (0 ≤ FNV_OFFSET_BASIS_64 < 2 ^ 64) as H0 by (unfold FNV_OFFSET_BASIS_64; lia).
  revert H0. generalize FNV_OFFSET_BASIS_64. induction data as [|b data IH]; intros h H0; simpl; [done|].
  apply IH. unfold as_u64. apply Z.mod_pos_bound. lia.
Qed.

Lemma hex_digit_inj a b : 0 ≤ a < 16 → 0 ≤ b < 16 → hex_digit a = hex_digit b → a = b.
Proof. unfold hex_digit. intros ??. destruct (Z.ltb_spec a 10), (Z.ltb_spec b 10); lia. Qed.
Lemma nibble_range n i : 0 ≤ Z.land (Z.shiftr n i) 15 < 16.
Proof. change 15 with (Z.ones 4). rewrite Z.land_ones by lia. apply Z.mod_pos_bound. lia. Qed.
Lemma hex_digit_range d : 0 ≤ d < 16 → 0 ≤ hex_digit d < 256.
Proof. unfold hex_digit. destruct (Z.ltb_spec d 10); lia. Qed.

Lemma hex16_inj n m : 0 ≤ n < 2 ^ 64 → 0 ≤ m < 2 ^ 64 → hex16 n = hex16 m → n = m.
Proof.
  intros Hn Hm H. assert (∀ i, (i < 16)%nat →
    Z.land (Z.shiftr n (4 * Z.of_nat i)) 15 = Z.land (Z.shiftr m (4 * Z.of_nat i)) 15) as Hi.
  { intros i Hi. apply hex_digit_inj; [apply nibble_range..|].
    revert H. unfold hex16. intros H. apply ext_in_map with (a := i) in H; [done|].
    rewrite <- in_rev. apply in_seq. lia. }
  apply Z.bits_inj'. intros k Hk. destruct (decide (k < 64)).
  - specialize (Hi (Z.to_nat (k / 4))). rewrite Z2Nat.id in Hi by (apply Z.div_pos; lia).
    apply (f_equal (λ z, Z.testbit z (k mod 4))) in Hi; [|apply Nat2Z.inj_lt; rewrite Z2Nat.id by (apply Z.div_pos; lia); apply Z.div_lt_upper_bound; lia].
    change 15 with (Z.ones 4) in Hi.
    assert (0 ≤ k mod 4 < 4) by (apply Z.mod_pos_bound; lia).
    rewrite !Z.land_spec, !Z.ones_spec_low, !andb_true_r, !Z.shiftr_spec in Hi by lia.
    replace (k mod 4 + 4 * (k / 4)) with k in Hi by (pose proof (Z.div_mod k 4 ltac:(lia)); lia). done.
  - rewrite <- (Z.mod_small n (2 ^ 64)), <- (Z.mod_small m (2 ^ 64)) by done.
    by rewrite !Z.mod_pow2_bits_high by lia.
Qed.

Lemma string_bytes_hex data : string_bytes (fnv1a_hex data) = hex16 (fnv1a_64 data).
Proof.
  apply string_bytes_string. unfold hex16. apply Forall_forall. intros b Hb.
  apply elem_of_list_map in Hb as (i & <- & _). apply hex_digit_range, nibble_range.
Qed.
Lemma length_hex data : length (string_bytes (fnv1a_hex data)) = 16%nat.
Proof. by rewrite string_bytes_hex. Qed.
Lemma fnv1a_hex_inj d e : fnv1a_hex d = fnv1a_hex e → fnv1a_64 d = fnv1a_64 e.
Proof.
  intros H%(f_equal string_bytes). rewrite !string_bytes_hex in H. by apply hex16_inj in H; [|apply fnv1a_64_range..].
Qed.

(** ** Levels of the tree *)
Lemma list_pair_ind {A} (P : list A → Prop) :
  P [] → (∀ x, P [x]) → (∀ x y l, P l → P (x :: y :: l)) → ∀ l, P l.
Proof.
  intros H0 H1 H2 l. enough (P l ∧ ∀ x, P (x :: l)) by tauto. induction l as [|x l [IH1 IH2]]; auto.
Qed.

Lemma length_next_level level : length (next_level level) = Nat.div2 (S (length level)).
Proof. induction level as [|x|x y l IH] using list_pair_ind; [done..|]. simpl next_level. simpl length. by rewrite IH. Qed.

Lemma sibling_index_SS i n : (i < n)%nat → sibling_index (S (S i)) (S (S n)) = S (S (sibling_index i n)).
Proof. unfold sibling_index. simpl Nat.even. destruct (Nat.even i) eqn:E; [lia|]. destruct i; [done|lia]. Qed.

Lemma level_above_lookup level i x : level !! i = Some x →
  ∃ s, level !! sibling_index i (length level) = Some s ∧
    next_level level !! Nat.div2 i = Some (if Nat.even i then combine_hashes x s else combine_hashes s x).
Proof.
  revert i. induction level as [|y|y z level IH] using list_pair_ind; intros i Hi.
  - done.
  - destruct i as [|i]; [|done]. injection Hi as ->. exists x. done.
  - destruct i as [|[|i]]; simpl in Hi.
    + injection Hi as ->. exists z. split; [|done]. done.
    + injection Hi as ->. exists y. done.
    + destruct (IH i Hi) as (s & Hs & Hn). exists s. split; [|done].
      rewrite <- Hs. simpl length. by rewrite sibling_index_SS by (eapply lookup_lt_Some; eauto).
Qed.

Lemma build_levels_acc n level acc : build_levels n level acc = acc ++ build_levels n level [].
Proof.
  revert level acc. induction n as [|n IH]; intros level acc; simpl; [by rewrite app_nil_r|].
  destruct (1 <? length level)%nat; [|by rewrite app_nil_r]. by rewrite IH, (IH _ (next_level level)), app_assoc.
Qed.

Lemma half_up_lt n : (1 < n)%nat → (Nat.div2 (S n) < n)%nat.
Proof. intros H. rewrite Nat.div2_div. apply Nat.Div0.div_lt_upper_bound. lia. Qed.

(** The hash at the end of the recomputed path is the last node. *)
Lemma proof_loop_ok n : ∀ level pre i x, (length level <= n)%nat → level !! i = Some x →
  ∃ proof, proof_loop n (pre ++ level ++ build_levels n level []) i (length level) (length pre) = Ok proof ∧
    last (level ++ build_levels n level []) = Some (verify_loop x i proof).
Proof.
  induction n as [|n IH]; intros level pre i x Hlen Hi.
  { apply lookup_lt_Some in Hi. lia. }
  cbn [proof_loop build_levels]. rewrite app_nil_l. destruct (Nat.ltb_spec 1 (length level)) as [H1|H1].
  - destruct (level_above_lookup level i x Hi) as (s & Hs & Hn).
    rewrite (lookup_app_r pre), Nat.add_sub_swap, Nat.sub_diag by lia. cbn [Nat.add].
    rewrite (lookup_app_l_Some _ _ _ _ Hs).
    edestruct (IH (next_level level) (pre ++ level) (Nat.div2 i)) as (proof & Hp & Hl); [|exact Hn|].
    { rewrite length_next_level. apply half_up_lt in H1. lia. }
    rewrite length_next_level, length_app in Hp. rewrite build_levels_acc.
    replace (pre ++ level ++ next_level level ++ build_levels n (next_level level) [])
      with ((pre ++ level) ++ next_level level ++ build_levels n (next_level level) []) by (by rewrite <- !app_assoc).
    rewrite Hp. exists (s :: proof). split; [done|]. simpl.
    by rewrite last_app, Hl.
  - destruct level as [|y [|z level]]; [done| |simpl in H1; lia].
    destruct i; [|done]. injection Hi as ->. exists []. done.
Qed.

Lemma build_ok cids i leaf : cids !! i = Some leaf →
  ∃ proof r, proof_for i (build cids) = Ok (Some proof) ∧ root (build cids) = Some r ∧
    verify_proof leaf i proof r = true.
Proof.
  intros Hi. destruct cids as [|c cids]; [done|]. set (hs := map (λ c, fnv1a_hex (string_bytes c)) (c :: cids)).
  assert (length hs = length (c :: cids)) as Hl by apply length_map.
  destruct (proof_loop_ok (length (c :: cids)) hs [] i (fnv1a_hex (string_bytes leaf))) as (proof & Hp & Hr).
  { lia. } { unfold hs. by rewrite list_lookup_fmap, Hi. }
  exists proof, (verify_loop (fnv1a_hex (string_bytes leaf)) i proof).
  unfold proof_for, root, build. cbn [leaves nodes]. fold hs.
  rewrite (build_levels_acc _ _ hs). rewrite Hl, app_nil_l in Hp. change (length []) with 0%nat in Hp. rewrite Hp.
  apply lookup_lt_Some in Hi. split_and!; [|done|by apply bool_decide_true].
  destruct (Nat.leb_spec (length (c :: cids)) i); [lia|done].
Qed.

(** ** What a proof determines

    The inputs that are hashed when a path is recomputed. *)
Fixpoint hashed_loop (current_hash : string) (current_index : nat) (proof : list string) : list bytes :=
  match proof with
  | [] => []
  | sibling :: proof' =>
    let input := if Nat.even current_index then string_bytes current_hash ++ string_bytes sibling
                 else string_bytes sibling ++ string_bytes current_hash in
    input :: hashed_loop (fnv1a_hex input) (Nat.div2 current_index) proof'
  end.
Definition hashed (leaf : string) (index : nat) (proof : list string) : list bytes :=
  string_bytes leaf :: hashed_loop (fnv1a_hex (string_bytes leaf)) index proof.
(** Two of the inputs at the same height differ and have the same hash. *)
Definition collide (l k : list bytes) : Prop := ∃ a b, (a, b) ∈ zip l k ∧ a ≠ b ∧ fnv1a_64 a = fnv1a_64 b.

Lemma collide_cons a b l k : collide l k → collide (a :: l) (b :: k).
Proof. intros (c & d & H & ?). exists c, d. split; [by right|done]. Qed.
Lemma hashed_or_collide a b l k : fnv1a_64 a = fnv1a_64 b → a = b ∨ collide (a :: l) (b :: k).
Proof. intros H. destruct (decide (a = b)); [by left|]. right. exists a, b. split; [left|done]. Qed.

Lemma verify_loop_inj proof : ∀ proof' d d' i, length proof' = length proof →
  verify_loop (fnv1a_hex d) i proof = verify_loop (fnv1a_hex d') i proof' →
  fnv1a_64 d = fnv1a_64 d' ∧ proof = proof' ∨ collide (hashed_loop (fnv1a_hex d) i proof) (hashed_loop (fnv1a_hex d') i proof').
Proof.
  induction proof as [|s proof IH]; intros [|s' proof'] d d' i Hl H; try discriminate Hl.
  { left. split; [by apply fnv1a_hex_inj|done]. }
  injection Hl as Hl. cbn [verify_loop hashed_loop] in *. unfold combine_hashes in H.
  destruct (Nat.even i);
    (destruct (IH proof' _ _ (Nat.div2 i) Hl H) as [[Hh ->]|Hc]; [|right; by apply collide_cons]);
    (edestruct hashed_or_collide as [Heq|Hc]; [exact Hh| |right; exact Hc]);
    [apply app_inj_1 in Heq as [H1 H2]|apply app_inj_2 in Heq as [H1 H2]]; rewrite ?length_hex; try reflexivity; left;
    (split; [by apply fnv1a_hex_inj, string_bytes_inj|f_equal; by apply string_bytes_inj]).
Qed.

Lemma verify_proof_inj leaf leaf' i proof proof' r :
  verify_proof leaf i proof r = true → verify_proof leaf' i proof' r = true → length proof' = length proof →
  leaf' = leaf ∧ proof' = proof ∨ collide (hashed leaf i proof) (hashed leaf' i proof').
Proof.
  intros <-%bool_decide_eq_true H%bool_decide_eq_true Hl.
  destruct (verify_loop_inj proof proof' (string_bytes leaf) (string_bytes leaf') i Hl (eq_sym H)) as [[Hh ->]|Hc];
    [|right; by apply collide_cons].
  edestruct hashed_or_collide as [Heq|Hc]; [exact Hh| |right; exact Hc].
  left. split; [by apply string_bytes_inj|done].
Qed.

(** C36. The tree over a list of CIDs has a root, and for every position it hands out a proof (no
    index leaves the array of nodes) with which the CID at that position verifies against the root.
    Another CID, or another proof, of the same length verifies at that position only if two of the
    texts hashed along the way collide. *)
Theorem manifest_proofs cids i leaf (Hi : cids !! i = Some leaf) :
  ∃ proof r, proof_for i (build cids) = Ok (Some proof) ∧ root (build cids) = Some r ∧
    verify_proof leaf i proof r = true ∧
    ∀ leaf' proof', verify_proof leaf' i proof' r = true → length proof' = length proof →
      leaf' = leaf ∧ proof' = proof ∨ collide (hashed leaf i proof) (hashed leaf' i proof').
Proof.
  destruct (build_ok cids i leaf Hi) as (proof & r & Hp & Hr & Hv). exists proof, r. split_and!; try done.
  intros leaf' proof'. by apply verify_proof_inj.
Qed.
Lemma manifest_proofs_witness : ∃ proof r, proof_for 2 (build ["a"; "b"; "c"]%string) = Ok (Some proof) ∧
  root (build ["a"; "b"; "c"]%string) = Some r ∧ verify_proof "c" 2 proof r = true.
Proof.
  destruct (manifest_proofs ["a"; "b"; "c"]%string 2 "c"%string eq_refl) as (proof & r & H1 & H2 & H3 & _). exists proof, r.
  split; [exact H1|]. split; [exact H2|exact H3].
Defined.

(** The length of a proof is not checked, and leaves are hashed like nodes: the text of the two
    hashes below the root passes as a leaf with an empty proof. *)
Lemma nodes_pass_as_leaves a b : ∃ leaf r,
  root (build [a; b]) = Some r ∧ verify_proof leaf 0 [] r = true ∧ String.length leaf = 32%nat.
Proof.
  set (ha := fnv1a_hex (string_bytes a)). set (hb := fnv1a_hex (string_bytes b)).
  exists (bytes_string (string_bytes ha ++ string_bytes hb)), (combine_hashes ha hb).
  assert (string_bytes (bytes_string (string_bytes ha ++ string_bytes hb)) = string_bytes ha ++ string_bytes hb) as Hs.
  { apply string_bytes_string. unfold ha, hb. rewrite !string_bytes_hex. unfold hex16. apply Forall_app.
    split; apply Forall_forall; intros x (j & <- & _)%elem_of_list_map; apply hex_digit_range, nibble_range. }
  split_and!; [done| |].
  - apply bool_decide_true. unfold verify_loop. by rewrite Hs.
  - rewrite <- length_string_bytes, Hs, length_app. unfold ha, hb. by rewrite !length_hex.
Qed.

(** ** The order of the entries *)
Definition key (e : ManifestEntry) : string * Z := (path e, chunk_index e).
Definition entry_le (a b : ManifestEntry) : Prop := slt (path a) (path b) ∨ path a = path b ∧ chunk_index a <= chunk_index b.
#[global] Instance entry_le_trans : Transitive entry_le.
Proof.
  intros a b c [H|[H ?]] [H'|[H' ?]]; unfold entry_le.
  - left. by etrans.
  - left. by rewrite <- H'.
  - left. by rewrite H.
  - right. split; [congruence|lia].
Qed.
Lemma entry_le_antisym a b : entry_le a b → entry_le b a → key a = key b.
Proof.
  unfold key. intros [H|[H ?]] [H'|[H' ?]].
  - by destruct (slt_irrefl _ (slt_trans _ _ _ H H')).
  - rewrite H' in H. by apply slt_irrefl in H.
  - rewrite H in H'. by apply slt_irrefl in H'.
  - f_equal; [done|lia].
Qed.
Lemma entry_before_true a b : entry_before a b = true → entry_le a b.
Proof.
  unfold entry_before, entry_le, slt. destruct (String.compare _ _) eqn:E; [|auto|done].
  apply String.compare_eq_iff in E. intros H%Z.ltb_lt. right. split; [done|lia].
Qed.
Lemma entry_before_false a b : entry_before a b = false → entry_le b a.
Proof.
  unfold entry_before, entry_le. destruct (String.compare _ _) eqn:E; [|done|].
  - apply String.compare_eq_iff in E. intros H%Z.ltb_ge. by right.
  - intros _. left. by apply string_compare_gt.
Qed.

Lemma sort_entries es : sort_by entry_before es ≡ₚ es ∧ StronglySorted entry_le (sort_by entry_before es).
Proof. apply (sort_by_spec _ entry_le); [apply entry_before_true|apply entry_before_false]. Qed.

Lemma NoDup_key_inj es a b : NoDup (key <$> es) → a ∈ es → b ∈ es → key a = key b → a = b.
Proof.
  intros Hnd (i & Hi)%list_elem_of_lookup (j & Hj)%list_elem_of_lookup Heq.
  assert (i = j) as ->; [|congruence].
  eapply NoDup_lookup; [exact Hnd|..]; rewrite list_lookup_fmap, ?Hi, ?Hj; simpl; [done|congruence].
Qed.

Lemma sort_entries_perm es es' : es ≡ₚ es' → NoDup (key <$> es) → sort_by entry_before es = sort_by entry_before es'.
Proof.
  intros Hp Hnd. destruct (sort_entries es) as [H1 S1], (sort_entries es') as [H2 S2].
  eapply StronglySorted_unique_strong; [|exact S1|exact S2|by rewrite H1, H2].
  intros a b Ha Hb Hab Hba. rewrite H1 in Ha. rewrite H2, <- Hp in Hb.
  eapply NoDup_key_inj; eauto using entry_le_antisym.
Qed.

Definition str_le (s t : string) : Prop := slt s t ∨ s = t.
#[global] Instance str_le_trans : Transitive str_le.
Proof. intros s t u [H| ->] [H'| ->]; unfold str_le; auto. left. by etrans. Qed.
#[global] Instance str_le_antisym : AntiSymm (=) str_le.
Proof. intros s t [H|H] [H'|H']; auto. by destruct (slt_irrefl _ (slt_trans _ _ _ H H')). Qed.
Lemma sort_strings_perm l k : l ≡ₚ k → sort_by str_lt l = sort_by str_lt k.
Proof.
  intros Hp. assert (∀ l, sort_by str_lt l ≡ₚ l ∧ StronglySorted str_le (sort_by str_lt l)) as H.
  { intros m. apply sort_by_spec; [apply _|..]; unfold str_lt, str_le, slt; intros s t.
    - intros ?%bool_decide_eq_true. by left.
    - intros Hn%bool_decide_eq_false. destruct (String.compare s t) eqn:E; [|done|left; by apply string_compare_gt].
      right. symmetry. by apply String.compare_eq_iff. }
  destruct (H l) as [H1 S1], (H k) as [H2 S2]. apply (StronglySorted_unique str_le); [exact S1|exact S2|by rewrite H1, H2].
Qed.

Lemma total_size_perm es es' n : es ≡ₚ es' →
  foldl (λ n e, as_u64 (n + size_bytes e)) n es = foldl (λ n e, as_u64 (n + size_bytes e)) n es'.
Proof.
  intros Hp. revert n. induction Hp as [|e l l' _ IH|a b l|l1 l2 l3 _ IH1 _ IH2]; intros n; simpl; auto.
  - rewrite !as_u64_add. f_equal. f_equal. lia.
  - by rewrite IH1.
Qed.

Definition twice (c : string) : ManifestEntry := mkEntry "f" c 1 0 true.

(** Reordering the entries a manifest is made of changes neither its identifier nor its size;
    when no chunk of a path is listed twice it changes nothing.  When one is, the entries stay in
    the order in which they were given, and two orders of the same entries give different roots. *)
Theorem manifest_order :
  (∀ now es es', es ≡ₚ es' →
    let m := ContentManifest_new now es in let m' := ContentManifest_new now es' in
    manifest_id m = manifest_id m' ∧ total_size_bytes m = total_size_bytes m' ∧ entries m ≡ₚ entries m' ∧
    (NoDup (key <$> es) → m = m')) ∧
  root_cid (ContentManifest_new 0 [twice "x"; twice "y"]) ≠ root_cid (ContentManifest_new 0 [twice "y"; twice "x"]).
Proof.
  split; [|by vm_compute].
  intros now es es' Hp m m'. destruct (sort_entries es) as [H1 _], (sort_entries es') as [H2 _].
  assert (sort_by str_lt (map cid (sort_by entry_before es)) = sort_by str_lt (map cid (sort_by entry_before es'))) as Hc.
  { apply sort_strings_perm, Permutation_map. by rewrite H1, H2. }
  assert (entries m ≡ₚ entries m') as He by (unfold m, m'; simpl; by rewrite H1, H2).
  split_and!; [by unfold m, m'; simpl; rewrite Hc|by apply total_size_perm|done|].
  intros Hnd. unfold m, m', ContentManifest_new. by rewrite (sort_entries_perm es es').
Qed.
Lemma manifest_order_witness :
  ContentManifest_new 7 [mkEntry "f" "a" 1 0 false; mkEntry "f" "b" 2 1 true] =
  ContentManifest_new 7 [mkEntry "f" "b" 2 1 true; mkEntry "f" "a" 1 0 false].
Proof. apply manifest_order; [apply perm_swap|apply (bool_decide_unpack _); exact I]. Defined.

(** ** Complete paths *)
Lemma complete_exact p m : is_complete_for_path p m = true ↔
  ∃ f, filter (λ e, is_final_chunk e = true) (get_entries_for_path p m) = [f] ∧
    chunk_index f = Z.of_nat (total_chunks_for_path p m) - 1 ∧
    chunk_index <$> get_entries_for_path p m ≡ₚ seqZ 0 (Z.of_nat (total_chunks_for_path p m)).
Proof.
  unfold is_complete_for_path, total_chunks_for_path. fold (get_entries_for_path p m). set (pe := get_entries_for_path p m).
  case_bool_decide as Hpe. { rewrite Hpe. split; [done|by intros (f & ? & _)]. }
  destruct (filter _ pe) as [|f [|g fs]]; [split; [done|by intros (f & ? & _)]| |split; [done|by intros (f' & ? & _)]].
  destruct (Z.eqb_spec (Z.of_nat (length pe)) (chunk_index f + 1)) as [Hl|Hl]; simpl;
    [|split; [done|intros (f' & [= <-] & ? & _); lia]].
  rewrite forallb_forall. setoid_rewrite bool_decide_eq_true. setoid_rewrite elem_of_list_to_set. split.
  - intros H. exists f. split_and!; [done|lia|]. symmetry. apply submseteq_length_Permutation.
    + apply NoDup_submseteq; [apply NoDup_seqZ|]. intros x Hx%elem_of_seqZ.
      rewrite <- (Z2Nat.id x) by lia. apply H, in_seq. split; [lia|]. apply Nat2Z.inj_lt. rewrite Nat2Z.inj_add, !Z2Nat.id; lia.
    + rewrite length_fmap, length_seqZ. lia.
  - intros (f' & [= <-] & _ & Hp) i [_ Hi]%in_seq. change (map chunk_index pe) with (chunk_index <$> pe).
    rewrite Hp. apply elem_of_seqZ. lia.
Qed.

Lemma chunks_sorted p l : StronglySorted entry_le l → StronglySorted Z.le (chunk_index <$> filter (λ e, path e = p) l).
Proof.
  induction 1 as [|a l _ IH Ha]; [constructor|]. rewrite filter_cons. case_decide as Hp; [|done].
  simpl. constructor; [done|]. apply Forall_fmap, Forall_forall. intros b [Hb Hin]%list_elem_of_filter.
  rewrite Forall_forall in Ha. destruct (Ha b Hin) as [Hlt|[_ Hle]]; [|done].
  rewrite Hp, Hb in Hlt. by apply slt_irrefl in Hlt.
Qed.
Lemma seqZ_sorted m n : StronglySorted Z.le (seqZ m (Z.of_nat n)).
Proof.
  revert m. induction n as [|n IH]; intros m; [constructor|]. rewrite seqZ_cons by lia.
  replace (Z.pred (Z.of_nat (S n))) with (Z.of_nat n) by lia. constructor; [apply IH|].
  apply Forall_forall. intros x ?%elem_of_seqZ. lia.
Qed.

Lemma last_chunk pe f n : chunk_index <$> pe = seqZ 0 (Z.of_nat n) → f ∈ pe → chunk_index f = Z.of_nat n - 1 →
  ∃ init, pe = init ++ [f].
Proof.
  intros Hs (j & Hj)%list_elem_of_lookup Hf. assert (length pe = n) as Hn.
  { apply (f_equal length) in Hs. rewrite length_fmap, length_seqZ in Hs. lia. }
  assert (j = Nat.pred n) as ->.
  { apply (f_equal (.!! j)) in Hs. rewrite list_lookup_fmap, Hj in Hs. symmetry in Hs. apply lookup_seqZ in Hs. lia. }
  exists (take (Nat.pred n) pe). rewrite <- (take_drop (Nat.pred n) pe) at 1. f_equal.
  rewrite (drop_S _ _ _ Hj), drop_ge; [done|]. apply lookup_lt_Some in Hj. lia.
Qed.

(** A path of a manifest is complete exactly when the entries returned for it are, in this
    order, the chunks 0, 1, 2, ... without gap or repetition, the last of them is marked as final
    and no other is. *)
Theorem complete_path now es p :
  let m := ContentManifest_new now es in
  is_complete_for_path p m = true ↔
  ∃ init f, get_entries_for_path p m = init ++ [f] ∧
    chunk_index <$> init ++ [f] = seqZ 0 (Z.of_nat (total_chunks_for_path p m)) ∧
    is_final_chunk f = true ∧ Forall (λ e, is_final_chunk e = false) init.
Proof.
  intros m. rewrite complete_exact. unfold total_chunks_for_path. set (pe := get_entries_for_path p m).
  assert (StronglySorted Z.le (chunk_index <$> pe)) as Hs by apply chunks_sorted, sort_entries. split.
  - intros (f & Hf & Hi & Hp). assert (f ∈ filter (λ e, is_final_chunk e = true) pe) as [Hff Hin]%list_elem_of_filter.
    { rewrite Hf. left. }
    apply (StronglySorted_unique Z.le) in Hp; [|done|apply seqZ_sorted].
    destruct (last_chunk _ _ _ Hp Hin Hi) as [init Hpe]. exists init, f. rewrite <- Hpe. split_and!; try done.
    rewrite Hpe, filter_app, filter_cons_True in Hf by done. apply (app_inj_tail _ []) in Hf as [Hf _].
    apply Forall_forall. intros e He. destruct (is_final_chunk e) eqn:E; [|done].
    assert (e ∈ filter (λ e, is_final_chunk e = true) init) as Hin' by (by apply list_elem_of_filter).
    rewrite Hf in Hin'. by apply elem_of_nil in Hin'.
  - intros (init & f & -> & Hc & Hf & Hinit). exists f. split_and!; [| |by rewrite Hc].
    + rewrite filter_app, filter_cons_True by done. assert (filter (λ e, is_final_chunk e = true) init = []) as ->; [|done].
      clear -Hinit. induction Hinit as [|e l He _ IH]; [done|]. rewrite filter_cons_False; [done|by rewrite He].
    + apply (f_equal (.!! length init)) in Hc. rewrite list_lookup_fmap, list_lookup_middle in Hc by done.
      symmetry in Hc. apply lookup_seqZ in Hc as [-> _]. rewrite length_app. simpl. lia.
Qed.
Lemma complete_path_witness :
  is_complete_for_path "f" (ContentManifest_new 7 [mkEntry "f" "b" 2 1 true; mkEntry "f" "a" 1 0 false]) = true.
Proof.
  apply complete_path. exists [mkEntry "f" "a" 1 0 false], (mkEntry "f" "b" 2 1 true). split; [reflexivity|].
  split; [reflexivity|]. split; [reflexivity|]. repeat constructor.
Defined.

(** ** Differences *)
Lemma bt_get_fold (l : list (string * ManifestEntry)) k : ∀ m, bt_get k (fold_left (λ m p, bt_insert p.1 p.2 m) l m) = None ↔
  bt_get k m = None ∧ k ∉ l.*1.
Proof.
  induction l as [|[k' v] l IH]; intros m; simpl; [rewrite elem_of_nil; tauto|]. rewrite IH, elem_of_cons.
  destruct (decide (k = k')) as [->|Hne]; [rewrite bt_get_insert_eq|rewrite bt_get_insert_ne by done]; naive_solver.
Qed.
Lemma by_cid_None m c : bt_get c (by_cid m) = None ↔ c ∉ cid <$> entries m.
Proof.
  unfold by_cid, bt_of_list. rewrite bt_get_fold. replace (map (λ e, (cid e, e)) (entries m)).*1 with (cid <$> entries m); [naive_solver|].
  change (cid <$> entries m = fst <$> ((λ e, (cid e, e)) <$> entries m)). by rewrite <- list_fmap_compose.
Qed.
Lemma bt_of_list_in (l : list (string * ManifestEntry)) p : ∀ m, p ∈ fold_left (λ m p, bt_insert p.1 p.2 m) l m → p ∈ m ∨ p ∈ l.
Proof.
  induction l as [|[k v] l IH]; intros m H; simpl in *; [by left|].
  destruct (IH _ H) as [[->|?]%bt_insert_keys|?]; [right; left|by left|right; by right].
Qed.
Lemma by_cid_in m c e : (c, e) ∈ by_cid m → c = cid e ∧ e ∈ entries m.
Proof.
  intros [Hn|Hin]%bt_of_list_in; [by apply elem_of_nil in Hn|]. apply elem_of_list_map in Hin as (e' & [= <- <-] & ?). done.
Qed.
Lemma by_cid_bound m c : c ∈ cid <$> entries m → ∃ e, (c, e) ∈ by_cid m.
Proof.
  intros Hc. destruct (bt_get c (by_cid m)) as [e|] eqn:E; [|by apply by_cid_None in E].
  exists e. by apply bt_get_elem_of.
Qed.

(** What [diff] adds are entries of the new manifest, one for each CID that the old one lacks; what
    it removes is what the reverse comparison adds. *)
Lemma diff_exact old new :
  (∀ e, e ∈ added (diff old new) → e ∈ entries new) ∧
  (∀ c, c ∈ cid <$> added (diff old new) ↔ c ∈ cid <$> entries new ∧ c ∉ cid <$> entries old) ∧
  removed (diff old new) = added (diff new old).
Proof.
  assert (∀ e, e ∈ added (diff old new) ↔ (cid e, e) ∈ by_cid new ∧ cid e ∉ cid <$> entries old) as H.
  { intros e. unfold diff. cbn [added]. rewrite elem_of_list_map. split.
    - intros ([c e'] & <- & [Hn Hin]%list_elem_of_filter). simpl in *. pose proof Hin as [-> _]%by_cid_in.
      by apply by_cid_None in Hn.
    - intros [Hin Hn]. exists (cid e, e). split; [done|]. apply list_elem_of_filter. split; [by apply by_cid_None|done]. }
  split_and!; [|intros c; split|done].
  - intros e [Hin _]%H. by apply by_cid_in in Hin as [_ ?].
  - intros (e & -> & [Hin Hn]%H)%list_elem_of_fmap. apply by_cid_in in Hin as [_ ?]. split; [by apply list_elem_of_fmap_2|done].
  - intros [(e & He)%by_cid_bound Hn]. pose proof He as [-> _]%by_cid_in. apply list_elem_of_fmap_2, H. done.
Qed.

(** Manifests with the same CIDs have no difference: a file that moved to another path is not seen. *)
Lemma diff_empty_iff old new : diff_is_empty (diff old new) = true ↔
  ∀ c, c ∈ cid <$> entries old ↔ c ∈ cid <$> entries new.
Proof.
  destruct (diff_exact old new) as (_ & Ha & Hr), (diff_exact new old) as (_ & Hb & _).
  unfold diff_is_empty. rewrite Hr, andb_true_iff, !bool_decide_eq_true. split.
  - intros [E1 E2] c. specialize (Ha c). specialize (Hb c). rewrite E1 in Ha. rewrite E2 in Hb. simpl in *.
    rewrite elem_of_nil in Ha, Hb. destruct (decide (c ∈ cid <$> entries old)), (decide (c ∈ cid <$> entries new)); tauto.
  - intros H. split; [destruct (added (diff old new)) as [|e l] eqn:E|destruct (added (diff new old)) as [|e l] eqn:E]; try done; exfalso.
    + destruct (proj1 (Ha (cid e))) as [H1 H2]; [left|]. by apply H2, H.
    + destruct (proj1 (Hb (cid e))) as [H1 H2]; [left|]. by apply H2, H.
Qed.
