(* ===== verification/Node.v ===== *)
(** * The node: [crates/ipfrs/src/]

    The pins of a node ([pin.rs]); the collector, the checker and the analyser it runs over its store
    and its pins ([gc.rs], [fsck.rs], [repo.rs]); its block, DAG, pin and repository operations
    ([node/]).  A node is its store, absent before [start] and after [stop], and its pins.  The store is
    any [ColdStore] (in the program a cache in front of a database).  What the network answers is an
    argument of [get]; announcements, metrics, logging, durations and the texts of errors are left out.
    The files that are added and the files that are written are data: [FsEntry] is what is found at a
    path, [FsOp] what is done to the file system. *)

From Stdlib Require Import ZArith Lia List Ascii.
From stdpp Require Import base tactics numbers list gmap sets strings fin_maps.
From S2P Require Import Prelude Collections Cid Ipld Block ColdStore StorageGc.

(** ** Pins

    The manager keeps the pinned CIDs, the CIDs that recursive pins reach, and for each recursive pin
    the CIDs it reaches.  A call takes the locks it needs and runs to its end.  Saving and loading go
    through the [oxicode] crate and the file system; [pins_to_serde] is the part before the encoding
    and [load_pins] the part after the decoding.  Creation times are arguments. *)
Inductive PinType : Type := Direct | Recursive.
#[global] Instance PinType_eq_dec : EqDecision PinType.
Proof. solve_decision. Defined.

Section pins.
Context `{CidCrate}.

Record PinInfo : Type := mkPinInfo {
  pin_cid : Cid;
  pin_type : PinType;
  pin_name : option string;
  created : Z;
}.

Record PinManager : Type := mkPinManager {
  pins : gmap Cid PinInfo;
  indirect_pins : gset Cid;
  recursive_deps : gmap Cid (gset Cid);
}.
Definition PinManager_new : PinManager := mkPinManager ∅ ∅ ∅.

(** ** Pinning *)
Definition pin (now : Z) (cid : Cid) (t : PinType) (nm : option string) (m : PinManager) : PinManager :=
  mkPinManager (<[cid := mkPinInfo cid t nm now]> (pins m)) (indirect_pins m) (recursive_deps m).

Definition add_dep (root_cid cid : Cid) (deps : gmap Cid (gset Cid)) : gmap Cid (gset Cid) :=
  <[root_cid := {[cid]} ∪ default ∅ (deps !! root_cid)]> deps.
Definition add_indirect (root_cid indirect_cid : Cid) (m : PinManager) : PinManager :=
  mkPinManager (pins m) ({[indirect_cid]} ∪ indirect_pins m) (add_dep root_cid indirect_cid (recursive_deps m)).
(** The entry of the root is made even when there is nothing to add. *)
Definition add_indirect_many (root_cid : Cid) (indirect_cids : list Cid) (m : PinManager) : PinManager :=
  let dep_set := default ∅ (recursive_deps m !! root_cid) in
  let '(indirect, dep_set) :=
    foldl (λ '(indirect, dep_set) cid, ({[cid]} ∪ indirect, {[cid]} ∪ dep_set)) (indirect_pins m, dep_set) indirect_cids in
  mkPinManager (pins m) indirect (<[root_cid := dep_set]> (recursive_deps m)).

(** ** Unpinning *)
Definition still_needed (deps : gmap Cid (gset Cid)) (cid : Cid) : bool :=
  existsb (λ set : gset Cid, bool_decide (cid ∈ set)) (map snd (map_to_list deps)).
Definition unpin (cid : Cid) (_recursive : bool) : stateful PinManager Error unit := λ m,
  match pins m !! cid with
  | Some pin_info =>
    let ps := delete cid (pins m) in
    if decide (pin_type pin_info = Recursive) then
      match recursive_deps m !! cid with
      | Some indirect_cids =>
        let deps := delete cid (recursive_deps m) in
        let indirect :=
          set_fold (λ indirect_cid indirect, if still_needed deps indirect_cid then indirect else indirect ∖ {[indirect_cid]})
            (indirect_pins m) indirect_cids in
        (Ok tt, mkPinManager ps indirect deps)
      | None => (Ok tt, mkPinManager ps (indirect_pins m) (recursive_deps m))
      end
    else (Ok tt, mkPinManager ps (indirect_pins m) (recursive_deps m))
  | None => (Err NotFound, m)
  end.

(** ** Queries *)
Definition is_directly_pinned (cid : Cid) (m : PinManager) : bool := bool_decide (is_Some (pins m !! cid)).
Definition is_pinned (cid : Cid) (m : PinManager) : bool :=
  if is_directly_pinned cid m then true else bool_decide (cid ∈ indirect_pins m).
Definition get_pin (cid : Cid) (m : PinManager) : option PinInfo := pins m !! cid.
Definition count (m : PinManager) : nat := size (pins m).
Definition indirect_count (m : PinManager) : nat := size (indirect_pins m).
Definition clear (_ : PinManager) : PinManager := PinManager_new.

(** The values of the hash map, in its order. *)
Section order.
Context `{!HashIter Cid}.
Definition list_pins (m : PinManager) : list PinInfo := map snd (hash_iter (pins m)).
End order.

(** ** Persistence *)
Record PinInfoSerde : Type := mkPinInfoSerde {
  s_cid_str : string; s_pin_type : PinType; s_name : option string; s_created : Z }.

Section text.
(** [Cid::to_string] and [Cid::from_str]. *)
Context `{!HashIter Cid} (to_string : Cid → string) (from_str : string → option Cid).

Definition to_serde (i : PinInfo) : PinInfoSerde := mkPinInfoSerde (to_string (pin_cid i)) (pin_type i) (pin_name i) (created i).
Definition into_pin_info (i : PinInfoSerde) : outcome Error PinInfo :=
  let! cid := ok_or (from_str (s_cid_str i)) Serialization in
  Ok (mkPinInfo cid (s_pin_type i) (s_name i) (s_created i)).

Definition pins_to_serde (m : PinManager) : list PinInfoSerde := map to_serde (list_pins m).
Fixpoint load_loop (l : list PinInfoSerde) : stateful PinManager Error unit :=
  match l with
  | [] => lift (Ok tt)
  | pin_serde :: l' =>
    do! i := lift (into_pin_info pin_serde) in
    do! _ := modifies (λ m, mkPinManager (<[pin_cid i := i]> (pins m)) (indirect_pins m) (recursive_deps m)) in
    load_loop l'
  end.
(** The pins are cleared first; what the recursive pins reach is left as it was. *)
Definition load_pins (l : list PinInfoSerde) : stateful PinManager Error unit :=
  do! _ := modifies (λ m, mkPinManager ∅ (indirect_pins m) (recursive_deps m)) in
  load_loop l.
End text.
End pins.

(** ** Maintenance: a run's own calls are not interleaved with other changes *)
#[local] Open Scope Z_scope.
Section repo.
Context `{CidCrate} `{!HashIter Cid} {K : Type} `{!ColdStore K}.

(** [if let Ok(ipld) = Ipld::from_dag_cbor(block.data())], whose links follow. *)
Definition data_links (b : bytes) : outcome Error (list Cid) :=
  match from_dag_cbor b with
  | Ok i => Ok (links i)
  | Err _ => Ok []
  | Panic => Panic
  | OutOfFuel => OutOfFuel
  end.

(** ** [gc.rs] *)
Record GcConfig : Type := mkGcConfig { min_age_seconds : Z; max_blocks_per_run : Z; gc_dry_run : bool }.
Definition GcConfig_default : GcConfig := mkGcConfig 3600 0 false.
Record GcStats : Type := mkGcStats {
  blocks_collected : Z; bytes_freed : Z; blocks_marked : nat; blocks_scanned : nat; cancelled : bool }.

(** [reachable.insert(link_cid)]: links seen for the first time are to be visited. *)
Fixpoint visit_links (ls : list Cid) (reachable : gset Cid) (to_visit : list Cid) : gset Cid * list Cid :=
  match ls with
  | [] => (reachable, to_visit)
  | link_cid :: ls' =>
    if decide (link_cid ∈ reachable) then visit_links ls' reachable to_visit
    else visit_links ls' ({[link_cid]} ∪ reachable) (to_visit ++ [link_cid])
  end.
(** [while let Some(cid) = to_visit.pop()]. *)
Fixpoint mark_loop (fuel : nat) (k : K) (reachable : gset Cid) (to_visit : list Cid) : outcome Error (gset Cid) :=
  match last to_visit, fuel with
  | None, _ => Ok reachable
  | Some _, O => OutOfFuel
  | Some cid, S fuel' =>
    let to_visit := removelast to_visit in
    let! block := cold_get cid k in
    match block with
    | Some data =>
      let! ls := data_links data in
      let '(reachable, to_visit) := visit_links ls reachable to_visit in
      mark_loop fuel' k reachable to_visit
    | None => mark_loop fuel' k reachable to_visit
    end
  end.
Definition mark_reachable (fuel : nat) (pm : PinManager) (k : K) : outcome Error (gset Cid) :=
  let roots := map pin_cid (list_pins pm) in
  mark_loop fuel k (list_to_set roots) roots.

Fixpoint sweep_loop (config : GcConfig) (reachable : gset Cid) (all_cids : list Cid) (freed collected_count : Z) :
    stateful K Error (Z * Z) :=
  match all_cids with
  | [] => lift (Ok (freed, collected_count))
  | cid :: all_cids' =>
    if (0 <? max_blocks_per_run config) && (max_blocks_per_run config <=? collected_count)
    then lift (Ok (freed, collected_count)) else
    if decide (cid ∈ reachable) then sweep_loop config reachable all_cids' freed collected_count else
    do! block := reads (cold_get cid) in
    match block with
    | Some data =>
      do! _ := (if negb (gc_dry_run config) then cold_delete cid else lift (Ok tt)) in
      sweep_loop config reachable all_cids' (as_u64 (freed + block_size (from_parts cid data))) (as_u64 (collected_count + 1))
    | None => sweep_loop config reachable all_cids' freed collected_count
    end
  end.
Definition gc_collect (fuel : nat) (config : GcConfig) (pm : PinManager) : stateful K Error GcStats :=
  do! reachable := reads (mark_reachable fuel pm) in
  do! all_cids := reads cold_list in
  do! (freed, collected_count) := sweep_loop config reachable all_cids 0 0 in
  lift (Ok (mkGcStats collected_count freed (size reachable) (length all_cids) false)).

Definition count_unpinned (pm : PinManager) (k : K) : outcome Error nat :=
  let! all_cids := cold_list k in
  Ok (length (filter (λ c, is_pinned c pm = false) all_cids)).
Fixpoint freeable_loop (pm : PinManager) (k : K) (all_cids : list Cid) (total : Z) : outcome Error Z :=
  match all_cids with
  | [] => Ok total
  | cid :: all_cids' =>
    if is_pinned cid pm then freeable_loop pm k all_cids' total else
    let! block := cold_get cid k in
    freeable_loop pm k all_cids'
      (match block with Some data => as_u64 (total + block_size (from_parts cid data)) | None => total end)
  end.
Definition estimate_freeable_space (pm : PinManager) (k : K) : outcome Error Z :=
  let! all_cids := cold_list k in freeable_loop pm k all_cids 0.

(** ** [fsck.rs] *)
Record FsckResult : Type := mkFsckResult {
  blocks_checked : nat;
  blocks_valid : nat;
  blocks_corrupt : list Cid;
  blocks_missing : list Cid;
  ipld_invalid : list Cid;
}.
Definition is_healthy (r : FsckResult) : bool :=
  bool_decide (blocks_corrupt r = []) && bool_decide (blocks_missing r = []).
Definition total_issues (r : FsckResult) : nat :=
  length (blocks_corrupt r) + length (blocks_missing r) + length (ipld_invalid r).
Definition add_valid (r : FsckResult) : FsckResult :=
  mkFsckResult (blocks_checked r) (S (blocks_valid r)) (blocks_corrupt r) (blocks_missing r) (ipld_invalid r).
Definition add_corrupt (c : Cid) (r : FsckResult) : FsckResult :=
  mkFsckResult (blocks_checked r) (blocks_valid r) (blocks_corrupt r ++ [c]) (blocks_missing r) (ipld_invalid r).
Definition add_missing (l : list Cid) (r : FsckResult) : FsckResult :=
  mkFsckResult (blocks_checked r) (blocks_valid r) (blocks_corrupt r) (blocks_missing r ++ l) (ipld_invalid r).
Definition add_invalid (c : Cid) (r : FsckResult) : FsckResult :=
  mkFsckResult (blocks_checked r) (blocks_valid r) (blocks_corrupt r) (blocks_missing r) (ipld_invalid r ++ [c]).

Record FsckConfig : Type := mkFsckConfig { check_ipld : bool; verify_references : bool; max_depth : option nat }.
Definition FsckConfig_default : FsckConfig := mkFsckConfig true true (Some 100%nat).

Definition check_block (cid : Cid) (k : K) : outcome Error bool :=
  let! block := cold_get cid k in
  match block with
  | Some data =>
    let! recomputed_block := Block_new data in
    Ok (bool_decide (b_cid recomputed_block = cid))
  | None => Err NotFound
  end.

Definition looks_like_ipld (data : bytes) : bool :=
  match data with
  | [] => false
  | first_byte :: _ => let major_type := Z.shiftr first_byte 5 in (major_type =? 4) || (major_type =? 5)
  end.

(** The loop over the links of one value; [rec] checks the links of a child. *)
Section links.
Context (k : K) (rec : list Cid → gset Cid → outcome Error (list Cid * gset Cid)).
Fixpoint check_links (ls : list Cid) (checked : gset Cid) (missing : list Cid) : outcome Error (list Cid * gset Cid) :=
  match ls with
  | [] => Ok (missing, checked)
  | link_cid :: ls' =>
    if decide (link_cid ∈ checked) then check_links ls' checked missing else
    let checked := {[link_cid]} ∪ checked in
    match cold_has link_cid k with
    | Ok true =>
      match cold_get link_cid k with
      | Ok (Some data) =>
        match from_dag_cbor data with
        | Ok child_ipld =>
          let! (child_missing, checked) := rec (links child_ipld) checked in
          check_links ls' checked (missing ++ child_missing)
        | Err _ => check_links ls' checked missing
        | Panic => Panic
        | OutOfFuel => OutOfFuel
        end
      | Ok None | Err _ => check_links ls' checked missing
      | Panic => Panic
      | OutOfFuel => OutOfFuel
      end
    | Ok false | Err _ => check_links ls' checked (missing ++ [link_cid])
    | Panic => Panic
    | OutOfFuel => OutOfFuel
    end
  end.
End links.
(** The depth limit is compared with the number of CIDs checked so far. *)
Fixpoint check_references (fuel : nat) (limit : option nat) (k : K) (ls : list Cid) (checked : gset Cid) :
    outcome Error (list Cid * gset Cid) :=
  match fuel with
  | O => OutOfFuel
  | S fuel' =>
    if match limit with Some m => (m <=? size checked)%nat | None => false end then Ok ([], checked) else
    check_links k (check_references fuel' limit k) ls checked []
  end.

Fixpoint check_loop (fuel : nat) (config : FsckConfig) (k : K) (all_cids : list Cid) (checked_refs : gset Cid)
    (result : FsckResult) : outcome Error FsckResult :=
  match all_cids with
  | [] => Ok result
  | cid :: all_cids' =>
    match check_block cid k with
    | Ok true =>
      let result := add_valid result in
      if check_ipld config || verify_references config then
        let! block := cold_get cid k in
        match block with
        | Some data =>
          match from_dag_cbor data with
          | Ok ipld =>
            if verify_references config then
              let! (missing, checked_refs) := check_references fuel (max_depth config) k (links ipld) checked_refs in
              check_loop fuel config k all_cids' checked_refs (add_missing missing result)
            else check_loop fuel config k all_cids' checked_refs result
          | Err _ =>
            check_loop fuel config k all_cids' checked_refs
              (if check_ipld config && looks_like_ipld data then add_invalid cid result else result)
          | Panic => Panic
          | OutOfFuel => OutOfFuel
          end
        | None => check_loop fuel config k all_cids' checked_refs result
        end
      else check_loop fuel config k all_cids' checked_refs result
    | Ok false | Err _ => check_loop fuel config k all_cids' checked_refs (add_corrupt cid result)
    | Panic => Panic
    | OutOfFuel => OutOfFuel
    end
  end.
Definition check (fuel : nat) (config : FsckConfig) (k : K) : outcome Error FsckResult :=
  let! all_cids := cold_list k in
  check_loop fuel config k all_cids ∅ (mkFsckResult (length all_cids) 0 [] [] []).

Fixpoint quick_loop (k : K) (all_cids : list Cid) (result : FsckResult) : outcome Error FsckResult :=
  match all_cids with
  | [] => Ok result
  | cid :: all_cids' =>
    match check_block cid k with
    | Ok true => quick_loop k all_cids' (add_valid result)
    | Ok false | Err _ => quick_loop k all_cids' (add_corrupt cid result)
    | Panic => Panic
    | OutOfFuel => OutOfFuel
    end
  end.
Definition quick_check (k : K) : outcome Error FsckResult :=
  let! all_cids := cold_list k in
  quick_loop k all_cids (mkFsckResult (length all_cids) 0 [] [] []).

(** ** [repo.rs] *)
Record RepoStats : Type := mkRepoStats {
  num_blocks : nat;
  repo_size : Z;
  num_pinned : nat;
  num_unpinned : nat;
  pinned_size : Z;
  unpinned_size : Z;
  avg_block_size : Z;
  max_block_size : Z;
  min_block_size : Z;
}.
(** The running totals of [analyze]; [min_block_size] starts at [u64::MAX]. *)
Definition tally (pm : PinManager) (cid : Cid) (size : Z) (r : RepoStats) : RepoStats :=
  let pinned := is_pinned cid pm in
  mkRepoStats (num_blocks r) (as_u64 (repo_size r + size))
    (if pinned then S (num_pinned r) else num_pinned r) (if pinned then num_unpinned r else S (num_unpinned r))
    (if pinned then as_u64 (pinned_size r + size) else pinned_size r)
    (if pinned then unpinned_size r else as_u64 (unpinned_size r + size)) (avg_block_size r)
    (if max_block_size r <? size then size else max_block_size r)
    (if size <? min_block_size r then size else min_block_size r).
Fixpoint analyze_loop (pm : PinManager) (k : K) (all_cids : list Cid) (r : RepoStats) : outcome Error RepoStats :=
  match all_cids with
  | [] => Ok r
  | cid :: all_cids' =>
    let! block := cold_get cid k in
    analyze_loop pm k all_cids'
      (match block with Some data => tally pm cid (block_size (from_parts cid data)) r | None => r end)
  end.
Definition analyze (pm : PinManager) (k : K) : outcome Error RepoStats :=
  let! all_cids := cold_list k in
  let n := length all_cids in
  if (n =? 0)%nat then Ok (mkRepoStats 0 0 0 0 0 0 0 0 0) else
  let! r := analyze_loop pm k all_cids (mkRepoStats n 0 0 0 0 0 0 0 u64_max) in
  Ok (mkRepoStats n (repo_size r) (num_pinned r) (num_unpinned r) (pinned_size r) (unpinned_size r)
        (repo_size r / Z.of_nat n) (max_block_size r) (if min_block_size r =? u64_max then 0 else min_block_size r)).

Record BlockDistribution : Type := mkDistribution { tiny : nat; small : nat; medium : nat; large : nat; huge : nat }.
Definition count_size (size : Z) (d : BlockDistribution) : BlockDistribution :=
  if size <=? 1024 then mkDistribution (S (tiny d)) (small d) (medium d) (large d) (huge d)
  else if size <=? 10240 then mkDistribution (tiny d) (S (small d)) (medium d) (large d) (huge d)
  else if size <=? 102400 then mkDistribution (tiny d) (small d) (S (medium d)) (large d) (huge d)
  else if size <=? 1048576 then mkDistribution (tiny d) (small d) (medium d) (S (large d)) (huge d)
  else mkDistribution (tiny d) (small d) (medium d) (large d) (S (huge d)).
Fixpoint distribution_loop (k : K) (all_cids : list Cid) (d : BlockDistribution) : outcome Error BlockDistribution :=
  match all_cids with
  | [] => Ok d
  | cid :: all_cids' =>
    let! block := cold_get cid k in
    distribution_loop k all_cids' (match block with Some data => count_size (block_size (from_parts cid data)) d | None => d end)
  end.
Definition block_distribution (k : K) : outcome Error BlockDistribution :=
  let! all_cids := cold_list k in distribution_loop k all_cids (mkDistribution 0 0 0 0 0).

Fixpoint content_loop (k : K) (all_cids : list Cid) (content_map : gmap bytes (list Cid)) : outcome Error (gmap bytes (list Cid)) :=
  match all_cids with
  | [] => Ok content_map
  | cid :: all_cids' =>
    let! block := cold_get cid k in
    content_loop k all_cids'
      (match block with Some data => <[data := default [] (content_map !! data) ++ [cid]]> content_map | None => content_map end)
  end.
Definition find_duplicates `{!HashIter bytes} (k : K) : outcome Error (list (list Cid)) :=
  let! all_cids := cold_list k in
  let! content_map := content_loop k all_cids ∅ in
  Ok (filter (λ cids, 1 < length cids)%nat (map snd (hash_iter content_map))).

Fixpoint sizes_loop (k : K) (all_cids : list Cid) (acc : list (Cid * Z)) : outcome Error (list (Cid * Z)) :=
  match all_cids with
  | [] => Ok acc
  | cid :: all_cids' =>
    let! block := cold_get cid k in
    sizes_loop k all_cids' (match block with Some data => acc ++ [(cid, block_size (from_parts cid data))] | None => acc end)
  end.
Definition larger (p q : Cid * Z) : bool := q.2 <? p.2.
Definition largest_blocks (limit : nat) (k : K) : outcome Error (list (Cid * Z)) :=
  let! all_cids := cold_list k in
  let! blocks_with_sizes := sizes_loop k all_cids [] in
  Ok (take limit (sort_by larger blocks_with_sizes)).

Definition find_orphaned_blocks (pm : PinManager) (k : K) : outcome Error (list Cid) :=
  let! all_cids := cold_list k in
  Ok (filter (λ c, is_pinned c pm = false) all_cids).
End repo.

(** ** The operations of a node *)
Section node.
Context `{CidCrate} `{!HashIter Cid} {K : Type} `{!ColdStore K}.

Record Node : Type := mkNode { storage : option K; pin_manager : PinManager }.
Definition set_pins (pm : PinManager) (n : Node) : Node := mkNode (storage n) pm.

(** [self.storage()?], then a call on the store. *)
Definition on_storage {A} (f : stateful K Error A) : stateful Node Error A := λ n,
  match storage n with
  | Some k => let '(r, k') := f k in (r, mkNode (Some k') (pin_manager n))
  | None => (Err Initialization, n)
  end.
Definition ask_storage {A} (f : K → outcome Error A) : stateful Node Error A := on_storage (reads f).
Definition on_pins {A} (f : stateful PinManager Error A) : stateful Node Error A := λ n,
  let '(r, pm) := f (pin_manager n) in (r, set_pins pm n).

(** ** Blocks *)
Definition put_if_absent (cid : Cid) (data : bytes) : stateful K Error bool :=
  do! exists_ := reads (cold_has cid) in
  if exists_ : bool then lift (Ok false) else do! _ := cold_put cid data in lift (Ok true).

(** Also [add_reader], whose reader is read to its end first. *)
Definition add_file (data : bytes) : stateful Node Error Cid :=
  on_storage (do! block := lift (Block_new data) in do! _ := cold_put (b_cid block) (b_data block) in lift (Ok (b_cid block))).
Definition add_bytes (data : bytes) : stateful Node Error Cid :=
  on_storage (do! block := lift (Block_new data) in do! _ := put_if_absent (b_cid block) (b_data block) in lift (Ok (b_cid block))).
Definition put_block_raw (data : bytes) : stateful Node Error Cid := add_bytes data.

(** The answers of the providers, tried in order; a block that arrives is stored if that works. *)
Fixpoint fetch_loop (answers : list (outcome Error Block)) : stateful Node Error (option bytes) :=
  match answers with
  | [] => lift (Ok None)
  | Ok block :: _ => λ n,
    match storage n with
    | Some k =>
      match cold_put (b_cid block) (b_data block) k with
      | (Ok _, k') | (Err _, k') => (Ok (Some (b_data block)), mkNode (Some k') (pin_manager n))
      | (Panic, k') => (Panic, mkNode (Some k') (pin_manager n))
      | (OutOfFuel, k') => (OutOfFuel, mkNode (Some k') (pin_manager n))
      end
    | None => (Ok (Some (b_data block)), n)
    end
  | Err _ :: answers' => fetch_loop answers'
  | Panic :: _ => lift Panic
  | OutOfFuel :: _ => lift OutOfFuel
  end.
(** [network] is absent, or the outcome of the provider query with what each provider answers. *)
Definition get (network : option (outcome Error (list (outcome Error Block)))) (cid : Cid) : stateful Node Error (option bytes) :=
  do! local := ask_storage (cold_get cid) in
  match local with
  | Some data => lift (Ok (Some data))
  | None =>
    match network with
    | Some (Ok answers) => fetch_loop (take 3 answers)
    | Some (Err _) | None => lift (Ok None)
    | Some Panic => lift Panic
    | Some OutOfFuel => lift OutOfFuel
    end
  end.

(** [offset + len] is a sum of [usize]s. *)
Definition get_range (cid : Cid) (offset : Z) (len : option Z) : stateful Node Error (option bytes) :=
  ask_storage (λ k,
    let! block := cold_get cid k in
    match block with
    | Some data =>
      let total_len := Z.of_nat (length data) in
      if total_len <=? offset then Err InvalidData else
      let stop := match len with Some n => Z.min (as_u64 (offset + n)) total_len | None => total_len end in
      let! range_data := slice_range data offset stop in Ok (Some range_data)
    | None => Ok None
    end).

Definition put_block (b : Block) : stateful Node Error unit := on_storage (cold_put (b_cid b) (b_data b)).
Definition put_blocks (bs : list Block) : stateful Node Error unit := on_storage (put_many (map into_parts bs)).
Definition get_block (cid : Cid) : stateful Node Error (option bytes) := ask_storage (cold_get cid).
Definition get_block_raw (cid : Cid) : stateful Node Error (option bytes) := ask_storage (cold_get cid).
Definition get_blocks (cids : list Cid) : stateful Node Error (list (option bytes)) := ask_storage (get_many cids).
Definition has_block (cid : Cid) : stateful Node Error bool := ask_storage (cold_has cid).
Definition has_blocks (cids : list Cid) : stateful Node Error (list bool) := ask_storage (has_many cids).
Definition delete_block (cid : Cid) : stateful Node Error unit := on_storage (cold_delete cid).
Definition delete_blocks (cids : list Cid) : stateful Node Error unit := on_storage (delete_many cids).
Definition block_stat (cid : Cid) : stateful Node Error (option (Cid * nat)) :=
  ask_storage (λ k,
    let! block := cold_get cid k in
    Ok (match block with Some data => Some (cid, length data) | None => None end)).
Definition block_rm (cid : Cid) : stateful Node Error unit := λ n,
  if is_pinned cid (pin_manager n) then (Err InvalidInput, n) else delete_block cid n.
Definition list_blocks : stateful Node Error (list Cid) := ask_storage cold_list.

(** ** DAG nodes *)
Definition dag_put (data : ipld) : stateful Node Error Cid :=
  on_storage (
    do! bytes := lift (to_dag_cbor data) in
    do! block := lift (Block_new bytes) in
    do! _ := cold_put (b_cid block) (b_data block) in lift (Ok (b_cid block))).
Definition load_node (cid : Cid) (k : K) : outcome Error (option ipld) :=
  let! block := cold_get cid k in
  match block with
  | Some data => let! i := from_dag_cbor data in Ok (Some i)
  | None => Ok None
  end.
Definition dag_get (cid : Cid) : stateful Node Error (option ipld) := ask_storage (load_node cid).

(** The non-empty pieces of a path between slashes. *)
Fixpoint split_slash (s cur : string) : list string :=
  match s with
  | EmptyString => [cur]
  | String c s' => if decide (c = "/"%char) then cur :: split_slash s' "" else split_slash s' (cur +:+ String c "")
  end.
Definition path_parts (path : string) : list string := filter (λ s, s ≠ ""%string) (split_slash path "").
(** [str::parse::<usize>]. *)
Definition parse_usize (s : string) : option Z :=
  let digits := match string_bytes s with 43 :: l => l | l => l end in
  let value := foldl (λ n d, n * 10 + (d - 48)) 0 digits in
  if negb (bool_decide (digits = [])) && forallb (λ d, in_range 48 57 d) digits && (value <=? u64_max) then Some value else None.

Definition step_into (part : string) (i : ipld) : outcome Error (option Cid) :=
  match i with
  | IMap m =>
    match bt_get part m with
    | Some (ILink c) => Ok (Some c)
    | Some _ => Err InvalidData
    | None => Ok None
    end
  | IList l =>
    let! index := ok_or (parse_usize part) InvalidData in
    match l !! Z.to_nat index with
    | Some (ILink c) => Ok (Some c)
    | Some _ => Err InvalidData
    | None => Ok None
    end
  | _ => Err InvalidData
  end.
Fixpoint resolve_loop (parts : list string) (current_cid : Cid) : stateful Node Error (option Cid) :=
  match parts with
  | [] => lift (Ok (Some current_cid))
  | part :: parts' =>
    do! node := dag_get current_cid in
    match node with
    | None => lift (Ok None)
    | Some i =>
      do! next := lift (step_into part i) in
      match next with Some c => resolve_loop parts' c | None => lift (Ok None) end
    end
  end.
Definition dag_resolve (root : Cid) (path : string) : stateful Node Error (option Cid) :=
  resolve_loop (path_parts path) root.

Fixpoint enqueue_links (ls : list Cid) (depth : nat) (visited : gset Cid) (queue : list (Cid * nat)) : gset Cid * list (Cid * nat) :=
  match ls with
  | [] => (visited, queue)
  | c :: ls' =>
    if decide (c ∈ visited) then enqueue_links ls' depth visited queue
    else enqueue_links ls' depth ({[c]} ∪ visited) (queue ++ [(c, S depth)])
  end.
Fixpoint traverse_loop (fuel : nat) (limit : option nat) (visited : gset Cid) (result : list Cid) (queue : list (Cid * nat)) :
    stateful Node Error (list Cid) :=
  match queue, fuel with
  | [], _ => lift (Ok result)
  | _ :: _, O => lift OutOfFuel
  | (cid, depth) :: queue, S fuel' =>
    if match limit with Some m => (m <=? depth)%nat | None => false end
    then traverse_loop fuel' limit visited result queue else
    let result := result ++ [cid] in
    do! node := dag_get cid in
    match node with
    | Some i =>
      let '(visited, queue) := enqueue_links (links i) depth visited queue in
      traverse_loop fuel' limit visited result queue
    | None => traverse_loop fuel' limit visited result queue
    end
  end.
Definition dag_traverse (fuel : nat) (root : Cid) (limit : option nat) : stateful Node Error (list Cid) :=
  traverse_loop fuel limit {[root]} [] [(root, 0%nat)].

(** ** Directories *)
Inductive FsEntry : Type :=
| File (data : bytes)
| Dir (dir_entries : list (option string * FsEntry))
| OtherFile.
(** The names that are valid Unicode; an entry of another kind is skipped. *)
Fixpoint add_entry (e : FsEntry) : stateful Node Error (option Cid) :=
  match e with
  | File data => do! cid := add_file data in lift (Ok (Some cid))
  | Dir dir_entries =>
    do! entries :=
      (fix go l entries : stateful Node Error (list (string * ipld)) :=
         match l with
         | [] => lift (Ok entries)
         | (file_name, e) :: l' =>
           do! name := lift (ok_or file_name InvalidData) in
           do! cid := add_entry e in
           go l' (match cid with Some c => bt_insert name (ILink c) entries | None => entries end)
         end) dir_entries [] in
    do! cid := dag_put (IMap entries) in lift (Ok (Some cid))
  | OtherFile => lift (Ok None)
  end.
Definition add_directory (e : FsEntry) : stateful Node Error Cid :=
  match e with
  | Dir _ => do! cid := add_entry e in lift (ok_or cid Internal)
  | _ => lift (Err InvalidData)
  end.

Inductive FsOp : Type := CreateDirAll (path : string) | WriteFile (path : string) (data : bytes).
(** [Path::join]: an absolute name replaces the path. *)
Definition path_join (base name : string) : string :=
  if String.prefix "/" name then name
  else if bool_decide (base = ""%string) || String.eqb (String.substring (String.length base - 1) 1 base) "/" then base +:+ name
  else base +:+ "/" +:+ name.

Definition on_node {A} (f : stateful Node Error A) : stateful (Node * list FsOp) Error A := λ '(n, log),
  let '(r, n') := f n in (r, (n', log)).
Definition emit (op : FsOp) : stateful (Node * list FsOp) Error unit := modifies (λ '(n, log), (n, log ++ [op])).

(** The loop over the entries of one directory; [rec] writes a subdirectory. *)
Section write.
Context (network : option (outcome Error (list (outcome Error Block)))).
Context (rec : Cid → string → stateful (Node * list FsOp) Error unit).
Fixpoint write_entries (entries : list (string * ipld)) (output_path : string) : stateful (Node * list FsOp) Error unit :=
  match entries with
  | [] => lift (Ok tt)
  | (name, value) :: entries' =>
    let entry_path := path_join output_path name in
    match value with
    | ILink c =>
      do! found := on_node (dag_get c) in
      do! _ :=
        match found with
        | Some (IMap _) => rec c entry_path
        | Some _ =>
          do! data := on_node (get network c) in
          match data with Some bytes => emit (WriteFile entry_path bytes) | None => lift (Ok tt) end
        | None => lift (Ok tt)
        end in
      write_entries entries' output_path
    | _ => lift (Err InvalidData)
    end
  end.
End write.
Fixpoint get_directory (fuel : nat) (network : option (outcome Error (list (outcome Error Block)))) (cid : Cid) (output_path : string) :
    stateful (Node * list FsOp) Error unit :=
  match fuel with
  | O => lift OutOfFuel
  | S fuel' =>
    do! _ := emit (CreateDirAll output_path) in
    do! found := on_node (dag_get cid) in
    do! dir_ipld := lift (ok_or found NotFound) in
    match dir_ipld with
    | IMap entries => write_entries network (get_directory fuel' network) entries output_path
    | _ => lift (Err InvalidData)
    end
  end.

(** ** Pins *)
(** The links of one block become indirect pins of the root and are to be visited. *)
Fixpoint pin_links (root : Cid) (ls : list Cid) (to_visit : list Cid) (pm : PinManager) : list Cid * PinManager :=
  match ls with
  | [] => (to_visit, pm)
  | c :: ls' => pin_links root ls' (to_visit ++ [c]) (add_indirect root c pm)
  end.
Fixpoint mark_recursive_loop (fuel : nat) (root : Cid) (to_visit : list Cid) (visited : gset Cid) : stateful Node Error unit :=
  match last to_visit, fuel with
  | None, _ => lift (Ok tt)
  | Some _, O => lift OutOfFuel
  | Some cid, S fuel' =>
    let to_visit := removelast to_visit in
    if decide (cid ∈ visited) then mark_recursive_loop fuel' root to_visit visited else
    let visited := {[cid]} ∪ visited in
    do! block := ask_storage (cold_get cid) in
    match block with
    | Some data =>
      do! ls := lift (data_links data) in
      λ n,
      let '(to_visit, pm) := pin_links root ls to_visit (pin_manager n) in
      mark_recursive_loop fuel' root to_visit visited (set_pins pm n)
    | None => mark_recursive_loop fuel' root to_visit visited
    end
  end.
Definition mark_recursive_pins (fuel : nat) (root : Cid) : stateful Node Error unit :=
  do! _ := on_storage (lift (Ok tt)) in mark_recursive_loop fuel root [root] ∅.

Definition pin_add (fuel : nat) (now : Z) (cid : Cid) (recursive : bool) (nm : option string) : stateful Node Error unit :=
  do! present := has_block cid in
  if negb present then lift (Err NotFound) else
  let t := if recursive then Recursive else Direct in
  do! _ := on_pins (modifies (pin now cid t nm)) in
  if recursive then mark_recursive_pins fuel cid else lift (Ok tt).
Definition pin_rm (cid : Cid) (recursive : bool) : stateful Node Error unit := on_pins (unpin cid recursive).
Definition pin_ls : stateful Node Error (list PinInfo) := λ n, (Ok (list_pins (pin_manager n)), n).
Definition pin_verify : stateful Node Error (list (Cid * bool)) := λ n,
  ask_storage (λ k, try_map (λ i, let! present := cold_has (pin_cid i) k in Ok (pin_cid i, present)) (list_pins (pin_manager n))) n.

(** ** Repository *)
Definition repo_gc_with_options (fuel : nat) (dry_run : bool) (min_age_secs : Z) : stateful Node Error GcStats := λ n,
  on_storage (gc_collect fuel (mkGcConfig min_age_secs 0 dry_run) (pin_manager n)) n.
Definition repo_gc (fuel : nat) (dry_run : bool) : stateful Node Error GcStats := repo_gc_with_options fuel dry_run 3600.

(** The orphan collector of the storage crate, given the pinned CIDs as text. *)
Definition gc_blocks (to_string : Cid → string) (dry_run : bool) (min_age_secs : Z) : stateful Node Error OrphanGcResult := λ n,
  on_storage
    (let pinned_cids := list_to_set (map (λ i, to_string (pin_cid i)) (list_pins (pin_manager n))) in
     orphan_collect to_string (mkOrphanConfig dry_run min_age_secs 1000) pinned_cids ∅) n.

Definition repo_fsck (fuel : nat) : stateful Node Error FsckResult := ask_storage (check fuel FsckConfig_default).
Definition repo_fsck_quick : stateful Node Error FsckResult := ask_storage quick_check.
Definition gc_stats : stateful Node Error (nat * nat) := λ n,
  ask_storage (λ k, let! unpinned_count := count_unpinned (pin_manager n) k in Ok (count (pin_manager n), unpinned_count)) n.
Definition repo_stat : stateful Node Error RepoStats := λ n, ask_storage (analyze (pin_manager n)) n.
Definition node_distribution : stateful Node Error BlockDistribution := ask_storage block_distribution.
Definition node_duplicates `{!HashIter bytes} : stateful Node Error (list (list Cid)) := ask_storage find_duplicates.
Definition node_largest (limit : nat) : stateful Node Error (list (Cid * Z)) := ask_storage (largest_blocks limit).
Definition find_orphaned : stateful Node Error (list Cid) := λ n, ask_storage (find_orphaned_blocks (pin_manager n)) n.
End node.
#[global] Arguments Node {_} K : rename.
