(* ===== verification/NodeFacts.v ===== *)
(** * Theorems about a node

    Its collector keeps what the pins reach and deletes the rest; a recursive pin protects a complete
    graph from everything but its removal; the other collector does not respect it. *)

From Stdlib Require Import ZArith Lia List.
From stdpp Require Import base tactics numbers list gmap sets strings fin_maps fin_sets relations pretty.
From S2P Require Import Prelude Collections Cid CidFacts Ipld IpldFacts Block BlockFacts ColdStore Store Hamt HamtFacts KGcFacts StorageGc StorageGcFacts Node.
Import ColdStore.Watched.
#[local] Open Scope Z_scope.

(** ** What the pins reach *)
Section reach.
Context `{CidCrate} `{!HashIter Cid}.
Implicit Types (B : gmap Cid bytes) (pm : PinManager) (c r : Cid).

Definition link B c c' : Prop := ∃ b l, B !! c = Some b ∧ data_links b = Ok l ∧ c' ∈ l.
Definition live pm B c : Prop := ∃ r, is_Some (pins pm !! r) ∧ rtc (link B) r c.
(** The key of a pin is the CID it records, as every call writes it. *)
Definition keyed pm : Prop := ∀ c i, pins pm !! c = Some i → pin_cid i = c.
(** Every CID that a stored block links to. *)
Definition links_in (b : bytes) : list Cid := match data_links b with Ok l => l | _ => [] end.
Definition mentioned B : gset Cid := list_to_set (concat (map (λ p, links_in p.2) (map_to_list B))).

Lemma elem_of_mentioned B c : c ∈ mentioned B ↔ ∃ c0, link B c0 c.
Proof.
  unfold mentioned. rewrite elem_of_list_to_set, list_elem_of_In, in_concat. setoid_rewrite in_map_iff. split.
  - intros (l & ([c0 b] & <- & Hin) & Hc). apply list_elem_of_In, elem_of_map_to_list in Hin.
    exists c0, b, (links_in b). unfold links_in in *. simpl in *. destruct (data_links b); try done. by rewrite list_elem_of_In.
  - intros (c0 & b & l & Hb & Hl & Hc). exists l. rewrite <- list_elem_of_In. split; [|done].
    exists (c0, b). unfold links_in. simpl. rewrite Hl. split; [done|]. by apply list_elem_of_In, elem_of_map_to_list.
Qed.

Lemma list_pins_elem pm c : keyed pm → c ∈ map pin_cid (list_pins pm) ↔ is_Some (pins pm !! c).
Proof.
  intros Hk. unfold list_pins. rewrite elem_of_list_map. setoid_rewrite elem_of_list_map. split.
  - intros (i & <- & [c' i'] & <- & Hin%elem_of_hash_iter). simpl. rewrite (Hk _ _ Hin). by eexists.
  - intros [i Hi]. exists i. split; [by apply Hk|]. exists (c, i). split; [done|]. by apply elem_of_hash_iter.
Qed.
Lemma length_list_pins pm : length (list_pins pm) = size (pins pm).
Proof. unfold list_pins. by rewrite length_map, length_hash_iter. Qed.

(** ** The mark phase *)
Definition marking pm B (reachable : gset Cid) (to_visit : list Cid) : Prop :=
  (∀ r, is_Some (pins pm !! r) → r ∈ reachable) ∧
  (∀ c, c ∈ reachable → live pm B c) ∧
  (∀ c, c ∈ to_visit → c ∈ reachable) ∧
  (∀ c c', c ∈ reachable → link B c c' → c ∈ to_visit ∨ c' ∈ reachable).

Lemma marking_start pm B : keyed pm →
  marking pm B (list_to_set (map pin_cid (list_pins pm))) (map pin_cid (list_pins pm)).
Proof.
  intros Hk. set (roots := map pin_cid (list_pins pm)).
  assert (∀ c, c ∈ (list_to_set roots : gset Cid) ↔ is_Some (pins pm !! c)) as Hr.
  { intros c. rewrite elem_of_list_to_set. by apply list_pins_elem. }
  split_and!.
  - intros c. by rewrite Hr.
  - intros c Hc%Hr. exists c. split; [done|apply rtc_refl].
  - intros c. by rewrite elem_of_list_to_set.
  - intros c c' Hc _. left. by apply elem_of_list_to_set in Hc.
Qed.
Lemma node_marking_done pm B reachable c : marking pm B reachable [] → c ∈ reachable ↔ live pm B c.
Proof.
  intros (Hp & Hs & _ & Hl). split; [apply Hs|]. intros (r & Hr & Hrtc). apply Hp in Hr.
  induction Hrtc as [r|r x c Hrx _ IH]; [done|]. apply IH. by destruct (Hl r x Hr Hrx) as [?%elem_of_nil|].
Qed.

Lemma visit_links_spec ls reachable to_visit reachable' to_visit' :
  visit_links ls reachable to_visit = (reachable', to_visit') →
  reachable' = reachable ∪ list_to_set ls
  ∧ (∀ c, c ∈ to_visit' ↔ c ∈ to_visit ∨ c ∈ ls ∧ c ∉ reachable)
  ∧ (length to_visit' + size reachable = length to_visit + size reachable')%nat.
Proof.
  revert reachable to_visit. induction ls as [|c ls IH]; intros reachable to_visit Hrun; simpl in Hrun.
  { injection Hrun as <- <-. split_and!; [set_solver..|lia]. }
  destruct (decide (c ∈ reachable)) as [Hc|Hc]; apply IH in Hrun as (-> & Ht & Hlen).
  - split_and!; [set_solver| |done]. intros c'. rewrite Ht, elem_of_cons. naive_solver.
  - rewrite length_app in Hlen. simpl in Hlen. rewrite size_union, size_singleton in Hlen by set_solver.
    split_and!; [set_solver| |lia]. intros c'. rewrite Ht. set_unfold. destruct (decide (c' = c)) as [->|]; naive_solver.
Qed.

Lemma node_marking_visit pm B reachable f c ls reachable' to_visit' :
  marking pm B reachable (f ++ [c]) → (∀ c', c' ∈ ls ↔ link B c c') →
  visit_links ls reachable f = (reachable', to_visit') → marking pm B reachable' to_visit'.
Proof.
  intros (Hp & Hs & Ht & Hl) Hls (-> & Htv & _)%visit_links_spec.
  assert (c ∈ reachable) as Hc by (apply Ht; set_solver). split_and!.
  - set_solver.
  - intros c' [Hc'|Hc'%elem_of_list_to_set]%elem_of_union; [by apply Hs|]. destruct (Hs c Hc) as (r & Hr & Hrc).
    exists r. split; [done|]. eapply rtc_r; [exact Hrc|]. by apply Hls.
  - intros c' [Hc'|[Hc' _]]%Htv; [|set_solver]. apply elem_of_union_l, Ht. set_solver.
  - intros c1 c2 Hc1 Hlink. destruct (decide (c1 ∈ reachable)) as [Hc1r|Hn].
    + destruct (Hl c1 c2 Hc1r Hlink) as [[Hin| ->%list_elem_of_singleton]%elem_of_app|?].
      * left. apply Htv. by left.
      * right. apply elem_of_union_r, elem_of_list_to_set. by apply Hls.
      * right. set_solver.
    + left. apply Htv. set_solver.
Qed.

Section store.
Context {K : Type} `{!ColdStore K} `{!ColdLaws K}.
Implicit Types k : K.

Lemma node_mark_loop_spec fuel k pm reachable to_visit res :
  marking pm (contents k) reachable to_visit → mark_loop fuel k reachable to_visit = Ok res →
  ∀ c, c ∈ res ↔ live pm (contents k) c.
Proof.
  revert reachable to_visit. induction fuel as [|fuel IH]; intros reachable to_visit Hinv Hrun;
    destruct (frontier_cases to_visit) as [->|(c & f & -> & Hlast & Hrl)]; simpl in Hrun.
  1, 3: injection Hrun as <-; intros c; by apply node_marking_done.
  { by rewrite Hlast in Hrun. }
  rewrite Hlast, Hrl in Hrun. pose proof (cold_get_law c k) as Hg.
  destruct (cold_get c k) as [o| | |]; try done. simpl in Hg, Hrun. subst o.
  destruct (contents k !! c) as [b|] eqn:Hb.
  - apply outcome_bind_Ok in Hrun as (ls & Hls & Hrun).
    destruct (visit_links ls reachable f) as [reachable' to_visit'] eqn:Hv.
    eapply IH; [|exact Hrun]. eapply node_marking_visit; [exact Hinv| |exact Hv].
    intros c'. split; [intros Hc'; by exists b, ls|]. intros (b' & ls' & Hb' & Hls' & Hc'). congruence.
  - eapply IH; [|exact Hrun]. eapply (node_marking_visit pm _ reachable f c []); [exact Hinv| |done].
    intros c'. split; [by intros ?%elem_of_nil|]. intros (b' & ls' & Hb' & _). congruence.
Qed.
Lemma mark_reachable_spec fuel pm k res : keyed pm → mark_reachable fuel pm k = Ok res →
  ∀ c, c ∈ res ↔ live pm (contents k) c.
Proof. intros Hk Hrun. eapply node_mark_loop_spec; [|exact Hrun]. by apply marking_start. Qed.

Lemma data_links_answers b : from_dag_cbor b ≠ Panic → ∃ l, data_links b = Ok l.
Proof. intros Hb. pose proof (from_dag_cbor_answers b). unfold data_links. destruct (from_dag_cbor b); try done; by eexists. Qed.

Lemma node_mark_loop_answers `{!Reliable K} fuel k reachable to_visit (U : gset Cid) :
  decodable (contents k) → mentioned (contents k) ⊆ U → reachable ⊆ U →
  (length to_visit + size U ≤ fuel + size reachable)%nat → ∃ res, mark_loop fuel k reachable to_visit = Ok res.
Proof.
  intros Hdec HU. revert reachable to_visit. induction fuel as [|fuel IH]; intros reachable to_visit Hr Hf;
    destruct (frontier_cases to_visit) as [->|(c & f & -> & Hlast & Hrl)]; simpl; eauto.
  { apply subseteq_size in Hr. rewrite length_app in Hf. simpl in Hf. lia. }
  rewrite Hlast, Hrl. rewrite length_app in Hf. simpl in Hf. rewrite cold_get_ok. simpl.
  destruct (contents k !! c) as [b|] eqn:Hb; [|apply IH; [done|lia]].
  destruct (data_links_answers b (Hdec c b Hb)) as [ls Hls]. rewrite Hls. simpl.
  destruct (visit_links ls reachable f) as [reachable' to_visit'] eqn:Hv.
  apply visit_links_spec in Hv as (-> & _ & Hlen). apply IH; [|lia].
  apply union_least; [done|]. intros c' Hc'%elem_of_list_to_set. apply HU, elem_of_mentioned. exists c, b, ls. done.
Qed.
Definition mark_fuel pm B : nat := size (pins pm) + size (mentioned B).
Lemma mark_reachable_answers `{!Reliable K} fuel pm k : keyed pm → decodable (contents k) →
  (mark_fuel pm (contents k) ≤ fuel)%nat → ∃ res, mark_reachable fuel pm k = Ok res.
Proof.
  intros Hk Hdec Hf. unfold mark_reachable. set (roots := map pin_cid (list_pins pm)).
  apply (node_mark_loop_answers fuel k _ _ (list_to_set roots ∪ mentioned (contents k))); [done|set_solver..|].
  assert (length roots = size (pins pm)) as Hl by (unfold roots; by rewrite length_map, length_list_pins).
  pose proof (size_union_alt (list_to_set roots : gset Cid) (mentioned (contents k))) as Hs.
  pose proof (subseteq_size (mentioned (contents k) ∖ list_to_set roots) (mentioned (contents k)) ltac:(set_solver)).
  unfold mark_fuel in Hf. lia.
Qed.
End store.
End reach.

(** ** The sweep *)
Section sweep.
Context `{CidCrate} `{!HashIter Cid} {K : Type} `{!ColdStore K} `{!ColdLaws K}.
Implicit Types (k : K) (B : gmap Cid bytes) (c : Cid).

Lemma node_sweep_loop_safe config R cids freed n k o k' :
  sweep_loop config R cids freed n k = (o, k') →
  contents k' ⊆ contents k ∧ (∀ c, c ∈ R → contents k' !! c = contents k !! c) ∧ (gc_dry_run config = true → k' = k).
Proof.
  revert freed n k. induction cids as [|c cids IH]; intros freed n k Hrun; simpl in Hrun; [by injection Hrun as <- <-|].
  destruct (_ && _); [by injection Hrun as <- <-|]. destruct (decide (c ∈ R)) as [Hc|Hc]; [by eapply IH|].
  unfold st_bind at 1, reads in Hrun. destruct (cold_get c k) as [[b|]| | |]; try by injection Hrun as <- <-.
  2: by eapply IH.
  destruct (gc_dry_run config) eqn:Hdry; simpl in Hrun; [by eapply IH in Hrun|].
  unfold st_bind in Hrun. pose proof (cold_delete_law c k) as Hd.
  destruct (cold_delete c k) as [[] k1]; simpl in Hd; try done; [|by injection Hrun as <- <-; rewrite Hd].
  apply IH in Hrun as (Hsub & Hkeep & _). rewrite Hd in *. split_and!; [|intros c' Hc'|done].
  - etrans; [exact Hsub|apply delete_subseteq].
  - rewrite Hkeep by done. apply lookup_delete_ne. by intros ->.
Qed.

Lemma node_gc_collect_safe fuel config pm k o k' : keyed pm → gc_collect fuel config pm k = (o, k') →
  contents k' ⊆ contents k ∧ (∀ c, live pm (contents k) c → contents k' !! c = contents k !! c)
  ∧ (gc_dry_run config = true → k' = k).
Proof.
  intros Hk Hrun. unfold gc_collect in Hrun. unfold st_bind at 1, reads at 1 in Hrun.
  destruct (mark_reachable fuel pm k) as [R| | |] eqn:HR; try by injection Hrun as <- <-.
  unfold st_bind at 1, reads in Hrun. destruct (cold_list k) as [cids| | |]; try by injection Hrun as <- <-.
  unfold st_bind in Hrun. destruct (sweep_loop _ _ _ _ _ k) as [o1 k1] eqn:Hsw.
  assert (k' = k1) as -> by (destruct o1 as [[]| | |]; by injection Hrun as <- <-).
  apply node_sweep_loop_safe in Hsw as (Hsub & Hkeep & Hdry). split_and!; [done| |done].
  intros c Hc. apply Hkeep. by eapply mark_reachable_spec.
Qed.

(** The blocks of a listing that are not reached. *)
Definition garbage (R : gset Cid) (cids : list Cid) : list Cid := filter (λ c, c ∉ R) cids.

Lemma sweep_loop_exact `{!Reliable K} age dry R cids freed n k :
  0 <= freed < 2 ^ 64 → 0 <= n < 2 ^ 64 → NoDup cids → (∀ c, c ∈ cids → is_Some (contents k !! c)) →
  ∃ k', sweep_loop (mkGcConfig age 0 dry) R cids freed n k =
      (Ok (as_u64 (freed + Z.of_nat (stored_size (contents k) (garbage R cids))), as_u64 (n + Z.of_nat (length (garbage R cids)))), k')
    ∧ contents k' = if dry then contents k else without (garbage R cids) (contents k).
Proof.
  revert freed n k. induction cids as [|c cids IH]; intros freed n k Hf Hn Hnd Hin; simpl.
  { exists k. rewrite !Z.add_0_r, !as_u64_small by done. split; [done|]. destruct dry; [done|].
    apply map_eq. intros c. rewrite lookup_without, decide_False; [done|apply not_elem_of_nil]. }
  apply NoDup_cons in Hnd as [Hc Hnd]. unfold garbage. rewrite filter_cons. fold (garbage R cids).
  destruct (decide (c ∈ R)) as [HcR|HcR]; [rewrite decide_False by tauto; apply IH; try done; intros; apply Hin; by right|].
  rewrite decide_True by done. destruct (Hin c) as [b Hb]; [left|].
  unfold st_bind at 1, reads. rewrite cold_get_ok, Hb. unfold block_size, from_parts. cbn [b_data].
  assert (∀ k1, contents k1 = contents k ∨ dry = false ∧ contents k1 = without [c] (contents k) →
    ∃ k', sweep_loop (mkGcConfig age 0 dry) R cids (as_u64 (freed + Z.of_nat (length b))) (as_u64 (n + 1)) k1 =
      (Ok (as_u64 (freed + Z.of_nat (stored_size (contents k) (c :: garbage R cids))), as_u64 (n + Z.of_nat (length (c :: garbage R cids)))), k')
    ∧ contents k' = if dry then contents k1 else without (garbage R cids) (contents k1)) as Hnext.
  { intros k1 Hk1. assert (∀ c', c' ∈ cids → contents k1 !! c' = contents k !! c') as Hsame.
    { intros c' Hc'. destruct Hk1 as [->|[_ ->]]; [done|]. rewrite lookup_without, decide_False; [done|].
      intros ->%list_elem_of_singleton. done. }
    destruct (IH (as_u64 (freed + Z.of_nat (length b))) (as_u64 (n + 1)) k1) as (k' & -> & Hk'); [by apply Z.mod_pos_bound..|done| |].
    { intros c' Hc'. rewrite Hsame by done. apply Hin. by right. }
    exists k'. split; [|done]. rewrite !as_u64_add. do 2 f_equal. f_equal; f_equal.
    - rewrite (stored_size_ext (contents k1) (contents k)).
      2: { intros c' [_ Hc']%list_elem_of_filter. by apply Hsame. }
      unfold stored_size. cbn [sum_list_with]. rewrite Hb. simpl. lia.
    - simpl. lia. }
  destruct dry; cbn [negb gc_dry_run]; [rewrite st_bind_lift; apply Hnext; by left|].
  unfold st_bind. pose proof (cold_delete_law c k) as Hd. pose proof (cold_delete_ok c k) as Hok.
  destruct (cold_delete c k) as [o k1]. simpl in Hok, Hd. subst o. simpl in Hd. rewrite delete_without in Hd.
  destruct (Hnext k1) as (k' & -> & Hk'); [by right|]. exists k'. split; [done|]. by rewrite Hk', Hd, without_app.
Qed.

Lemma gc_collect_exact `{!Reliable K} fuel age dry pm k : keyed pm → decodable (contents k) →
  (mark_fuel pm (contents k) ≤ fuel)%nat →
  ∃ R cids k', (∀ c, c ∈ R ↔ live pm (contents k) c) ∧ cids ≡ₚ elements (dom (contents k)) ∧
    gc_collect fuel (mkGcConfig age 0 dry) pm k =
      (Ok (mkGcStats (as_u64 (Z.of_nat (length (garbage R cids)))) (as_u64 (Z.of_nat (stored_size (contents k) (garbage R cids))))
             (size R) (size (contents k)) false), k') ∧
    contents k' = if dry then contents k else without (garbage R cids) (contents k).
Proof.
  intros Hk Hdec Hf. destruct (mark_reachable_answers fuel pm k Hk Hdec Hf) as [R HR].
  destruct (cold_list_ok k) as [cids Hcids]. pose proof (cold_list_law k) as Hl. rewrite Hcids in Hl. simpl in Hl.
  exists R, cids. destruct (sweep_loop_exact age dry R cids 0 0 k) as (k' & Hsw & Hk'); [done..| | |].
  { rewrite Hl. apply NoDup_elements. }
  { intros c Hc. rewrite Hl in Hc. by apply elem_of_elements, elem_of_dom in Hc. }
  exists k'. split_and!; [by eapply mark_reachable_spec|done| |done].
  unfold gc_collect. unfold st_bind at 1, reads at 1. rewrite HR. unfold st_bind at 1, reads at 1. rewrite Hcids.
  unfold st_bind. rewrite Hsw. unfold lift. rewrite !Z.add_0_l. do 3 f_equal.
  rewrite Hl. by rewrite <- size_dom.
Qed.
End sweep.

(** ** The books of the pin manager *)
Section books.
Context `{CidCrate} `{!HashIter Cid}.
Implicit Types (pm : PinManager) (c r : Cid).

(** What a recursive pin reaches is indirectly pinned. *)
Definition booked pm : Prop := ∀ x s c, recursive_deps pm !! x = Some s → c ∈ s → c ∈ indirect_pins pm.
Definition deps_of pm r : gset Cid := default ∅ (recursive_deps pm !! r).
(** Later books hold the earlier ones. *)
Definition grows pm pm' : Prop :=
  pins pm = pins pm' ∧ indirect_pins pm ⊆ indirect_pins pm' ∧ ∀ x, deps_of pm x ⊆ deps_of pm' x.

#[global] Instance grows_preorder : PreOrder grows.
Proof.
  split; [by intros pm|]. intros a b c (Hp & Hi & Hd) (Hp' & Hi' & Hd'). split_and!; [congruence|set_solver|].
  intros x. etrans; [apply Hd|apply Hd'].
Qed.

Lemma booked_deps pm x c : booked pm → c ∈ deps_of pm x → c ∈ indirect_pins pm.
Proof. intros Hb. unfold deps_of. destruct (recursive_deps pm !! x) as [s|] eqn:E; simpl; [by eapply Hb|set_solver]. Qed.

Lemma add_indirect_spec root c pm : booked pm →
  let pm' := add_indirect root c pm in
  booked pm' ∧ grows pm pm' ∧ c ∈ deps_of pm' root.
Proof.
  intros Hb. unfold add_indirect, add_dep, booked, grows, deps_of. simpl. split_and!; [|done|set_solver| |].
  - intros x s c'. destruct (decide (x = root)) as [->|Hne].
    + rewrite lookup_insert_eq. intros [= <-] [->%elem_of_singleton|Hc]%elem_of_union; [set_solver|].
      apply elem_of_union_r. by eapply (booked_deps pm root).
    + rewrite lookup_insert_ne by done. intros Hs Hc. apply elem_of_union_r. by eapply Hb.
  - intros x. destruct (decide (x = root)) as [->|Hne]; [rewrite lookup_insert_eq; simpl; set_solver|by rewrite lookup_insert_ne].
  - rewrite lookup_insert_eq. simpl. set_solver.
Qed.

Lemma node_pin_links_spec root ls to_visit pm to_visit' pm' : booked pm →
  pin_links root ls to_visit pm = (to_visit', pm') →
  to_visit' = to_visit ++ ls ∧ booked pm' ∧ grows pm pm' ∧ ∀ c, c ∈ ls → c ∈ deps_of pm' root.
Proof.
  revert to_visit pm. induction ls as [|c ls IH]; intros to_visit pm Hb Hrun; simpl in Hrun.
  { injection Hrun as <- <-. rewrite app_nil_r. split_and!; [done..|]. by intros c ?%elem_of_nil. }
  destruct (add_indirect_spec root c pm Hb) as (Hb1 & Hg1 & Hc1).
  apply IH in Hrun as (-> & Hb' & Hg' & Hc'); [|done]. rewrite <- app_assoc. split_and!; [done..|by etrans|].
  intros c' [->|?]%elem_of_cons; [|by apply Hc']. by apply Hg'.
Qed.

Lemma set_fold_filter (P : Cid → bool) (s i : gset Cid) c :
  c ∈ set_fold (λ x i, if P x then i else i ∖ {[x]}) i s ↔ c ∈ i ∧ (P c = true ∨ c ∉ s).
Proof.
  revert c. apply (set_fold_ind_L (λ (i' : gset Cid) s, ∀ c, c ∈ i' ↔ c ∈ i ∧ (P c = true ∨ c ∉ s))); [set_solver|].
  intros x s' i' Hx IH c. destruct (P x) eqn:E.
  - rewrite IH. destruct (decide (c = x)) as [->|]; set_solver.
  - rewrite elem_of_difference, IH. destruct (decide (c = x)) as [->|]; [|set_solver]. set_unfold. rewrite E. naive_solver.
Qed.

Lemma still_needed_true deps c : still_needed deps c = true ↔ ∃ x s, deps !! x = Some s ∧ c ∈ s.
Proof.
  unfold still_needed. rewrite existsb_exists. setoid_rewrite bool_decide_eq_true. setoid_rewrite <- list_elem_of_In.
  setoid_rewrite elem_of_list_map. split.
  - intros (s & ([x s'] & <- & Hin%elem_of_map_to_list) & Hc). by exists x, s'.
  - intros (x & s & Hx & Hc). exists s. split; [|done]. exists (x, s). split; [done|]. by apply elem_of_map_to_list.
Qed.

(** Removing a pin keeps the books of the others. *)
Lemma unpin_spec c b pm o pm' : booked pm → unpin c b pm = (o, pm') →
  booked pm' ∧ (∀ x, x ≠ c → pins pm' !! x = pins pm !! x ∧ deps_of pm' x = deps_of pm x)
  ∧ (keyed pm → keyed pm').
Proof.
  intros Hb. unfold unpin. destruct (pins pm !! c) as [i|] eqn:Hi; [|intros [= <- <-]; by split_and!].
  assert (∀ x, x ≠ c → delete c (pins pm) !! x = pins pm !! x) as Hpins by (intros; by apply lookup_delete_ne).
  assert (keyed pm → ∀ x j, delete c (pins pm) !! x = Some j → pin_cid j = x) as Hkey.
  { intros Hk x j [_ Hj]%lookup_delete_Some. by apply Hk. }
  case_decide as Ht; [|intros [= <- <-]; split_and!; simpl; auto].
  destruct (recursive_deps pm !! c) as [s|] eqn:Hs; intros [= <- <-]; [|split_and!; simpl; auto].
  split_and!; [| |done].
  - intros x s' c' Hx Hc'. simpl in *. apply set_fold_filter.
    pose proof Hx as [_ Hx']%lookup_delete_Some. split; [by eapply Hb|].
    left. apply still_needed_true. by exists x, s'.
  - intros x Hne. split; [by apply Hpins|]. unfold deps_of. simpl. by rewrite lookup_delete_ne.
Qed.
End books.

(** ** What a recursive pin protects *)
Section protect.
Context `{CidCrate} `{!HashIter Cid} {K : Type} `{!ColdStore K} `{!ColdLaws K}.
Implicit Types (w : Watched K) (n : Node (Watched K)) (c r : Cid) (B : gmap Cid bytes).

(** The calls of a node, except those that delete a block whatever the pins say. *)
Inductive NodeOp : Type :=
| OAddFile (data : bytes) | OAddBytes (data : bytes) | OPutBlock (b : Block) | OPutBlocks (bs : list Block)
| OGet (network : option (outcome Error (list (outcome Error Block)))) (c : Cid)
| ODagPut (v : ipld) | OAddDirectory (e : FsEntry) | OBlockRm (c : Cid)
| OPinAdd (fuel : nat) (now : Z) (c : Cid) (recursive : bool) (nm : option string) | OPinRm (c : Cid) (recursive : bool)
| OGc (fuel : nat) (dry_run : bool) (min_age_secs : Z).
Definition exec (op : NodeOp) n : Node (Watched K) :=
  match op with
  | OAddFile data => (add_file data n).2
  | OAddBytes data => (add_bytes data n).2
  | OPutBlock b => (put_block b n).2
  | OPutBlocks bs => (put_blocks bs n).2
  | OGet network c => (Node.get network c n).2
  | ODagPut v => (dag_put v n).2
  | OAddDirectory e => (add_directory e n).2
  | OBlockRm c => (block_rm c n).2
  | OPinAdd fuel now c recursive nm => (pin_add fuel now c recursive nm n).2
  | OPinRm c recursive => (pin_rm c recursive n).2
  | OGc fuel dry_run age => (repo_gc_with_options fuel dry_run age n).2
  end.
Definition unclashed n : Prop := match storage n with Some w => clashed w = false | None => True end.

(** *** Calls that only add blocks *)
Definition tame w w' : Prop := clashed w' = false →
  clashed w = false ∧ ∀ c b, contents w !! c = Some b → contents w' !! c = Some b.
#[global] Instance tame_preorder : PreOrder tame.
Proof.
  split; [by intros w|]. intros a b c Hab Hbc Hc. destruct (Hbc Hc) as [Hb Hbk]. destruct (Hab Hb) as [Ha Hak]. auto.
Qed.
Definition stores n n' : Prop :=
  pin_manager n' = pin_manager n ∧
  match storage n, storage n' with Some w, Some w' => tame w w' | None, None => True | _, _ => False end.
#[global] Instance stores_preorder : PreOrder stores.
Proof.
  split.
  - intros n. split; [done|]. by destruct (storage n).
  - intros a b c [Hp Hs] [Hp' Hs']. split; [congruence|]. destruct (storage a), (storage b), (storage c); try done. by etrans.
Qed.

Definition along {S A} (R : S → S → Prop) (f : stateful S Error A) : Prop := ∀ s o s', f s = (o, s') → R s s'.
Lemma along_bind {S A A'} (R : S → S → Prop) `{!Transitive R} (g : A → stateful S Error A') (f : stateful S Error A) :
  along R f → (∀ a, along R (g a)) → along R (st_bind g f).
Proof.
  intros Hf Hg s o s'. unfold st_bind. destruct (f s) as [[a| | |] s1] eqn:E; apply Hf in E; intros Hrun.
  1: { etrans; [exact E|]. by eapply Hg. }
  all: by injection Hrun as <- <-.
Qed.
Lemma along_lift {S A} (R : S → S → Prop) `{!Reflexive R} (o : outcome Error A) : along R (lift o).
Proof. by intros s o' s' [= <- <-]. Qed.
Lemma along_reads {S A} (R : S → S → Prop) `{!Reflexive R} (f : S → outcome Error A) : along R (reads f).
Proof. by intros s o' s' [= <- <-]. Qed.

Lemma cold_put_tame c b : along tame (cold_put (K := Watched K) c b).
Proof.
  intros w o w' Hrun. simpl in Hrun. pose proof (cold_put_law c b (watched w)) as Hp.
  destruct (cold_put c b (watched w)) as [o' k] eqn:E. injection Hrun as <- <-. intros Hc. simpl in *.
  apply orb_false_iff in Hc as [Hc Hr]. split; [done|]. intros c' b' Hb'.
  destruct o'; simpl in Hp; try done; rewrite Hp; [|done].
  destruct (decide (c' = c)) as [->|Hne]; [|by rewrite lookup_insert_ne]. rewrite lookup_insert_eq. f_equal.
  unfold replaces in Hr. rewrite Hb' in Hr. apply bool_decide_eq_false in Hr. symmetry. by apply dec_stable.
Qed.
Lemma on_storage_stores {A} (f : stateful (Watched K) Error A) : along tame f → along stores (on_storage f).
Proof.
  intros Hf n o n'. unfold on_storage. destruct (storage n) as [w|] eqn:Hs.
  - destruct (f w) as [o' w'] eqn:E. intros [= <- <-]. split; [done|]. rewrite Hs. simpl. by eapply Hf.
  - by intros [= <- <-].
Qed.

(** Every call on the way only adds. *)
Ltac stores := repeat first
  [ assumption | apply along_lift; apply _ | apply along_reads; apply _ | apply cold_put_tame
  | apply along_bind; [apply _| |intros ?] | apply on_storage_stores | case_match ].

Lemma put_many_tame l : along tame (put_many (K := Watched K) l).
Proof. induction l as [|[c b] l IH]; cbn [put_many]; stores. Qed.
Lemma put_if_absent_tame c b : along tame (put_if_absent (K := Watched K) c b).
Proof. unfold put_if_absent. stores. Qed.
Lemma add_file_stores data : along stores (add_file (K := Watched K) data).
Proof. unfold add_file. stores. Qed.
Lemma add_bytes_stores data : along stores (add_bytes (K := Watched K) data).
Proof. unfold add_bytes. stores. Qed.
Lemma dag_put_stores v : along stores (dag_put (K := Watched K) v).
Proof. unfold dag_put. stores. Qed.
Lemma fetch_loop_stores l : along stores (fetch_loop (K := Watched K) l).
Proof.
  induction l as [|[b|e| |] l IH]; cbn [fetch_loop]; stores. intros n o n' Hrun. destruct (storage n) as [w|] eqn:Hs.
  - destruct (cold_put (b_cid b) (b_data b) w) as [o' w'] eqn:E. apply cold_put_tame in E.
    destruct o'; injection Hrun as <- <-; (split; [done|]); by rewrite Hs.
  - by injection Hrun as <- <-.
Qed.
Lemma get_stores network c : along stores (Node.get (K := Watched K) network c).
Proof. unfold Node.get, ask_storage. stores. apply fetch_loop_stores. Qed.

Lemma FsEntry_ind' (P : FsEntry → Prop) :
  (∀ data, P (File data)) → (∀ l, Forall (λ p, P p.2) l → P (Dir l)) → P OtherFile → ∀ e, P e.
Proof.
  intros HF HD HO. fix IH 1. intros [data|l|]; [apply HF| |apply HO]. apply HD.
  induction l as [|[nm e] l IHl]; constructor; [apply IH|exact IHl].
Qed.
Lemma add_entry_stores e : along stores (add_entry (K := Watched K) e).
Proof.
  induction e as [data|l IH|] using FsEntry_ind'; cbn [add_entry]; stores.
  generalize (@nil (string * ipld)). induction IH as [|[nm e] l He _ IHl]; intros entries; stores; apply IHl.
Qed.
Lemma add_directory_stores e : along stores (add_directory (K := Watched K) e).
Proof.
  destruct e; cbn [add_directory]; [apply along_lift; apply _| |apply along_lift; apply _].
  apply along_bind; [apply _|apply add_entry_stores|intros; apply along_lift; apply _].
Qed.

(** *** Pins *)
Lemma on_storage_ok n w : storage n = Some w → on_storage (lift (Ok tt)) n = (Ok tt, n).
Proof. destruct n as [s pm]. simpl. by intros ->. Qed.
Lemma ask_storage_eq {A} (f : Watched K → outcome Error A) n w : storage n = Some w → ask_storage f n = (f w, n).
Proof. destruct n as [s pm]. simpl. by intros ->. Qed.
Lemma mark_recursive_loop_grows fuel root : ∀ to_visit visited n o n', booked (pin_manager n) →
  mark_recursive_loop fuel root to_visit visited n = (o, n') →
  storage n' = storage n ∧ booked (pin_manager n') ∧ grows (pin_manager n) (pin_manager n').
Proof.
  induction fuel as [|fuel IH]; intros to_visit visited n o n' Hb Hrun; cbn [mark_recursive_loop] in Hrun.
  { destruct (last to_visit); by injection Hrun as <- <-. }
  destruct (last to_visit) as [c|]; [|by injection Hrun as <- <-].
  destruct (decide (c ∈ visited)); [by eapply IH|]. unfold st_bind at 1 in Hrun.
  destruct (storage n) as [w|] eqn:Hs; [rewrite (ask_storage_eq _ n w Hs) in Hrun|
    unfold ask_storage, on_storage in Hrun; rewrite Hs in Hrun; injection Hrun as <- <-; by rewrite Hs].
  destruct (cold_get c w) as [[b|]| | |]; try (injection Hrun as <- <-; by rewrite Hs).
  - unfold st_bind, lift in Hrun. destruct (data_links b) as [ls| | |]; try (injection Hrun as <- <-; by rewrite Hs).
    destruct (pin_links root ls (removelast to_visit) (pin_manager n)) as [tv pm] eqn:Hpl.
    apply node_pin_links_spec in Hpl as (-> & Hb' & Hg & _); [|done].
    apply IH in Hrun as (-> & Hb'' & Hg'); [|done]. simpl. split_and!; [done..|by etrans].
  - apply IH in Hrun as (-> & ? & ?); [|done]. done.
Qed.

(** *** The guarded graph *)
Section guarded.
Context (r : Cid) (G : gset Cid) (B : gmap Cid bytes).
Hypothesis closed : ∀ c, c ∈ G ↔ rtc (link B) r c.
Hypothesis stored : ∀ c, c ∈ G → is_Some (B !! c).

Definition guarded n : Prop := ∃ w, storage n = Some w ∧ (∀ c, c ∈ G → contents w !! c = B !! c) ∧
  let pm := pin_manager n in keyed pm ∧ booked pm ∧ is_Some (pins pm !! r) ∧ ∀ c, c ∈ G → c = r ∨ c ∈ deps_of pm r.

Lemma guarded_pinned n c : guarded n → c ∈ G → is_pinned c (pin_manager n) = true.
Proof.
  intros (w & _ & _ & _ & Hb & Hr & Hd) Hc. unfold is_pinned, is_directly_pinned.
  destruct (Hd c Hc) as [->|Hc']; [by rewrite bool_decide_true|].
  case_bool_decide; [done|]. apply bool_decide_true. by eapply booked_deps.
Qed.
Lemma guarded_live n w c : guarded n → storage n = Some w → c ∈ G → live (pin_manager n) (contents w) c.
Proof.
  intros (w' & Hs & Hk & _ & _ & Hr & _) Hw Hc. assert (w' = w) as -> by congruence.
  exists r. split; [done|]. apply closed in Hc. revert c Hc. refine (rtc_ind_r (λ c, rtc (link (contents w)) r c) _ (rtc_refl _ _) _).
  intros x c Hx Hl IH. eapply rtc_r; [exact IH|]. destruct Hl as (b & l & Hb & Hl & Hin). exists b, l. split_and!; [|done..].
  rewrite Hk; [done|]. by apply closed.
Qed.
Lemma guarded_stores n n' : unclashed n' → guarded n → stores n n' → guarded n'.
Proof.
  intros Hc (w & Hs & Hk & Hpins) [Hp Ht]. rewrite Hs in Ht. destruct (storage n') as [w'|] eqn:Hs'; [|done].
  unfold unclashed in Hc. rewrite Hs' in Hc. exists w'. rewrite Hp. split_and!; [done| |done].
  intros c HcG. destruct (stored c HcG) as [b Hb]. rewrite Hb. apply Ht; [done|]. by rewrite Hk.
Qed.

Lemma guarded_pin_add n fuel now c recursive nm : guarded n → guarded (pin_add fuel now c recursive nm n).2.
Proof.
  intros (w & Hs & Hk & Hkey & Hb & Hr & Hd). unfold pin_add, has_block. unfold st_bind at 1. rewrite (ask_storage_eq _ n w Hs).
  assert (∀ n1, storage n1 = Some w → keyed (pin_manager n1) → booked (pin_manager n1) → is_Some (pins (pin_manager n1) !! r) →
    deps_of (pin_manager n) r ⊆ deps_of (pin_manager n1) r → guarded n1) as Hdone.
  { intros n1 H1 H2 H3 H4 H5. exists w. split; [done|]. split; [done|]. do 3 (split; [done|]).
    intros x Hx. destruct (Hd x Hx) as [?|Hx'%H5]; auto. }
  destruct (cold_has c w) as [[|]| | |]; try (by apply Hdone).
  cbn [negb]. unfold st_bind at 1, on_pins, modifies. cbn beta iota zeta.
  set (n1 := set_pins (pin now c (if recursive then Recursive else Direct) nm (pin_manager n)) n). assert (guarded n1) as Hn1.
  { apply Hdone; simpl; [done| |done| |done].
    - intros x i. simpl. intros [[<- <-]|[_ Hi]]%lookup_insert_Some; [done|by apply Hkey].
    - destruct (decide (c = r)) as [->|Hne]; [by rewrite lookup_insert_eq; eexists|by rewrite lookup_insert_ne]. }
  destruct recursive; [|done]. unfold mark_recursive_pins, st_bind.
  rewrite (on_storage_ok n1 w) by done.
  destruct (mark_recursive_loop fuel c [c] ∅ n1) as [o n2] eqn:Hrun. apply mark_recursive_loop_grows in Hrun as (Hs2 & Hb2 & Hp2 & Hi2 & Hd2); [|done].
  destruct Hn1 as (w1 & Hw1 & _ & Hkey1 & _ & Hr1 & _). apply Hdone; simpl in *; [by rewrite Hs2| |done| |].
  - intros x i. rewrite <- Hp2. apply Hkey1.
  - by rewrite <- Hp2.
  - apply Hd2.
Qed.

Lemma guarded_exec n op : (∀ b, op ≠ OPinRm r b) → unclashed (exec op n) → guarded n → guarded (exec op n).
Proof.
  intros Hop Hc Hg.
  assert (∀ A (f : stateful (Node (Watched K)) Error A), along stores f → unclashed (f n).2 → guarded (f n).2) as Hst.
  { intros A f Hf Hu. destruct (f n) as [o n'] eqn:E. by eapply guarded_stores; [| |by eapply Hf]. }
  destruct op as [data|data|b|bs|network c|v|e|c|fuel now c rec nm|c rec|fuel dry age]; simpl in *.
  - apply Hst; [apply add_file_stores|done].
  - apply Hst; [apply add_bytes_stores|done].
  - apply Hst; [|done]. unfold put_block. stores.
  - apply Hst; [|done]. apply on_storage_stores, put_many_tame.
  - apply Hst; [apply get_stores|done].
  - apply Hst; [apply dag_put_stores|done].
  - apply Hst; [apply add_directory_stores|done].
  - unfold block_rm. destruct (is_pinned c (pin_manager n)) eqn:Hpin; [done|].
    assert (c ∉ G) as HcG by (intros HcG; by rewrite (guarded_pinned n c Hg HcG) in Hpin).
    destruct Hg as (w & Hs & Hk & Hpins). unfold delete_block, on_storage. rewrite Hs.
    destruct (cold_delete c w) as [o w'] eqn:Hd. exists w'. split_and!; [done| |done]. simpl. intros c' Hc'. rewrite <- Hk by done.
    pose proof (cold_delete_law c w) as Hlaw. rewrite Hd in Hlaw. destruct o; simpl in Hlaw; try done; rewrite Hlaw; [|done].
    apply lookup_delete_ne. by intros ->.
  - by apply guarded_pin_add.
  - unfold pin_rm, on_pins. destruct (unpin c rec (pin_manager n)) as [o pm] eqn:Hu.
    destruct Hg as (w & Hs & Hk & Hkey & Hb & Hr & Hd). apply unpin_spec in Hu as (Hb' & Hx & Hkey'); [|done].
    assert (r ≠ c) as Hne by (intros ->; by eapply Hop). destruct (Hx r Hne) as [Hpr Hdr].
    exists w. simpl. rewrite Hpr, Hdr. split_and!; auto.
  - unfold repo_gc_with_options, on_storage. destruct Hg as (w & Hs & Hk & Hkey & Hrest) eqn:Hgd. rewrite Hs.
    destruct (gc_collect _ _ _ w) as [o w'] eqn:Hgc. apply node_gc_collect_safe in Hgc as (_ & Hlive & _); [|done].
    exists w'. split_and!; [done| |done|apply Hrest..]. simpl. intros c HcG. rewrite <- Hk by done. apply Hlive.
    by eapply guarded_live.
Qed.

End guarded.

(** *** What pinning recursively writes down *)
Definition marks root B (visited : gset Cid) (to_visit : list Cid) pm : Prop :=
  (∀ c, c ∈ visited ∨ c ∈ to_visit → rtc (link B) root c) ∧ (root ∈ visited ∨ root ∈ to_visit) ∧
  ∀ c c', c ∈ visited → link B c c' → c' ∈ deps_of pm root ∧ (c' ∈ visited ∨ c' ∈ to_visit).

Lemma marks_visit root B (visited : gset Cid) f c ls pm pm' :
  marks root B visited (f ++ [c]) pm → (∀ c', link B c c' ↔ c' ∈ ls) → grows pm pm' →
  (∀ c', c' ∈ ls → c' ∈ deps_of pm' root) → marks root B ({[c]} ∪ visited) (f ++ ls) pm'.
Proof.
  intros (Ha & Hb & Hc) Hls (_ & _ & Hd) Hin. assert (rtc (link B) root c) as Hrc by (apply Ha; set_solver). split_and!.
  - intros c' [[->%elem_of_singleton|?]%elem_of_union|[?|Hc'%Hls]%elem_of_app]; [done|apply Ha; set_solver..|by eapply rtc_r].
  - set_solver.
  - intros c1 c2 [->%elem_of_singleton|Hc1]%elem_of_union Hl; [apply Hls in Hl; split; [by apply Hin|set_solver]|].
    destruct (Hc c1 c2 Hc1 Hl) as [Hdep Hv]. split; [by apply Hd|set_solver].
Qed.

Lemma mark_recursive_loop_marks fuel root w : ∀ to_visit (visited : gset Cid) n n',
  storage n = Some w → booked (pin_manager n) → marks root (contents w) visited to_visit (pin_manager n) →
  mark_recursive_loop fuel root to_visit visited n = (Ok tt, n') →
  ∃ visited', marks root (contents w) (visited' : gset Cid) [] (pin_manager n').
Proof.
  induction fuel as [|fuel IH]; intros to_visit visited n n' Hs Hb Hm Hrun;
    destruct (frontier_cases to_visit) as [->|(c & f & -> & Hlast & Hrl)]; cbn [mark_recursive_loop] in Hrun.
  1, 3: injection Hrun as <-; by exists visited.
  { by rewrite Hlast in Hrun. }
  rewrite Hlast, Hrl in Hrun. destruct (decide (c ∈ visited)) as [Hc|Hc].
  { eapply IH; [exact Hs|done| |exact Hrun]. destruct Hm as (H1 & H2 & H3). split_and!; [set_solver..|].
    intros c1 c2 Hc1 Hl. destruct (H3 c1 c2 Hc1 Hl). set_solver. }
  unfold st_bind at 1 in Hrun. rewrite (ask_storage_eq _ n w Hs) in Hrun.
  pose proof (cold_get_law c w) as Hg. destruct (cold_get c w) as [o| | |]; try done. cbn [fails_or] in Hg. subst o.
  destruct (contents w !! c) as [b|] eqn:Hcb.
  - unfold st_bind, lift in Hrun. destruct (data_links b) as [ls| | |] eqn:Hls; try done.
    destruct (pin_links root ls f (pin_manager n)) as [tv pm] eqn:Hpl.
    apply node_pin_links_spec in Hpl as (-> & Hb' & Hgr & Hin); [|done].
    eapply IH; [| | |exact Hrun]; [done..|]. eapply marks_visit; [exact Hm| |exact Hgr|exact Hin].
    intros c'. split; [intros (b' & ls' & ? & ? & ?); congruence|intros ?; by exists b, ls].
  - rewrite <- (app_nil_r f) in Hrun. eapply IH; [exact Hs|done| |exact Hrun]. eapply marks_visit; [exact Hm| |done|].
    + intros c'. split; [intros (b' & ls' & ? & _); congruence|by intros ?%elem_of_nil].
    + by intros c' ?%elem_of_nil.
Qed.

Definition complete B r : Prop := ∀ c, rtc (link B) r c → is_Some (B !! c).

Lemma pin_add_guards fuel now r nm n w n' :
  storage n = Some w → keyed (pin_manager n) → booked (pin_manager n) → complete (contents w) r →
  pin_add fuel now r true nm n = (Ok tt, n') →
  ∃ G, (∀ c, c ∈ G ↔ rtc (link (contents w)) r c) ∧ (∀ c, c ∈ G → is_Some (contents w !! c)) ∧ guarded r G (contents w) n'.
Proof.
  intros Hs Hkey Hb Hcomp. unfold pin_add, has_block. unfold st_bind at 1. rewrite (ask_storage_eq _ n w Hs).
  destruct (cold_has r w) as [[|]| | |]; try done. cbn [negb]. unfold st_bind at 1, on_pins, modifies. cbn beta iota zeta.
  set (n1 := set_pins (pin now r Recursive nm (pin_manager n)) n).
  unfold mark_recursive_pins, st_bind. rewrite (on_storage_ok n1 w) by done. intros Hrun.
  pose proof Hrun as (Hs' & Hb' & Hp' & _ & _)%mark_recursive_loop_grows; [|done].
  destruct (mark_recursive_loop_marks fuel r w [r] ∅ n1 n') as (G & Ha & [HrG|Hn] & Hc); [done|done| |done| |by apply elem_of_nil in Hn].
  { split; [|split; [right; by left|set_solver]]. intros c [?|Hc]; [set_solver|]. apply list_elem_of_singleton in Hc as ->. apply rtc_refl. }
  assert (∀ c, c ∈ G ↔ rtc (link (contents w)) r c) as HG.
  { intros c. split; [intros; apply Ha; by left|]. revert c. apply (rtc_ind_r (λ c, c ∈ G)); [done|].
    intros y z _ Hyz Hy. by destruct (Hc y z Hy Hyz) as [_ [?|?%elem_of_nil]]. }
  exists G. split; [done|]. split; [intros c Hc'; by apply Hcomp, HG|].
  exists w. split; [by rewrite Hs'|]. split; [done|]. cbv zeta. split; [|split; [done|split]].
  - intros c i. rewrite <- Hp'. simpl. intros [[<- <-]|[_ Hi]]%lookup_insert_Some; [done|by apply Hkey].
  - rewrite <- Hp'. simpl. rewrite lookup_insert_eq. by eexists.
  - intros c HcG. apply HG in HcG as Hr. apply rtc_inv_r in Hr as [->|(y & Hy & Hyc)]; [by left|].
    right. apply HG in Hy. by destruct (Hc y c Hy Hyc).
Qed.

(** Runs of calls other than removing the pin of [r], on which no block is replaced by different bytes. *)
Definition node_step r n n' : Prop := ∃ op, (∀ b, op ≠ OPinRm r b) ∧ exec op n = n' ∧ unclashed n'.

(** After a recursive pin of a root whose graph is complete, whatever other calls follow (writes,
    removals of blocks, other pins and their removal, collections, successful or not), as long as the
    pin of the root is not removed and no block is replaced by different bytes, every block of the
    graph stays as it was, and removing one is refused. *)
Theorem node_pin_protects fuel now r nm n w n0 n1 (Hs : storage n = Some w)
    (Hkey : keyed (pin_manager n)) (Hb : booked (pin_manager n)) (Hc : complete (contents w) r)
    (Hpin : pin_add fuel now r true nm n = (Ok tt, n0)) (Hrun : rtc (node_step r) n0 n1) :
  ∃ w', storage n1 = Some w' ∧ ∀ c, rtc (link (contents w)) r c →
    contents w' !! c = contents w !! c ∧ block_rm c n1 = (Err InvalidInput, n1).
Proof.
  destruct (pin_add_guards fuel now r nm n w n0 Hs Hkey Hb Hc Hpin) as (G & HG & Hst & Hg).
  assert (guarded r G (contents w) n1) as Hg1.
  { revert n1 Hrun. apply (rtc_ind_r (λ n1, guarded r G (contents w) n1)); [done|].
    intros x y _ (op & Hop & <- & Hu) Hx. by apply guarded_exec. }
  pose proof Hg1 as (w' & Hs' & Hk & _). exists w'. split; [done|]. intros c Hrc. apply HG in Hrc. split; [by apply Hk|].
  unfold block_rm. by rewrite (guarded_pinned _ _ _ _ c Hg1 Hrc).
Qed.
End protect.

(** ** The two collectors of a node *)
Section collectors.
Context `{CidCrate} `{!HashIter Cid} {K : Type} `{!ColdStore K} `{!ColdLaws K} `{!Reliable K}.
Implicit Types (k : K) (n : Node K) (B : gmap Cid bytes) (c : Cid).

Lemma on_storage_run {A} (f : stateful K Error A) n k o k' :
  storage n = Some k → f k = (o, k') → on_storage f n = (o, mkNode (Some k') (pin_manager n)).
Proof. intros Hs Hf. unfold on_storage. by rewrite Hs, Hf. Qed.

(** On a store that does not fail, whose blocks the decoder takes, a collection ends and deletes
    exactly the blocks that the pins do not reach, direct pins counting like recursive ones; what it
    reports is what it did, and a dry run reports the same and deletes nothing.  The minimal age,
    which is documented to spare recent blocks, has no influence. *)
Theorem node_gc_exact fuel dry age n k (Hs : storage n = Some k) (Hkey : keyed (pin_manager n))
    (Hdec : decodable (contents k)) (Hf : (mark_fuel (pin_manager n) (contents k) ≤ fuel)%nat) :
  ∃ (R : gset Cid) collected k',
    (∀ c, c ∈ R ↔ live (pin_manager n) (contents k) c) ∧
    NoDup collected ∧ (∀ c, c ∈ collected ↔ is_Some (contents k !! c) ∧ c ∉ R) ∧
    repo_gc_with_options fuel dry age n =
      (Ok (mkGcStats (as_u64 (Z.of_nat (length collected))) (as_u64 (Z.of_nat (stored_size (contents k) collected)))
             (size R) (size (contents k)) false), mkNode (Some k') (pin_manager n)) ∧
    contents k' = if dry then contents k else without collected (contents k).
Proof.
  destruct (gc_collect_exact fuel age dry (pin_manager n) k Hkey Hdec Hf) as (R & cids & k' & HR & Hcids & Hrun & Hk').
  exists R, (garbage R cids), k'. split_and!; [done| | |by apply (on_storage_run _ n k)|done].
  - apply NoDup_filter. rewrite Hcids. apply NoDup_elements.
  - intros c. unfold garbage. rewrite list_elem_of_filter, Hcids, elem_of_elements, elem_of_dom. tauto.
Qed.

(** The orphan collector of a node keeps the pinned CIDs and nothing else: on a store of at most a
    thousand blocks it deletes every block that is not itself pinned, also those that a recursive pin
    reaches and that the node reports as pinned. *)
Theorem gc_blocks_ignores_recursion (to_string : Cid → string) `{!Inj (=) (=) to_string} age n k (Hs : storage n = Some k)
    (Hkey : keyed (pin_manager n)) (Hsize : (size (contents k) ≤ 1000)%nat) :
  ∃ r k', gc_blocks to_string false age n = (Ok r, mkNode (Some k') (pin_manager n)) ∧
    ∀ c, contents k' !! c = if decide (is_Some (pins (pin_manager n) !! c)) then contents k !! c else None.
Proof.
  set (pinned := list_to_set (map (λ i, to_string (pin_cid i)) (list_pins (pin_manager n))) : gset string).
  assert (∀ c, to_string c ∈ pinned ↔ is_Some (pins (pin_manager n) !! c)) as Hpin.
  { intros c. unfold pinned. rewrite elem_of_list_to_set, <- list_pins_elem by done.
    rewrite !elem_of_list_map. split; intros (i & Hi & Hin); exists i; [by apply (inj to_string) in Hi|by subst]. }
  destruct (cold_list_ok k) as [all Hall]. pose proof (cold_list_law k) as Hl. rewrite Hall in Hl. simpl in Hl.
  assert (length all = size (contents k)) as Hlen by (rewrite Hl; by rewrite <- size_dom).
  destruct (orphan_loop_exact to_string (mkOrphanConfig false age 1000) pinned ∅ all (mkOrphanResult 0 0 0 []) k)
    as (r & k' & Hrun & _ & _ & _ & _ & Hk'). { rewrite Hl. apply NoDup_elements. }
  exists r, k'. split.
  - apply (on_storage_run _ n k); [done|]. unfold orphan_collect, st_bind, reads. rewrite Hall.
    rewrite take_ge by (simpl; lia). exact Hrun.
  - intros c. rewrite Hk'. simpl. rewrite lookup_without. unfold orphans.
    destruct (decide (is_Some (pins (pin_manager n) !! c))) as [Hc|Hc].
    + rewrite decide_False; [done|]. intros [Hn _]%list_elem_of_filter. apply Hn. unfold orphan_pinned. rewrite elem_of_union. left. by apply Hpin.
    + case_decide as Hin; [done|]. apply not_elem_of_dom. intros Hd. apply Hin. apply list_elem_of_filter. split.
      * unfold orphan_pinned. rewrite elem_of_union. intros [Hp%Hpin|?%not_elem_of_empty]; done.
      * rewrite Hl. by apply elem_of_elements.
Qed.
End collectors.

(** ** Witnesses: a list that links to one of two leaves, pinned recursively *)
Definition closedb `{CidCrate} (B : gmap Cid bytes) (G : gset Cid) : bool :=
  forallb (λ c, match B !! c with
    | Some b => match data_links b with Ok l => forallb (λ c', bool_decide (c' ∈ G)) l | _ => false end
    | None => false end) (elements G).
Lemma closedb_complete `{CidCrate} B G r : r ∈ G → closedb B G = true → complete B r.
Proof.
  unfold closedb. rewrite forallb_forall. intros Hr Hall c Hrc.
  assert (∀ c, c ∈ G → ∃ b l, B !! c = Some b ∧ data_links b = Ok l ∧ ∀ c', c' ∈ l → c' ∈ G) as HG.
  { intros c0 Hc0. specialize (Hall c0). rewrite <- list_elem_of_In, elem_of_elements in Hall. specialize (Hall Hc0).
    destruct (B !! c0) as [b|]; [|done]. destruct (data_links b) as [l| | |] eqn:Hl; try done. exists b, l. split; [done|]. split; [done|].
    rewrite forallb_forall in Hall. intros c' Hc'. apply (bool_decide_eq_true (c' ∈ G)), Hall, list_elem_of_In, Hc'. }
  assert (c ∈ G) as Hc.
  { induction Hrc as [|r x c (b & l & Hb & Hl & Hx) _ IH]; [done|]. apply IH.
    destruct (HG r Hr) as (b' & l' & Hb' & Hl' & Hin). apply Hin. congruence. }
  destruct (HG c Hc) as (b & _ & Hb & _). by eexists.
Qed.

Module NodeDemo.
Import Cid.Reference.
#[local] Existing Instance default_iter.
Definition leaf : Cid := new_v1 RAW (digest Sha2_256 (cbor INull)).
Definition branch : ipld := IList [ILink leaf].
Definition root : Cid := new_v1 RAW (digest Sha2_256 (cbor branch)).
Definition start : Node (Watched MemoryBlockStore) := mkNode (Some (watch MemoryBlockStore_new false)) PinManager_new.
(** Two leaves and the list of the first one. *)
Definition filled : Node (Watched MemoryBlockStore) := (dag_put branch (add_bytes (cbor (IBool true)) (add_bytes (cbor INull) start).2).2).2.
Definition pinned : Node (Watched MemoryBlockStore) := (pin_add 10 7 root true None filled).2.
(** A collection, then the leaf is pinned directly and unpinned. *)
Definition later : Node (Watched MemoryBlockStore) :=
  exec (OPinRm leaf false) (exec (OPinAdd 10 8 leaf false None) (exec (OGc 10 false 0) pinned)).
Definition store_of {K} (n : Node K) (k : K) : K := default k (storage n).
Definition nothing : Watched MemoryBlockStore := watch MemoryBlockStore_new false.
End NodeDemo.
Import Cid.Reference NodeDemo.
#[local] Existing Instance default_iter.

Lemma root_ne_leaf : root ≠ leaf.
Proof. refine (proj1 (bool_decide_eq_false (root = leaf)) _). vm_compute. reflexivity. Qed.
Lemma later_run : rtc (node_step root) pinned later.
Proof.
  assert (∀ op n, (∀ b, op ≠ OPinRm root b) → unclashed (exec op n) → node_step root n (exec op n)) as Hstep.
  { intros op n ? ?. exists op. split; [assumption|]. split; [reflexivity|assumption]. }
  unfold later. eapply rtc_l; [apply (Hstep (OGc 10 false 0)); [intros b Hb; discriminate Hb|vm_compute; reflexivity]|].
  eapply rtc_l; [apply (Hstep (OPinAdd 10 8 leaf false None)); [intros b Hb; discriminate Hb|vm_compute; reflexivity]|].
  eapply rtc_l; [apply (Hstep (OPinRm leaf false)); [|vm_compute; reflexivity]|apply rtc_refl].
  intros b Hb. apply root_ne_leaf. symmetry. exact (f_equal (λ op, match op with OPinRm c _ => c | _ => leaf end) Hb).
Qed.

Lemma storage_of {K} (n : Node K) d : (if storage n then true else false) = true → storage n = Some (store_of n d).
Proof. unfold store_of. by destruct (storage n). Qed.
Lemma keyed_new `{CidCrate} : keyed PinManager_new.
Proof. intros c i Hi. simpl in Hi. by rewrite lookup_empty in Hi. Qed.
Lemma booked_new `{CidCrate} : booked PinManager_new.
Proof. intros x s c Hx. simpl in Hx. by rewrite lookup_empty in Hx. Qed.
Lemma filled_ready : (if storage filled then true else false) = true.
Proof. vm_compute. reflexivity. Qed.
Lemma along_end {S A} (R : S → S → Prop) (f : stateful S Error A) s : along R f → R s (f s).2.
Proof. intros Hf. apply (Hf s (f s).1). apply surjective_pairing. Qed.
Lemma filled_unpinned : pin_manager filled = PinManager_new.
Proof.
  unfold filled. etrans; [apply (along_end stores _ _ (dag_put_stores _))|].
  etrans; [apply (along_end stores _ _ (add_bytes_stores _))|]. apply (along_end stores _ start (add_bytes_stores _)).
Qed.

Lemma pinned_eq : pin_add 10 7 root true None filled = (Ok tt, pinned).
Proof. rewrite (surjective_pairing (pin_add 10 7 root true None filled)). apply (f_equal (λ o, (o, pinned))). vm_compute. reflexivity. Qed.
Lemma filled_complete : complete (contents (store_of filled nothing)) root.
Proof.
  apply (closedb_complete _ ({[root]} ∪ {[leaf]})); [apply elem_of_union_l, elem_of_singleton; reflexivity|vm_compute; reflexivity].
Qed.
Lemma filled_keyed : keyed (pin_manager filled) ∧ booked (pin_manager filled).
Proof. rewrite filled_unpinned. split; [apply keyed_new|apply booked_new]. Qed.

Lemma node_pin_protects_witness : pin_add 10 7 root true None filled = (Ok tt, pinned) ∧
  ∃ w', storage later = Some w' ∧ ∀ c, rtc (link (contents (store_of filled nothing))) root c →
    contents w' !! c = contents (store_of filled nothing) !! c ∧ block_rm c later = (Err InvalidInput, later).
Proof.
  split; [exact pinned_eq|].
  exact (node_pin_protects 10 7 root None filled (store_of filled nothing) pinned later (storage_of filled nothing filled_ready)
    (proj1 filled_keyed) (proj2 filled_keyed) filled_complete pinned_eq later_run).
Defined.

(** The direct pin of the leaf alone: the list and the other leaf are garbage. *)
Definition leaf_pinned : Node (Watched MemoryBlockStore) := set_pins (pin 7 leaf Direct None PinManager_new) filled.
Lemma leaf_pinned_keyed : keyed (pin_manager leaf_pinned).
Proof. intros c i. cbn. intros [[<- <-]|[_ Hi]]%lookup_insert_Some; [reflexivity|]. by rewrite lookup_empty in Hi. Qed.

Lemma node_gc_exact_witness : ∃ (R : gset Cid) collected k',
  (∀ c, c ∈ R ↔ live (pin_manager leaf_pinned) (contents (store_of filled nothing)) c) ∧
  contents k' = without collected (contents (store_of filled nothing)) ∧
  (repo_gc_with_options 20 false 3600 leaf_pinned).2 = mkNode (Some k') (pin_manager leaf_pinned).
Proof.
  destruct (node_gc_exact 20 false 3600 leaf_pinned (store_of filled nothing)) as (R & cids & k' & HR & _ & _ & Hrun & Hk').
  - exact (storage_of filled nothing filled_ready).
  - exact leaf_pinned_keyed.
  - apply decodableb_ok. vm_compute. reflexivity.
  - apply Nat.leb_le. vm_compute. reflexivity.
  - exists R, cids, k'. split; [exact HR|]. split; [exact Hk'|]. by rewrite Hrun.
Defined.

(** The recursive pin of the list: the node reports the leaf it links to as pinned, and its orphan
    collector deletes it. *)
Definition linked_pinned : Node (Watched MemoryBlockStore) := set_pins (pin_manager pinned) filled.
Lemma linked_pinned_keyed : keyed (pin_manager linked_pinned).
Proof.
  destruct (pin_add_guards 10 7 root None filled (store_of filled nothing) pinned (storage_of filled nothing filled_ready)
    (proj1 filled_keyed) (proj2 filled_keyed) filled_complete pinned_eq) as (G & _ & _ & w & _ & _ & Hkey & _). exact Hkey.
Qed.
Definition cid_text (c : Cid) : string := pretty (encode c).
#[local] Instance cid_text_inj : Inj (=) (=) cid_text.
Proof. intros c c' Hc. apply (inj encode), (inj pretty), Hc. Qed.

Lemma gc_blocks_ignores_recursion_witness : is_pinned leaf (pin_manager linked_pinned) = true ∧
  ∃ r k', gc_blocks cid_text false 3600 linked_pinned = (Ok r, mkNode (Some k') (pin_manager linked_pinned)) ∧ contents k' !! leaf = None.
Proof.
  split; [vm_compute; reflexivity|].
  assert (bool_decide (is_Some (pins (pin_manager linked_pinned) !! leaf)) = false) as Hleaf by (vm_compute; reflexivity).
  apply bool_decide_eq_false in Hleaf.
  destruct (gc_blocks_ignores_recursion cid_text 3600 linked_pinned (store_of filled nothing)) as (r & k' & Hrun & Hk').
  - exact (storage_of filled nothing filled_ready).
  - exact linked_pinned_keyed.
  - apply Nat.leb_le. vm_compute. reflexivity.
  - exists r, k'. split; [exact Hrun|]. rewrite Hk'. by rewrite decide_False.
Defined.
